(* ===== verification/_CoqProject ===== *)
-Q . S2P
Prelude.v
Machine.v
Text.v
Wire.v
Partitioner.v
Reshard.v
Store.v
MemoryStore.v
Json.v
Lease.v
Shard.v
Metrics.v
Proto.v
Resp.v
Guard.v
Proc.v
Replica.v
Redis.v
Client.v
Http.v
Journal.v
Cluster.v
DataPlane.v
Concurrent.v
Migration.v
Linear.v
Online.v
Linearizability.v
Races.v
Scans.v
Election.v
Kvdb.v
Lmdb.v
StoreEquiv.v
Poison.v
Backends.v
Durability.v
Ingest.v
Coord.v
Changefeed.v
Rbac.v
NetAuth.v
Gateway.v
CoordServer.v
Node.v
Pipeline.v
Smart.v
Config.v
Tls.v
Daemon.v
Startup.v
Lifetime.v
Examples.v
ClusterExamples.v
RaceExamples.v
LogExamples.v
WireExamples.v
