(* ===== verification/Prelude.v ===== *)
(** * stplr: a verified model of the sharded key-value store

    stplr is a distributed key-value store.  Shards hold objects in collections;
    a coordinator places keys on shards by rendezvous hashing, replicates writes,
    moves data while it keeps serving when the membership changes, and elects a
    leader with leases kept in the store.  Around this core sit a durable ingest
    queue, a change feed, access control and a client that bypasses the
    coordinator; in front of it a JSON-over-HTTP interface (of a shard and of the
    coordinator), a binary protocol with group commit and a Redis-compatible
    one, and a daemon that puts a node together.  This library translates that code (Rust, under [src/src/]) into
    executable definitions and proves what makes it correct.

    ** Files and what they model

    Base:
    - [Prelude]: automation, hint database, lemmas on lists, stable descending
      sort ([Vec::sort_by]).
    - [Machine]: u32, u64 and i64 arithmetic on [Z] with the wrap-around written
      out.
    - [Text]: strings as UTF-8 bytes; ordering, UTF-16 units, decimal numerals,
      zero-padded keys, trimming, splitting, joining, lossy decoding.
    - [Wire]: byte strings, exact reads, length prefixes, JSON as bytes.
    Placement:
    - [Partitioner] (partitioner.rs): FNV-1a, bucket ranking, rack-aware choice.
    - [Reshard] (reshard.rs): the plan of copies and drops between two
      memberships.
    Storage:
    - [Store] (store.rs, trait [IndexStore]): the interface as a class with the
      laws a store promises ([IndexStoreLaws]); the provided methods (scans,
      compare-and-set, increments, sets), proved for every lawful store.
    - [MemoryStore] (store.rs) and [Lmdb] (lmdb.rs, on [Kvdb], the ordered
      databases that stand for LMDB): the two stores, each with its instance of
      the laws; [StoreEquiv]: they give the same answers.  [Poison] (lmdb.rs,
      net.rs): the writes that panic, and what is left of a shard after one.
      [Durability] (lmdb.rs): the disk below the durable store, what a sync, one
      that fails, and a crash leave of it, and snapshots.
    - [Lease] (lease.rs): the lease transition.  [Shard] (shard.rs): every
      operation of a shard over any lawful store.
    Coordination:
    - [Guard] (guard.rs): the bucket gates; tasks interleave as a step relation.
    - [Replica]: what a shard holds as a map, and what each operation does to it.
    - [Client] (client.rs): calls to shards, any of which may be lost or lose its
      reply; the monad in which the coordinator's code is written.
    - [Journal] (journal.rs); [Cluster] (cluster.rs): the coordinator's state,
      routing, data plane and migrations, composed from the above.
    - [DataPlane], [Migration], [Scans]: the theorems about [Cluster].
    - [Proc]: tasks as trees of atomic steps, and a rely-guarantee logic for
      them.  [Concurrent] (cluster.rs, guard.rs): the operations and the
      migration of [Cluster] as such tasks, each access to shared state and each
      call a step of its own, the system of any number of them, and requests
      that are given up half-way ([cancel]).  [Linear]
      (operations), [Online] (the migration) and [Linearizability] (the whole
      system): what it guarantees; [Races]: what it does not.
    - [Smart] (smart.rs): the direct client, against the coordinator.
    - [Election] (coord.rs): the election loop, as polls of several coordinators
      and as rounds over a cluster.
    Front ends:
    - [Proto] (proto.rs): frames, the connection loop, and the server as a step
      relation of connections and the group-commit writer.
    - [Resp] (resp.rs): parser, encoders, command table, connection loop;
      [Redis]: the key space of Redis, and the commands on which the code agrees
      with it.
    - [Http] (net.rs): bodies and queries with their (de)serializers, routes,
      and the HTTP shard client; requests and replies are bytes.  [Coord] (coord.rs): the coordinator's routes.
    - [Gateway] (net.rs, stplrd.rs) and [CoordServer] (coord.rs,
      [serve_addr_full]): the routes of a shard and of a coordinator behind the
      authentication layers, as they are served.  [Pipeline] (ingest.rs,
      coord.rs): the enqueue and the control routes, the queue, the drainer and
      the cluster as one path.  [Node] (net.rs, coord.rs, metrics.rs): the
      complete routers, with their counters, /metrics and /backup.
      [Backends] (stplrd.rs): a node of three front ends and a sweeper, on either
      store.
    - [Metrics] (metrics.rs), [Config] (config.rs: roles, and the node's
      configuration file), [Tls] (tls.rs, and the connection options of net.rs
      and smart.rs), [Daemon] (stplrd.rs: sizes, membership lists, discovery,
      which credential guards which port), [Startup] (stplrd.rs: the flags, and
      what is started for them or why nothing is), [Lifetime] (stplrd.rs,
      cluster.rs: the cluster of a started coordinator, and all that can happen
      to it as a step relation).
    Durable logs and access:
    - [Ingest] (ingest.rs), [Changefeed] (changefeed.rs; the trait is a class with
      laws, both logs are instances), over [Kvdb].
    - [Rbac] (rbac.rs) and [NetAuth] (the authentication layers of net.rs).
    Instances:
    - [Json], [Examples], [ClusterExamples], [RaceExamples], [LogExamples],
      [WireExamples]:
      concrete values, stores, clusters, codecs, connections, and every main
      theorem with hypotheses applied to concrete data.

    ** How state and effects are modelled

    A struct is a record, an enum an inductive type, a [HashMap] a finite map
    whose iteration order is a parameter ([HashIter]) known only to enumerate the
    map.  Shared mutable state is threaded explicitly.  The clock is an argument
    of the store's and the shard's operations; a call of the coordinator reads it
    from the environment at that call.  Shards live in a [world]; calls run in a
    state monad over it, with a fault chosen by the environment for each call.
    The coordinator and the direct client hold their shard clients at this
    interface, with values in place of texts: [Http.http_call_outcomes] shows
    that an HTTP call is one of these calls, delivered, lost or with its reply
    lost, whenever the envelope carries its data (no null, limits within the page
    caps) and no text changes its value.
    [Reliable] says that every call is delivered; the theorems that need it say
    so.
    A critical section under a lock is one step.  There are two views of the
    cluster.  In [Cluster] an operation is one function of the world, and a chunk
    of a migration one step; the theorems about several requests in a row use it.
    In [Concurrent] operations and migrations are tasks that interleave at every
    access and every call, as the async functions do; each does alone what
    [Cluster] says.  A connection's input is the list
    of all bytes its client sends; the binary server interleaves connections and
    the writer freely.  The operation counters, which no handler reads, are kept
    apart from the handlers ([Metrics.shard_route], [Metrics.opcode]).

    Third-party code is a parameter with its documented behaviour: JSON values
    ([JsonValue], [LeaseCodec], [IngestCodec], [EventCodec], [LmdbCodec], their
    text [WireJson] and their object view [JsonEnvelope]), ordered databases
    ([KvDb]), TOML text, PEM files, the TLS library, socket addresses, the
    decoding of query strings and the web framework's limit on bodies.  After a
    crash the durable store's file is one of the environments committed since
    the last successful sync, which is what LMDB documents for a file system that
    keeps the order of writes; whether a sync succeeds is up to the environment
    ([SyncEnv]).  The stores' operations are total functions; on the durable store
    an operation that LMDB refuses panics, and its function gives the environment
    it leaves behind ([Poison] says which do, and that those within the conditions
    of the theorems on the durable store do not).

    ** What the theorems show

    - Placement: a key's owners are distinct members, as many as the replication
      factor allows, led by the best-ranked node and spread over racks; they do
      not depend on the order of the member list while hashes are distinct (two
      ids that collide do make it matter); a membership change moves only what it
      must, and a plan copies and drops exactly the difference.
    - Stores: scans, compare-and-set, counters and sets meet their
      specifications on every lawful store; the sweep reclaims exactly the
      expired objects.  A node on the durable store, with its sweeper, cannot be
      told from one on the in-memory store through any front end, the order of
      exports apart.
    - Durability: a write followed by 2,048 counted writes survives any crash, if
      the next sync succeeds (a batch counts as one, so many more writes than that
      can be lost; while syncs fail, all of them); a snapshot flushes what is
      pending, if its sync succeeds, passes its inspection, and restores a store
      with the same answers from then on.  One write under a key LMDB refuses
      stops the shard for good.
    - Leases: at most one holder at a time, fencing tokens strictly increase
      with each change of hands, and the shard's lease operation refines the
      transition.
    - Gates: while a chunk is being copied no operation is inside its buckets; no
      wake-up is lost; no deadlock.
    - Cluster: with all calls delivered, the replicated data plane refines one
      map; reads fail over; batch reads, merged pages and the partition plan
      return exactly the stored keys; a rebalance preserves all data, also
      interleaved with operations, and an interrupted one can be resumed, by the
      same coordinator or by one that starts again and finds the journal.
    - Concurrency: any number of clients, and an administrator who rebalances,
      drains and takes shards in, are linearizable to one map in whatever order
      their steps come, and come to an end with every request answered and each
      key on its new owners.  This asks that no two writes of one key are in
      flight together and that changes of the membership are requested one at a
      time; without it, two puts leave the replicas different, and a rebalance
      that waited commits members that no longer hold the data.  It also asks that
      no request is given up half-way: a rebalance whose connection breaks leaves
      the buckets of its chunk closed to every operation.
    - The life of a cluster: from
      the command line on, through any sequence of operations, joins, moves,
      drains and interrupted moves, the cluster is one map.  Exceptions are
      stated: a move to names the coordinator does not know drops the data of
      their buckets; a restart without the journal, the daemon's, routes by the
      command line; lost exports pass for empty ones; a batch read passes no
      gate and may miss what a rebalance moves meanwhile.
    - Direct client: after a refresh, the same function of the world as the
      coordinator, operation by operation.
    - Logs: the ingest queue delivers accepted operations in order and at least
      once across restarts with work pending, and exactly once unless a restart
      interrupts a drain; after a restart of a fully drained queue it loses
      writes.  From the enqueue route to the replicas, every
      accepted write is applied in order within one drainer tick per 1,024 of
      them, as long as calls are delivered, also while control requests change
      the membership; when no shard can be reached the
      drainer drops them.  Consumer groups of the change feed see every event
      once, in order; a restart of a fully compacted log reuses numbers.
    - Access: only requests whose token is granted the operation on the
      collection they name get through, and such a request changes no collection
      beyond the token's grants; but with a query parameter that names another
      collection than the body it does, and a backup needs no more than that.
      Control operations run only on a coordinator that believes it leads, for a
      token with admin permission.
    - Binary protocol: whatever the interleaving, the server behaves as if the
      requests ran one at a time, replies included, and acknowledged writes are
      committed; it makes progress; a connection is a faithful remote call; an
      unauthenticated one is inert; its loop ends on every finite input.
    - RESP: commands survive the wire, each gets one well-formed reply, the
      command set behaves like Redis's key space, SCAN is complete, an
      unauthenticated connection is inert.  Exceptions are stated: an increment
      that overflows wraps around and one of text that is almost a number counts
      it, commands on a key of the other kind do not fail, a reply can be split by
      a command name with a line end, a key named 0 ends a scan.
    - HTTP: a remote shard, and a coordinator, behave like the local operation
      through the texts of request and reply, except for bodies above the limit
      or that do not parse back, page caps and nulls.
    - Election: over one lease owner, at most one coordinator leads among those
      whose last poll is younger than the lease; a rebalance can forget the
      leader.
    - Daemon and metrics: role and membership lists read back as written; a
      scrape reads the counters and the cluster's gauges back, and reports how
      many requests of each kind were answered; a saved
      configuration loads back; the command line written for a record of
      arguments is read as that record.  A shard started with a token asks for
      the credential on every port it opens, whatever the other flags; without a
      token, a policy leaves the binary port open.

    ** Bounds and fuel

    Loops of the source are structural recursions except these: [scan_buckets]
    pages through a collection with one round per stored key and one more as
    fuel (each full page consumes keys; [scan_buckets_spec] shows it suffices);
    [chunks] uses the length of the list; the two connection loops and their
    parsers use the length of the input and one more, since every round consumes
    a byte ([Proto.handle_terminates], [Resp.resp_handle_terminates] show that
    any larger fuel gives the same result).  Decimal printing uses 20 digits,
    the most a u64 has.  Theorems about numbered logs assume fewer than 2^64
    entries, stated as a hypothesis.  The sync counter is a u64 that wraps; its
    period of 2,048 divides 2^64.  A batch of the binary writer holds at most
    512 writes and its channel 2048, as in the source.  The tasks of
    [Concurrent] are finite trees, so a run without new requests ends
    ([Linearizability.online_completes]).

    ** What is not modelled

    Sockets and their TLS sessions, timers (the sweeper, the elector, the
    drainer and the refresher are rounds that happen at any time), the exact
    flush of replies, and the memory a length prefix reserves; the text of JSON,
    of TOML and of query strings; a body with a repeated key; the uptime gauge;
    what the daemon prints; I/O errors of the durable stores other than a failing
    sync, on which the source panics or gives up the operation; operations given
    up by their clients in the theorems of [Linearizability]; clients in other
    languages.  [Http.app] and
    [CoordServer.routes] leave /metrics and /backup to [Node].  A migration and a
    tick of the drainer follow one another ([Ingest] interleaves the steps of a
    drain with accepts and restarts), and so do scans, batch reads and
    bulk loads and a migration, except in [Races].
    Next in line: calls that fail during a whole migration, beyond the lemmas of
    [Migration], and a shard that restarts under a running coordinator. *)

From Stdlib Require Export Lia ZArith Ascii.
From stdpp Require Export sorting.
From stdpp Require Export prelude gmap strings numbers list.

(** ** Automation *)

(** The hint database of the development: structural facts about sorting,
    placement and store updates. *)
Create HintDb stplr.

(** [destr b]: case analysis on a boolean comparison, turning it into the
    proposition it decides. *)
Ltac destr_cmp :=
  match goal with
  | |- context [?a <? ?b] => destruct (Z.ltb_spec a b)
  | |- context [?a <=? ?b] => destruct (Z.leb_spec a b)
  | |- context [(?a <? ?b)%nat] => destruct (Nat.ltb_spec a b)
  | |- context [(?a <=? ?b)%nat] => destruct (Nat.leb_spec a b)
  end.

(** [break]: destruct the scrutinee of a [match] in the goal or a
    hypothesis, keeping the equation. *)
Ltac break :=
  match goal with
  | |- context [match ?x with _ => _ end] =>
      lazymatch x with
      | context [match _ with _ => _ end] => fail
      | _ => destruct x eqn:?
      end
  | H : context [match ?x with _ => _ end] |- _ =>
      lazymatch x with
      | context [match _ with _ => _ end] => fail
      | _ => destruct x eqn:?
      end
  end.

(** [crush]: case analysis, simplification and linear arithmetic. *)
Ltac crush := repeat (break; simplify_eq/=); try done; try lia.

(** ** Lists *)

Section lists.
Context {A : Type}.
Implicit Types (l k : list A).

Lemma NoDup_sub_app_inv l1 l2 x : NoDup (l1 ++ l2) → x ∈ l1 → x ∉ l2.
Proof. intros (_ & H & _)%NoDup_app. apply H. Qed.

Lemma elem_of_take n l x : x ∈ take n l → x ∈ l.
Proof. intros H. rewrite <-(take_drop n l), elem_of_app. by left. Qed.

Lemma NoDup_take n l : NoDup l → NoDup (take n l).
Proof. rewrite <-(take_drop n l) at 1. by intros (? & _ & _)%NoDup_app. Qed.

Lemma take_min_length n (k : nat) l : length l = k → take (n `min` k) l = take n l.
Proof. intros <-. destruct (Nat.min_spec n (length l)) as [[? ->]|[? ->]]; [done|].
  by rewrite !take_ge by lia.
Qed.

Lemma head_take n l : n ≠ 0 → head (take n l) = head l.
Proof. destruct n, l; done. Qed.

Lemma filter_all (P : A → Prop) `{!∀ x, Decision (P x)} l :
  (∀ x, x ∈ l → P x) → filter P l = l.
Proof.
  induction l as [|x l IH]; intros HP; [done|].
  rewrite filter_cons_True by (apply HP; left).
  f_equal. apply IH. intros y Hy. apply HP. by right.
Qed.

Lemma filter_none (P : A → Prop) `{!∀ x, Decision (P x)} l :
  (∀ x, x ∈ l → ¬ P x) → filter P l = [].
Proof.
  induction l as [|x l IH]; intros HP; [done|].
  rewrite filter_cons_False by (apply HP; left).
  apply IH. intros y Hy. apply HP. by right.
Qed.

Lemma filter_ext_in (P Q : A → Prop) `{!∀ x, Decision (P x)} `{!∀ x, Decision (Q x)} l :
  (∀ x, x ∈ l → P x ↔ Q x) → filter P l = filter Q l.
Proof.
  induction l as [|x l IH]; intros HPQ; [done|].
  rewrite !filter_cons, IH by (intros y Hy; apply HPQ; by right).
  assert (P x ↔ Q x) by (apply HPQ; left). repeat case_decide; tauto.
Qed.

Lemma list_nil_iff l : l = [] ↔ ∀ x, x ∉ l.
Proof. split; [intros ->; apply not_elem_of_nil|]. apply elem_of_nil_inv. Qed.

Lemma filter_filter_comm (P Q : A → Prop) `{!∀ x, Decision (P x)}
    `{!∀ x, Decision (Q x)} l :
  filter P (filter Q l) = filter Q (filter P l).
Proof.
  induction l as [|x l IH]; [done|].
  rewrite !filter_cons. repeat case_decide;
    rewrite ?filter_cons; repeat case_decide; try done; by f_equal.
Qed.

Lemma StronglySorted_filter (R : relation A) (P : A → Prop)
    `{!∀ x, Decision (P x)} l :
  StronglySorted R l → StronglySorted R (filter P l).
Proof.
  induction 1 as [|x l Hl IH Hx]; [constructor|].
  rewrite filter_cons. case_decide; [|done].
  constructor; [done|]. apply Forall_forall. intros y.
  rewrite list_elem_of_filter. intros [_ Hy]. by eapply Forall_forall in Hx.
Qed.

Lemma StronglySorted_take (R : relation A) n l :
  StronglySorted R l → StronglySorted R (take n l).
Proof.
  intros Hl. rewrite <-(take_drop n l) in Hl.
  by apply StronglySorted_app_1_l in Hl.
Qed.

End lists.

(** Filtering an association list keeps its keys distinct. *)
Lemma NoDup_fst_filter {K V} (P : K * V → Prop) `{!∀ x, Decision (P x)} l :
  NoDup (map fst l) → NoDup (map fst (filter P l)).
Proof.
  induction l as [|[k v] l IH]; intros Hnd; [constructor|].
  cbn in Hnd. apply NoDup_cons in Hnd as [Hk Hnd]. rewrite filter_cons.
  case_decide; [|by apply IH]. cbn. apply NoDup_cons. split; [|by apply IH].
  rewrite list_elem_of_fmap in *. intros ([k' v'] & -> & [_ Hin]%list_elem_of_filter).
  apply Hk. by exists (k', v').
Qed.

#[export] Hint Resolve NoDup_take NoDup_fst_filter StronglySorted_filter StronglySorted_take : stplr.

(** ** Stable sorting by a descending integer key

    Rust's [slice::sort_by] is a stable sort; this is the reference
    definition the placement code is modelled with. *)

Section stable_sort.
Context {A : Type} (key : A → Z).
Implicit Types (l : list A) (x y : A).

Fixpoint insert_desc x l : list A :=
  match l with
  | [] => [x]
  | y :: l' => if (key y <=? key x)%Z then x :: y :: l' else y :: insert_desc x l'
  end.

Definition sort_desc l : list A := foldr insert_desc [] l.

Definition key_ge x y : Prop := (key y ≤ key x)%Z.

Lemma insert_desc_perm x l : insert_desc x l ≡ₚ x :: l.
Proof.
  induction l as [|y l IH]; simpl; [done|].
  destruct (Z.leb_spec (key y) (key x)); [done|].
  rewrite IH. apply Permutation_swap.
Qed.

Lemma sort_desc_perm l : sort_desc l ≡ₚ l.
Proof. induction l as [|x l IH]; simpl; [done|]. by rewrite insert_desc_perm, IH. Qed.

Lemma insert_desc_sorted x l :
  StronglySorted key_ge l → StronglySorted key_ge (insert_desc x l).
Proof.
  induction 1 as [|y l Hl IH Hy]; simpl; [repeat constructor|].
  destruct (Z.leb_spec (key y) (key x)) as [Hle|Hlt].
  - constructor; [by constructor|]. constructor; [done|].
    eapply Forall_impl; [exact Hy|]. unfold key_ge. intros z ?; simpl in *; lia.
  - constructor; [done|]. rewrite insert_desc_perm. constructor; [|done].
    unfold key_ge. lia.
Qed.

Lemma sort_desc_sorted l : StronglySorted key_ge (sort_desc l).
Proof. induction l; simpl; [constructor|]. by apply insert_desc_sorted. Qed.

Lemma filter_insert_desc (P : A → Prop) `{!∀ x, Decision (P x)} x l :
  StronglySorted key_ge l →
  filter P (insert_desc x l) =
    (if decide (P x) then insert_desc x (filter P l) else filter P l).
Proof.
  induction 1 as [|y l Hl IH Hy]; simpl; [done|].
  destruct (Z.leb_spec (key y) (key x)) as [Hle|Hlt].
  - rewrite (filter_cons _ x). case_decide as Hx; [|done].
    rewrite filter_cons. case_decide; simpl.
    { by destruct (Z.leb_spec (key y) (key x)); [|lia]. }
    destruct (filter P l) as [|z k] eqn:Hz; simpl; [done|].
    assert (z ∈ l) as Hin by (apply (list_elem_of_filter P); rewrite Hz; left).
    eapply Forall_forall in Hy; [|done]. unfold key_ge in Hy.
    by destruct (Z.leb_spec (key z) (key x)); [|lia].
  - rewrite !(filter_cons _ y), IH. do 2 case_decide; simpl; try done.
    by destruct (Z.leb_spec (key y) (key x)); [lia|].
Qed.

(** A stable sort commutes with removing elements. *)
Lemma sort_desc_filter (P : A → Prop) `{!∀ x, Decision (P x)} l :
  filter P (sort_desc l) = sort_desc (filter P l).
Proof.
  induction l as [|x l IH]; simpl; [done|].
  rewrite filter_insert_desc by apply sort_desc_sorted.
  rewrite filter_cons, IH. by case_decide.
Qed.

(** When no two elements share a key, the result depends on the elements only,
    not on the order they came in. *)
Lemma sort_desc_Permutation l1 l2 :
  (∀ x y, x ∈ l1 → y ∈ l1 → key x = key y → x = y) →
  l1 ≡ₚ l2 → sort_desc l1 = sort_desc l2.
Proof.
  intros Hinj Hperm.
  apply (StronglySorted_unique_strong key_ge).
  - intros x1 x2. rewrite !sort_desc_perm, <-Hperm. unfold key_ge.
    intros ????. apply Hinj; [done..|lia].
  - apply sort_desc_sorted.
  - apply sort_desc_sorted.
  - by rewrite !sort_desc_perm.
Qed.

End stable_sort.

Lemma insert_desc_fmap {A B} (f : A → B) (key : B → Z) x l :
  insert_desc key (f x) (map f l) = map f (insert_desc (key ∘ f) x l).
Proof. induction l as [|y l IH]; simpl; [done|]. rewrite IH. by destruct (_ <=? _)%Z. Qed.

Lemma sort_desc_fmap {A B} (f : A → B) (key : B → Z) l :
  sort_desc key (map f l) = map f (sort_desc (key ∘ f) l).
Proof. induction l as [|x l IH]; simpl; [done|]. by rewrite IH, insert_desc_fmap. Qed.

#[export] Hint Resolve sort_desc_sorted sort_desc_perm : stplr.
