(* ===== verification/Machine.v ===== *)
(** * Machine integers

    The source computes with [u8], [u16], [u32], [u64], [usize] and [i64].
    They are modelled as [Z] with the wrap-around written out.  Plain [+] and
    [*] on [u64] are the release-profile operations (no overflow check):
    they wrap modulo [2^64]. *)

From S2P Require Import Prelude.

Local Open Scope Z_scope.

Definition u32_modulus : Z := 2 ^ 32.
Definition u64_modulus : Z := 2 ^ 64.

Definition is_u32 (z : Z) : Prop := 0 ≤ z < u32_modulus.
Definition is_u64 (z : Z) : Prop := 0 ≤ z < u64_modulus.
Definition is_i64 (z : Z) : Prop := - 2 ^ 63 ≤ z < 2 ^ 63.

Definition u32_wrapping_mul (a b : Z) : Z := (a * b) mod u32_modulus.
Definition u32_wrapping_add (a b : Z) : Z := (a + b) mod u32_modulus.
Definition u64_add (a b : Z) : Z := (a + b) mod u64_modulus.
Definition u64_mul (a b : Z) : Z := (a * b) mod u64_modulus.
Definition saturating_sub (a b : Z) : Z := Z.max 0 (a - b).

(** [i64::wrapping_add]. *)
Definition i64_wrap (z : Z) : Z := (z + 2 ^ 63) mod 2 ^ 64 - 2 ^ 63.
Definition i64_wrapping_add (a b : Z) : Z := i64_wrap (a + b).

(** ** Range facts *)

Lemma u32_wrapping_mul_range a b : is_u32 (u32_wrapping_mul a b).
Proof. apply Z.mod_pos_bound. done. Qed.

Lemma u64_add_range a b : is_u64 (u64_add a b).
Proof. apply Z.mod_pos_bound. done. Qed.

Lemma u64_add_small a b : 0 ≤ a → 0 ≤ b → a + b < u64_modulus → u64_add a b = a + b.
Proof. intros. apply Z.mod_small. lia. Qed.

Lemma i64_wrap_range z : is_i64 (i64_wrap z).
Proof.
  unfold is_i64, i64_wrap. pose proof (Z.mod_pos_bound (z + 2 ^ 63) (2 ^ 64)). lia.
Qed.

Lemma i64_wrap_small z : is_i64 z → i64_wrap z = z.
Proof. unfold is_i64, i64_wrap. intros. rewrite Z.mod_small; lia. Qed.

(** Wrapping additions compose: only the total matters modulo [2^64]. *)
Lemma i64_wrap_add_l a b : i64_wrap (i64_wrap a + b) = i64_wrap (a + b).
Proof.
  unfold i64_wrap. f_equal.
  replace ((a + 2 ^ 63) mod 2 ^ 64 - 2 ^ 63 + b + 2 ^ 63)
    with ((a + 2 ^ 63) mod 2 ^ 64 + b) by lia.
  rewrite Zplus_mod_idemp_l. f_equal. lia.
Qed.

Lemma lxor_range n a b : 0 ≤ n → 0 ≤ a < 2 ^ n → 0 ≤ b < 2 ^ n → 0 ≤ Z.lxor a b < 2 ^ n.
Proof.
  intros Hn [Ha1 Ha2] [Hb1 Hb2].
  assert (0 ≤ Z.lxor a b) by (apply Z.lxor_nonneg; lia).
  split; [done|]. destruct (decide (Z.lxor a b = 0)) as [->|Hne]; [lia|].
  apply Z.log2_lt_pow2; [lia|].
  destruct (decide (a = 0)) as [->|]; [rewrite Z.lxor_0_l in *; apply Z.log2_lt_pow2; lia|].
  destruct (decide (b = 0)) as [->|]; [rewrite Z.lxor_0_r in *; apply Z.log2_lt_pow2; lia|].
  pose proof (Z.log2_lxor a b Ha1 Hb1).
  apply Z.log2_lt_pow2 in Ha2; [|lia]. apply Z.log2_lt_pow2 in Hb2; lia.
Qed.

Lemma lxor_u32 a b : is_u32 a → is_u32 b → is_u32 (Z.lxor a b).
Proof. apply (lxor_range 32). done. Qed.

Lemma shiftr_u32 a k : 0 ≤ k → is_u32 a → is_u32 (Z.shiftr a k).
Proof.
  intros Hk [H0 H1]. rewrite Z.shiftr_div_pow2 by done.
  assert (0 < 2 ^ k) by (apply Z.pow_pos_nonneg; lia).
  split; [by apply Z.div_pos|].
  apply Z.le_lt_trans with a; [|done]. apply Z.div_le_upper_bound; nia.
Qed.

(** ** Injectivity of the mixing steps of the hash *)

Lemma lxor_inj_r c a b : Z.lxor a c = Z.lxor b c → a = b.
Proof.
  intros H. apply (f_equal (λ z, Z.lxor z c)) in H.
  by rewrite !Z.lxor_assoc, Z.lxor_nilpotent, !Z.lxor_0_r in H.
Qed.

(** [x ^ (x >> k)] determines [x]. *)
Lemma xorshift_inj k a b :
  0 < k → 0 ≤ a → 0 ≤ b →
  Z.lxor a (Z.shiftr a k) = Z.lxor b (Z.shiftr b k) → a = b.
Proof.
  intros Hk Ha Hb Heq. set (d := Z.lxor a b).
  assert (Hd0 : 0 ≤ d) by (apply Z.lxor_nonneg; lia).
  assert (Hd : d = Z.shiftr d k).
  { apply Z.lxor_eq. unfold d. rewrite Z.shiftr_lxor.
    rewrite Z.lxor_assoc, <-(Z.lxor_assoc b), (Z.lxor_comm b), Z.lxor_assoc.
    rewrite <-Z.lxor_assoc, Heq. apply Z.lxor_nilpotent. }
  rewrite Z.shiftr_div_pow2 in Hd by lia.
  assert (2 ≤ 2 ^ k) by (replace 2 with (2 ^ 1) at 1 by done; apply Z.pow_le_mono_r; lia).
  assert (d = 0).
  { destruct (decide (d = 0)); [done|].
    pose proof (Z.div_lt d (2 ^ k)). lia. }
  by apply Z.lxor_eq.
Qed.

(** Multiplication by a constant with an inverse modulo [2^32] is injective. *)
Lemma wrapping_mul_inj c c' a b :
  (c * c') mod u32_modulus = 1 → is_u32 a → is_u32 b →
  u32_wrapping_mul a c = u32_wrapping_mul b c → a = b.
Proof.
  unfold u32_wrapping_mul. intros Hinv Ha Hb Heq.
  assert (Hback : ∀ x, is_u32 x → ((x * c) mod u32_modulus * c') mod u32_modulus = x).
  { intros x Hx. rewrite Zmult_mod_idemp_l, <-Z.mul_assoc, <-Zmult_mod_idemp_r, Hinv.
    rewrite Z.mul_1_r. by apply Z.mod_small. }
  by rewrite <-(Hback a Ha), <-(Hback b Hb), Heq.
Qed.

#[export] Hint Resolve u32_wrapping_mul_range u64_add_range i64_wrap_range
  lxor_u32 shiftr_u32 : stplr.
