(* ===== verification/Text.v ===== *)
(** * Strings

    A Rust [str] is modelled by the sequence of its UTF-8 bytes ([string], one
    [ascii] per byte), so that equality, ordering ([Ord for str] is bytewise)
    and prefixes are those of the source.  The file holds the standard-library
    string operations the source uses: UTF-16 encoding (the hash), ordering and
    prefixes (scans), decimal printing and parsing (log keys, counters), and
    splitting and trimming (configuration strings). *)

From S2P Require Import Prelude Machine.

Local Open Scope Z_scope.

(** ** Bytes, UTF-8 and UTF-16 *)

Definition byte_val (a : ascii) : Z := Z.of_N (N_of_ascii a).

Fixpoint bytes_of (s : string) : list Z :=
  match s with
  | EmptyString => []
  | String a s' => byte_val a :: bytes_of s'
  end.

Definition cont (b : Z) : Z := Z.land b 63.

(** The code points of a UTF-8 byte sequence.  A Rust [str] is always
    well-formed; a malformed byte (impossible there) decodes to U+FFFD. *)
Fixpoint decode_utf8 (bs : list Z) : list Z :=
  match bs with
  | [] => []
  | b0 :: rest =>
      if b0 <? 128 then b0 :: decode_utf8 rest
      else if b0 <? 224 then
        match rest with
        | b1 :: rest' => (Z.shiftl (Z.land b0 31) 6 + cont b1) :: decode_utf8 rest'
        | [] => [65533]
        end
      else if b0 <? 240 then
        match rest with
        | b1 :: b2 :: rest' =>
            (Z.shiftl (Z.land b0 15) 12 + Z.shiftl (cont b1) 6 + cont b2)
              :: decode_utf8 rest'
        | _ => [65533]
        end
      else
        match rest with
        | b1 :: b2 :: b3 :: rest' =>
            (Z.shiftl (Z.land b0 7) 18 + Z.shiftl (cont b1) 12
               + Z.shiftl (cont b2) 6 + cont b3) :: decode_utf8 rest'
        | _ => [65533]
        end
  end.

(** [char::encode_utf16] of one code point. *)
Definition utf16_units (c : Z) : list Z :=
  if c <? 65536 then [c]
  else [55296 + Z.shiftr (c - 65536) 10; 56320 + Z.land (c - 65536) 1023].

(** [str::encode_utf16]. *)
Definition encode_utf16 (s : string) : list Z :=
  decode_utf8 (bytes_of s) ≫= utf16_units.

Example encode_utf16_ascii : encode_utf16 "s0" = [115; 48].
Proof. reflexivity. Qed.

(** ** Ordering and prefixes *)

Definition str_ltb (a b : string) : bool := String.ltb a b.
Definition str_lt (a b : string) : Prop := String.le a b ∧ a ≠ b.

(** [str::starts_with]. *)
Definition starts_with (p s : string) : bool := String.prefix p s.

Lemma string_compare_refl s : String.compare s s = Eq.
Proof.
  induction s as [|a s IH]; [done|]. simpl. unfold Ascii.compare.
  by rewrite N.compare_refl.
Qed.

Lemma str_ltb_spec a b : str_ltb a b = true ↔ str_lt a b.
Proof.
  unfold str_ltb, str_lt, String.ltb, String.le, String.leb. split.
  - destruct (String.compare a b) eqn:E; [done| |done]. intros _. split; [done|].
    intros ->. by rewrite string_compare_refl in E.
  - intros [Hle Hne]. destruct (String.compare a b) eqn:E; [|done|done].
    by apply String.compare_eq_iff in E.
Qed.

#[global] Instance str_lt_dec : RelDecision str_lt.
Proof. intros a b. unfold str_lt. apply _. Defined.

#[global] Instance str_lt_strict : StrictOrder str_lt.
Proof.
  split.
  - intros x [_ H]. done.
  - intros x y z [Hxy Hn1] [Hyz Hn2]. split; [by etrans|].
    intros ->. apply Hn1. by apply (anti_symm String.le).
Qed.

Lemma str_lt_not_le a b : str_lt a b ↔ ¬ String.le b a.
Proof.
  split.
  - intros [Hle Hne] Hge. apply Hne. by apply (anti_symm String.le).
  - intros Hn. destruct (total String.le a b) as [?|?]; [|done].
    split; [done|]. intros ->. by apply Hn.
Qed.

(** ** Sorted lists of keys *)

(** [Vec<String>::sort] and the iteration order of [BTreeSet<String>]. *)
Definition sort_strings (l : list string) : list string := merge_sort String.le l.

Lemma sort_strings_perm l : sort_strings l ≡ₚ l.
Proof. apply merge_sort_Permutation. Qed.

Lemma sort_strings_sorted l : StronglySorted String.le (sort_strings l).
Proof. apply (StronglySorted_merge_sort _). Qed.

Lemma elem_of_sort_strings l x : x ∈ sort_strings l ↔ x ∈ l.
Proof. by rewrite sort_strings_perm. Qed.

(** A duplicate-free ascending list is strictly ascending. *)
Lemma sorted_strict l : NoDup l → StronglySorted String.le l → StronglySorted str_lt l.
Proof.
  intros Hnd. induction 1 as [|x l Hl IH Hx]; [constructor|].
  apply NoDup_cons in Hnd as [Hni Hnd]. constructor; [by apply IH|].
  apply Forall_forall. intros y Hy. eapply Forall_forall in Hx; [|done].
  split; [done|]. by intros ->.
Qed.

Lemma sort_strings_strict l : NoDup l → StronglySorted str_lt (sort_strings l).
Proof.
  intros Hnd. apply sorted_strict; [by rewrite sort_strings_perm|].
  apply sort_strings_sorted.
Qed.

Lemma strict_sorted_NoDup l : StronglySorted str_lt l → NoDup l.
Proof.
  induction 1 as [|x l Hl IH Hx]; constructor; [|done].
  intros Hin. eapply Forall_forall in Hx; [|done]. by apply irreflexivity in Hx; [|apply _].
Qed.

(** Two strictly ascending lists with the same elements are equal. *)
Lemma strict_sorted_ext l1 l2 :
  StronglySorted str_lt l1 → StronglySorted str_lt l2 →
  (∀ x, x ∈ l1 ↔ x ∈ l2) → l1 = l2.
Proof.
  intros H1 H2 Hext. apply (StronglySorted_unique_strong str_lt); [|done|done|].
  - intros x1 x2 _ _ Hlt Hlt'. exfalso.
    eapply (irreflexivity str_lt x1). by etrans.
  - apply NoDup_Permutation; [by apply strict_sorted_NoDup..|done].
Qed.

#[export] Hint Resolve sort_strings_strict strict_sorted_NoDup sort_strings_sorted : stplr.

(** ** Decimal numerals *)

Definition digit_char (d : Z) : ascii := ascii_of_N (Z.to_N (48 + d)).

Definition digit_val (a : ascii) : option Z :=
  let v := byte_val a in
  if (48 <=? v) && (v <=? 57) then Some (v - 48) else None.

Fixpoint dec_go (fuel : nat) (n : Z) (acc : string) : string :=
  match fuel with
  | O => acc
  | S f =>
      let acc' := String (digit_char (n mod 10)) acc in
      if n <? 10 then acc' else dec_go f (n / 10) acc'
  end.

(** [u64::to_string]: 20 digits are enough below [2^64]. *)
Definition u64_to_string (n : Z) : string := dec_go 20 n EmptyString.

(** [i64::to_string]: the magnitude is at most [2^63]. *)
Definition i64_to_string (n : Z) : string :=
  if n <? 0 then String "-" (dec_go 20 (- n) EmptyString) else dec_go 20 n EmptyString.

Fixpoint repeat_char (a : ascii) (k : nat) (s : string) : string :=
  match k with O => s | S k' => String a (repeat_char a k' s) end.

(** [format!("{n:0w$}")]: pad with zeros on the left up to the width. *)
Definition zero_pad (w : nat) (s : string) : string :=
  repeat_char "0" (w - String.length s) s.

Fixpoint parse_digits (s : string) (acc : Z) : option Z :=
  match s with
  | EmptyString => Some acc
  | String a s' => d ← digit_val a; parse_digits s' (acc * 10 + d)
  end.

Definition parse_nonempty (s : string) : option Z :=
  match s with EmptyString => None | _ => parse_digits s 0 end.

Definition in_range (lo hi : Z) (z : Z) : option Z :=
  if (lo <=? z) && (z <? hi) then Some z else None.

(** [str::parse::<u64>]: an optional [+], at least one digit, no overflow. *)
Definition parse_u64 (s : string) : option Z :=
  match s with
  | String "+" s' => parse_nonempty s' ≫= in_range 0 u64_modulus
  | _ => parse_nonempty s ≫= in_range 0 u64_modulus
  end.

(** [str::parse::<i64>]. *)
Definition parse_i64 (s : string) : option Z :=
  match s with
  | String "+" s' => parse_nonempty s' ≫= in_range (- 2 ^ 63) (2 ^ 63)
  | String "-" s' => z ← parse_nonempty s'; in_range (- 2 ^ 63) (2 ^ 63) (- z)
  | _ => parse_nonempty s ≫= in_range (- 2 ^ 63) (2 ^ 63)
  end.

(** The [w] low decimal digits of [n], most significant first. *)
Fixpoint pad_digits (w : nat) (n : Z) (acc : string) : string :=
  match w with
  | O => acc
  | S w' => pad_digits w' (n / 10) (String (digit_char (n mod 10)) acc)
  end.

Lemma digit_val_char d : 0 ≤ d < 10 → digit_val (digit_char d) = Some d.
Proof.
  intros Hd. unfold digit_val, digit_char, byte_val.
  rewrite N_ascii_embedding by lia.
  rewrite Z2N.id by lia.
  destruct (Z.leb_spec 48 (48 + d)); [|lia].
  destruct (Z.leb_spec (48 + d) 57); [|lia]. simpl. f_equal. lia.
Qed.

Lemma digit_char_0 : digit_char 0 = "0"%char.
Proof. reflexivity. Qed.

Lemma pad_digits_zero w acc : pad_digits w 0 acc = repeat_char "0" w acc.
Proof.
  assert (Hc : ∀ k s, repeat_char "0" k (String "0" s) = String "0" (repeat_char "0" k s)).
  { induction k as [|k IH]; intros s; simpl; [done|]. by rewrite IH. }
  revert acc. induction w as [|w IH]; intros acc; [done|].
  cbn [pad_digits repeat_char]. rewrite Z.mod_0_l, Z.div_0_l, digit_char_0 by done.
  by rewrite IH, Hc.
Qed.

(** Printing and padding to [w] gives exactly the [w] low digits. *)
Lemma pad_digits_dec w n acc :
  (0 < w)%nat → 0 ≤ n < 10 ^ Z.of_nat w →
  ∃ k : nat, (0 < k ≤ w)%nat
    ∧ String.length (dec_go w n acc) = (k + String.length acc)%nat
    ∧ pad_digits w n acc = repeat_char "0" (w - k) (dec_go w n acc).
Proof.
  revert n acc. induction w as [|w IH]; intros n acc Hw [Hn0 Hn]; [lia|].
  cbn [dec_go pad_digits]. destruct (Z.ltb_spec n 10) as [Hlt|Hge].
  - exists 1%nat. rewrite Z.div_small by lia. rewrite pad_digits_zero. simpl.
    split_and!; [lia|lia|done|]. by rewrite Nat.sub_0_r.
  - destruct (IH (n / 10) (String (digit_char (n mod 10)) acc)) as (k & Hk & Hlen & ->).
    { destruct w; [|lia]. simpl in Hn. lia. }
    { split; [apply Z.div_pos; lia|]. apply Z.div_lt_upper_bound; [lia|].
      rewrite Nat2Z.inj_succ, Z.pow_succ_r in Hn; lia. }
    exists (S k). split_and!; [lia|lia| |done]. rewrite Hlen. simpl. lia.
Qed.

Lemma parse_pad_digits w n acc a :
  0 ≤ n →
  parse_digits (pad_digits w n acc) a
  = parse_digits acc (a * 10 ^ Z.of_nat w + n mod 10 ^ Z.of_nat w).
Proof.
  revert n acc a. induction w as [|w IH]; intros n acc a Hn.
  { simpl. rewrite Z.mod_1_r. f_equal. lia. }
  cbn [pad_digits]. rewrite IH by (apply Z.div_pos; lia). cbn [parse_digits].
  pose proof (Z.mod_pos_bound n 10). rewrite digit_val_char by lia. cbn [mbind option_bind].
  f_equal. rewrite Nat2Z.inj_succ, Z.pow_succ_r by lia.
  rewrite (Z.rem_mul_r n 10 (10 ^ Z.of_nat w)) by lia. lia.
Qed.

Lemma parse_repeat_zero k s : parse_digits (repeat_char "0" k s) 0 = parse_digits s 0.
Proof.
  induction k as [|k IH]; [done|]. cbn [repeat_char parse_digits].
  change (digit_val "0") with (Some 0). cbn [mbind option_bind]. apply IH.
Qed.

Lemma dec_go_head w n acc :
  (0 < w)%nat → 0 ≤ n → ∃ d s, 0 ≤ d < 10 ∧ dec_go w n acc = String (digit_char d) s.
Proof.
  revert n acc. induction w as [|w IH]; intros n acc Hw Hn; [lia|].
  cbn [dec_go]. pose proof (Z.mod_pos_bound n 10).
  destruct (Z.ltb_spec n 10); [eexists _, _; split; [|done]; lia|].
  destruct w as [|w]; [eexists _, _; split; [|done]; lia|].
  apply IH; [lia|]. apply Z.div_pos; lia.
Qed.

Lemma parse_dec_go w n :
  (0 < w)%nat → 0 ≤ n < 10 ^ Z.of_nat w →
  parse_digits (dec_go w n EmptyString) 0 = Some n.
Proof.
  intros Hw Hn. destruct (pad_digits_dec w n EmptyString Hw Hn) as (k & _ & _ & Hpad).
  rewrite <-(parse_repeat_zero (w - k)), <-Hpad, parse_pad_digits by lia.
  simpl. f_equal. rewrite Z.mod_small; lia.
Qed.

Lemma digit_not_sign d : 0 ≤ d < 10 → digit_char d ≠ "+"%char ∧ digit_char d ≠ "-"%char.
Proof.
  intros Hd. pose proof (digit_val_char d Hd) as Hv.
  split; intros E; rewrite E in Hv; vm_compute in Hv; done.
Qed.

(** A numeral that starts with a digit has no sign to skip. *)
Lemma parse_u64_digit d s :
  0 ≤ d < 10 →
  parse_u64 (String (digit_char d) s)
  = parse_digits (String (digit_char d) s) 0 ≫= in_range 0 u64_modulus.
Proof.
  intros Hd. destruct (digit_not_sign d Hd) as [Hp _]. revert Hp.
  unfold parse_u64, parse_nonempty. generalize (digit_char d) as c. intros c Hp.
  destruct c as [[] [] [] [] [] [] [] []]; try done; by destruct Hp.
Qed.

Lemma parse_i64_digit d s :
  0 ≤ d < 10 →
  parse_i64 (String (digit_char d) s)
  = parse_digits (String (digit_char d) s) 0 ≫= in_range (- 2 ^ 63) (2 ^ 63).
Proof.
  intros Hd. destruct (digit_not_sign d Hd) as [Hp Hm]. revert Hp Hm.
  unfold parse_i64, parse_nonempty. generalize (digit_char d) as c. intros c Hp Hm.
  destruct c as [[] [] [] [] [] [] [] []]; try done; first [by destruct Hp | by destruct Hm].
Qed.

Lemma in_range_ok lo hi z : lo ≤ z < hi → in_range lo hi z = Some z.
Proof.
  intros. unfold in_range. destruct (Z.leb_spec lo z); [|lia].
  by destruct (Z.ltb_spec z hi); [|lia].
Qed.

Lemma u64_lt_pow10 n : is_u64 n → 0 ≤ n < 10 ^ Z.of_nat 20.
Proof. unfold is_u64, u64_modulus. intros. split; [lia|]. simpl in *. lia. Qed.

Lemma u64_string_roundtrip n : is_u64 n → parse_u64 (u64_to_string n) = Some n.
Proof.
  intros Hn. unfold u64_to_string.
  pose proof (parse_dec_go 20 n ltac:(lia) (u64_lt_pow10 n Hn)) as Hp.
  destruct (dec_go_head 20 n EmptyString) as (d & s & Hd & E); [lia|apply Hn|].
  rewrite E in Hp |- *. rewrite parse_u64_digit, Hp by done. by apply in_range_ok.
Qed.

Lemma i64_string_roundtrip n : is_i64 n → parse_i64 (i64_to_string n) = Some n.
Proof.
  unfold is_i64, i64_to_string. intros Hn. destruct (Z.ltb_spec n 0).
  - assert (Hr : 0 ≤ - n < 10 ^ Z.of_nat 20) by (simpl in *; lia).
    pose proof (parse_dec_go 20 (- n) ltac:(lia) Hr) as Hp.
    destruct (dec_go_head 20 (- n) EmptyString) as (d & s & Hd & E); [lia|lia|].
    rewrite E in Hp |- *. cbn [parse_i64 parse_nonempty]. rewrite Hp.
    cbn [mbind option_bind]. rewrite Z.opp_involutive. by apply in_range_ok.
  - assert (Hr : 0 ≤ n < 10 ^ Z.of_nat 20) by (simpl in *; lia).
    pose proof (parse_dec_go 20 n ltac:(lia) Hr) as Hp.
    destruct (dec_go_head 20 n EmptyString) as (d & s & Hd & E); [lia|lia|].
    rewrite E in Hp |- *. rewrite parse_i64_digit, Hp by done. by apply in_range_ok.
Qed.

(** ** Fixed-width log keys

    [format!("{seq:020}")], the key of the change feed and of the ingest queue:
    the lexical order of the keys is the numeric order of the sequence
    numbers. *)

Definition padded_key (seq : Z) : string := zero_pad 20 (u64_to_string seq).

Lemma padded_key_digits n : is_u64 n → padded_key n = pad_digits 20 n EmptyString.
Proof.
  intros Hn. unfold padded_key, zero_pad, u64_to_string.
  destruct (pad_digits_dec 20 n EmptyString ltac:(lia) (u64_lt_pow10 n Hn))
    as (k & _ & Hlen & ->).
  by rewrite Hlen, Nat.add_0_r.
Qed.

Lemma digit_char_compare a b :
  0 ≤ a < 10 → 0 ≤ b < 10 → Ascii.compare (digit_char a) (digit_char b) = (a ?= b).
Proof.
  intros. unfold Ascii.compare, digit_char. rewrite !N_ascii_embedding by lia.
  rewrite Z2N.inj_compare by lia.
  destruct (Z.compare_spec a b); subst;
    [by apply Z.compare_refl|apply Z.compare_lt_iff; lia|apply Z.compare_gt_iff; lia].
Qed.

Lemma compare_pad_digits w a b s t :
  0 ≤ a < 10 ^ Z.of_nat w → 0 ≤ b < 10 ^ Z.of_nat w →
  String.compare (pad_digits w a s) (pad_digits w b t)
  = match a ?= b with Eq => String.compare s t | c => c end.
Proof.
  revert a b s t. induction w as [|w IH]; intros a b s t Ha Hb.
  { simpl in *. replace a with 0 by lia. by replace b with 0 by lia. }
  rewrite Nat2Z.inj_succ, Z.pow_succ_r in Ha, Hb by lia.
  assert (∀ z, 0 ≤ z < 10 * 10 ^ Z.of_nat w → 0 ≤ z / 10 < 10 ^ Z.of_nat w) as Hdiv.
  { intros z Hz. split; [apply Z.div_pos; lia|]. apply Z.div_lt_upper_bound; lia. }
  cbn [pad_digits]. rewrite IH by auto. cbn [String.compare].
  pose proof (Z.mod_pos_bound a 10). pose proof (Z.mod_pos_bound b 10).
  rewrite digit_char_compare by lia.
  pose proof (Z.div_mod a 10). pose proof (Z.div_mod b 10).
  destruct (Z.compare_spec (a / 10) (b / 10)), (Z.compare_spec (a mod 10) (b mod 10)),
    (Z.compare_spec a b); try done; lia.
Qed.

Lemma padded_key_lt a b :
  is_u64 a → is_u64 b → str_ltb (padded_key a) (padded_key b) = (a <? b).
Proof.
  intros Ha Hb. unfold str_ltb, String.ltb, Z.ltb. rewrite !padded_key_digits by done.
  rewrite compare_pad_digits by auto using u64_lt_pow10. by destruct (a ?= b).
Qed.

Lemma padded_key_roundtrip n : is_u64 n → parse_u64 (padded_key n) = Some n.
Proof.
  intros Hn. rewrite padded_key_digits by done.
  pose proof (u64_lt_pow10 n Hn) as Hp.
  assert (∃ d s, 0 ≤ d < 10 ∧ pad_digits 20 n EmptyString = String (digit_char d) s)
    as (d & s & Hd & E).
  { cbn [pad_digits]. eexists _, _. split; [|done]. apply Z.mod_pos_bound. lia. }
  rewrite E, parse_u64_digit, <-E, parse_pad_digits by (done || lia).
  cbn [parse_digits mbind option_bind]. rewrite Z.mod_small by done.
  by apply in_range_ok.
Qed.

Lemma padded_key_inj a b : is_u64 a → is_u64 b → padded_key a = padded_key b → a = b.
Proof.
  intros Ha Hb E. apply (f_equal parse_u64) in E.
  rewrite !padded_key_roundtrip in E by done. congruence.
Qed.

(** ** Trimming, splitting, case *)

(** One-byte [White_Space] code points, and the three-byte ones. *)
Definition ws1 (x : Z) : bool := ((9 <=? x) && (x <=? 13)) || (x =? 32).
Definition ws2 (x y : Z) : bool := (x =? 194) && ((y =? 133) || (y =? 160)).
Definition ws3 (x y z : Z) : bool :=
  ((x =? 225) && (y =? 154) && (z =? 128))
  || ((x =? 226) && (y =? 128)
      && (((128 <=? z) && (z <=? 138)) || (z =? 168) || (z =? 169) || (z =? 175)))
  || ((x =? 226) && (y =? 129) && (z =? 159))
  || ((x =? 227) && (y =? 128) && (z =? 128)).

(** Strip one leading whitespace character of a string, or of a reversed one
    ([rv]), whose multi-byte characters come last byte first. *)
Definition strip_ws (rv : bool) (s : string) : option string :=
  match s with
  | EmptyString => None
  | String a s1 =>
      let x := byte_val a in
      if ws1 x then Some s1
      else match s1 with
      | EmptyString => None
      | String b s2 =>
          let y := byte_val b in
          if (if rv then ws2 y x else ws2 x y) then Some s2
          else match s2 with
          | EmptyString => None
          | String c s3 =>
              let z := byte_val c in
              if (if rv then ws3 z y x else ws3 x y z) then Some s3 else None
          end
      end
  end.

Fixpoint strip_all (fuel : nat) (rv : bool) (s : string) : string :=
  match fuel with
  | O => s
  | S f => match strip_ws rv s with Some s' => strip_all f rv s' | None => s end
  end.

(** [str::trim] (each round strips at least one byte). *)
Definition trim (s : string) : string :=
  let s := strip_all (String.length s) false s in
  String.rev (strip_all (String.length s) true (String.rev s)).

(** [str::split(c)]: the pieces between the separators, at least one. *)
Fixpoint split_on (c : ascii) (s : string) : list string :=
  match s with
  | EmptyString => [EmptyString]
  | String a s' =>
      if decide (a = c) then EmptyString :: split_on c s'
      else match split_on c s' with
           | piece :: rest => String a piece :: rest
           | [] => [String a EmptyString]
           end
  end.

Example trim_ex : trim "  a b	" = "a b".
Proof. reflexivity. Qed.
Example split_ex : split_on ":" "a:b:" = ["a"; "b"; EmptyString].
Proof. reflexivity. Qed.

(** [str::strip_prefix]. *)
Fixpoint strip_prefix (p s : string) : option string :=
  match p, s with
  | EmptyString, _ => Some s
  | String a p', String b s' => if decide (a = b) then strip_prefix p' s' else None
  | String _ _, EmptyString => None
  end.

Lemma strip_prefix_app p s t : strip_prefix p s = Some t ↔ s = (p ++ t)%string.
Proof.
  revert s. induction p as [|a p IH]; intros s; cbn [strip_prefix String.append];
    [split; [by intros [= ->]|by intros ->]|].
  destruct s as [|b s]; [done|]. case_decide as Hab; [|split; [done|by intros [= ? _]]]. subst b.
  rewrite IH. split; [by intros ->|by intros [= ->]].
Qed.

(** ** Lossy UTF-8 decoding *)

Definition is_cont (b : Z) : bool := (128 <=? b) && (b <=? 191).

(** The second bytes that may follow a lead byte of a three- or four-byte
    character. *)
Definition second3 (b0 b1 : Z) : bool :=
  if b0 =? 224 then (160 <=? b1) && (b1 <=? 191)
  else if b0 =? 237 then (128 <=? b1) && (b1 <=? 159)
  else is_cont b1.

Definition second4 (b0 b1 : Z) : bool :=
  if b0 =? 240 then (144 <=? b1) && (b1 <=? 191)
  else if b0 =? 244 then (128 <=? b1) && (b1 <=? 143)
  else is_cont b1.

(** The next character of a byte sequence: its validity, and its length or the
    length of the maximal ill-formed part that one U+FFFD replaces. *)
Definition utf8_step (bs : list Z) : bool * nat :=
  match bs with
  | [] => (true, O)
  | b0 :: rest =>
      if b0 <? 128 then (true, 1%nat)
      else if (194 <=? b0) && (b0 <=? 223) then
        match rest with
        | b1 :: _ => if is_cont b1 then (true, 2%nat) else (false, 1%nat)
        | [] => (false, 1%nat)
        end
      else if (224 <=? b0) && (b0 <=? 239) then
        match rest with
        | b1 :: rest' =>
            if second3 b0 b1 then
              match rest' with
              | b2 :: _ => if is_cont b2 then (true, 3%nat) else (false, 2%nat)
              | [] => (false, 2%nat)
              end
            else (false, 1%nat)
        | [] => (false, 1%nat)
        end
      else if (240 <=? b0) && (b0 <=? 244) then
        match rest with
        | b1 :: rest' =>
            if second4 b0 b1 then
              match rest' with
              | b2 :: rest'' =>
                  if is_cont b2 then
                    match rest'' with
                    | b3 :: _ => if is_cont b3 then (true, 4%nat) else (false, 3%nat)
                    | [] => (false, 3%nat)
                    end
                  else (false, 2%nat)
              | [] => (false, 2%nat)
              end
            else (false, 1%nat)
        | [] => (false, 1%nat)
        end
      else (false, 1%nat)
  end.

(** U+FFFD in UTF-8. *)
Definition replacement : list ascii := [ascii_of_N 239; ascii_of_N 191; ascii_of_N 189].

Fixpoint lossy (fuel : nat) (l : list ascii) : list ascii :=
  match fuel with
  | O => []
  | S f =>
      match l with
      | [] => []
      | _ =>
          let '(valid, n) := utf8_step (map byte_val (take 4 l)) in
          (if valid : bool then take n l else replacement) ++ lossy f (drop n l)
      end
  end.

(** [String::from_utf8_lossy]; every round consumes at least one byte. *)
Definition from_utf8_lossy (s : string) : string :=
  let l := String.list_ascii_of_string s in String.string_of_list_ascii (lossy (length l) l).

(** Plain ASCII text is unchanged. *)
Lemma from_utf8_lossy_ascii s :
  forallb (λ a, byte_val a <? 128) (String.list_ascii_of_string s) = true → from_utf8_lossy s = s.
Proof.
  intros Ha. unfold from_utf8_lossy. cbv zeta. rewrite <-(String.string_of_list_ascii_of_string s) at 3. f_equal.
  induction (String.list_ascii_of_string s) as [|a l IH]; [done|]. cbn [forallb] in Ha.
  apply andb_true_iff in Ha as [Ha Hl]. cbn [length lossy take map utf8_step]. rewrite Ha.
  cbn [take drop app]. f_equal. by apply IH.
Qed.

Example lossy_ex :
  from_utf8_lossy (String (ascii_of_N 195) (String (ascii_of_N 169) (String (ascii_of_N 255) "a")))
  = String (ascii_of_N 195) (String (ascii_of_N 169) (String.string_of_list_ascii replacement ++ "a")).
Proof. reflexivity. Qed.

(** [[String]::join(sep)]. *)
Fixpoint join (sep : string) (l : list string) : string :=
  match l with
  | [] => EmptyString
  | [s] => s
  | s :: l' => (s ++ sep ++ join sep l')%string
  end.

(** ** Separators *)

(** The text does not hold the character. *)
Fixpoint lacks (c : ascii) (s : string) : bool :=
  match s with EmptyString => true | String a s' => negb (bool_decide (a = c)) && lacks c s' end.

Lemma lacks_app c s t : lacks c (s ++ t) = lacks c s && lacks c t.
Proof.
  induction s as [|a s IH]; [done|]. change (String a s ++ t)%string with (String a (s ++ t)).
  cbn [lacks]. by rewrite IH, andb_assoc.
Qed.

Lemma split_lacks c s : lacks c s = true → split_on c s = [s].
Proof.
  induction s as [|a s IH]; [done|]. cbn [lacks split_on]. intros [Ha Hs]%andb_true_iff.
  apply negb_true_iff, bool_decide_eq_false in Ha. by rewrite decide_False, IH.
Qed.

Lemma split_app c s t : lacks c s = true → split_on c (s ++ String c t) = s :: split_on c t.
Proof.
  induction s as [|a s IH].
  - intros _. change (EmptyString ++ String c t)%string with (String c t). cbn [split_on].
    by rewrite decide_True.
  - cbn [lacks]. intros [Ha Hs]%andb_true_iff.
    apply negb_true_iff, bool_decide_eq_false in Ha.
    change (String a s ++ String c t)%string with (String a (s ++ String c t)). cbn [split_on].
    rewrite decide_False by done. by rewrite IH.
Qed.

Lemma split_join c l :
  l ≠ [] → Forall (λ s, lacks c s = true) l → split_on c (join (String c EmptyString) l) = l.
Proof.
  induction l as [|s l IH]; [done|]. intros _ Hl. apply Forall_cons in Hl as [Hs Hl].
  destruct l as [|t l]; [by apply split_lacks|].
  change (join (String c EmptyString) (s :: t :: l))
    with (s ++ String c (join (String c EmptyString) (t :: l)))%string.
  rewrite split_app by done. f_equal. by apply IH.
Qed.

(** Numerals hold digits only. *)
Lemma lacks_dec_go c f n acc :
  0 ≤ n → digit_val c = None → lacks c acc = true → lacks c (dec_go f n acc) = true.
Proof.
  intros Hn Hc. revert n acc Hn. induction f as [|f IH]; intros n acc Hn Hacc; [done|].
  cbn [dec_go]. pose proof (Z.mod_pos_bound n 10 ltac:(lia)) as Hm.
  assert (lacks c (String (digit_char (n mod 10)) acc) = true) as Hacc'.
  { cbn [lacks]. rewrite Hacc, andb_true_r. apply negb_true_iff, bool_decide_eq_false.
    intros <-. by rewrite digit_val_char in Hc. }
  destruct (n <? 10); [done|]. apply IH; [by apply Z.div_pos|done].
Qed.
