(* ===== verification/Wire.v ===== *)
(** * Bytes on the wire

    What the two socket front ends (the binary protocol and the Redis-compatible
    one) share: byte strings and their views as text, exact reads from an input
    stream, big-endian length prefixes, and the encoding of JSON values as
    bytes.  A connection's input is the list of all bytes the client will send
    before it closes; a read past its end is the end-of-file error. *)

From S2P Require Import Prelude Machine Text.

Local Open Scope Z_scope.

Abbreviation bytes := (list ascii).

(** [&[u8]] and [&str] views of each other. *)
Definition text (b : bytes) : string := String.string_of_list_ascii b.
Definition as_bytes (s : string) : bytes := String.list_ascii_of_string s.

Definition byte (z : Z) : ascii := ascii_of_N (Z.to_N z).

(** [serde_json]'s byte encoding of values, and their array view. *)
Class WireJson (V : Type) := {
  (** [serde_json::to_vec(&v).unwrap_or_default()] *)
  value_to_vec : V → bytes;
  (** [serde_json::from_slice::<Value>(b).ok()] *)
  value_from_slice : bytes → option V;
  (** [Value::as_array] *)
  value_as_array : V → option (list V);
}.

(** ** Text views *)

Fixpoint valid_go (fuel : nat) (l : bytes) : bool :=
  match fuel with
  | O => true
  | S f =>
      match l with
      | [] => true
      | _ => let '(valid, n) := utf8_step (map byte_val (take 4 l)) in
             valid && valid_go f (drop n l)
      end
  end.

(** [std::str::from_utf8(b).is_ok()]; every round consumes at least one byte. *)
Definition is_utf8 (b : bytes) : bool := valid_go (length b) b.

(** [String::from_utf8_lossy(b).into_owned()]. *)
Definition lossy_text (b : bytes) : string := from_utf8_lossy (text b).

Lemma as_bytes_text b : as_bytes (text b) = b.
Proof. apply String.list_ascii_of_string_of_list_ascii. Qed.

Lemma text_as_bytes s : text (as_bytes s) = s.
Proof. apply String.string_of_list_ascii_of_string. Qed.

(** On well-formed text both views are the bytes themselves. *)
Lemma lossy_valid f l : (length l ≤ f)%nat → valid_go f l = true → lossy f l = l.
Proof.
  revert l. induction f as [|f IH]; intros [|a l] Hf Hv; try done; [simpl in Hf; lia|].
  cbn [valid_go lossy] in *. destruct (utf8_step _) as [v n] eqn:E. destruct v; [|done]. simpl in Hv.
  assert (0 < n)%nat as Hn.
  { destruct n; [|lia]. exfalso. revert E. cbn [take map utf8_step].
    repeat case_match; congruence. }
  rewrite IH; [apply take_drop| |done]. rewrite length_drop. simpl in *. lia.
Qed.

Lemma lossy_text_valid b : is_utf8 b = true → lossy_text b = text b.
Proof.
  intros Hv. unfold lossy_text, from_utf8_lossy. cbv zeta.
  change (String.list_ascii_of_string (text b)) with (as_bytes (text b)).
  rewrite as_bytes_text. by rewrite lossy_valid.
Qed.

(** ** Exact reads *)

(** [read_exact] of [n] bytes; [None] is the end-of-file error. *)
Definition read_exact (n : Z) (inp : bytes) : option (bytes * bytes) :=
  if n <=? Z.of_nat (length inp) then Some (take (Z.to_nat n) inp, drop (Z.to_nat n) inp)
  else None.

Lemma read_exact_app b rest : read_exact (Z.of_nat (length b)) (b ++ rest) = Some (b, rest).
Proof.
  unfold read_exact. rewrite length_app, Nat2Z.id.
  destruct (Z.leb_spec (Z.of_nat (length b)) (Z.of_nat (length b + length rest))); [|lia].
  by rewrite take_app_length, drop_app_length.
Qed.

Lemma read_exact_inv n inp b rest :
  0 ≤ n → read_exact n inp = Some (b, rest) → inp = b ++ rest ∧ Z.of_nat (length b) = n.
Proof.
  intros Hn. unfold read_exact. destruct (Z.leb_spec n (Z.of_nat (length inp))); [|done].
  intros [= <- <-]. rewrite take_drop, length_take. split; [done|lia].
Qed.

(** ** Big-endian u32 *)

(** [write_u32]: the four bytes of the value, most significant first. *)
Definition write_u32 (n : Z) : bytes :=
  [byte (Z.land (Z.shiftr n 24) 255); byte (Z.land (Z.shiftr n 16) 255);
   byte (Z.land (Z.shiftr n 8) 255); byte (Z.land n 255)].

Definition read_u32 (inp : bytes) : option (Z * bytes) :=
  match inp with
  | a :: b :: c :: d :: rest =>
      Some (Z.shiftl (byte_val a) 24 + Z.shiftl (byte_val b) 16
              + Z.shiftl (byte_val c) 8 + byte_val d, rest)
  | _ => None
  end.

Lemma byte_val_range a : 0 ≤ byte_val a < 256.
Proof. unfold byte_val. pose proof (N_ascii_bounded a). lia. Qed.

Lemma byte_val_byte z : 0 ≤ z < 256 → byte_val (byte z) = z.
Proof. intros. unfold byte_val, byte. rewrite N_ascii_embedding by lia. lia. Qed.

Lemma byte_byte_val a : byte (byte_val a) = a.
Proof. unfold byte, byte_val. rewrite N2Z.id. apply ascii_N_embedding. Qed.

Lemma byte_val_inj a b : byte_val a = byte_val b → a = b.
Proof. intros E. by rewrite <-(byte_byte_val a), <-(byte_byte_val b), E. Qed.

Lemma low_byte z : Z.land z 255 = z mod 256.
Proof. change 255 with (Z.ones 8). by rewrite Z.land_ones. Qed.

(** Reading back a written length: exact below [2^32], wrapped above. *)
Lemma read_write_u32 n rest :
  0 ≤ n → read_u32 (write_u32 n ++ rest) = Some (n mod u32_modulus, rest).
Proof.
  intros Hn. unfold write_u32. cbn [app read_u32]. do 2 f_equal.
  rewrite !low_byte, !Z.shiftr_div_pow2, !Z.shiftl_mul_pow2 by lia.
  rewrite !byte_val_byte by (apply Z.mod_pos_bound; lia).
  unfold u32_modulus. change (2 ^ 32) with (256 * (256 * (256 * 256))).
  change (2 ^ 24) with (256 * (256 * 256)). change (2 ^ 16) with (256 * 256). change (2 ^ 8) with 256.
  rewrite !Z.rem_mul_r, <-!Z.div_div by lia. lia.
Qed.

Lemma read_u32_range inp n rest : read_u32 inp = Some (n, rest) → is_u32 n.
Proof.
  destruct inp as [|a [|b [|c [|d inp]]]]; try done. intros [= <- <-].
  pose proof (byte_val_range a). pose proof (byte_val_range b).
  pose proof (byte_val_range c). pose proof (byte_val_range d).
  rewrite !Z.shiftl_mul_pow2 by lia. unfold is_u32, u32_modulus. lia.
Qed.

(** Only the canonical prefix reads as a given length. *)
Lemma read_u32_inv inp n rest : read_u32 inp = Some (n, rest) → inp = write_u32 n ++ rest.
Proof.
  destruct inp as [|a [|b [|c [|d inp]]]]; try done. intros [= <- <-].
  pose proof (byte_val_range a). pose proof (byte_val_range b).
  pose proof (byte_val_range c). pose proof (byte_val_range d).
  unfold write_u32. rewrite !low_byte, !Z.shiftr_div_pow2, !Z.shiftl_mul_pow2 by lia.
  cbn [app]. rewrite <-(byte_byte_val a) at 1. rewrite <-(byte_byte_val b) at 1.
  rewrite <-(byte_byte_val c) at 1. rewrite <-(byte_byte_val d) at 1.
  repeat f_equal; Z.div_mod_to_equations; lia.
Qed.

(** ** Length-prefixed fields *)

(** [len:u32-be] and the bytes. *)
Definition write_field (b : bytes) : bytes := write_u32 (Z.of_nat (length b)) ++ b.

(** A field whose length fits its prefix. *)
Definition field_ok (b : bytes) : Prop := Z.of_nat (length b) < u32_modulus.
