(* ===== verification/Partitioner.v ===== *)
(** * Rendezvous placement ([src/src/partitioner.rs])

    FNV-1a over UTF-16 units, the HRW mixing function, the per-bucket
    preference lists and the rack-aware choice of the R owners of a bucket. *)

From S2P Require Import Prelude Machine Text.

Local Open Scope Z_scope.

Module Partitioner.

Abbreviation NodeId := string (only parsing).

Definition NUM_BUCKETS : nat := 4096.

(* Proofs never need the numeral itself, only that it is positive. *)
#[global] Opaque NUM_BUCKETS.
Lemma NUM_BUCKETS_pos : (0 < NUM_BUCKETS)%nat.
Proof. with_strategy transparent [NUM_BUCKETS] (unfold NUM_BUCKETS; lia). Qed.

Definition fnv1a (s : string) : Z :=
  foldl (λ h u, u32_wrapping_mul (Z.lxor h u) 16777619) 2166136261 (encode_utf16 s).

Definition bucket_of (key : string) : nat :=
  Z.to_nat (fnv1a key mod Z.of_nat NUM_BUCKETS).

Definition bucket_score (node_hash : Z) (bucket : nat) : Z :=
  let h := Z.lxor node_hash
             (u32_wrapping_mul (u32_wrapping_add (Z.of_nat bucket) 1) 2654435761) in
  let h := u32_wrapping_mul (Z.lxor h (Z.shiftr h 15)) 2246822507 in
  Z.lxor h (Z.shiftr h 13).

Record t := mk {
  nodes : list NodeId;
  buckets : list (list NodeId);
  num_buckets : nat;
  topology : gmap NodeId string;
}.

(** The ranking of one bucket: node indices scored, then a stable sort by
    descending score.  The index of a node only serves to look it up again. *)
Definition rank (ns : list NodeId) (b : nat) : list NodeId :=
  let hashes := map fnv1a ns in
  let scored := imap (λ i n, (n, bucket_score (default 0 (hashes !! i)) b)) ns in
  map fst (sort_desc snd scored).

Definition set_nodes (p : t) (ns : list NodeId) : t :=
  mk ns (map (rank ns) (seq 0 (num_buckets p))) (num_buckets p) (topology p).

Definition new (ns : list NodeId) : t := set_nodes (mk [] [] NUM_BUCKETS ∅) ns.

Definition set_topology (p : t) (topo : gmap NodeId string) : t :=
  mk (nodes p) (buckets p) (num_buckets p) topo.

(** The failure domain of a node: its rack, or itself. *)
Definition domain (topo : gmap NodeId string) (n : NodeId) : string :=
  default n (topo !! n).

(** First pass of [pick]: the first node of each rack, in preference order,
    until [r] are chosen. *)
Fixpoint pass1 (topo : gmap NodeId string) (r : nat) (pl : list NodeId)
    (chosen : list NodeId) (used : gset string) : list NodeId :=
  match pl with
  | [] => chosen
  | n :: pl' =>
      if (r <=? length chosen)%nat then chosen
      else if decide (domain topo n ∈ used) then pass1 topo r pl' chosen used
      else pass1 topo r pl' (chosen ++ [n]) ({[domain topo n]} ∪ used)
  end.

(** Second pass: fill the remaining slots in preference order. *)
Fixpoint pass2 (r : nat) (pl : list NodeId) (chosen : list NodeId) : list NodeId :=
  match pl with
  | [] => chosen
  | n :: pl' =>
      if (r <=? length chosen)%nat then chosen
      else if decide (n ∈ chosen) then pass2 r pl' chosen
      else pass2 r pl' (chosen ++ [n])
  end.

Definition pick (p : t) (pl : list NodeId) (r : nat) : list NodeId :=
  let r := (r `min` length (nodes p))%nat in
  if decide (topology p = ∅) then take r pl
  else
    let chosen := pass1 (topology p) r pl [] ∅ in
    if (length chosen <? r)%nat then pass2 r pl chosen else chosen.

Definition list_nodes (p : t) : list NodeId := nodes p.
Definition bucket_count (p : t) : nat := num_buckets p.

Definition preference_list (p : t) (key : string) : list NodeId :=
  default [] (buckets p !! bucket_of key).

Definition replica_set (p : t) (key : string) (r : nat) : list NodeId :=
  pick p (preference_list p key) r.

Definition owners_of_bucket (p : t) (b r : nat) : list NodeId :=
  pick p (default [] (buckets p !! b)) r.

(** ** Invariant: what [new] and [set_nodes] establish *)

Definition wf (p : t) : Prop :=
  num_buckets p = NUM_BUCKETS ∧ buckets p = map (rank (nodes p)) (seq 0 NUM_BUCKETS).

Lemma new_wf ns : wf (new ns).
Proof. done. Qed.

Lemma set_nodes_wf p ns : wf p → wf (set_nodes p ns).
Proof. intros [Hn _]. unfold wf, set_nodes. cbn. by rewrite Hn. Qed.

Lemma set_topology_wf p topo : wf p → wf (set_topology p topo).
Proof. done. Qed.

Lemma bucket_of_lt key : (bucket_of key < NUM_BUCKETS)%nat.
Proof.
  unfold bucket_of. pose proof (Z.mod_pos_bound (fnv1a key) (Z.of_nat NUM_BUCKETS)).
  pose proof NUM_BUCKETS_pos. lia.
Qed.

Lemma buckets_lookup p b :
  wf p → (b < NUM_BUCKETS)%nat → buckets p !! b = Some (rank (nodes p) b).
Proof.
  intros [_ ->] Hb. rewrite list_lookup_fmap, lookup_seq_lt by done. done.
Qed.

Lemma preference_list_rank p key :
  wf p → preference_list p key = rank (nodes p) (bucket_of key).
Proof. intros Hp. unfold preference_list. by rewrite buckets_lookup by eauto using bucket_of_lt. Qed.

Lemma owners_of_bucket_rank p b r :
  wf p → (b < NUM_BUCKETS)%nat → owners_of_bucket p b r = pick p (rank (nodes p) b) r.
Proof. intros Hp Hb. unfold owners_of_bucket. by rewrite buckets_lookup. Qed.

Lemma replica_set_owners p key r : replica_set p key r = owners_of_bucket p (bucket_of key) r.
Proof. done. Qed.

(** ** The ranking *)

(** The score a node has for a bucket. *)
Definition node_score (b : nat) (n : NodeId) : Z := bucket_score (fnv1a n) b.

Lemma rank_sort ns b : rank ns b = sort_desc (node_score b) ns.
Proof.
  unfold rank.
  assert (imap (λ i n, (n, bucket_score (default 0 (map fnv1a ns !! i)) b)) ns
          = map (λ n, (n, node_score b n)) ns) as ->.
  { apply list_eq. intros i. rewrite list_lookup_imap, !list_lookup_fmap.
    by destruct (ns !! i) as [n|] eqn:E. }
  rewrite sort_desc_fmap, map_map. apply map_id.
Qed.

Lemma rank_perm ns b : rank ns b ≡ₚ ns.
Proof. rewrite rank_sort. apply sort_desc_perm. Qed.

Lemma rank_length ns b : length (rank ns b) = length ns.
Proof. by rewrite rank_perm. Qed.

Lemma fnv1a_u32 s : is_u32 (fnv1a s).
Proof.
  unfold fnv1a. generalize (encode_utf16 s) as us.
  assert (∀ us h, is_u32 h →
    is_u32 (foldl (λ h u, u32_wrapping_mul (Z.lxor h u) 16777619) h us)) as H.
  { induction us as [|u us IH]; intros h Hh; simpl; [done|].
    apply IH, u32_wrapping_mul_range. }
  intros us. by apply H.
Qed.

(** For a fixed bucket the mixing function loses nothing: distinct node hashes
    have distinct scores. *)
Lemma bucket_score_inj b h1 h2 :
  is_u32 h1 → is_u32 h2 → bucket_score h1 b = bucket_score h2 b → h1 = h2.
Proof.
  unfold bucket_score. intros H1 H2.
  set (c := u32_wrapping_mul (u32_wrapping_add (Z.of_nat b) 1) 2654435761).
  assert (Hc : is_u32 c) by apply u32_wrapping_mul_range. clearbody c.
  assert (H1' : is_u32 (Z.lxor h1 c)) by auto with stplr.
  assert (H2' : is_u32 (Z.lxor h2 c)) by auto with stplr.
  intros E. apply xorshift_inj in E; [|done|apply u32_wrapping_mul_range..].
  apply (wrapping_mul_inj _ 2781581891) in E; [|done|..].
  - apply xorshift_inj in E; [|done|apply H1'|apply H2']. by eapply lxor_inj_r.
  - apply lxor_u32; [done|]. by apply shiftr_u32.
  - apply lxor_u32; [done|]. by apply shiftr_u32.
Qed.

(** Node ids whose FNV-1a hashes are pairwise distinct. *)
Definition distinct_hashes (ns : list NodeId) : Prop := NoDup (map fnv1a ns).

#[global] Instance distinct_hashes_dec ns : Decision (distinct_hashes ns).
Proof. unfold distinct_hashes. apply _. Defined.

Lemma NoDup_map_inj {A B} (f : A → B) l x y :
  NoDup (map f l) → x ∈ l → y ∈ l → f x = f y → x = y.
Proof.
  intros Hnd [i Hi]%list_elem_of_lookup [j Hj]%list_elem_of_lookup E.
  assert (i = j) as ->; [|congruence].
  eapply (NoDup_lookup (map f l)); [done|by rewrite list_lookup_fmap, Hi|].
  by rewrite list_lookup_fmap, Hj, E.
Qed.

(** Ids of different hashes, in a list. *)
Lemma distinct_hashes_inj ns :
  NoDup ns → (∀ i j, i ∈ ns → j ∈ ns → fnv1a i = fnv1a j → i = j) → distinct_hashes ns.
Proof.
  unfold distinct_hashes. induction 1 as [|n ns Hn Hnd IH]; intros Hinj; [constructor|]. cbn [map].
  apply NoDup_cons. split; [|apply IH; intros i j Hi Hj; apply Hinj; by right].
  rewrite list_elem_of_fmap. intros (m & He & Hm). destruct Hn.
  by rewrite (Hinj n m) by (done || left || by right).
Qed.

Lemma node_score_inj ns b m n :
  distinct_hashes ns → m ∈ ns → n ∈ ns → node_score b m = node_score b n → m = n.
Proof.
  intros Hd Hm Hn E. eapply NoDup_map_inj; [done..|].
  eapply bucket_score_inj; eauto using fnv1a_u32.
Qed.

Lemma rank_Permutation ns ns' b :
  distinct_hashes ns → ns ≡ₚ ns' → rank ns b = rank ns' b.
Proof.
  intros Hd Hp. rewrite !rank_sort. apply sort_desc_Permutation; [|done].
  intros m n Hm Hn. by eapply node_score_inj.
Qed.

(** Removing nodes leaves the relative order of the others. *)
Lemma rank_filter (P : NodeId → Prop) `{!∀ x, Decision (P x)} ns b :
  rank (filter P ns) b = filter P (rank ns b).
Proof. by rewrite !rank_sort, sort_desc_filter. Qed.

(** ** The choice of owners *)

Section pick.
Context (topo : gmap NodeId string).

Lemma pass1_spec r pl chosen :
  NoDup (map (domain topo) chosen) → (length chosen ≤ r)%nat →
  ∃ ext, pass1 topo r pl chosen (list_to_set (map (domain topo) chosen)) = chosen ++ ext
    ∧ ext ⊆ pl
    ∧ NoDup (map (domain topo) (chosen ++ ext))
    ∧ (length (chosen ++ ext) ≤ r)%nat
    ∧ ((length (chosen ++ ext) < r)%nat →
       ∀ n, n ∈ pl → domain topo n ∈ map (domain topo) (chosen ++ ext)).
Proof.
  revert chosen. induction pl as [|n pl IH]; intros chosen Hnd Hlen; simpl.
  { exists []. rewrite app_nil_r. split_and!; [done..|]. set_solver. }
  destruct (Nat.leb_spec r (length chosen)) as [Hr|Hr].
  { exists []. rewrite app_nil_r. split_and!; [done|set_solver|done|done|lia]. }
  case_decide as Hin; rewrite elem_of_list_to_set in Hin.
  - destruct (IH chosen) as (ext & -> & Hsub & Hnd' & Hl & Hcov); [done|lia|].
    exists ext. split_and!; [done|set_solver|done|done|].
    intros Hlt m [->|Hm]%elem_of_cons; [|by apply Hcov].
    rewrite map_app, elem_of_app. by left.
  - destruct (IH (chosen ++ [n])) as (ext & Hext & Hsub & Hnd' & Hl & Hcov).
    { rewrite map_app. apply NoDup_app. split_and!; [done| |apply NoDup_singleton].
      simpl. set_solver. }
    { rewrite length_app. simpl. lia. }
    rewrite map_app in Hext. simpl in Hext.
    rewrite <-app_assoc in Hext, Hnd', Hl, Hcov. simpl in *.
    exists (n :: ext). split_and!; [|set_solver|done|done|].
    + rewrite <-Hext. f_equal. set_solver.
    + intros Hlt m [->|Hm]%elem_of_cons; [|by apply Hcov].
      rewrite map_app, elem_of_app. right. by left.
Qed.

Lemma pass2_spec r pl chosen :
  NoDup chosen → (length chosen ≤ r)%nat →
  ∃ ext, pass2 r pl chosen = chosen ++ ext
    ∧ ext ⊆ pl ∧ NoDup (chosen ++ ext) ∧ (length (chosen ++ ext) ≤ r)%nat
    ∧ ((length (chosen ++ ext) < r)%nat → pl ⊆ chosen ++ ext).
Proof.
  revert chosen. induction pl as [|n pl IH]; intros chosen Hnd Hlen; simpl.
  { exists []. rewrite app_nil_r. split_and!; [done..|]. set_solver. }
  destruct (Nat.leb_spec r (length chosen)) as [Hr|Hr].
  { exists []. rewrite app_nil_r. split_and!; [done|set_solver|done|done|lia]. }
  case_decide as Hin.
  - destruct (IH chosen) as (ext & -> & Hsub & Hnd' & Hl & Hcov); [done|lia|].
    exists ext. split_and!; [done|set_solver|done|done|].
    intros Hlt m [->|Hm]%elem_of_cons; [set_solver|by apply Hcov].
  - destruct (IH (chosen ++ [n])) as (ext & -> & Hsub & Hnd' & Hl & Hcov).
    { apply NoDup_app. split_and!; [done|set_solver|apply NoDup_singleton]. }
    { rewrite length_app. simpl. lia. }
    rewrite <-app_assoc in *. simpl in *.
    exists (n :: ext). split_and!; [done|set_solver|done|done|].
    intros Hlt m [->|Hm]%elem_of_cons; [set_solver|by apply Hcov].
Qed.

End pick.

Lemma pick_no_topology p pl r :
  topology p = ∅ → pick p pl r = take (r `min` length (nodes p)) pl.
Proof. intros Ht. unfold pick. by rewrite decide_True. Qed.

(** [pick] as an extension of what the rack pass chose. *)
Lemma pick_racks p pl r :
  topology p ≠ ∅ → let r' := (r `min` length (nodes p))%nat in
  ∃ c ext, pick p pl r = c ++ ext
    ∧ c = pass1 (topology p) r' pl [] ∅
    ∧ c ⊆ pl ∧ ext ⊆ pl
    ∧ NoDup (map (domain (topology p)) c)
    ∧ NoDup (c ++ ext)
    ∧ (length (c ++ ext) ≤ r')%nat
    ∧ (length c < r' → ∀ n, n ∈ pl → domain (topology p) n ∈ map (domain (topology p)) c)%nat
    ∧ (length c = r' → ext = [])
    ∧ (length (c ++ ext) < r' → pl ⊆ c ++ ext)%nat.
Proof.
  intros Ht r'. unfold pick. rewrite decide_False by done. fold r'.
  destruct (pass1_spec (topology p) r' pl []) as (c & Hc & Hsub & Hnd & Hl & Hcov);
    [constructor|simpl; lia|]. simpl in *. rewrite Hc.
  assert (NoDup c) by (by eapply NoDup_fmap_1).
  destruct (Nat.ltb_spec (length c) r') as [Hlt|Hge].
  - destruct (pass2_spec r' pl c) as (ext & -> & Hsub' & Hnd' & Hl' & Hcov'); [done|lia|].
    exists c, ext. split_and!; [done..|lia|done].
  - exists c, []. rewrite !app_nil_r. split_and!;
      [done|done|done|set_solver|done|done|done|intros; lia|done|intros; lia].
Qed.

Section pick_facts.
Context (p : t) (pl : list NodeId) (r : nat).
Hypothesis Hpl : pl ≡ₚ nodes p.

Lemma pick_subset : pick p pl r ⊆ nodes p.
Proof.
  rewrite <-Hpl. destruct (decide (topology p = ∅)).
  - rewrite pick_no_topology by done. intros x. apply elem_of_take.
  - destruct (pick_racks p pl r) as (c & ext & -> & _ & Hc & He & _); [done|]. set_solver.
Qed.

Lemma pick_NoDup : NoDup (nodes p) → NoDup (pick p pl r).
Proof.
  rewrite <-Hpl. intros Hnd. destruct (decide (topology p = ∅)).
  - rewrite pick_no_topology by done. by apply NoDup_take.
  - by destruct (pick_racks p pl r) as (c & ext & -> & _ & _ & _ & _ & ? & _).
Qed.

Lemma pick_length : NoDup (nodes p) → length (pick p pl r) = (r `min` length (nodes p))%nat.
Proof.
  rewrite <-Hpl. intros Hnd. assert (length (nodes p) = length pl) as Hlen by (by rewrite Hpl).
  destruct (decide (topology p = ∅)).
  - rewrite pick_no_topology by done. rewrite length_take, Hlen. lia.
  - destruct (pick_racks p pl r) as (c & ext & -> & _ & _ & _ & _ & Hnd' & Hle & _ & _ & Hcov);
      [done|]. rewrite Hlen in *.
    destruct (decide (length (c ++ ext) < r `min` length pl)%nat) as [Hlt|]; [|lia].
    specialize (Hcov Hlt).
    pose proof (submseteq_length pl (c ++ ext)
      ltac:(by apply NoDup_submseteq; [|set_solver])). lia.
Qed.

(** The primary is the head of the preference list, racks or not. *)
Lemma pick_head : r ≠ 0%nat → head (pick p pl r) = head pl.
Proof.
  intros Hr. assert (length (nodes p) = length pl) as Hlen by (by rewrite Hpl).
  destruct pl as [|n pl'] eqn:Epl.
  { unfold pick. rewrite Hlen. rewrite Nat.min_0_r. case_decide; done. }
  destruct (decide (topology p = ∅)).
  - rewrite pick_no_topology by done. apply head_take. rewrite Hlen. simpl. lia.
  - destruct (pick_racks p (n :: pl') r) as (c & ext & -> & Hc & _); [done|].
    assert (∃ c', c = n :: c') as [c' ->]; [|done].
    rewrite Hc. rewrite Hlen. simpl pass1.
    destruct (pass1_spec (topology p) (r `min` length (n :: pl')) pl' [n])
      as (ext' & He & _); [apply NoDup_singleton|simpl in *; lia|].
    exists ext'. simpl in He. rewrite <-He.
    destruct (Nat.leb_spec (r `min` S (length pl'))%nat 0); [lia|].
    rewrite decide_False by apply not_elem_of_empty. done.
Qed.

(** Rack spread: while a rack is still unused no second replica goes to a used
    one, so the replicas cover as many racks as [r] allows. *)
Lemma pick_domains :
  topology p ≠ ∅ →
  NoDup (map (domain (topology p)) (pick p pl r))
  ∨ (∀ n, n ∈ nodes p →
       domain (topology p) n ∈ map (domain (topology p)) (pick p pl r)).
Proof.
  intros Ht. destruct (pick_racks p pl r) as
    (c & ext & -> & _ & _ & _ & Hnd & _ & Hle & Hcov & Hfull & _); [done|].
  destruct (decide (length c = r `min` length (nodes p))%nat) as [He|Hne].
  - left. rewrite (Hfull He). by rewrite app_nil_r.
  - right. intros n. rewrite <-Hpl. intros Hn. rewrite map_app, elem_of_app. left.
    apply Hcov; [|done]. rewrite length_app in Hle. lia.
Qed.

End pick_facts.

(** The owners of a bucket, for a membership and an optional rack map. *)
Definition placement (ns : list NodeId) (topo : gmap NodeId string) (b r : nat) : list NodeId :=
  owners_of_bucket (set_topology (new ns) topo) b r.

Lemma placement_pick ns topo b r :
  (b < NUM_BUCKETS)%nat →
  placement ns topo b r = pick (set_topology (new ns) topo) (rank ns b) r.
Proof. intros Hb. by apply owners_of_bucket_rank. Qed.

Lemma placement_out_of_range ns topo b r : (NUM_BUCKETS ≤ b)%nat → placement ns topo b r = [].
Proof.
  intros Hb. unfold placement, owners_of_bucket. cbn [buckets set_topology new set_nodes].
  rewrite (proj2 (lookup_ge_None (map (rank ns) _) b)) by (by rewrite length_map, length_seq).
  simpl. unfold pick. simpl. case_decide; [by rewrite take_nil|]. by case_match.
Qed.

Lemma pick_nodes_ext p p' pl r :
  length (nodes p) = length (nodes p') → topology p = topology p' → pick p pl r = pick p' pl r.
Proof. intros Hl Ht. unfold pick. by rewrite Hl, Ht. Qed.

Lemma placement_NoDup ns topo b r : NoDup ns → NoDup (placement ns topo b r).
Proof.
  intros Hnd. destruct (decide (b < NUM_BUCKETS)%nat).
  - rewrite placement_pick by done. apply pick_NoDup; [apply rank_perm|done].
  - rewrite placement_out_of_range by lia. constructor.
Qed.

Lemma placement_subset ns topo b r : placement ns topo b r ⊆ ns.
Proof.
  destruct (decide (b < NUM_BUCKETS)%nat).
  - rewrite placement_pick by done.
    change ns with (nodes (set_topology (new ns) topo)) at 3. apply pick_subset, rank_perm.
  - rewrite placement_out_of_range by lia. set_solver.
Qed.

(** ** The placement theorems *)

Lemma placement_Permutation ns ns' topo b r :
  distinct_hashes ns → ns ≡ₚ ns' → placement ns topo b r = placement ns' topo b r.
Proof.
  intros Hd Hp. destruct (decide (b < NUM_BUCKETS)%nat).
  - rewrite !placement_pick, (rank_Permutation ns ns') by done.
    apply pick_nodes_ext; [|done]. by apply Permutation_length.
  - by rewrite !placement_out_of_range by lia.
Qed.

(** The first owner is the best of the membership. *)
Lemma placement_head_max ns topo b r n :
  (b < NUM_BUCKETS)%nat → r ≠ 0%nat → head (placement ns topo b r) = Some n →
  n ∈ ns ∧ ∀ m, m ∈ ns → node_score b m ≤ node_score b n.
Proof.
  intros Hb Hr. rewrite placement_pick by done.
  rewrite pick_head by (apply rank_perm || done). rewrite rank_sort.
  pose proof (sort_desc_sorted (node_score b) ns) as Hs.
  pose proof (sort_desc_perm (node_score b) ns) as Hp. revert Hs Hp.
  destruct (sort_desc (node_score b) ns) as [|n' l]; [done|]. intros Hs Hp [= ->].
  split; [rewrite <-Hp; by left|]. intros m. rewrite <-Hp, elem_of_cons. intros [->|Hm]; [lia|].
  apply StronglySorted_inv in Hs as [_ Hs]. rewrite Forall_forall in Hs. by apply Hs.
Qed.

(** Two memberships that give a bucket the same owners give it the same first
    one. *)
Lemma placement_same_head ns ns' topo b r r' :
  distinct_hashes ns → (b < NUM_BUCKETS)%nat → r ≠ 0%nat → r' ≠ 0%nat →
  (∀ n, n ∈ placement ns topo b r ↔ n ∈ placement ns' topo b r') →
  head (placement ns topo b r) = head (placement ns' topo b r').
Proof.
  intros Hd Hb Hr Hr' Ho.
  destruct (head (placement ns topo b r)) as [n|] eqn:Hn,
    (head (placement ns' topo b r')) as [n'|] eqn:Hn'; [|..|done].
  - assert (n ∈ ns') as Hin by (eapply placement_subset, Ho, head_Some_elem_of, Hn).
    assert (n' ∈ ns) as Hin' by (eapply placement_subset, Ho, head_Some_elem_of, Hn').
    apply placement_head_max in Hn as [Hns Hmax], Hn' as [_ Hmax']; [|done..].
    f_equal. apply (node_score_inj ns b); [done..|]. apply Hmax in Hin'. apply Hmax' in Hin. lia.
  - apply head_None in Hn'. rewrite Hn' in Ho. apply head_Some_elem_of, Ho in Hn.
    by apply elem_of_nil in Hn.
  - apply head_None in Hn. rewrite Hn in Ho. apply head_Some_elem_of, Ho in Hn'.
    by apply elem_of_nil in Hn'.
Qed.

(** Rendezvous placement does not depend on the order in which the node
    ids are given: whenever the FNV-1a hashes of the ids are pairwise distinct,
    two memberships with the same ids have the same owners, in the same order,
    for every key, replication factor and rack map.  ([Cluster::new] and
    [SmartClient::new] collect the ids from a [HashMap], whose iteration order
    is arbitrary.) *)
Theorem placement_order_independent ns ns' topo key r :
  distinct_hashes ns → ns ≡ₚ ns' →
  replica_set (set_topology (new ns) topo) key r
  = replica_set (set_topology (new ns') topo) key r.
Proof. intros. rewrite !replica_set_owners. by apply placement_Permutation. Qed.

Lemma placement_order_independent_witness :
  replica_set (set_topology (new ["s1"; "s0"]) ∅) "alpha" 1
  = replica_set (set_topology (new ["s0"; "s1"]) ∅) "alpha" 1.
Proof.
  apply (placement_order_independent ["s1"; "s0"] ["s0"; "s1"] ∅ "alpha" 1).
  - apply (bool_decide_unpack _). vm_compute. exact I.
  - apply Permutation_swap.
Defined.

(** With hash-colliding ids the order does matter: "costarring" and
    "liquid" have the same FNV-1a hash, every bucket score ties, and the stable
    sort keeps the insertion order, so the primary of every key is whichever id
    was listed first. *)
Theorem placement_hash_collision key :
  replica_set (new ["costarring"; "liquid"]) key 1 = ["costarring"]
  ∧ replica_set (new ["liquid"; "costarring"]) key 1 = ["liquid"].
Proof.
  assert (Hfnv : fnv1a "costarring" = fnv1a "liquid") by (vm_compute; reflexivity).
  unfold replica_set. rewrite !preference_list_rank by apply new_wf.
  generalize (bucket_of key) as b. intros b. cbn [nodes new set_nodes].
  rewrite !rank_sort. unfold sort_desc, node_score. cbn [foldr insert_desc].
  rewrite Hfnv, Z.leb_refl, !pick_no_topology by reflexivity. split; reflexivity.
Qed.

(** C14. The R owners of a key are R distinct members (all of them when there
    are fewer than R), and the first is the head of the preference list, with
    or without racks. *)
Theorem replica_set_spec p key r :
  wf p → NoDup (nodes p) → r ≠ 0%nat →
  NoDup (replica_set p key r)
  ∧ replica_set p key r ⊆ nodes p
  ∧ length (replica_set p key r) = (r `min` length (nodes p))%nat
  ∧ head (replica_set p key r) = head (preference_list p key).
Proof.
  intros Hp Hnd Hr. unfold replica_set. rewrite preference_list_rank by done.
  pose proof (rank_perm (nodes p) (bucket_of key)).
  split_and!; [by apply pick_NoDup|by apply pick_subset|by apply pick_length|by apply pick_head].
Qed.

Lemma replica_set_spec_witness :
  length (replica_set (new ["s0"; "s1"; "s2"]) "alpha" 2) = 2%nat.
Proof.
  destruct (replica_set_spec (new ["s0"; "s1"; "s2"]) "alpha" 2) as (_ & _ & Hlen & _).
  - apply new_wf.
  - cbn [nodes new set_nodes]. apply (bool_decide_unpack _). vm_compute. exact I.
  - done.
  - exact Hlen.
Defined.

(** Rack awareness: with a rack map set, either the R owners of a key are
    in pairwise different failure domains, or every failure domain of the
    membership already holds one of them. *)
Theorem rack_spread p key r :
  wf p → topology p ≠ ∅ →
  NoDup (map (domain (topology p)) (replica_set p key r))
  ∨ (∀ n, n ∈ nodes p →
       domain (topology p) n ∈ map (domain (topology p)) (replica_set p key r)).
Proof.
  intros Hp Ht. unfold replica_set. rewrite preference_list_rank by done.
  apply pick_domains; [apply rank_perm|done].
Qed.

Lemma rack_spread_witness :
  let p := set_topology (new ["n0"; "n1"; "n2"])
             {[ "n0" := "a"; "n1" := "a"; "n2" := "b" ]} in
  NoDup (map (domain (topology p)) (replica_set p "alpha" 2))
  ∨ (∀ n, n ∈ nodes p →
       domain (topology p) n ∈ map (domain (topology p)) (replica_set p "alpha" 2)).
Proof.
  intros p. apply (rack_spread p "alpha" 2).
  - apply set_topology_wf, new_wf.
  - cbn [p topology set_topology]. apply (bool_decide_unpack _). vm_compute. exact I.
Defined.

(** A prefix of a list, before and after removing one element. *)
Lemma take_filter_neq (n : NodeId) k l :
  NoDup l →
  (∀ m, m ∈ take k l → m ≠ n → m ∈ take k (filter (.≠ n) l))
  ∧ (n ∉ take k l → take k (filter (.≠ n) l) = take k l).
Proof.
  revert k. induction l as [|x l IH]; intros k Hnd;
    [rewrite filter_nil, take_nil; set_solver|].
  apply NoDup_cons in Hnd as [Hx Hnd]. destruct k as [|k]; [set_solver|].
  rewrite filter_cons. case_decide as Hxn; simpl.
  - destruct (IH k Hnd) as [IH1 IH2].
    split; [|intros Hn; rewrite IH2; [done|]; rewrite not_elem_of_cons in Hn; by destruct Hn].
    intros m Hm Hmn. apply elem_of_cons in Hm as [->|Hm]; apply elem_of_cons; auto.
  - destruct (decide (x = n)) as [->|]; [|done].
    split; [|intros Hn; destruct Hn; apply elem_of_cons; by left].
    intros m Hm Hmn. apply elem_of_cons in Hm as [->|Hm]; [done|].
    rewrite filter_all by (intros y Hy ->; done).
    apply elem_of_take in Hm as Hm'. destruct (decide (k < length l)%nat).
    + destruct (lookup_lt_is_Some_2 l k) as [y Hy]; [done|].
      rewrite (take_S_r l k y Hy). set_solver.
    + rewrite take_ge in Hm |- * by lia. done.
Qed.

(** Owners before and after taking one node out. *)
Lemma placement_remove ns n b r :
  NoDup ns →
  let before := placement ns ∅ b r in
  let after := placement (filter (.≠ n) ns) ∅ b r in
  (n ∉ before → after = before)
  ∧ (∀ m, m ∈ before → m ≠ n → m ∈ after).
Proof.
  intros Hnd before after. unfold before, after.
  destruct (decide (b < NUM_BUCKETS)%nat); [|rewrite !placement_out_of_range by lia; set_solver].
  rewrite !placement_pick, !pick_no_topology by done. cbn [nodes set_topology new set_nodes].
  rewrite rank_filter.
  rewrite !take_min_length by (by rewrite <-?rank_filter, rank_length).
  destruct (take_filter_neq n r (rank ns b)) as [H1 H2]; [by rewrite rank_perm|].
  split; [exact H2|exact H1].
Qed.

(** C40. Minimal movement: without racks, taking one node out of the membership
    leaves the owner list of every bucket it did not own untouched, and every
    surviving owner of a bucket it did own stays an owner.  Read from right to
    left: a joining node takes over buckets, but no data moves between the old
    nodes. *)
Theorem membership_change_is_minimal ns n b r :
  NoDup ns →
  let before := placement ns ∅ b r in
  let after := placement (filter (.≠ n) ns) ∅ b r in
  (n ∉ before → after = before)
  ∧ (∀ m, m ∈ before → m ≠ n → m ∈ after).
Proof. apply placement_remove. Qed.

Lemma membership_change_is_minimal_witness :
  distinct_hashes ["s0"; "s1"; "s2"] ∧ ∀ m, m ∈ placement ["s0"; "s1"; "s2"] ∅ 9 2 → m ≠ "s1" →
       m ∈ placement (filter (.≠ "s1") ["s0"; "s1"; "s2"]) ∅ 9 2.
Proof.
  split; [apply (bool_decide_unpack _); vm_compute; exact I|].
  apply (membership_change_is_minimal ["s0"; "s1"; "s2"] "s1" 9 2).
  apply (bool_decide_unpack _). vm_compute. exact I.
Defined.

End Partitioner.
