(* ===== verification/Reshard.v ===== *)
(** * The reshard planner ([src/src/reshard.rs])

    Diffs two memberships bucket by bucket and emits the copies and drops that
    turn the old placement into the new one. *)

From S2P Require Import Prelude Machine Text Partitioner.

Module Reshard.
Import Partitioner.

Record Copy := mkCopy { c_bucket : nat; c_from : NodeId; c_to : NodeId }.
Record Drop := mkDrop { d_bucket : nat; d_node : NodeId }.

Record ReshardPlan := mkPlan {
  copies : list Copy;
  drops : list Drop;
  total_buckets : nat;
  moved_buckets : nat;
}.

(** [replication.min(n.max(1)).max(1)]. *)
Definition effective (replication n : nat) : nat := (replication `min` (n `max` 1)) `max` 1.

(** A partitioner over [ns] carrying the rack map (left alone when empty). *)
Definition planner (ns : list NodeId) (topo : gmap NodeId string) : t :=
  let p := new ns in if decide (topo = ∅) then p else set_topology p topo.

(** The copies of one bucket: every new owner that is not an old one, from the
    first old owner. *)
Definition bucket_copies (b : nat) (old_owners new_owners : list NodeId) : list Copy :=
  match head old_owners with
  | Some src => map (mkCopy b src) (filter (.∉ old_owners) new_owners)
  | None => []
  end.

Definition bucket_drops (b : nat) (old_owners new_owners : list NodeId) : list Drop :=
  map (mkDrop b) (filter (.∉ new_owners) old_owners).

Definition bucket_owners (ns : list NodeId) (topo : gmap NodeId string) (replication b : nat)
    : list NodeId :=
  owners_of_bucket (planner ns topo) b (effective replication (length ns)).

(** The loop over the buckets, with the three accumulators of the source. *)
Definition plan_step (old nw : list NodeId) (topo : gmap NodeId string) (replication : nat)
    (acc : list Copy * list Drop * nat) (b : nat) : list Copy * list Drop * nat :=
  let '(cs, ds, moved) := acc in
  let old_owners := if decide (old = []) then [] else bucket_owners old topo replication b in
  let new_owners := bucket_owners nw topo replication b in
  let cb := bucket_copies b old_owners new_owners in
  let db := bucket_drops b old_owners new_owners in
  let changed := bool_decide (cb ≠ [] ∨ db ≠ []) in
  (cs ++ cb, ds ++ db, if changed then S moved else moved).

Definition plan_reshard (old nw : list NodeId) (replication : nat)
    (topo : gmap NodeId string) : ReshardPlan :=
  let n := bucket_count (planner nw topo) in
  let '(cs, ds, moved) := foldl (plan_step old nw topo replication) ([], [], 0) (seq 0 n) in
  mkPlan cs ds n moved.

(** ** The plan, bucket by bucket *)

Section plan.
Context (old nw : list NodeId) (topo : gmap NodeId string) (replication : nat).

Definition old_owners (b : nat) : list NodeId :=
  if decide (old = []) then [] else bucket_owners old topo replication b.
Definition new_owners (b : nat) : list NodeId := bucket_owners nw topo replication b.

Definition changed (b : nat) : Prop :=
  bucket_copies b (old_owners b) (new_owners b) ≠ []
  ∨ bucket_drops b (old_owners b) (new_owners b) ≠ [].

#[global] Instance changed_dec b : Decision (changed b).
Proof. unfold changed. apply _. Defined.

Lemma plan_fold l cs ds moved :
  foldl (plan_step old nw topo replication) (cs, ds, moved) l
  = (cs ++ (l ≫= λ b, bucket_copies b (old_owners b) (new_owners b)),
     ds ++ (l ≫= λ b, bucket_drops b (old_owners b) (new_owners b)),
     moved + length (filter changed l)).
Proof.
  revert cs ds moved. induction l as [|b l IH]; intros cs ds moved; cbn [foldl].
  { by rewrite !app_nil_r, Nat.add_0_r. }
  unfold plan_step at 2. fold (old_owners b) (new_owners b). rewrite IH.
  rewrite !bind_cons, !app_assoc. f_equal. rewrite filter_cons.
  case_bool_decide as H1; case_decide as H2; simpl; [lia|by destruct H2|by destruct H1|lia].
Qed.

Lemma planner_wf ns : wf (planner ns topo).
Proof. unfold planner. case_decide; apply new_wf. Qed.

Lemma planner_nodes ns : nodes (planner ns topo) = ns.
Proof. unfold planner. by case_decide. Qed.

Lemma planner_placement ns b r : owners_of_bucket (planner ns topo) b r = placement ns topo b r.
Proof.
  unfold planner, placement. case_decide as Ht; [|done].
  rewrite Ht. unfold new, set_topology, set_nodes. cbn [nodes buckets num_buckets topology].
  reflexivity.
Qed.

Lemma planner_bucket_count ns : bucket_count (planner ns topo) = NUM_BUCKETS.
Proof. apply planner_wf. Qed.

Lemma plan_copies :
  copies (plan_reshard old nw replication topo)
  = seq 0 NUM_BUCKETS ≫= λ b, bucket_copies b (old_owners b) (new_owners b).
Proof.
  unfold plan_reshard. rewrite plan_fold. cbn [copies app].
  by rewrite planner_bucket_count.
Qed.

Lemma plan_drops :
  drops (plan_reshard old nw replication topo)
  = seq 0 NUM_BUCKETS ≫= λ b, bucket_drops b (old_owners b) (new_owners b).
Proof.
  unfold plan_reshard. rewrite plan_fold. cbn [drops app].
  by rewrite planner_bucket_count.
Qed.

Lemma plan_moved :
  moved_buckets (plan_reshard old nw replication topo)
  = length (filter changed (seq 0 NUM_BUCKETS)).
Proof.
  unfold plan_reshard. rewrite plan_fold. cbn [moved_buckets Nat.add].
  by rewrite planner_bucket_count.
Qed.

Lemma elem_of_bucket_copies b o n c :
  c ∈ bucket_copies b o n ↔
  c_bucket c = b ∧ head o = Some (c_from c) ∧ c_to c ∈ n ∧ c_to c ∉ o.
Proof.
  unfold bucket_copies. destruct (head o) as [src|] eqn:Hh.
  - rewrite list_elem_of_fmap. split.
    + intros (m & -> & [? ?]%list_elem_of_filter). done.
    + destruct c as [b' f to]; simpl. intros (-> & [= ->] & ? & ?).
      exists to. by rewrite list_elem_of_filter.
  - split; [set_solver|]. naive_solver.
Qed.

Lemma elem_of_bucket_drops b o n d :
  d ∈ bucket_drops b o n ↔ d_bucket d = b ∧ d_node d ∈ o ∧ d_node d ∉ n.
Proof.
  unfold bucket_drops. rewrite list_elem_of_fmap. split.
  - intros (m & -> & [? ?]%list_elem_of_filter). done.
  - destruct d as [b' m]; simpl. intros (-> & ? & ?). exists m. by rewrite list_elem_of_filter.
Qed.

(** A bucket is untouched exactly when its set of owners stays the same. *)
Lemma bucket_unchanged b (o n : list NodeId) src :
  head o = Some src →
  (bucket_copies b o n = [] ∧ bucket_drops b o n = []) ↔
  list_to_set o =@{gset NodeId} list_to_set n.
Proof.
  intros Hh. rewrite !list_nil_iff, set_eq. setoid_rewrite elem_of_bucket_copies.
  setoid_rewrite elem_of_bucket_drops. setoid_rewrite elem_of_list_to_set. split.
  - intros [Hc Hd] m. destruct (decide (m ∈ o)), (decide (m ∈ n)); try tauto.
    + by destruct (Hd (mkDrop b m)).
    + by destruct (Hc (mkCopy b src m)).
  - naive_solver.
Qed.

(** Exactly which copies and drops the plan holds. *)
Lemma elem_of_copies c :
  c ∈ copies (plan_reshard old nw replication topo) ↔
  c_bucket c < NUM_BUCKETS ∧ head (old_owners (c_bucket c)) = Some (c_from c)
  ∧ c_to c ∈ new_owners (c_bucket c) ∧ c_to c ∉ old_owners (c_bucket c).
Proof.
  rewrite plan_copies, list_elem_of_bind. setoid_rewrite elem_of_bucket_copies.
  setoid_rewrite elem_of_seq. naive_solver lia.
Qed.

Lemma elem_of_drops d :
  d ∈ drops (plan_reshard old nw replication topo) ↔
  d_bucket d < NUM_BUCKETS ∧ d_node d ∈ old_owners (d_bucket d)
  ∧ d_node d ∉ new_owners (d_bucket d).
Proof.
  rewrite plan_drops, list_elem_of_bind. setoid_rewrite elem_of_bucket_drops.
  setoid_rewrite elem_of_seq. naive_solver lia.
Qed.

End plan.

(** ** Applying a plan to an assignment of owners *)

(** The owner set of bucket [b] after carrying out the copies, then the drops. *)
Definition apply_plan (p : ReshardPlan) (owners : nat → gset NodeId) (b : nat) : gset NodeId :=
  (owners b ∪ list_to_set (map c_to (filter (λ c, c_bucket c = b) (copies p))))
  ∖ list_to_set (map d_node (filter (λ d, d_bucket d = b) (drops p))).

Lemma bucket_owners_placement ns topo replication b :
  bucket_owners ns topo replication b = placement ns topo b (effective replication (length ns)).
Proof. apply planner_placement. Qed.

Lemma effective_pos replication n : effective replication n ≠ 0.
Proof. unfold effective. lia. Qed.

(** Up to the membership size the effective factor is the requested one. *)
Lemma placement_effective ns topo b replication :
  placement ns topo b (effective replication (length ns))
  = placement ns topo b (replication `max` 1).
Proof.
  unfold placement, owners_of_bucket, pick. cbn [nodes set_topology new set_nodes].
  unfold effective.
  replace (((replication `min` (length ns `max` 1)) `max` 1) `min` length ns)
    with ((replication `max` 1) `min` length ns) by lia.
  done.
Qed.

Lemma old_owners_nonempty old topo replication b :
  old ≠ [] → NoDup old → b < NUM_BUCKETS →
  ∃ src, head (old_owners old topo replication b) = Some src
         ∧ src ∈ old_owners old topo replication b.
Proof.
  intros Hne Hnd Hb. unfold old_owners. rewrite decide_False by done.
  rewrite bucket_owners_placement, placement_pick by done.
  pose proof (pick_length (set_topology (new old) topo) (rank old b)
    (effective replication (length old)) (rank_perm old b) Hnd) as Hlen.
  pose proof (effective_pos replication (length old)).
  cbn [nodes set_topology new set_nodes] in Hlen.
  destruct (pick _ _ _) as [|src l]; [|exists src; set_solver].
  destruct old; [done|]. simpl in *. lia.
Qed.

(** C13. The plan is correct: carrying out its copies and drops turns the old
    owner set of every bucket into exactly the new owner set. *)
Theorem plan_reaches_new_owners old nw topo replication b :
  old ≠ [] → NoDup old → b < NUM_BUCKETS →
  apply_plan (plan_reshard old nw replication topo)
    (λ b, list_to_set (bucket_owners old topo replication b)) b
  = list_to_set (bucket_owners nw topo replication b).
Proof.
  intros Hne Hnd Hb. unfold apply_plan.
  assert (Ho : bucket_owners old topo replication b = old_owners old topo replication b).
  { unfold old_owners. by rewrite decide_False. }
  fold (new_owners nw topo replication b). rewrite Ho.
  destruct (old_owners_nonempty old topo replication b) as (src & Hsrc & _); [done..|].
  apply set_eq. intros m.
  rewrite elem_of_difference, elem_of_union, !elem_of_list_to_set, !list_elem_of_fmap.
  setoid_rewrite list_elem_of_filter. setoid_rewrite elem_of_copies.
  setoid_rewrite elem_of_drops. split.
  - intros [[Hold|(c & -> & <- & _ & _ & Hin & _)] Hnd']; [|done].
    apply dec_stable. intros Hnew. apply Hnd'. by exists (mkDrop b m).
  - intros Hnew. split.
    + destruct (decide (m ∈ old_owners old topo replication b)); [by left|right].
      by exists (mkCopy b src m).
    + intros (d & -> & <- & _ & _ & Hd). done.
Qed.

Lemma plan_reaches_new_owners_witness :
  apply_plan (plan_reshard ["s0"; "s1"] ["s0"; "s1"; "s2"] 2 ∅)
    (λ b, list_to_set (bucket_owners ["s0"; "s1"] ∅ 2 b)) 0
  = list_to_set (bucket_owners ["s0"; "s1"; "s2"] ∅ 2 0).
Proof.
  apply (plan_reaches_new_owners ["s0"; "s1"] ["s0"; "s1"; "s2"] ∅ 2 0).
  - done.
  - apply (bool_decide_unpack _). vm_compute. exact I.
  - apply NUM_BUCKETS_pos.
Defined.

(** The plan is minimal: it copies only to nodes that do not own the bucket
    yet, always from an old owner, drops only from nodes that stop owning it,
    and counts as moved exactly the buckets whose set of owners changes. *)
Theorem plan_is_minimal old nw topo replication :
  old ≠ [] → NoDup old →
  let p := plan_reshard old nw replication topo in
  (∀ c, c ∈ copies p →
     c_from c ∈ bucket_owners old topo replication (c_bucket c)
     ∧ c_to c ∈ bucket_owners nw topo replication (c_bucket c)
     ∧ c_to c ∉ bucket_owners old topo replication (c_bucket c))
  ∧ (∀ d, d ∈ drops p →
     d_node d ∈ bucket_owners old topo replication (d_bucket d)
     ∧ d_node d ∉ bucket_owners nw topo replication (d_bucket d))
  ∧ moved_buckets p
    = length (filter (λ b, list_to_set (bucket_owners old topo replication b)
                ≠@{gset NodeId} list_to_set (bucket_owners nw topo replication b))
              (seq 0 NUM_BUCKETS)).
Proof.
  intros Hne Hnd p. unfold p.
  assert (Ho : ∀ b, bucket_owners old topo replication b = old_owners old topo replication b).
  { intros b. unfold old_owners. by rewrite decide_False. }
  split_and!.
  - intros c (_ & Hh & Hn & Hno)%elem_of_copies. rewrite Ho.
    split_and!; [by apply head_Some_elem_of|done..].
  - intros d (_ & ? & ?)%elem_of_drops. by rewrite Ho.
  - rewrite plan_moved. f_equal. apply filter_ext_in.
    intros b Hb%elem_of_seq. rewrite Ho. unfold changed.
    destruct (old_owners_nonempty old topo replication b) as (src & Hsrc & _); [done..|lia|].
    pose proof (bucket_unchanged b _ (new_owners nw topo replication b) src Hsrc) as Hiff.
    fold (new_owners nw topo replication b).
    destruct (decide (bucket_copies b (old_owners old topo replication b)
      (new_owners nw topo replication b) = [])), (decide (bucket_drops b
      (old_owners old topo replication b) (new_owners nw topo replication b) = [])); tauto.
Qed.

Lemma plan_is_minimal_witness :
  NoDup ["s0"; "s1"] ∧ ∀ d, d ∈ drops (plan_reshard ["s0"; "s1"] ["s0"; "s2"] 1 ∅) →
    d_node d ∈ bucket_owners ["s0"; "s1"] ∅ 1 (d_bucket d)
    ∧ d_node d ∉ bucket_owners ["s0"; "s2"] ∅ 1 (d_bucket d).
Proof.
  split; [apply (bool_decide_unpack _); vm_compute; exact I|].
  apply (plan_is_minimal ["s0"; "s1"] ["s0"; "s2"] ∅ 1).
  - done.
  - apply (bool_decide_unpack _). vm_compute. exact I.
Defined.

(** Scaling out is local: when one node joins a rack-less cluster, every
    copy of the plan goes to that node, and when one node leaves, every drop of
    the plan is on that node. *)
Theorem join_and_leave_are_local ns n replication :
  NoDup ns →
  let rest := filter (.≠ n) ns in
  (∀ c, c ∈ copies (plan_reshard rest ns replication ∅) → c_to c = n)
  ∧ (∀ d, d ∈ drops (plan_reshard ns rest replication ∅) → d_node d = n).
Proof.
  intros Hnd rest.
  assert (Hpl : ∀ b, b < NUM_BUCKETS →
    ∀ m, m ∈ new_owners ns ∅ replication b → m ≠ n → m ∈ new_owners rest ∅ replication b).
  { intros b _ m. unfold new_owners. rewrite !bucket_owners_placement, !placement_effective.
    intros Hm Hmn. by apply (placement_remove ns n b (replication `max` 1)). }
  split.
  - intros c (Hb & Hh & Hto & Hnot)%elem_of_copies. apply dec_stable. intros Hne.
    apply Hnot. unfold old_owners. case_decide as Hr; [|by apply Hpl].
    unfold old_owners in Hh. by rewrite decide_True in Hh.
  - intros d (Hb & Hold & Hnot)%elem_of_drops. apply dec_stable. intros Hne.
    apply Hnot. unfold old_owners in Hold. case_decide; [set_solver|]. by apply Hpl.
Qed.

Lemma join_and_leave_are_local_witness :
  "s2" ∈ ["s0"; "s1"; "s2"] ∧ ∀ c, c ∈ copies (plan_reshard (filter (.≠ "s2") ["s0"; "s1"; "s2"]) ["s0"; "s1"; "s2"] 2 ∅) →
    c_to c = "s2".
Proof.
  split; [apply (bool_decide_unpack _); vm_compute; exact I|].
  apply (join_and_leave_are_local ["s0"; "s1"; "s2"] "s2" 2).
  apply (bool_decide_unpack _). vm_compute. exact I.
Defined.

End Reshard.
