(* ===== verification/Store.v ===== *)
(** * The storage seam ([src/src/store.rs])

    [IndexStore] is the interface of a shard-local store: its required
    operations are the fields of a class, its default methods are definitions
    over the class, and [IndexStoreLaws] states what a store promises to its
    clients.  The shard, the cluster and the protocols are proved against the
    laws; [MemoryStore] (and the durable store) discharge them.

    [serde_json::Value] is a parameter [V] with the operations the source calls
    ([JsonValue]) and their documented behaviour ([JsonLaws]).  Time is an
    explicit argument: every operation that calls [now_epoch_ms] takes the
    clock reading [now].  The iteration order of a [HashMap] is unspecified: it
    is a parameter ([HashIter]) constrained only to enumerate the map. *)

From S2P Require Import Prelude Machine Text Partitioner.

Local Open Scope Z_scope.

(** ** Values *)

Class JsonValue (V : Type) := {
  (** [PartialEq for Value] *)
  value_eqb : V → V → bool;
  (** [Value::as_i64], [Value::as_str] *)
  value_as_i64 : V → option Z;
  value_as_str : V → option string;
  (** [Value::from(i64)], [Value::String] *)
  value_from_i64 : Z → V;
  value_from_str : string → V;
  (** [serde_json::from_value::<Vec<String>>(v).ok()], [serde_json::to_value(Vec<String>)] *)
  value_to_strings : V → option (list string);
  value_from_strings : list string → V;
}.

Class JsonLaws (V : Type) `{!JsonValue V} := {
  value_eqb_refl : ∀ v : V, value_eqb v v = true;
  value_as_i64_from : ∀ z, is_i64 z → value_as_i64 (value_from_i64 z) = Some z;
  value_as_i64_range : ∀ v z, value_as_i64 v = Some z → is_i64 z;
  value_as_str_from : ∀ s, value_as_str (value_from_str s) = Some s;
  value_as_i64_str : ∀ s, value_as_i64 (value_from_str s) = None;
  value_to_from_strings : ∀ l, value_to_strings (value_from_strings l) = Some l;
}.

(** [Option<Value> == Option<Value>]. *)
Definition option_value_eqb `{JsonValue V} (a b : option V) : bool :=
  match a, b with
  | Some x, Some y => value_eqb x y
  | None, None => true
  | _, _ => false
  end.

(** ** Hash maps *)

Class HashIter := {
  hash_iter : ∀ {A : Type}, gmap string A → list (string * A);
  hash_iter_perm : ∀ (A : Type) (m : gmap string A), hash_iter m ≡ₚ map_to_list m;
}.

Section hash_iter.
Context `{HashIter} {A : Type}.
Implicit Types (m : gmap string A).

Lemma elem_of_hash_iter m k v : (k, v) ∈ hash_iter m ↔ m !! k = Some v.
Proof. rewrite hash_iter_perm. apply elem_of_map_to_list. Qed.

Lemma NoDup_hash_iter_keys m : NoDup (map fst (hash_iter m)).
Proof. rewrite hash_iter_perm. apply NoDup_fst_map_to_list. Qed.

End hash_iter.

(** ** The interface *)

Class IndexStore (V St : Type) := {
  put_object : St → string → string → V → St;
  put_batch : St → list (string * string * V) → St;
  get_object : Z → St → string → string → option V;
  scan_objects : Z → St → string → list V;
  scan_entries : Z → St → string → list (string * V);
  scan_range : Z → St → string → option string → option string → option string → nat →
    list string;
  clear_collection : St → string → St;
  delete_object : St → string → string → St;
  put_object_at : St → string → string → V → Z → St;
  expiry_of : St → string → string → option Z;
  sweep_expired : St → Z → St * nat;
}.

(** ** Default methods *)

(** [o.map_or(true, f)]. *)
Definition map_or_true {A} (o : option A) (f : A → bool) : bool :=
  match o with Some a => f a | None => true end.

Section defaults.
Context {V St : Type} `{!IndexStore V St}.

(** The default [put_batch]: one [put_object] per item. *)
Definition put_batch_default (put : St → string → string → V → St) (st : St)
    (items : list (string * string * V)) : St :=
  foldl (λ s '(coll, id, obj), put s coll id obj) st items.

(** The default [scan_range]: collect the keys, sort, filter, take. *)
Definition scan_range_default (entries : list (string * V))
    (after prefix end_ : option string) (limit : nat) : list string :=
  let keys := sort_strings (map fst entries) in
  let keys := filter (λ k, map_or_true after (λ a, str_ltb a k) = true) keys in
  let keys := filter (λ k, map_or_true prefix (λ p, starts_with p k) = true) keys in
  let keys := filter (λ k, map_or_true end_ (λ e, str_ltb k e) = true) keys in
  take limit keys.

Definition scan_keys (now : Z) (st : St) (coll : string) (after : option string)
    (limit : nat) : list string :=
  scan_range now st coll after None None limit.

Definition mget (now : Z) (st : St) (coll : string) (keys : list string) : list (option V) :=
  map (get_object now st coll) keys.

Definition SCAN_CHUNK : nat := 1024.

(** One page of [scan_buckets]: append the wanted keys; [inr] when the limit
    is reached (the early [return]). *)
Fixpoint take_wanted (want : gset nat) (limit : nat) (page out : list string)
    : list string + list string :=
  match page with
  | [] => inl out
  | k :: page' =>
      if decide (Partitioner.bucket_of k ∈ want) then
        let out' := out ++ [k] in
        if (limit <=? length out')%nat then inr out' else take_wanted want limit page' out'
      else take_wanted want limit page' out
  end.

(** The paging loop; [None] when the fuel runs out. *)
Fixpoint scan_buckets_loop (fuel : nat) (now : Z) (st : St) (coll : string)
    (want : gset nat) (cursor : option string) (limit : nat) (out : list string)
    : option (list string) :=
  match fuel with
  | O => None
  | S f =>
      let page := scan_range now st coll cursor None None SCAN_CHUNK in
      match page with
      | [] => Some out
      | _ =>
          match take_wanted want limit page out with
          | inr out' => Some out'
          | inl out' =>
              if (length page =? SCAN_CHUNK)%nat
              then scan_buckets_loop f now st coll want (last page) limit out'
              else Some out'
          end
      end
  end.

(** Every page but the last consumes keys, so one round per key and one more
    is enough fuel. *)
Definition scan_buckets (now : Z) (st : St) (coll : string) (bs : list nat)
    (after : option string) (limit : nat) : list string :=
  default [] (scan_buckets_loop (S (length (scan_entries now st coll))) now st coll
                (list_to_set bs) after limit []).

Context `{!JsonValue V}.

Definition cas (now : Z) (st : St) (coll key : string) (expect : option V) (nw : V) : St * bool :=
  if option_value_eqb (get_object now st coll key) expect
  then (put_object st coll key nw, true)
  else (st, false).

(** The integer held by a value: a JSON integer, or a numeric string. *)
Definition value_int (v : V) : option Z :=
  match value_as_i64 v with
  | Some z => Some z
  | None => s ← value_as_str v; parse_i64 (trim s)
  end.

Definition incr (now : Z) (st : St) (coll key : string) (delta : Z) : St * option Z :=
  let cur := match get_object now st coll key with
             | None => Some 0
             | Some v => value_int v
             end in
  match cur with
  | None => (st, None)
  | Some c =>
      let next := i64_wrapping_add c delta in
      (put_object st coll key (value_from_i64 next), Some next)
  end.

(** The members stored at a key; anything that is not a JSON array of strings
    reads as the empty set. *)
Definition set_members (now : Z) (st : St) (coll key : string) : list string :=
  default [] (get_object now st coll key ≫= value_to_strings).

Definition set_add (now : Z) (st : St) (coll key member : string) : St * bool :=
  let arr := set_members now st coll key in
  if decide (member ∈ arr) then (st, false)
  else (put_object st coll key (value_from_strings (arr ++ [member])), true).

Definition set_remove (now : Z) (st : St) (coll key member : string) : St * bool :=
  let arr := set_members now st coll key in
  let arr' := filter (.≠ member) arr in
  if (length arr' =? length arr)%nat then (st, false)
  else
    (if decide (arr' = []) then delete_object st coll key
     else put_object st coll key (value_from_strings arr'), true).

End defaults.

(** ** The contract of a store *)

Class IndexStoreLaws (V St : Type) `{!IndexStore V St} := {
  (** representation invariant of the store *)
  store_wf : St → Prop;
  (** entries the backend can hold faithfully (everything, in memory) *)
  entry_ok : string → string → V → Prop;

  wf_put : ∀ st c i v, store_wf st → entry_ok c i v → store_wf (put_object st c i v);
  wf_put_at : ∀ st c i v e, store_wf st → entry_ok c i v → is_u64 e →
    store_wf (put_object_at st c i v e);
  wf_delete : ∀ st c i, store_wf st → store_wf (delete_object st c i);
  wf_clear : ∀ st c, store_wf st → store_wf (clear_collection st c);
  wf_sweep : ∀ st t, store_wf st → store_wf (sweep_expired st t).1;

  get_entry_ok : ∀ now st c i v,
    store_wf st → get_object now st c i = Some v → entry_ok c i v;
  get_put : ∀ now st c i v c' i', store_wf st → entry_ok c i v →
    get_object now (put_object st c i v) c' i'
    = if decide ((c, i) = (c', i')) then Some v else get_object now st c' i';
  get_put_at : ∀ now st c i v e c' i', store_wf st → entry_ok c i v → is_u64 e →
    get_object now (put_object_at st c i v e) c' i'
    = if decide ((c, i) = (c', i')) then (if e <=? now then None else Some v)
      else get_object now st c' i';
  get_delete : ∀ now st c i c' i', store_wf st →
    get_object now (delete_object st c i) c' i'
    = if decide ((c, i) = (c', i')) then None else get_object now st c' i';
  get_clear : ∀ now st c c' i, store_wf st →
    get_object now (clear_collection st c) c' i
    = if decide (c = c') then None else get_object now st c' i;
  get_sweep : ∀ now st t c i, store_wf st → t ≤ now →
    get_object now (sweep_expired st t).1 c i = get_object now st c i;
  put_batch_fold : ∀ st items, store_wf st →
    (∀ c i v, (c, i, v) ∈ items → entry_ok c i v) →
    put_batch st items = put_batch_default put_object st items;

  expiry_put : ∀ st c i v c' i', store_wf st → entry_ok c i v →
    expiry_of (put_object st c i v) c' i'
    = if decide ((c, i) = (c', i')) then None else expiry_of st c' i';
  expiry_put_at : ∀ st c i v e c' i', store_wf st → entry_ok c i v → is_u64 e →
    expiry_of (put_object_at st c i v e) c' i'
    = if decide ((c, i) = (c', i')) then Some e else expiry_of st c' i';
  expiry_delete : ∀ st c i c' i', store_wf st →
    expiry_of (delete_object st c i) c' i'
    = if decide ((c, i) = (c', i')) then None else expiry_of st c' i';

  (** time enters a read only through the recorded expiry *)
  get_expiry : ∀ st c i, store_wf st → ∃ raw, ∀ now,
    get_object now st c i = match expiry_of st c i with
                            | Some e => if e <=? now then None else raw
                            | None => raw
                            end;

  entries_NoDup : ∀ now st c, store_wf st → NoDup (map fst (scan_entries now st c));
  entries_get : ∀ now st c k v, store_wf st →
    (k, v) ∈ scan_entries now st c ↔ get_object now st c k = Some v;
  objects_entries : ∀ now st c, store_wf st →
    scan_objects now st c = map snd (scan_entries now st c);
  range_default : ∀ now st c a p e n, store_wf st →
    scan_range now st c a p e n = scan_range_default (scan_entries now st c) a p e n;
}.

(** ** What the default methods do, for every lawful store *)

Section laws.
Context {V St : Type} `{!IndexStore V St, !IndexStoreLaws V St}.
Implicit Types (st : St) (v : V).

Lemma get_put_eq now st c i v :
  store_wf st → entry_ok c i v → get_object now (put_object st c i v) c i = Some v.
Proof. intros. rewrite get_put by done. by rewrite decide_True. Qed.

Lemma get_put_ne now st c i v c' i' :
  store_wf st → entry_ok c i v → (c, i) ≠ (c', i') →
  get_object now (put_object st c i v) c' i' = get_object now st c' i'.
Proof. intros. rewrite get_put by done. by rewrite decide_False. Qed.

Lemma get_delete_eq now st c i : store_wf st → get_object now (delete_object st c i) c i = None.
Proof. intros. rewrite get_delete by done. by rewrite decide_True. Qed.

Lemma get_delete_ne now st c i c' i' :
  store_wf st → (c, i) ≠ (c', i') →
  get_object now (delete_object st c i) c' i' = get_object now st c' i'.
Proof. intros. rewrite get_delete by done. by rewrite decide_False. Qed.

(** *** Ordered iteration *)

Definition in_bounds (after prefix end_ : option string) (k : string) : Prop :=
  map_or_true after (λ a, str_ltb a k) = true
  ∧ map_or_true prefix (λ p, starts_with p k) = true
  ∧ map_or_true end_ (λ e, str_ltb k e) = true.

#[global] Instance in_bounds_dec a p e k : Decision (in_bounds a p e k).
Proof. unfold in_bounds. apply _. Defined.

(** All live keys of a collection, ascending. *)
Definition live_keys (now : Z) (st : St) (c : string) : list string :=
  sort_strings (map fst (scan_entries now st c)).

Lemma elem_of_live_keys now st c k :
  store_wf st → k ∈ live_keys now st c ↔ is_Some (get_object now st c k).
Proof.
  intros Hwf. unfold live_keys. rewrite elem_of_sort_strings, list_elem_of_fmap. split.
  - intros ([k' v] & -> & Hin). apply entries_get in Hin; [|done]. by eexists.
  - intros [v Hv]. exists (k, v). split; [done|]. by apply entries_get.
Qed.

Lemma live_keys_sorted now st c : store_wf st → StronglySorted str_lt (live_keys now st c).
Proof. intros. by apply sort_strings_strict, entries_NoDup. Qed.

Lemma scan_range_spec now st c a p e n :
  store_wf st →
  scan_range now st c a p e n = take n (filter (in_bounds a p e) (live_keys now st c)).
Proof.
  intros Hwf. rewrite range_default by done. unfold scan_range_default, live_keys.
  f_equal. rewrite !list_filter_filter. apply filter_ext_in. unfold in_bounds. tauto.
Qed.

Lemma in_bounds_after a k : in_bounds a None None k ↔ map_or_true a (λ a, str_ltb a k) = true.
Proof. unfold in_bounds. simpl. tauto. Qed.

(** Resuming after the last key of a page continues exactly where it stopped. *)
Lemma resume_after (l : list string) cur n k :
  StronglySorted str_lt l →
  last (take n (filter (in_bounds cur None None) l)) = Some k →
  filter (in_bounds (Some k) None None) l = drop n (filter (in_bounds cur None None) l).
Proof.
  intros Hl Hlast. set (r := filter (in_bounds cur None None) l) in *.
  assert (Hr : StronglySorted str_lt r) by (by apply StronglySorted_filter).
  apply last_Some in Hlast as [l0 Hl0].
  assert (Hsplit : r = (l0 ++ [k]) ++ drop n r) by (by rewrite <-Hl0, take_drop).
  assert (Hkr : k ∈ r) by (rewrite Hsplit; set_solver).
  assert (filter (in_bounds (Some k) None None) l
          = filter (in_bounds (Some k) None None) r) as ->.
  { unfold r. rewrite list_filter_filter. apply filter_ext_in. intros x _.
    rewrite !in_bounds_after. simpl. split; [|tauto]. intros Hkx. split; [done|].
    apply list_elem_of_filter in Hkr as [Hk _]. rewrite in_bounds_after in Hk.
    destruct cur as [a|]; [|done]. simpl in *. rewrite str_ltb_spec in *. by etrans. }
  rewrite Hsplit at 1. rewrite Hsplit in Hr.
  rewrite filter_app, filter_none, filter_all; [done| |].
  - intros x Hx. rewrite in_bounds_after. simpl. apply str_ltb_spec.
    eapply StronglySorted_app_1_elem_of; [done| |done]. set_solver.
  - intros x Hx. rewrite in_bounds_after. simpl. rewrite str_ltb_spec. intros Hlt.
    apply StronglySorted_app_1_l in Hr.
    apply elem_of_app in Hx as [Hx|Hx%list_elem_of_singleton]; [|subst x].
    + eapply StronglySorted_app_1_elem_of in Hr; [|exact Hx|by apply list_elem_of_singleton].
      eapply (irreflexivity str_lt x). by etrans.
    + by eapply (irreflexivity str_lt k).
Qed.

Definition wanted (want : gset nat) (k : string) : Prop := Partitioner.bucket_of k ∈ want.

#[global] Instance wanted_dec want k : Decision (wanted want k).
Proof. unfold wanted. apply _. Defined.

Lemma take_wanted_spec want limit page out :
  (length out < limit `max` 1)%nat →
  take_wanted want limit page out =
    let w := filter (wanted want) page in
    if (limit `max` 1 <=? length (out ++ w))%nat
    then inr (take (limit `max` 1) (out ++ w)) else inl (out ++ w).
Proof.
  revert out. induction page as [|k page IH]; intros out Hout.
  { cbn. rewrite app_nil_r. by destruct (Nat.leb_spec (limit `max` 1) (length out)); [lia|]. }
  cbn [take_wanted]. case_decide as Hk;
    [rewrite filter_cons_True by done|rewrite filter_cons_False by done; by apply IH].
  destruct (Nat.leb_spec limit (length (out ++ [k]))) as [Hle|Hlt].
  - rewrite length_app in Hle. simpl in Hle.
    assert (limit `max` 1 = length (out ++ [k]))%nat as HL by (rewrite length_app; simpl; lia).
    cbv zeta. rewrite (cons_middle k out (filter _ page)), (app_assoc out [k]), HL.
    by rewrite (proj2 (Nat.leb_le _ _)), take_app_length by (rewrite !length_app; lia).
  - rewrite IH by (rewrite length_app in *; simpl in *; lia).
    cbv zeta. by rewrite <-!app_assoc.
Qed.

Lemma SCAN_CHUNK_pos : (0 < SCAN_CHUNK)%nat.
Proof. unfold SCAN_CHUNK. lia. Qed.

#[local] Opaque SCAN_CHUNK.

Lemma scan_buckets_loop_spec fuel now st c want cur limit out :
  store_wf st →
  let rest := filter (in_bounds cur None None) (live_keys now st c) in
  (length rest < fuel)%nat → (length out < limit `max` 1)%nat →
  scan_buckets_loop fuel now st c want cur limit out
  = Some (take (limit `max` 1) (out ++ filter (wanted want) rest)).
Proof.
  intros Hwf. revert cur out. induction fuel as [|f IH]; intros cur out rest Hf Hout; [lia|].
  cbn [scan_buckets_loop]. rewrite scan_range_spec by done. fold rest.
  pose proof SCAN_CHUNK_pos as Hpos.
  destruct (take SCAN_CHUNK rest) as [|k0 pg] eqn:Hpage.
  { assert (rest = []) as ->.
    { destruct rest; [done|]. by destruct SCAN_CHUNK; [lia|]. }
    rewrite app_nil_r, take_ge by lia. done. }
  rewrite take_wanted_spec by done. cbv zeta. rewrite <-Hpage.
  assert (filter (wanted want) rest = filter (wanted want) (take SCAN_CHUNK rest)
          ++ filter (wanted want) (drop SCAN_CHUNK rest)) as ->
    by (by rewrite <-filter_app, take_drop).
  rewrite (app_assoc out).
  set (o' := out ++ filter (wanted want) (take SCAN_CHUNK rest)).
  destruct (Nat.leb_spec (limit `max` 1) (length o')) as [Hle|Hlt].
  { by rewrite take_app_le. }
  destruct (Nat.eqb_spec (length (take SCAN_CHUNK rest)) SCAN_CHUNK) as [Hfull|Hnf].
  - destruct (last (take SCAN_CHUNK rest)) as [k|] eqn:Hlast;
      [|apply last_None in Hlast; by rewrite Hlast in Hpage].
    pose proof (resume_after _ _ _ _ (live_keys_sorted now st c Hwf) Hlast) as Hres.
    fold rest in Hres. rewrite IH; [by rewrite Hres| |done].
    rewrite Hres, length_drop. rewrite length_take in Hfull. lia.
  - rewrite length_take in Hnf. rewrite drop_ge by lia.
    rewrite filter_nil, app_nil_r, take_ge by lia. done.
Qed.

(** A bucket scan returns, in ascending order, the first [limit] live keys
    after the cursor that fall in the requested buckets (at least one: the limit
    is tested after a key was pushed).  The paging loop always finishes. *)
Theorem scan_buckets_spec now st c bs after limit :
  store_wf st →
  scan_buckets now st c bs after limit
  = take (limit `max` 1) (filter (wanted (list_to_set bs))
      (filter (in_bounds after None None) (live_keys now st c))).
Proof.
  intros Hwf. unfold scan_buckets. rewrite scan_buckets_loop_spec; [done|done| |simpl; lia].
  apply Nat.lt_succ_r. etrans; [apply length_filter|]. unfold live_keys.
  by rewrite (Permutation_length (sort_strings_perm _)), length_map.
Qed.

(** *** Read-modify-write operations *)

Lemma no_expiry_time now now' st c k :
  store_wf st → expiry_of st c k = None → get_object now st c k = get_object now' st c k.
Proof. intros Hwf He. destruct (get_expiry st c k Hwf) as [raw Hraw]. by rewrite !Hraw, He. Qed.

Context `{!JsonValue V, !JsonLaws V}.

(** What one [put_object] does to the key it writes and to every other key. *)
Definition writes (st st' : St) (c k : string) (r : option V) : Prop :=
  store_wf st' ∧ expiry_of st' c k = None ∧ (∀ now, get_object now st' c k = r)
  ∧ ∀ c' k', (c, k) ≠ (c', k') →
      expiry_of st' c' k' = expiry_of st c' k'
      ∧ ∀ now, get_object now st' c' k' = get_object now st c' k'.

Lemma writes_frame st st' c k r now c' k' :
  writes st st' c k r → (c, k) ≠ (c', k') → get_object now st' c' k' = get_object now st c' k'.
Proof. intros (_ & _ & _ & Hf) Hne. by apply Hf. Qed.

Lemma put_writes st c k v :
  store_wf st → entry_ok c k v → writes st (put_object st c k v) c k (Some v).
Proof.
  intros Hwf Hok. repeat split; [by apply wf_put| | | |].
  - by rewrite expiry_put, decide_True.
  - intros. by apply get_put_eq.
  - by rewrite expiry_put, decide_False.
  - intros. by apply get_put_ne.
Qed.

Lemma delete_writes st c k : store_wf st → writes st (delete_object st c k) c k None.
Proof.
  intros Hwf. repeat split; [by apply wf_delete| | | |].
  - by rewrite expiry_delete, decide_True.
  - intros. by apply get_delete_eq.
  - by rewrite expiry_delete, decide_False.
  - intros. by apply get_delete_ne.
Qed.

Lemma writes_refl st c k r now :
  store_wf st → expiry_of st c k = None → get_object now st c k = r → writes st st c k r.
Proof. intros ?? <-. repeat split; [done..|]. intros. by apply no_expiry_time. Qed.

Lemma cas_spec now st c k expect nw :
  store_wf st → entry_ok c k nw →
  if option_value_eqb (get_object now st c k) expect
  then (cas now st c k expect nw).2 = true
       ∧ writes st (cas now st c k expect nw).1 c k (Some nw)
  else cas now st c k expect nw = (st, false).
Proof.
  intros Hwf Hok. unfold cas. destruct (option_value_eqb _ _); [|done].
  split; [done|]. by apply put_writes.
Qed.

(** Contenders for one key, all expecting the same value. *)
Fixpoint cas_all (st : St) (c k : string) (expect : option V) (news : list (Z * V))
    : St * list bool :=
  match news with
  | [] => (st, [])
  | (now, nw) :: news' =>
      let '(st1, r) := cas now st c k expect nw in
      let '(st2, rs) := cas_all st1 c k expect news' in (st2, r :: rs)
  end.

Lemma cas_all_lose st c k expect news :
  (∀ now, option_value_eqb (get_object now st c k) expect = false) →
  cas_all st c k expect news = (st, replicate (length news) false).
Proof.
  intros Hg. induction news as [|[now nw] news IH]; [done|].
  simpl. unfold cas. by rewrite Hg, IH.
Qed.

(** Compare-and-set arbitrates: when several callers race to replace the
    same expected value (or to create an absent key), the first one whose turn
    comes wins, every other one is refused, and the winner's value stays. *)
Theorem cas_one_winner st c k expect now nw news :
  store_wf st → entry_ok c k nw → option_value_eqb (Some nw) expect = false →
  option_value_eqb (get_object now st c k) expect = true →
  (cas_all st c k expect ((now, nw) :: news)).2 = true :: replicate (length news) false
  ∧ writes st (cas_all st c k expect ((now, nw) :: news)).1 c k (Some nw).
Proof.
  intros Hwf Hok Hne Heq. pose proof (cas_spec now st c k expect nw Hwf Hok) as Hs.
  rewrite Heq in Hs. simpl. destruct (cas now st c k expect nw) as [st1 r]. simpl in Hs.
  destruct Hs as [-> Hw]. rewrite cas_all_lose; [done|].
  intros now'. destruct Hw as (_ & _ & Hg & _). by rewrite Hg.
Qed.

Lemma incr_value now st c k delta cur :
  store_wf st → (∀ z, is_i64 z → entry_ok c k (value_from_i64 z)) →
  match get_object now st c k with None => Some 0 | Some v => value_int v end = Some cur →
  (incr now st c k delta).2 = Some (i64_wrap (cur + delta))
  ∧ writes st (incr now st c k delta).1 c k (Some (value_from_i64 (i64_wrap (cur + delta)))).
Proof.
  intros Hwf Hok Hcur. unfold incr. rewrite Hcur. split; [done|].
  apply put_writes; [done|]. apply Hok, i64_wrap_range.
Qed.

(** A sequence of increments, each with the clock reading of its moment. *)
Fixpoint incr_all (st : St) (c k : string) (ds : list (Z * Z)) : St * list (option Z) :=
  match ds with
  | [] => (st, [])
  | (now, d) :: ds' =>
      let '(st1, r) := incr now st c k d in
      let '(st2, rs) := incr_all st1 c k ds' in (st2, r :: rs)
  end.

(** The key holds the counter value [cur] (an absent key counts as 0). *)
Definition counter (st : St) (c k : string) (cur : Z) : Prop :=
  store_wf st ∧ expiry_of st c k = None ∧ is_i64 cur
  ∧ ∀ now, match get_object now st c k with None => Some 0 | Some v => value_int v end = Some cur.

Definition sum_deltas (ds : list (Z * Z)) : Z := foldr (λ '(_, d) acc, d + acc) 0 ds.

Lemma incr_counter now st c k d cur :
  (∀ z, is_i64 z → entry_ok c k (value_from_i64 z)) → counter st c k cur →
  (incr now st c k d).2 = Some (i64_wrap (cur + d))
  ∧ counter (incr now st c k d).1 c k (i64_wrap (cur + d))
  ∧ ∀ now' c' k', (c, k) ≠ (c', k') →
      get_object now' (incr now st c k d).1 c' k' = get_object now' st c' k'.
Proof.
  intros Hok (Hwf & He & Hi & Hg).
  destruct (incr_value now st c k d cur Hwf Hok (Hg now)) as [Hr Hw].
  pose proof Hw as (? & ? & Hg' & _). split; [done|]. split; [|intros; by eapply writes_frame].
  split; [done|]. split; [done|]. split; [apply i64_wrap_range|]. intros now'. rewrite Hg'. unfold value_int.
  by rewrite value_as_i64_from by apply i64_wrap_range.
Qed.

(** Counters: any sequence of increments of a key that holds an integer
    (or is absent) answers the [n]-th call with the starting value plus the
    first [n] deltas, wrapped to 64 bits, and leaves the total; no increment is
    lost and no other key changes. *)
Theorem incr_all_sums st c k ds cur :
  (∀ z, is_i64 z → entry_ok c k (value_from_i64 z)) → counter st c k cur →
  (∀ n, (n < length ds)%nat →
     (incr_all st c k ds).2 !! n = Some (Some (i64_wrap (cur + sum_deltas (take (S n) ds)))))
  ∧ counter (incr_all st c k ds).1 c k (i64_wrap (cur + sum_deltas ds))
  ∧ ∀ now' c' k', (c, k) ≠ (c', k') →
      get_object now' (incr_all st c k ds).1 c' k' = get_object now' st c' k'.
Proof.
  intros Hok. revert st cur. induction ds as [|[now d] ds IH]; intros st cur Hc.
  { simpl. rewrite Z.add_0_r, i64_wrap_small by apply Hc.
    split; [intros; lia|]. split; [|done]. done. }
  simpl. destruct (incr_counter now st c k d cur Hok Hc) as (Hr & Hc' & Hf).
  destruct (incr now st c k d) as [st1 r]. simpl in *.
  destruct (IH _ _ Hc') as (Hrs & Hc2 & Hf2).
  destruct (incr_all st1 c k ds) as [st2 rs]. simpl in *.
  rewrite i64_wrap_add_l, <-Z.add_assoc in Hc2. split; [|split; [done|]].
  - intros [|n] Hn; simpl.
    + by rewrite Hr, Z.add_0_r.
    + rewrite Hrs by lia. by rewrite i64_wrap_add_l, <-Z.add_assoc.
  - intros. by rewrite Hf2, Hf.
Qed.

(** *** Posting-list sets *)

Inductive set_op := SetAdd (m : string) | SetRemove (m : string).

Definition run_set_op (now : Z) (st : St) (c k : string) (o : set_op) : St * bool :=
  match o with
  | SetAdd m => set_add now st c k m
  | SetRemove m => set_remove now st c k m
  end.

Fixpoint run_set_ops (st : St) (c k : string) (ops : list (Z * set_op)) : St * list bool :=
  match ops with
  | [] => (st, [])
  | (now, o) :: ops' =>
      let '(st1, r) := run_set_op now st c k o in
      let '(st2, rs) := run_set_ops st1 c k ops' in (st2, r :: rs)
  end.

(** The abstract set object: what a caller is promised. *)
Definition spec_set_op (s : gset string) (o : set_op) : gset string * bool :=
  match o with
  | SetAdd m => ({[m]} ∪ s, bool_decide (m ∉ s))
  | SetRemove m => (s ∖ {[m]}, bool_decide (m ∈ s))
  end.

Fixpoint spec_set_ops (s : gset string) (ops : list (Z * set_op)) : gset string * list bool :=
  match ops with
  | [] => (s, [])
  | (_, o) :: ops' =>
      let '(s1, r) := spec_set_op s o in
      let '(s2, rs) := spec_set_ops s1 ops' in (s2, r :: rs)
  end.

(** The representation: a duplicate-free list of members, no expiry. *)
Definition set_rep (st : St) (c k : string) (s : gset string) : Prop :=
  store_wf st ∧ expiry_of st c k = None
  ∧ ∀ now, NoDup (set_members now st c k) ∧ list_to_set (set_members now st c k) = s.

Lemma writes_set_rep st st' c k l :
  writes st st' c k (Some (value_from_strings l)) → NoDup l →
  set_rep st' c k (list_to_set l).
Proof.
  intros (? & ? & Hg & _) Hl. repeat split; [done..| |]; unfold set_members; rewrite Hg; simpl;
    by rewrite value_to_from_strings.
Qed.

Lemma filter_length_ne (m : string) l :
  (length (filter (.≠ m) l) =? length l)%nat = bool_decide (m ∉ l).
Proof.
  induction l as [|x l IH]; [done|].
  rewrite filter_cons. destruct (decide (x ≠ m)) as [Hx|Hx]; cbn [length].
  - etrans; [apply IH|]. apply bool_decide_ext. set_solver.
  - assert (x = m) as -> by (by destruct (decide (x = m))).
    rewrite bool_decide_eq_false_2 by set_solver.
    apply Nat.eqb_neq. pose proof (length_filter (.≠ m) l). lia.
Qed.

Lemma set_op_refines now st c k o s :
  (∀ l, entry_ok c k (value_from_strings l)) → set_rep st c k s →
  (run_set_op now st c k o).2 = (spec_set_op s o).2
  ∧ set_rep (run_set_op now st c k o).1 c k (spec_set_op s o).1
  ∧ ∀ now' c' k', (c, k) ≠ (c', k') →
      get_object now' (run_set_op now st c k o).1 c' k' = get_object now' st c' k'.
Proof.
  intros Hok (Hwf & He & Hm). destruct (Hm now) as [Hnd Hs].
  set (arr := set_members now st c k) in *.
  assert (Hrep : set_rep st c k s) by done.
  destruct o as [m|m]; simpl.
  - unfold set_add. fold arr. case_decide as Hin.
    + rewrite bool_decide_eq_false_2 by set_solver.
      replace ({[m]} ∪ s) with s by set_solver. done.
    + rewrite bool_decide_eq_true_2 by set_solver.
      pose proof (put_writes st c k _ Hwf (Hok (arr ++ [m]))) as Hw.
      split; [done|split]; [|intros; by eapply writes_frame].
      replace ({[m]} ∪ s) with (list_to_set (arr ++ [m]) : gset string) by set_solver.
      eapply writes_set_rep; [done|]. apply NoDup_app. split; [done|].
      split; [set_solver|]. apply NoDup_singleton.
  - unfold set_remove. fold arr. rewrite filter_length_ne.
    case_bool_decide as Hin.
    + rewrite bool_decide_eq_false_2 by set_solver.
      replace (s ∖ {[m]}) with s by set_solver. done.
    + rewrite bool_decide_eq_true_2 by (destruct (decide (m ∈ arr)); set_solver).
      assert (Hs' : list_to_set (filter (.≠ m) arr) = s ∖ {[m]}).
      { rewrite <-Hs. apply set_eq. intros x.
        rewrite elem_of_difference, !elem_of_list_to_set, list_elem_of_filter.
        rewrite elem_of_singleton. tauto. }
      split; [done|]. case_decide as Hnil.
      * pose proof (delete_writes st c k Hwf) as Hw. split; [|intros; by eapply writes_frame].
        destruct Hw as (? & ? & Hg & _). rewrite Hnil in Hs'. rewrite <-Hs'.
        repeat split; [done..| |]; unfold set_members; rewrite Hg; simpl; [constructor|done].
      * pose proof (put_writes st c k _ Hwf (Hok (filter (.≠ m) arr))) as Hw.
        split; [|intros; by eapply writes_frame]. rewrite <-Hs'. eapply writes_set_rep; [done|].
        by apply NoDup_filter.
Qed.

(** A posting list is a set: any sequence of [set_add] and [set_remove] on
    a key without expiry answers each call, and leaves the members, exactly as
    the finite-set object does; the stored list never holds a duplicate and no
    other key changes. *)
Theorem set_ops_refine_set st c k ops s :
  (∀ l, entry_ok c k (value_from_strings l)) → set_rep st c k s →
  (run_set_ops st c k ops).2 = (spec_set_ops s ops).2
  ∧ set_rep (run_set_ops st c k ops).1 c k (spec_set_ops s ops).1
  ∧ ∀ now' c' k', (c, k) ≠ (c', k') →
      get_object now' (run_set_ops st c k ops).1 c' k' = get_object now' st c' k'.
Proof.
  intros Hok. revert st s. induction ops as [|[now o] ops IH]; intros st s Hrep; [done|].
  simpl. destruct (set_op_refines now st c k o s Hok Hrep) as (Hr & Hrep' & Hf).
  destruct (run_set_op now st c k o) as [st1 r], (spec_set_op s o) as [s1 r']. simpl in *.
  destruct (IH st1 s1 Hrep') as (Hrs & Hrep2 & Hf2).
  destruct (run_set_ops st1 c k ops), (spec_set_ops s1 ops). simpl in *.
  split; [congruence|]. split; [done|]. intros. by rewrite Hf2, Hf.
Qed.

End laws.

#[export] Hint Resolve wf_put wf_put_at wf_delete wf_clear wf_sweep get_entry_ok : stplr.
