(* ===== verification/MemoryStore.v ===== *)
(** * The in-memory store ([src/src/store.rs], [MemoryStore])

    Both roles of the reference adapter: the tabular [DataSource] and the
    [IndexStore].  The three hash maps of the struct are finite maps; iteration
    goes through [hash_iter], whose order is unspecified.  The file ends with
    the instances that discharge [IndexStoreLaws]. *)

From S2P Require Import Prelude Machine Text Store.

Local Open Scope Z_scope.

Module MemoryStore.

Section memory_store.
Context {V : Type} `{!HashIter}.

Record Row := { row_id : string; doc : V }.

Record t := mk {
  tables : gmap string (list Row);
  objects : gmap string (gmap string V);
  expiry : gmap string (gmap string Z);
}.

Implicit Types (st : t) (coll id : string).

Definition is_expired (now : Z) st coll id : bool :=
  match expiry st !! coll ≫= (.!! id) with
  | Some exp => exp <=? now
  | None => false
  end.

(** [if let Some(m) = map.get_mut(coll) { m.remove(id); }]. *)
Definition remove_in {A} (m : gmap string (gmap string A)) coll id : gmap string (gmap string A) :=
  match m !! coll with
  | Some inner => <[coll := delete id inner]> m
  | None => m
  end.

(** [map.entry(coll).or_default().insert(id, x)]. *)
Definition insert_in {A} (m : gmap string (gmap string A)) coll id (x : A)
    : gmap string (gmap string A) :=
  <[coll := <[id := x]> (default ∅ (m !! coll))]> m.

Definition clear_expiry st coll id : t :=
  mk (tables st) (objects st) (remove_in (expiry st) coll id).

Definition new : t := mk ∅ ∅ ∅.

Definition add_row st (table rid : string) (d : V) : t :=
  mk (<[table := default [] (tables st !! table) ++ [{| row_id := rid; doc := d |}]]> (tables st))
     (objects st) (expiry st).

(** ** DataSource *)

Definition list_tables st : list string := map fst (hash_iter (tables st)).

Definition scan_table st (table : string) : list Row := default [] (tables st !! table).

Definition get_row st (table rid : string) : option V :=
  rows ← tables st !! table;
  r ← List.find (λ r, String.eqb (row_id r) rid) rows;
  Some (doc r).

(** ** IndexStore *)

Definition put_object st coll id (obj : V) : t :=
  let st := clear_expiry st coll id in
  mk (tables st) (insert_in (objects st) coll id obj) (expiry st).

Definition get_object (now : Z) st coll id : option V :=
  if is_expired now st coll id then None else objects st !! coll ≫= (.!! id).

Definition scan_entries (now : Z) st coll : list (string * V) :=
  match objects st !! coll with
  | Some m => filter (λ '(id, _), is_expired now st coll id = false) (hash_iter m)
  | None => []
  end.

Definition scan_objects (now : Z) st coll : list V :=
  match objects st !! coll with
  | Some m => map snd (filter (λ '(id, _), is_expired now st coll id = false) (hash_iter m))
  | None => []
  end.

Definition clear_collection st coll : t :=
  mk (tables st) (delete coll (objects st)) (delete coll (expiry st)).

Definition delete_object st coll id : t :=
  clear_expiry (mk (tables st) (remove_in (objects st) coll id) (expiry st)) coll id.

Definition put_object_at st coll id (obj : V) (expire_at_ms : Z) : t :=
  mk (tables st) (insert_in (objects st) coll id obj) (insert_in (expiry st) coll id expire_at_ms).

Definition expiry_of st coll id : option Z := expiry st !! coll ≫= (.!! id).

(** The expired (collection, id) pairs, in iteration order. *)
Definition dead st (now_ms : Z) : list (string * string) :=
  hash_iter (expiry st) ≫= λ '(coll, m),
    map (λ '(id, _), (coll, id)) (filter (λ '(_, exp), (exp <=? now_ms) = true) (hash_iter m)).

Definition reap st '(coll, id) : t :=
  mk (tables st) (remove_in (objects st) coll id) (remove_in (expiry st) coll id).

Definition sweep_expired st (now_ms : Z) : t * nat :=
  let d := dead st now_ms in (foldl reap st d, length d).

End memory_store.

Arguments Row : clear implicits.
Arguments t : clear implicits.

#[global] Instance memory_index_store {V} `{!HashIter} : IndexStore V (t V) := {
  Store.put_object := put_object;
  Store.put_batch := put_batch_default put_object;
  Store.get_object := get_object;
  Store.scan_objects := scan_objects;
  Store.scan_entries := scan_entries;
  Store.scan_range now st c a p e n := scan_range_default (scan_entries now st c) a p e n;
  Store.clear_collection := clear_collection;
  Store.delete_object := delete_object;
  Store.put_object_at := put_object_at;
  Store.expiry_of := expiry_of;
  Store.sweep_expired := sweep_expired;
}.

(** ** The nested maps *)

Section nested.
Context {A : Type}.
Implicit Types (m : gmap string (gmap string A)).

Lemma lookup_insert_in m c i x c' i' :
  insert_in m c i x !! c' ≫= (.!! i')
  = if decide ((c, i) = (c', i')) then Some x else m !! c' ≫= (.!! i').
Proof.
  unfold insert_in. destruct (decide (c = c')) as [->|Hc].
  - rewrite lookup_insert_eq. simpl. destruct (decide (i = i')) as [->|Hi].
    + by rewrite lookup_insert_eq, decide_True.
    + rewrite lookup_insert_ne, decide_False by congruence. by destruct (m !! c').
  - by rewrite lookup_insert_ne, decide_False by congruence.
Qed.

Lemma lookup_remove_in m c i c' i' :
  remove_in m c i !! c' ≫= (.!! i')
  = if decide ((c, i) = (c', i')) then None else m !! c' ≫= (.!! i').
Proof.
  unfold remove_in. destruct (m !! c) as [inner|] eqn:Hm.
  - destruct (decide (c = c')) as [->|Hc].
    + rewrite lookup_insert_eq, Hm. simpl. destruct (decide (i = i')) as [->|Hi].
      * by rewrite lookup_delete_eq, decide_True.
      * by rewrite lookup_delete_ne, decide_False by congruence.
    + by rewrite lookup_insert_ne, decide_False by congruence.
  - case_decide as H; [|done]. simplify_eq. by rewrite Hm.
Qed.

Lemma lookup_delete_coll m c c' i :
  delete c m !! c' ≫= (.!! i) = if decide (c = c') then None else m !! c' ≫= (.!! i).
Proof.
  case_decide as Hc; [subst c'; by rewrite lookup_delete_eq|].
  by rewrite lookup_delete_ne.
Qed.

End nested.

(** ** Reads and expiry after each write *)

(** Reduce an operation to lookups in the nested maps. *)
Ltac cells :=
  unfold put_object, put_object_at, delete_object, clear_collection, clear_expiry,
    expiry_of in *; cbn [tables objects expiry] in *;
  rewrite ?lookup_insert_in, ?lookup_remove_in, ?lookup_delete_coll in *.

Section laws.
Context {V : Type} `{!HashIter}.
Implicit Types (st : t V) (c i : string).

(** A read is a function of the two cells the key has. *)
Lemma get_object_cells now st c i :
  get_object now st c i
  = match expiry_of st c i with
    | Some e => if e <=? now then None else objects st !! c ≫= (.!! i)
    | None => objects st !! c ≫= (.!! i)
    end.
Proof.
  unfold get_object, is_expired, expiry_of. by destruct (expiry st !! c ≫= _).
Qed.

Lemma foldl_reap l st c i :
  objects (foldl reap st l) !! c ≫= (.!! i)
  = (if decide ((c, i) ∈ l) then None else objects st !! c ≫= (.!! i))
  ∧ expiry_of (foldl reap st l) c i
    = if decide ((c, i) ∈ l) then None else expiry_of st c i.
Proof.
  revert st. induction l as [|[c' i'] l IH]; intros st.
  { by rewrite !decide_False by apply not_elem_of_nil. }
  cbn [foldl]. destruct (IH (reap st (c', i'))) as [-> ->].
  unfold reap, expiry_of. cbn [objects expiry]. rewrite !lookup_remove_in.
  destruct (decide ((c, i) ∈ l)) as [Hl|Hl].
  { by rewrite !decide_True by (by right). }
  destruct (decide ((c', i') = (c, i))) as [He|He].
  - by rewrite !decide_True by (rewrite He; left).
  - by rewrite !decide_False by (rewrite elem_of_cons; intros [?|?]; congruence).
Qed.

Lemma elem_of_dead st now_ms c i :
  (c, i) ∈ dead st now_ms ↔ ∃ e, expiry_of st c i = Some e ∧ e ≤ now_ms.
Proof.
  unfold dead, expiry_of. rewrite list_elem_of_bind. split.
  - intros ([c' m] & Hin & Hc'). apply list_elem_of_fmap in Hin as ([i' e] & Heq & Hin).
    simplify_eq. apply list_elem_of_filter in Hin as [He%Z.leb_le Hin].
    apply elem_of_hash_iter in Hin, Hc'. exists e. by rewrite Hc'.
  - intros (e & He & Hle). destruct (expiry st !! c) as [m|] eqn:Hm; [|done]. simpl in He.
    exists (c, m). split; [|by apply elem_of_hash_iter].
    apply list_elem_of_fmap. exists (i, e). split; [done|].
    apply list_elem_of_filter. split; [by apply Z.leb_le|]. by apply elem_of_hash_iter.
Qed.

Lemma get_sweep_cells now st tm c i :
  tm ≤ now → get_object now (sweep_expired st tm).1 c i = get_object now st c i.
Proof.
  intros Hle. rewrite !get_object_cells. unfold sweep_expired. cbn [fst].
  destruct (foldl_reap (dead st tm) st c i) as [-> ->].
  destruct (decide ((c, i) ∈ dead st tm)) as [Hd|Hd]; [|done].
  apply elem_of_dead in Hd as (e & -> & ?). by destruct (Z.leb_spec e now); [|lia].
Qed.

Lemma scan_entries_get now st c k v :
  (k, v) ∈ scan_entries now st c ↔ get_object now st c k = Some v.
Proof.
  unfold scan_entries, get_object. destruct (objects st !! c) as [m|].
  - rewrite list_elem_of_filter, elem_of_hash_iter. simpl.
    destruct (is_expired now st c k); naive_solver.
  - rewrite elem_of_nil. simpl. by destruct (is_expired now st c k).
Qed.

Lemma scan_entries_NoDup now st c : NoDup (map fst (scan_entries now st c)).
Proof.
  unfold scan_entries. destruct (objects st !! c) as [m|]; [|constructor].
  by apply NoDup_fst_filter, NoDup_hash_iter_keys.
Qed.

(** *** Representation invariant: every expiry record belongs to an object *)

Definition wf st : Prop :=
  ∀ c i e, expiry_of st c i = Some e → is_Some (objects st !! c ≫= (.!! i)) ∧ is_u64 e.

Lemma wf_new : wf new.
Proof. intros c i e. unfold expiry_of. simpl. by rewrite lookup_empty. Qed.

Lemma put_object_wf st c i v : wf st → wf (put_object st c i v).
Proof.
  intros Hwf c' i' e. cells. case_decide; [done|]. intros He. by apply Hwf in He.
Qed.

Lemma put_object_at_wf st c i v e : wf st → is_u64 e → wf (put_object_at st c i v e).
Proof.
  intros Hwf Hu c' i' e'. cells. case_decide.
  - intros [= <-]. split; [by eexists|done].
  - intros He. by apply Hwf in He.
Qed.

Lemma delete_object_wf st c i : wf st → wf (delete_object st c i).
Proof. intros Hwf c' i' e. cells. case_decide; [done|]. intros He. by apply Hwf in He. Qed.

Lemma clear_collection_wf st c : wf st → wf (clear_collection st c).
Proof. intros Hwf c' i e. cells. case_decide; [done|]. intros He. by apply Hwf in He. Qed.

Lemma sweep_expired_wf st tm : wf st → wf (sweep_expired st tm).1.
Proof.
  intros Hwf c i e. unfold sweep_expired. cbn [fst].
  destruct (foldl_reap (dead st tm) st c i) as [-> ->].
  destruct (decide _); [done|]. apply Hwf.
Qed.

Lemma dead_NoDup st tm : NoDup (dead st tm).
Proof.
  unfold dead. pose proof (NoDup_hash_iter_keys (expiry st)) as Hnd.
  induction (hash_iter (expiry st)) as [|[c m] l IH]; [constructor|].
  simpl in *. apply NoDup_cons in Hnd as [Hc Hnd]. apply NoDup_app. split; [|split].
  - apply (NoDup_fmap_1 snd). rewrite <-list_fmap_compose.
    erewrite list_fmap_ext; [apply NoDup_fst_filter, (NoDup_hash_iter_keys m)|].
    by intros ? [].
  - intros [c' i'] Hin (x & Hx & Hl)%list_elem_of_bind. destruct x as [c2 m2].
    apply list_elem_of_fmap in Hin as ([? ?] & ? & _), Hx as ([? ?] & ? & _). simplify_eq.
    apply Hc, list_elem_of_fmap. by eexists (_, m2).
  - by apply IH.
Qed.

(** The sweep reclaims exactly the entries that have expired: each one had
    an object, its object and its expiry record are gone afterwards, every other
    entry is untouched, the returned count is their number, and no reader can
    tell (reads at any later time answer the same before and after). *)
Theorem sweep_reclaims_expired st tm :
  wf st →
  let st' := (sweep_expired st tm).1 in
  (∃ d, NoDup d ∧ (sweep_expired st tm).2 = length d
     ∧ ∀ c i, (c, i) ∈ d ↔ is_Some (objects st !! c ≫= (.!! i))
                           ∧ ∃ e, expiry_of st c i = Some e ∧ e ≤ tm)
  ∧ (∀ c i, (∃ e, expiry_of st c i = Some e ∧ e ≤ tm) →
       objects st' !! c ≫= (.!! i) = None ∧ expiry_of st' c i = None)
  ∧ (∀ c i, (∀ e, expiry_of st c i = Some e → tm < e) →
       objects st' !! c ≫= (.!! i) = objects st !! c ≫= (.!! i)
       ∧ expiry_of st' c i = expiry_of st c i)
  ∧ (∀ now c i, tm ≤ now → get_object now st' c i = get_object now st c i)
  ∧ wf st'.
Proof.
  intros Hwf st'. split; [|split; [|split; [|split]]].
  - exists (dead st tm). split; [apply dead_NoDup|]. split; [done|].
    intros c i. rewrite elem_of_dead. split; [|tauto].
    intros (e & He & Hle). split; [by eapply Hwf|]. by exists e.
  - intros c i Hd%elem_of_dead. unfold st', sweep_expired. cbn [fst].
    destruct (foldl_reap (dead st tm) st c i) as [-> ->]. by rewrite !decide_True.
  - intros c i Hd. unfold st', sweep_expired. cbn [fst].
    destruct (foldl_reap (dead st tm) st c i) as [-> ->].
    rewrite !decide_False; [done| |]; rewrite elem_of_dead; intros (e & He & Hle);
      apply Hd in He; lia.
  - intros. by apply get_sweep_cells.
  - by apply sweep_expired_wf.
Qed.

End laws.

#[global] Instance memory_store_laws {V} `{!HashIter} : IndexStoreLaws V (t V).
Proof.
  refine {| store_wf := wf; entry_ok := λ _ _ _, True |}; simpl; intros.
  - by apply put_object_wf.
  - by apply put_object_at_wf.
  - by apply delete_object_wf.
  - by apply clear_collection_wf.
  - by apply sweep_expired_wf.
  - done.
  - rewrite !get_object_cells. cells. by case_decide.
  - rewrite !get_object_cells. cells. case_decide; [|done]. done.
  - rewrite !get_object_cells. cells. by case_decide.
  - rewrite !get_object_cells. cells. by case_decide.
  - by apply get_sweep_cells.
  - done.
  - cells. by case_decide.
  - cells. by case_decide.
  - cells. by case_decide.
  - exists (objects st !! c ≫= (.!! i)). intros now. apply get_object_cells.
  - apply scan_entries_NoDup.
  - apply scan_entries_get.
  - unfold scan_objects, scan_entries. by destruct (objects st !! c).
  - done.
Defined.

(** ** The tabular role *)

Section data_source.
Context {V : Type} `{!HashIter}.
Implicit Types (st : t V).

(** Appended rows are read back: a table holds its rows in insertion order,
    and a row is found by the first row with its id. *)
Lemma scan_table_add_row st tb rid d tb' :
  scan_table (add_row st tb rid d) tb'
  = if decide (tb = tb') then scan_table st tb' ++ [{| row_id := rid; doc := d |}]
    else scan_table st tb'.
Proof.
  unfold scan_table, add_row. simpl. case_decide as Htb.
  - subst. by rewrite lookup_insert_eq.
  - by rewrite lookup_insert_ne.
Qed.

Lemma get_row_add_row st tb rid d :
  get_row (add_row st tb rid d) tb rid
  = match get_row st tb rid with Some d' => Some d' | None => Some d end.
Proof.
  unfold get_row, add_row. simpl. rewrite lookup_insert_eq. simpl.
  destruct (tables st !! tb) as [rows|]; simpl; [|by rewrite String.eqb_refl].
  induction rows as [|r rows IH]; simpl; [by rewrite String.eqb_refl|].
  by destruct (String.eqb (row_id r) rid).
Qed.

End data_source.

End MemoryStore.
