(* ===== verification/Json.v ===== *)
(** * Concrete instances of the parameters

    The development is parametric in [serde_json::Value] and in the iteration
    order of hash maps.  This file instantiates both with concrete data: a JSON
    tree, and the enumeration order of finite maps.  The instances show that the
    assumed laws are satisfiable and let the theorems be applied to concrete
    stores. *)

From S2P Require Import Prelude Machine Text Store.

Local Open Scope Z_scope.

Inductive json :=
  | JNull
  | JBool (b : bool)
  | JInt (z : Z)
  | JStr (s : string)
  | JArr (l : list json)
  | JObj (fields : list (string * json)).

(** Structural equality of trees. *)
Fixpoint json_eqb (a b : json) : bool :=
  match a, b with
  | JNull, JNull => true
  | JBool x, JBool y => Bool.eqb x y
  | JInt x, JInt y => x =? y
  | JStr x, JStr y => String.eqb x y
  | JArr x, JArr y =>
      (fix go (x y : list json) : bool :=
         match x, y with
         | [], [] => true
         | u :: x', w :: y' => json_eqb u w && go x' y'
         | _, _ => false
         end) x y
  | JObj x, JObj y =>
      (fix go (x y : list (string * json)) : bool :=
         match x, y with
         | [], [] => true
         | (f, u) :: x', (g, w) :: y' => String.eqb f g && json_eqb u w && go x' y'
         | _, _ => false
         end) x y
  | _, _ => false
  end.

Definition json_str (v : json) : option string :=
  match v with JStr s => Some s | _ => None end.

Definition json_as_i64 (v : json) : option Z :=
  match v with JInt z => if decide (is_i64 z) then Some z else None | _ => None end.

#[export] Instance json_value : JsonValue json := {
  value_eqb := json_eqb;
  value_as_i64 := json_as_i64;
  value_as_str := json_str;
  value_from_i64 := JInt;
  value_from_str := JStr;
  value_to_strings v := match v with JArr l => mapM json_str l | _ => None end;
  value_from_strings l := JArr (map JStr l);
}.

Fixpoint json_eqb_refl (v : json) : json_eqb v v = true.
Proof.
  destruct v as [|b|z|s|l|l]; simpl; [done|by destruct b|apply Z.eqb_refl|apply String.eqb_refl| |].
  - induction l as [|u l IH]; [done|]. by rewrite json_eqb_refl, IH.
  - induction l as [|[f u] l IH]; [done|]. by rewrite String.eqb_refl, json_eqb_refl, IH.
Qed.

#[export] Instance json_laws : JsonLaws json.
Proof.
  split; simpl.
  - apply json_eqb_refl.
  - intros z Hz. unfold json_as_i64. by rewrite decide_True.
  - intros v w. destruct v; simpl; try done. case_decide; [|done]. by intros [= <-].
  - done.
  - done.
  - intros l. induction l as [|s l IH]; [done|]. simpl. by rewrite IH.
Qed.

(** Trees can be told apart and numbered. *)
Fixpoint json_to_tree (v : json) : gen_tree (Z + string) :=
  match v with
  | JNull => GenNode 0 []
  | JBool b => GenNode (if b then 2 else 1) []
  | JInt z => GenLeaf (inl z)
  | JStr s => GenLeaf (inr s)
  | JArr l => GenNode 3 (map json_to_tree l)
  | JObj fs => GenNode 4 (map (λ '(f, u), GenNode 0 [GenLeaf (inr f); json_to_tree u]) fs)
  end.

Fixpoint json_of_tree (t : gen_tree (Z + string)) : json :=
  match t with
  | GenLeaf (inl z) => JInt z
  | GenLeaf (inr s) => JStr s
  | GenNode 0 _ => JNull
  | GenNode 1 _ => JBool false
  | GenNode 2 _ => JBool true
  | GenNode 3 l => JArr (map json_of_tree l)
  | GenNode _ l =>
      JObj (map (λ p, match p with
                      | GenNode _ [GenLeaf (inr f); u] => (f, json_of_tree u)
                      | _ => (EmptyString, JNull)
                      end) l)
  end.

Fixpoint json_of_to_tree (v : json) : json_of_tree (json_to_tree v) = v.
Proof.
  destruct v as [|[]|z|s|l|l]; simpl; [done..| |].
  - f_equal. induction l as [|u l IH]; [done|]. simpl. by rewrite json_of_to_tree, IH.
  - f_equal. induction l as [|[f u] l IH]; [done|]. simpl. by rewrite json_of_to_tree, IH.
Qed.

#[export] Instance json_eq_dec : EqDecision json.
Proof.
  refine (λ v w, cast_if (decide (json_to_tree v = json_to_tree w))); [|congruence].
  by rewrite <-(json_of_to_tree v), <-(json_of_to_tree w), e.
Defined.

#[export] Instance json_countable : Countable json := inj_countable' json_to_tree json_of_tree json_of_to_tree.

#[export] Instance canonical_iter : HashIter := {
  hash_iter A m := map_to_list m;
  hash_iter_perm A m := Permutation_refl _;
}.
