(* ===== verification/Lease.v ===== *)
(** * TTL leases ([src/src/lease.rs])

    The pure lease transition [evaluate] and what it gives to a sequence of
    acquire attempts served one after the other by the shard that owns the
    lease key: fencing tokens never go back, a token names one holder, and a
    lease is not handed to somebody else before it expires. *)

From S2P Require Import Prelude Machine Text.

Local Open Scope Z_scope.

Module Lease.

Definition LEASE_COLL : string := "__lease".
Definition LEADER_KEY : string := "coordinator".

Record t := mk {
  holder : string;
  expires_ms : Z;
  token : Z;
}.

Record LeaseOutcome := {
  granted : bool;
  lease : t;
}.

#[export] Instance lease_eq_dec : EqDecision t.
Proof. solve_decision. Defined.

Definition evaluate (current : option t) (who : string) (ttl_ms now_ms : Z) : LeaseOutcome :=
  match current with
  | Some l =>
      if String.eqb (holder l) who && (now_ms <? expires_ms l) then
        {| granted := true; lease := mk who (u64_add now_ms ttl_ms) (token l) |}
      else if now_ms <? expires_ms l then
        {| granted := false; lease := l |}
      else
        {| granted := true; lease := mk who (u64_add now_ms ttl_ms) (u64_add (token l) 1) |}
  | None => {| granted := true; lease := mk who (u64_add now_ms ttl_ms) 1 |}
  end.

(** ** Sequences of attempts *)

(** An attempt as the owning shard sees it: who asks, for how long, and the
    shard's clock when it is served. *)
Record request := req { who : string; ttl : Z; at_ms : Z }.

Definition attempt (cur : option t) (r : request) : LeaseOutcome :=
  evaluate cur (who r) (ttl r) (at_ms r).

(** The record kept after an attempt: written only when granted. *)
Definition kept (cur : option t) (o : LeaseOutcome) : option t :=
  if granted o then Some (lease o) else cur.

Fixpoint attempts (cur : option t) (rs : list request) : list LeaseOutcome :=
  match rs with
  | [] => []
  | r :: rs' => let o := attempt cur r in o :: attempts (kept cur o) rs'
  end.

(** The shard's clock does not run backwards over the sequence. *)
Definition clock_ordered (rs : list request) : Prop :=
  StronglySorted (λ a b, at_ms a ≤ at_ms b) rs.

(** The current term, and the terms left before the 64-bit token wraps. *)
Definition term (cur : option t) : Z := match cur with Some l => token l | None => 0 end.

Definition tokens_left (cur : option t) (rs : list request) : Prop :=
  0 ≤ term cur ∧ term cur + Z.of_nat (length rs) < 2 ^ 64.

Lemma attempt_denied l r :
  granted (attempt (Some l) r) = false → lease (attempt (Some l) r) = l.
Proof. unfold attempt, evaluate. crush. Qed.

Lemma attempt_granted_holder cur r :
  granted (attempt cur r) = true → holder (lease (attempt cur r)) = who r.
Proof. unfold attempt, evaluate. destruct cur; crush. Qed.

(** A lease changes hands only once it has expired. *)
Lemma attempt_takeover l r :
  granted (attempt (Some l) r) = true → who r ≠ holder l → expires_ms l ≤ at_ms r.
Proof.
  unfold attempt, evaluate. intros Hg Hne.
  destruct (String.eqb_spec (holder l) (who r)); [congruence|]. simpl in Hg.
  by destruct (Z.ltb_spec (at_ms r) (expires_ms l)).
Qed.

(** Every answer carries the authoritative lease. *)
Lemma kept_attempt cur r : kept cur (attempt cur r) = Some (lease (attempt cur r)).
Proof.
  unfold kept. destruct (granted (attempt cur r)) eqn:Hg; [done|].
  destruct cur as [l|]; [by rewrite attempt_denied|]. done.
Qed.

(** The token stays with its holder and grows by one when the term changes. *)
Lemma attempt_token l r :
  0 ≤ token l → token l + 1 < 2 ^ 64 →
  (token (lease (attempt (Some l) r)) = token l ∧ holder (lease (attempt (Some l) r)) = holder l)
  ∨ (token (lease (attempt (Some l) r)) = token l + 1
     ∧ holder (lease (attempt (Some l) r)) = who r ∧ expires_ms l ≤ at_ms r).
Proof.
  intros H0 Hlt. unfold attempt, evaluate.
  destruct (String.eqb_spec (holder l) (who r)) as [<-|Hne];
    destruct (Z.ltb_spec (at_ms r) (expires_ms l)); simpl; [by left| |by left|].
  all: right; unfold u64_add, u64_modulus; rewrite Z.mod_small by lia; done.
Qed.

Lemma attempt_term cur r rs :
  tokens_left cur (r :: rs) → tokens_left (Some (lease (attempt cur r))) rs.
Proof.
  unfold tokens_left. cbn [length term]. intros [H0 Hlt]. destruct cur as [l|]; [|simpl; lia].
  cbn [term] in *. destruct (attempt_token l r) as [[-> _]|[-> _]]; lia.
Qed.

Lemma attempts_tokens l rs i o :
  tokens_left (Some l) rs → attempts (Some l) rs !! i = Some o →
  token l ≤ token (lease o) ∧ (token (lease o) = token l → holder (lease o) = holder l).
Proof.
  revert l i. induction rs as [|r rs IH]; intros l i Ht; [done|].
  pose proof (attempt_term _ _ _ Ht) as Ht'. destruct Ht as [H0 Hlt].
  cbn [attempts length term] in *. rewrite kept_attempt. set (a := attempt (Some l) r) in *.
  assert (token l + 1 < 2 ^ 64) as H1 by lia.
  pose proof (attempt_token l r H0 H1) as Ha. fold a in Ha.
  destruct i as [|i]; simpl.
  - intros [= <-]. destruct Ha as [[-> ->]|(-> & ? & ?)]; [done|lia].
  - intros Ho. apply IH in Ho; [|done]. destruct Ho as [Ho Hh].
    destruct Ha as [[Ha Hah]|(Ha & _)]; [rewrite Ha, Hah in *; split; [lia|done]|lia].
Qed.

(** C12. Fencing: whatever coordinators ask for, whenever, the authoritative
    tokens reported by the owning shard never decrease along the sequence, and
    two answers with the same token name the same holder, so a token identifies
    one term of one leader. *)
Theorem fencing_tokens cur rs i j oi oj :
  tokens_left cur rs → (i < j)%nat →
  attempts cur rs !! i = Some oi → attempts cur rs !! j = Some oj →
  token (lease oi) ≤ token (lease oj)
  ∧ (token (lease oi) = token (lease oj) → holder (lease oi) = holder (lease oj)).
Proof.
  revert cur i j. induction rs as [|r rs IH]; intros cur i j Ht Hij; [done|].
  pose proof (attempt_term _ _ _ Ht) as Ht'.
  cbn [attempts length] in *. rewrite kept_attempt. set (a := attempt cur r) in *.
  destruct i as [|i], j as [|j]; simpl; [lia| |lia|].
  - intros [= <-] Hj. apply attempts_tokens in Hj as [? Hh]; [|done].
    split; [lia|]. intros E. symmetry. by apply Hh.
  - intros Hi Hj. by apply (IH (Some (lease a)) i j); [|lia|..].
Qed.

Lemma attempts_exclusive l rs j r o :
  clock_ordered rs → rs !! j = Some r → attempts (Some l) rs !! j = Some o →
  granted o = true → who r ≠ holder l →
  (∀ k ok rk, (k < j)%nat → rs !! k = Some rk → attempts (Some l) rs !! k = Some ok →
     granted ok = true → who rk ≠ holder l) →
  expires_ms l ≤ at_ms r.
Proof.
  intros Hclk. revert j. induction Hclk as [|r0 rs Hclk IH Hr0]; intros j Hr Ho Hg Hne Hnone.
  { done. }
  cbn [attempts] in *. destruct (granted (attempt (Some l) r0)) eqn:Hg0.
  - assert (expires_ms l ≤ at_ms r0) as H0.
    { apply attempt_takeover; [done|]. destruct j as [|j]; [by simplify_eq/=|].
      by apply (Hnone 0%nat (attempt (Some l) r0) r0); [lia|..]. }
    destruct j as [|j]; [by simplify_eq/=|]. simpl in Hr.
    apply list_elem_of_lookup_2 in Hr. eapply Forall_forall in Hr; [|exact Hr0].
    simpl in Hr. lia.
  - unfold kept in Ho, Hnone. rewrite Hg0 in Ho, Hnone.
    destruct j as [|j]; [simplify_eq/=; congruence|].
    apply (IH j); [done..|]. intros k ok rk Hk Hrk Hok. by apply (Hnone (S k)); [lia|..].
Qed.

(** C11. Mutual exclusion: once an attempt was granted, the lease is not granted
    to anybody else before the expiry that was promised, unless the same holder
    was granted a new lease in between (whose expiry then counts).  The clock is
    the owning shard's, assumed not to run backwards. *)
Theorem lease_mutual_exclusion cur rs i j ri rj oi oj :
  clock_ordered rs → (i < j)%nat →
  rs !! i = Some ri → attempts cur rs !! i = Some oi → granted oi = true →
  rs !! j = Some rj → attempts cur rs !! j = Some oj → granted oj = true →
  who rj ≠ who ri →
  (∀ k rk ok, (i < k < j)%nat → rs !! k = Some rk → attempts cur rs !! k = Some ok →
     granted ok = true → who rk ≠ who ri) →
  expires_ms (lease oi) ≤ at_ms rj.
Proof.
  intros Hclk. revert cur i j. induction Hclk as [|r0 rs Hclk IH Hr0];
    intros cur i j Hij Hri Hoi Hgi Hrj Hoj Hgj Hne Hnone; [done|].
  cbn [attempts] in *. destruct i as [|i], j as [|j]; [lia| |lia|].
  - simpl in *. simplify_eq. rewrite kept_attempt in *.
    rewrite <-(attempt_granted_holder cur ri Hgi) in *.
    eapply attempts_exclusive; [done..|]. intros k ok rk Hk Hrk Hok.
    by apply (Hnone (S k)); [lia|..].
  - simpl in *. eapply (IH _ i j); [lia|done..|]. intros k rk ok Hk Hrk Hok.
    by apply (Hnone (S k)); [lia|..].
Qed.

(** Two rivals: [a] wins the first term, [b] is refused at 50 and takes over at
    120, after the expiry. *)
Definition rivals : list request := [req "a" 100 0; req "b" 100 50; req "b" 100 120].

Definition first_term : LeaseOutcome := {| granted := true; lease := mk "a" 100 1 |}.
Definition second_term : LeaseOutcome := {| granted := true; lease := mk "b" 220 2 |}.

Lemma fencing_tokens_witness :
  attempts None rivals !! 0%nat = Some first_term
  ∧ attempts None rivals !! 2%nat = Some second_term
  ∧ token (lease first_term) ≤ token (lease second_term).
Proof.
  split; [reflexivity|]. split; [reflexivity|].
  apply (fencing_tokens None rivals 0 2 first_term second_term);
    [split; reflexivity|lia|reflexivity|reflexivity].
Defined.

Lemma lease_mutual_exclusion_witness :
  attempts None rivals !! 2%nat = Some second_term ∧ expires_ms (lease first_term) ≤ 120.
Proof.
  split; [reflexivity|].
  apply (lease_mutual_exclusion None rivals 0 2 (req "a" 100 0) (req "b" 100 120)
           first_term second_term); try reflexivity; try lia.
  - repeat constructor; simpl; lia.
  - discriminate.
  - intros k rk ok Hk Hrk Hok Hg. assert (k = 1%nat) as -> by lia.
    simpl in *. simplify_eq/=.
Defined.

End Lease.
