(* ===== verification/Shard.v ===== *)
(** * One node's local data ([src/src/shard.rs])

    A shard is a store and an id.  Every operation runs under the shard's lock,
    so it is one step on the store, at one clock reading [now].  The theorems
    are proved for any store that satisfies [IndexStoreLaws]. *)

From S2P Require Import Prelude Machine Text Partitioner Store Lease.

Local Open Scope Z_scope.

(** The derived [Serialize]/[Deserialize] of [Lease]
    ([serde_json::to_value], [serde_json::from_value(..).ok()]). *)
Class LeaseCodec (V : Type) := {
  value_from_lease : Lease.t → V;
  value_to_lease : V → option Lease.t;
}.

Class LeaseCodecLaws (V : Type) `{!LeaseCodec V} := {
  value_to_from_lease : ∀ l : Lease.t,
    is_u64 (Lease.expires_ms l) → is_u64 (Lease.token l) →
    value_to_lease (value_from_lease l) = Some l;
}.

Module Shard.

Section shard.
Context {V St : Type} `{!IndexStore V St, !JsonValue V, !LeaseCodec V}.

Record t := mk { id : string; store : St }.

Implicit Types (sh : t) (coll key : string).

Definition new (i : string) (st : St) : t := mk i st.

Definition with_store sh (st : St) : t := mk (id sh) st.

(** Run a mutating store operation that also returns a result. *)
Definition update {R} sh (x : St * R) : t * R := (with_store sh x.1, x.2).

Definition object (now : Z) sh coll key : option V := get_object now (store sh) coll key.

Definition scan_range (now : Z) sh coll (after prefix end_ : option string) (limit : nat)
    : list string :=
  Store.scan_range now (store sh) coll after prefix end_ limit.

Definition mget (now : Z) sh coll (keys : list string) : list (option V) :=
  Store.mget now (store sh) coll keys.

Definition scan_buckets (now : Z) sh coll (bs : list nat) (after : option string) (limit : nat)
    : list string :=
  Store.scan_buckets now (store sh) coll bs after limit.

Definition set_add (now : Z) sh coll key (member : string) : t * bool :=
  update sh (Store.set_add now (store sh) coll key member).

Definition set_remove (now : Z) sh coll key (member : string) : t * bool :=
  update sh (Store.set_remove now (store sh) coll key member).

Definition set_members (now : Z) sh coll key : list string :=
  Store.set_members now (store sh) coll key.

Definition write_object sh coll key (obj : V) : t :=
  with_store sh (put_object (store sh) coll key obj).

Definition write_object_ttl (now : Z) sh coll key (obj : V) (ttl_ms : Z) : t :=
  if ttl_ms =? 0 then with_store sh (put_object (store sh) coll key obj)
  else with_store sh (put_object_at (store sh) coll key obj (u64_add now ttl_ms)).

Definition sweep_expired (now : Z) sh : t * nat :=
  update sh (Store.sweep_expired (store sh) now).

Definition cas (now : Z) sh coll key (expect : option V) (nw : V) : t * bool :=
  update sh (Store.cas now (store sh) coll key expect nw).

Definition incr (now : Z) sh coll key (delta : Z) : t * option Z :=
  update sh (Store.incr now (store sh) coll key delta).

Definition write_batch sh (items : list (string * string * V)) : t :=
  with_store sh (put_batch (store sh) items).

Definition delete_object sh coll key : t :=
  with_store sh (Store.delete_object (store sh) coll key).

Definition lease_acquire (now : Z) sh key (who : string) (ttl_ms : Z) : t * Lease.LeaseOutcome :=
  let current := get_object now (store sh) Lease.LEASE_COLL key ≫= value_to_lease in
  let outcome := Lease.evaluate current who ttl_ms now in
  (if Lease.granted outcome then
     with_store sh (put_object (store sh) Lease.LEASE_COLL key
                      (value_from_lease (Lease.lease outcome)))
   else sh, outcome).

Definition export_entries (now : Z) sh coll (bs : list nat) : list (string * V) :=
  let want : gset nat := list_to_set bs in
  filter (λ '(k, _), Partitioner.bucket_of k ∈ want) (scan_entries now (store sh) coll).

Definition import_entries sh coll (entries : list (string * V)) : t :=
  foldl (λ s '(k, obj), with_store s (put_object (store s) coll k obj)) sh entries.

Definition drop_buckets (now : Z) sh coll (bs : list nat) : t * nat :=
  let want : gset nat := list_to_set bs in
  let ids := map fst (filter (λ '(k, _), Partitioner.bucket_of k ∈ want)
                        (scan_entries now (store sh) coll)) in
  (foldl (λ s k, with_store s (Store.delete_object (store s) coll k)) sh ids, length ids).

End shard.

Arguments t : clear implicits.

(** ** Bulk writes and deletes on a store *)

Section bulk.
Context {V St : Type} `{!IndexStore V St, !IndexStoreLaws V St}.
Implicit Types (sh : t St) (coll k : string) (es : list (string * V)).

Definition entries_ok coll es : Prop := ∀ k v, (k, v) ∈ es → entry_ok coll k v.

Lemma entries_ok_cons coll k v es :
  entries_ok coll ((k, v) :: es) ↔ entry_ok coll k v ∧ entries_ok coll es.
Proof.
  unfold entries_ok. split.
  - intros H. split; [apply H; left|]. intros. apply H. by right.
  - intros [Hk Hes] k' v' [?|?]%elem_of_cons; simplify_eq; auto.
Qed.

(** What an import leaves: the last write of each key wins. *)
Definition imported es : gmap string V := list_to_map (reverse es).

Lemma imported_cons k v es k' :
  imported ((k, v) :: es) !! k'
  = match imported es !! k' with
    | Some w => Some w
    | None => if decide (k = k') then Some v else None
    end.
Proof.
  unfold imported. rewrite reverse_cons, list_to_map_app, lookup_union. simpl.
  destruct (list_to_map (reverse es) !! k') as [w|]; simpl.
  - by destruct (_ !! k').
  - rewrite (left_id_L None (∪)). case_decide as Hk.
    + subst. by rewrite lookup_insert_eq.
    + by rewrite lookup_insert_ne.
Qed.

Lemma elem_of_imported es k v : NoDup (map fst es) → imported es !! k = Some v ↔ (k, v) ∈ es.
Proof.
  intros Hnd. unfold imported.
  rewrite <-elem_of_list_to_map; [by rewrite elem_of_reverse|].
  by rewrite fmap_reverse, reverse_Permutation.
Qed.

Lemma imported_None es k : imported es !! k = None ↔ k ∉ map fst es.
Proof.
  unfold imported. rewrite <-not_elem_of_list_to_map.
  by rewrite fmap_reverse, elem_of_reverse.
Qed.

Lemma import_entries_spec sh coll es :
  store_wf (store sh) → entries_ok coll es →
  store_wf (store (import_entries sh coll es))
  ∧ ∀ c k, match (if decide (c = coll) then imported es !! k else None) with
           | Some v => expiry_of (store (import_entries sh coll es)) c k = None
                       ∧ ∀ now, object now (import_entries sh coll es) c k = Some v
           | None => expiry_of (store (import_entries sh coll es)) c k = expiry_of (store sh) c k
                     ∧ ∀ now, object now (import_entries sh coll es) c k = object now sh c k
           end.
Proof.
  revert sh. induction es as [|[k0 v0] es IH]; intros sh Hwf Hok.
  { split; [done|]. intros. unfold imported. simpl. by case_decide. }
  apply entries_ok_cons in Hok as [Hk0 Hok].
  set (sh0 := with_store sh (put_object (store sh) coll k0 v0)).
  destruct (IH sh0) as [Hwf' Hget]; [by apply wf_put|done|]. split; [done|].
  intros c k. change (import_entries sh coll ((k0, v0) :: es)) with (import_entries sh0 coll es).
  specialize (Hget c k). rewrite imported_cons. destruct (decide (c = coll)) as [->|Hc].
  - destruct (imported es !! k) as [v|]; [done|]. destruct Hget as [-> Hget].
    destruct (put_writes (store sh) coll k0 v0 Hwf Hk0) as (_ & He & Hg & Hf).
    destruct (decide (k0 = k)) as [->|Hk].
    + split; [done|]. intros now. rewrite Hget. apply Hg.
    + destruct (Hf coll k) as [Hf1 Hf2]; [congruence|]. split; [done|].
      intros now. rewrite Hget. apply Hf2.
  - destruct Hget as [-> Hget].
    destruct (put_writes (store sh) coll k0 v0 Hwf Hk0) as (_ & _ & _ & Hf).
    destruct (Hf c k) as [Hf1 Hf2]; [congruence|]. split; [done|].
    intros now. rewrite Hget. apply Hf2.
Qed.

Definition delete_all sh coll (ks : list string) : t St :=
  foldl (λ s k, with_store s (Store.delete_object (store s) coll k)) sh ks.

Lemma delete_all_spec sh coll ks :
  store_wf (store sh) →
  store_wf (store (delete_all sh coll ks))
  ∧ ∀ c k, if decide (c = coll ∧ k ∈ ks) then
             expiry_of (store (delete_all sh coll ks)) c k = None
             ∧ ∀ now, object now (delete_all sh coll ks) c k = None
           else
             expiry_of (store (delete_all sh coll ks)) c k = expiry_of (store sh) c k
             ∧ ∀ now, object now (delete_all sh coll ks) c k = object now sh c k.
Proof.
  revert sh. induction ks as [|k0 ks IH]; intros sh Hwf.
  { split; [done|]. intros. simpl. rewrite decide_False; [done|]. set_solver. }
  set (sh0 := with_store sh (Store.delete_object (store sh) coll k0)).
  destruct (IH sh0) as [Hwf' Hget]; [by apply wf_delete|]. split; [done|].
  intros c k. change (delete_all sh coll (k0 :: ks)) with (delete_all sh0 coll ks).
  specialize (Hget c k). destruct (decide (c = coll ∧ k ∈ ks)) as [H1|H1].
  { rewrite decide_True; [done|]. set_solver. }
  destruct Hget as [-> Hget].
  destruct (delete_writes (store sh) coll k0 Hwf) as (_ & He & Hg & Hf).
  destruct (decide ((coll, k0) = (c, k))) as [H2|H2].
  - rewrite decide_True by (simplify_eq; split; [done|left]). simplify_eq.
    split; [done|]. intros now. rewrite Hget. apply Hg.
  - rewrite decide_False by (intros [-> [->|?]%elem_of_cons]; [done|tauto]).
    destruct (Hf c k H2) as [Hf1 Hf2]. split; [done|]. intros now. rewrite Hget. apply Hf2.
Qed.

(** *** The reshard primitives *)

(** A key the migration of buckets [bs] of collection [coll] is about. *)
Definition moves coll (bs : list nat) (c k : string) : Prop :=
  c = coll ∧ Partitioner.bucket_of k ∈ bs.

#[global] Instance moves_dec coll bs c k : Decision (moves coll bs c k).
Proof. unfold moves. apply _. Defined.

Lemma elem_of_export now sh coll bs k v :
  store_wf (store sh) →
  (k, v) ∈ export_entries now sh coll bs
  ↔ Partitioner.bucket_of k ∈ bs ∧ object now sh coll k = Some v.
Proof.
  intros Hwf. unfold export_entries. rewrite list_elem_of_filter, entries_get by done.
  by rewrite elem_of_list_to_set.
Qed.

Lemma NoDup_export now sh coll bs :
  store_wf (store sh) → NoDup (map fst (export_entries now sh coll bs)).
Proof.
  intros Hwf. by apply NoDup_fst_filter, entries_NoDup.
Qed.

Lemma export_ok now sh coll bs :
  store_wf (store sh) → entries_ok coll (export_entries now sh coll bs).
Proof. intros Hwf k v [_ Hg]%elem_of_export; [|done]. by eapply get_entry_ok. Qed.

Lemma imported_export now sh coll bs k :
  store_wf (store sh) →
  imported (export_entries now sh coll bs) !! k
  = if decide (Partitioner.bucket_of k ∈ bs) then object now sh coll k else None.
Proof.
  intros Hwf. pose proof (NoDup_export now sh coll bs Hwf) as Hnd. apply option_eq. intros v.
  rewrite elem_of_imported, elem_of_export by done. case_decide; naive_solver.
Qed.

(** An import writes plain objects: what is copied never expires at the target,
    whatever its deadline was at the source. *)
Lemma import_drops_expiry now src tgt coll bs k :
  store_wf (store src) → store_wf (store tgt) →
  Partitioner.bucket_of k ∈ bs → is_Some (object now src coll k) →
  expiry_of (store (import_entries tgt coll (export_entries now src coll bs))) coll k = None.
Proof.
  intros Hs Ht Hb [v Hv].
  destruct (import_entries_spec tgt coll (export_entries now src coll bs) Ht
              (export_ok now src coll bs Hs)) as [_ Hget].
  specialize (Hget coll k). rewrite imported_export, !decide_True, Hv in Hget by done. apply Hget.
Qed.

(** Copying buckets between shards (export at the source, import at the
    target) makes the target answer, from then on, exactly like the source did
    for every live key of those buckets, and changes no other read of the
    target. *)
Theorem copy_buckets_spec now now' src tgt coll bs c k :
  store_wf (store src) → store_wf (store tgt) →
  let tgt' := import_entries tgt coll (export_entries now src coll bs) in
  store_wf (store tgt') ∧
  object now' tgt' c k
  = if decide (moves coll bs c k ∧ is_Some (object now src c k))
    then object now src c k else object now' tgt c k.
Proof.
  intros Hs Ht tgt'.
  destruct (import_entries_spec tgt coll (export_entries now src coll bs) Ht
              (export_ok now src coll bs Hs)) as [Hwf Hget].
  split; [done|]. unfold tgt'. specialize (Hget c k). rewrite imported_export in Hget by done.
  unfold moves. destruct (decide (c = coll)) as [->|Hc];
    [|rewrite decide_False by naive_solver; apply Hget].
  destruct (decide (Partitioner.bucket_of k ∈ bs)) as [Hb|Hb];
    [|rewrite decide_False by naive_solver; apply Hget].
  destruct (object now src coll k) as [v|] eqn:Hv.
  - rewrite decide_True by (split; [done|]; by eexists). apply Hget.
  - rewrite decide_False; [apply Hget|]. intros [_ [? ?]]. done.
Qed.

Lemma get_absent_later now now' st c k :
  store_wf st → now ≤ now' → get_object now st c k = None → get_object now' st c k = None.
Proof.
  intros Hwf Hle. destruct (get_expiry st c k Hwf) as [raw Hraw]. rewrite !Hraw.
  destruct (expiry_of st c k) as [e|]; [|done].
  destruct (Z.leb_spec e now), (Z.leb_spec e now'); try lia; done.
Qed.

(** The drop, as the deletion of the exported keys. *)
Lemma drop_buckets_delete_all now sh coll bs :
  drop_buckets now sh coll bs
  = (delete_all sh coll (map fst (export_entries now sh coll bs)),
     length (export_entries now sh coll bs)).
Proof. unfold drop_buckets, delete_all, export_entries. by rewrite length_map. Qed.

Lemma elem_of_exported_keys now sh coll bs k :
  store_wf (store sh) →
  k ∈ map fst (export_entries now sh coll bs)
  ↔ Partitioner.bucket_of k ∈ bs ∧ is_Some (object now sh coll k).
Proof.
  intros Hwf. rewrite list_elem_of_fmap. split.
  - intros ([k' v] & -> & [? ?]%elem_of_export); [|done]. split; [done|by eexists].
  - intros [Hb [v Hv]]. exists (k, v). split; [done|]. by apply elem_of_export.
Qed.

(** Dropping buckets removes every key of those buckets from the collection
    for good, leaves every other read unchanged, and returns how many live
    entries went. *)
Theorem drop_buckets_spec now now' sh coll bs c k :
  store_wf (store sh) → now ≤ now' →
  store_wf (store (drop_buckets now sh coll bs).1)
  ∧ object now' (drop_buckets now sh coll bs).1 c k
    = (if decide (moves coll bs c k) then None else object now' sh c k)
  ∧ (drop_buckets now sh coll bs).2 = length (export_entries now sh coll bs).
Proof.
  intros Hwf Hle. rewrite drop_buckets_delete_all. cbn [fst snd].
  destruct (delete_all_spec sh coll (map fst (export_entries now sh coll bs)) Hwf) as [Hwf' Hget].
  split; [done|]. split; [|done]. specialize (Hget c k). unfold moves.
  destruct (decide (c = coll)) as [->|Hc];
    [|rewrite decide_False in Hget by naive_solver; rewrite decide_False by naive_solver;
      apply Hget].
  destruct (decide (Partitioner.bucket_of k ∈ bs)) as [Hb|Hb].
  - rewrite (decide_True (P := _ ∧ Partitioner.bucket_of k ∈ bs)) by done.
    case_decide as Hin; [apply Hget|]. destruct Hget as [_ ->].
    eapply get_absent_later; [done|exact Hle|]. apply eq_None_not_Some. intros Hs.
    apply Hin. split; [done|]. by apply elem_of_exported_keys.
  - rewrite (decide_False (P := _ ∧ Partitioner.bucket_of k ∈ bs)) by naive_solver.
    rewrite decide_False in Hget; [apply Hget|].
    rewrite elem_of_exported_keys by done. naive_solver.
Qed.

(** *** Writes with a time to live *)

(** A value written with a time to live is readable until the deadline
    stamped by the shard and absent from then on (a zero TTL never expires); no
    other key changes. *)
Theorem write_ttl_lifetime now now' sh coll key v ttl_ms c k :
  store_wf (store sh) → entry_ok coll key v → is_u64 now → is_u64 ttl_ms →
  now + ttl_ms < u64_modulus →
  store_wf (store (write_object_ttl now sh coll key v ttl_ms))
  ∧ object now' (write_object_ttl now sh coll key v ttl_ms) c k
    = if decide ((coll, key) = (c, k)) then
        if decide (ttl_ms = 0 ∨ now' < now + ttl_ms) then Some v else None
      else object now' sh c k.
Proof.
  intros Hwf Hok [Hn _] [Ht _] Hsum. unfold write_object_ttl, object.
  destruct (Z.eqb_spec ttl_ms 0) as [->|Hne]; cbn [store with_store].
  - split; [by apply wf_put|]. rewrite get_put by done. case_decide; [|done].
    by rewrite decide_True by (by left).
  - pose proof (u64_add_range now ttl_ms) as Hr. split; [by apply wf_put_at|].
    rewrite get_put_at by done. rewrite u64_add_small by done.
    case_decide; [|done]. destruct (Z.leb_spec (now + ttl_ms) now').
    + by rewrite decide_False by lia.
    + by rewrite decide_True by (by right).
Qed.

(** When the deadline overflows 64 bits the stamp wraps around and a value
    meant to live very long is absent at once. *)
Lemma write_ttl_overflow now sh coll key v ttl_ms :
  store_wf (store sh) → entry_ok coll key v → is_u64 now → is_u64 ttl_ms →
  u64_modulus ≤ now + ttl_ms →
  object now (write_object_ttl now sh coll key v ttl_ms) coll key = None.
Proof.
  intros Hwf Hok [Hn Hn'] [Ht Ht'] Hsum. unfold write_object_ttl, object.
  destruct (Z.eqb_spec ttl_ms 0) as [->|Hne]; [lia|]. cbn [store with_store].
  rewrite get_put_at, decide_True by (try done; apply u64_add_range).
  unfold u64_add. destruct (Z.leb_spec ((now + ttl_ms) mod u64_modulus) now); [done|].
  rewrite Z.mod_eq in * by done.
  assert (1 ≤ (now + ttl_ms) / u64_modulus) by (apply Z.div_le_lower_bound; lia). nia.
Qed.

Lemma write_batch_spec sh items :
  store_wf (store sh) → (∀ c i v, (c, i, v) ∈ items → entry_ok c i v) →
  write_batch sh items
  = foldl (λ s '(c, i, v), write_object s c i v) sh items.
Proof.
  intros Hwf Hok. unfold write_batch. rewrite put_batch_fold by done. clear Hok Hwf.
  unfold put_batch_default. destruct sh as [i st]. unfold with_store. cbn.
  revert st. induction items as [|[[c k] v] items IH]; intros st; [done|]. apply IH.
Qed.

End bulk.

(** ** Leases *)

Section leases.
Context {V St : Type} `{!IndexStore V St, !IndexStoreLaws V St, !JsonValue V}.
Context `{!LeaseCodec V, !LeaseCodecLaws V}.
Implicit Types (sh : t St) (key : string).

(** The attempts the shard serves, one after the other. *)
Fixpoint acquire_all sh key (rs : list Lease.request) : t St * list Lease.LeaseOutcome :=
  match rs with
  | [] => (sh, [])
  | r :: rs' =>
      let '(sh1, o) := lease_acquire (Lease.at_ms r) sh key (Lease.who r) (Lease.ttl r) in
      let '(sh2, os) := acquire_all sh1 key rs' in (sh2, o :: os)
  end.

(** The shard's lease record for [key] is [cur]. *)
Definition lease_rep sh key (cur : option Lease.t) : Prop :=
  store_wf (store sh) ∧ expiry_of (store sh) Lease.LEASE_COLL key = None
  ∧ (∀ now, object now sh Lease.LEASE_COLL key ≫= value_to_lease = cur)
  ∧ ∀ l, cur = Some l → is_u64 (Lease.token l).

Lemma evaluate_ok cur who ttl now :
  (∀ l, cur = Some l → is_u64 (Lease.token l)) →
  Lease.granted (Lease.evaluate cur who ttl now) = true →
  is_u64 (Lease.expires_ms (Lease.lease (Lease.evaluate cur who ttl now)))
  ∧ is_u64 (Lease.token (Lease.lease (Lease.evaluate cur who ttl now))).
Proof.
  intros Hcur. unfold Lease.evaluate. destruct cur as [l|]; [|split; [apply u64_add_range|done]].
  specialize (Hcur l eq_refl). repeat break; intros; simpl in *; try done; split;
    by first [apply u64_add_range | apply Hcur].
Qed.

Lemma lease_acquire_spec sh key cur r :
  (∀ l, entry_ok Lease.LEASE_COLL key (value_from_lease l)) → lease_rep sh key cur →
  let '(sh', o) := lease_acquire (Lease.at_ms r) sh key (Lease.who r) (Lease.ttl r) in
  o = Lease.attempt cur r ∧ lease_rep sh' key (Lease.kept cur o)
  ∧ ∀ now c k, (Lease.LEASE_COLL, key) ≠ (c, k) → object now sh' c k = object now sh c k.
Proof.
  intros Hok (Hwf & He & Hget & Htok). unfold lease_acquire.
  pose proof (Hget (Lease.at_ms r)) as Hcur. unfold object in Hcur. rewrite Hcur.
  fold (Lease.attempt cur r). split; [done|]. unfold Lease.kept.
  destruct (Lease.granted (Lease.attempt cur r)) eqn:Hg; [|done].
  destruct (evaluate_ok cur _ _ _ Htok Hg) as [Hex Htk].
  pose proof (put_writes (store sh) Lease.LEASE_COLL key _ Hwf
                (Hok (Lease.lease (Lease.attempt cur r)))) as (? & ? & Hg' & Hf).
  split; [|intros; by apply Hf]. split; [done|]. split; [done|]. split; [|by intros ? [= <-]].
  intros now. unfold object. cbn [store with_store]. rewrite Hg'. simpl.
  by apply value_to_from_lease.
Qed.

(** The shard implements the lease protocol: the answers to any sequence of
    acquire attempts on a key are those of the pure transition applied in that
    order (so the fencing and mutual-exclusion theorems speak of the shard), the
    record kept is the last granted one, and no other key changes. *)
Theorem shard_leases_refine sh key cur rs :
  (∀ l, entry_ok Lease.LEASE_COLL key (value_from_lease l)) → lease_rep sh key cur →
  (acquire_all sh key rs).2 = Lease.attempts cur rs
  ∧ (∃ cur', lease_rep (acquire_all sh key rs).1 key cur'
       ∧ cur' = foldl (λ c o, Lease.kept c o) cur (Lease.attempts cur rs))
  ∧ ∀ now c k, (Lease.LEASE_COLL, key) ≠ (c, k) →
      object now (acquire_all sh key rs).1 c k = object now sh c k.
Proof.
  intros Hok. revert sh cur. induction rs as [|r rs IH]; intros sh cur Hrep.
  { simpl. split; [done|]. split; [by eexists|done]. }
  pose proof (lease_acquire_spec sh key cur r Hok Hrep) as Hs.
  cbn [acquire_all Lease.attempts foldl].
  destruct (lease_acquire _ sh key _ _) as [sh1 o]. destruct Hs as (-> & Hrep1 & Hf).
  destruct (IH _ _ Hrep1) as (Hos & Hr & Hf2).
  destruct (acquire_all sh1 key rs) as [sh2 os]. simpl in *.
  split; [by f_equal|]. split; [done|]. intros. by rewrite Hf2, Hf.
Qed.

End leases.

End Shard.
