(* ===== verification/Metrics.v ===== *)
(** * Metrics ([src/src/metrics.rs])

    The process-wide operation counters and their text exposition.  The uptime
    gauge is a floating-point number printed with three decimals; its text is an
    argument. *)

From S2P Require Import Prelude Machine Text.

Local Open Scope Z_scope.

Module Metrics.

(** The five atomics. *)
Record Counters := mkCounters { GET : Z; SET : Z; SADD : Z; SREM : Z; DEL : Z }.

Definition zero : Counters := mkCounters 0 0 0 0 0.

Inductive Counter := CGet | CSet | CSadd | CSrem | CDel.

#[global] Instance counter_eq_dec : EqDecision Counter.
Proof. solve_decision. Defined.

(** [fetch_add(n)] wraps. *)
Definition fetch_add (o : Counter) (n : Z) (c : Counters) : Counters :=
  let '(mkCounters g s sa sr d) := c in
  match o with
  | CGet => mkCounters (u64_add g n) s sa sr d
  | CSet => mkCounters g (u64_add s n) sa sr d
  | CSadd => mkCounters g s (u64_add sa n) sr d
  | CSrem => mkCounters g s sa (u64_add sr n) d
  | CDel => mkCounters g s sa sr (u64_add d n)
  end.

Definition inc (o : Counter) (c : Counters) : Counters := fetch_add o 1 c.

Definition load (o : Counter) (c : Counters) : Z :=
  match o with CGet => GET c | CSet => SET c | CSadd => SADD c | CSrem => SREM c | CDel => DEL c end.

Definition NL : ascii := ascii_of_N 10.
Definition QUOTE : string := String (ascii_of_N 34) EmptyString.

Fixpoint lines (l : list string) : string :=
  match l with [] => EmptyString | s :: l' => (s ++ String NL (lines l'))%string end.

Definition op_name (o : Counter) : string :=
  match o with CGet => "get" | CSet => "set" | CSadd => "sadd" | CSrem => "srem" | CDel => "del" end.

(** [stplr_ops_total{op="..."}] *)
Definition series (o : Counter) : string :=
  ("stplr_ops_total{op=" ++ QUOTE ++ op_name o ++ QUOTE ++ "}")%string.

(** The sum of the counters is unchecked. *)
Definition total (c : Counters) : Z :=
  u64_add (u64_add (u64_add (u64_add (GET c) (SET c)) (SADD c)) (SREM c)) (DEL c).

Definition render (c : Counters) (up : string) : string :=
  lines
    ["# HELP stplr_ops_total Operations served, by type.";
     "# TYPE stplr_ops_total counter";
     series CGet ++ " " ++ u64_to_string (GET c);
     series CSet ++ " " ++ u64_to_string (SET c);
     series CSadd ++ " " ++ u64_to_string (SADD c);
     series CSrem ++ " " ++ u64_to_string (SREM c);
     series CDel ++ " " ++ u64_to_string (DEL c);
     "# HELP stplr_ops_grand_total All operations served.";
     "# TYPE stplr_ops_grand_total counter";
     "stplr_ops_grand_total " ++ u64_to_string (total c);
     "# HELP stplr_uptime_seconds Process uptime in seconds.";
     "# TYPE stplr_uptime_seconds gauge";
     "stplr_uptime_seconds " ++ up]%string.

Definition render_cluster_gauges (shards replication : nat) (migrating : bool) : string :=
  lines
    ["# HELP stplr_cluster_shards Number of shards the coordinator routes across.";
     "# TYPE stplr_cluster_shards gauge";
     "stplr_cluster_shards " ++ u64_to_string (Z.of_nat shards);
     "# HELP stplr_cluster_replication Effective replication factor.";
     "# TYPE stplr_cluster_replication gauge";
     "stplr_cluster_replication " ++ u64_to_string (Z.of_nat replication);
     "# HELP stplr_cluster_migrating Whether a rebalance/migration is in progress (1=yes).";
     "# TYPE stplr_cluster_migrating gauge";
     "stplr_cluster_migrating " ++ (if migrating then "1" else "0")]%string.

(** ** What counts as what *)

(** The counter that the handler of a shard's route bumps, if any. *)
Definition shard_route (path : string) : option Counter :=
  if decide (path ∈ ["/object"; "/mget"]%string) then Some CGet
  else if decide (path ∈ ["/write"; "/cas"; "/incr"]%string) then Some CSet
  else if String.eqb path "/setAdd" then Some CSadd
  else if String.eqb path "/setRemove" then Some CSrem
  else if String.eqb path "/deleteObject" then Some CDel
  else None.

(** A coordinator's batch read is not counted. *)
Definition coordinator_route (path : string) : option Counter :=
  if String.eqb path "/mget" then None else shard_route path.

(** The opcodes of the binary protocol; the writer counts a batch of SETs at
    once, by its length. *)
Definition opcode (op : Z) : option Counter :=
  match op with
  | 1 => Some CGet | 2 => Some CSet | 3 => Some CSadd | 4 => Some CSrem | 5 => Some CDel
  | _ => None
  end.

(** Counting a batch is counting each of its writes. *)
Lemma fetch_add_iter o n c :
  (∀ o', is_u64 (load o' c)) → fetch_add o (Z.of_nat n) c = Nat.iter n (inc o) c.
Proof.
  intros Hc. induction n as [|n IH].
  - assert (∀ z, is_u64 z → u64_add z 0 = z) as H0
      by (intros z [? ?]; unfold u64_add; rewrite Z.add_0_r; by apply Z.mod_small).
    destruct c as [g s sa sr d], o; cbn; f_equal; apply H0;
      first [apply (Hc CGet)|apply (Hc CSet)|apply (Hc CSadd)|apply (Hc CSrem)|apply (Hc CDel)].
  - change (Nat.iter (S n) (inc o) c) with (inc o (Nat.iter n (inc o) c)). rewrite <-IH. unfold inc.
    assert (∀ z, u64_add z (Z.of_nat (S n)) = u64_add (u64_add z (Z.of_nat n)) 1) as Hs.
    { intros z. unfold u64_add. rewrite Zplus_mod_idemp_l. f_equal. lia. }
    destruct c as [g s sa sr d], o; cbn [fetch_add]; by rewrite Hs.
Qed.

(** ** Counting *)

(** [n] increments add [n], to the counter they name and no other, up to the
    wrap-around at [2^64]. *)
Lemma load_inc o o' c :
  is_u64 (load o c) →
  load o (inc o' c) = if decide (o = o') then (load o c + 1) mod u64_modulus else load o c.
Proof. destruct c, o, o'; done. Qed.

(** ** Scraping *)

(** The first sample of a series, as a scraper finds it. *)
Definition found (name : string) (ls : list string) : option Z :=
  head (omap (λ l, strip_prefix (name ++ " ") l ≫= parse_u64) ls).

Definition sample (name : string) (t : string) : option Z := found name (split_on NL t).

Lemma split_lines l : Forall (λ s, lacks NL s = true) l → split_on NL (lines l) = l ++ [EmptyString].
Proof.
  induction 1 as [|s l Hs _ IH]; [done|]. cbn [lines app]. rewrite split_app by done. by f_equal.
Qed.

Lemma lacks_numeral n : 0 ≤ n → lacks NL (u64_to_string n) = true.
Proof. intros. by apply lacks_dec_go. Qed.

Definition counters_ok (c : Counters) : Prop := ∀ o, is_u64 (load o c).

Lemma total_range c : is_u64 (total c).
Proof. apply u64_add_range. Qed.

(** The scraper passes over a line of another series, and stops at its own. *)
Lemma found_skip name l ls : strip_prefix (name ++ " ") l = None → found name (l :: ls) = found name ls.
Proof. intros Hl. unfold found. cbn [omap list_omap]. by rewrite Hl. Qed.

Lemma found_hit name l t n ls :
  l = ((name ++ " ") ++ t)%string → parse_u64 t = Some n → found name (l :: ls) = Some n.
Proof.
  intros -> Ht. unfold found. cbn [omap list_omap].
  rewrite (proj2 (strip_prefix_app (name ++ " ") _ t) eq_refl). cbn [mbind option_bind]. by rewrite Ht.
Qed.

(** A scrape reads the counters back: the sample of each series, and the grand
    total, in the rendered text are the values of the counters. *)
Theorem scrape_roundtrip c up o :
  counters_ok c → lacks NL up = true →
  sample (series o) (render c up) = Some (load o c)
  ∧ sample "stplr_ops_grand_total" (render c up) = Some (total c).
Proof.
  intros Hc Hup. pose proof (total_range c) as Ht.
  assert (Hn : ∀ o', parse_u64 (u64_to_string (load o' c)) = Some (load o' c)
                     ∧ lacks NL (u64_to_string (load o' c)) = true).
  { intros o'. split; [by apply u64_string_roundtrip|]. apply lacks_numeral, Hc. }
  pose proof (u64_string_roundtrip _ Ht) as Htot. pose proof (lacks_numeral (total c) (proj1 Ht)) as Hl.
  destruct (Hn CGet) as [G1 G2], (Hn CSet) as [S1 S2], (Hn CSadd) as [A1 A2], (Hn CSrem) as [R1 R2],
    (Hn CDel) as [D1 D2]. clear Hn. cbn [load] in *. unfold sample, render.
  revert G1 G2 S1 S2 A1 A2 R1 R2 D1 D2 Htot Hl.
  generalize (u64_to_string (GET c)) as g, (u64_to_string (SET c)) as s, (u64_to_string (SADD c)) as sa,
    (u64_to_string (SREM c)) as sr, (u64_to_string (DEL c)) as d, (u64_to_string (total c)) as tt.
  intros. rewrite split_lines.
  2:{ repeat constructor; rewrite ?lacks_app; rewrite ?G2, ?S2, ?A2, ?R2, ?D2, ?Hl, ?Hup; reflexivity. }
  split; [destruct o|].
  all: cbn [app load].
  all: repeat rewrite found_skip by reflexivity.
  1: apply (found_hit _ _ g). 3: apply (found_hit _ _ s). 5: apply (found_hit _ _ sa).
  7: apply (found_hit _ _ sr). 9: apply (found_hit _ _ d). 11: apply (found_hit _ _ tt).
  all: first [done|reflexivity].
Qed.

(** The coordinator's text: the counters, then the gauges of the cluster. *)
Lemma lines_app l l' : lines (l ++ l') = (lines l ++ lines l')%string.
Proof.
  induction l as [|s l IH]; [done|]. cbn [app lines]. rewrite IH. clear IH.
  induction s as [|a s IH]; [done|].
  change (String a (s ++ String NL (lines l ++ lines l')) = String a ((s ++ String NL (lines l)) ++ lines l'))%string.
  by rewrite IH.
Qed.

Lemma gauges_roundtrip c up shards replication migrating :
  counters_ok c → lacks NL up = true →
  Z.of_nat shards < u64_modulus → Z.of_nat replication < u64_modulus →
  let t := (render c up ++ render_cluster_gauges shards replication migrating)%string in
  sample "stplr_cluster_shards" t = Some (Z.of_nat shards)
  ∧ sample "stplr_cluster_replication" t = Some (Z.of_nat replication)
  ∧ sample "stplr_cluster_migrating" t = Some (if migrating then 1 else 0).
Proof.
  intros Hc Hup Hs Hr. unfold sample, render, render_cluster_gauges. rewrite <-lines_app.
  assert (Hn : ∀ o', lacks NL (u64_to_string (load o' c)) = true) by (intros; apply lacks_numeral, Hc).
  pose proof (Hn CGet) as G. pose proof (Hn CSet) as S. pose proof (Hn CSadd) as A.
  pose proof (Hn CSrem) as R. pose proof (Hn CDel) as D. cbn [load] in *.
  pose proof (lacks_numeral (total c) (proj1 (total_range c))) as T.
  pose proof (u64_string_roundtrip (Z.of_nat shards) ltac:(split; [lia|done])) as Hsp.
  pose proof (u64_string_roundtrip (Z.of_nat replication) ltac:(split; [lia|done])) as Hrp.
  pose proof (lacks_numeral (Z.of_nat shards) ltac:(lia)) as Hsl.
  pose proof (lacks_numeral (Z.of_nat replication) ltac:(lia)) as Hrl.
  revert G S A R D T Hsp Hrp Hsl Hrl. clear Hn.
  generalize (u64_to_string (GET c)) as g, (u64_to_string (SET c)) as s, (u64_to_string (SADD c)) as sa,
    (u64_to_string (SREM c)) as sr, (u64_to_string (DEL c)) as d, (u64_to_string (total c)) as tt,
    (u64_to_string (Z.of_nat shards)) as n1, (u64_to_string (Z.of_nat replication)) as n2.
  intros. rewrite split_lines.
  2:{ repeat constructor; rewrite ?lacks_app; rewrite ?G, ?S, ?A, ?R, ?D, ?T, ?Hup, ?Hsl, ?Hrl;
      try reflexivity. by destruct migrating. }
  cbn [app]. repeat split; repeat rewrite found_skip by reflexivity.
  - by apply (found_hit _ _ n1).
  - by apply (found_hit _ _ n2).
  - apply (found_hit _ _ (if migrating then "1" else "0")); by destruct migrating.
Qed.

End Metrics.
