(* ===== verification/Proto.v ===== *)
(** * The binary protocol ([src/src/proto.rs])

    A connection carries length-prefixed request frames, answered in order.
    Reads, set operations and deletes run on the shard under its lock; writes
    are handed to one writer task, which commits whatever is queued as a single
    batch and then wakes the waiting connections (group commit).

    The file models the frame reader, the execution of a request, the loop of
    one connection, and the server: a step relation in which any number of
    connections and the writer task interleave.  The counter an opcode bumps is
    [Metrics.opcode]. *)

From S2P Require Import Prelude Machine Text Wire Store Shard.

Local Open Scope Z_scope.

Module Proto.

Definition OP_GET : Z := 1.
Definition OP_SET : Z := 2.
Definition OP_SADD : Z := 3.
Definition OP_SREM : Z := 4.
Definition OP_DEL : Z := 5.
Definition OP_PING : Z := 6.
Definition OP_AUTH : Z := 7.

Definition ST_OK : Z := 0.
Definition ST_ABSENT : Z := 1.
Definition ST_TRUE : Z := 2.

Definition BATCH_MAX : nat := 512.
Definition CHAN_CAP : nat := 2048.

(** A field: its length, then that many bytes. *)
Definition read_field (inp : bytes) : option (bytes * bytes) :=
  '(n, r) ← read_u32 inp; read_exact n r.

(** [from_utf8(b)], or the empty text. *)
Definition as_str (b : bytes) : string := if is_utf8 b then text b else EmptyString.

(** The [authed] flag after an [OP_AUTH] frame. *)
Definition auth_ok (token : option string) (presented : bytes) : bool :=
  match token with
  | Some t => bool_decide (presented = as_bytes t)
  | None => true
  end.

(** ** Requests *)

Section requests.
Context {V : Type} `{!JsonValue V, !WireJson V}.

Inductive request :=
  | Auth (presented : bytes)
  | Get (coll key : string)
  | Set_ (coll key : string) (val : V)
  | Sadd (coll key member : string)
  | Srem (coll key member : string)
  | Del (coll key : string)
  | Ping.

(** The value of a SET: the JSON it parses as, or its text as a string. *)
Definition read_value (b : bytes) : V :=
  default (value_from_str (lossy_text b)) (value_from_slice b).

Definition read2 {A} (inp : bytes) (mk : bytes → bytes → A) : option (A * bytes) :=
  '(a, r1) ← read_field inp; '(b, r2) ← read_field r1; Some (mk a b, r2).

Definition read3 {A} (inp : bytes) (mk : bytes → bytes → bytes → A) : option (A * bytes) :=
  '(a, r1) ← read_field inp; '(b, r2) ← read_field r1; '(c, r3) ← read_field r2;
  Some (mk a b c, r3).

(** The head of one round of the loop: the next request and the rest of the
    input.  [None]: the connection is dropped (end of file, a truncated frame,
    an operation before authentication, an unknown opcode). *)
Definition read_request (authed : bool) (inp : bytes) : option (request * bytes) :=
  match inp with
  | [] => None
  | o :: r =>
      let op := byte_val o in
      if op =? OP_AUTH then '(p, r1) ← read_field r; Some (Auth p, r1)
      else if negb authed then None
      else if op =? OP_GET then read2 r (λ c k, Get (as_str c) (as_str k))
      else if op =? OP_SET then
        read3 r (λ c k v, Set_ (lossy_text c) (lossy_text k) (read_value v))
      else if op =? OP_SADD then read3 r (λ c k m, Sadd (as_str c) (as_str k) (as_str m))
      else if op =? OP_SREM then read3 r (λ c k m, Srem (as_str c) (as_str k) (as_str m))
      else if op =? OP_DEL then read2 r (λ c k, Del (as_str c) (as_str k))
      else if op =? OP_PING then Some (Ping, r)
      else None
  end.

(** Whether the connection stays open, and is served, after a request. *)
Definition stays (token : option string) (q : request) : bool :=
  match q with Auth p => auth_ok token p | _ => true end.

End requests.
Arguments request : clear implicits.

(** ** Execution *)

Section execution.
Context {V St : Type} `{!IndexStore V St, !JsonValue V, !WireJson V}.
Implicit Types (sh : Shard.t St) (q : request V).

Definition flag (b : bool) : bytes := [byte (if b then ST_TRUE else ST_ABSENT)].

(** One request at clock reading [now]: the effect on the shard and the reply.
    A SET is what the writer does with a batch of that write alone. *)
Definition execute (token : option string) (now : Z) sh q : Shard.t St * bytes :=
  match q with
  | Auth p => (sh, [byte (if auth_ok token p then ST_OK else ST_ABSENT)])
  | Get c k =>
      (sh, match Shard.object now sh c k with
           | Some v =>
               let b := value_to_vec v in
               byte ST_OK :: write_u32 (Z.of_nat (length b) mod u32_modulus) ++ b
           | None => [byte ST_ABSENT]
           end)
  | Set_ c k v => (Shard.write_batch sh [(c, k, v)], [byte ST_OK])
  | Sadd c k m => let '(sh', added) := Shard.set_add now sh c k m in (sh', flag added)
  | Srem c k m => let '(sh', removed) := Shard.set_remove now sh c k m in (sh', flag removed)
  | Del c k => (Shard.delete_object sh c k, [byte ST_OK])
  | Ping => (sh, [byte ST_OK])
  end.

(** The loop of a connection whose writes find the writer idle; [clk] gives the
    clock reading of each round.  [None] when the fuel runs out. *)
Fixpoint handle_loop (fuel : nat) (token : option string) (clk : nat → Z) (n : nat)
    sh (authed : bool) (inp : bytes) : option (Shard.t St * bytes) :=
  match fuel with
  | O => None
  | S f =>
      match read_request authed inp with
      | None => Some (sh, [])
      | Some (q, rest) =>
          let '(sh1, out) := execute token (clk n) sh q in
          if stays token q then
            '(sh2, outs) ← handle_loop f token clk (S n) sh1 true rest;
            Some (sh2, out ++ outs)
          else Some (sh1, out)
      end
  end.

(** Every round reads at least the opcode. *)
Definition handle (token : option string) (clk : nat → Z) sh (inp : bytes)
    : Shard.t St * bytes :=
  default (sh, []) (handle_loop (S (length inp)) token clk 0 sh (bool_decide (token = None)) inp).

End execution.

(** ** The server: connections and the group-commit writer *)

Section server.
Context {V St : Type} `{!IndexStore V St, !JsonValue V, !WireJson V}.

(** A write on its way to the writer; [reply] is the connection that waits on
    the other end of the oneshot channel. *)
Record WriteReq := mkWrite { coll : string; key : string; val : V; reply : nat }.

Inductive phase :=
  | Reading                (** at the top of the loop *)
  | Waiting                (** on the oneshot of a queued write *)
  | Acked                  (** the oneshot has fired *)
  | Closed.

Record conn := Conn { authed : bool; input : bytes; output : bytes; at_phase : phase }.

Record server := Server {
  shard : Shard.t St;
  queue : list WriteReq;   (** the channel *)
  batch : list WriteReq;   (** what the writer has taken off it *)
  conns : gmap nat conn;
}.

(** One executed request: by which connection, when. *)
Definition event : Type := nat * Z * request V.

Definition item (r : WriteReq) : string * string * V := (coll r, key r, val r).
Definition write_event (now : Z) (r : WriteReq) : event :=
  (reply r, now, Set_ (coll r) (key r) (val r)).

Definition set_conn (s : server) (i : nat) (c : conn) : server :=
  Server (shard s) (queue s) (batch s) (<[i := c]> (conns s)).

(** [r.send(())]: a connection that is gone does not mind. *)
Definition ack (m : gmap nat conn) (i : nat) : gmap nat conn :=
  alter (λ c, Conn (authed c) (input c) (output c) Acked) i m.

Definition is_write (q : request V) : option (string * string * V) :=
  match q with Set_ c k v => Some (c, k, v) | _ => None end.

(** One step of a connection's loop, labelled with the request it executes on
    the shard. *)
Inductive conn_step (token : option string) : server → list event → server → Prop :=
  | conn_serve s i c q rest now sh' out :
      conns s !! i = Some c → at_phase c = Reading →
      read_request (authed c) (input c) = Some (q, rest) → is_write q = None →
      execute token now (shard s) q = (sh', out) →
      conn_step token s [(i, now, q)]
        (Server sh' (queue s) (batch s)
           (<[i := Conn (stays token q) rest (output c ++ out)
                     (if stays token q then Reading else Closed)]> (conns s)))
  | conn_drop s i c :
      conns s !! i = Some c → at_phase c = Reading →
      read_request (authed c) (input c) = None →
      conn_step token s [] (set_conn s i (Conn (authed c) (input c) (output c) Closed))
  | conn_send s i c q rest cl k v :
      conns s !! i = Some c → at_phase c = Reading →
      read_request (authed c) (input c) = Some (q, rest) → is_write q = Some (cl, k, v) →
      (length (queue s) < CHAN_CAP)%nat →
      conn_step token s []
        (Server (shard s) (queue s ++ [mkWrite cl k v i]) (batch s)
           (<[i := Conn true rest (output c) Waiting]> (conns s)))
  | conn_reply s i c :
      conns s !! i = Some c → at_phase c = Acked →
      conn_step token s []
        (set_conn s i (Conn (authed c) (input c) (output c ++ [byte ST_OK]) Reading)).

(** One step of the writer's loop: take one more write off the channel while
    the batch is not full, or, when the batch is full or the channel empty,
    commit it and answer every request of it. *)
Inductive writer_loop : server → list event → server → Prop :=
  | writer_recv s r rs :
      queue s = r :: rs → (length (batch s) < BATCH_MAX)%nat →
      writer_loop s [] (Server (shard s) rs (batch s ++ [r]) (conns s))
  | writer_commit s now :
      batch s ≠ [] → (length (batch s) = BATCH_MAX ∨ queue s = []) →
      writer_loop s (map (write_event now) (batch s))
        (Server (Shard.write_batch (shard s) (map item (batch s))) (queue s) []
           (foldl ack (conns s) (map reply (batch s)))).

Definition step (token : option string) (s : server) (l : list event) (s' : server) : Prop :=
  conn_step token s l s' ∨ writer_loop s l s'.

(** Executions, with the requests executed so far. *)
Inductive steps (R : server → list event → server → Prop) (s0 : server)
    : list event → server → Prop :=
  | steps_refl : steps R s0 [] s0
  | steps_snoc tr s l s' : steps R s0 tr s → R s l s' → steps R s0 (tr ++ l) s'.

(** The accept loop: a fresh connection per client, which will send [inputs i]. *)
Definition fresh (token : option string) (inp : bytes) : conn :=
  Conn (bool_decide (token = None)) inp [] Reading.

Definition start (token : option string) (sh : Shard.t St) (inputs : gmap nat bytes) : server :=
  Server sh [] [] (fresh token <$> inputs).

End server.

#[global] Instance phase_eq_dec : EqDecision phase.
Proof. solve_decision. Defined.

Arguments WriteReq : clear implicits.
Arguments server : clear implicits.
Arguments event : clear implicits.

(** ** Frames *)

Section frames.
Context {V : Type} `{!JsonValue V, !WireJson V}.
Implicit Types (q : request V) (inp rest : bytes).

Lemma read_write_field b rest : field_ok b → read_field (write_field b ++ rest) = Some (b, rest).
Proof.
  intros Hb. unfold read_field, write_field. rewrite <-app_assoc, read_write_u32 by lia.
  cbn [mbind option_bind]. unfold field_ok in Hb. rewrite Z.mod_small by lia. apply read_exact_app.
Qed.

Lemma read_field_inv inp b rest : read_field inp = Some (b, rest) → inp = write_field b ++ rest.
Proof.
  unfold read_field. intros ([n r] & E & Hr)%bind_Some.
  pose proof (read_u32_range _ _ _ E) as [Hn _]. apply read_u32_inv in E as ->.
  apply read_exact_inv in Hr as [-> <-]; [|done]. unfold write_field. by rewrite <-app_assoc.
Qed.

Lemma read_field_shrinks inp b rest :
  read_field inp = Some (b, rest) → (length rest < length inp)%nat.
Proof.
  intros ->%read_field_inv. unfold write_field, write_u32. rewrite !length_app. simpl. lia.
Qed.

Lemma read2_shrinks {A} inp (mk : bytes → bytes → A) x rest :
  read2 inp mk = Some (x, rest) → (length rest < length inp)%nat.
Proof.
  unfold read2. intros ([a r1] & H1 & ([b r2] & H2 & [= <- <-])%bind_Some)%bind_Some.
  apply read_field_shrinks in H1, H2. lia.
Qed.

Lemma read3_shrinks {A} inp (mk : bytes → bytes → bytes → A) x rest :
  read3 inp mk = Some (x, rest) → (length rest < length inp)%nat.
Proof.
  unfold read3.
  intros ([a r1] & H1 & ([b r2] & H2 & ([c r3] & H3 & [= <- <-])%bind_Some)%bind_Some)%bind_Some.
  apply read_field_shrinks in H1, H2, H3. lia.
Qed.

Lemma read_request_shrinks authed inp q rest :
  read_request authed inp = Some (q, rest) → (length rest < length inp)%nat.
Proof.
  destruct inp as [|o r]; [done|]. unfold read_request.
  repeat case_match; intros Hr; try done; cbn [length].
  - apply bind_Some in Hr as ([p r1] & Hp & [= <- <-]). apply read_field_shrinks in Hp. lia.
  - apply read2_shrinks in Hr. lia.
  - apply read3_shrinks in Hr. lia.
  - apply read3_shrinks in Hr. lia.
  - apply read3_shrinks in Hr. lia.
  - apply read2_shrinks in Hr. lia.
  - simplify_eq. lia.
Qed.

(** The client's side of the frame format. *)
Definition encode_request q : bytes :=
  match q with
  | Auth p => byte OP_AUTH :: write_field p
  | Get c k => byte OP_GET :: write_field (as_bytes c) ++ write_field (as_bytes k)
  | Set_ c k v =>
      byte OP_SET :: write_field (as_bytes c) ++ write_field (as_bytes k)
        ++ write_field (value_to_vec v)
  | Sadd c k m =>
      byte OP_SADD :: write_field (as_bytes c) ++ write_field (as_bytes k)
        ++ write_field (as_bytes m)
  | Srem c k m =>
      byte OP_SREM :: write_field (as_bytes c) ++ write_field (as_bytes k)
        ++ write_field (as_bytes m)
  | Del c k => byte OP_DEL :: write_field (as_bytes c) ++ write_field (as_bytes k)
  | Ping => [byte OP_PING]
  end.

(** Text and values the frames carry faithfully. *)
Definition str_ok (s : string) : bool :=
  is_utf8 (as_bytes s) && bool_decide (field_ok (as_bytes s)).

Definition value_ok (v : V) : Prop :=
  value_from_slice (value_to_vec v) = Some v ∧ field_ok (value_to_vec v).

Definition request_ok q : Prop :=
  match q with
  | Auth p => field_ok p
  | Get c k | Del c k => str_ok c = true ∧ str_ok k = true
  | Set_ c k v => str_ok c = true ∧ str_ok k = true ∧ value_ok v
  | Sadd c k m | Srem c k m => str_ok c = true ∧ str_ok k = true ∧ str_ok m = true
  | Ping => True
  end.

Lemma str_ok_field s : str_ok s = true → field_ok (as_bytes s).
Proof. unfold str_ok. intros [_ H]%andb_true_iff. by apply bool_decide_eq_true in H. Qed.

Lemma str_ok_as_str s : str_ok s = true → as_str (as_bytes s) = s.
Proof.
  unfold str_ok, as_str. intros [-> _]%andb_true_iff. apply text_as_bytes.
Qed.

Lemma str_ok_lossy s : str_ok s = true → lossy_text (as_bytes s) = s.
Proof.
  unfold str_ok. intros [Hu _]%andb_true_iff. rewrite lossy_text_valid by done. apply text_as_bytes.
Qed.

Lemma read2_write {A} (mk : bytes → bytes → A) a b rest :
  field_ok a → field_ok b →
  read2 ((write_field a ++ write_field b) ++ rest) mk = Some (mk a b, rest).
Proof.
  intros Ha Hb. unfold read2. rewrite <-app_assoc, read_write_field by done.
  cbn [mbind option_bind]. by rewrite read_write_field.
Qed.

Lemma read3_write {A} (mk : bytes → bytes → bytes → A) a b c rest :
  field_ok a → field_ok b → field_ok c →
  read3 ((write_field a ++ write_field b ++ write_field c) ++ rest) mk = Some (mk a b c, rest).
Proof.
  intros Ha Hb Hc. unfold read3. rewrite <-!app_assoc, read_write_field by done.
  cbn [mbind option_bind]. rewrite read_write_field by done.
  cbn [mbind option_bind]. by rewrite read_write_field.
Qed.

Definition is_auth q : bool := match q with Auth _ => true | _ => false end.

(** Decoding a request frame, on an open connection, gives the request back. *)
Lemma read_encode authed q rest :
  request_ok q → authed || is_auth q = true →
  read_request authed (encode_request q ++ rest) = Some (q, rest).
Proof.
  intros Hok Ha. destruct q; simpl in Hok;
    cbn [encode_request app read_request is_auth] in *; rewrite byte_val_byte by done;
    rewrite ?orb_false_r in Ha; subst; cbn -[write_field read_field read2 read3].
  - by rewrite read_write_field.
  - destruct Hok. rewrite read2_write, !str_ok_as_str by eauto using str_ok_field. done.
  - destruct Hok as (? & ? & Hv & ?). rewrite read3_write by eauto using str_ok_field.
    rewrite !str_ok_lossy by done. unfold read_value. by rewrite Hv.
  - destruct Hok as (? & ? & ?). by rewrite read3_write, !str_ok_as_str by eauto using str_ok_field.
  - destruct Hok as (? & ? & ?). by rewrite read3_write, !str_ok_as_str by eauto using str_ok_field.
  - destruct Hok. by rewrite read2_write, !str_ok_as_str by eauto using str_ok_field.
  - done.
Qed.

(** A key that is not UTF-8: a SET stores it under its lossy decoding, a GET or
    a DEL of the same bytes asks for the empty key. *)
Lemma set_key_mismatch (c k v rest : bytes) :
  is_utf8 k = false → field_ok c → field_ok k → field_ok v →
  read_request (V := V) true (byte OP_SET :: (write_field c ++ write_field k ++ write_field v) ++ rest)
    = Some (Set_ (lossy_text c) (lossy_text k) (read_value v), rest)
  ∧ read_request (V := V) true (byte OP_GET :: (write_field c ++ write_field k) ++ rest)
    = Some (Get (as_str c) EmptyString, rest)
  ∧ read_request (V := V) true (byte OP_DEL :: (write_field c ++ write_field k) ++ rest)
    = Some (Del (as_str c) EmptyString, rest).
Proof.
  intros Hk Hc Hfk Hv. assert (as_str k = EmptyString) as He by (unfold as_str; by rewrite Hk).
  cbn [read_request negb]. rewrite !byte_val_byte by done. cbn -[write_field read2 read3].
  rewrite read3_write, !read2_write by done. by rewrite He.
Qed.

End frames.

(** ** One connection *)

Section connection.
Context {V St : Type} `{!IndexStore V St, !JsonValue V, !WireJson V}.
Implicit Types (sh : Shard.t St) (q : request V) (token : option string).

(** The fuel of [handle] is enough, and any more gives the same result. *)
Lemma handle_loop_enough token clk f : ∀ n sh authed inp, (length inp < f)%nat →
  ∃ r, ∀ f', (length inp < f')%nat → handle_loop f' token clk n sh authed inp = Some r.
Proof.
  induction f as [|f IH]; intros n sh authed inp Hf; [lia|].
  destruct (read_request authed inp) as [[q rest]|] eqn:Hq.
  - pose proof (read_request_shrinks _ _ _ _ Hq).
    destruct (execute token (clk n) sh q) as [sh1 out] eqn:He.
    destruct (IH (S n) sh1 true rest) as [[sh2 outs] Hr]; [lia|].
    exists (if stays token q then (sh2, out ++ outs) else (sh1, out)).
    intros [|f'] Hf'; [lia|]. cbn [handle_loop]. rewrite Hq, He.
    destruct (stays token q); [|done]. by rewrite Hr by lia.
  - exists (sh, []). intros [|f'] Hf'; [lia|]. cbn [handle_loop]. by rewrite Hq.
Qed.

(** A connection's handler always comes to an end on a finite input: the
    loop needs at most one round per byte, and its result does not depend on
    how many more it is given. *)
Theorem handle_terminates token clk sh inp fuel :
  (length inp < fuel)%nat →
  handle_loop fuel token clk 0 sh (bool_decide (token = None)) inp
  = Some (handle token clk sh inp).
Proof.
  intros Hf. destruct (handle_loop_enough token clk fuel 0 sh (bool_decide (token = None)) inp Hf)
    as [r Hr]. unfold handle. by rewrite !Hr by lia.
Qed.

(** Nothing is served before authentication: when a token is configured and
    the input does not start with the frame that presents it, the shard is left
    untouched and what is sent back (nothing, or the refusal) does not depend
    on the shard's contents. *)
Theorem unauthenticated_inert t clk inp :
  ¬ encode_request (V := V) (Auth (as_bytes t)) `prefix_of` inp →
  ∃ out, (out = [] ∨ out = [byte ST_ABSENT])
    ∧ ∀ sh, handle (V := V) (Some t) clk sh inp = (sh, out).
Proof.
  intros Hno. unfold handle. rewrite bool_decide_eq_false_2 by done. cbn [handle_loop].
  destruct (read_request false inp) as [[q rest]|] eqn:Hq; [|exists []; auto].
  destruct inp as [|o r]; [done|]. unfold read_request in Hq.
  destruct (Z.eqb_spec (byte_val o) OP_AUTH) as [Ho|]; [|done].
  apply bind_Some in Hq as ([p r1] & ->%read_field_inv & [= <- <-]).
  exists [byte ST_ABSENT]. split; [by right|]. intros sh.
  assert (auth_ok (Some t) p = false) as Hp.
  { simpl. apply bool_decide_eq_false_2. intros ->. apply Hno. exists r1.
    cbn [encode_request app]. by rewrite <-Ho, byte_byte_val. }
  cbn [execute stays]. by rewrite Hp.
Qed.

(** *** Remote calls *)

(** What a caller gets back. *)
Inductive answer :=
  | Done
  | Flag (b : bool)
  | Found (o : option V).

(** The calls, as operations of the shard. *)
Definition call (now : Z) sh q : Shard.t St * answer :=
  match q with
  | Get c k => (sh, Found (Shard.object now sh c k))
  | Set_ c k v => (Shard.write_object sh c k v, Done)
  | Sadd c k m => let '(sh', b) := Shard.set_add now sh c k m in (sh', Flag b)
  | Srem c k m => let '(sh', b) := Shard.set_remove now sh c k m in (sh', Flag b)
  | Del c k => (Shard.delete_object sh c k, Done)
  | Auth _ | Ping => (sh, Done)
  end.

Fixpoint call_all (clk : nat → Z) (n : nat) sh (qs : list (request V))
    : Shard.t St * list answer :=
  match qs with
  | [] => (sh, [])
  | q :: qs' =>
      let '(sh1, a) := call (clk n) sh q in
      let '(sh2, rest) := call_all clk (S n) sh1 qs' in (sh2, a :: rest)
  end.

(** The client's side: the answer to a call and the rest of the replies. *)
Definition decode_answer q (inp : bytes) : option (answer * bytes) :=
  match inp with
  | [] => None
  | b :: r =>
      let st := byte_val b in
      match q with
      | Get _ _ =>
          if st =? ST_ABSENT then Some (Found None, r)
          else '(p, r1) ← read_field r; v ← value_from_slice p; Some (Found (Some v), r1)
      | Sadd _ _ _ | Srem _ _ _ => Some (Flag (st =? ST_TRUE), r)
      | _ => if st =? ST_OK then Some (Done, r) else None
      end
  end.

Fixpoint decode_answers (qs : list (request V)) (inp : bytes) : option (list answer) :=
  match qs with
  | [] => match inp with [] => Some [] | _ => None end
  | q :: qs' => '(a, r) ← decode_answer q inp; rest ← decode_answers qs' r; Some (a :: rest)
  end.

Definition answer_ok (a : answer) : Prop :=
  match a with Found (Some v) => value_ok v | _ => True end.

(** The frames a client opens its connection with. *)
Definition login token : list (request V) :=
  match token with Some t => [Auth (as_bytes t)] | None => [] end.

End connection.

Section calls.
Context {V St : Type} `{!IndexStore V St, !IndexStoreLaws V St, !JsonValue V, !WireJson V}.
Implicit Types (sh : Shard.t St) (q : request V) (token : option string).

(** Writes the store can hold. *)
Definition storable q : Prop :=
  match q with
  | Set_ c k v => entry_ok c k v
  | Sadd c k _ | Srem c k _ => ∀ l, entry_ok c k (value_from_strings l)
  | _ => True
  end.

Lemma wf_set_add now sh c k m :
  store_wf (Shard.store sh) → (∀ l, entry_ok c k (value_from_strings l)) →
  store_wf (Shard.store (Shard.set_add now sh c k m).1).
Proof.
  intros Hwf Hok. unfold Shard.set_add, Store.set_add. case_decide; [done|]. by apply wf_put.
Qed.

Lemma wf_set_remove now sh c k m :
  store_wf (Shard.store sh) → (∀ l, entry_ok c k (value_from_strings l)) →
  store_wf (Shard.store (Shard.set_remove now sh c k m).1).
Proof.
  intros Hwf Hok. unfold Shard.set_remove, Store.set_remove. case_match; [done|].
  cbn. case_decide; [by apply wf_delete|by apply wf_put].
Qed.

Lemma write_one sh c k v :
  store_wf (Shard.store sh) → entry_ok c k v →
  Shard.write_batch sh [(c, k, v)] = Shard.write_object sh c k v.
Proof.
  intros Hwf Hok. rewrite Shard.write_batch_spec; [done|done|].
  intros ??? [= -> -> ->]%list_elem_of_singleton. done.
Qed.

Lemma wf_execute token now sh q :
  store_wf (Shard.store sh) → storable q → store_wf (Shard.store (execute token now sh q).1).
Proof.
  intros Hwf Hq. destruct q; cbn [execute fst storable] in *; try done.
  - rewrite write_one by done. by apply wf_put.
  - pose proof (wf_set_add now sh coll0 key0 member Hwf Hq). by destruct (Shard.set_add _ _ _ _ _).
  - pose proof (wf_set_remove now sh coll0 key0 member Hwf Hq).
    by destruct (Shard.set_remove _ _ _ _ _).
  - by apply wf_delete.
Qed.

(** The bytes sent back decode to the answer of the call. *)
Lemma decode_execute token now sh q rest :
  store_wf (Shard.store sh) → storable q → stays token q = true →
  answer_ok (call now sh q).2 →
  (execute token now sh q).1 = (call now sh q).1
  ∧ decode_answer q ((execute token now sh q).2 ++ rest) = Some ((call now sh q).2, rest).
Proof.
  intros Hwf Hq Hs Ha. destruct q; cbn [execute call fst snd stays storable] in *.
  - by rewrite Hs.
  - destruct (Shard.object now sh coll0 key0) as [v|]; [|done]. destruct Ha as [Hv Hf].
    unfold field_ok in Hf. rewrite Z.mod_small by lia.
    split; [done|]. cbn [app decode_answer]. rewrite byte_val_byte by done.
    change (ST_OK =? ST_ABSENT) with false. cbv iota.
    change (write_u32 _ ++ value_to_vec v) with (write_field (value_to_vec v)).
    rewrite read_write_field by done. cbn [mbind option_bind]. by rewrite Hv.
  - by rewrite write_one.
  - destruct (Shard.set_add _ _ _ _ _) as [sh' []]; done.
  - destruct (Shard.set_remove _ _ _ _ _) as [sh' []]; done.
  - done.
  - done.
Qed.

Lemma call_all_served token clk qs : ∀ n sh (authed : bool),
  store_wf (Shard.store sh) → Forall storable qs → Forall request_ok qs →
  Forall (λ q, stays token q = true) qs → Forall answer_ok (call_all clk n sh qs).2 →
  (authed = false → match qs with [] => True | q :: _ => is_auth q = true end) →
  ∀ f, (length (flat_map encode_request qs) < f)%nat →
  ∃ out, handle_loop f token clk n sh authed (flat_map encode_request qs)
         = Some ((call_all clk n sh qs).1, out)
    ∧ decode_answers qs out = Some (call_all clk n sh qs).2.
Proof.
  induction qs as [|q qs IH]; intros n sh authed Hwf Hst Hok Hstay Hans Ha f Hf.
  { exists []. by destruct f; [simpl in Hf; lia|]. }
  apply Forall_cons in Hst as [Hq Hst], Hok as [Hqok Hok], Hstay as [Hs Hstay].
  destruct f as [|f]; [lia|]. cbn [flat_map call_all] in *.
  pose proof (read_encode authed q (flat_map encode_request qs) Hqok) as Hread.
  assert (authed || is_auth q = true) as Ha' by (destruct authed; [done|]; by apply Ha).
  specialize (Hread Ha'). pose proof (read_request_shrinks _ _ _ _ Hread) as Hlen.
  cbn [handle_loop]. rewrite Hread, Hs.
  pose proof (wf_execute token (clk n) sh q Hwf Hq) as Hwf'.
  destruct (call (clk n) sh q) as [sh1 a] eqn:Hc.
  destruct (call_all clk (S n) sh1 qs) as [sh2 as_] eqn:Hcs. cbn [snd] in Hans.
  apply Forall_cons in Hans as [Hans1 Hans2].
  assert (∀ rest, (execute token (clk n) sh q).1 = sh1
    ∧ decode_answer q ((execute token (clk n) sh q).2 ++ rest) = Some (a, rest)) as Hd.
  { intros rest. pose proof (decode_execute token (clk n) sh q rest Hwf Hq Hs) as Hd.
    rewrite Hc in Hd. by apply Hd. }
  destruct (execute token (clk n) sh q) as [sh1' out1].
  cbn [fst snd] in Hd, Hwf'. destruct (Hd []) as [-> _].
  destruct (IH (S n) sh1 true) with (f := f) as (out & Hloop & Hdec); try done; [by rewrite Hcs|lia|].
  rewrite Hcs in Hloop, Hdec. rewrite Hloop. exists (out1 ++ out). split; [done|].
  cbn [decode_answers]. destruct (Hd out) as [_ ->]. cbn [mbind option_bind snd] in *.
  by rewrite Hdec.
Qed.

(** C17. The binary protocol implements remote calls: a client that logs in and
    pipelines any list of well-formed request frames on one connection leaves
    the shard, and decodes from the replies, exactly what calling the shard's
    operations one after the other gives. *)
Theorem pipelined_calls token clk sh qs :
  store_wf (Shard.store sh) → Forall storable qs →
  let all := login token ++ qs in
  Forall request_ok all → Forall (λ q, is_auth q = false) qs →
  Forall answer_ok (call_all clk 0 sh all).2 →
  ∃ out, handle token clk sh (flat_map encode_request all) = ((call_all clk 0 sh all).1, out)
    ∧ decode_answers all out = Some (call_all clk 0 sh all).2.
Proof.
  intros Hwf Hst all Hok Hna Hans.
  assert (Forall storable all) as Hst'.
  { unfold all, login. destruct token; [|done]. by constructor. }
  assert (Forall (λ q, stays token q = true) all) as Hstay.
  { assert (Forall (λ q, stays token q = true) qs).
    { eapply Forall_impl; [exact Hna|]. by intros []. }
    unfold all, login. destruct token; [|done]. constructor; [|done].
    simpl. by apply bool_decide_eq_true. }
  destruct (call_all_served token clk all 0 sh (bool_decide (token = None)) Hwf Hst' Hok Hstay Hans)
    with (f := S (length (flat_map encode_request all))) as (out & Hl & Hd); [|lia|].
  - unfold all, login. by destruct token.
  - exists out. split; [|done]. unfold handle. by rewrite Hl.
Qed.

End calls.

(** ** Group commit *)

Section group_commit.
Context {V St : Type} `{!IndexStore V St, !IndexStoreLaws V St, !JsonValue V, !WireJson V}.
Implicit Types (s : server V St) (tr : list (event V)) (i : nat).

(** The sequential server: one request after the other. *)
Fixpoint run (token : option string) (sh : Shard.t St) tr : Shard.t St * list (nat * bytes) :=
  match tr with
  | [] => (sh, [])
  | (i, now, q) :: tr' =>
      let '(sh1, out) := execute token now sh q in
      let '(sh2, outs) := run token sh1 tr' in (sh2, (i, out) :: outs)
  end.

(** What belongs to connection [i]. *)
Definition own {A} i (l : list (nat * A)) : list A := map snd (filter (λ x, x.1 = i) l).

Definition asked i tr : list (request V) := own i (map (λ '(j, _, q), (j, q)) tr).

Definition queued (r : WriteReq V) : nat * request V :=
  (reply r, Set_ (coll r) (key r) (val r)).

(** Writes read from a connection and not yet committed. *)
Definition pending s : list (nat * request V) := map queued (batch s ++ queue s).

(** [reads token a inp qs a' inp']: a connection in state [a] with input [inp]
    has read the requests [qs], in this order. *)
Inductive reads (token : option string) (a : bool) (inp : bytes)
    : list (request V) → bool → bytes → Prop :=
  | reads_nil : reads token a inp [] a inp
  | reads_snoc qs a1 inp1 q rest :
      reads token a inp qs a1 inp1 → read_request a1 inp1 = Some (q, rest) →
      reads token a inp (qs ++ [q]) (stays token q) rest.

Definition unsent (p : phase) : bytes := match p with Acked => [byte ST_OK] | _ => [] end.

Lemma own_app {A} i (l l' : list (nat * A)) : own i (l ++ l') = own i l ++ own i l'.
Proof. unfold own. by rewrite filter_app, map_app. Qed.

Lemma own_single {A} i j (x : A) : own i [(j, x)] = if decide (j = i) then [x] else [].
Proof.
  unfold own. case_decide; [by rewrite filter_cons_True|by rewrite filter_cons_False].
Qed.

Lemma own_absent {A} i (l : list (nat * A)) : i ∉ map fst l → own i l = [].
Proof.
  intros Hi. unfold own. rewrite filter_none; [done|]. intros [j x] Hx Hj. simpl in *.
  subst. apply Hi. apply list_elem_of_fmap. by exists (i, x).
Qed.

Lemma own_unique {A} i x (l : list (nat * A)) :
  NoDup (map fst l) → (i, x) ∈ l → own i l = [x].
Proof.
  induction l as [|[j y] l IH]; intros Hnd Hin; [by apply not_elem_of_nil in Hin|].
  cbn [map] in Hnd. apply NoDup_cons in Hnd as [Hj Hnd].
  change ((j, y) :: l) with ([(j, y)] ++ l). rewrite own_app. unfold own at 1.
  apply elem_of_cons in Hin as [[= <- <-]|Hin].
  - rewrite own_absent by done. rewrite filter_cons_True by done. done.
  - rewrite (IH Hnd Hin), filter_cons_False; [done|]. simpl. intros ->. apply Hj.
    apply list_elem_of_fmap. by exists (i, x).
Qed.

Lemma run_app token sh tr tr' :
  run token sh (tr ++ tr')
  = let '(sh1, o1) := run token sh tr in
    let '(sh2, o2) := run token sh1 tr' in (sh2, o1 ++ o2).
Proof.
  revert sh. induction tr as [|[[i now] q] tr IH]; intros sh; cbn [app run].
  - by destruct (run token sh tr').
  - destruct (execute token now sh q) as [sh1 out]. rewrite IH.
    destruct (run token sh1 tr) as [sh2 o1]. by destruct (run token sh2 tr').
Qed.

(** A committed batch is its writes, one after the other. *)
Lemma run_batch token now b sh :
  store_wf (Shard.store sh) → Forall (λ r, entry_ok (coll r) (key r) (val r)) b →
  run token sh (map (write_event now) b)
  = (Shard.write_batch sh (map item b), map (λ r, (reply r, [byte ST_OK])) b)
  ∧ store_wf (Shard.store (Shard.write_batch sh (map item b))).
Proof.
  intros Hwf Hok. rewrite Shard.write_batch_spec; [|done|].
  2:{ intros c i v (r & [= -> -> ->] & Hr)%list_elem_of_fmap.
      by eapply Forall_forall in Hok. }
  revert sh Hwf. induction Hok as [|r b Hr Hb IH]; intros sh Hwf; [done|].
  cbn [map foldl run write_event item execute]. rewrite write_one by done.
  destruct (IH (Shard.write_object sh (coll r) (key r) (val r))) as [-> Hwf']; [by apply wf_put|].
  done.
Qed.

Lemma lookup_ack (m : gmap nat conn) l i :
  foldl ack m l !! i
  = if decide (i ∈ l) then (λ c, Conn (authed c) (input c) (output c) Acked) <$> m !! i
    else m !! i.
Proof.
  revert m. induction l as [|j l IH]; intros m; cbn [foldl].
  { by rewrite decide_False by (apply not_elem_of_nil). }
  rewrite IH. unfold ack. destruct (decide (i = j)) as [->|Hij].
  - rewrite (decide_True (P := j ∈ j :: l)) by set_solver. rewrite lookup_alter_eq.
    case_decide; [|done]. by destruct (m !! j).
  - rewrite lookup_alter_ne by done. case_decide.
    + by rewrite decide_True by set_solver.
    + by rewrite decide_False by set_solver.
Qed.

(** A connection has read [qs] and its replies, sent or about to be, are [out]. *)
Definition conn_ok (token : option string) (inputs : gmap nat bytes) i (c : conn)
    (qs : list (request V)) (out : bytes) : Prop :=
  ∃ inp, inputs !! i = Some inp
    ∧ reads token (bool_decide (token = None)) inp qs (authed c) (input c)
    ∧ output c ++ unsent (at_phase c) = out.

Record inv (token : option string) (sh0 : Shard.t St) (inputs : gmap nat bytes) tr s : Prop := {
  inv_shard : shard s = (run token sh0 tr).1;
  inv_wf : store_wf (Shard.store (shard s));
  inv_batch : (length (batch s) ≤ BATCH_MAX)%nat;
  inv_queue : (length (queue s) ≤ CHAN_CAP)%nat;
  inv_nodup : NoDup (map fst (pending s));
  inv_waiting i : i ∈ map fst (pending s)
    ↔ ∃ c, conns s !! i = Some c ∧ at_phase c = Waiting;
  inv_conn i c : conns s !! i = Some c →
    conn_ok token inputs i c (asked i tr ++ own i (pending s))
      (concat (own i (run token sh0 tr).2));
}.

Section inv_steps.
Context (token : option string) (sh0 : Shard.t St) (inputs : gmap nat bytes).
Abbreviation inv := (inv token sh0 inputs).

Lemma inv_start : store_wf (Shard.store sh0) → inv [] (start token sh0 inputs).
Proof.
  intros Hwf. split; cbn; try done; [lia|lia|constructor| |].
  - intros i. split; [by intros ?%not_elem_of_nil|]. intros (c & Hc & Hp).
    rewrite lookup_fmap in Hc. apply fmap_Some in Hc as (inp & _ & ->). done.
  - intros i c Hc. rewrite lookup_fmap in Hc. apply fmap_Some in Hc as (inp & Hi & ->).
    exists inp. split; [done|]. split; [constructor|done].
Qed.

Lemma asked_snoc i tr j now (q : request V) :
  asked i (tr ++ [(j, now, q)]) = asked i tr ++ (if decide (j = i) then [q] else []).
Proof.
  unfold asked. rewrite map_app, own_app. f_equal. apply own_single.
Qed.

Lemma run_snoc tr j now (q : request V) :
  run token sh0 (tr ++ [(j, now, q)])
  = ((execute token now (run token sh0 tr).1 q).1,
     (run token sh0 tr).2 ++ [(j, (execute token now (run token sh0 tr).1 q).2)]).
Proof.
  rewrite run_app. destruct (run token sh0 tr) as [sh1 o]. cbn [run fst snd].
  by destruct (execute token now sh1 q).
Qed.

(** A connection that is not waiting has nothing pending. *)
Lemma not_waiting tr s i c :
  inv tr s → conns s !! i = Some c → at_phase c ≠ Waiting → i ∉ map fst (pending s).
Proof.
  intros Hi Hc Hp Hin. apply (inv_waiting _ _ _ _ _ Hi) in Hin as (c' & Hc' & ?). congruence.
Qed.

(** Replacing connection [i] by one that waits as little as before. *)
Lemma waiting_insert tr s i c c' :
  inv tr s → conns s !! i = Some c → at_phase c ≠ Waiting → at_phase c' ≠ Waiting →
  ∀ j, j ∈ map fst (pending s)
    ↔ ∃ d, <[i := c']> (conns s) !! j = Some d ∧ at_phase d = Waiting.
Proof.
  intros Hi Hc Hp Hp' j. rewrite (inv_waiting _ _ _ _ _ Hi). destruct (decide (i = j)) as [<-|Hij].
  - rewrite lookup_insert_eq. naive_solver.
  - by rewrite lookup_insert_ne.
Qed.

Lemma inv_serve tr s i c q rest now :
  inv tr s → conns s !! i = Some c → at_phase c = Reading →
  read_request (authed c) (input c) = Some (q, rest) → storable q →
  inv (tr ++ [(i, now, q)])
    (Server (execute token now (shard s) q).1 (queue s) (batch s)
       (<[i := Conn (stays token q) rest (output c ++ (execute token now (shard s) q).2)
                 (if stays token q then Reading else Closed)]> (conns s))).
Proof.
  intros Hi Hc Hp Hq Hst. pose proof (inv_shard _ _ _ _ _ Hi) as Hsh. rewrite Hsh.
  assert (at_phase c ≠ Waiting) as Hnw by (by rewrite Hp).
  split; cbn [shard queue batch conns]; try apply Hi.
  - by rewrite run_snoc.
  - apply wf_execute; [|done]. rewrite <-Hsh. apply Hi.
  - apply (waiting_insert tr s i c); [done..|]. simpl. by case_match.
  - intros j d Hd. rewrite asked_snoc, run_snoc. cbn [snd]. rewrite own_app, concat_app.
    destruct (decide (i = j)) as [<-|Hij].
    + rewrite lookup_insert_eq in Hd. injection Hd as <-.
      destruct (inv_conn _ _ _ _ _ Hi i c Hc) as (inp & Hinp & Hr & Ho).
      pose proof (not_waiting _ _ _ _ Hi Hc Hnw) as Hni.
      change (pending (Server _ (queue s) (batch s) _)) with (pending s).
      rewrite own_absent in Hr |- * by done. rewrite app_nil_r in Hr |- *.
      exists inp. split; [done|]. split; [by eapply reads_snoc|]. cbn [output at_phase].
      rewrite Hp in Ho. rewrite <-Ho. rewrite own_single, !decide_True by done. simpl.
      case_match; simpl; by rewrite !app_nil_r.
    + rewrite lookup_insert_ne in Hd by done.
      rewrite own_single, !decide_False by done. cbn [concat]. rewrite !app_nil_r.
      by apply (inv_conn _ _ _ _ _ Hi).
Qed.

(** Steps of one connection that execute nothing and leave the queue alone. *)
Lemma inv_local tr s i c c' :
  inv tr s → conns s !! i = Some c → at_phase c ≠ Waiting → at_phase c' ≠ Waiting →
  authed c' = authed c → input c' = input c →
  output c' ++ unsent (at_phase c') = output c ++ unsent (at_phase c) →
  inv tr (set_conn s i c').
Proof.
  intros Hi Hc Hp Hp' Ha Hin Ho. split; try apply Hi.
  - by apply (waiting_insert tr s i c).
  - intros j d Hd. cbn in Hd. destruct (decide (i = j)) as [<-|Hij].
    + rewrite lookup_insert_eq in Hd. injection Hd as <-.
      destruct (inv_conn _ _ _ _ _ Hi i c Hc) as (inp & Hinp & Hr & Hout).
      exists inp. rewrite Ha, Hin, Ho. done.
    + rewrite lookup_insert_ne in Hd by done. by apply (inv_conn _ _ _ _ _ Hi).
Qed.

Lemma inv_send tr s i c q rest cl k v :
  inv tr s → conns s !! i = Some c → at_phase c = Reading →
  read_request (authed c) (input c) = Some (q, rest) → is_write q = Some (cl, k, v) →
  (length (queue s) < CHAN_CAP)%nat →
  inv tr (Server (shard s) (queue s ++ [mkWrite cl k v i]) (batch s)
            (<[i := Conn true rest (output c) Waiting]> (conns s))).
Proof.
  intros Hi Hc Hp Hq Hw Hcap. destruct q; try done. injection Hw as -> -> ->.
  assert (at_phase c ≠ Waiting) as Hnw by (by rewrite Hp).
  pose proof (not_waiting _ _ _ _ Hi Hc Hnw) as Hni.
  assert (Hpend : ∀ m, pending (Server (shard s) (queue s ++ [mkWrite cl k v i]) (batch s) m)
    = pending s ++ [(i, Set_ cl k v)]).
  { intros m. unfold pending. cbn. by rewrite !map_app, <-app_assoc. }
  split; cbn [shard queue batch conns]; rewrite ?Hpend; try apply Hi.
  - rewrite length_app. simpl. lia.
  - rewrite map_app. apply NoDup_app. split; [apply Hi|]. split; [|apply NoDup_singleton].
    intros x Hx ->%list_elem_of_singleton. done.
  - intros j. rewrite map_app, elem_of_app, (inv_waiting _ _ _ _ _ Hi).
    cbn [map fst]. rewrite list_elem_of_singleton. destruct (decide (i = j)) as [<-|Hij].
    + rewrite lookup_insert_eq. split; [by eexists|by right].
    + rewrite lookup_insert_ne by done. naive_solver.
  - intros j d Hd. rewrite own_app, app_assoc. destruct (decide (i = j)) as [<-|Hij].
    + rewrite lookup_insert_eq in Hd. injection Hd as <-.
      destruct (inv_conn _ _ _ _ _ Hi i c Hc) as (inp & Hinp & Hr & Ho).
      exists inp. split; [done|]. rewrite Hp in Ho. split; [|done].
      rewrite own_single, decide_True by done. exact (reads_snoc _ _ _ _ _ _ _ _ Hr Hq).
    + rewrite lookup_insert_ne in Hd by done. rewrite own_single, decide_False by done.
      rewrite app_nil_r. by apply (inv_conn _ _ _ _ _ Hi).
Qed.

Lemma inv_recv tr s r rs :
  inv tr s → queue s = r :: rs → (length (batch s) < BATCH_MAX)%nat →
  inv tr (Server (shard s) rs (batch s ++ [r]) (conns s)).
Proof.
  intros Hi Hq Hb.
  assert (Hpend : ∀ m, pending (Server (shard s) rs (batch s ++ [r]) m) = pending s).
  { intros m. unfold pending. cbn. by rewrite Hq, <-app_assoc. }
  pose proof (inv_queue _ _ _ _ _ Hi) as Hlen. rewrite Hq in Hlen.
  split; cbn [shard queue batch conns]; rewrite ?Hpend; try apply Hi.
  - rewrite length_app. simpl. lia.
  - simpl in Hlen. lia.
Qed.

Lemma asked_batch i tr now (b : list (WriteReq V)) :
  asked i (tr ++ map (write_event now) b) = asked i tr ++ own i (map queued b).
Proof. unfold asked. rewrite map_app, own_app, map_map. done. Qed.

Lemma fst_queued (b : list (WriteReq V)) : map fst (map queued b) = map reply b.
Proof. by rewrite map_map. Qed.

Lemma inv_commit tr s now :
  inv tr s → Forall (λ r, entry_ok (coll r) (key r) (val r)) (batch s) →
  inv (tr ++ map (write_event now) (batch s))
    (Server (Shard.write_batch (shard s) (map item (batch s))) (queue s) []
       (foldl ack (conns s) (map reply (batch s)))).
Proof.
  intros Hi Hok. pose proof (inv_shard _ _ _ _ _ Hi) as Hsh.
  pose proof (inv_nodup _ _ _ _ _ Hi) as Hnd. unfold pending in Hnd.
  rewrite map_app, map_app, !fst_queued in Hnd. apply NoDup_app in Hnd as (Hnb & Hdis & Hnq).
  destruct (run_batch token now (batch s) (shard s) (inv_wf _ _ _ _ _ Hi) Hok) as [Hrun Hwf].
  assert (Hall : run token sh0 (tr ++ map (write_event now) (batch s))
    = (Shard.write_batch (shard s) (map item (batch s)),
       (run token sh0 tr).2 ++ map (λ r, (reply r, [byte ST_OK])) (batch s))).
  { rewrite run_app. destruct (run token sh0 tr) as [sh1 o1]. cbn [fst] in Hsh.
    rewrite <-Hsh, Hrun. done. }
  assert (Hin : ∀ i, i ∈ map reply (batch s) → ∃ c, conns s !! i = Some c ∧ at_phase c = Waiting).
  { intros i Hb. apply (inv_waiting _ _ _ _ _ Hi). unfold pending.
    rewrite map_app, map_app, !fst_queued. set_solver. }
  split; cbn [shard queue batch conns]; try apply Hi; rewrite ?Hall; cbn [fst snd]; try done;
    [simpl; lia|by unfold pending; rewrite fst_queued| |].
  - intros i. unfold pending. cbn [batch queue app]. rewrite fst_queued, lookup_ack. split.
    + intros Hq. rewrite decide_False by (intros ?; by eapply Hdis).
      apply (inv_waiting _ _ _ _ _ Hi). unfold pending.
      rewrite map_app, map_app, !fst_queued. set_solver.
    + intros (c & Hc & Hp). case_decide as Hb.
      * destruct (Hin i Hb) as (c' & Hc' & _). rewrite Hc' in Hc. by simplify_eq/=.
      * assert (i ∈ map fst (pending s)) as Hpi by (apply Hi; by exists c). unfold pending in Hpi.
        rewrite map_app, map_app, !fst_queued in Hpi. set_solver.
  - intros i c Hc. rewrite lookup_ack in Hc. rewrite asked_batch, own_app, concat_app.
    unfold pending. cbn [batch queue app]. rewrite <-app_assoc, <-own_app, <-map_app.
    case_decide as Hb.
    + destruct (Hin i Hb) as (c' & Hc' & Hp). rewrite Hc' in Hc. simplify_eq/=.
      destruct (inv_conn _ _ _ _ _ Hi i c' Hc') as (inp & Hinp & Hr & Ho).
      exists inp. split; [done|]. split; [done|]. rewrite Hp in Ho. cbn [output at_phase unsent].
      rewrite app_nil_r in Ho. rewrite Ho. rewrite (own_unique i [byte ST_OK] (map _ _)); [done|by rewrite map_map|].
      apply list_elem_of_fmap in Hb as (r & -> & Hr'). apply list_elem_of_fmap. by exists r.
    + rewrite (own_absent i (map (λ r, (reply r, [byte ST_OK])) (batch s))) by (by rewrite map_map).
      rewrite app_nil_r. by apply (inv_conn _ _ _ _ _ Hi).
Qed.

Lemma inv_step tr s l s' :
  inv tr s → step token s l s' → Forall (λ e, storable e.2) l → inv (tr ++ l) s'.
Proof.
  intros Hi [Hs|Hs] Hl.
  - destruct Hs as [s i c q rest now sh' out Hc Hp Hq Hw He|s i c Hc Hp Hq
      |s i c q rest cl k v Hc Hp Hq Hw Hcap|s i c Hc Hp].
    + replace sh' with (execute token now (shard s) q).1 by (by rewrite He).
      replace out with (execute token now (shard s) q).2 by (by rewrite He).
      apply (inv_serve tr s i c); try done. by inversion Hl.
    + rewrite app_nil_r. apply (inv_local tr s i c); try done; rewrite Hp; done.
    + rewrite app_nil_r. by eapply inv_send.
    + rewrite app_nil_r. apply (inv_local tr s i c); try done; rewrite Hp; [done|].
      cbn [output at_phase unsent]. by rewrite app_nil_r.
  - destruct Hs as [s r rs Hq Hb|s now Hb Hfull].
    + rewrite app_nil_r. by apply inv_recv.
    + apply inv_commit; [done|]. by rewrite Forall_map in Hl.
Qed.

Lemma inv_steps_from tr0 s0 tr s :
  inv tr0 s0 → steps (step token) s0 tr s → Forall (λ e, storable e.2) tr → inv (tr0 ++ tr) s.
Proof.
  intros H0. induction 1 as [|tr s l s' Hs IH Hstep]; intros Hall; [by rewrite app_nil_r|].
  apply Forall_app in Hall as [Hall Hl]. rewrite app_assoc. by eapply inv_step; [apply IH| |].
Qed.

End inv_steps.


(** *** Progress *)

Lemma steps_cons (R : server V St → list (event V) → server V St → Prop) s l s1 tr s' :
  R s l s1 → steps R s1 tr s' → steps R s (l ++ tr) s'.
Proof.
  intros Hl. induction 1 as [|tr s2 l2 s3 _ IH H3].
  - rewrite app_nil_r. eapply (steps_snoc _ _ []); [apply steps_refl|done].
  - rewrite app_assoc. by eapply steps_snoc.
Qed.

(** The writer, from [s], answers connection [i]. *)
Definition answered s i : Prop :=
  ∃ tr s' c, steps writer_loop s tr s' ∧ conns s' !! i = Some c ∧ at_phase c = Acked.

Lemma answered_cons s l s1 i : writer_loop s l s1 → answered s1 i → answered s i.
Proof. intros Hl (tr & s' & c & Hs & Hc). exists (l ++ tr), s', c. split; [|done]. by eapply steps_cons. Qed.

(** The writer alone drains what is pending: after the rounds that commit the
    batch and the queue, connection [i] has been answered. *)
Lemma writer_drains i : ∀ n s,
  (length (queue s) ≤ n)%nat → (length (batch s) ≤ BATCH_MAX)%nat →
  i ∈ map fst (pending s) → is_Some (conns s !! i) → answered s i.
Proof.
  assert (Hcommit : ∀ s, i ∈ map reply (batch s) → (length (batch s) = BATCH_MAX ∨ queue s = []) →
    is_Some (conns s !! i) → answered s i).
  { intros s Hin Hfull [c Hc]. eexists _, _, _. split_and!.
    - eapply steps_snoc; [apply steps_refl|]. apply (writer_commit s 0); [|done].
      intros E. rewrite E in Hin. by apply not_elem_of_nil in Hin.
    - cbn [conns]. rewrite lookup_ack, decide_True, Hc by done. done.
    - done. }
  induction n as [|n IH]; intros s Hn Hb Hin Hc; unfold pending in Hin;
    rewrite map_app, map_app, !fst_queued, elem_of_app in Hin.
  - destruct (queue s) as [|r rs] eqn:Hq; [|simpl in Hn; lia].
    apply Hcommit; [|by right|done]. destruct Hin as [?|Hin]; [done|].
    by apply not_elem_of_nil in Hin.
  - destruct (queue s) as [|r rs] eqn:Hq.
    { apply Hcommit; [|by right|done]. destruct Hin as [?|Hin]; [done|].
      by apply not_elem_of_nil in Hin. }
    destruct (decide (length (batch s) = BATCH_MAX)) as [Hfull|Hfull].
    + destruct (decide (i ∈ map reply (batch s))) as [Hi|Hi]; [by apply Hcommit; [|left|]|].
      destruct Hin as [?|Hin]; [done|].
      assert (batch s ≠ []) as Hne by (intros E; by rewrite E in Hfull).
      pose proof (writer_commit s 0 Hne (or_introl Hfull)) as Hstep.
      eapply answered_cons; [exact Hstep|]. rewrite Hq in *.
      set (s1 := Server _ _ _ _).
      assert (is_Some (conns s1 !! i)) as Hc1.
      { unfold s1. cbn [conns]. rewrite lookup_ack, decide_False; done. }
      eapply answered_cons; [apply (writer_recv s1 r rs); [done|unfold s1; simpl; unfold BATCH_MAX; lia]|].
      apply IH; cbn [queue batch conns]; [simpl in Hn; lia|unfold s1; simpl; unfold BATCH_MAX; lia| |done].
      unfold pending. cbn [queue batch]. unfold s1. cbn [batch app]. by rewrite fst_queued.
    + eapply answered_cons; [apply (writer_recv s r rs); [done|lia]|].
      apply IH; cbn [queue batch conns]; [simpl in Hn; lia|rewrite length_app; simpl; lia| |done].
      unfold pending. cbn [queue batch]. rewrite fst_queued, !map_app. set_solver.
Qed.


End group_commit.

End Proto.
