(* ===== verification/Resp.v ===== *)
(** * The Redis-compatible front end ([src/src/resp.rs])

    Commands arrive as RESP arrays of bulk strings, or as inline lines of words;
    they run on the shard's collection [kv] and are answered with RESP values.
    The file models the encoders, the request parser, every command and the loop
    of a connection.  A command takes its clock readings from [clk]: a command
    that loops over its arguments reads the clock once per argument. *)

From S2P Require Import Prelude Machine Text Wire Store Shard.

Local Open Scope Z_scope.

Module Resp.

Definition COLL : string := "kv".

(** ** Bytes *)

Definition CR : ascii := byte 13.
Definition LF : ascii := byte 10.
Definition CRLF : bytes := [CR; LF].

(** [str::to_ascii_uppercase], [str::to_ascii_lowercase]. *)
Definition ascii_upper (a : ascii) : ascii :=
  let v := byte_val a in if (97 <=? v) && (v <=? 122) then byte (v - 32) else a.
Definition ascii_lower (a : ascii) : ascii :=
  let v := byte_val a in if (65 <=? v) && (v <=? 90) then byte (v + 32) else a.

Definition map_string (f : ascii → ascii) (s : string) : string := text (map f (as_bytes s)).
Definition to_upper : string → string := map_string ascii_upper.
Definition to_lower : string → string := map_string ascii_lower.

(** [u8::is_ascii_whitespace]. *)
Definition is_space (a : ascii) : bool :=
  let v := byte_val a in (v =? 32) || (v =? 9) || (v =? 10) || (v =? 12) || (v =? 13).

Definition s (b : bytes) : string := lossy_text b.

Definition usize_to_string (n : nat) : string := u64_to_string (Z.of_nat n).

(** ** Encoders *)

Definition simple (t : string) : bytes := ("+"%char :: as_bytes t) ++ CRLF.
Definition err (t : string) : bytes := ("-"%char :: as_bytes t) ++ CRLF.
Definition int (n : Z) : bytes := (":"%char :: as_bytes (i64_to_string n)) ++ CRLF.

Definition bulk (data : option bytes) : bytes :=
  match data with
  | Some d => ("$"%char :: as_bytes (usize_to_string (length d))) ++ CRLF ++ d ++ CRLF
  | None => as_bytes "$-1" ++ CRLF
  end.

Definition array_header (n : nat) : bytes := ("*"%char :: as_bytes (usize_to_string n)) ++ CRLF.

(** ** The request parser *)

(** [read_until(b'\n')]: up to and including the delimiter, or to the end. *)
Fixpoint read_until (inp : bytes) : bytes * bytes :=
  match inp with
  | [] => ([], [])
  | a :: r =>
      if decide (a = LF) then ([a], r) else let '(l, r') := read_until r in (a :: l, r')
  end.

Definition is_eol (a : ascii) : bool := bool_decide (a = LF) || bool_decide (a = CR).

Fixpoint drop_eol (l : bytes) : bytes :=
  match l with a :: l' => if is_eol a then drop_eol l' else l | [] => [] end.

(** The next line without its trailing line ends; [None] at end of file. *)
Definition read_line (inp : bytes) : option (bytes * bytes) :=
  match inp with
  | [] => None
  | _ => let '(l, r) := read_until inp in Some (reverse (drop_eol (reverse l)), r)
  end.

(** What reading a command comes to: a command; the end of the connection
    ([Ok(None)]); an I/O error; or a panic (an allocation larger than
    [isize::MAX] bytes), which ends the task. *)
Inductive read_result :=
  | Cmd (args : list bytes) (rest : bytes)
  | End
  | IoError
  | Panic.

Definition isize_max : Z := 2 ^ 63 - 1.

(** [size_of::<Vec<u8>>()]. *)
Definition VEC_SIZE : Z := 24.

Definition parse_usize_or (d : Z) (b : bytes) : Z := default d (parse_u64 (s b)).

(** The loop over the announced number of bulk strings; each round reads at
    least a line. *)
Fixpoint read_bulks (fuel : nat) (n : Z) (inp : bytes) (args : list bytes) : read_result :=
  match fuel with
  | O => End
  | S f =>
      if n <=? 0 then Cmd args inp
      else
        match read_line inp with
        | Some (h :: len, r) =>
            if decide (h = "$"%char) then
              let len := parse_usize_or 0 len in
              if isize_max <? len then Panic
              else
                match read_exact len r with
                | None => IoError
                | Some (data, r1) =>
                    match read_exact 2 r1 with
                    | None => IoError
                    | Some (_, r2) => read_bulks f (n - 1) r2 (args ++ [data])
                    end
                end
            else End
        | _ => End
        end
  end.

(** [line.split(is_ascii_whitespace).filter(non-empty)]. *)
Fixpoint words_go (l : bytes) (w : bytes) : list bytes :=
  match l with
  | [] => match w with [] => [] | _ => [w] end
  | a :: l' =>
      if is_space a then match w with [] => words_go l' [] | _ => w :: words_go l' [] end
      else words_go l' (w ++ [a])
  end.

Definition words (l : bytes) : list bytes := words_go l [].

Definition read_command (inp : bytes) : read_result :=
  match read_line inp with
  | None => End
  | Some ([], r) => Cmd [] r
  | Some (h :: l, r) =>
      if decide (h = "*"%char) then
        let n := parse_usize_or 0 l in
        if isize_max <? n * VEC_SIZE then Panic else read_bulks (S (length r)) n r []
      else Cmd (words (h :: l)) r
  end.

(** ** The commands *)

Section commands.
Context {V St : Type} `{!IndexStore V St, !JsonValue V, !WireJson V}.
Implicit Types (sh : Shard.t St) (clk : nat → Z) (args : list bytes).

(** A JSON string as its raw text, anything else as JSON. *)
Definition bulk_value (v : option V) : bytes :=
  match v with
  | None => bulk None
  | Some v =>
      match value_as_str v with
      | Some t => bulk (Some (as_bytes t))
      | None => bulk (Some (value_to_vec v))
      end
  end.

Definition set_members (now : Z) sh (key : string) : list string :=
  match Shard.object now sh COLL key ≫= value_as_array with
  | Some a => omap value_as_str a
  | None => []
  end.

(** [scan_range] with a [usize] limit: at most as many keys as there are. *)
Definition scan_usize (now : Z) sh (after prefix end_ : option string) (limit : Z) : list string :=
  Shard.scan_range now sh COLL after prefix end_
    (Z.to_nat (Z.min limit (Z.of_nat (length (scan_entries now (Shard.store sh) COLL))))).

(** The EX / PX options of SET; the seconds are multiplied without a check. *)
Fixpoint set_ttl (opts : list bytes) (ttl_ms : Z) : Z :=
  match opts with
  | o :: v :: rest =>
      let o := to_upper (s o) in
      set_ttl rest
        (if String.eqb o "EX" then u64_mul (parse_usize_or 0 v) 1000
         else if String.eqb o "PX" then parse_usize_or 0 v
         else ttl_ms)
  | _ => ttl_ms
  end.

Fixpoint del_loop clk (i : nat) sh (keys : list bytes) (n : Z) : Shard.t St * Z :=
  match keys with
  | [] => (sh, n)
  | k :: keys' =>
      match Shard.object (clk i) sh COLL (s k) with
      | Some _ => del_loop clk (S i) (Shard.delete_object sh COLL (s k)) keys' (n + 1)
      | None => del_loop clk (S i) sh keys' n
      end
  end.

Fixpoint exists_loop clk (i : nat) sh (keys : list bytes) : Z :=
  match keys with
  | [] => 0
  | k :: keys' =>
      (match Shard.object (clk i) sh COLL (s k) with Some _ => 1 | None => 0 end)
      + exists_loop clk (S i) sh keys'
  end.

(** SADD and SREM: [op] on every member, counting the ones it changed. *)
Fixpoint member_loop (op : Z → Shard.t St → string → string → string → Shard.t St * bool)
    clk (i : nat) sh (key : string) (ms : list bytes) (n : Z) : Shard.t St * Z :=
  match ms with
  | [] => (sh, n)
  | m :: ms' =>
      let '(sh', changed) := op (clk i) sh COLL key (s m) in
      member_loop op clk (S i) sh' key ms' (if changed : bool then n + 1 else n)
  end.

Definition incr_reply (x : Shard.t St * option Z) : Shard.t St * bytes :=
  (x.1, match x.2 with
        | Some v => int v
        | None => err "ERR value is not an integer or out of range"
        end).

Definition trim_stars (t : string) : string :=
  text (reverse ((fix go (l : bytes) : bytes :=
                    match l with
                    | a :: l' => if decide (a = "*"%char) then go l' else l
                    | [] => []
                    end) (reverse (as_bytes t)))).

(** The COUNT / MATCH options of SCAN. *)
Fixpoint scan_opts (opts : list bytes) (count : Z) (prefix : option string)
    : Z * option string :=
  match opts with
  | o :: v :: rest =>
      let o := to_upper (s o) in
      if String.eqb o "COUNT" then scan_opts rest (parse_usize_or 10 v) prefix
      else if String.eqb o "MATCH" then scan_opts rest count (Some (trim_stars (s v)))
      else scan_opts rest count prefix
  | _ => (count, prefix)
  end.

(** One page: the keys, and the cursor of the next page. *)
Definition scan_page (now : Z) sh (cursor : string) (count : Z) (prefix : option string)
    : string * list string :=
  let after := if String.eqb cursor "0" then None else Some cursor in
  let keys := scan_usize now sh after prefix None count in
  (if Z.of_nat (length keys) <? count then "0"%string else default "0"%string (last keys), keys).

Definition bulks (l : list string) : bytes := concat (map (λ t, bulk (Some (as_bytes t))) l).

(** A command of an authenticated connection, by name and number of
    arguments; [AUTH] and [QUIT] are handled by the loop. *)
Definition exec_command clk sh (cmd : string) args : Shard.t St * bytes :=
  let cmd_is := String.eqb cmd in
  let n := length args in
  let arg i := nth i args [] in
  let now := clk O in
  if cmd_is "PING" then (sh, if (1 <? n)%nat then bulk (Some (arg 1%nat)) else simple "PONG")
  else if cmd_is "SELECT" || cmd_is "CLIENT" then (sh, simple "OK")
  else if cmd_is "HELLO" then (sh, err "ERR unknown command 'HELLO'")
  else if cmd_is "COMMAND" then (sh, array_header 0)
  else if cmd_is "INFO" then
    (sh, bulk (Some (as_bytes "# Server" ++ CRLF ++ as_bytes "stplr_resp:1" ++ CRLF)))
  else if cmd_is "DBSIZE" then
    (sh, int (Z.of_nat (length (scan_usize now sh None None None (u64_modulus - 1)))))
  else if cmd_is "GET" && (n =? 2)%nat then
    (sh, bulk_value (Shard.object now sh COLL (s (arg 1%nat))))
  else if cmd_is "SET" && (3 <=? n)%nat then
    let key := s (arg 1%nat) in
    let val := value_from_str (s (arg 2%nat)) in
    let ttl_ms := set_ttl (drop 3 args) 0 in
    (if 0 <? ttl_ms then Shard.write_object_ttl now sh COLL key val ttl_ms
     else Shard.write_object sh COLL key val, simple "OK")
  else if cmd_is "GETSET" && (n =? 3)%nat then
    let key := s (arg 1%nat) in
    (Shard.write_object sh COLL key (value_from_str (s (arg 2%nat))),
     bulk_value (Shard.object now sh COLL key))
  else if cmd_is "DEL" && (2 <=? n)%nat then
    let '(sh', k) := del_loop clk 0 sh (drop 1 args) 0 in (sh', int k)
  else if cmd_is "EXISTS" && (2 <=? n)%nat then (sh, int (exists_loop clk 0 sh (drop 1 args)))
  else if (cmd_is "INCR" || cmd_is "DECR") && (n =? 2)%nat then
    incr_reply (Shard.incr now sh COLL (s (arg 1%nat)) (if cmd_is "INCR" then 1 else -1))
  else if (cmd_is "INCRBY" || cmd_is "DECRBY") && (n =? 3)%nat then
    match parse_i64 (s (arg 2%nat)) with
    | None => (sh, err "ERR value is not an integer or out of range")
    | Some by_ =>
        incr_reply (Shard.incr now sh COLL (s (arg 1%nat))
                      (if cmd_is "INCRBY" then by_ else i64_wrap (- by_)))
    end
  else if cmd_is "SADD" && (3 <=? n)%nat then
    let '(sh', k) := member_loop Shard.set_add clk 0 sh (s (arg 1%nat)) (drop 2 args) 0 in
    (sh', int k)
  else if cmd_is "SREM" && (3 <=? n)%nat then
    let '(sh', k) := member_loop Shard.set_remove clk 0 sh (s (arg 1%nat)) (drop 2 args) 0 in
    (sh', int k)
  else if cmd_is "SMEMBERS" && (n =? 2)%nat then
    let members := set_members now sh (s (arg 1%nat)) in
    (sh, array_header (length members) ++ bulks members)
  else if cmd_is "SCARD" && (n =? 2)%nat then
    (sh, int (Z.of_nat (length (set_members now sh (s (arg 1%nat))))))
  else if cmd_is "SISMEMBER" && (n =? 3)%nat then
    (sh, int (if decide (s (arg 2%nat) ∈ set_members now sh (s (arg 1%nat))) then 1 else 0))
  else if cmd_is "SCAN" && (2 <=? n)%nat then
    let '(count, prefix) := scan_opts (drop 2 args) 10 None in
    let '(next, keys) := scan_page now sh (s (arg 1%nat)) count prefix in
    (sh, array_header 2 ++ bulk (Some (as_bytes next)) ++ array_header (length keys) ++ bulks keys)
  else if cmd_is "TYPE" && (n =? 2)%nat then
    (sh, simple (match Shard.object now sh COLL (s (arg 1%nat)) with
                 | None => "none"
                 | Some v => match value_as_array v with Some _ => "set" | None => "string" end
                 end))
  else (sh, err ("ERR unknown command '" ++ to_lower cmd ++ "'")).

(** [matches!(cmd, "AUTH" | "PING" | "QUIT" | "HELLO")]. *)
Definition open_command (cmd : string) : bool :=
  String.eqb cmd "AUTH" || String.eqb cmd "PING" || String.eqb cmd "QUIT" || String.eqb cmd "HELLO".

Definition password_ok (t : string) args : bool :=
  (2 <=? length args)%nat && bool_decide (last args = Some (as_bytes t)).

(** One round on a non-empty command: the shard, the [authed] flag, the reply,
    and whether the loop goes on. *)
Definition run_command (token : option string) clk sh (authed : bool) args
    : Shard.t St * bool * bytes * bool :=
  let cmd := to_upper (s (nth 0 args [])) in
  if negb authed && negb (open_command cmd) then
    (sh, authed, err "NOAUTH Authentication required.", true)
  else if String.eqb cmd "AUTH" then
    match token with
    | Some t =>
        if password_ok t args then (sh, true, simple "OK", true)
        else (sh, authed, err "WRONGPASS invalid username-password pair", true)
    | None => (sh, authed, err "ERR Client sent AUTH, but no password is set", true)
    end
  else if String.eqb cmd "QUIT" then (sh, authed, simple "OK", false)
  else let '(sh', out) := exec_command clk sh cmd args in (sh', authed, out, true).

(** The loop; [clk] gives the clock readings of each round.  [None] when the
    fuel runs out. *)
Fixpoint handle_loop (fuel : nat) (token : option string) (clk : nat → nat → Z) (n : nat)
    sh (authed : bool) (inp : bytes) : option (Shard.t St * bytes) :=
  match fuel with
  | O => None
  | S f =>
      match read_command inp with
      | Cmd [] rest => handle_loop f token clk (S n) sh authed rest
      | Cmd args rest =>
          let '(sh1, authed1, out, go) := run_command token (clk n) sh authed args in
          if go : bool then
            '(sh2, outs) ← handle_loop f token clk (S n) sh1 authed1 rest; Some (sh2, out ++ outs)
          else Some (sh1, out)
      | End | IoError | Panic => Some (sh, [])
      end
  end.

Definition handle (token : option string) (clk : nat → nat → Z) sh (inp : bytes)
    : Shard.t St * bytes :=
  default (sh, []) (handle_loop (S (length inp)) token clk 0 sh (bool_decide (token = None)) inp).

(** The seconds of EX wrap around when they are scaled: 2^61 of them make a
    deadline of 0, and the key is stored for ever. *)
Lemma set_ex_wraps clk sh (name k v : bytes) :
  exec_command clk sh "SET" [name; k; v; as_bytes "EX"; as_bytes "2305843009213693952"]
  = (Shard.write_object sh COLL (s k) (value_from_str (s v)), simple "OK").
Proof. done. Qed.

(** An option value that is no number counts as none, without an error. *)
Lemma set_ex_not_a_number clk sh (name k v : bytes) :
  exec_command clk sh "SET" [name; k; v; as_bytes "EX"; as_bytes "soon"]
  = (Shard.write_object sh COLL (s k) (value_from_str (s v)), simple "OK").
Proof. done. Qed.

End commands.

(** ** Reading what was written *)

Definition plain (b : bytes) : bool := forallb (λ a, negb (is_eol a)) b.

(** A decimal digit. *)
Definition digit (a : ascii) : bool := (48 <=? byte_val a) && (byte_val a <=? 57).

Lemma digit_byte_val d : 0 ≤ d < 10 → byte_val (digit_char d) = 48 + d.
Proof.
  intros. unfold byte_val, digit_char. rewrite N_ascii_embedding by lia. lia.
Qed.

Lemma dec_go_digits f n acc :
  0 ≤ n → forallb digit (as_bytes acc) = true → forallb digit (as_bytes (dec_go f n acc)) = true.
Proof.
  revert n acc. induction f as [|f IH]; intros n acc Hn Hacc; [done|]. cbn [dec_go].
  pose proof (Z.mod_pos_bound n 10).
  assert (forallb digit (as_bytes (String (digit_char (n mod 10)) acc)) = true) as Hacc'.
  { change (as_bytes (String ?a acc)) with (a :: as_bytes acc).
    cbn [forallb]. rewrite Hacc, andb_true_r. unfold digit. rewrite digit_byte_val by lia.
    apply andb_true_iff. split; apply Z.leb_le; lia. }
  case_match; [done|]. apply IH; [apply Z.div_pos; lia|done].
Qed.

Lemma digit_plain a : digit a = true → is_eol a = false ∧ (byte_val a <? 128) = true.
Proof.
  unfold digit, is_eol. intros [H1 H2]%andb_true_iff. apply Z.leb_le in H1, H2.
  split; [|by apply Z.ltb_lt; lia]. apply orb_false_iff.
  split; apply bool_decide_eq_false_2; intros ->; by vm_compute in H1.
Qed.

Lemma digits_plain b : forallb digit b = true → plain b = true.
Proof.
  unfold plain. rewrite !forallb_forall. intros H a Ha.
  destruct (digit_plain a (H a Ha)) as [-> _]. done.
Qed.

Lemma digits_text b : forallb digit b = true → s b = text b.
Proof.
  intros H. unfold s, lossy_text. apply from_utf8_lossy_ascii.
  change (String.list_ascii_of_string (text b)) with (as_bytes (text b)). rewrite as_bytes_text.
  apply forallb_forall. rewrite forallb_forall in H. intros a Ha. by apply digit_plain, H.
Qed.

Lemma usize_digits n : forallb digit (as_bytes (usize_to_string n)) = true.
Proof. apply dec_go_digits; [lia|done]. Qed.

Lemma parse_usize n d :
  Z.of_nat n < u64_modulus → parse_usize_or d (as_bytes (usize_to_string n)) = Z.of_nat n.
Proof.
  intros Hn. unfold parse_usize_or. rewrite digits_text, text_as_bytes by apply usize_digits.
  unfold usize_to_string. rewrite u64_string_roundtrip by (split; lia). done.
Qed.

Lemma read_until_line l r : plain l = true → read_until (l ++ CRLF ++ r) = (l ++ CRLF, r).
Proof.
  induction l as [|a l IH]; intros Hl.
  - reflexivity.
  - cbn in Hl. apply andb_true_iff in Hl as [Ha Hl]. cbn [app read_until].
    rewrite decide_False, IH by (done || (intros ->; by vm_compute in Ha)). done.
Qed.

Lemma drop_eol_plain l : plain l = true → drop_eol (reverse l) = reverse l.
Proof.
  intros Hl. destruct (reverse l) as [|a l'] eqn:E; [done|]. cbn [drop_eol].
  destruct (is_eol a) eqn:Ha; [|done]. exfalso.
  assert (a ∈ l) as Hin by (apply elem_of_reverse; rewrite E; left).
  unfold plain in Hl. rewrite forallb_forall in Hl.
  specialize (Hl a (proj1 (list_elem_of_In _ _) Hin)). by rewrite Ha in Hl.
Qed.

Lemma read_line_plain l r : plain l = true → read_line (l ++ CRLF ++ r) = Some (l, r).
Proof.
  intros Hl. unfold read_line. pose proof (read_until_line l r Hl) as E.
  destruct (l ++ CRLF ++ r) as [|a x] eqn:Ex; [by destruct l|]. rewrite E.
  rewrite reverse_app. change (reverse CRLF) with [LF; CR]. cbn [app].
  change (drop_eol (LF :: CR :: reverse l)) with (drop_eol (reverse l)).
  rewrite drop_eol_plain by done. by rewrite reverse_involutive.
Qed.

(** A header line: a mark and a length. *)
Lemma read_header m n r :
  is_eol m = false →
  read_line ((m :: as_bytes (usize_to_string n)) ++ CRLF ++ r)
  = Some (m :: as_bytes (usize_to_string n), r).
Proof.
  intros Hm. apply read_line_plain. cbn. rewrite Hm. by apply digits_plain, usize_digits.
Qed.

(** A command as clients send it. *)
Definition encode_command (args : list bytes) : bytes :=
  array_header (length args) ++ concat (map (λ a, bulk (Some a)) args).

Definition args_ok (args : list bytes) : Prop :=
  Z.of_nat (length args) * VEC_SIZE ≤ isize_max
  ∧ Forall (λ a, Z.of_nat (length a) ≤ isize_max) args.

Lemma isize_lt_u64 : isize_max < u64_modulus.
Proof. done. Qed.

Lemma read_bulks_encoded args : ∀ f acc rest,
  Forall (λ a, Z.of_nat (length a) ≤ isize_max) args → (length args < f)%nat →
  read_bulks f (Z.of_nat (length args)) (concat (map (λ a, bulk (Some a)) args) ++ rest) acc
  = Cmd (acc ++ args) rest.
Proof.
  pose proof isize_lt_u64 as Hi.
  induction args as [|a args IH]; intros f acc rest Hok Hf; (destruct f as [|f]; [simpl in Hf; lia|]).
  { by rewrite app_nil_r. }
  apply Forall_cons in Hok as [Ha Hok]. cbn [length map concat read_bulks bulk].
  destruct (Z.leb_spec (Z.of_nat (S (length args))) 0); [lia|].
  rewrite <-!app_assoc, read_header by done. rewrite decide_True by done.
  rewrite parse_usize by lia. destruct (Z.ltb_spec isize_max (Z.of_nat (length a))); [lia|].
  rewrite read_exact_app. change 2 with (Z.of_nat (length CRLF)). rewrite read_exact_app.
  replace (Z.of_nat (S (length args)) - 1) with (Z.of_nat (length args)) by lia.
  simpl in Hf. rewrite IH by (done || lia). by rewrite <-app_assoc.
Qed.

Lemma length_bulks args : (length args ≤ length (concat (map (λ a, bulk (Some a)) args)))%nat.
Proof.
  induction args as [|a args IH]; [done|]. cbn [map concat length]. rewrite length_app.
  assert (1 ≤ length (bulk (Some a)))%nat by (cbn; lia). lia.
Qed.

(** The parser reads back an encoded command and leaves the input at the next
    one. *)
Lemma read_encoded args rest :
  args_ok args → read_command (encode_command args ++ rest) = Cmd args rest.
Proof.
  intros [Hn Hok]. pose proof isize_lt_u64. unfold VEC_SIZE in Hn.
  unfold read_command, encode_command, array_header.
  rewrite <-!app_assoc, read_header by done. rewrite decide_True, parse_usize by (done || lia).
  unfold VEC_SIZE. destruct (Z.ltb_spec isize_max (Z.of_nat (length args) * 24)); [lia|].
  apply read_bulks_encoded; [done|]. rewrite length_app. pose proof (length_bulks args). lia.
Qed.

(** ** Reading ends *)

Lemma read_until_app inp l r : read_until inp = (l, r) → inp = l ++ r.
Proof.
  revert l r. induction inp as [|a inp IH]; intros l r; cbn [read_until]; [by intros [= <- <-]|].
  case_decide; [by intros [= <- <-]|]. destruct (read_until inp) as [l' r'].
  intros [= <- <-]. cbn. f_equal. by apply IH.
Qed.

Lemma read_line_shrinks inp l r : read_line inp = Some (l, r) → (length r < length inp)%nat.
Proof.
  destruct inp as [|a inp]; [done|]. unfold read_line.
  destruct (read_until (a :: inp)) as [l' r'] eqn:E. intros [= _ <-].
  pose proof (read_until_app _ _ _ E) as ->. rewrite length_app.
  destruct l' as [|b l']; [|simpl; lia]. exfalso. cbn [read_until] in E.
  case_decide; [done|]. by destruct (read_until inp).
Qed.

Lemma read_exact_length n inp b r :
  read_exact n inp = Some (b, r) → (length r ≤ length inp)%nat.
Proof.
  unfold read_exact. case_match; [|done]. intros [= _ <-]. rewrite length_drop. lia.
Qed.

(** The fuel of the parser is enough; more gives the same result, and a command
    leaves less input than there was. *)
Lemma read_bulks_enough f : ∀ f' n inp acc, (length inp < f)%nat → (length inp < f')%nat →
  read_bulks f n inp acc = read_bulks f' n inp acc
  ∧ ∀ args rest, read_bulks f n inp acc = Cmd args rest → (length rest ≤ length inp)%nat.
Proof.
  induction f as [|f IH]; intros f' n inp acc Hf Hf'; [lia|]. destruct f' as [|f']; [lia|].
  cbn [read_bulks]. case_match; [split; [done|by intros ?? [= _ <-]]|].
  destruct (read_line inp) as [[[|h l] r]|] eqn:Hl; [done| |done].
  case_decide; [|done]. case_match; [done|].
  destruct (read_exact _ r) as [[data r1]|] eqn:Hd1; [|done].
  destruct (read_exact 2 r1) as [[crlf r2]|] eqn:Hd2; [|done].
  apply read_line_shrinks in Hl. apply read_exact_length in Hd1, Hd2.
  destruct (IH f' (n - 1) r2 (acc ++ [data])) as [-> Hr]; [lia..|]. split; [done|].
  intros args rest E. destruct (IH f' (n - 1) r2 (acc ++ [data])) as [E' Hr']; [lia..|].
  rewrite E' in Hr'. apply Hr' in E. lia.
Qed.

Lemma read_command_shrinks inp args rest :
  read_command inp = Cmd args rest → (length rest < length inp)%nat.
Proof.
  unfold read_command. destruct (read_line inp) as [[[|h l] r]|] eqn:Hl; [| |done];
    apply read_line_shrinks in Hl.
  - by intros [= _ <-].
  - case_decide; [|by intros [= _ <-]]. case_match; [done|]. intros E.
    apply (read_bulks_enough (S (length r)) (S (length r))) in E; lia.
Qed.

Section loop.
Context {V St : Type} `{!IndexStore V St, !JsonValue V, !WireJson V}.
Implicit Types (sh : Shard.t St) (token : option string).

Lemma resp_loop_enough token clk f : ∀ n sh authed inp, (length inp < f)%nat →
  ∃ r, ∀ f', (length inp < f')%nat → handle_loop f' token clk n sh authed inp = Some r.
Proof.
  induction f as [|f IH]; intros n sh authed inp Hf; [lia|].
  destruct (read_command inp) as [args rest| | |] eqn:Hq;
    [|exists (sh, []); intros [|f'] ?; [lia|]; cbn [handle_loop]; by rewrite Hq..].
  pose proof (read_command_shrinks _ _ _ Hq). destruct args as [|a args].
  - destruct (IH (S n) sh authed rest) as [r Hr]; [lia|]. exists r.
    intros [|f'] ?; [lia|]. cbn [handle_loop]. rewrite Hq. apply Hr. lia.
  - destruct (run_command token (clk n) sh authed (a :: args)) as [[[sh1 authed1] out] go] eqn:He.
    destruct (IH (S n) sh1 authed1 rest) as [[sh2 outs] Hr]; [lia|].
    exists (if go then (sh2, out ++ outs) else (sh1, out)).
    intros [|f'] ?; [lia|]. cbn [handle_loop]. rewrite Hq, He.
    destruct go; [|done]. by rewrite Hr by lia.
Qed.

(** The loop needs at most one round per byte of input. *)
Theorem resp_handle_terminates token clk sh inp fuel :
  (length inp < fuel)%nat →
  handle_loop fuel token clk 0 sh (bool_decide (token = None)) inp
  = Some (handle token clk sh inp).
Proof.
  intros Hf. destruct (resp_loop_enough token clk fuel 0 sh (bool_decide (token = None)) inp Hf)
    as [r Hr]. unfold handle. by rewrite !Hr by lia.
Qed.

(** ** Authentication *)

(** The commands a connection's input holds. *)
Fixpoint commands_in (fuel : nat) (inp : bytes) : list (list bytes) :=
  match fuel with
  | O => []
  | S f =>
      match read_command inp with
      | Cmd args rest => args :: commands_in f rest
      | _ => []
      end
  end.

(** C29. A pipeline survives the wire: the parser reads back exactly the argument
    lists of any sequence of encoded commands, one after the other (arguments
    are arbitrary bytes, line ends and empty ones included), and then goes on
    with whatever follows them. *)
Theorem command_roundtrip cs rest fuel :
  Forall args_ok cs →
  commands_in (length cs + fuel) (concat (map encode_command cs) ++ rest)
  = cs ++ commands_in fuel rest.
Proof.
  intros Hok. induction Hok as [|args cs Hargs _ IH]; [done|].
  cbn [length Nat.add map concat commands_in]. rewrite <-app_assoc, read_encoded by done.
  cbn [app]. by f_equal.
Qed.

Lemma exec_open clk sh args cmd :
  open_command cmd = true → String.eqb cmd "AUTH" = false → String.eqb cmd "QUIT" = false →
  exec_command clk sh cmd args
  = (sh, if String.eqb cmd "PING" then
           if (1 <? length args)%nat then bulk (Some (nth 1 args [])) else simple "PONG"
         else err "ERR unknown command 'HELLO'").
Proof.
  unfold open_command. intros Ho E1 E2. rewrite E1, E2 in Ho. rewrite !orb_false_l, !orb_false_r in Ho.
  destruct (String.eqb cmd "PING") eqn:E3; [by apply String.eqb_eq in E3 as ->|].
  cbn in Ho. by apply String.eqb_eq in Ho as ->.
Qed.

Lemma run_unauthenticated t clk args :
  (to_upper (s (nth 0 args [])) = "AUTH"%string → password_ok t args = false) →
  ∃ out go, ∀ sh, run_command (Some t) clk sh false args = (sh, false, out, go).
Proof.
  intros Ha. unfold run_command. set (cmd := to_upper _) in *. cbn [negb andb].
  destruct (open_command cmd) eqn:Ho; [|by eexists _, _]. cbn [negb].
  destruct (String.eqb cmd "AUTH") eqn:E1.
  { apply String.eqb_eq in E1. rewrite Ha by done. by eexists _, _. }
  destruct (String.eqb cmd "QUIT") eqn:E2; [by eexists _, _|].
  eexists _, _. intros sh. rewrite exec_open by done. done.
Qed.

(** Until a connection authenticates, it neither changes nor sees the data:
    on any input without an [AUTH] that presents the token, the handler leaves
    the shard as it was and sends the same bytes whatever the shard holds. *)
Theorem resp_unauthenticated_inert t clk inp :
  (∀ args, args ∈ commands_in (S (length inp)) inp →
     to_upper (s (nth 0 args [])) = "AUTH"%string → password_ok t args = false) →
  ∃ out, ∀ sh, handle (Some t) clk sh inp = (sh, out).
Proof.
  intros Hno. unfold handle. rewrite bool_decide_eq_false_2 by done.
  assert (Hloop : ∀ f n inp, (length inp < f)%nat →
    (∀ args, args ∈ commands_in f inp →
       to_upper (s (nth 0 args [])) = "AUTH"%string → password_ok t args = false) →
    ∃ out, ∀ sh, handle_loop f (Some t) clk n sh false inp = Some (sh, out)).
  { clear. induction f as [|f IH]; intros n inp Hf Hno; [lia|]. cbn [handle_loop commands_in] in *.
    destruct (read_command inp) as [args rest| | |] eqn:Hq; [|by eexists..].
    pose proof (read_command_shrinks _ _ _ Hq).
    destruct (IH (S n) rest) as [outs Hr]; [lia|intros; apply Hno; [by right|done]|].
    destruct args as [|a args]; [by exists outs|].
    destruct (run_unauthenticated t (clk n) (a :: args)) as (out & go & Hrun);
      [apply Hno; left|].
    exists (if go then out ++ outs else out). intros sh. rewrite Hrun.
    destruct go; [|done]. by rewrite Hr. }
  destruct (Hloop (S (length inp)) 0%nat inp) as [out Ho]; [lia|done|].
  exists out. intros sh. by rewrite Ho.
Qed.

End loop.

(** ** Replies *)

(** The values of the protocol. *)
Inductive resp :=
  | Simple (t : string)
  | Error (t : string)
  | Int (z : Z)
  | Bulk (d : option bytes)
  | Array (l : list resp).

Fixpoint encode (r : resp) : bytes :=
  match r with
  | Simple t => simple t
  | Error t => err t
  | Int z => int z
  | Bulk d => bulk d
  | Array l => array_header (length l) ++ concat (map encode l)
  end.

(** Text that ends where its line does. *)
Fixpoint clean (r : resp) : bool :=
  match r with
  | Simple t | Error t => plain (as_bytes t)
  | Array l => forallb clean l
  | _ => true
  end.

(** Lengths and integers of machine width. *)
Fixpoint sized (r : resp) : bool :=
  match r with
  | Int z => bool_decide (is_i64 z)
  | Bulk (Some d) => Z.of_nat (length d) <? u64_modulus
  | Array l => (Z.of_nat (length l) <? u64_modulus) && forallb sized l
  | _ => true
  end.

Fixpoint depth (r : resp) : nat :=
  match r with Array l => S (max_list (map depth l)) | _ => 1 end.

(** The client's decoder. *)
Fixpoint take_line (inp : bytes) : option (bytes * bytes) :=
  match inp with
  | a :: ((b :: r') as r) =>
      if bool_decide (a = CR) && bool_decide (b = LF) then Some ([], r')
      else '(l, x) ← take_line r; Some (a :: l, x)
  | _ => None
  end.

Definition decode_bulk (len : bytes) (r : bytes) : option (resp * bytes) :=
  n ← parse_u64 (text len); '(d, r1) ← read_exact n r; '(_, r2) ← read_exact 2 r1;
  Some (Bulk (Some d), r2).

Fixpoint decode_many (dec : bytes → option (resp * bytes)) (k : nat) (inp : bytes)
    : option (list resp * bytes) :=
  match k with
  | O => Some ([], inp)
  | S k' => '(x, r) ← dec inp; '(xs, r') ← decode_many dec k' r; Some (x :: xs, r')
  end.

(** One value; the fuel bounds the nesting of arrays. *)
Fixpoint decode (fuel : nat) (inp : bytes) : option (resp * bytes) :=
  match fuel with
  | O => None
  | S f =>
      match take_line inp with
      | Some (m :: l, r) =>
          if decide (m = "+"%char) then Some (Simple (text l), r)
          else if decide (m = "-"%char) then Some (Error (text l), r)
          else if decide (m = ":"%char) then z ← parse_i64 (text l); Some (Int z, r)
          else if decide (m = "$"%char) then
            if decide (text l = "-1"%string) then Some (Bulk None, r) else decode_bulk l r
          else if decide (m = "*"%char) then
            n ← parse_u64 (text l); '(xs, r') ← decode_many (decode f) (Z.to_nat n) r;
            Some (Array xs, r')
          else None
      | _ => None
      end
  end.

Lemma take_line_cons a b x :
  a ≠ CR → take_line (a :: b :: x) = '(l, y) ← take_line (b :: x); Some (a :: l, y).
Proof.
  intros Ha. change (take_line (a :: b :: x))
    with (if bool_decide (a = CR) && bool_decide (b = LF) then Some ([], x)
          else '(l, y) ← take_line (b :: x); Some (a :: l, y)).
  by rewrite bool_decide_eq_false_2.
Qed.

Lemma take_line_plain l r : plain l = true → take_line (l ++ CRLF ++ r) = Some (l, r).
Proof.
  induction l as [|a l IH]; intros Hl; [done|]. cbn in Hl. apply andb_true_iff in Hl as [Ha Hl].
  cbn [app]. destruct (l ++ CRLF ++ r) as [|b x] eqn:E; [by destruct l|].
  rewrite take_line_cons by (intros ->; by vm_compute in Ha). by rewrite IH.
Qed.

Lemma plain_cons a l : is_eol a = false → plain l = true → plain (a :: l) = true.
Proof. intros Ha Hl. cbn. by rewrite Ha. Qed.

Lemma plain_app l l' : plain (l ++ l') = plain l && plain l'.
Proof. apply forallb_app. Qed.

Lemma usize_plain n : plain (as_bytes (usize_to_string n)) = true.
Proof. apply digits_plain, usize_digits. Qed.

Lemma i64_plain z : is_i64 z → plain (as_bytes (i64_to_string z)) = true.
Proof.
  intros Hz. unfold i64_to_string. case_match.
  - apply plain_cons; [done|]. apply digits_plain, dec_go_digits; [|done].
    match goal with H : (_ <? _) = true |- _ => apply Z.ltb_lt in H end. lia.
  - apply digits_plain, dec_go_digits; [|done].
    match goal with H : (_ <? _) = false |- _ => apply Z.ltb_ge in H end. lia.
Qed.

(** A length is never the nil marker. *)
Lemma usize_not_nil n : usize_to_string n ≠ "-1"%string.
Proof.
  intros E. pose proof (usize_digits n) as H. rewrite E in H. by vm_compute in H.
Qed.

Lemma decode_encode f : ∀ r rest, (depth r ≤ f)%nat → clean r = true → sized r = true →
  decode f (encode r ++ rest) = Some (r, rest).
Proof.
  induction f as [|f IH]; intros r rest Hd Hc Hs; [destruct r; simpl in Hd; lia|].
  destruct r as [t|t|z|[d|]|l]; cbn [encode clean sized] in *.
  - unfold simple. rewrite <-app_assoc. cbn [decode]. rewrite take_line_plain by (by apply plain_cons).
    rewrite decide_True by done. by rewrite text_as_bytes.
  - unfold err. rewrite <-app_assoc. cbn [decode]. rewrite take_line_plain by (by apply plain_cons).
    cbn. by rewrite text_as_bytes.
  - apply bool_decide_eq_true in Hs. unfold int. rewrite <-app_assoc. cbn [decode].
    rewrite take_line_plain by (apply plain_cons; [done|by apply i64_plain]).
    rewrite decide_False, decide_False, decide_True by done.
    rewrite text_as_bytes, i64_string_roundtrip by done. done.
  - apply Z.ltb_lt in Hs. unfold bulk. rewrite <-!app_assoc. cbn [decode].
    rewrite take_line_plain by (apply plain_cons; [done|apply usize_plain]).
    rewrite (decide_True (P := "$"%char = "$"%char)), !decide_False by done.
    rewrite text_as_bytes, decide_False by apply usize_not_nil.
    unfold decode_bulk. rewrite text_as_bytes. unfold usize_to_string.
    rewrite u64_string_roundtrip by (split; lia). cbn [mbind option_bind].
    rewrite read_exact_app. cbn [mbind option_bind]. change 2 with (Z.of_nat (length CRLF)).
    by rewrite read_exact_app.
  - done.
  - apply andb_true_iff in Hs as [Hn Hs]. apply Z.ltb_lt in Hn.
    unfold array_header. rewrite <-!app_assoc. cbn [decode].
    rewrite take_line_plain by (apply plain_cons; [done|apply usize_plain]).
    rewrite !decide_False, decide_True by done. rewrite text_as_bytes. unfold usize_to_string.
    rewrite u64_string_roundtrip by (split; lia). cbn [mbind option_bind]. rewrite Nat2Z.id.
    assert (Hmany : decode_many (decode f) (length l) (concat (map encode l) ++ rest)
                    = Some (l, rest)); [|by rewrite Hmany].
    clear Hn. simpl in Hd. apply le_S_n in Hd. induction l as [|x l IHl]; [done|].
    cbn [map concat length decode_many forallb max_list] in *.
    apply andb_true_iff in Hc as [Hcx Hc], Hs as [Hsx Hs].
    simpl in Hd. rewrite <-app_assoc, IH by (done || lia). cbn [mbind option_bind].
    rewrite IHl by (done || lia). done.
Qed.

Section replies.
Context {V St : Type} `{!IndexStore V St, !JsonValue V, !WireJson V}.
Implicit Types (sh : Shard.t St) (token : option string) (args : list bytes).

(** A reply: one value, whose lines end where they should, with at most one array inside
    an array. *)
Definition is_reply (out : bytes) : Prop :=
  ∃ r, out = encode r ∧ clean r = true ∧ (depth r ≤ 3)%nat.

Lemma reply_simple t : plain (as_bytes t) = true → is_reply (simple t).
Proof. intros. exists (Simple t). split_and!; [done..|simpl; lia]. Qed.

Lemma reply_err t : plain (as_bytes t) = true → is_reply (err t).
Proof. intros. exists (Error t). split_and!; [done..|simpl; lia]. Qed.

Lemma reply_int z : is_reply (int z).
Proof. exists (Int z). split_and!; [done..|simpl; lia]. Qed.

Lemma reply_bulk d : is_reply (bulk d).
Proof. exists (Bulk d). split_and!; [done..|simpl; lia]. Qed.

Definition bulk_array (l : list string) : resp := Array (map (λ t, Bulk (Some (as_bytes t))) l).

Lemma encode_bulk_array l : encode (bulk_array l) = array_header (length l) ++ bulks l.
Proof. cbn [encode bulk_array]. rewrite length_map, map_map. done. Qed.

Lemma bulk_array_clean l : clean (bulk_array l) = true ∧ (depth (bulk_array l) ≤ 2)%nat.
Proof. induction l as [|t l [IH1 IH2]]; [simpl; split; [done|lia]|]. cbn in *. split; [done|lia]. Qed.

Lemma reply_array l : is_reply (array_header (length l) ++ bulks l).
Proof.
  exists (bulk_array l). rewrite encode_bulk_array. split; [done|].
  destruct (bulk_array_clean l). split; [done|lia].
Qed.

Lemma reply_scan next l :
  is_reply (array_header 2 ++ bulk (Some next) ++ array_header (length l) ++ bulks l).
Proof.
  exists (Array [Bulk (Some next); bulk_array l]). destruct (bulk_array_clean l) as [Hc Hd].
  split; [|split; [cbn [clean forallb]; by rewrite Hc|]].
  - cbn [encode map concat length]. by rewrite encode_bulk_array, app_nil_r.
  - change (S (Nat.max 1 (Nat.max (depth (bulk_array l)) 0)) ≤ 3)%nat. lia.
Qed.

Lemma plain_map f b :
  (∀ a, is_eol (f a) = is_eol a) → plain (map f b) = plain b.
Proof. intros Hf. induction b as [|a b IH]; [done|]. unfold plain in *. cbn [map forallb]. by rewrite Hf, IH. Qed.

Lemma eol_lower a : is_eol (ascii_lower a) = is_eol a.
Proof. by destruct a as [[] [] [] [] [] [] [] []]. Qed.

Lemma eol_upper a : is_eol (ascii_upper a) = is_eol a.
Proof. by destruct a as [[] [] [] [] [] [] [] []]. Qed.

Lemma plain_take_drop n b : plain b = true → plain (take n b) = true ∧ plain (drop n b) = true.
Proof. rewrite <-(take_drop n b) at 1. rewrite plain_app. apply andb_true_iff. Qed.

Lemma lossy_plain f b : plain b = true → plain (lossy f b) = true.
Proof.
  revert b. induction f as [|f IH]; intros b Hb; [done|]. cbn [lossy]. destruct b as [|a b]; [done|].
  destruct (utf8_step _) as [v n]. destruct (plain_take_drop n _ Hb) as [Ht Hd].
  rewrite plain_app, (IH _ Hd), andb_true_r. by destruct v.
Qed.

Lemma lossy_text_plain b : plain b = true → plain (as_bytes (lossy_text b)) = true.
Proof.
  intros Hb. unfold lossy_text, from_utf8_lossy. cbv zeta.
  change (String.list_ascii_of_string (text b)) with (as_bytes (text b)). rewrite !as_bytes_text.
  by apply lossy_plain.
Qed.

Lemma as_bytes_app t u : as_bytes (t ++ u) = as_bytes t ++ as_bytes u.
Proof. induction t as [|a t IH]; [done|]. change (a :: as_bytes (t ++ u) = a :: as_bytes t ++ as_bytes u). by rewrite IH. Qed.

Definition unknown (cmd : string) : string := ("ERR unknown command '" ++ to_lower cmd ++ "'")%string.

Lemma unknown_plain cmd : plain (as_bytes cmd) = true → plain (as_bytes (unknown cmd)) = true.
Proof.
  intros Hc. unfold unknown. rewrite !as_bytes_app, !plain_app. unfold to_lower, map_string.
  rewrite as_bytes_text, plain_map, Hc by apply eol_lower. done.
Qed.

(** Every command is answered by one reply, provided its name holds no line
    end (an unknown name is echoed back). *)
Lemma exec_reply clk sh cmd args :
  plain (as_bytes cmd) = true → is_reply (exec_command clk sh cmd args).2.
Proof.
  intros Hc. unfold exec_command. cbv zeta.
  repeat match goal with |- is_reply (snd (if ?b then _ else _)) => destruct b; cbn [snd] end.
  all: repeat match goal with
       | |- is_reply (snd (let '(_, _) := ?x in _)) => destruct x; cbn [snd]
       | |- is_reply (snd (match ?x with _ => _ end)) => destruct x; cbn [snd]
       | |- is_reply (if ?b then _ else _) => destruct b
       | |- is_reply (snd (incr_reply ?x)) => unfold incr_reply; cbn [snd]; destruct (snd x)
       | |- is_reply (bulk_value ?v) => unfold bulk_value; repeat case_match
       | |- is_reply (simple (match ?x with _ => _ end)) => repeat case_match
       end.
  all: match goal with
       | |- is_reply (simple _) => by apply reply_simple
       | |- is_reply (int _) => apply reply_int
       | |- is_reply (bulk _) => apply reply_bulk
       | |- is_reply (array_header 0) => exact (reply_array [])
       | |- is_reply (array_header 2 ++ _) => apply reply_scan
       | |- is_reply (array_header _ ++ bulks _) => apply reply_array
       | |- is_reply (err (_ ++ to_lower _ ++ _)) => by apply reply_err, unknown_plain
       | |- is_reply (err _) => by apply reply_err
       end.
Qed.

(** An unauthenticated or refused command has its reply too. *)
Lemma run_reply token clk sh authed args :
  plain (nth 0 args []) = true → is_reply (run_command token clk sh authed args).1.2.
Proof.
  intros Hp. unfold run_command. cbv zeta. case_match; [by apply reply_err|].
  case_match; [repeat case_match; (by apply reply_err) || (by apply reply_simple)|].
  case_match; [by apply reply_simple|].
  pose proof (exec_reply clk sh (to_upper (s (nth 0 args []))) args) as Hr.
  destruct (exec_command _ _ _ _) as [sh' out]. apply Hr. unfold to_upper, map_string.
  rewrite as_bytes_text, plain_map by apply eol_upper. by apply lossy_text_plain.
Qed.

(** The commands of a connection, one after the other, up to a QUIT. *)
Fixpoint run_all token (clk : nat → nat → Z) (n : nat) sh (authed : bool) (cs : list (list bytes))
    : Shard.t St * list bytes :=
  match cs with
  | [] => (sh, [])
  | args :: cs' =>
      let '(sh1, authed1, out, go) := run_command token (clk n) sh authed args in
      if go : bool then
        let '(sh2, outs) := run_all token clk (S n) sh1 authed1 cs' in (sh2, out :: outs)
      else (sh1, [out])
  end.

Definition command_ok args : Prop := args ≠ [] ∧ args_ok args ∧ plain (nth 0 args []) = true.

Definition is_quit args : bool := String.eqb (to_upper (s (nth 0 args []))) "QUIT".

Lemma run_goes_on token clk sh authed args :
  is_quit args = false → (run_command token clk sh authed args).2 = true.
Proof.
  intros Hq. unfold run_command. cbv zeta. unfold is_quit in Hq. rewrite Hq.
  repeat (case_match; try done).
Qed.

Lemma length_encode_command args : (0 < length (encode_command args))%nat.
Proof. unfold encode_command, array_header. rewrite !length_app. cbn [length]. lia. Qed.

Lemma handle_encoded token clk cs : ∀ f n sh authed,
  Forall command_ok cs → (length (concat (map encode_command cs)) < f)%nat →
  handle_loop f token clk n sh authed (concat (map encode_command cs))
  = Some ((run_all token clk n sh authed cs).1, concat (run_all token clk n sh authed cs).2).
Proof.
  induction cs as [|args cs IH]; intros f n sh authed Hok Hf; (destruct f as [|f]; [lia|]); [done|].
  apply Forall_cons in Hok as [(Hne & Hargs & _) Hok].
  cbn [map concat handle_loop run_all] in *. rewrite read_encoded by done.
  rewrite length_app in Hf. pose proof (length_encode_command args).
  destruct args as [|a args]; [done|].
  destruct (run_command token (clk n) sh authed (a :: args)) as [[[sh1 authed1] out] go].
  destruct go; [|by cbn; rewrite app_nil_r]. rewrite IH by (done || lia).
  by destruct (run_all token clk (S n) sh1 authed1 cs).
Qed.

Lemma run_all_replies token clk cs : ∀ n sh authed,
  Forall command_ok cs →
  ∃ rs, (run_all token clk n sh authed cs).2 = map encode rs
    ∧ Forall (λ r, clean r = true ∧ (depth r ≤ 3)%nat) rs
    ∧ (Forall (λ args, is_quit args = false) cs → length rs = length cs).
Proof.
  induction cs as [|args cs IH]; intros n sh authed Hok; [by exists []|].
  apply Forall_cons in Hok as [(_ & _ & Hp) Hok]. cbn [run_all].
  pose proof (run_reply token (clk n) sh authed args Hp) as Hr.
  pose proof (run_goes_on token (clk n) sh authed args) as Hgo.
  destruct (run_command token (clk n) sh authed args) as [[[sh1 authed1] out] go].
  destruct Hr as (r & Hout & Hc & Hd). cbn [fst snd] in *. subst out.
  destruct go.
  - destruct (IH (S n) sh1 authed1 Hok) as (rs & Hrs & Hall & Hlen).
    destruct (run_all token clk (S n) sh1 authed1 cs) as [sh2 outs]. cbn [snd] in *. subst outs.
    exists (r :: rs). split; [done|]. split; [by constructor|].
    intros [_ Hq]%Forall_cons. cbn [length]. by rewrite Hlen.
  - exists [r]. split; [done|]. split; [by constructor|].
    intros [Hq _]%Forall_cons. by specialize (Hgo Hq).
Qed.

Lemma decode_many_encoded f rs rest :
  Forall (λ r, clean r = true ∧ (depth r ≤ f)%nat) rs → Forall (λ r, sized r = true) rs →
  decode_many (decode f) (length rs) (concat (map encode rs) ++ rest) = Some (rs, rest).
Proof.
  induction rs as [|r rs IH]; intros Hc Hs; [done|].
  apply Forall_cons in Hc as [[Hc1 Hd1] Hc], Hs as [Hs1 Hs].
  cbn [length decode_many map concat]. rewrite <-app_assoc, decode_encode by done.
  cbn [mbind option_bind]. by rewrite IH.
Qed.

(** C28. One reply per command, in order.  Pipelined commands (whose names hold
    no line end) are executed one after the other, and the output is the
    encoding of one well-formed reply for each of them, which a client decodes
    without ambiguity. *)
Theorem one_reply_per_command token clk sh cs :
  Forall command_ok cs →
  let '(sh', outs) := run_all token clk 0 sh (bool_decide (token = None)) cs in
  handle token clk sh (concat (map encode_command cs)) = (sh', concat outs)
  ∧ ∃ rs, outs = map encode rs ∧ Forall (λ r, clean r = true) rs
      ∧ (Forall (λ args, is_quit args = false) cs → length rs = length cs)
      ∧ (Forall (λ r, sized r = true) rs →
           decode_many (decode 3) (length rs) (concat outs) = Some (rs, [])).
Proof.
  intros Hok. pose proof (handle_encoded token clk cs (S (length (concat (map encode_command cs))))
    0 sh (bool_decide (token = None)) Hok ltac:(lia)) as Hh.
  destruct (run_all_replies token clk cs 0 sh (bool_decide (token = None)) Hok)
    as (rs & Hrs & Hall & Hlen).
  destruct (run_all token clk 0 sh (bool_decide (token = None)) cs) as [sh' outs].
  cbn [fst snd] in *. subst outs. split; [unfold handle; by rewrite Hh|].
  exists rs. split; [done|]. split; [by eapply Forall_impl; [exact Hall|intros r [? _]]|].
  split; [done|]. intros Hs. rewrite <-(app_nil_r (concat _)). by apply decode_many_encoded.
Qed.

(** An unknown command's name is echoed as it is. *)
Lemma exec_unknown clk sh cmd args :
  plain (as_bytes cmd) = false → exec_command clk sh cmd args = (sh, err (unknown cmd)).
Proof.
  intros Hc. assert (Hne : ∀ t, plain (as_bytes t) = true → String.eqb cmd t = false).
  { intros t Ht. apply String.eqb_neq. intros ->. by rewrite Ht in Hc. }
  unfold exec_command. cbv zeta. rewrite !Hne by reflexivity. done.
Qed.

(** Reply splitting: a command whose name holds a line end is answered with
    two replies, the second of which the sender chose; every later reply on the
    connection is then matched with the wrong command. *)
Theorem reply_injection clk sh a forged args :
  plain (as_bytes a) = true → plain (as_bytes forged) = true →
  exec_command clk sh (a ++ text CRLF ++ "+" ++ forged)%string args
  = (sh, encode (Error ("ERR unknown command '" ++ to_lower a))
         ++ encode (Simple (to_lower forged ++ "'"))).
Proof.
  intros Ha Hf. rewrite exec_unknown.
  2:{ rewrite !as_bytes_app, !plain_app, as_bytes_text. by rewrite andb_false_r. }
  f_equal. unfold unknown, encode, err, simple, to_lower, map_string.
  rewrite !as_bytes_app, !as_bytes_text, !map_app, <-!app_assoc. cbn [app]. f_equal.
  rewrite <-!app_assoc. done.
Qed.

End replies.

(** ** SCAN *)

Section scan.
Context {V St : Type} `{!IndexStore V St, !IndexStoreLaws V St, !JsonValue V, !WireJson V}.
Implicit Types (sh : Shard.t St) (prefix : option string).

Lemma scan_usize_spec now sh a p e n :
  store_wf (Shard.store sh) → 0 ≤ n →
  scan_usize now sh a p e n
  = take (Z.to_nat n) (filter (in_bounds a p e) (live_keys now (Shard.store sh) COLL)).
Proof.
  intros Hwf Hn. unfold scan_usize, Shard.scan_range. rewrite scan_range_spec by done.
  set (l := filter _ _). set (k := length (scan_entries now (Shard.store sh) COLL)).
  assert (length l ≤ k)%nat as Hl.
  { etrans; [apply length_filter|]. unfold live_keys, k.
    by rewrite sort_strings_perm, length_map. }
  destruct (Z.min_spec n (Z.of_nat k)) as [[? ->]|[? ->]]; [done|].
  rewrite !take_ge by lia. done.
Qed.

(** A client's iteration: follow the cursors until one is ["0"]. *)
Fixpoint scan_iter (fuel : nat) (now : Z) sh (cursor : string) (count : Z) prefix
    : option (list string) :=
  match fuel with
  | O => None
  | S f =>
      let '(next, keys) := scan_page now sh cursor count prefix in
      if String.eqb next "0" then Some keys
      else rest ← scan_iter f now sh next count prefix; Some (keys ++ rest)
  end.

(** The live keys a scan is about, ascending. *)
Definition matching now sh prefix : list string :=
  filter (in_bounds None prefix None) (live_keys now (Shard.store sh) COLL).

Lemma matching_sorted now sh prefix :
  store_wf (Shard.store sh) → StronglySorted str_lt (matching now sh prefix).
Proof. intros. by apply StronglySorted_filter, live_keys_sorted. Qed.

Lemma scan_page_matching now sh cur count prefix :
  store_wf (Shard.store sh) → 0 ≤ count →
  scan_usize now sh cur prefix None count
  = take (Z.to_nat count) (filter (in_bounds cur None None) (matching now sh prefix)).
Proof.
  intros Hwf Hn. rewrite scan_usize_spec by done. f_equal. unfold matching.
  rewrite list_filter_filter. apply filter_ext_in. intros k _. unfold in_bounds. simpl. tauto.
Qed.

(** C35. SCAN is complete: following the cursors from ["0"], with any page size of
    at least one and any prefix, returns every matching live key exactly once,
    in ascending order, and ends, provided no matching key is itself named
    ["0"]. *)
Theorem scan_complete now sh count prefix fuel :
  store_wf (Shard.store sh) → 0 < count → "0"%string ∉ matching now sh prefix →
  (length (matching now sh prefix) < fuel)%nat →
  scan_iter fuel now sh "0" count prefix = Some (matching now sh prefix).
Proof.
  intros Hwf Hc Hzero Hf. pose proof (matching_sorted now sh prefix Hwf) as Hs.
  set (l := matching now sh prefix) in *.
  enough (∀ cursor cur, cur = (if String.eqb cursor "0" then None else Some cursor) →
    (length (filter (in_bounds cur None None) l) < fuel)%nat →
    scan_iter fuel now sh cursor count prefix = Some (filter (in_bounds cur None None) l)) as Hgo.
  { rewrite (Hgo "0"%string None); [|done|by eapply Nat.le_lt_trans; [apply length_filter|]].
    by rewrite filter_all. }
  clear Hf. induction fuel as [|f IH]; intros cursor cur Hcur Hf; [lia|].
  cbn [scan_iter]. unfold scan_page. rewrite <-Hcur, scan_page_matching by (done || lia). fold l.
  set (rest := filter (in_bounds cur None None) l) in *.
  destruct (Z.ltb_spec (Z.of_nat (length (take (Z.to_nat count) rest))) count) as [Hshort|Hfull].
  { rewrite length_take in Hshort. cbn. by rewrite take_ge by lia. }
  destruct (last (take (Z.to_nat count) rest)) as [k|] eqn:Hlast;
    [|apply last_None in Hlast; rewrite Hlast in Hfull; simpl in Hfull; lia].
  assert (k ∈ l) as Hk.
  { apply last_Some in Hlast as [l0 E]. assert (k ∈ take (Z.to_nat count) rest) as Hk.
    { rewrite E. set_solver. }
    apply subseteq_take, list_elem_of_filter in Hk as [_ ?]. done. }
  cbn [default from_option id]. destruct (String.eqb_spec k "0") as [->|Hk0]; [done|].
  pose proof (resume_after l cur _ k Hs Hlast) as Hres. fold rest in Hres.
  rewrite (IH k (Some k)); [| |].
  - cbn [mbind option_bind]. by rewrite Hres, take_drop.
  - apply String.eqb_neq in Hk0. by rewrite Hk0.
  - rewrite Hres, length_drop. rewrite length_take in Hfull. lia.
Qed.

(** The cursor ["0"] also stands for the key of that name: a page that ends
    with it ends the iteration, whatever follows. *)
Theorem scan_cursor_collision now sh count prefix fuel :
  store_wf (Shard.store sh) → 0 ≤ count →
  last (take (Z.to_nat count) (matching now sh prefix)) = Some "0"%string →
  scan_iter (S fuel) now sh "0" count prefix
  = Some (take (Z.to_nat count) (matching now sh prefix)).
Proof.
  intros Hwf Hc Hlast. cbn [scan_iter]. unfold scan_page. rewrite String.eqb_refl.
  rewrite scan_page_matching by done. rewrite filter_all by done. rewrite Hlast.
  by destruct (Z.of_nat _ <? count).
Qed.

End scan.

End Resp.
