(* ===== verification/Guard.v ===== *)
(** * The freeze/drain gate ([src/src/guard.rs])

    The shared state of [Gates] with the critical sections of its methods as
    functions, and the tasks that use it as a labelled transition system: data
    operations enter and leave buckets, one migration at a time freezes, drains,
    copies and unfreezes a chunk of buckets.  Every point where another task may
    run is a separate step: in particular the notification ([bump]) happens
    after the critical section it announces.

    Wakeups go through a [tokio] watch channel.  [version] counts its
    successful sends: [subscribe] remembers the current version, [changed]
    returns once the version differs, and [send] does nothing when there is no
    receiver. *)

From S2P Require Import Prelude.

Module Guard.

Record GateState := mk {
  frozen : gset nat;
  in_flight : gmap nat nat;
  version : nat;
}.

Definition new : GateState := mk ∅ ∅ 0.

(** ** Critical sections *)

(** One iteration of [enter]: [None] when the bucket is frozen. *)
Definition try_enter (g : GateState) (b : nat) : option GateState :=
  if decide (b ∈ frozen g) then None
  else Some (mk (frozen g) (<[b := S (default 0 (in_flight g !! b))]> (in_flight g)) (version g)).

Definition leave (g : GateState) (b : nat) : GateState :=
  match in_flight g !! b with
  | Some n =>
      let n' := n - 1 in
      mk (frozen g)
         (if decide (n' = 0) then delete b (in_flight g) else <[b := n']> (in_flight g))
         (version g)
  | None => g
  end.

Definition freeze (g : GateState) (bs : list nat) : GateState :=
  mk (foldl (λ f b, {[b]} ∪ f) (frozen g) bs) (in_flight g) (version g).

(** The test of [drain]. *)
Definition drained (g : GateState) (bs : list nat) : bool :=
  forallb (λ b, default 0 (in_flight g !! b) =? 0) bs.

Definition unfreeze (g : GateState) (bs : list nat) : GateState :=
  mk (foldl (λ f b, f ∖ {[b]}) (frozen g) bs) (in_flight g) (version g).

Definition bump (receivers : bool) (g : GateState) : GateState :=
  mk (frozen g) (in_flight g) (if receivers then S (version g) else version g).

(** ** Tasks *)

Inductive task :=
  | Idle
  (** [enter]: top of the loop, subscribed at a version, waiting, inside *)
  | EnterTop (b : nat)
  | EnterSub (b v : nat)
  | EnterWait (b v : nat)
  | Holding (b : nat)
  (** [leave] has released the lock and is about to [bump] *)
  | LeaveBump
  (** the holder of the [migrating] lock, between chunks *)
  | MigFree
  (** [freeze] done, top of the [drain] loop, subscribed, waiting, drained *)
  | MigFrozen (bs : list nat)
  | MigSub (bs : list nat) (v : nat)
  | MigWait (bs : list nat) (v : nat)
  | MigCopy (bs : list nat)
  (** [unfreeze] has released the lock and is about to [bump] *)
  | MigBump.

#[export] Instance task_eq_dec : EqDecision task.
Proof. solve_decision. Defined.

(** The version a task with a receiver of the watch channel has seen. *)
Definition seen (x : task) : option nat :=
  match x with
  | EnterSub _ v | EnterWait _ v | MigSub _ v | MigWait _ v => Some v
  | _ => None
  end.

Definition receiving (x : task) : bool := match seen x with Some _ => true | None => false end.

(** A task inside [run_migration], that is, holding the [migrating] lock. *)
Definition migrating (x : task) : bool :=
  match x with
  | MigFree | MigFrozen _ | MigSub _ _ | MigWait _ _ | MigCopy _ | MigBump => true
  | _ => false
  end.

(** The buckets a migrating task keeps frozen. *)
Definition holds_frozen (x : task) : list nat :=
  match x with
  | MigFrozen bs | MigSub bs _ | MigWait bs _ | MigCopy bs => bs
  | _ => []
  end.

(** One step of one task, [others] being the rest of the system.  [arrival] and
    [mig_begin] start new work, [mig_end] finishes a migration. *)
Inductive local (others : list task) : GateState → task → GateState → task → Prop :=
  | arrival g b : local others g Idle g (EnterTop b)
  | enter_subscribe g b : local others g (EnterTop b) g (EnterSub b (version g))
  | enter_pass g g' b v : try_enter g b = Some g' →
      local others g (EnterSub b v) g' (Holding b)
  | enter_block g b v : try_enter g b = None →
      local others g (EnterSub b v) g (EnterWait b v)
  | enter_woken g b v : version g ≠ v → local others g (EnterWait b v) g (EnterTop b)
  | token_drop g b : local others g (Holding b) (leave g b) LeaveBump
  | leave_bump g : local others g LeaveBump (bump (existsb receiving others) g) Idle
  | mig_begin g : existsb migrating others = false → local others g Idle g MigFree
  | mig_freeze g bs : local others g MigFree (freeze g bs) (MigFrozen bs)
  | drain_subscribe g bs : local others g (MigFrozen bs) g (MigSub bs (version g))
  | drain_pass g bs v : drained g bs = true → local others g (MigSub bs v) g (MigCopy bs)
  | drain_block g bs v : drained g bs = false → local others g (MigSub bs v) g (MigWait bs v)
  | drain_woken g bs v : version g ≠ v → local others g (MigWait bs v) g (MigFrozen bs)
  | mig_unfreeze g bs : local others g (MigCopy bs) (unfreeze g bs) MigBump
  | mig_bump g : local others g MigBump (bump (existsb receiving others) g) MigFree
  | mig_end g : local others g MigFree g Idle.

(** The system: the gate and the list of tasks; any task may step. *)
Definition sys : Type := GateState * list task.

Inductive step : sys → sys → Prop :=
  | step_task l1 l2 g x g' y : local (l1 ++ l2) g x g' y →
      step (g, l1 ++ x :: l2) (g', l1 ++ y :: l2).

Definition initial (s : sys) : Prop := s.1 = new ∧ ∀ x, x ∈ s.2 → x = Idle.

Definition reachable (s : sys) : Prop := ∃ s0, initial s0 ∧ rtc step s0 s.

(** ** Counting *)

Definition count (x : task) (ts : list task) : nat := length (filter (x =.) ts).

Lemma count_cons x y ts : count x (y :: ts) = (if decide (x = y) then 1 else 0) + count x ts.
Proof. unfold count. rewrite filter_cons. by case_decide. Qed.

#[export] Instance count_Permutation x : Proper ((≡ₚ) ==> (=)) (count x).
Proof. intros l1 l2 Hp. unfold count. by rewrite Hp. Qed.

Lemma count_pos x ts : 0 < count x ts ↔ x ∈ ts.
Proof.
  induction ts as [|y ts IH]; [split; [cbn; lia|by intros ?%elem_of_nil]|].
  rewrite count_cons, elem_of_cons. case_decide; naive_solver lia.
Qed.

Definition nmig (ts : list task) : nat := length (filter (λ x, migrating x = true) ts).

Lemma nmig_cons x ts : nmig (x :: ts) = (if migrating x then 1 else 0) + nmig ts.
Proof. unfold nmig. rewrite filter_cons. by destruct (migrating x). Qed.

Lemma nmig_zero ts : nmig ts = 0 ↔ ∀ x, x ∈ ts → migrating x = false.
Proof.
  induction ts as [|x ts IH]; [split; [by intros _ ? ?%elem_of_nil|done]|].
  rewrite nmig_cons. setoid_rewrite elem_of_cons. destruct (migrating x) eqn:Hx.
  - split; [lia|]. intros H. specialize (H x (or_introl eq_refl)). congruence.
  - naive_solver.
Qed.

#[export] Instance nmig_Permutation : Proper ((≡ₚ) ==> (=)) nmig.
Proof. intros l1 l2 Hp. unfold nmig. by rewrite Hp. Qed.

Lemma existsb_false (f : task → bool) ts : existsb f ts = false ↔ ∀ x, x ∈ ts → f x = false.
Proof.
  induction ts as [|x ts IH]; [split; [by intros _ ? ?%elem_of_nil|done]|].
  cbn. rewrite orb_false_iff, IH. setoid_rewrite elem_of_cons. naive_solver.
Qed.

Lemma elem_of_freeze g bs b : b ∈ frozen (freeze g bs) ↔ b ∈ bs ∨ b ∈ frozen g.
Proof.
  unfold freeze. cbn [frozen]. generalize (frozen g) as f.
  induction bs as [|b' bs IH]; intros f; [set_solver|].
  cbn [foldl]. rewrite IH. set_solver.
Qed.

Lemma elem_of_unfreeze g bs b : b ∈ frozen (unfreeze g bs) ↔ b ∉ bs ∧ b ∈ frozen g.
Proof.
  unfold unfreeze. cbn [frozen]. generalize (frozen g) as f.
  induction bs as [|b' bs IH]; intros f; [set_solver|].
  cbn [foldl]. rewrite IH. set_solver.
Qed.

Lemma drained_spec g bs : drained g bs = true ↔ ∀ b, b ∈ bs → default 0 (in_flight g !! b) = 0.
Proof.
  unfold drained. rewrite forallb_forall. split; intros H b Hb.
  - apply Nat.eqb_eq, H. by apply list_elem_of_In.
  - apply Nat.eqb_eq, H. by apply list_elem_of_In.
Qed.

(** ** The invariant *)

Record inv (g : GateState) (ts : list task) : Prop := {
  (** the in-flight table counts the tasks inside each bucket *)
  inv_count : ∀ b, default 0 (in_flight g !! b) = count (Holding b) ts;
  (** one migration at a time *)
  inv_lock : nmig ts ≤ 1;
  (** a bucket is frozen exactly while the migration works on it *)
  inv_frozen : ∀ b, b ∈ frozen g ↔ ∃ x, x ∈ ts ∧ b ∈ holds_frozen x;
  (** during the copy nobody is inside *)
  inv_copy : ∀ bs b, MigCopy bs ∈ ts → b ∈ bs → Holding b ∉ ts;
  (** a waiter whose bucket is open has been, or is about to be, notified *)
  inv_enter : ∀ b v, EnterWait b v ∈ ts →
    b ∈ frozen g ∨ v ≠ version g ∨ MigBump ∈ ts;
  inv_drain : ∀ bs v, MigWait bs v ∈ ts →
    (∃ b, b ∈ bs ∧ Holding b ∈ ts) ∨ v ≠ version g ∨ LeaveBump ∈ ts;
  (** a remembered version is one that was current *)
  inv_version : ∀ x v, x ∈ ts → seen x = Some v → v ≤ version g;
}.

#[export] Instance inv_Permutation g : Proper ((≡ₚ) ==> iff) (inv g).
Proof.
  assert (∀ l1 l2, l1 ≡ₚ l2 → inv g l1 → inv g l2) as H.
  { intros l1 l2 Hp [H1 H2 H3 H4 H5 H6 H7]. split.
    - intros b. by rewrite <-Hp.
    - by rewrite <-Hp.
    - intros b. rewrite H3. by setoid_rewrite Hp.
    - intros bs b. rewrite <-Hp. apply H4.
    - intros b v. rewrite <-Hp. apply H5.
    - intros bs v. rewrite <-Hp. intros Hin.
      destruct (H6 _ _ Hin) as [(b & ? & ?)|?]; [|by right]. left. exists b. by rewrite <-Hp.
    - intros x v. rewrite <-Hp. apply H7. }
  intros l1 l2 Hp. split; by apply H.
Qed.

Lemma inv_initial s : initial s → inv s.1 s.2.
Proof.
  destruct s as [g ts]. intros [Hg Hts]. cbn in *. subst g.
  assert (∀ x, x ≠ Idle → x ∉ ts) as Hno by naive_solver.
  split; cbn; try (intros; exfalso; by eapply Hno; [|eassumption]).
  - intros b. rewrite lookup_empty. cbn. destruct (count (Holding b) ts) eqn:Hc; [done|].
    assert (Holding b ∈ ts) as Hin by (apply count_pos; lia). by apply Hno in Hin.
  - assert (nmig ts = 0) as ->; [|lia]. apply nmig_zero. by intros x ->%Hts.
  - intros b. split; [set_solver|]. intros (x & ->%Hts & Hb). cbn in Hb. set_solver.
  - by intros x v ->%Hts.
Qed.

(** *** Preservation, one clause at a time *)

Section preservation.
Context (g g' : GateState) (x y : task) (ts : list task).
Hypothesis (Hstep : local ts g x g' y) (Hinv : inv g (x :: ts)).

Lemma count_skip b z : z ≠ Holding b → count (Holding b) (z :: ts) = count (Holding b) ts.
Proof. intros. rewrite count_cons. by rewrite decide_False. Qed.

Lemma step_count b : default 0 (in_flight g' !! b) = count (Holding b) (y :: ts).
Proof.
  pose proof (inv_count _ _ Hinv b) as Hb.
  destruct Hstep as [|g0|g0 g0' b0 v Hpass|g0|g0|g0 b0|g0|g0|g0|g0|g0|g0|g0|g0|g0|g0];
    rewrite ?count_skip in * by done; try done.
  - unfold try_enter in Hpass. case_decide; simplify_eq. cbn [in_flight].
    rewrite count_cons. destruct (decide (Holding b = Holding b0)) as [[= ->]|Hne].
    + rewrite lookup_insert_eq. cbn. by rewrite Hb.
    + by rewrite lookup_insert_ne by congruence.
  - rewrite count_cons in Hb. unfold leave.
    destruct (in_flight g0 !! b0) as [n|] eqn:Hn; cbn [in_flight].
    + destruct (decide (Holding b = Holding b0)) as [[= ->]|Hne].
      * rewrite Hn in Hb. cbn in Hb. case_decide.
        -- rewrite lookup_delete_eq. cbn. lia.
        -- rewrite lookup_insert_eq. cbn. lia.
      * case_decide; [rewrite lookup_delete_ne by congruence|
                      rewrite lookup_insert_ne by congruence]; done.
    + destruct (decide (Holding b = Holding b0)) as [[= ->]|Hne]; [|done].
      rewrite Hn in Hb. cbn in Hb. lia.
Qed.

Lemma step_lock : nmig (y :: ts) ≤ 1.
Proof.
  pose proof (inv_lock _ _ Hinv) as Hl. rewrite nmig_cons in *.
  destruct Hstep; cbn [migrating] in *; try lia.
  assert (nmig ts = 0); [|lia]. by apply nmig_zero, existsb_false.
Qed.

(** When a task migrates, no other one does, so no other keeps a bucket frozen. *)
Lemma alone z : migrating x = true → z ∈ ts → migrating z = false.
Proof.
  intros Hx. pose proof (inv_lock _ _ Hinv) as Hl. rewrite nmig_cons, Hx in Hl.
  apply nmig_zero. lia.
Qed.

Lemma not_migrating_frozen z b : migrating z = false → b ∉ holds_frozen z.
Proof. destruct z; cbn; set_solver. Qed.

Lemma frozen_others b :
  migrating x = true → b ∈ frozen g ↔ b ∈ holds_frozen x.
Proof.
  intros Hx. rewrite (inv_frozen _ _ Hinv). split.
  - intros (z & [->|Hz]%elem_of_cons & Hb); [done|].
    by apply alone, (not_migrating_frozen z b) in Hz.
  - intros Hb. exists x. split; [left|done].
Qed.

Lemma frozen_iff b :
  (∃ z, z ∈ y :: ts ∧ b ∈ holds_frozen z)
  ↔ b ∈ holds_frozen y ∨ ∃ z, z ∈ ts ∧ b ∈ holds_frozen z.
Proof. setoid_rewrite elem_of_cons. naive_solver. Qed.

Lemma step_frozen b : b ∈ frozen g' ↔ ∃ z, z ∈ y :: ts ∧ b ∈ holds_frozen z.
Proof.
  rewrite frozen_iff. destruct (migrating x) eqn:Hx.
  - assert ((∃ z, z ∈ ts ∧ b ∈ holds_frozen z) ↔ False) as ->.
    { split; [|done]. intros (z & Hz & Hb). by apply alone, (not_migrating_frozen z b) in Hz. }
    pose proof (frozen_others b Hx) as Hf. destruct Hstep; try done.
    all: rewrite ?elem_of_freeze, ?elem_of_unfreeze; cbn [holds_frozen bump frozen] in *;
      rewrite ?elem_of_nil in *; tauto.
  - assert (b ∈ frozen g ↔ ∃ z, z ∈ ts ∧ b ∈ holds_frozen z) as Hf.
    { rewrite (inv_frozen _ _ Hinv). setoid_rewrite elem_of_cons.
      pose proof (not_migrating_frozen x b Hx). naive_solver. }
    assert (b ∈ holds_frozen y ↔ False) as ->.
    { split; [|done]. destruct Hstep; try done; apply not_elem_of_nil. }
    rewrite <-Hf.
    destruct Hstep as [| |g0 g0' b0 v Hp| | |g0 b0| | | | | | | | | |];
      try done; try (cbn; tauto).
    + unfold try_enter in Hp. case_decide; simplify_eq. cbn. tauto.
    + unfold leave. destruct (in_flight g0 !! b0); cbn; tauto.
Qed.

(** *** Exclusion *)

Lemma step_copy bs b : MigCopy bs ∈ y :: ts → b ∈ bs → Holding b ∉ y :: ts.
Proof.
  intros Hc Hb Hh. assert (b ∈ frozen g') as Hf.
  { apply step_frozen. exists (MigCopy bs). by split. }
  assert (Hold : MigCopy bs ∈ ts → Holding b ∉ ts).
  { intros Hc' Hh'. by apply (inv_copy _ _ Hinv bs b); [right| |right]. }
  apply elem_of_cons in Hc as [<-|Hc], Hh as [Hh|Hh]; [done| | |naive_solver].
  - inversion Hstep as [| | | | | | | | | |g0 bs0 v Hd| | | | |]; subst.
    rewrite drained_spec in Hd. apply Hd in Hb. rewrite (inv_count _ _ Hinv), count_skip in Hb by done.
    apply count_pos in Hh. lia.
  - subst y. inversion Hstep as [| |g0 g0' b0 v Hp| | | | | | | | | | | | |]; subst.
    unfold try_enter in Hp. case_decide as Hnf; simplify_eq. done.
Qed.

(** *** Notification *)

Lemma step_version : version g ≤ version g'.
Proof.
  destruct Hstep as [| |g0 g0' b v Hp| | |g0 b|g0| | | | | | | |g0|]; try done.
  - unfold try_enter in Hp. case_decide; simplify_eq. done.
  - unfold leave. by destruct (in_flight g0 !! b).
  - cbn. destruct (existsb _ _); lia.
  - cbn. destruct (existsb _ _); lia.
Qed.

Lemma step_seen z v : z ∈ y :: ts → seen z = Some v → v ≤ version g'.
Proof.
  pose proof step_version as Hv. intros [->|Hz]%elem_of_cons Hz'.
  - destruct Hstep as [| | |g0 b v0| | | | | | | |g0 bs v0| | | |]; try done; cbn in Hz'; simplify_eq; try done.
    + by apply (inv_version _ _ Hinv (EnterSub b v)); [left|].
    + by apply (inv_version _ _ Hinv (MigSub bs v)); [left|].
  - etrans; [|exact Hv]. by apply (inv_version _ _ Hinv z); [right|].
Qed.

(** A pending notification reaches every subscribed task. *)
Lemma bump_notifies z v :
  x = LeaveBump ∨ x = MigBump → z ∈ ts → seen z = Some v → v ≠ version g'.
Proof.
  intros Hx Hz Hr. assert (v ≤ version g) as Hle by (by apply (inv_version _ _ Hinv z); [right|]).
  assert (existsb receiving ts = true) as He.
  { apply existsb_exists. exists z. split; [by apply list_elem_of_In|].
    unfold receiving. by rewrite Hr. }
  destruct Hstep; try (by destruct Hx); cbn; rewrite He; lia.
Qed.

Lemma later_version z v : z ∈ ts → seen z = Some v → v ≠ version g → v ≠ version g'.
Proof.
  intros Hz Hs Hne. assert (v ≤ version g) by (by apply (inv_version _ _ Hinv z); [right|]).
  pose proof step_version. lia.
Qed.

Lemma thaw b : b ∈ frozen g → b ∉ frozen g' → y = MigBump.
Proof.
  intros Hf Hnf.
  destruct Hstep as [| |g0 g0' b0 v Hp| | |g0 b0| | | | | | | | | |]; try done.
  - unfold try_enter in Hp. case_decide; simplify_eq. done.
  - unfold leave in Hnf. by destruct (in_flight g0 !! b0).
  - rewrite elem_of_freeze in Hnf. tauto.
Qed.

Lemma token_step b : x = Holding b → y = LeaveBump.
Proof. intros Hx. by destruct Hstep. Qed.

Lemma step_enter_wait b v :
  EnterWait b v ∈ y :: ts → b ∈ frozen g' ∨ v ≠ version g' ∨ MigBump ∈ y :: ts.
Proof.
  intros [Hy|Hin]%elem_of_cons.
  - left. inversion Hstep as [| | |g0 b0 v0 Hp| | | | | | | | | | | |]; try congruence. subst.
    simplify_eq. unfold try_enter in Hp. by case_decide.
  - destruct (inv_enter _ _ Hinv b v) as [Hf|[Hv|Hb]]; [by right|..].
    + destruct (decide (b ∈ frozen g')) as [|Hnf]; [by left|]. right; right.
      rewrite (thaw b Hf Hnf). left.
    + right; left. by eapply later_version.
    + right. apply elem_of_cons in Hb as [Hx|Hb]; [left|right; by right].
      by eapply bump_notifies; [right| |].
Qed.

Lemma step_drain_wait bs v :
  MigWait bs v ∈ y :: ts →
  (∃ b, b ∈ bs ∧ Holding b ∈ y :: ts) ∨ v ≠ version g' ∨ LeaveBump ∈ y :: ts.
Proof.
  intros [Hy|Hin]%elem_of_cons.
  - left. inversion Hstep as [| | | | | | | | | | |g0 bs0 v0 Hd| | | |]; try congruence. subst.
    simplify_eq. destruct (decide (Exists (λ b, Holding b ∈ ts) bs)) as [He|Hne].
    { apply Exists_exists in He as (b & ? & ?). exists b. split; [done|by right]. }
    exfalso. apply not_true_iff_false in Hd. apply Hd, drained_spec. intros b Hb.
    rewrite (inv_count _ _ Hinv), count_skip by done.
    destruct (count (Holding b) ts) eqn:Hc; [done|]. destruct Hne. apply Exists_exists.
    exists b. split; [done|]. apply count_pos. lia.
  - destruct (inv_drain _ _ Hinv bs v) as [(b & Hb & Hh)|[Hv|Hl]]; [by right|..].
    + apply elem_of_cons in Hh as [Hx|Hh].
      * right; right. rewrite (token_step b) by done. left.
      * left. exists b. split; [done|by right].
    + right; left. by eapply later_version.
    + right. apply elem_of_cons in Hl as [Hx|Hl]; [left|right; by right].
      by eapply bump_notifies; [left| |].
Qed.

Lemma step_inv : inv g' (y :: ts).
Proof.
  split; [exact step_count|exact step_lock|exact step_frozen|exact step_copy
         |exact step_enter_wait|exact step_drain_wait|exact step_seen].
Qed.

End preservation.

Lemma reachable_inv s : reachable s → inv s.1 s.2.
Proof.
  intros (s0 & H0 & Hrtc). apply inv_initial in H0. revert H0.
  induction Hrtc as [|s1 s2 s3 Hst _ IH]; [done|]. intros Hinv. apply IH. clear IH.
  destruct Hst as [l1 l2 g x g' y Hloc]. cbn [fst snd] in *.
  rewrite <-Permutation_middle in *. by eapply step_inv.
Qed.

(** C10. Exclusion: in every reachable state of the gate, while a migration is
    past [drain] on a chunk of buckets (copying and cutting over), no data
    operation is inside any of these buckets; and no operation can enter one,
    since they all stay frozen. *)
Theorem copy_excludes_operations g ts bs b :
  reachable (g, ts) → MigCopy bs ∈ ts → b ∈ bs →
  Holding b ∉ ts ∧ try_enter g b = None.
Proof.
  intros Hr%reachable_inv Hc Hb. split; [by eapply inv_copy|].
  unfold try_enter. rewrite decide_True; [done|].
  apply (inv_frozen _ _ Hr). by exists (MigCopy bs).
Qed.

(** No wakeup is lost: an operation waiting for a bucket that is no longer
    frozen has already been notified or the notification is about to be sent,
    and a migration waiting for buckets that are all drained likewise. *)
Theorem no_lost_wakeup g ts :
  reachable (g, ts) →
  (∀ b v, EnterWait b v ∈ ts → b ∉ frozen g → version g ≠ v ∨ MigBump ∈ ts)
  ∧ (∀ bs v, MigWait bs v ∈ ts → drained g bs = true → version g ≠ v ∨ LeaveBump ∈ ts).
Proof.
  intros Hr%reachable_inv. split.
  - intros b v Hin Hnf. destruct (inv_enter _ _ Hr b v Hin) as [?|[?|?]]; naive_solver.
  - intros bs v Hin Hd. rewrite drained_spec in Hd.
    destruct (inv_drain _ _ Hr bs v Hin) as [(b & Hb & Hh)|[?|?]]; [|naive_solver..].
    apply Hd in Hb. rewrite (inv_count _ _ Hr) in Hb. apply count_pos in Hh. cbn in *. lia.
Qed.

(** A task that can take a step of its own, other than starting new work. *)
Definition can_step (g : GateState) (ts : list task) (x : task) : Prop :=
  x ≠ Idle ∧ ∃ l1 l2 g' y, ts = l1 ++ x :: l2 ∧ local (l1 ++ l2) g x g' y.

Lemma unblocked g ts x :
  x ∈ ts → (∀ b v, x = EnterWait b v → version g ≠ v) →
  (∀ bs v, x = MigWait bs v → version g ≠ v) → x ≠ Idle → can_step g ts x.
Proof.
  intros Hin Hw Hm Hi. split; [done|].
  apply list_elem_of_split in Hin as (l1 & l2 & ->).
  assert (∃ g' y, local (l1 ++ l2) g x g' y) as (g' & y & Hl).
  { destruct x as [|b|b v|b v|b| | |bs|bs v|bs v|bs|]; try done.
    - eexists _, _. constructor.
    - destruct (try_enter g b) eqn:He; eexists _, _; [by apply enter_pass|by apply enter_block].
    - eexists _, _. apply enter_woken. by eapply Hw.
    - eexists _, _. constructor.
    - eexists _, _. constructor.
    - eexists _, _. apply mig_end.
    - eexists _, _. constructor.
    - destruct (drained g bs) eqn:He; eexists _, _; [by apply drain_pass|by apply drain_block].
    - eexists _, _. apply drain_woken. by eapply Hm.
    - eexists _, _. constructor.
    - eexists _, _. constructor. }
  by exists l1, l2, g', y.
Qed.

(** C39. The gate cannot deadlock: in every reachable state with a task that is
    not idle, some task that is not idle can take its next step, so waiting
    operations and migrations never block one another for good. *)
Theorem gate_deadlock_free g ts x :
  reachable (g, ts) → x ∈ ts → x ≠ Idle → ∃ z, z ∈ ts ∧ can_step g ts z.
Proof.
  intros Hr%reachable_inv Hx Hi. cbn [fst snd] in Hr.
  assert (Hfree : ∀ z, z ∈ ts → z ≠ Idle → (∀ b v, z ≠ EnterWait b v) →
    (∀ bs v, z ≠ MigWait bs v) → ∃ z, z ∈ ts ∧ can_step g ts z).
  { intros z Hz Hzi H1 H2. exists z. split; [done|].
    apply unblocked; [done|intros b v ?; by destruct (H1 b v)|
      intros bs v ?; by destruct (H2 bs v)|done]. }
  assert (Hmw : ∀ bs v, MigWait bs v ∈ ts → ∃ z, z ∈ ts ∧ can_step g ts z).
  { intros bs v Hin. destruct (inv_drain _ _ Hr _ _ Hin) as [(b & _ & Hh)|[Hv|Hl]].
    - by apply (Hfree (Holding b)).
    - exists (MigWait bs v). split; [done|]. apply unblocked; naive_solver.
    - by apply (Hfree LeaveBump). }
  destruct x as [|b|b v|b v|b| | |bs|bs v|bs v|bs|]; try done; try by eapply Hfree.
  - destruct (inv_enter _ _ Hr _ _ Hx) as [Hf|[Hv|Hl]].
    + apply (inv_frozen _ _ Hr) in Hf as (z & Hz & Hb).
      destruct z; cbn in Hb; try (by apply elem_of_nil in Hb); try by eapply Hfree. by eapply Hmw.
    + exists (EnterWait b v). split; [done|]. apply unblocked; naive_solver.
    + by apply (Hfree MigBump).
  - by eapply Hmw.
Qed.

(** *** A run with a migration and a blocked operation *)

(** Extend a run by one step of the task after the prefix [l1]. *)
Ltac run_step l1 rule :=
  eapply rtc_r; [|eapply (step_task l1 _); rule].

Definition gate_copying : GateState := freeze new [3].
Definition gate_thawed : GateState := unfreeze gate_copying [3].

Lemma run_copying : reachable (gate_copying, [EnterWait 3 0; MigCopy [3]]).
Proof.
  exists (new, [Idle; Idle]). split; [split; [done|set_solver]|].
  run_step (@nil task) ltac:(apply (enter_block _ gate_copying); reflexivity).
  run_step (@nil task) ltac:(apply (enter_subscribe _ gate_copying)).
  run_step (@nil task) ltac:(apply (arrival _ gate_copying)).
  run_step [Idle] ltac:(apply (drain_pass _ gate_copying _ 0); reflexivity).
  run_step [Idle] ltac:(apply (drain_subscribe _ gate_copying)).
  run_step [Idle] ltac:(apply (mig_freeze _ new)).
  run_step [Idle] ltac:(apply mig_begin; reflexivity).
  apply rtc_refl.
Qed.

Lemma run_thawed : reachable (gate_thawed, [EnterWait 3 0; MigBump]).
Proof.
  destruct run_copying as (s0 & H0 & Hr). exists s0. split; [done|].
  eapply rtc_r; [exact Hr|]. apply (step_task [EnterWait 3 0] [] gate_copying).
  apply mig_unfreeze.
Qed.

Lemma copy_excludes_operations_witness :
  Holding 3 ∉ [EnterWait 3 0; MigCopy [3]] ∧ try_enter gate_copying 3 = None.
Proof.
  apply (copy_excludes_operations gate_copying _ [3]); [apply run_copying|set_solver|set_solver].
Defined.

Lemma no_lost_wakeup_witness :
  version gate_thawed ≠ 0 ∨ MigBump ∈ [EnterWait 3 0; MigBump].
Proof.
  apply (proj1 (no_lost_wakeup gate_thawed _ run_thawed) 3 0);
    [left|]. unfold gate_thawed. rewrite elem_of_unfreeze. set_solver.
Defined.

Lemma gate_deadlock_free_witness :
  ∃ z, z ∈ [EnterWait 3 0; MigCopy [3]]
       ∧ can_step gate_copying [EnterWait 3 0; MigCopy [3]] z.
Proof.
  apply (gate_deadlock_free gate_copying _ (EnterWait 3 0)); [apply run_copying|left|discriminate].
Defined.

End Guard.
