(* ===== verification/Proc.v ===== *)
(** * Tasks that interleave

    An [async] function as a tree of atomic steps: between two of them any other
    task may run.  A step acts on the shared state, or cannot be taken yet (the
    task waits).  The program logic of this file is rely-guarantee: [wp] is the
    weakest condition under which a task keeps an invariant and a guarantee and
    ends in a postcondition, whatever the other tasks do within its rely.  The
    shared state is paired with ghost state that only proofs see. *)

From S2P Require Import Prelude.

Module Proc.

Inductive proc (S A : Type) : Type :=
  | Ret (a : A)
  | Act (f : S → option (S * proc S A)).
Arguments Ret {_ _} _.
Arguments Act {_ _} _.

(** One step, if the task is not done and not waiting. *)
Definition next {S A} (p : proc S A) (s : S) : option (S * proc S A) :=
  match p with Ret _ => None | Act f => f s end.

(** A step leads to a smaller tree. *)
Definition sub {S A} (q p : proc S A) : Prop := ∃ s s', next p s = Some (s', q).

Section acc.
Context {S A : Type}.

Fixpoint sub_acc (p : proc S A) : Acc sub p.
Proof.
  destruct p as [a|f]; constructor; intros q (s & s' & Hq); cbn in Hq; [discriminate Hq|].
  destruct (f s) as [[s1 q1]|]; [|discriminate Hq]. injection Hq as _ <-. apply sub_acc.
Defined.

(** Induction over the steps. *)
Lemma proc_ind_next (P : proc S A → Prop) :
  (∀ a, P (Ret a)) →
  (∀ f, (∀ s s' q, f s = Some (s', q) → P q) → P (Act f)) → ∀ p, P p.
Proof.
  intros Hr Ha p. induction (sub_acc p) as [p _ IH]. destruct p as [a|f]; [done|].
  apply Ha. intros s s' q Hq. apply IH. by exists s, s'.
Qed.

End acc.

(** ** Sequencing *)

Fixpoint bind {S A B} (p : proc S A) (k : A → proc S B) : proc S B :=
  match p with
  | Ret a => k a
  | Act f => Act (λ s, match f s with
                       | Some (s', q) => Some (s', bind q k)
                       | None => None
                       end)
  end.

#[global] Instance proc_ret S : MRet (proc S) := λ A a, Ret a.
#[global] Instance proc_bind S : MBind (proc S) := λ A B k p, bind p k.

(** A step that always can be taken. *)
Definition atomic {S A} (f : S → S * A) : proc S A :=
  Act (λ s, let '(s', a) := f s in Some (s', Ret a)).

(** [for x in xs { r = body(r, x) }]. *)
Fixpoint loop {S A R} (xs : list A) (r : R) (body : R → A → proc S R) : proc S R :=
  match xs with
  | [] => Ret r
  | x :: xs' => r' ← body r x; loop xs' r' body
  end.

(** The task running alone; [None] when it waits for ever. *)
Fixpoint alone {S A} (p : proc S A) (s : S) : option (S * A) :=
  match p with
  | Ret a => Some (s, a)
  | Act f => match f s with Some (s', q) => alone q s' | None => None end
  end.

Lemma alone_bind {S A B} (p : proc S A) (k : A → proc S B) s :
  alone (p ≫= k) s = '(s', a) ← alone p s; alone (k a) s'.
Proof.
  revert s. induction p as [a|f IH] using proc_ind_next; intros s; [done|].
  unfold mbind, proc_bind. cbn [bind alone]. destruct (f s) as [[s' q]|] eqn:Hq; [|done].
  by apply (IH s s').
Qed.

Lemma alone_then {S A B} (p : proc S A) (k : A → proc S B) s s' a :
  alone p s = Some (s', a) → alone (p ≫= k) s = alone (k a) s'.
Proof. intros Hp. by rewrite alone_bind, Hp. Qed.

Lemma alone_atomic {S A} (f : S → S * A) s : alone (atomic f) s = Some (f s).
Proof. unfold atomic. cbn. by destruct (f s). Qed.

(** ** The logic *)

Section wp.
Context {S G : Type}.
(** Ghost state rides along. *)
Implicit Types (x y : S * G).
Context (Inv : S * G → Prop) (rely guar : S * G → S * G → Prop) (blocked : S * G → Prop).
Context `{!PreOrder rely}.

(** Before every step the others may have moved; a step of the task comes with
    a change of the ghost state that keeps the invariant and the guarantee; a
    task that cannot step is [blocked]. *)
Fixpoint wp {A} (p : proc S A) (Q : A → S * G → Prop) (x : S * G) : Prop :=
  match p with
  | Ret a => ∀ y, rely x y → Inv y → Q a y
  | Act f => ∀ y, rely x y → Inv y →
      match f y.1 with
      | Some (s', q) => ∃ g', Inv (s', g') ∧ guar y (s', g') ∧ wp q Q (s', g')
      | None => blocked y
      end
  end.

Lemma wp_stable {A} (p : proc S A) Q x y : rely x y → wp p Q x → wp p Q y.
Proof. intros Hxy. destruct p; intros Hp z Hyz; apply Hp; by etrans. Qed.

Lemma wp_ret {A} (a : A) Q x : (∀ y, rely x y → Inv y → Q a y) → wp (mret a) Q x.
Proof. done. Qed.

Lemma wp_act {A} (f : S → option (S * proc S A)) Q x :
  (∀ y, rely x y → Inv y →
    match f y.1 with
    | Some (s', q) => ∃ g', Inv (s', g') ∧ guar y (s', g') ∧ wp q Q (s', g')
    | None => blocked y
    end) → wp (Act f) Q x.
Proof. done. Qed.

(** An atomic step: the result may be described before the others move again. *)
Lemma wp_atomic {A} (f : S → S * A) Q x :
  (∀ y, rely x y → Inv y → ∃ g', Inv ((f y.1).1, g') ∧ guar y ((f y.1).1, g')
     ∧ ∀ z, rely ((f y.1).1, g') z → Inv z → Q (f y.1).2 z) →
  wp (atomic f) Q x.
Proof.
  intros Hf y Hxy Hy. specialize (Hf y Hxy Hy). destruct (f y.1) as [s' a]. exact Hf.
Qed.

Lemma wp_mono {A} (p : proc S A) Q Q' x :
  (∀ a y, Q a y → Q' a y) → wp p Q x → wp p Q' x.
Proof.
  intros HQ. revert x. induction p as [a|f IH] using proc_ind_next; intros x Hp y Hxy Hy.
  - by apply HQ, Hp.
  - specialize (Hp y Hxy Hy). destruct (f y.1) as [[s' q]|] eqn:Hq; [|done].
    destruct Hp as (g' & ? & ? & Hw). exists g'. split_and!; [done..|]. by eapply IH.
Qed.

Lemma wp_bind {A B} (p : proc S A) (k : A → proc S B) Q x :
  wp p (λ a, wp (k a) Q) x → Inv x → wp (p ≫= k) Q x.
Proof.
  unfold mbind, proc_bind. revert x. induction p as [a|f IH] using proc_ind_next; intros x Hp Hx.
  - by apply (Hp x).
  - cbn [bind]. intros y Hxy Hy. specialize (Hp y Hxy Hy).
    destruct (f y.1) as [[s' q]|] eqn:Hq; [|done].
    destruct Hp as (g' & Hi & ? & Hw). exists g'. split_and!; [done..|]. by eapply IH.
Qed.

(** Sequencing nests either way. *)
Lemma wp_assoc {A B C} (p : proc S A) (k : A → proc S B) (h : B → proc S C) Q x :
  wp ((p ≫= k) ≫= h) Q x → wp (p ≫= λ a, k a ≫= h) Q x.
Proof.
  unfold mbind, proc_bind. revert x. induction p as [a|f IH] using proc_ind_next; intros x Hp; [done|].
  cbn [bind] in *. intros y Hxy Hy. specialize (Hp y Hxy Hy). cbn in Hp.
  destruct (f y.1) as [[s' q]|] eqn:Hq; [|done].
  destruct Hp as (g' & ? & ? & Hw). exists g'. split_and!; [done..|]. by eapply IH.
Qed.

(** A postcondition comes with the invariant. *)
Lemma wp_inv {A} (p : proc S A) Q x : wp p Q x → wp p (λ a y, Q a y ∧ Inv y) x.
Proof.
  revert x. induction p as [a|f IH] using proc_ind_next; intros x Hp y Hxy Hy.
  - split; [by apply Hp|done].
  - specialize (Hp y Hxy Hy). destruct (f y.1) as [[s' q]|] eqn:Hq; [|done].
    destruct Hp as (g' & ? & ? & ?). exists g'. split_and!; [done..|]. by eapply IH.
Qed.

(** A loop invariant may speak of the elements already visited. *)
Lemma wp_loop {A R} (xs : list A) (r : R) (body : R → A → proc S R)
    (I : list A → R → S * G → Prop) x :
  (∀ pre a post r y, xs = pre ++ a :: post → I pre r y → Inv y →
     wp (body r a) (λ r', I (pre ++ [a]) r') y) →
  (∀ r y z, I xs r y → rely y z → Inv z → I xs r z) →
  I [] r x → Inv x → wp (loop xs r body) (λ r', I xs r') x.
Proof.
  intros Hb Hst. enough (∀ pre ys r x, xs = pre ++ ys → I pre r x → Inv x →
    wp (loop ys r body) (λ r', I xs r') x) as H by (by apply H).
  intros pre ys. revert pre. induction ys as [|a ys IH]; intros pre r' y Hxs HI Hy.
  - rewrite app_nil_r in Hxs. subst pre. intros z Hyz Hz. by eapply Hst.
  - cbn [loop]. apply wp_bind; [|done]. pose proof (Hb pre a ys r' y Hxs HI Hy) as Hw.
    eapply wp_mono; [|by apply wp_inv]. intros r'' z [HI' Hz]. eapply IH; [|done|done].
    by rewrite <-app_assoc.
Qed.

End wp.

End Proc.
