(* ===== verification/Replica.v ===== *)
(** * What a replica shows

    The abstraction the cluster theorems are stated with: a shard [shows] a
    view (a function from collection and key to the value read there) on the
    managed collections, for data without expiry.  Every shard operation is a
    function on views; the lemmas of this file are that correspondence. *)

From S2P Require Import Prelude Machine Text Partitioner Store Lease Shard.

Local Open Scope Z_scope.

Section cell.
Context {V : Type} `{!JsonValue V}.

(** The read-modify-write operations on the value of one key. *)
Definition cell_members (o : option V) : list string := default [] (o ≫= value_to_strings).

Definition cell_set_add (m : string) (o : option V) : option V :=
  if decide (m ∈ cell_members o) then o else Some (value_from_strings (cell_members o ++ [m])).

Definition cell_set_remove (m : string) (o : option V) : option V :=
  let arr := filter (.≠ m) (cell_members o) in
  if (length arr =? length (cell_members o))%nat then o
  else if decide (arr = []) then None else Some (value_from_strings arr).

Definition cell_int (o : option V) : option Z :=
  match o with None => Some 0 | Some v => value_int v end.

Definition cell_incr (d : Z) (o : option V) : option V * option Z :=
  match cell_int o with
  | None => (o, None)
  | Some c => (Some (value_from_i64 (i64_wrapping_add c d)), Some (i64_wrapping_add c d))
  end.

Definition cell_cas (expect : option V) (nw : V) (o : option V) : option V * bool :=
  if option_value_eqb o expect then (Some nw, true) else (o, false).

Definition view : Type := string → string → option V.

Definition upd (m : view) (c k : string) (r : option V) : view := λ c' k',
  if decide ((c, k) = (c', k')) then r else m c' k'.

(** Copy buckets [bs] of collection [c] of [ms] over [mt]; drop them. *)
Definition copied (c : string) (bs : list nat) (ms mt : view) : view := λ c' k',
  if decide (Shard.moves c bs c' k' ∧ is_Some (ms c' k')) then ms c' k' else mt c' k'.

Definition dropped (c : string) (bs : list nat) (m : view) : view := λ c' k',
  if decide (Shard.moves c bs c' k') then None else m c' k'.

End cell.

Arguments view : clear implicits.

Section shows.
Context {V St : Type} `{!IndexStore V St, !IndexStoreLaws V St, !JsonValue V}.
Context (colls : list string).
Implicit Types (sh : Shard.t St) (m : view V).

Definition shows sh m : Prop :=
  store_wf (Shard.store sh)
  ∧ ∀ c k, c ∈ colls →
      expiry_of (Shard.store sh) c k = None ∧ ∀ now, Shard.object now sh c k = m c k.

(** What an operation may write at a key, fit for the backend: any number, any
    list of strings. *)
Definition numbers_ok (c k : string) : Prop :=
  ∀ z, is_i64 z → entry_ok (V := V) c k (value_from_i64 z).
Definition lists_ok (c k : string) : Prop := ∀ l, entry_ok (V := V) c k (value_from_strings l).

Lemma shows_ext sh m m' :
  (∀ c k, c ∈ colls → m c k = m' c k) → shows sh m → shows sh m'.
Proof.
  intros Hm [Hwf Hs]. split; [done|]. intros c k Hc. destruct (Hs c k Hc) as [He Hg].
  split; [done|]. intros now. by rewrite Hg, Hm.
Qed.

Lemma shows_object sh m now c k : shows sh m → c ∈ colls → Shard.object now sh c k = m c k.
Proof. intros [_ Hs] Hc. by apply Hs. Qed.

Lemma shows_writes sh sh' m c k r :
  shows sh m → writes (Shard.store sh) (Shard.store sh') c k r → shows sh' (upd m c k r).
Proof.
  intros [_ Hs] (Hwf & He & Hg & Hf). split; [done|]. intros c' k' Hc'. unfold upd.
  case_decide as Hk; [simplify_eq; done|]. destruct (Hf c' k' Hk) as [-> Hg'].
  destruct (Hs c' k' Hc') as [-> Ho]. split; [done|]. intros now.
  unfold Shard.object in *. by rewrite Hg', Ho.
Qed.

Lemma shows_same sh m c k : shows sh m → shows sh (upd m c k (m c k)).
Proof.
  apply shows_ext. intros c' k' _. unfold upd. case_decide; [by simplify_eq|done].
Qed.

Lemma shows_put sh m c k v :
  shows sh m → entry_ok c k v → shows (Shard.write_object sh c k v) (upd m c k (Some v)).
Proof. intros Hs Hok. eapply shows_writes; [done|]. apply put_writes; [apply Hs|apply Hok]. Qed.

Lemma shows_delete sh m c k :
  shows sh m → shows (Shard.delete_object sh c k) (upd m c k None).
Proof. intros Hs. eapply shows_writes; [done|]. apply delete_writes, Hs. Qed.

Lemma shows_members sh m now c k :
  shows sh m → c ∈ colls → Store.set_members now (Shard.store sh) c k = cell_members (m c k).
Proof.
  intros Hs Hc. unfold set_members, cell_members.
  by rewrite <-(shows_object sh m now c k Hs Hc).
Qed.

Lemma shows_set_add sh m now c k x :
  shows sh m → c ∈ colls → lists_ok c k →
  shows (Shard.set_add now sh c k x).1 (upd m c k (cell_set_add x (m c k))).
Proof.
  intros Hs Hc Hok. unfold Shard.set_add, Store.set_add, cell_set_add.
  rewrite (shows_members sh m now c k Hs Hc). case_decide; [by apply shows_same|].
  by apply shows_put.
Qed.

Lemma shows_set_remove sh m now c k x :
  shows sh m → c ∈ colls → lists_ok c k →
  shows (Shard.set_remove now sh c k x).1 (upd m c k (cell_set_remove x (m c k))).
Proof.
  intros Hs Hc Hok. unfold Shard.set_remove, Store.set_remove, cell_set_remove.
  rewrite (shows_members sh m now c k Hs Hc).
  destruct (_ =? _)%nat; [by apply shows_same|].
  case_decide; [by apply shows_delete|by apply shows_put].
Qed.

Lemma shows_incr sh m now c k d :
  shows sh m → c ∈ colls → numbers_ok c k →
  shows (Shard.incr now sh c k d).1 (upd m c k (cell_incr d (m c k)).1)
  ∧ (Shard.incr now sh c k d).2 = (cell_incr d (m c k)).2.
Proof.
  intros Hs Hc Hok. pose proof (shows_object sh m now c k Hs Hc) as Ho.
  unfold Shard.object in Ho. unfold Shard.incr, Store.incr, cell_incr, cell_int. rewrite Ho.
  destruct (match m c k with Some v => value_int v | None => Some 0 end).
  - split; [apply shows_put; [done|apply Hok, i64_wrap_range]|done].
  - split; [by apply shows_same|done].
Qed.

Lemma shows_cas sh m now c k e v :
  shows sh m → c ∈ colls → entry_ok c k v →
  shows (Shard.cas now sh c k e v).1 (upd m c k (cell_cas e v (m c k)).1)
  ∧ (Shard.cas now sh c k e v).2 = (cell_cas e v (m c k)).2.
Proof.
  intros Hs Hc Hok. pose proof (shows_object sh m now c k Hs Hc) as Ho.
  unfold Shard.object in Ho. unfold Shard.cas, Store.cas, cell_cas. rewrite Ho.
  destruct (option_value_eqb _ _).
  - split; [by apply shows_put|done].
  - split; [by apply shows_same|done].
Qed.

Lemma shows_copy src tgt ms mt now c bs :
  shows src ms → shows tgt mt → c ∈ colls →
  shows (Shard.import_entries tgt c (Shard.export_entries now src c bs)) (copied c bs ms mt).
Proof.
  intros Hsrc Htgt Hc. pose proof (proj1 Hsrc) as Hwf.
  destruct (Shard.import_entries_spec tgt c _ (proj1 Htgt) (Shard.export_ok now src c bs Hwf))
    as [Hwf' Hget].
  split; [done|]. intros c' k Hc'. specialize (Hget c' k).
  rewrite Shard.imported_export in Hget by done.
  destruct (proj2 Htgt c' k Hc') as [He Hg]. unfold copied, Shard.moves.
  pose proof (shows_object src ms now c k Hsrc Hc) as Ho.
  destruct (decide (c' = c)) as [->|Hne].
  - destruct (decide (Partitioner.bucket_of k ∈ bs)) as [Hb|Hb].
    + rewrite Ho in Hget. destruct (ms c k) as [v|].
      * rewrite decide_True by (split; [done|]; by eexists). done.
      * rewrite decide_False by (intros [_ [? ?]]; done). destruct Hget as [-> Hget].
        split; [done|]. intros. by rewrite Hget.
    + rewrite decide_False by naive_solver. destruct Hget as [-> Hget].
      split; [done|]. intros. by rewrite Hget.
  - rewrite decide_False by naive_solver. destruct Hget as [-> Hget].
    split; [done|]. intros. by rewrite Hget.
Qed.

Lemma shows_drop sh m now c bs :
  shows sh m → c ∈ colls → shows (Shard.drop_buckets now sh c bs).1 (dropped c bs m).
Proof.
  intros Hs Hc. rewrite Shard.drop_buckets_delete_all. cbn [fst].
  destruct (Shard.delete_all_spec sh c (map fst (Shard.export_entries now sh c bs)) (proj1 Hs))
    as [Hwf Hget].
  split; [done|]. intros c' k Hc'. specialize (Hget c' k).
  destruct (proj2 Hs c' k Hc') as [He Hg]. unfold dropped, Shard.moves.
  case_decide as Hin.
  - destruct Hin as [-> Hin]. apply Shard.elem_of_exported_keys in Hin; [|apply Hs].
    rewrite decide_True by naive_solver. done.
  - destruct Hget as [-> Hget]. split; [done|]. intros now'. rewrite Hget, Hg.
    case_decide as Hm; [|done]. destruct Hm as [-> Hb]. apply eq_None_not_Some. intros Hsome.
    apply Hin. split; [done|]. apply Shard.elem_of_exported_keys; [apply Hs|].
    by rewrite (shows_object sh m now c k Hs Hc).
Qed.

End shows.
