(* ===== verification/Redis.v ===== *)
(** * The Redis front end refines a Redis key space

    An abstract key space holds strings and sets; its commands are those of
    Redis, with Redis's errors: a command on a key of the other kind, an
    increment of text that is not a canonical 64-bit numeral, an increment that
    overflows.  The front end of [Resp], over any lawful store, gives exactly the
    replies of that object on the sequences that stay within [supported]; what it
    does outside is stated too. *)

From S2P Require Import Prelude Machine Text Wire Store Shard Replica Resp.

Local Open Scope Z_scope.

(** The documented behaviour of [serde_json] the front end relies on. *)
Class RespValueLaws (V : Type) `{!JsonValue V, !WireJson V} := {
  vec_of_i64 : ∀ z, is_i64 z → value_to_vec (value_from_i64 z) = as_bytes (i64_to_string z);
  str_of_i64 : ∀ z, value_as_str (value_from_i64 z) = None;
  array_of_i64 : ∀ z, value_as_array (value_from_i64 z) = None;
  array_of_str : ∀ t, value_as_array (value_from_str t) = None;
  array_of_strings : ∀ l, value_as_array (value_from_strings l) = Some (map value_from_str l);
}.

Module Redis.
Import Resp.

(** ** The abstract object *)

Inductive rval :=
  | RString (t : string)
  | RSet (l : list string).      (** the members, in the order they were added *)

Abbreviation keyspace := (gmap string rval).

Inductive cmd :=
  | GET (k : string) | SET (k t : string) | GETSET (k t : string)
  | DEL (ks : list string) | EXISTS (ks : list string)
  | INCR (k : string) | DECR (k : string)
  | INCRBY (k : string) (d : Z) | DECRBY (k : string) (d : Z)
  | SADD (k : string) (ms : list string) | SREM (k : string) (ms : list string)
  | SMEMBERS (k : string) | SCARD (k : string) | SISMEMBER (k m : string)
  | TYPE (k : string).

Implicit Types (m : keyspace) (k : string) (c : cmd).

(** String commands on string keys, set commands on set keys. *)
Definition no_set m k : bool := match m !! k with Some (RSet _) => false | _ => true end.
Definition no_string m k : bool := match m !! k with Some (RString _) => false | _ => true end.

Definition well_typed m c : bool :=
  match c with
  | GET k | GETSET k _ | INCR k | DECR k | INCRBY k _ | DECRBY k _ => no_set m k
  | SADD k _ | SREM k _ | SMEMBERS k | SCARD k | SISMEMBER k _ => no_string m k
  | SET _ _ | DEL _ | EXISTS _ | TYPE _ => true
  end.

Definition wrong_type : resp := Error "WRONGTYPE Operation against a key holding the wrong kind of value".

Definition get_reply (r : option rval) : resp :=
  match r with Some (RString t) => Bulk (Some (as_bytes t)) | _ => Bulk None end.

Definition members (r : option rval) : list string :=
  match r with Some (RSet l) => l | _ => [] end.

Definition del1 m k : keyspace * bool := (delete k m, bool_decide (is_Some (m !! k))).

Definition sadd1 k m (x : string) : keyspace * bool :=
  let l := members (m !! k) in
  if decide (x ∈ l) then (m, false) else (<[k := RSet (l ++ [x])]> m, true).

Definition srem1 k m (x : string) : keyspace * bool :=
  let l := members (m !! k) in
  if decide (x ∈ l) then
    let l' := filter (.≠ x) l in
    (if decide (l' = []) then delete k m else <[k := RSet l']> m, true)
  else (m, false).

(** One argument after the other, counting the ones that changed something. *)
Fixpoint count_loop (op : keyspace → string → keyspace * bool) m (xs : list string) (n : Z)
    : keyspace * Z :=
  match xs with
  | [] => (m, n)
  | x :: xs' => let '(m', b) := op m x in count_loop op m' xs' (if b : bool then n + 1 else n)
  end.

Definition exists_count m (ks : list string) : Z :=
  foldr (λ k n, (if bool_decide (is_Some (m !! k)) then 1 else 0) + n) 0 ks.

Definition not_integer : resp := Error "ERR value is not an integer or out of range".

Definition overflow : resp := Error "ERR increment or decrement would overflow".
Definition negation_overflow : resp := Error "ERR decrement would overflow".

(** Redis counts only what it would print itself: no white space, no sign [+],
    no leading zero, within 64 bits. *)
Definition numeral (t : string) : option Z :=
  z ← parse_i64 t; if String.eqb (i64_to_string z) t then Some z else None.

Definition counter m k : option Z :=
  match m !! k with None => Some 0 | Some (RString t) => numeral t | _ => None end.

Definition incr_by m k (d : Z) : keyspace * resp :=
  match counter m k with
  | Some z =>
      if decide (is_i64 (z + d)) then (<[k := RString (i64_to_string (z + d))]> m, Int (z + d))
      else (m, overflow)
  | None => (m, not_integer)
  end.

Definition counted (x : keyspace * Z) : keyspace * resp := (x.1, Int x.2).

Definition step m c : keyspace * resp :=
  if negb (well_typed m c) then (m, wrong_type)
  else match c with
  | GET k => (m, get_reply (m !! k))
  | SET k t => (<[k := RString t]> m, Simple "OK")
  | GETSET k t => (<[k := RString t]> m, get_reply (m !! k))
  | DEL ks => counted (count_loop del1 m ks 0)
  | EXISTS ks => (m, Int (exists_count m ks))
  | INCR k => incr_by m k 1
  | DECR k => incr_by m k (-1)
  | INCRBY k d => incr_by m k d
  | DECRBY k d => if d =? - 2 ^ 63 then (m, negation_overflow) else incr_by m k (- d)
  | SADD k ms => counted (count_loop (sadd1 k) m ms 0)
  | SREM k ms => counted (count_loop (srem1 k) m ms 0)
  | SMEMBERS k => (m, bulk_array (members (m !! k)))
  | SCARD k => (m, Int (Z.of_nat (length (members (m !! k)))))
  | SISMEMBER k x => (m, Int (if decide (x ∈ members (m !! k)) then 1 else 0))
  | TYPE k => (m, Simple (match m !! k with
                          | None => "none" | Some (RString _) => "string" | Some (RSet _) => "set"
                          end))
  end.

Fixpoint steps m (cs : list cmd) : keyspace * list resp :=
  match cs with
  | [] => (m, [])
  | c :: cs' => let '(m1, r) := step m c in let '(m2, rs) := steps m1 cs' in (m2, r :: rs)
  end.

(** The increments the front end treats as Redis does: of a canonical numeral,
    the sum within 64 bits, or of text that is no number even once trimmed. *)
Definition sum_fits m k (d : Z) : bool :=
  match m !! k with
  | Some (RString t) =>
      match numeral t with
      | Some z => bool_decide (is_i64 (z + d))
      | None => bool_decide (parse_i64 (trim t) = None)
      end
  | _ => bool_decide (is_i64 d)
  end.

Definition supported m c : bool :=
  well_typed m c
  && match c with
     | INCR k => sum_fits m k 1
     | DECR k => sum_fits m k (-1)
     | INCRBY k d => sum_fits m k d
     | DECRBY k d => sum_fits m k (- d) && negb (d =? - 2 ^ 63)
     | _ => true
     end.

Fixpoint all_supported m (cs : list cmd) : bool :=
  match cs with
  | [] => true
  | c :: cs' => supported m c && all_supported (step m c).1 cs'
  end.

(** ** Commands on the wire *)

Definition words c : list string :=
  match c with
  | GET k => ["GET"; k] | SET k t => ["SET"; k; t] | GETSET k t => ["GETSET"; k; t]
  | DEL ks => "DEL" :: ks | EXISTS ks => "EXISTS" :: ks
  | INCR k => ["INCR"; k] | DECR k => ["DECR"; k]
  | INCRBY k d => ["INCRBY"; k; i64_to_string d] | DECRBY k d => ["DECRBY"; k; i64_to_string d]
  | SADD k ms => "SADD" :: k :: ms | SREM k ms => "SREM" :: k :: ms
  | SMEMBERS k => ["SMEMBERS"; k] | SCARD k => ["SCARD"; k]
  | SISMEMBER k x => ["SISMEMBER"; k; x] | TYPE k => ["TYPE"; k]
  end%string.

Definition to_args c : list bytes := map as_bytes (words c).

(** Text is valid UTF-8, lengths fit, counts are positive, deltas are i64. *)
Definition cmd_ok c : Prop :=
  args_ok (to_args c) ∧ forallb (λ t, is_utf8 (as_bytes t)) (words c) = true
  ∧ match c with
    | DEL xs | EXISTS xs | SADD _ xs | SREM _ xs => xs ≠ []
    | INCRBY _ d | DECRBY _ d => is_i64 d
    | _ => True
    end.

Definition cmd_name c : string := default EmptyString (head (words c)).

(** ** Numerals and text *)

Lemma s_text t : is_utf8 (as_bytes t) = true → s (as_bytes t) = t.
Proof. intros Ht. unfold s. rewrite lossy_text_valid by done. apply text_as_bytes. Qed.

(** A byte that starts or ends no white space. *)
Definition solid (a : ascii) : bool :=
  negb (ws1 (byte_val a)) && (byte_val a <? 128).

Lemma strip_solid rv a t : solid a = true → strip_ws rv (String a t) = None.
Proof.
  unfold solid. intros [H1 H2]%andb_true_iff. apply negb_true_iff in H1. apply Z.ltb_lt in H2.
  pose proof (byte_val_range a). unfold strip_ws. rewrite H1.
  destruct t as [|b t]; [done|].
  assert (∀ y, ws2 y (byte_val a) = false ∧ ws2 (byte_val a) y = false) as Hw2.
  { intros y. unfold ws2. lia. }
  destruct (Hw2 (byte_val b)) as [-> ->]. replace (if rv then false else false) with false by (by destruct rv).
  destruct t as [|c t]; [done|].
  assert (∀ y z, ws3 z y (byte_val a) = false ∧ ws3 (byte_val a) y z = false) as Hw3.
  { intros y z. unfold ws3. lia. }
  destruct (Hw3 (byte_val b) (byte_val c)) as [-> ->]. by destruct rv.
Qed.

Lemma strip_all_solid rv a t f : solid a = true → strip_all f rv (String a t) = String a t.
Proof. intros Ha. destruct f; [done|]. cbn [strip_all]. by rewrite strip_solid. Qed.

Lemma as_bytes_inj t u : as_bytes t = as_bytes u → t = u.
Proof. intros E. by rewrite <-(text_as_bytes t), <-(text_as_bytes u), E. Qed.

Lemma as_bytes_rev t : as_bytes (String.rev t) = reverse (as_bytes t).
Proof.
  assert (∀ u, as_bytes (String.rev_app t u) = reverse (as_bytes t) ++ as_bytes u) as H.
  { induction t as [|a t IH]; intros u; [done|]. change (as_bytes (String a t)) with (a :: as_bytes t).
    cbn [String.rev_app]. rewrite IH, reverse_cons, <-app_assoc. done. }
  unfold String.rev. by rewrite H, app_nil_r.
Qed.

Lemma strip_solids rv t f : forallb solid (as_bytes t) = true → strip_all f rv t = t.
Proof.
  destruct t as [|a t]; [by destruct f|]. intros [Ha _]%andb_true_iff. by apply strip_all_solid.
Qed.

Lemma trim_solids t : forallb solid (as_bytes t) = true → trim t = t.
Proof.
  intros Ht. unfold trim. rewrite (strip_solids false) by done. cbv zeta.
  rewrite (strip_solids true).
  - apply as_bytes_inj. by rewrite !as_bytes_rev, reverse_involutive.
  - rewrite as_bytes_rev. rewrite forallb_forall in Ht |- *. intros a Ha. apply Ht.
    apply list_elem_of_In, elem_of_reverse. by apply list_elem_of_In.
Qed.

Lemma digits_solid b : forallb digit b = true → forallb solid b = true.
Proof.
  rewrite !forallb_forall. intros H a Ha. specialize (H a Ha). unfold digit, solid, ws1 in *. lia.
Qed.

Lemma i64_digits z :
  is_i64 z → ∃ b, forallb digit b = true
    ∧ (as_bytes (i64_to_string z) = b ∨ as_bytes (i64_to_string z) = "-"%char :: b).
Proof.
  intros Hz. unfold i64_to_string. destruct (Z.ltb_spec z 0).
  - exists (as_bytes (dec_go 20 (- z) EmptyString)). split; [apply dec_go_digits; [lia|done]|by right].
  - exists (as_bytes (dec_go 20 z EmptyString)). split; [apply dec_go_digits; [lia|done]|by left].
Qed.

Lemma parse_i64_range t z : parse_i64 t = Some z → is_i64 z.
Proof.
  unfold parse_i64, is_i64. intros H.
  repeat case_match; repeat (apply bind_Some in H as (? & ? & H));
    unfold Text.in_range in H; case_match; try done; simplify_eq; lia.
Qed.

Lemma numeral_spec t z : numeral t = Some z ↔ is_i64 z ∧ t = i64_to_string z.
Proof.
  unfold numeral. split.
  - intros (y & Hy & H)%bind_Some. destruct (String.eqb_spec (i64_to_string y) t); [|done].
    simplify_eq. split; [by eapply parse_i64_range|done].
  - intros [Hz ->]. rewrite i64_string_roundtrip by done. cbn. by rewrite String.eqb_refl.
Qed.

Lemma parse_trim_i64 z : is_i64 z → parse_i64 (trim (i64_to_string z)) = Some z.
Proof.
  intros Hz. rewrite trim_solids; [by apply i64_string_roundtrip|].
  destruct (i64_digits z Hz) as (b & Hb%digits_solid & [->| ->]); [done|]. by cbn.
Qed.

(** ** The representation *)

Section refinement.
Context {V St : Type} `{!IndexStore V St, !IndexStoreLaws V St, !JsonValue V, !JsonLaws V}.
Context `{!WireJson V, !RespValueLaws V}.
Implicit Types (sh : Shard.t St).

(** A stored value stands for a key's value: a counter for its numeral. *)
Definition rep (o : option V) (r : option rval) : Prop :=
  match o, r with
  | None, None => True
  | Some v, Some (RString t) =>
      v = value_from_str t ∨ ∃ z, is_i64 z ∧ v = value_from_i64 z ∧ t = i64_to_string z
  | Some v, Some (RSet l) => l ≠ [] ∧ v = value_from_strings l
  | _, _ => False
  end.

(** What the command writes fits the store. *)
Definition storable c : Prop :=
  match c with
  | SET k t | GETSET k t => entry_ok COLL k (value_from_str t : V)
  | INCR k | DECR k | INCRBY k _ | DECRBY k _ => numbers_ok (V := V) COLL k
  | SADD k _ | SREM k _ => lists_ok (V := V) COLL k
  | _ => True
  end.

Definition holds sh m : Prop :=
  ∃ view, shows [COLL] sh view ∧ ∀ k, rep (view COLL k) (m !! k).

Lemma rep_upd (view : view V) m k o r :
  (∀ k, rep (view COLL k) (m !! k)) → rep o r →
  ∀ k', rep (upd view COLL k o COLL k') (partial_alter (λ _, r) k m !! k').
Proof.
  intros Hm Hr k'. unfold upd. destruct (decide (k = k')) as [<-|Hk].
  - by rewrite decide_True, lookup_partial_alter_eq.
  - rewrite decide_False, lookup_partial_alter_ne by congruence. apply Hm.
Qed.

Lemma in_colls : COLL ∈ [COLL].
Proof. by left. Qed.

Lemma holds_put sh m k v r :
  holds sh m → entry_ok COLL k v → rep (Some v) (Some r) →
  holds (Shard.write_object sh COLL k v) (<[k := r]> m).
Proof.
  intros (view & Hs & Hm) Hk Hr. eexists. split; [by apply shows_put|].
  exact (rep_upd view m k (Some v) (Some r) Hm Hr).
Qed.

Lemma holds_delete sh m k : holds sh m → holds (Shard.delete_object sh COLL k) (delete k m).
Proof.
  intros (view & Hs & Hm). eexists. split; [by apply shows_delete|].
  exact (rep_upd view m k None None Hm I).
Qed.

Lemma holds_object sh m now k : holds sh m → rep (Shard.object now sh COLL k) (m !! k).
Proof.
  intros (view & Hs & Hm). rewrite (shows_object [COLL] sh view now COLL k Hs in_colls). apply Hm.
Qed.

Lemma reply_get sh m now k :
  holds sh m → no_set m k = true →
  bulk_value (Shard.object now sh COLL k) = encode (get_reply (m !! k)).
Proof.
  intros Hh Hn. pose proof (holds_object sh m now k Hh) as Hr. unfold no_set in Hn.
  destruct (Shard.object now sh COLL k) as [v|], (m !! k) as [[t|l]|]; try done; cbn in Hr.
  destruct Hr as [->|(z & Hz & -> & ->)]; cbn [bulk_value get_reply encode].
  - by rewrite value_as_str_from.
  - by rewrite str_of_i64, vec_of_i64.
Qed.

(** What the store counts from: the text is trimmed, and need not be canonical. *)
Definition code_counter m k : option Z :=
  match m !! k with
  | Some (RString t) => parse_i64 (trim t) | Some (RSet _) => None | None => Some 0
  end.

Lemma holds_counter sh m now k :
  holds sh m → no_set m k = true →
  match get_object now (Shard.store sh) COLL k with Some v => value_int v | None => Some 0 end
  = code_counter m k.
Proof.
  intros Hh Hn. pose proof (holds_object sh m now k Hh) as Hr. unfold no_set in Hn.
  unfold code_counter. unfold Shard.object in Hr.
  destruct (get_object now (Shard.store sh) COLL k) as [v|], (m !! k) as [[t|l]|]; try done.
  cbn in Hr. unfold value_int. destruct Hr as [->|(z & Hz & -> & ->)].
  - by rewrite value_as_i64_str, value_as_str_from.
  - by rewrite value_as_i64_from, parse_trim_i64 by done.
Qed.

Lemma sum_fits_counter m k d :
  no_set m k = true → sum_fits m k d = true →
  code_counter m k = counter m k ∧ ∀ z, counter m k = Some z → is_i64 (z + d).
Proof.
  unfold sum_fits, code_counter, counter, no_set. destruct (m !! k) as [[t|l]|]; [|done|].
  - intros _. destruct (numeral t) as [z|] eqn:Hz; intros Hd%bool_decide_eq_true.
    + apply numeral_spec in Hz as [Hz ->]. rewrite parse_trim_i64 by done.
      split; [done|]. by intros ? [= <-].
    + by split.
  - intros _ Hd%bool_decide_eq_true. split; [done|]. by intros ? [= <-].
Qed.

Lemma holds_incr sh m now k d :
  holds sh m → numbers_ok (V := V) COLL k → no_set m k = true → sum_fits m k d = true →
  holds (incr_reply (Shard.incr now sh COLL k d)).1 (incr_by m k d).1
  ∧ (incr_reply (Shard.incr now sh COLL k d)).2 = encode (incr_by m k d).2.
Proof.
  intros Hh Hk Hn Hd. destruct (sum_fits_counter m k d Hn Hd) as [Hcode Hfit].
  unfold incr_reply, Shard.incr, Store.incr, incr_by. rewrite holds_counter with (m := m) by done.
  rewrite Hcode. destruct (counter m k) as [z|]; [|done]. specialize (Hfit z eq_refl).
  rewrite decide_True by done. cbn. unfold i64_wrapping_add. rewrite i64_wrap_small by done.
  split; [|done]. apply (holds_put sh m k); [done|by apply Hk|]. right. by eexists.
Qed.

Lemma holds_del sh m now k :
  holds sh m →
  holds (match Shard.object now sh COLL k with
         | Some _ => Shard.delete_object sh COLL k | None => sh end) (del1 m k).1
  ∧ bool_decide (is_Some (Shard.object now sh COLL k)) = (del1 m k).2.
Proof.
  intros Hh. pose proof (holds_object sh m now k Hh) as Hr. cbn [del1 fst snd].
  destruct (Shard.object now sh COLL k) as [v|]; cbn in Hr.
  - split; [by apply holds_delete|]. by destruct (m !! k).
  - destruct (m !! k) as [[]|] eqn:E; try done. split; [by rewrite delete_id|done].
Qed.

Lemma stored_members sh m now k :
  holds sh m → no_string m k = true → Store.set_members now (Shard.store sh) COLL k = members (m !! k).
Proof.
  intros Hh Hn. pose proof (holds_object sh m now k Hh) as Hr. unfold no_string in Hn.
  unfold Store.set_members. change (get_object now (Shard.store sh) COLL k)
    with (Shard.object now sh COLL k).
  destruct (Shard.object now sh COLL k) as [v|], (m !! k) as [[t|l]|]; try done.
  destruct Hr as [_ ->]. cbn. by rewrite value_to_from_strings.
Qed.

Lemma shown_members sh m now k :
  holds sh m → no_string m k = true → Resp.set_members now sh k = members (m !! k).
Proof.
  intros Hh Hn. pose proof (holds_object sh m now k Hh) as Hr. unfold no_string in Hn.
  unfold Resp.set_members.
  destruct (Shard.object now sh COLL k) as [v|], (m !! k) as [[t|l]|]; try done.
  destruct Hr as [_ ->]. cbn. rewrite array_of_strings. clear Hh Hn. induction l as [|x l IH]; [done|].
  cbn. rewrite value_as_str_from. by f_equal.
Qed.

Lemma no_string_insert m k l : no_string (<[k := RSet l]> m) k = true.
Proof. unfold no_string. by rewrite lookup_insert_eq. Qed.

Lemma holds_sadd sh m now k x :
  holds sh m → lists_ok (V := V) COLL k → no_string m k = true →
  holds (Shard.set_add now sh COLL k x).1 (sadd1 k m x).1
  ∧ (Shard.set_add now sh COLL k x).2 = (sadd1 k m x).2 ∧ no_string (sadd1 k m x).1 k = true.
Proof.
  intros Hh Hk Hn. unfold Shard.set_add, Store.set_add, sadd1.
  rewrite (stored_members sh m now k Hh Hn). case_decide; [done|]. cbn.
  split; [|split; [done|apply no_string_insert]].
  apply (holds_put sh m k); [done|done|]. split; [|done]. by destruct (members _).
Qed.

Lemma holds_srem sh m now k x :
  holds sh m → lists_ok (V := V) COLL k → no_string m k = true →
  holds (Shard.set_remove now sh COLL k x).1 (srem1 k m x).1
  ∧ (Shard.set_remove now sh COLL k x).2 = (srem1 k m x).2 ∧ no_string (srem1 k m x).1 k = true.
Proof.
  intros Hh Hk Hn. unfold Shard.set_remove, Store.set_remove, srem1.
  rewrite (stored_members sh m now k Hh Hn), filter_length_ne. case_bool_decide as Hin.
  - rewrite decide_False by done. done.
  - destruct (decide (x ∈ members (m !! k))) as [_|]; [|done]. cbn. case_decide as Hnil.
    + split; [by apply holds_delete|]. split; [done|]. unfold no_string. by rewrite lookup_delete_eq.
    + split; [|split; [done|apply no_string_insert]]. by apply (holds_put sh m k).
Qed.

(** ** The loops over arguments *)

Definition utf8s (xs : list string) : bool := forallb (λ t, is_utf8 (as_bytes t)) xs.

Lemma del_loop_spec clk xs : ∀ i sh m n,
  utf8s xs = true → holds sh m →
  holds (del_loop clk i sh (map as_bytes xs) n).1 (count_loop del1 m xs n).1
  ∧ (del_loop clk i sh (map as_bytes xs) n).2 = (count_loop del1 m xs n).2.
Proof.
  induction xs as [|x xs IH]; intros i sh m n Hu Hh; [done|].
  apply andb_true_iff in Hu as [Hx Hu]. cbn [map del_loop count_loop]. rewrite s_text by done.
  destruct (holds_del sh m (clk i) x Hh) as [Hh' Hb].
  destruct (del1 m x) as [m' b]. cbn [fst snd] in *. subst b.
  destruct (Shard.object (clk i) sh COLL x) as [v|]; by apply IH.
Qed.

Lemma exists_loop_spec clk xs : ∀ i sh m,
  utf8s xs = true → holds sh m →
  exists_loop clk i sh (map as_bytes xs) = exists_count m xs.
Proof.
  induction xs as [|x xs IH]; intros i sh m Hu Hh; [done|].
  apply andb_true_iff in Hu as [Hx Hu]. cbn [map exists_loop exists_count foldr].
  rewrite s_text by done. rewrite (IH (S i) sh m) by done. fold (exists_count m xs). f_equal.
  pose proof (holds_object sh m (clk i) x Hh) as Hr.
  by destruct (Shard.object (clk i) sh COLL x), (m !! x) as [[]|].
Qed.

(** SADD and SREM, from what one member does. *)
Lemma member_loop_spec op op1 clk k :
  (∀ now sh m x, holds sh m → no_string m k = true →
     holds (op now sh COLL k x).1 (op1 m x).1
     ∧ (op now sh COLL k x).2 = (op1 m x).2 ∧ no_string (op1 m x).1 k = true) →
  ∀ xs i sh m n, utf8s xs = true → holds sh m → no_string m k = true →
  holds (member_loop op clk i sh k (map as_bytes xs) n).1 (count_loop op1 m xs n).1
  ∧ (member_loop op clk i sh k (map as_bytes xs) n).2 = (count_loop op1 m xs n).2.
Proof.
  intros Hop. induction xs as [|x xs IH]; intros i sh m n Hu Hh Hn; [done|].
  apply andb_true_iff in Hu as [Hx Hu]. cbn [map member_loop count_loop]. rewrite s_text by done.
  destruct (Hop (clk i) sh m x Hh Hn) as (Hh' & Hb & Hn').
  destruct (op (clk i) sh COLL k x) as [sh' b], (op1 m x) as [m' b']. cbn [fst snd] in *. subst b'.
  by apply IH.
Qed.

(** ** Each command *)

Lemma s_i64 d : is_i64 d → s (as_bytes (i64_to_string d)) = i64_to_string d.
Proof.
  intros Hd. unfold s, lossy_text. rewrite text_as_bytes. apply from_utf8_lossy_ascii.
  change (forallb (λ a, byte_val a <? 128) (as_bytes (i64_to_string d)) = true).
  assert (∀ b, forallb digit b = true → forallb (λ a, byte_val a <? 128) b = true) as Hb.
  { intros b. rewrite !forallb_forall. intros H a Ha. by apply digit_plain, H. }
  destruct (i64_digits d Hd) as (b & Hd'%Hb & [->| ->]); [done|]. by cbn.
Qed.

(** The branch of the dispatch each command takes. *)
Definition branch clk sh c : Shard.t St * bytes :=
  let now := clk O in
  let key k := Resp.s (as_bytes k) in
  match c with
  | GET k => (sh, bulk_value (Shard.object now sh COLL (key k)))
  | SET k t => (Shard.write_object sh COLL (key k) (value_from_str (key t)), simple "OK")
  | GETSET k t =>
      (Shard.write_object sh COLL (key k) (value_from_str (key t)),
       bulk_value (Shard.object now sh COLL (key k)))
  | DEL ks => let '(sh', n) := del_loop clk 0 sh (map as_bytes ks) 0 in (sh', int n)
  | EXISTS ks => (sh, int (exists_loop clk 0 sh (map as_bytes ks)))
  | INCR k => incr_reply (Shard.incr now sh COLL (key k) 1)
  | DECR k => incr_reply (Shard.incr now sh COLL (key k) (-1))
  | INCRBY k d =>
      match parse_i64 (key (i64_to_string d)) with
      | None => (sh, err "ERR value is not an integer or out of range")
      | Some z => incr_reply (Shard.incr now sh COLL (key k) z)
      end
  | DECRBY k d =>
      match parse_i64 (key (i64_to_string d)) with
      | None => (sh, err "ERR value is not an integer or out of range")
      | Some z => incr_reply (Shard.incr now sh COLL (key k) (i64_wrap (- z)))
      end
  | SADD k ms =>
      let '(sh', n) := member_loop Shard.set_add clk 0 sh (key k) (map as_bytes ms) 0 in (sh', int n)
  | SREM k ms =>
      let '(sh', n) := member_loop Shard.set_remove clk 0 sh (key k) (map as_bytes ms) 0 in
      (sh', int n)
  | SMEMBERS k =>
      (sh, array_header (length (Resp.set_members now sh (key k)))
           ++ bulks (Resp.set_members now sh (key k)))
  | SCARD k => (sh, int (Z.of_nat (length (Resp.set_members now sh (key k)))))
  | SISMEMBER k x =>
      (sh, int (if decide (key x ∈ Resp.set_members now sh (key k)) then 1 else 0))
  | TYPE k =>
      (sh, simple (match Shard.object now sh COLL (key k) with
                   | None => "none"
                   | Some v => match value_as_array v with Some _ => "set" | None => "string" end
                   end))
  end.

Lemma exec_branch clk sh c :
  cmd_ok c → exec_command clk sh (cmd_name c) (to_args c) = branch clk sh c.
Proof.
  intros (_ & _ & Hc). destruct c; cbn [branch]; try reflexivity;
    (match goal with xs : list string |- _ => destruct xs; [done|] end); reflexivity.
Qed.

Lemma exec_step clk sh m c :
  holds sh m → supported m c = true → cmd_ok c → storable c →
  holds (exec_command clk sh (cmd_name c) (to_args c)).1 (step m c).1
  ∧ (exec_command clk sh (cmd_name c) (to_args c)).2 = encode (step m c).2.
Proof.
  intros Hh [Ht Hsup]%andb_true_iff Hok Hk. rewrite exec_branch by done.
  destruct Hok as (_ & Hu & Hc). unfold step. rewrite Ht. cbn [negb].
  destruct c; cbn [words well_typed storable branch] in *; cbn [forallb] in Hu;
    rewrite ?andb_true_iff in Hu; destruct_and?; rewrite ?s_text, ?s_i64 by done;
    rewrite ?i64_string_roundtrip by done.
  - split; [done|]. by apply reply_get.
  - split; [|done]. apply holds_put; [done..|]. by left.
  - split; [|by apply reply_get]. apply holds_put; [done..|]. by left.
  - pose proof (del_loop_spec clk ks 0 sh m 0) as [? E]; [done..|].
    destruct (del_loop _ _ _ _ _). cbn in E |- *. by subst.
  - split; [done|]. cbn [encode snd]. by rewrite (exists_loop_spec clk ks 0 sh m).
  - by apply holds_incr.
  - by apply holds_incr.
  - by apply holds_incr.
  - apply andb_true_iff in Hsup as [Hfit Hmin%negb_true_iff]. rewrite Hmin.
    apply Z.eqb_neq in Hmin. rewrite i64_wrap_small by (unfold is_i64 in *; lia).
    by apply holds_incr.
  - destruct (member_loop_spec Shard.set_add (sadd1 k) clk k) with (xs := ms) (i := O) (sh := sh) (m := m) (n := 0)
      as [? E]; [intros; by apply holds_sadd|done..|]. destruct (member_loop _ _ _ _ _ _ _). cbn in E |- *. by subst.
  - destruct (member_loop_spec Shard.set_remove (srem1 k) clk k) with (xs := ms) (i := O) (sh := sh) (m := m) (n := 0)
      as [? E]; [intros; by apply holds_srem|done..|]. destruct (member_loop _ _ _ _ _ _ _). cbn in E |- *. by subst.
  - split; [done|]. cbn [snd]. by rewrite encode_bulk_array, (shown_members sh m).
  - split; [done|]. cbn [snd]. by rewrite (shown_members sh m).
  - split; [done|]. cbn [snd]. by rewrite (shown_members sh m).
  - split; [done|]. cbn [snd encode]. f_equal. pose proof (holds_object sh m (clk O) k Hh) as Hr.
    destruct (Shard.object (clk O) sh COLL k) as [v|], (m !! k) as [[t|l]|]; try done; cbn in Hr.
    + destruct Hr as [->|(z & Hz & -> & ->)]; [by rewrite array_of_str|by rewrite array_of_i64].
    + destruct Hr as [_ ->]. by rewrite array_of_strings.
Qed.

Lemma run_exec token clk sh c :
  run_command token clk sh true (to_args c)
  = let '(sh', out) := exec_command clk sh (cmd_name c) (to_args c) in (sh', true, out, true).
Proof. by destruct c. Qed.

Lemma run_all_step token clk cs : ∀ n sh m,
  holds sh m → all_supported m cs = true → Forall cmd_ok cs → Forall storable cs →
  holds (run_all token clk n sh true (map to_args cs)).1 (steps m cs).1
  ∧ (run_all token clk n sh true (map to_args cs)).2 = map encode (steps m cs).2.
Proof.
  induction cs as [|c cs IH]; intros n sh m Hh Ht Hok Hst; [done|].
  apply andb_true_iff in Ht as [Hc Ht]. apply Forall_cons in Hok as [Hcok Hok], Hst as [Hcst Hst].
  cbn [map run_all steps]. rewrite run_exec.
  destruct (exec_step (clk n) sh m c Hh Hc Hcok Hcst) as [Hh' Hout].
  destruct (exec_command _ _ _ _) as [sh1 out], (step m c) as [m1 r]. cbn [fst snd] in *. subst out.
  destruct (IH (S n) sh1 m1 Hh' Ht Hok Hst) as [Hh2 Houts].
  destruct (run_all token clk (S n) sh1 true (map to_args cs)) as [sh2 outs], (steps m1 cs) as [m2 rs].
  cbn [fst snd map] in *. by subst.
Qed.

(** What a client sends to be let in, and the greeting it gets. *)
Definition login (token : option string) : list (list bytes) :=
  match token with Some t => [[as_bytes "AUTH"; as_bytes t]] | None => [] end.
Definition greeting (token : option string) : list resp :=
  match token with Some _ => [Simple "OK"] | None => [] end.

Lemma run_login token clk n sh cs :
  run_all token clk n sh (bool_decide (token = None)) (login token ++ cs)
  = let '(sh', outs) := run_all token clk (length (login token) + n) sh true cs in
    (sh', map encode (greeting token) ++ outs).
Proof.
  destruct token as [t|]; cbn [login app length Nat.add greeting map].
  - rewrite bool_decide_eq_false_2 by done. cbn [run_all].
    change (run_command (Some t) (clk n) sh false [as_bytes "AUTH"; as_bytes t])
      with (if password_ok t [as_bytes "AUTH"; as_bytes t] then (sh, true, simple "OK", true)
            else (sh, false, err "WRONGPASS invalid username-password pair", true)).
    unfold password_ok. cbn [last length]. rewrite bool_decide_eq_true_2 by done. done.
  - rewrite bool_decide_eq_true_2 by done. by destruct (run_all None clk n sh true cs).
Qed.

Lemma to_args_ok c : cmd_ok c → command_ok (to_args c).
Proof. intros (Ha & _). split; [by destruct c|]. split; [done|]. by destruct c. Qed.

(** C15. On its command set, and for commands within [supported], the Redis front
    end behaves like Redis: a connection (authenticated, when a token is
    configured) that sends a sequence of string, counter and set commands
    receives, byte for byte, the encoded replies of the abstract Redis key space,
    and leaves the store representing the key space those commands lead to.
    [supported] excludes three kinds of command, for which the abstract key space
    gives Redis's error and the code does not: a command on a key of the other
    kind, an increment whose sum leaves 64 bits (or a DECRBY of the least
    integer), and an increment of text that is a number only once trimmed or
    normalised.  Arguments are UTF-8, and what is written fits the store. *)
Theorem resp_refines_redis token clk sh m cs :
  holds sh m → all_supported m cs = true → Forall cmd_ok cs → Forall storable cs →
  Forall args_ok (login token) →
  let '(m', rs) := steps m cs in
  ∃ sh', handle token clk sh (concat (map encode_command (login token ++ map to_args cs)))
         = (sh', concat (map encode (greeting token ++ rs)))
    ∧ holds sh' m'.
Proof.
  intros Hh Ht Hok Hst Hl.
  assert (Forall command_ok (login token ++ map to_args cs)) as Hcs.
  { apply Forall_app. split.
    - destruct token; [|constructor]. apply Forall_cons in Hl as [Hl _].
      constructor; [|constructor]. by split.
    - apply Forall_map. eapply Forall_impl; [exact Hok|]. intros c. apply to_args_ok. }
  pose proof (handle_encoded token clk _ (S (length (concat (map encode_command (login token ++ map to_args cs)))))
    0 sh (bool_decide (token = None)) Hcs ltac:(lia)) as Hh'.
  destruct (run_all_step token clk cs (length (login token) + 0) sh m Hh Ht Hok Hst) as [Hfin Hout].
  rewrite run_login in Hh'. destruct (run_all token clk _ sh true _) as [sh' outs].
  destruct (steps m cs) as [m' rs]. cbn [fst snd] in *. subst outs. exists sh'.
  split; [|done]. unfold handle. rewrite Hh', map_app. done.
Qed.

(** An increment that Redis refuses succeeds: a sum that leaves 64 bits wraps
    around, and text with white space around it, a leading zero or a plus sign
    counts as a number. *)
Theorem incr_beyond_redis clk sh m k t z :
  holds sh m → cmd_ok (INCR k) → m !! k = Some (RString t) → parse_i64 (trim t) = Some z →
  numeral t = None ∨ ¬ is_i64 (z + 1) →
  (exec_command clk sh "INCR" (to_args (INCR k))).2 = int (i64_wrapping_add z 1)
  ∧ (step m (INCR k)).1 = m ∧ ∃ e, (step m (INCR k)).2 = Error e.
Proof.
  intros Hh Hok Hm Hz Hodd. assert (Hn : no_set m k = true) by (unfold no_set; by rewrite Hm). split.
  - change "INCR"%string with (cmd_name (INCR k)). rewrite exec_branch by done. destruct Hok as (_ & Hu & _). cbn [branch].
    apply andb_true_iff in Hu as [_ [Hk _]%andb_true_iff]. rewrite s_text by done.
    unfold incr_reply, Shard.incr, Store.incr. rewrite holds_counter with (m := m) by done.
    unfold code_counter. by rewrite Hm, Hz.
  - unfold step. cbn [well_typed]. rewrite Hn. cbn [negb]. unfold incr_by, counter. rewrite Hm.
    destruct (numeral t) as [y|] eqn:Ht; [|split; [done|by eexists]].
    destruct Hodd as [?|Hodd]; [done|]. apply numeral_spec in Ht as [Hy ->].
    rewrite parse_trim_i64 in Hz by done. injection Hz as ->.
    rewrite decide_False by done. split; [done|by eexists].
Qed.

(** A set command on a string key does not fail: the string is lost. *)
Theorem sadd_overwrites_string clk now sh k x v :
  store_wf (Shard.store sh) → is_utf8 (as_bytes k) = true → is_utf8 (as_bytes x) = true →
  entry_ok COLL k (value_from_strings [x]) →
  Shard.object (clk O) sh COLL k = Some v → value_to_strings v = None →
  (exec_command clk sh "SADD" (to_args (SADD k [x]))).2 = int 1
  ∧ Shard.object now (exec_command clk sh "SADD" (to_args (SADD k [x]))).1 COLL k
    = Some (value_from_strings [x]).
Proof.
  intros Hwf Hk Hx Hok Hv Hn. set (r := exec_command _ _ _ _).
  assert (r = let '(sh', b) := Shard.set_add (clk O) sh COLL (Resp.s (as_bytes k)) (Resp.s (as_bytes x)) in
              (sh', int (if b : bool then 1 else 0))) as ->.
  { unfold r. change (exec_command clk sh "SADD" (to_args (SADD k [x])))
      with (let '(sh', n) := member_loop Shard.set_add clk 0 sh (Resp.s (as_bytes k)) [as_bytes x] 0 in
            (sh', int n)).
    cbn [member_loop]. by destruct (Shard.set_add _ _ _ _ _) as [? []]. }
  rewrite !s_text by done. unfold Shard.object in Hv |- *.
  unfold Shard.set_add, Store.set_add, Store.set_members. rewrite Hv. cbn [mbind option_bind].
  rewrite Hn. cbn [default from_option]. rewrite decide_False by (apply not_elem_of_nil).
  split; [done|]. exact (get_put_eq now (Shard.store sh) COLL k _ Hwf Hok).
Qed.

End refinement.

End Redis.
