(* ===== verification/Client.v ===== *)
(** * The coordinator's transport seam ([src/src/client.rs])

    A [ShardClient] is a handle to a shard that lives somewhere else.  The
    shards of all nodes form the [world]; a call reads the clock of its moment
    and either reaches the shard and returns, or fails: lost on the way (no
    effect) or on the way back (the effect happened, the caller sees an error).
    The in-process client is the case in which every call is delivered.

    Effects are sequenced by a state monad over the world. *)

From S2P Require Import Prelude Machine Text Partitioner Store Lease Shard.

Local Open Scope Z_scope.

Inductive CResult (A : Type) :=
  | Ok (a : A)
  | Err (e : string).
Arguments Ok {_} _.
Arguments Err {_} _.

(** [r.ok()], [r.unwrap_or(d)]. *)
Definition ok {A} (r : CResult A) : option A := match r with Ok a => Some a | Err _ => None end.
Definition unwrap_or {A} (d : A) (r : CResult A) : A := match r with Ok a => a | Err _ => d end.

(** What happens to the [n]-th call of an execution, and what time it is then. *)
Inductive fault := Delivered | Lost | ReplyLost.

Class Env := {
  clock : nat → Z;
  fault_at : nat → fault;
}.

(** An execution in which no call fails. *)
Class Reliable `{!Env} : Prop := reliable : ∀ n, fault_at n = Delivered.

(** ** The world and its monad *)

Record world (St : Type) := mkWorld {
  shards : gmap string (Shard.t St);
  tick : nat;
}.
Arguments mkWorld {_} _ _.
Arguments shards {_} _.
Arguments tick {_} _.

Definition M (St A : Type) : Type := world St → world St * A.

#[global] Instance M_ret St : MRet (M St) := λ A a w, (w, a).
#[global] Instance M_bind St : MBind (M St) := λ A B f m w, let '(w', a) := m w in f a w'.

(** [for x in xs { s = body(s, x) }]. *)
Fixpoint forM {St A S} (xs : list A) (s : S) (body : S → A → M St S) : M St S :=
  match xs with
  | [] => mret s
  | x :: xs' => s' ← body s x; forM xs' s' body
  end.

Lemma forM_ext {St A S} (xs : list A) (s : S) (b1 b2 : S → A → M St S) w :
  (∀ s x w, b1 s x w = b2 s x w) → forM xs s b1 w = forM xs s b2 w.
Proof.
  intros Hb. revert s w. induction xs as [|x xs IH]; intros s w; [done|].
  cbn [forM]. unfold mbind, M_bind. rewrite Hb. destruct (b2 s x w). apply IH.
Qed.

(** *** Reasoning about effectful code *)

Definition hoare {St A} (P : world St → Prop) (m : M St A) (Q : A → world St → Prop) : Prop :=
  ∀ w, P w → Q (m w).2 (m w).1.

Section hoare.
Context {St : Type}.
Implicit Types (P : world St → Prop).

Lemma hoare_ret {A} P (a : A) (Q : A → world St → Prop) :
  (∀ w, P w → Q a w) → hoare P (mret a) Q.
Proof. intros H w Hw. by apply H. Qed.

Lemma hoare_bind {A B} P (m : M St A) (f : A → M St B) R Q :
  hoare P m R → (∀ a, hoare (R a) (f a) Q) → hoare P (m ≫= f) Q.
Proof.
  intros Hm Hf w Hw. specialize (Hm w Hw). unfold mbind, M_bind.
  destruct (m w) as [w' a]. by apply Hf.
Qed.

Lemma hoare_conseq {A} P P' (m : M St A) Q Q' :
  hoare P' m Q' → (∀ w, P w → P' w) → (∀ a w, Q' a w → Q a w) → hoare P m Q.
Proof. intros Hm HP HQ w Hw. by apply HQ, Hm, HP. Qed.

(** A loop invariant may speak of the elements already visited. *)
Lemma hoare_forM {A S} (xs : list A) (s : S) (body : S → A → M St S)
    (Inv : list A → S → world St → Prop) :
  (∀ pre x post s, xs = pre ++ x :: post →
     hoare (Inv pre s) (body s x) (λ s', Inv (pre ++ [x]) s')) →
  hoare (Inv [] s) (forM xs s body) (λ s', Inv xs s').
Proof.
  intros Hb. enough (∀ pre ys s, xs = pre ++ ys →
    hoare (Inv pre s) (forM ys s body) (λ s', Inv xs s')) as H by (by apply H).
  intros pre ys. revert pre. induction ys as [|x ys IH]; intros pre s' Hxs.
  - apply hoare_ret. rewrite app_nil_r in Hxs. by subst.
  - eapply hoare_bind; [by eapply Hb|]. intros s''. apply IH.
    by rewrite <-app_assoc.
Qed.

End hoare.

Module Client.

Section client.
Context {V St : Type} `{!IndexStore V St, !JsonValue V, !LeaseCodec V, !Env}.

(** [id()], [endpoint()], and the shard the handle stands for. *)
Record t := mk { id : string; endpoint : string; shard_ref : string }.

Definition step_to (w : world St) (r : string) (sh : Shard.t St) : world St :=
  mkWorld (<[r := sh]> (shards w)) (S (tick w)).

(** One call: [op] runs under the shard's lock. *)
Definition call {R} (c : t) (op : Z → Shard.t St → Shard.t St * R) : M St (CResult R) := λ w,
  let idle := mkWorld (shards w) (S (tick w)) in
  match shards w !! shard_ref c with
  | None => (idle, Err "unreachable")
  | Some sh =>
      let '(sh', r) := op (clock (tick w)) sh in
      match fault_at (tick w) with
      | Delivered => (step_to w (shard_ref c) sh', Ok r)
      | Lost => (idle, Err "request failed")
      | ReplyLost => (step_to w (shard_ref c) sh', Err "no reply")
      end
  end.

(** A call that only reads, and one that returns nothing. *)
Definition query {R} (c : t) (op : Z → Shard.t St → R) : M St (CResult R) :=
  call c (λ now sh, (sh, op now sh)).
Definition command (c : t) (op : Z → Shard.t St → Shard.t St) : M St (CResult unit) :=
  call c (λ now sh, (op now sh, tt)).

Definition object (c : t) (coll key : string) : M St (CResult (option V)) :=
  query c (λ now sh, Shard.object now sh coll key).

Definition scan_range (c : t) (coll : string) (after prefix end_ : option string) (limit : nat)
    : M St (CResult (list string)) :=
  query c (λ now sh, Shard.scan_range now sh coll after prefix end_ limit).

Definition mget (c : t) (coll : string) (keys : list string) : M St (CResult (list (option V))) :=
  query c (λ now sh, Shard.mget now sh coll keys).

Definition scan_buckets (c : t) (coll : string) (bs : list nat) (after : option string)
    (limit : nat) : M St (CResult (list string)) :=
  query c (λ now sh, Shard.scan_buckets now sh coll bs after limit).

Definition set_add (c : t) (coll key member : string) : M St (CResult bool) :=
  call c (λ now sh, Shard.set_add now sh coll key member).

Definition set_remove (c : t) (coll key member : string) : M St (CResult bool) :=
  call c (λ now sh, Shard.set_remove now sh coll key member).

Definition write_object (c : t) (coll key : string) (obj : V) : M St (CResult unit) :=
  command c (λ _ sh, Shard.write_object sh coll key obj).

Definition write_object_ttl (c : t) (coll key : string) (obj : V) (ttl_ms : Z)
    : M St (CResult unit) :=
  command c (λ now sh, Shard.write_object_ttl now sh coll key obj ttl_ms).

Definition cas (c : t) (coll key : string) (expect : option V) (nw : V) : M St (CResult bool) :=
  call c (λ now sh, Shard.cas now sh coll key expect nw).

Definition incr (c : t) (coll key : string) (delta : Z) : M St (CResult (option Z)) :=
  call c (λ now sh, Shard.incr now sh coll key delta).

Definition delete_object (c : t) (coll key : string) : M St (CResult unit) :=
  command c (λ _ sh, Shard.delete_object sh coll key).

Definition export_entries (c : t) (coll : string) (bs : list nat)
    : M St (CResult (list (string * V))) :=
  query c (λ now sh, Shard.export_entries now sh coll bs).

Definition import_entries (c : t) (coll : string) (entries : list (string * V))
    : M St (CResult unit) :=
  command c (λ _ sh, Shard.import_entries sh coll entries).

Definition drop_buckets (c : t) (coll : string) (bs : list nat) : M St (CResult nat) :=
  call c (λ now sh, Shard.drop_buckets now sh coll bs).

Definition lease_acquire (c : t) (key who : string) (ttl_ms : Z)
    : M St (CResult Lease.LeaseOutcome) :=
  call c (λ now sh, Shard.lease_acquire now sh key who ttl_ms).

End client.

End Client.
