(* ===== verification/Http.v ===== *)
(** * The HTTP shard server and the HTTP client ([src/src/net.rs])

    A shard's operations over JSON HTTP: the request bodies and query strings
    with their derived (de)serializers, one handler per route, and the client
    that the coordinator uses for remote shards.

    On the wire a request carries the bytes of a JSON body or decoded query
    parameters, a response a status and, unless it is an error page, the bytes of
    a JSON body: both sides print what they send and parse what they receive, and
    parsing may fail or give another value.  Percent-encoding, and how JSON is
    printed and parsed, are left to the libraries.  Before the handler runs, the
    web framework refuses a body above [body_limit] bytes, one that is not JSON,
    and one of the wrong shape; the limit is an argument (its documented default
    is 2 MiB, and the routes do not set another).  The counter a handler bumps is [Metrics.shard_route]. *)

From S2P Require Import Prelude Machine Text Wire Partitioner Store Lease Shard Replica Client.

Local Open Scope Z_scope.

(** The view of [serde_json::Value] that envelopes need. *)
Class JsonEnvelope (V : Type) := {
  (** [Value::Null], [Value::is_null] *)
  value_null : V;
  value_is_null : V → bool;
  (** a JSON object ([json!({..})], a serialized struct) and [Value::get] *)
  value_of_fields : list (string * V) → V;
  value_get : V → string → option V;
  (** an array, and its elements *)
  value_of_list : list V → V;
  value_elems : V → option (list V);
  (** booleans and unsigned numbers *)
  value_of_bool : bool → V;
  value_bool : V → option bool;
  value_of_u64 : Z → V;
  value_u64 : V → option Z;
}.

(** The field of an object. *)
Fixpoint field {A} (fs : list (string * A)) (f : string) : option A :=
  match fs with
  | [] => None
  | (g, a) :: fs' => if String.eqb g f then Some a else field fs' f
  end.

Class JsonEnvelopeLaws (V : Type) `{!JsonValue V, !JsonEnvelope V} := {
  get_fields : ∀ fs f, NoDup (map fst fs) → value_get (value_of_fields fs : V) f = field fs f;
  elems_of_list : ∀ l : list V, value_elems (value_of_list l) = Some l;
  bool_of_bool : ∀ b, value_bool (value_of_bool b : V) = Some b;
  u64_of_u64 : ∀ n, is_u64 n → value_u64 (value_of_u64 n : V) = Some n;
  null_is_null : value_is_null (value_null : V) = true;
  null_str : ∀ t, value_is_null (value_from_str t : V) = false;
  null_u64 : ∀ n, value_is_null (value_of_u64 n : V) = false;
  null_i64 : value_as_i64 (value_null : V) = None;
}.

Module Http.

Section bodies.
Context {V : Type} `{!JsonValue V, !JsonEnvelope V}.

(** ** Derived (de)serializers *)

Definition get_str (v : V) (f : string) : option string := value_get v f ≫= value_as_str.

(** [Option<T>] with [#[serde(default)]]: missing or null is [None]. *)
Definition get_opt {A} (dec : V → option A) (v : V) (f : string) : option (option A) :=
  match value_get v f with
  | None => Some None
  | Some x => if value_is_null x then Some None else Some <$> dec x
  end.

Definition ser_opt {A} (enc : A → V) (o : option A) : V :=
  match o with Some a => enc a | None => value_null end.

(** [usize]. *)
Definition dec_usize (v : V) : option nat := Z.to_nat <$> value_u64 v.
Definition enc_usize (n : nat) : V := value_of_u64 (Z.of_nat n).

(** [Vec<T>] and [(String, Value)]. *)
Definition dec_vec {A} (dec : V → option A) (v : V) : option (list A) := value_elems v ≫= mapM dec.
Definition enc_vec {A} (enc : A → V) (l : list A) : V := value_of_list (map enc l).

Definition dec_pair (v : V) : option (string * V) :=
  l ← value_elems v;
  match l with [k; x] => k' ← value_as_str k; Some (k', x) | _ => None end.
Definition enc_pair (e : string * V) : V := value_of_list [value_from_str e.1; e.2].

(** [Option<Value>] inside a vector: null is [None]. *)
Definition dec_option (v : V) : option (option V) := Some (if value_is_null v then None else Some v).
Definition enc_option (o : option V) : V := default value_null o.

Definition default_scan_limit : nat := 1000.

(** ** Bodies *)

Record ObjQ := mkObjQ { oq_coll : string; oq_key : string }.

Record ScanQ := mkScanQ {
  sq_coll : string;
  sq_after : option string;
  sq_prefix : option string;
  sq_end : option string;
  sq_limit : nat;
}.

Record MgetBody := mkMget { mg_coll : string; mg_keys : list string }.

Definition ser_mget (b : MgetBody) : V :=
  value_of_fields [("coll", value_from_str (mg_coll b)); ("keys", value_from_strings (mg_keys b))].
Definition de_mget (v : V) : option MgetBody :=
  c ← get_str v "coll"; ks ← value_get v "keys" ≫= value_to_strings; Some (mkMget c ks).

Record ScanBucketsBody := mkScanBuckets {
  sb_coll : string;
  sb_buckets : list nat;
  sb_after : option string;
  sb_limit : nat;
}.

Definition ser_scan_buckets (b : ScanBucketsBody) : V :=
  value_of_fields
    [("coll", value_from_str (sb_coll b)); ("buckets", enc_vec enc_usize (sb_buckets b));
     ("after", ser_opt value_from_str (sb_after b)); ("limit", enc_usize (sb_limit b))].
Definition de_scan_buckets (v : V) : option ScanBucketsBody :=
  c ← get_str v "coll"; bs ← value_get v "buckets" ≫= dec_vec dec_usize;
  a ← get_opt value_as_str v "after";
  n ← match value_get v "limit" with None => Some default_scan_limit | Some x => dec_usize x end;
  Some (mkScanBuckets c bs a n).

Record SetBody := mkSet { st_coll : string; st_key : string; st_member : string }.

Definition ser_set (b : SetBody) : V :=
  value_of_fields [("coll", value_from_str (st_coll b)); ("key", value_from_str (st_key b));
                   ("member", value_from_str (st_member b))].
Definition de_set (v : V) : option SetBody :=
  c ← get_str v "coll"; k ← get_str v "key"; m ← get_str v "member"; Some (mkSet c k m).

Record WriteBody := mkWrite {
  wr_coll : string;
  wr_key : string;
  wr_obj : V;
  wr_ttl : option Z;
}.

(** [ttlMs] is left out when there is none. *)
Definition ser_write (b : WriteBody) : V :=
  value_of_fields
    ([("coll", value_from_str (wr_coll b)); ("key", value_from_str (wr_key b)); ("obj", wr_obj b)]
     ++ match wr_ttl b with Some t => [("ttlMs", value_of_u64 t)] | None => [] end).
Definition de_write (v : V) : option WriteBody :=
  c ← get_str v "coll"; k ← get_str v "key"; o ← value_get v "obj"; t ← get_opt value_u64 v "ttlMs";
  Some (mkWrite c k o t).

Record DeleteBody := mkDelete { dl_coll : string; dl_key : string }.

Definition ser_delete (b : DeleteBody) : V :=
  value_of_fields [("coll", value_from_str (dl_coll b)); ("key", value_from_str (dl_key b))].
Definition de_delete (v : V) : option DeleteBody :=
  c ← get_str v "coll"; k ← get_str v "key"; Some (mkDelete c k).

Record BucketBody := mkBucket { bk_coll : string; bk_buckets : list nat }.

Definition ser_bucket (b : BucketBody) : V :=
  value_of_fields [("coll", value_from_str (bk_coll b)); ("buckets", enc_vec enc_usize (bk_buckets b))].
Definition de_bucket (v : V) : option BucketBody :=
  c ← get_str v "coll"; bs ← value_get v "buckets" ≫= dec_vec dec_usize; Some (mkBucket c bs).

Record ImportBody := mkImport { im_coll : string; im_entries : list (string * V) }.

Definition ser_import (b : ImportBody) : V :=
  value_of_fields [("coll", value_from_str (im_coll b)); ("entries", enc_vec enc_pair (im_entries b))].
Definition de_import (v : V) : option ImportBody :=
  c ← get_str v "coll"; es ← value_get v "entries" ≫= dec_vec dec_pair; Some (mkImport c es).

Record CasBody := mkCas { cs_coll : string; cs_key : string; cs_expect : option V; cs_new : V }.

Definition ser_cas (b : CasBody) : V :=
  value_of_fields [("coll", value_from_str (cs_coll b)); ("key", value_from_str (cs_key b));
                   ("expect", ser_opt id (cs_expect b)); ("new", cs_new b)].
Definition de_cas (v : V) : option CasBody :=
  c ← get_str v "coll"; k ← get_str v "key"; e ← get_opt Some v "expect"; n ← value_get v "new";
  Some (mkCas c k e n).

Record IncrBody := mkIncr { in_coll : string; in_key : string; in_delta : Z }.

Definition ser_incr (b : IncrBody) : V :=
  value_of_fields [("coll", value_from_str (in_coll b)); ("key", value_from_str (in_key b));
                   ("delta", value_from_i64 (in_delta b))].
Definition de_incr (v : V) : option IncrBody :=
  c ← get_str v "coll"; k ← get_str v "key"; d ← value_get v "delta" ≫= value_as_i64;
  Some (mkIncr c k d).

Record LeaseBody := mkLease { ls_key : string; ls_holder : string; ls_ttl : Z }.

Definition ser_lease (b : LeaseBody) : V :=
  value_of_fields [("key", value_from_str (ls_key b)); ("holder", value_from_str (ls_holder b));
                   ("ttlMs", value_of_u64 (ls_ttl b))].
Definition de_lease (v : V) : option LeaseBody :=
  k ← get_str v "key"; h ← get_str v "holder"; t ← value_get v "ttlMs" ≫= value_u64;
  Some (mkLease k h t).

(** ** Query strings *)

(** A parameter given at most once; twice is an error. *)
Definition param (ps : list (string * string)) (f : string) : option (option string) :=
  match filter (λ p, p.1 = f) ps with
  | [] => Some None
  | [p] => Some (Some p.2)
  | _ => None
  end.

Definition required (ps : list (string * string)) (f : string) : option string :=
  o ← param ps f; o.

Definition de_obj (ps : list (string * string)) : option ObjQ :=
  c ← required ps "coll"; k ← required ps "key"; Some (mkObjQ c k).

Definition de_scan (ps : list (string * string)) : option ScanQ :=
  c ← required ps "coll"; a ← param ps "after"; p ← param ps "prefix"; e ← param ps "end";
  l ← param ps "limit";
  n ← match l with None => Some default_scan_limit | Some t => Z.to_nat <$> parse_u64 t end;
  Some (mkScanQ c a p e n).

End bodies.

Arguments WriteBody : clear implicits.
Arguments ImportBody : clear implicits.
Arguments CasBody : clear implicits.

(** ** The server *)

(** The body is a JSON value for the client, and bytes on the wire. *)
Inductive request (B : Type) :=
  | GetReq (path : string) (query : list (string * string))
  | PostReq (path : string) (body : B).
Arguments GetReq {_} _ _.
Arguments PostReq {_} _ _.

(** The body is a JSON value for the handler, and bytes on the wire; it is [None]
    when it is not JSON (an error page). *)
Record response (B : Type) := mkResponse { status : Z; payload : option B }.
Arguments mkResponse {_} _ _.
Arguments status {_} _.
Arguments payload {_} _.

Section server.
Context {V St : Type} `{!IndexStore V St, !JsonValue V, !WireJson V, !JsonEnvelope V, !LeaseCodec V}.
Implicit Types (sh : Shard.t St).

Definition json (fs : list (string * V)) : response V := mkResponse 200 (Some (value_of_fields fs)).
Definition refuse (st : Z) : response V := mkResponse st None.

(** The page caps of the two scan routes. *)
Definition scan_cap : nat := Z.to_nat 10000.
Definition bucket_cap : nat := Z.to_nat 100000.

Definition handler : Type := Z → Shard.t St → Shard.t St * response V.

Definition caps : handler := λ _ sh, (sh, json [("nativeSetLogic", value_of_bool false)]).

Definition object (q : ObjQ) : handler := λ now sh,
  (sh, json [("object", enc_option (Shard.object now sh (oq_coll q) (oq_key q)))]).

Definition mget (b : MgetBody) : handler := λ now sh,
  (sh, json [("values", enc_vec enc_option (Shard.mget now sh (mg_coll b) (mg_keys b)))]).

Definition scan (q : ScanQ) : handler := λ now sh,
  (sh, json [("keys", value_from_strings
     (Shard.scan_range now sh (sq_coll q) (sq_after q) (sq_prefix q) (sq_end q)
        (sq_limit q `min` scan_cap)))]).

Definition scan_buckets (b : ScanBucketsBody) : handler := λ now sh,
  (sh, json [("keys", value_from_strings
     (Shard.scan_buckets now sh (sb_coll b) (sb_buckets b) (sb_after b) (sb_limit b `min` bucket_cap)))]).

Definition export (b : BucketBody) : handler := λ now sh,
  (sh, json [("entries", enc_vec enc_pair (Shard.export_entries now sh (bk_coll b) (bk_buckets b)))]).

Definition set_add (b : SetBody) : handler := λ now sh,
  let '(sh', added) := Shard.set_add now sh (st_coll b) (st_key b) (st_member b) in
  (sh', json [("added", value_of_bool added)]).

Definition set_remove (b : SetBody) : handler := λ now sh,
  let '(sh', removed) := Shard.set_remove now sh (st_coll b) (st_key b) (st_member b) in
  (sh', json [("removed", value_of_bool removed)]).

Definition write (b : WriteBody V) : handler := λ now sh,
  (match wr_ttl b with
   | Some ttl =>
       if 0 <? ttl then Shard.write_object_ttl now sh (wr_coll b) (wr_key b) (wr_obj b) ttl
       else Shard.write_object sh (wr_coll b) (wr_key b) (wr_obj b)
   | None => Shard.write_object sh (wr_coll b) (wr_key b) (wr_obj b)
   end, json [("ok", value_of_bool true)]).

Definition cas (b : CasBody V) : handler := λ now sh,
  let '(sh', set) := Shard.cas now sh (cs_coll b) (cs_key b) (cs_expect b) (cs_new b) in
  (sh', json [("set", value_of_bool set)]).

Definition incr (b : IncrBody) : handler := λ now sh,
  let '(sh', value) := Shard.incr now sh (in_coll b) (in_key b) (in_delta b) in
  (sh', json [("value", ser_opt value_from_i64 value)]).

Definition delete_object (b : DeleteBody) : handler := λ _ sh,
  (Shard.delete_object sh (dl_coll b) (dl_key b), json [("ok", value_of_bool true)]).

Definition lease_acquire (b : LeaseBody) : handler := λ now sh,
  let '(sh', o) := Shard.lease_acquire now sh (ls_key b) (ls_holder b) (ls_ttl b) in
  (sh', json [("granted", value_of_bool (Lease.granted o));
              ("holder", value_from_str (Lease.holder (Lease.lease o)));
              ("expiresMs", value_of_u64 (Lease.expires_ms (Lease.lease o)));
              ("token", value_of_u64 (Lease.token (Lease.lease o)))]).

Definition import (b : ImportBody V) : handler := λ _ sh,
  (Shard.import_entries sh (im_coll b) (im_entries b), json [("ok", value_of_bool true)]).

Definition drop_buckets (b : BucketBody) : handler := λ now sh,
  let '(sh', dropped) := Shard.drop_buckets now sh (bk_coll b) (bk_buckets b) in
  (sh', json [("dropped", enc_usize dropped)]).

(** The [Query] and [Json] extractors: 400 for a bad query string, 413 for a
    body above the limit, 422 for JSON of another shape. *)
Definition with_query {A} (q : option A) (h : A → handler) : handler :=
  match q with Some a => h a | None => λ _ sh, (sh, refuse 400) end.

(** The JSON body: too large, not JSON, of the wrong shape, or for the handler. *)
Definition with_json {A} (body_limit : Z) (body : bytes) (dec : V → option A) (h : A → handler)
    : handler :=
  if body_limit <? Z.of_nat (length body) then λ _ sh, (sh, refuse 413)
  else match value_from_slice body with
       | None => λ _ sh, (sh, refuse 400)
       | Some v => match dec v with Some a => h a | None => λ _ sh, (sh, refuse 422) end
       end.

(** The router. *)
Definition app (body_limit : Z) (r : request bytes) : handler :=
  match r with
  | GetReq p q =>
      if String.eqb p "/health" then λ _ sh, (sh, json [("ok", value_of_bool true)])
      else if String.eqb p "/caps" then caps
      else if String.eqb p "/object" then with_query (de_obj q) object
      else if String.eqb p "/scan" then with_query (de_scan q) scan
      else λ _ sh, (sh, refuse 404)
  | PostReq p b =>
      let on {A} := with_json (A := A) body_limit b in
      if String.eqb p "/mget" then on de_mget mget
      else if String.eqb p "/scanBuckets" then on de_scan_buckets scan_buckets
      else if String.eqb p "/setAdd" then on de_set set_add
      else if String.eqb p "/setRemove" then on de_set set_remove
      else if String.eqb p "/write" then on de_write write
      else if String.eqb p "/cas" then on de_cas cas
      else if String.eqb p "/incr" then on de_incr incr
      else if String.eqb p "/deleteObject" then on de_delete delete_object
      else if String.eqb p "/export" then on de_bucket export
      else if String.eqb p "/import" then on de_import import
      else if String.eqb p "/dropBuckets" then on de_bucket drop_buckets
      else if String.eqb p "/leaseAcquire" then on de_lease lease_acquire
      else λ _ sh, (sh, refuse 404)
  end.

End server.

(** ** The client *)

(** The operations of a shard client that change or read data, with the type of
    their result. *)
Inductive call (V : Type) : Type → Type :=
  | CObject (coll key : string) : call V (option V)
  | CScanRange (coll : string) (after prefix end_ : option string) (limit : nat)
      : call V (list string)
  | CScanBuckets (coll : string) (buckets : list nat) (after : option string) (limit : nat)
      : call V (list string)
  | CMget (coll : string) (keys : list string) : call V (list (option V))
  | CSetAdd (coll key member : string) : call V bool
  | CSetRemove (coll key member : string) : call V bool
  | CWrite (coll key : string) (obj : V) : call V unit
  | CWriteTtl (coll key : string) (obj : V) (ttl_ms : Z) : call V unit
  | CCas (coll key : string) (expect : option V) (nw : V) : call V bool
  | CIncr (coll key : string) (delta : Z) : call V (option Z)
  | CDelete (coll key : string) : call V unit
  | CExport (coll : string) (buckets : list nat) : call V (list (string * V))
  | CImport (coll : string) (entries : list (string * V)) : call V unit
  | CDrop (coll : string) (buckets : list nat) : call V nat
  | CLease (key holder : string) (ttl_ms : Z) : call V Lease.LeaseOutcome.

Section client.
Context {V St : Type} `{!IndexStore V St, !JsonValue V, !WireJson V, !JsonEnvelope V, !LeaseCodec V}.
Implicit Types (sh : Shard.t St) (r : response V).

(** The in-process client: the shard's operation. *)
Definition local {R} (c : call V R) (now : Z) sh : Shard.t St * R :=
  match c with
  | CObject _ co k => (sh, Shard.object now sh co k)
  | CScanRange _ co a p e n => (sh, Shard.scan_range now sh co a p e n)
  | CScanBuckets _ co bs a n => (sh, Shard.scan_buckets now sh co bs a n)
  | CMget _ co ks => (sh, Shard.mget now sh co ks)
  | CSetAdd _ co k m => Shard.set_add now sh co k m
  | CSetRemove _ co k m => Shard.set_remove now sh co k m
  | CWrite _ co k v => (Shard.write_object sh co k v, tt)
  | CWriteTtl _ co k v t => (Shard.write_object_ttl now sh co k v t, tt)
  | CCas _ co k e v => Shard.cas now sh co k e v
  | CIncr _ co k d => Shard.incr now sh co k d
  | CDelete _ co k => (Shard.delete_object sh co k, tt)
  | CExport _ co bs => (sh, Shard.export_entries now sh co bs)
  | CImport _ co es => (Shard.import_entries sh co es, tt)
  | CDrop _ co bs => Shard.drop_buckets now sh co bs
  | CLease _ k h t => Shard.lease_acquire now sh k h t
  end.

Definition opt_param (f : string) (o : option string) : list (string * string) :=
  match o with Some x => [(f, x)] | None => [] end.

(** The request a client method builds. *)
Definition to_request {R} (c : call V R) : request V :=
  match c with
  | CObject _ co k => GetReq "/object" [("coll", co); ("key", k)]
  | CScanRange _ co a p e n =>
      GetReq "/scan" ([("coll", co); ("limit", u64_to_string (Z.of_nat n))]
                      ++ opt_param "after" a ++ opt_param "prefix" p ++ opt_param "end" e)
  | CScanBuckets _ co bs a n => PostReq "/scanBuckets" (ser_scan_buckets (mkScanBuckets co bs a n))
  | CMget _ co ks => PostReq "/mget" (ser_mget (mkMget co ks))
  | CSetAdd _ co k m => PostReq "/setAdd" (ser_set (mkSet co k m))
  | CSetRemove _ co k m => PostReq "/setRemove" (ser_set (mkSet co k m))
  | CWrite _ co k v => PostReq "/write" (ser_write (mkWrite co k v None))
  | CWriteTtl _ co k v t => PostReq "/write" (ser_write (mkWrite co k v (Some t)))
  | CCas _ co k e v => PostReq "/cas" (ser_cas (mkCas co k e v))
  | CIncr _ co k d => PostReq "/incr" (ser_incr (mkIncr co k d))
  | CDelete _ co k => PostReq "/deleteObject" (ser_delete (mkDelete co k))
  | CExport _ co bs => PostReq "/export" (ser_bucket (mkBucket co bs))
  | CImport _ co es => PostReq "/import" (ser_import (mkImport co es))
  | CDrop _ co bs => PostReq "/dropBuckets" (ser_bucket (mkBucket co bs))
  | CLease _ k h t => PostReq "/leaseAcquire" (ser_lease (mkLease k h t))
  end.

(** What leaves the client: [.json(&body)] prints the value. *)
Definition on_wire (r : request V) : request bytes :=
  match r with GetReq p q => GetReq p q | PostReq p v => PostReq p (value_to_vec v) end.

(** [Json(..)]: the server prints the value. *)
Definition print_body r : response bytes := mkResponse (status r) (value_to_vec <$> payload r).

(** What arrives: bytes that may not parse. *)
Definition parse_body (r : response bytes) : response V :=
  mkResponse (status r) (payload r ≫= value_from_slice).

(** [.json().await]: whatever the status. *)
Definition json_body r : CResult V :=
  match payload r with Some v => Ok v | None => Err "error decoding response body" end.

Definition decode_with {A} r (f : V → A) : CResult A :=
  match json_body r with Ok v => Ok (f v) | Err e => Err e end.

(** [error_for_status()]. *)
Definition post_ok r : CResult unit :=
  if 400 <=? status r then Err "HTTP status error" else Ok tt.

Definition get_bool (v : V) (f : string) : bool := default false (value_get v f ≫= value_bool).
Definition get_u64 (v : V) (f : string) : Z := default 0 (value_get v f ≫= value_u64).

(** The answers of the migration calls and of a lease attempt. *)
Definition entries_of (v : V) : list (string * V) :=
  default [] (value_get v "entries" ≫= dec_vec dec_pair).
Definition dropped_of (v : V) : nat := Z.to_nat (get_u64 v "dropped").
Definition outcome_of (v : V) : Lease.LeaseOutcome :=
  {| Lease.granted := get_bool v "granted";
     Lease.lease := Lease.mk (default EmptyString (get_str v "holder"))
                      (get_u64 v "expiresMs") (get_u64 v "token") |}.

(** What a client method makes of the parsed response. *)
Definition of_json {R} (c : call V R) r : CResult R :=
  match c with
  | CObject _ _ _ =>
      decode_with r (λ v, o ← value_get v "object"; if value_is_null o then None else Some o)
  | CScanRange _ _ _ _ _ _ | CScanBuckets _ _ _ _ _ =>
      decode_with r (λ v, default [] (value_get v "keys" ≫= value_to_strings))
  | CMget _ _ _ => decode_with r (λ v, default [] (value_get v "values" ≫= dec_vec dec_option))
  | CSetAdd _ _ _ _ => decode_with r (λ v, get_bool v "added")
  | CSetRemove _ _ _ _ => decode_with r (λ v, get_bool v "removed")
  | CWrite _ _ _ _ | CWriteTtl _ _ _ _ _ | CDelete _ _ _ | CImport _ _ _ => post_ok r
  | CCas _ _ _ _ _ => decode_with r (λ v, get_bool v "set")
  | CIncr _ _ _ _ => decode_with r (λ v, value_get v "value" ≫= value_as_i64)
  | CExport _ _ _ => decode_with r entries_of
  | CDrop _ _ _ => decode_with r dropped_of
  | CLease _ _ _ _ => decode_with r outcome_of
  end.

(** What a client method makes of the response.  The methods of [post_ok] do not
    look at the body. *)
Definition of_response {R} (c : call V R) (r : response bytes) : CResult R :=
  of_json c (parse_body r).

(** A delivered call: the request, the server, the response. *)
Definition remote (body_limit : Z) {R} (c : call V R) (now : Z) sh : Shard.t St * CResult R :=
  let '(sh', r) := app body_limit (on_wire (to_request c)) now sh in
  (sh', of_response c (print_body r)).

End client.

(** ** Automation *)

(** A [usize] of the wire. *)
Definition fits (n : nat) : Prop := Z.of_nat n < u64_modulus.

(** Read the fields of a concrete object. *)
Ltac fields :=
  unfold get_str, get_opt, get_bool, get_u64;
  repeat rewrite get_fields by (apply (bool_decide_eq_true_1 _); vm_compute; reflexivity);
  cbn [field String.eqb Ascii.eqb Bool.eqb Datatypes.app];
  repeat (cbn [mbind option_bind]; rewrite value_as_str_from); cbn [mbind option_bind].

(** The side conditions of decoding, and the decoding of a response. *)
Ltac side := first [done | by intros ? [= <-] | unfold fits, u64_modulus; cbn; lia].
Ltac answer :=
  unfold json, entries_of, dropped_of, outcome_of;
  cbn [of_json decode_with json_body payload local]; unfold entries_of, dropped_of, outcome_of; fields.

Section transparency.
Context {V St : Type} `{!IndexStore V St, !IndexStoreLaws V St, !JsonValue V, !JsonLaws V}.
Context `{!WireJson V, !JsonEnvelope V, !JsonEnvelopeLaws V, !LeaseCodec V}.
Implicit Types (sh : Shard.t St).

(** *** Serializers are inverted by deserializers *)

Lemma mapM_inverse {A} (enc : A → V) (dec : V → option A) l :
  Forall (λ x, dec (enc x) = Some x) l → mapM dec (map enc l) = Some l.
Proof.
  induction 1 as [|x l Hx Hl IH]; [done|]. cbn [map mapM]. rewrite Hx. cbn [mbind option_bind].
  by rewrite IH.
Qed.

Lemma dec_enc_vec {A} (enc : A → V) (dec : V → option A) l :
  Forall (λ x, dec (enc x) = Some x) l → dec_vec dec (enc_vec enc l) = Some l.
Proof. intros Hl. unfold dec_vec, enc_vec. rewrite elems_of_list. by apply mapM_inverse. Qed.

Lemma dec_enc_usize n : fits n → dec_usize (V := V) (enc_usize n) = Some n.
Proof.
  intros Hn. unfold dec_usize, enc_usize. rewrite u64_of_u64 by (split; [lia|done]). cbn.
  by rewrite Nat2Z.id.
Qed.

Lemma dec_enc_usizes l : Forall fits l → dec_vec (V := V) dec_usize (enc_vec enc_usize l) = Some l.
Proof.
  intros Hl. apply dec_enc_vec. eapply Forall_impl; [exact Hl|]. intros n. apply dec_enc_usize.
Qed.

Lemma dec_enc_pairs (l : list (string * V)) : dec_vec dec_pair (enc_vec enc_pair l) = Some l.
Proof.
  apply dec_enc_vec, Forall_forall. intros [k v] _. unfold dec_pair, enc_pair.
  rewrite elems_of_list. cbn. by rewrite value_as_str_from.
Qed.

Lemma de_ser_mget b : de_mget (ser_mget (V := V) b) = Some b.
Proof.
  destruct b as [c ks]. unfold de_mget, ser_mget. fields.
  by rewrite value_to_from_strings.
Qed.

Lemma de_ser_set b : de_set (ser_set (V := V) b) = Some b.
Proof. destruct b. unfold de_set, ser_set. by fields. Qed.

Lemma de_ser_delete b : de_delete (ser_delete (V := V) b) = Some b.
Proof. destruct b. unfold de_delete, ser_delete. by fields. Qed.

Lemma de_ser_bucket b : Forall fits (bk_buckets b) → de_bucket (ser_bucket (V := V) b) = Some b.
Proof.
  destruct b. cbn. intros. unfold de_bucket, ser_bucket. fields.
  by rewrite dec_enc_usizes.
Qed.

Lemma de_ser_import (b : ImportBody V) : de_import (ser_import b) = Some b.
Proof.
  destruct b. unfold de_import, ser_import. fields. by rewrite dec_enc_pairs.
Qed.

Lemma de_ser_write (b : WriteBody V) :
  (∀ t, wr_ttl b = Some t → is_u64 t) → de_write (ser_write b) = Some b.
Proof.
  destruct b as [c k o [t|]]; cbn; intros Ht; unfold de_write, ser_write; cbn [wr_ttl Datatypes.app];
    fields; [|done]. rewrite null_u64, u64_of_u64 by (by apply Ht). done.
Qed.

Lemma de_ser_incr b : is_i64 (in_delta b) → de_incr (ser_incr (V := V) b) = Some b.
Proof.
  destruct b. cbn. intros. unfold de_incr, ser_incr. fields.
  by rewrite value_as_i64_from.
Qed.

Lemma de_ser_lease b : is_u64 (ls_ttl b) → de_lease (ser_lease (V := V) b) = Some b.
Proof.
  destruct b. cbn. intros. unfold de_lease, ser_lease. fields. by rewrite u64_of_u64.
Qed.

Lemma de_ser_scan_buckets b :
  Forall fits (sb_buckets b) → fits (sb_limit b) →
  de_scan_buckets (ser_scan_buckets (V := V) b) = Some b.
Proof.
  destruct b as [c bs a n]. cbn. intros Hb Hn. unfold de_scan_buckets, ser_scan_buckets.
  fields. cbn [sb_buckets sb_after sb_limit]. rewrite dec_enc_usizes by done.
  cbn [mbind option_bind]. destruct a as [a|]; cbn [ser_opt].
  - rewrite null_str, value_as_str_from. cbn. by rewrite dec_enc_usize.
  - rewrite null_is_null. cbn. by rewrite dec_enc_usize.
Qed.

(** An expectation of null does not survive: it arrives as "absent". *)
Lemma de_ser_cas (b : CasBody V) :
  de_cas (ser_cas b)
  = Some (mkCas (cs_coll b) (cs_key b)
            (e ← cs_expect b; if value_is_null e then None else Some e) (cs_new b)).
Proof.
  destruct b as [c k [e|] n]; unfold de_cas, ser_cas; fields; cbn.
  - by destruct (value_is_null e).
  - by rewrite null_is_null.
Qed.

Lemma de_scan_request co a p e n :
  fits n →
  de_scan ([("coll", co); ("limit", u64_to_string (Z.of_nat n))]
           ++ opt_param "after" a ++ opt_param "prefix" p ++ opt_param "end" e)
  = Some (mkScanQ co a p e n).
Proof.
  intros Hn. pose proof (u64_string_roundtrip (Z.of_nat n) ltac:(split; [lia|done])) as Hr.
  revert Hr. generalize (u64_to_string (Z.of_nat n)) as t. intros t Hr.
  transitivity (n' ← Z.to_nat <$> parse_u64 t; Some (mkScanQ co a p e n'));
    [by destruct a, p, e|]. rewrite Hr. cbn. by rewrite Nat2Z.id.
Qed.

(** *** Remote calls *)

Definition body_size {R} (c : call V R) : Z :=
  match to_request c with PostReq _ b => Z.of_nat (length (value_to_vec b)) | GetReq _ _ => 0 end.

(** The body fits, and parses back (it is not nested too deep, and its floating
    point numbers are printed with enough digits). *)
Definition sendable {R} (limit : Z) (c : call V R) : Prop :=
  match to_request c with
  | PostReq _ v =>
      Z.of_nat (length (value_to_vec v)) ≤ limit ∧ value_from_slice (value_to_vec v) = Some v
  | GetReq _ _ => True
  end.

(** The reply parses back too. *)
Definition parses_back (r : response V) : Prop :=
  ∀ v, payload r = Some v → value_from_slice (value_to_vec v) = Some v.

Lemma received_sent (r : response V) : parses_back r → parse_body (print_body r) = r.
Proof.
  destruct r as [st [v|]]; [|done]. intros Hr. unfold parse_body, print_body. cbn.
  by rewrite (Hr v eq_refl).
Qed.

Lemma remote_received {R} (c : call V R) limit now sh :
  parses_back (app limit (on_wire (to_request c)) now sh).2 →
  remote limit c now sh
  = let '(sh', r) := app limit (on_wire (to_request c)) now sh in (sh', of_json c r).
Proof.
  intros Hb. unfold remote, of_response. destruct (app _ _ _ _) as [sh' r].
  by rewrite received_sent.
Qed.

Definition not_null (o : option V) : Prop := ∀ v, o = Some v → value_is_null v = false.

(** What the envelope carries without loss: no null where it stands for
    "absent", limits within the page caps, numbers of machine width. *)
Definition faithful {R} (c : call V R) (now : Z) sh : Prop :=
  match c with
  | CObject _ co k => not_null (Shard.object now sh co k)
  | CScanRange _ _ _ _ _ n => Z.of_nat n ≤ 10000
  | CScanBuckets _ _ bs _ n => Z.of_nat n ≤ 100000 ∧ Forall fits bs
  | CMget _ co ks => Forall not_null (Shard.mget now sh co ks)
  | CWriteTtl _ _ _ _ t => is_u64 t
  | CCas _ _ _ e _ => not_null e
  | CIncr _ _ _ d => is_i64 d
  | CExport _ _ bs => Forall fits bs
  | CDrop _ co bs => Forall fits bs ∧ fits (Shard.drop_buckets now sh co bs).2
  | CLease _ k h t =>
      let l := Lease.lease (Shard.lease_acquire now sh k h t).2 in
      is_u64 t ∧ is_u64 (Lease.expires_ms l) ∧ is_u64 (Lease.token l)
  | _ => True
  end.

Lemma with_json_ok {A} limit v (dec : V → option A) (h : A → handler (V := V) (St := St)) a :
  Z.of_nat (length (value_to_vec v)) ≤ limit ∧ value_from_slice (value_to_vec v) = Some v →
  dec v = Some a → with_json limit (value_to_vec v) dec h = h a.
Proof.
  intros [Hl Hp] Hd. unfold with_json.
  destruct (Z.ltb_spec limit (Z.of_nat (length (value_to_vec v)))); [lia|]. by rewrite Hp, Hd.
Qed.

Lemma filter_not_null (o : option V) :
  not_null o → (if value_is_null (enc_option o) then None else Some (enc_option o)) = o.
Proof.
  intros Ho. destruct o as [v|]; cbn; [by rewrite Ho|by rewrite null_is_null].
Qed.

Lemma dec_enc_options l : Forall not_null l → dec_vec dec_option (enc_vec enc_option l) = Some l.
Proof.
  intros Hl. apply dec_enc_vec. eapply Forall_impl; [exact Hl|]. intros o Ho.
  unfold dec_option. f_equal. by apply filter_not_null.
Qed.

Lemma nat_cap n z : Z.of_nat n ≤ z → (n `min` Z.to_nat z = n)%nat.
Proof. intros. apply Nat.min_l. lia. Qed.

Lemma incr_range now sh co k d z :
  (Shard.incr now sh co k d).2 = Some z → is_i64 z.
Proof.
  unfold Shard.incr, Store.incr. case_match; [|done]. cbn. intros [= <-]. apply i64_wrap_range.
Qed.

(** Decode the body of a request. *)
Ltac body b lem := rewrite (with_json_ok _ _ _ _ b); [|done|apply lem; side].

Lemma remote_cas limit co k e nw now sh :
  sendable limit (CCas V co k e nw) → not_null e →
  (let '(sh', r) := app limit (on_wire (to_request (CCas V co k e nw))) now sh in
   (sh', of_json (CCas V co k e nw) r))
  = let '(sh', b) := Shard.cas now sh co k e nw in (sh', Ok b).
Proof.
  intros Hsize Hf. unfold sendable in Hsize.
  cbn [to_request on_wire app String.eqb Ascii.eqb Bool.eqb] in *.
  body (mkCas co k (x ← e; if value_is_null x then None else Some x) nw) de_ser_cas.
  assert ((x ← e; if value_is_null x then None else Some x) = e) as ->.
  { destruct e as [x|]; [|done]. cbn. by rewrite Hf. }
  unfold cas. cbn [cs_coll cs_key cs_expect cs_new].
  destruct (Shard.cas _ _ _ _ _ _) as [sh' b]. answer. by rewrite bool_of_bool.
Qed.

Lemma remote_lease limit k h t now sh :
  sendable limit (CLease V k h t) → faithful (CLease V k h t) now sh →
  (let '(sh', r) := app limit (on_wire (to_request (CLease V k h t))) now sh in
   (sh', of_json (CLease V k h t) r))
  = let '(sh', o) := Shard.lease_acquire now sh k h t in (sh', Ok o).
Proof.
  intros Hsize (Ht & He & Hk). unfold sendable in Hsize.
  cbn [to_request on_wire app String.eqb Ascii.eqb Bool.eqb] in *.
  body (mkLease k h t) de_ser_lease. unfold lease_acquire. cbn [ls_key ls_holder ls_ttl].
  destruct (Shard.lease_acquire _ _ _ _ _) as [sh' [g [hd e tk]]]. cbn in He, Hk. answer.
  rewrite bool_of_bool, !u64_of_u64 by done. done.
Qed.

(** What the client makes of the server's answer, before both are texts. *)
Lemma app_local {R} (c : call V R) limit now sh :
  sendable limit c → faithful c now sh →
  (let '(sh', r) := app limit (on_wire (to_request c)) now sh in (sh', of_json c r))
  = let '(sh', r) := local c now sh in (sh', Ok r).
Proof.
  intros Hsize Hf. unfold sendable in *.
  destruct c; cbn [to_request on_wire app String.eqb Ascii.eqb Bool.eqb] in *; cbn [faithful] in Hf.
  - change (de_obj [("coll", coll); ("key", key)]) with (Some (mkObjQ coll key)). cbn [with_query].
    unfold object. answer. cbn [oq_coll oq_key]. by rewrite filter_not_null.
  - rewrite de_scan_request by (unfold fits, u64_modulus; lia). cbn [with_query].
    unfold scan. answer. rewrite value_to_from_strings. cbn [default from_option sq_limit].
    unfold scan_cap. by rewrite nat_cap.
  - destruct Hf as [Hn Hb]. body (mkScanBuckets coll buckets after limit0) de_ser_scan_buckets.
    unfold scan_buckets. answer. rewrite value_to_from_strings. cbn [default from_option sb_limit].
    unfold bucket_cap. by rewrite nat_cap.
  - body (mkMget coll keys) de_ser_mget. unfold mget. answer. cbn [mg_coll mg_keys].
    by rewrite dec_enc_options.
  - body (mkSet coll key member) de_ser_set. unfold set_add. cbn [st_coll st_key st_member local].
    destruct (Shard.set_add _ _ _ _ _) as [sh' b]. answer. by rewrite bool_of_bool.
  - body (mkSet coll key member) de_ser_set. unfold set_remove. cbn [st_coll st_key st_member local].
    destruct (Shard.set_remove _ _ _ _ _) as [sh' b]. answer. by rewrite bool_of_bool.
  - body (mkWrite coll key obj None) de_ser_write. done.
  - body (mkWrite coll key obj (Some ttl_ms)) de_ser_write.
    unfold write. cbn [wr_ttl wr_coll wr_key wr_obj local of_json].
    unfold Shard.write_object_ttl, Shard.write_object. destruct Hf as [Hf _].
    destruct (Z.ltb_spec 0 ttl_ms), (Z.eqb_spec ttl_ms 0); try lia; done.
  - by apply remote_cas.
  - body (mkIncr coll key delta) de_ser_incr. unfold incr. cbn [in_coll in_key in_delta local].
    pose proof (incr_range now sh coll key delta) as Hr.
    destruct (Shard.incr _ _ _ _ _) as [sh' [z|]]; answer; cbn [ser_opt].
    + by rewrite value_as_i64_from by (by apply Hr).
    + by rewrite null_i64.
  - body (mkDelete coll key) de_ser_delete. done.
  - body (mkBucket coll buckets) de_ser_bucket. unfold export. answer.
    cbn [bk_coll bk_buckets]. by rewrite dec_enc_pairs.
  - body (mkImport coll entries) de_ser_import. done.
  - destruct Hf as [Hb Hn]. body (mkBucket coll buckets) de_ser_bucket.
    unfold drop_buckets. cbn [bk_coll bk_buckets local].
    destruct (Shard.drop_buckets _ _ _ _) as [sh' n]. answer. unfold enc_usize.
    rewrite u64_of_u64 by (split; [lia|done]). cbn. by rewrite Nat2Z.id.
  - by apply remote_lease.
Qed.

(** C16. A remote shard behaves like a local one: a delivered call of the HTTP
    client, through the bytes of the request, the server's decoding and handler
    and the bytes of the response, has exactly the effect and the result of the
    shard's operation, as long as the request's body is within the server's limit,
    the bodies of request and reply parse back to what was printed, and the data
    is of the kind the envelope carries: no null where it stands for absent,
    limits within the page caps of the two scans, numbers of machine width. *)
Theorem http_client_transparent {R} (c : call V R) limit now sh :
  sendable limit c → faithful c now sh →
  parses_back (app limit (on_wire (to_request c)) now sh).2 →
  remote limit c now sh = let '(sh', r) := local c now sh in (sh', Ok r).
Proof.
  intros Hsize Hf Hback. rewrite remote_received by done. by apply app_local.
Qed.

(** *** Calls that fail *)

(** The text parses back, or not at all. *)
Definition kept (v : V) : Prop :=
  value_from_slice (value_to_vec v) = Some v ∨ value_from_slice (value_to_vec v) = None.

(** A call as the coordinator's clients have it: one of the three outcomes of
    [Client.call]. *)
Definition outcome {R} (f : fault) (c : call V R) (now : Z) sh (e : string) : Shard.t St * CResult R :=
  match f with
  | Delivered => let '(sh', r) := local c now sh in (sh', Ok r)
  | Lost => (sh, Err e)
  | ReplyLost => ((local c now sh).1, Err e)
  end.

(** A request that cannot be decoded, or is too long, does nothing. *)
Lemma refused {R} (c : call V R) limit now sh v :
  match to_request c with PostReq _ b => b = v | GetReq _ _ => False end →
  limit < Z.of_nat (length (value_to_vec v)) ∨ value_from_slice (value_to_vec v) = None →
  ∃ e, remote limit c now sh = (sh, Err e).
Proof.
  intros Hv Hbad. unfold remote, of_response.
  assert (Hno : ∀ A (dec : V → option A) (h : A → handler (V := V) (St := St)),
    ∃ st, 400 ≤ st ∧ with_json limit (value_to_vec v) dec h = λ _ sh, (sh, refuse st)).
  { intros A dec h. unfold with_json.
    destruct (Z.ltb_spec limit (Z.of_nat (length (value_to_vec v)))); [by exists 413|].
    destruct Hbad as [?| ->]; [lia|by exists 400]. }
  destruct c; cbn [to_request] in Hv; try done; rewrite <-Hv in Hno;
    cbn [to_request on_wire app String.eqb Ascii.eqb Bool.eqb];
    edestruct Hno as (st & Hst & ->); cbn; unfold post_ok, parse_body, print_body, refuse; cbn [status];
    try (destruct (Z.leb_spec 400 st); [|lia]); by eexists.
Qed.

(** An HTTP call has one of the outcomes that the coordinator's model of a call
    has, whenever the envelope is faithful and no text changes its value: a
    request that is too long or cannot be parsed is a lost one, a reply that
    cannot be parsed a lost reply. *)
Theorem http_call_outcomes {R} (c : call V R) limit now sh :
  faithful c now sh →
  match to_request c with PostReq _ v => kept v | GetReq _ _ => True end →
  (∀ v, payload (app limit (on_wire (to_request c)) now sh).2 = Some v → kept v) →
  ∃ f e, remote limit c now sh = outcome f c now sh e.
Proof.
  intros Hf Hreq Hrep.
  assert (sendable limit c ∨ ∃ e, remote limit c now sh = (sh, Err e)) as [Hsize|[e He]].
  { unfold sendable. destruct (to_request c) as [|p v] eqn:Hc; [by left|].
    destruct (Z.leb_spec (Z.of_nat (length (value_to_vec v))) limit) as [Hl|Hl].
    - destruct Hreq as [Hp|Hp]; [by left|]. right. apply (refused c limit now sh v); [by rewrite Hc|by right].
    - right. apply (refused c limit now sh v); [by rewrite Hc|by left]. }
  2:{ by exists Lost, e. }
  pose proof (app_local c limit now sh Hsize Hf) as Ha. unfold remote, of_response.
  destruct (app limit (on_wire (to_request c)) now sh) as [sh' [st [v|]]]; [|by exists Delivered, EmptyString].
  cbn [snd payload] in Hrep. unfold parse_body, print_body, outcome. cbn [status payload fmap option_fmap option_map mbind option_bind].
  destruct (Hrep v eq_refl) as [Hv|Hv]; rewrite Hv; [by exists Delivered, EmptyString|].
  destruct (local c now sh) as [sh1 r] eqn:Hl. injection Ha as -> Hr.
  destruct c; try (exists ReplyLost; eexists; reflexivity); exists Delivered, EmptyString; by rewrite <-Hr.
Qed.

(** *** Where the envelope shows *)

(** A request body above the server's limit is refused as a whole: the call
    fails and the shard is untouched, whatever the operation.  In particular an
    import of exported buckets whose encoding exceeds the limit never arrives,
    however often it is retried. *)
Theorem oversized_call_refused {R} (c : call V R) limit now sh :
  0 ≤ limit → limit < body_size c → ∃ e, remote limit c now sh = (sh, Err e).
Proof.
  intros H0 Hl. unfold remote, body_size in *.
  assert (Hbig : ∀ A b (dec : V → option A) (h : A → handler (V := V) (St := St)),
    limit < Z.of_nat (length b) → with_json limit b dec h = λ _ sh, (sh, refuse 413)).
  { intros A b dec h Hb. unfold with_json.
    by destruct (Z.ltb_spec limit (Z.of_nat (length b))); [|lia]. }
  destruct c; cbn [to_request on_wire app String.eqb Ascii.eqb Bool.eqb] in *; try lia;
    rewrite Hbig by done; cbn; by eexists.
Qed.

(** A reply that does not parse fails the call: values nested as deep as the
    parser allows can be written, but no longer be exported or read in a batch,
    where the reply wraps them once more; what the call did stays done. *)
Theorem unparsable_reply_fails {R} (c : call V R) limit now sh v :
  payload (app limit (on_wire (to_request c)) now sh).2 = Some v →
  value_from_slice (value_to_vec v) = None →
  match c with CWrite _ _ _ _ | CWriteTtl _ _ _ _ _ | CDelete _ _ _ | CImport _ _ _ => False | _ => True end →
  remote limit c now sh
  = ((app limit (on_wire (to_request c)) now sh).1, Err "error decoding response body").
Proof.
  intros Hp Hv Hc. unfold remote, of_response. destruct (app _ _ _ _) as [sh' r]. cbn [fst snd] in *.
  f_equal. unfold parse_body, print_body. rewrite Hp. cbn. rewrite Hv. by destruct c.
Qed.

(** A scan over HTTP returns at most 10,000 keys, whatever the limit asked
    for: with a larger limit and enough keys the page is full for the server
    and short for a caller that takes a short page for the last one. *)
Theorem remote_scan_capped limit co a p e n now sh :
  store_wf (Shard.store sh) → fits n →
  parses_back (app (V := V) limit (on_wire (to_request (CScanRange V co a p e n))) now sh).2 →
  let matching := filter (in_bounds a p e) (live_keys now (Shard.store sh) co) in
  remote limit (CScanRange V co a p e n) now sh = (sh, Ok (take (n `min` scan_cap) matching))
  ∧ (10000 < Z.of_nat n → 10000 < Z.of_nat (length matching) →
       Z.of_nat (length (take (n `min` scan_cap) matching)) = 10000).
Proof.
  intros Hwf Hn Hback matching. split.
  - rewrite remote_received by done. clear Hback. cbn [to_request on_wire app String.eqb Ascii.eqb Bool.eqb].
    rewrite de_scan_request by done. cbn [with_query]. unfold scan. answer.
    rewrite value_to_from_strings. cbn [default from_option sq_limit sq_coll sq_after sq_prefix sq_end].
    unfold Shard.scan_range. by rewrite scan_range_spec.
  - intros H1 H2. rewrite length_take. unfold scan_cap. lia.
Qed.

(** A stored null reads as absent, and can no longer be the expectation of a
    compare-and-set. *)
Lemma remote_null limit co k v nw now sh :
  value_is_null v = true → Shard.object now sh co k = Some v →
  sendable limit (CCas V co k (Some v) nw) →
  parses_back (app limit (on_wire (to_request (CObject V co k))) now sh).2 →
  parses_back (app limit (on_wire (to_request (CCas V co k (Some v) nw))) now sh).2 →
  (remote limit (CObject V co k) now sh).2 = Ok None
  ∧ remote limit (CCas V co k (Some v) nw) now sh = (sh, Ok false).
Proof.
  intros Hv Ho Hsize B1 B2. rewrite !remote_received by done. clear B1 B2.
  unfold sendable in Hsize. cbn [to_request on_wire app String.eqb Ascii.eqb Bool.eqb] in *. split.
  - change (de_obj [("coll", co); ("key", k)]) with (Some (mkObjQ co k)). cbn [with_query].
    unfold object. answer. cbn [oq_coll oq_key]. rewrite Ho. cbn. by rewrite Hv.
  - rewrite (with_json_ok _ _ _ _ (mkCas co k None nw)); [|done|].
    2:{ rewrite de_ser_cas. cbn. by rewrite Hv. }
    unfold cas, Shard.cas, Store.cas. cbn [cs_coll cs_key cs_expect cs_new].
    unfold Shard.object in Ho. rewrite Ho. cbn [option_value_eqb Shard.update fst snd].
    answer. rewrite bool_of_bool. by destruct sh.
Qed.

End transparency.

(** ** What a body names *)

(** Invert a decoder: the fields it has read. *)
Ltac decoded_as H := repeat (apply bind_Some in H as (? & ? & H)); injection H as <-.

Section names.
Context {V St : Type} `{!IndexStore V St, !IndexStoreLaws V St, !JsonValue V}.
Context `{!WireJson V, !JsonEnvelope V, !LeaseCodec V}.

(** The collection a post route acts on. *)
Definition acts_on (p : string) (v : V) : option string :=
  if String.eqb p "/leaseAcquire" then Some Lease.LEASE_COLL else get_str v "coll".

(** The keys a body names, and the values it carries: they have to be fit for
    the store. *)
Definition body_keys (v : V) : list string :=
  match get_str v "key" with Some k => [k] | None => [] end
  ++ match de_import v with Some b => map fst (im_entries b) | None => [] end.

Definition body_values (v : V) : list V :=
  option_list (value_get v "obj") ++ option_list (value_get v "new")
  ++ match de_import v with Some b => map snd (im_entries b) | None => [] end.

(** The store can hold at a key what a request with the values [xs] may leave
    there. *)
Definition key_ok (c k : string) (xs : list V) : Prop :=
  numbers_ok (V := V) (St := St) c k ∧ lists_ok (V := V) (St := St) c k
  ∧ (∀ l, entry_ok (V := V) (St := St) c k (value_from_lease l))
  ∧ ∀ x, x ∈ xs → entry_ok (V := V) (St := St) c k x.

Definition keys_ok (p : string) (b : bytes) : Prop :=
  ∀ v c k, value_from_slice b = Some v → acts_on p v = Some c → k ∈ body_keys v →
    key_ok c k (body_values v).

Lemma body_key v k : get_str v "key" = Some k → k ∈ body_keys v.
Proof. intros Hk. unfold body_keys. rewrite Hk. by left. Qed.

Lemma body_entry v b k (x : V) : de_import v = Some b → (k, x) ∈ im_entries b → k ∈ body_keys v ∧ x ∈ body_values v.
Proof.
  intros Hb Hk. unfold body_keys, body_values. rewrite Hb. split.
  - apply elem_of_app. right. apply list_elem_of_fmap. by exists (k, x).
  - apply elem_of_app. right. apply elem_of_app. right. apply list_elem_of_fmap. by exists (k, x).
Qed.

Lemma body_obj v x : value_get v "obj" = Some x ∨ value_get v "new" = Some x → x ∈ body_values v.
Proof. unfold body_values. intros [-> | ->]; set_solver. Qed.

End names.

End Http.
