(* ===== verification/Journal.v ===== *)
(** * The migration journal ([src/src/journal.rs])

    Only progress is recorded: the two memberships, the replication target and
    the buckets already migrated.  The plan is recomputed from them. *)

From S2P Require Import Prelude.

Module Journal.

Record MigrationRecord := mkRecord {
  old_nodes : list string;
  new_nodes : list string;
  replication : nat;
  done : list nat;
}.

(** [InMemoryJournal]: one optional record behind a lock. *)
Definition t : Type := option MigrationRecord.

Definition new : t := None.
Definition load (j : t) : option MigrationRecord := j.
Definition save (j : t) (rec : MigrationRecord) : t := Some rec.
Definition clear (j : t) : t := None.

End Journal.
