(* ===== verification/Cluster.v ===== *)
(** * The cluster front door ([src/src/cluster.rs])

    The state of the coordinator, routing, the replicated data plane and the
    control plane (membership changes and their migrations).  Calls to shards go
    through [Client] and run in the monad of the world; the fields of [Cluster]
    are threaded explicitly where an operation changes them.

    A migration is cut at its chunks: [begin_migration], [migrate_chunk] and
    [end_migration] are the three parts of the body of [run_migration], which
    composes them.  Between two chunks the gate is open and other operations
    run; inside a chunk the gate excludes every operation on its buckets
    ([Guard.copy_excludes_operations]), so a chunk is one step. *)

From S2P Require Import Prelude Machine Text Partitioner Reshard Store Lease Shard Journal Client.

Module Cluster.
Import Partitioner.

(** The order of a key extracted from each element. *)
Definition on {A K} (f : A → K) (R : K → K → Prop) (x y : A) : Prop := R (f x) (f y).

#[global] Instance on_dec {A K} (f : A → K) R `{HR : !RelDecision R} : RelDecision (on f R).
Proof. intros x y. apply HR. Defined.

(** [BTreeMap] iteration: ascending keys. *)
Definition btree_iter {K A} `{Countable K} (R : K → K → Prop) `{!RelDecision R} (m : gmap K A)
    : list (K * A) :=
  merge_sort (on fst R) (map_to_list m).

(** [map.entry(k).or_default().push(x)]. *)
Definition push_at {K A} `{Countable K} (k : K) (x : A) (m : gmap K (list A)) : gmap K (list A) :=
  <[k := default [] (m !! k) ++ [x]]> m.

(** The order of [(String, String)]. *)
Definition pair_le (p q : string * string) : Prop :=
  str_lt p.1 q.1 ∨ (p.1 = q.1 ∧ ¬ str_lt q.2 p.2).

Definition str_le (a b : string) : Prop := ¬ str_lt b a.

#[global] Instance str_le_dec : RelDecision str_le.
Proof. intros a b. unfold str_le. apply _. Defined.
#[global] Instance pair_le_dec : RelDecision pair_le.
Proof. intros a b. unfold pair_le. apply _. Defined.

(** [slice::chunks(n)]; [n] is at least 1. *)
Fixpoint chunks_fuel {A} (fuel n : nat) (l : list A) : list (list A) :=
  match fuel, l with
  | S f, _ :: _ => take n l :: chunks_fuel f n (drop n l)
  | _, _ => []
  end.

Definition chunks {A} (n : nat) (l : list A) : list (list A) := chunks_fuel (length l) n l.

(** The copies and drops of each bucket, as a plan lists them. *)
Abbreviation Actions := (gmap nat (list (string * string) * list string)).

(** ** State *)

Record Overlay := mkOverlay {
  old_p : Partitioner.t;
  r_old : nat;
  new_p : Partitioner.t;
  r_new : nat;
  migrated : gset nat;
}.

Record t := mk {
  partitioner : Partitioner.t;
  clients : gmap NodeId Client.t;
  replication_target : nat;
  replication : nat;
  chunk : nat;
  down : gset NodeId;
  journal : Journal.t;
  overlay : option Overlay;
  colls : list string;
  topology : gmap NodeId string;
  epoch : Z;
}.

Definition CHUNK : nat := 256.

Definition clamp (target n : nat) : nat := (target `min` (n `max` 1)) `max` 1.

Record MigrateSummary := mkSummary {
  s_buckets : nat;
  s_moved : nat;
  s_copied : nat;
  s_dropped : nat;
}.

Section cluster.
Context `{!HashIter}.

(** [HashMap::keys], [HashMap::values]. *)
Definition hash_keys {A} (m : gmap string A) : list string := map fst (hash_iter m).
Definition hash_values {A} (m : gmap string A) : list A := map snd (hash_iter m).

Definition new (cs : gmap NodeId Client.t) (repl : nat) (cols : list string) : t :=
  let ids := hash_keys cs in
  let rt := repl `max` 1 in
  mk (Partitioner.new ids) cs rt (clamp rt (length ids)) CHUNK ∅ Journal.new None cols ∅ 1.

Definition with_journal (cl : t) (j : Journal.t) : t :=
  mk (partitioner cl) (clients cl) (replication_target cl) (replication cl) (chunk cl) (down cl)
     j (overlay cl) (colls cl) (topology cl) (epoch cl).

Definition set_topology (cl : t) (topo : gmap NodeId string) : t :=
  mk (Partitioner.set_topology (partitioner cl) topo) (clients cl) (replication_target cl)
     (replication cl) (chunk cl) (down cl) (journal cl) (overlay cl) (colls cl) topo (epoch cl).

Definition make_partitioner (cl : t) (ns : list NodeId) : Partitioner.t :=
  let p := Partitioner.new ns in
  if decide (topology cl = ∅) then p else Partitioner.set_topology p (topology cl).

Definition with_chunk (cl : t) (n : nat) : t :=
  mk (partitioner cl) (clients cl) (replication_target cl) (replication cl) (n `max` 1) (down cl)
     (journal cl) (overlay cl) (colls cl) (topology cl) (epoch cl).

Definition mark_down (cl : t) (i : NodeId) : t :=
  mk (partitioner cl) (clients cl) (replication_target cl) (replication cl) (chunk cl)
     ({[i]} ∪ down cl) (journal cl) (overlay cl) (colls cl) (topology cl) (epoch cl).

Definition with_clients (cl : t) (cs : gmap NodeId Client.t) : t :=
  mk (partitioner cl) cs (replication_target cl) (replication cl) (chunk cl) (down cl)
     (journal cl) (overlay cl) (colls cl) (topology cl) (epoch cl).

Definition with_overlay (cl : t) (ov : option Overlay) : t :=
  mk (partitioner cl) (clients cl) (replication_target cl) (replication cl) (chunk cl) (down cl)
     (journal cl) ov (colls cl) (topology cl) (epoch cl).

Definition with_target (cl : t) (rt : nat) : t :=
  mk (partitioner cl) (clients cl) rt (replication cl) (chunk cl) (down cl)
     (journal cl) (overlay cl) (colls cl) (topology cl) (epoch cl).

Definition member_ids (cl : t) : list NodeId := sort_strings (list_nodes (partitioner cl)).

Definition members_with_endpoints (cl : t) : list (NodeId * string) :=
  merge_sort pair_le (map (λ '(i, c), (i, Client.endpoint c)) (hash_iter (clients cl))).

Definition add_node (cl : t) (i : NodeId) (c : Client.t) : t :=
  with_clients cl (<[i := c]> (clients cl)).

(** What the coordinator shows of itself. *)
Definition shard_count (cl : t) : nat := length (list_nodes (partitioner cl)).
Definition replication_factor (cl : t) : nat := replication cl.

Definition is_migrating (cl : t) : bool :=
  match overlay cl with Some _ => true | None => false end.

(** ** Routing *)

Definition owners (cl : t) (key : string) : list NodeId :=
  match overlay cl with
  | Some o =>
      let b := bucket_of key in
      if decide (b ∈ migrated o) then owners_of_bucket (new_p o) b (r_new o)
      else owners_of_bucket (old_p o) b (r_old o)
  | None => replica_set (partitioner cl) key (replication cl)
  end.

Definition is_down (cl : t) (n : NodeId) : bool := bool_decide (n ∈ down cl).

Definition client_of (cl : t) (n : NodeId) : option Client.t := clients cl !! n.

Definition live_owners (cl : t) (key : string) : list NodeId :=
  filter (λ n, is_down cl n = false) (owners cl key).

Definition live_owner (cl : t) (key : string) : option NodeId := head (live_owners cl key).

(** [owners], [served_by], [key_value]. *)
Definition route (cl : t) (key : string) : list NodeId * option NodeId * string :=
  (owners cl key, live_owner cl key, key).

(** The bucket [b] joins its primary's list. *)
Definition assign_bucket (p : Partitioner.t) (by_node : gmap NodeId (list nat)) (b : nat)
    : gmap NodeId (list nat) :=
  match head (owners_of_bucket p b 1) with
  | Some primary => push_at primary b by_node
  | None => by_node
  end.

Record Partition := mkPartition { p_id : NodeId; p_endpoint : string; p_buckets : list nat }.

Definition partition_plan (cl : t) : list Partition :=
  let p := partitioner cl in
  let by_node := foldl (assign_bucket p) ∅ (seq 0 (bucket_count p)) in
  let endpoints : gmap NodeId string := list_to_map (members_with_endpoints cl) in
  let plan := map (λ '(i, bs), mkPartition i (default EmptyString (endpoints !! i)) bs)
                (hash_iter by_node) in
  merge_sort (on p_id str_le) plan.

(** ** The data plane *)

Section data_plane.
Context {V St : Type} `{!IndexStore V St, !JsonValue V, !LeaseCodec V, !Env}.

Definition lease_acquire (cl : t) (key who : string) (ttl_ms : Z)
    : M St (option Lease.LeaseOutcome) :=
  match head (owners cl key) with
  | None => mret None
  | Some owner =>
      if is_down cl owner then mret None
      else
        match client_of cl owner with
        | None => mret None
        | Some c => r ← Client.lease_acquire c key who ttl_ms; mret (ok r)
        end
  end.

Definition try_acquire_leadership (cl : t) (who : string) (ttl_ms : Z)
    : M St (option Lease.LeaseOutcome) :=
  lease_acquire cl Lease.LEADER_KEY who ttl_ms.

Definition scan_range (cl : t) (coll : string) (after prefix end_ : option string) (limit : nat)
    : M St (list string * option string) :=
  merged ← forM (hash_values (clients cl)) (∅ : gset string) (λ merged c,
    if is_down cl (Client.id c) then mret merged
    else
      r ← Client.scan_range c coll after prefix end_ limit;
      match r with
      | Ok keys => mret (merged ∪ list_to_set keys)
      | Err _ => mret merged
      end);
  let page := take limit (sort_strings (elements merged)) in
  let cursor := if (limit <=? length page)%nat then last page else None in
  mret (page, cursor).

(** Keys grouped by the shard that serves them: positions into [keys]. *)
Definition group_keys (cl : t) (keys : list string) : gmap NodeId (list nat) :=
  foldl (λ by_node '(i, k),
    match live_owner cl k with
    | Some owner => push_at owner i by_node
    | None => by_node
    end) ∅ (imap (λ i k, (i, k)) keys).

(** [out[i] = vals.get(j).cloned().flatten()] for every [(j, i)]. *)
Definition place {A} (out : list (option A)) (idxs : list nat) (vals : list (option A))
    : list (option A) :=
  foldl (λ out '(j, i), <[i := mjoin (vals !! j)]> out) out (imap (λ j i, (j, i)) idxs).

Definition mget (cl : t) (coll : string) (keys : list string) : M St (list (option V)) :=
  forM (hash_iter (group_keys cl keys)) (replicate (length keys) None) (λ out '(node, idxs),
    match client_of cl node with
    | None => mret out
    | Some c =>
        let sub := omap (λ i, keys !! i) idxs in
        r ← Client.mget c coll sub;
        match r with
        | Ok vals => mret (place out idxs vals)
        | Err _ => mret out
        end
    end).

(** Try the owners in order until one answers. *)
Fixpoint get_from (cl : t) (coll key : string) (ns : list NodeId) : M St (option V) :=
  match ns with
  | [] => mret None
  | n :: ns' =>
      if is_down cl n then get_from cl coll key ns'
      else
        match client_of cl n with
        | None => get_from cl coll key ns'
        | Some c =>
            r ← Client.object c coll key;
            match r with
            | Ok o => mret o
            | Err _ => get_from cl coll key ns'
            end
        end
  end.

Definition get (cl : t) (coll key : string) : M St (option V) :=
  get_from cl coll key (owners cl key).

(** Run [op] on every live owner that has a client. *)
Definition broadcast {R} (cl : t) (key : string) (op : Client.t → M St R) : M St unit :=
  forM (owners cl key) tt (λ _ n,
    if is_down cl n then mret tt
    else
      match client_of cl n with
      | Some c => _ ← op c; mret tt
      | None => mret tt
      end).

Definition put (cl : t) (coll key : string) (obj : V) : M St unit :=
  broadcast cl key (λ c, Client.write_object c coll key obj).

Definition put_ttl (cl : t) (coll key : string) (obj : V) (ttl_ms : Z) : M St unit :=
  broadcast cl key (λ c, Client.write_object_ttl c coll key obj ttl_ms).

(** Write [obj] to the replicas that have a client. *)
Definition replicate_to (cl : t) (replicas : list NodeId) (coll key : string) (obj : V)
    : M St unit :=
  forM replicas tt (λ _ n,
    match client_of cl n with
    | Some c => _ ← Client.write_object c coll key obj; mret tt
    | None => mret tt
    end).

Definition cas (cl : t) (coll key : string) (expect : option V) (nw : V) : M St bool :=
  match live_owners cl key with
  | [] => mret false
  | primary :: replicas =>
      match client_of cl primary with
      | None => mret false
      | Some pc =>
          r ← Client.cas pc coll key expect nw;
          let set := unwrap_or false r in
          if set then _ ← replicate_to cl replicas coll key nw; mret true else mret false
      end
  end.

Definition incr (cl : t) (coll key : string) (delta : Z) : M St (option Z) :=
  match live_owners cl key with
  | [] => mret None
  | primary :: replicas =>
      match client_of cl primary with
      | None => mret None
      | Some pc =>
          r ← Client.incr pc coll key delta;
          match mjoin (ok r) with
          | None => mret None
          | Some nw =>
              _ ← replicate_to cl replicas coll key (value_from_i64 nw); mret (Some nw)
          end
      end
  end.

Definition delete_ (cl : t) (coll key : string) : M St unit :=
  broadcast cl key (λ c, Client.delete_object c coll key).

Definition set_add (cl : t) (coll key member : string) : M St unit :=
  broadcast cl key (λ c, Client.set_add c coll key member).

Definition set_remove (cl : t) (coll key member : string) : M St unit :=
  broadcast cl key (λ c, Client.set_remove c coll key member).

(** The entries each node receives, in input order. *)
Definition group_entries (cl : t) (entries : list (string * V)) : gmap NodeId (list (string * V)) :=
  foldl (λ per '(key, obj),
    foldl (λ per n, push_at n (key, obj) per) per
      (replica_set (partitioner cl) key (replication cl))) ∅ entries.

Definition bulk_load (cl : t) (coll : string) (entries : list (string * V)) : M St unit :=
  let per := group_entries cl entries in
  forM (hash_iter (clients cl)) tt (λ _ '(i, c),
    match per !! i with
    | Some es => _ ← Client.import_entries c coll es; mret tt
    | None => mret tt
    end).

(** ** The control plane *)

Definition save_record (cl : t) (old nw : list NodeId) (done : gset nat) : t :=
  with_journal cl (Journal.save (journal cl)
    (Journal.mkRecord old nw (replication_target cl) (elements done))).

Definition commit_membership (cl : t) (nw : list NodeId) : t :=
  mk (set_nodes (partitioner cl) nw)
     (filter (λ '(i, _), i ∈ nw) (clients cl))
     (replication_target cl)
     (clamp (replication_target cl) (length nw))
     (chunk cl)
     (filter (λ n, ¬ (n ∈ dom (clients cl) ∧ n ∉ nw)) (down cl))
     (journal cl) (overlay cl) (colls cl) (topology cl) (u64_add (epoch cl) 1).

Definition add_copy (done : gset nat) (acts : Actions) (c : Reshard.Copy) : Actions :=
  let b := Reshard.c_bucket c in
  if decide (b ∈ done) then acts
  else let '(cs, ds) := default ([], []) (acts !! b) in
       <[b := (cs ++ [(Reshard.c_from c, Reshard.c_to c)], ds)]> acts.

Definition add_drop (done : gset nat) (acts : Actions) (d : Reshard.Drop) : Actions :=
  let b := Reshard.d_bucket d in
  if decide (b ∈ done) then acts
  else let '(cs, ds) := default ([], []) (acts !! b) in
       <[b := (cs, ds ++ [Reshard.d_node d])]> acts.

Definition plan_actions (done : gset nat) (plan : Reshard.ReshardPlan) : Actions :=
  foldl (add_drop done) (foldl (add_copy done) ∅ (Reshard.copies plan)) (Reshard.drops plan).

(** What a running migration keeps in its local variables. *)
Record migration := mkMig {
  m_old : list NodeId;
  m_new : list NodeId;
  m_actions : Actions;
  m_moved : nat;
  m_done : gset nat;
  m_copied : nat;
  m_dropped : nat;
}.

(** Up to the chunk loop: plan, overlay, actions, first checkpoint; with the
    list of chunks the loop will go through. *)
Definition begin_migration (cl : t) (old nw : list NodeId) (done : gset nat)
    : t * migration * list (list nat) :=
  let rt := replication_target cl in
  let plan := Reshard.plan_reshard old nw rt (topology cl) in
  let cl := with_overlay cl (Some (mkOverlay (make_partitioner cl old) (clamp rt (length old))
              (make_partitioner cl nw) (clamp rt (length nw)) done)) in
  let acts := plan_actions done plan in
  let bucket_list := map fst (btree_iter le acts) in
  let cl := save_record cl old nw done in
  (cl, mkMig old nw acts (Reshard.moved_buckets plan) done 0 0, chunks (chunk cl) bucket_list).

(** The moves of a chunk, batched by (from, to) pair and by dropping node. *)
Definition pair_buckets (acts : Actions) (ch : list nat) : gmap (NodeId * NodeId) (list nat) :=
  foldl (λ m bk, foldl (λ m p, push_at p bk m) m (default ([], []) (acts !! bk)).1) ∅ ch.

Definition node_drops (acts : Actions) (ch : list nat) : gmap NodeId (list nat) :=
  foldl (λ m bk, foldl (λ m n, push_at n bk m) m (default ([], []) (acts !! bk)).2) ∅ ch.

(** Copy the buckets of one pair, collection by collection. *)
Definition copy_pair (cl : t) (copied : nat) (x : (NodeId * NodeId) * list nat) : M St nat :=
  let '((from, to), bs) := x in
  match client_of cl from, client_of cl to with
  | Some fc, Some tc =>
      forM (colls cl) copied (λ copied coll,
        r ← Client.export_entries fc coll bs;
        let entries := unwrap_or [] r in
        if decide (length entries = 0) then mret (copied + length entries)
        else _ ← Client.import_entries tc coll entries; mret (copied + length entries))
  | _, _ => mret copied
  end.

Definition drop_node (cl : t) (dropped : nat) (x : NodeId * list nat) : M St nat :=
  let '(node, bs) := x in
  match client_of cl node with
  | Some c =>
      forM (colls cl) dropped (λ dropped coll,
        r ← Client.drop_buckets c coll bs; mret (dropped + unwrap_or 0 r))
  | None => mret dropped
  end.

Definition cut_over (cl : t) (ch : list nat) : t :=
  match overlay cl with
  | Some o =>
      with_overlay cl (Some (mkOverlay (old_p o) (r_old o) (new_p o) (r_new o)
                               (list_to_set ch ∪ migrated o)))
  | None => cl
  end.

(** One turn of the chunk loop: copy, cut over, drop, checkpoint. *)
Definition migrate_chunk (cl : t) (m : migration) (ch : list nat) : M St (t * migration) :=
  copied ← forM (btree_iter pair_le (pair_buckets (m_actions m) ch)) (m_copied m) (copy_pair cl);
  let cl := cut_over cl ch in
  dropped ← forM (btree_iter str_le (node_drops (m_actions m) ch)) (m_dropped m) (drop_node cl);
  let done := list_to_set ch ∪ m_done m in
  let cl := save_record cl (m_old m) (m_new m) done in
  mret (cl, mkMig (m_old m) (m_new m) (m_actions m) (m_moved m) done copied dropped).

(** After the loop: clear the journal, commit, drop the overlay. *)
Definition end_migration (cl : t) (m : migration) : t :=
  with_overlay (commit_membership (with_journal cl (Journal.clear (journal cl))) (m_new m)) None.

Definition summary (buckets_total : nat) (m : migration) : MigrateSummary :=
  mkSummary buckets_total (m_moved m) (m_copied m) (m_dropped m).

(** The chunk loop; [stop_after] chunks it returns early, leaving the overlay
    and the journal ([false]: not finished). *)
Fixpoint chunk_loop (cl : t) (m : migration) (i : nat) (stop_after : option nat)
    (chs : list (list nat)) : M St (t * migration * bool) :=
  match chs with
  | [] => mret (cl, m, true)
  | ch :: chs' =>
      match stop_after with
      | Some mx =>
          if (mx <=? i)%nat then mret (cl, m, false)
          else '(cl, m) ← migrate_chunk cl m ch; chunk_loop cl m (S i) stop_after chs'
      | None => '(cl, m) ← migrate_chunk cl m ch; chunk_loop cl m (S i) stop_after chs'
      end
  end.

(** [old.len() == new.len() && old.iter().all(|n| new.contains(n))]. *)
Definition same_members (old nw : list NodeId) : bool :=
  (length old =? length nw)%nat && forallb (λ n, bool_decide (n ∈ nw)) old.

Definition run_migration (cl : t) (old nw : list NodeId) (done : gset nat)
    (stop_after : option nat) : M St (t * MigrateSummary) :=
  let buckets_total := bucket_count (partitioner cl) in
  if same_members old nw then
    mret (commit_membership (with_journal cl (Journal.clear (journal cl))) nw,
          mkSummary buckets_total 0 0 0)
  else
    let '(cl, m, chs) := begin_migration cl old nw done in
    '(cl, m, finished) ← chunk_loop cl m 0 stop_after chs;
    if finished : bool then mret (end_migration cl m, summary buckets_total m)
    else mret (cl, summary buckets_total m).

Definition rebalance (cl : t) (new_ids : list NodeId) : M St (t * MigrateSummary) :=
  run_migration cl (member_ids cl) new_ids ∅ None.

Definition drain (cl : t) (node : NodeId) : M St (t * MigrateSummary) :=
  rebalance cl (filter (.≠ node) (member_ids cl)).

Definition apply_membership (cl : t) (target : gmap NodeId Client.t) : M St (t * MigrateSummary) :=
  let cl := with_clients cl (clients cl ∪ target) in
  rebalance cl (hash_keys target).

Definition resume_migration (cl : t) : M St (t * option MigrateSummary) :=
  match Journal.load (journal cl) with
  | None => mret (cl, None)
  | Some rec =>
      let cl := with_target cl (Journal.replication rec `max` 1) in
      '(cl, s) ← run_migration cl (Journal.old_nodes rec) (Journal.new_nodes rec)
                   (list_to_set (Journal.done rec)) None;
      mret (cl, Some s)
  end.

Definition rebalance_partial (cl : t) (new_ids : list NodeId) (max_chunks : nat)
    : M St (t * MigrateSummary) :=
  run_migration cl (member_ids cl) new_ids ∅ (Some max_chunks).

End data_plane.

End cluster.

Lemma concat_chunks_fuel {A} fuel n (l : list A) :
  1 ≤ n → length l ≤ fuel → concat (chunks_fuel fuel n l) = l.
Proof.
  intros Hn. revert l. induction fuel as [|f IH]; intros [|x l] Hl; try done.
  { cbn in Hl. lia. }
  cbn [chunks_fuel concat]. rewrite IH by (rewrite length_drop; cbn in *; lia).
  apply take_drop.
Qed.

Lemma concat_chunks {A} n (l : list A) : 1 ≤ n → concat (chunks n l) = l.
Proof. intros Hn. by apply concat_chunks_fuel. Qed.

(** ** Grouping *)

Section grouping.
Context {K A : Type} `{Countable K}.
Implicit Types (m : gmap K (list A)).

(** The elements pushed at [k]. *)
Definition at_key m (k : K) : list A := default [] (m !! k).

Lemma at_key_empty k : at_key ∅ k = [].
Proof. unfold at_key. by rewrite lookup_empty. Qed.

Lemma at_key_push m k x k' :
  at_key (push_at k x m) k' = if decide (k = k') then at_key m k ++ [x] else at_key m k'.
Proof.
  unfold at_key, push_at. case_decide as Hk.
  - subst. by rewrite lookup_insert_eq.
  - by rewrite lookup_insert_ne.
Qed.

Lemma push_at_nonempty m k x :
  (∀ k l, m !! k = Some l → l ≠ []) → ∀ k' l, push_at k x m !! k' = Some l → l ≠ [].
Proof.
  intros Hm k' l. unfold push_at. destruct (decide (k = k')) as [->|Hk].
  - rewrite lookup_insert_eq. intros [= <-]. by destruct (default [] (m !! k')).
  - rewrite lookup_insert_ne by done. apply Hm.
Qed.

(** Pushing [x] at every key of a list. *)
Lemma at_key_push_all m ks x k y :
  y ∈ at_key (foldl (λ m p, push_at p x m) m ks) k ↔ y ∈ at_key m k ∨ (y = x ∧ k ∈ ks).
Proof.
  revert m. induction ks as [|k0 ks IH]; intros m; cbn [foldl]; [set_solver|].
  rewrite IH, at_key_push. case_decide as Hk; set_solver.
Qed.

Lemma at_key_group (f : A → list K) m xs k y :
  y ∈ at_key (foldl (λ m x, foldl (λ m p, push_at p x m) m (f x)) m xs) k
  ↔ y ∈ at_key m k ∨ (y ∈ xs ∧ k ∈ f y).
Proof.
  revert m. induction xs as [|x xs IH]; intros m; cbn [foldl]; [set_solver|].
  rewrite IH, at_key_push_all. set_solver.
Qed.

Lemma group_nonempty (f : A → list K) m xs :
  (∀ k l, m !! k = Some l → l ≠ []) →
  ∀ k l, foldl (λ m x, foldl (λ m p, push_at p x m) m (f x)) m xs !! k = Some l → l ≠ [].
Proof.
  revert m. induction xs as [|x xs IH]; intros m Hm; cbn [foldl]; [done|].
  apply IH. revert m Hm. induction (f x) as [|p ps IHp]; intros m Hm; cbn [foldl]; [done|].
  apply IHp. by apply push_at_nonempty.
Qed.

Lemma elem_of_btree_iter (R : K → K → Prop) `{!RelDecision R} (m : gmap K (list A)) k l :
  (k, l) ∈ btree_iter R m ↔ m !! k = Some l.
Proof. unfold btree_iter. by rewrite merge_sort_Permutation, elem_of_map_to_list. Qed.

(** Membership of an element in the group of a key, through the iteration. *)
Lemma btree_group (R : K → K → Prop) `{!RelDecision R} m k x :
  (∃ l, (k, l) ∈ btree_iter R m ∧ x ∈ l) ↔ x ∈ at_key m k.
Proof.
  setoid_rewrite elem_of_btree_iter. unfold at_key. split.
  - by intros (l & -> & Hx).
  - destruct (m !! k) as [l|]; [by exists l|]. intros Hx. by apply elem_of_nil in Hx.
Qed.

End grouping.

(** ** The actions of a migration *)

Section actions.
Context (dn : gset nat).

Definition copies_of (acts : Actions) (b : nat) : list (NodeId * NodeId) :=
  (default ([], []) (acts !! b)).1.
Definition drops_of (acts : Actions) (b : nat) : list NodeId := (default ([], []) (acts !! b)).2.

Lemma copies_of_insert acts b x b' :
  copies_of (<[b := x]> acts) b' = if decide (b = b') then x.1 else copies_of acts b'.
Proof.
  unfold copies_of. case_decide; [subst; by rewrite lookup_insert_eq|by rewrite lookup_insert_ne].
Qed.

Lemma drops_of_insert acts b x b' :
  drops_of (<[b := x]> acts) b' = if decide (b = b') then x.2 else drops_of acts b'.
Proof.
  unfold drops_of. case_decide; [subst; by rewrite lookup_insert_eq|by rewrite lookup_insert_ne].
Qed.

Lemma default_pair acts b : default ([], []) (acts !! b) = (copies_of acts b, drops_of acts b).
Proof. unfold copies_of, drops_of. by destruct (default _ _). Qed.

Lemma fold_copies acts cs b :
  (∀ f to, (f, to) ∈ copies_of (foldl (add_copy dn) acts cs) b
     ↔ (f, to) ∈ copies_of acts b ∨ (b ∉ dn ∧ Reshard.mkCopy b f to ∈ cs))
  ∧ drops_of (foldl (add_copy dn) acts cs) b = drops_of acts b
  ∧ (b ∈ dom (foldl (add_copy dn) acts cs)
     ↔ b ∈ dom acts ∨ (b ∉ dn ∧ ∃ c, c ∈ cs ∧ Reshard.c_bucket c = b)).
Proof.
  revert acts. induction cs as [|[b0 f0 t0] cs IH]; intros acts; cbn [foldl]; [set_solver|].
  destruct (IH (add_copy dn acts (Reshard.mkCopy b0 f0 t0))) as (IH1 & IH2 & IH3).
  setoid_rewrite IH1. rewrite IH2, IH3. unfold add_copy. cbn [Reshard.c_bucket].
  case_decide as Hd; [set_solver|]. rewrite default_pair. cbn [Reshard.c_from Reshard.c_to].
  rewrite copies_of_insert, drops_of_insert, dom_insert. cbn [fst snd].
  destruct (decide (b0 = b)) as [->|Hb]; set_solver.
Qed.

Lemma fold_drops acts ds b :
  (∀ n, n ∈ drops_of (foldl (add_drop dn) acts ds) b
     ↔ n ∈ drops_of acts b ∨ (b ∉ dn ∧ Reshard.mkDrop b n ∈ ds))
  ∧ copies_of (foldl (add_drop dn) acts ds) b = copies_of acts b
  ∧ (b ∈ dom (foldl (add_drop dn) acts ds)
     ↔ b ∈ dom acts ∨ (b ∉ dn ∧ ∃ d, d ∈ ds ∧ Reshard.d_bucket d = b)).
Proof.
  revert acts. induction ds as [|[b0 n0] ds IH]; intros acts; cbn [foldl]; [set_solver|].
  destruct (IH (add_drop dn acts (Reshard.mkDrop b0 n0))) as (IH1 & IH2 & IH3).
  setoid_rewrite IH1. rewrite IH2, IH3. unfold add_drop. cbn [Reshard.d_bucket].
  case_decide as Hd; [set_solver|]. rewrite default_pair. cbn [Reshard.d_node].
  rewrite copies_of_insert, drops_of_insert, dom_insert. cbn [fst snd].
  destruct (decide (b0 = b)) as [->|Hb]; set_solver.
Qed.

(** The actions hold exactly the copies and drops of the plan, for the buckets
    not migrated yet. *)
Lemma plan_actions_spec plan b :
  (∀ f to, (f, to) ∈ copies_of (plan_actions dn plan) b
     ↔ b ∉ dn ∧ Reshard.mkCopy b f to ∈ Reshard.copies plan)
  ∧ (∀ n, n ∈ drops_of (plan_actions dn plan) b
     ↔ b ∉ dn ∧ Reshard.mkDrop b n ∈ Reshard.drops plan)
  ∧ (b ∈ dom (plan_actions dn plan)
     ↔ b ∉ dn ∧ ((∃ c, c ∈ Reshard.copies plan ∧ Reshard.c_bucket c = b)
                  ∨ ∃ d, d ∈ Reshard.drops plan ∧ Reshard.d_bucket d = b)).
Proof.
  unfold plan_actions.
  destruct (fold_drops (foldl (add_copy dn) ∅ (Reshard.copies plan)) (Reshard.drops plan) b)
    as (H1 & H2 & H3).
  destruct (fold_copies ∅ (Reshard.copies plan) b) as (H4 & H5 & H6).
  assert (copies_of ∅ b = []) as He1 by (unfold copies_of; by rewrite lookup_empty).
  assert (drops_of ∅ b = []) as He2 by (unfold drops_of; by rewrite lookup_empty).
  split_and!.
  - intros f to. rewrite H2, H4, He1. set_solver.
  - intros n. rewrite H1, H5, He2. set_solver.
  - rewrite H3, H6, dom_empty. set_solver.
Qed.

End actions.

End Cluster.
