(* ===== verification/DataPlane.v ===== *)
(** * Correctness of the replicated data plane

    The cluster as an abstract store: as long as calls are delivered and no
    node is marked down, every operation of [Cluster] behaves like one update of
    a single map from (collection, key) to value, whatever the number of nodes,
    the replication factor and the state of a running migration. *)

From S2P Require Import Prelude Machine Text Partitioner Reshard Store Lease Shard Replica Client.
From S2P Require Import Journal Cluster.

Local Open Scope Z_scope.

Module DataPlane.
Import Partitioner Cluster.

Section data_plane.
Context {V St : Type} `{!IndexStore V St, !IndexStoreLaws V St, !JsonValue V, !LeaseCodec V}.
Context `{!HashIter, !Env, !Reliable}.
Implicit Types (cl : Cluster.t) (w : world St) (spec : view V).

(** ** Views of the nodes *)

Definition views : Type := NodeId → view V.

Definition fupd (vs : views) (n : NodeId) (m : view V) : views := λ n',
  if decide (n = n') then m else vs n'.

(** Every node the coordinator has a client for shows its view. *)
Definition nodes_show cl (vs : views) w : Prop :=
  ∀ n c, clients cl !! n = Some c →
    ∃ sh, shards w !! Client.shard_ref c = Some sh ∧ shows (colls cl) sh (vs n).

(** Distinct nodes are distinct shards. *)
Definition refs_inj cl : Prop :=
  ∀ n n' c c', clients cl !! n = Some c → clients cl !! n' = Some c' →
    Client.shard_ref c = Client.shard_ref c' → n = n'.

Lemma nodes_show_ext cl vs vs' w :
  (∀ n c k, is_Some (clients cl !! n) → c ∈ colls cl → vs n c k = vs' n c k) →
  nodes_show cl vs w → nodes_show cl vs' w.
Proof.
  intros He Hs n c Hc. destruct (Hs n c Hc) as (sh & Hsh & Hshow). exists sh.
  split; [done|]. eapply shows_ext; [|done]. intros. apply He; [by eexists|done].
Qed.

(** One delivered call moves the view of its node. *)
Lemma call_spec {R} cl vs n c (op : Z → Shard.t St → Shard.t St * R) m (Q : R → Prop) :
  refs_inj cl → clients cl !! n = Some c →
  (∀ now sh, shows (colls cl) sh (vs n) →
     shows (colls cl) (op now sh).1 m ∧ Q (op now sh).2) →
  hoare (nodes_show cl vs) (Client.call c op)
    (λ r w', (∃ a, r = Ok a ∧ Q a) ∧ nodes_show cl (fupd vs n m) w').
Proof.
  intros Hinj Hc Hop w Hw. destruct (Hw n c Hc) as (sh & Hsh & Hshow).
  destruct (Hop (clock (tick w)) sh Hshow) as [Hm HQ]. unfold Client.call. rewrite Hsh.
  destruct (op (clock (tick w)) sh) as [sh' a]. rewrite reliable. cbn [fst snd] in *.
  split; [by exists a|]. intros n' c' Hc'. unfold fupd, Client.step_to. cbn [shards].
  case_decide as Hn.
  - subst n'. assert (c' = c) as -> by congruence. exists sh'. by rewrite lookup_insert_eq.
  - rewrite lookup_insert_ne by (intros Hr; by destruct Hn; eapply Hinj). by apply Hw.
Qed.

(** A read leaves every view as it was. *)
Lemma query_spec {R} cl vs n c (op : Z → Shard.t St → R) (Q : R → Prop) :
  refs_inj cl → clients cl !! n = Some c →
  (∀ now sh, shows (colls cl) sh (vs n) → Q (op now sh)) →
  hoare (nodes_show cl vs) (Client.query c op)
    (λ r w', (∃ a, r = Ok a ∧ Q a) ∧ nodes_show cl vs w').
Proof.
  intros Hinj Hc HQ. eapply hoare_conseq.
  - apply (call_spec cl vs n c _ (vs n) Q); [done..|]. intros now sh Hs. split; [done|].
    by apply HQ.
  - done.
  - intros r w' [Hr Hs]. split; [done|]. eapply nodes_show_ext; [|exact Hs].
    intros n' c' k' _ _. unfold fupd. case_decide; congruence.
Qed.

(** ** Well-formed clusters *)

Record cluster_ok cl : Prop := {
  ok_refs : refs_inj cl;
  ok_up : down cl = ∅;
  ok_client : ∀ k n, n ∈ owners cl k → is_Some (clients cl !! n);
  ok_NoDup : ∀ k, NoDup (owners cl k);
  ok_owner : ∀ k, owners cl k ≠ [];
}.

Lemma nobody_down cl n : cluster_ok cl → is_down cl n = false.
Proof. intros Hok. unfold is_down. rewrite (ok_up _ Hok). by apply bool_decide_eq_false. Qed.

Lemma live_owners_all cl k : cluster_ok cl → live_owners cl k = owners cl k.
Proof. intros Hok. apply filter_all. intros n _. by apply nobody_down. Qed.

(** The replicas agree: an owner holds the value of the abstract map, everybody
    else holds nothing. *)
Definition agree cl spec : views := λ n c k,
  if decide (n ∈ owners cl k) then spec c k else None.

Definition inv cl spec w : Prop := nodes_show cl (agree cl spec) w.

(** ** Writes *)

(** A write that changes one key on each node it reaches. *)
Definition on_key (c k : string) (h : option V → option V) (m : view V) : view V :=
  upd m c k (h (m c k)).

Lemma visit_spec {R} cl vs c k h (op : Client.t → M St R) (ns : list NodeId) :
  NoDup ns → (∀ n, n ∈ ns → is_Some (clients cl !! n)) →
  (∀ n cli vs, clients cl !! n = Some cli →
     hoare (nodes_show cl vs) (op cli) (λ _, nodes_show cl (fupd vs n (on_key c k h (vs n))))) →
  hoare (nodes_show cl vs)
    (forM ns tt (λ _ n, match client_of cl n with
                        | Some c => _ ← op c; mret tt
                        | None => mret tt
                        end))
    (λ _, nodes_show cl (λ n, if decide (n ∈ ns) then on_key c k h (vs n) else vs n)).
Proof.
  intros Hnd Hcl Hop.
  eapply hoare_conseq; [apply (hoare_forM ns tt _
    (λ pre _, nodes_show cl (λ n, if decide (n ∈ pre) then on_key c k h (vs n) else vs n)))|..].
  - intros pre n post [] ->. destruct (Hcl n) as [cli Hcli]; [set_solver|].
    unfold client_of. rewrite Hcli.
    eapply hoare_bind; [by eapply Hop|]. intros r. apply hoare_ret. intros w.
    apply nodes_show_ext. intros n' c' k' _ _. unfold fupd.
    apply NoDup_app in Hnd as (_ & Hpre & _).
    destruct (decide (n = n')) as [->|Hn].
    + rewrite (decide_False (P := n' ∈ pre)) by (intros Hin; apply (Hpre n'); [done|left]).
      by rewrite decide_True by set_solver.
    + destruct (decide (n' ∈ pre)); [by rewrite decide_True by set_solver|].
      by rewrite decide_False by set_solver.
  - intros w. apply nodes_show_ext. intros. by rewrite decide_False by apply not_elem_of_nil.
  - done.
Qed.

(** Writing the same function of the old value on every owner writes it to the
    abstract map. *)
Lemma agree_on_key cl spec c k h n c' k' :
  (if decide (n ∈ owners cl k) then on_key c k h (agree cl spec n) else agree cl spec n) c' k'
  = agree cl (on_key c k h spec) n c' k'.
Proof.
  unfold agree, on_key, upd. destruct (decide (n ∈ owners cl k)) as [Hn|Hn].
  - destruct (decide ((c, k) = (c', k'))) as [[= <- <-]|Hk]; [|done].
    by rewrite !decide_True.
  - destruct (decide ((c, k) = (c', k'))) as [[= <- <-]|Hk]; [|done].
    by rewrite !decide_False.
Qed.

Lemma broadcast_spec {R} cl spec c k h (op : Client.t → M St R) :
  cluster_ok cl →
  (∀ n cli vs, clients cl !! n = Some cli →
     hoare (nodes_show cl vs) (op cli) (λ _, nodes_show cl (fupd vs n (on_key c k h (vs n))))) →
  hoare (inv cl spec) (broadcast cl k op) (λ _, inv cl (on_key c k h spec)).
Proof.
  intros Hok Hop. pose proof (visit_spec cl (agree cl spec) c k h op (owners cl k)
    (ok_NoDup _ Hok k) (ok_client _ Hok k) Hop) as Hv.
  intros w Hw. specialize (Hv w Hw). unfold broadcast.
  erewrite forM_ext by (intros u n w'; by rewrite nobody_down).
  eapply nodes_show_ext; [|exact Hv]. intros n' c' k' _ _. apply agree_on_key.
Qed.

(** Updating the primary, then writing its value to the replicas, writes it to
    the abstract map. *)
Lemma replicas_agree cl spec c k r p rs n c' k' :
  cluster_ok cl → owners cl k = p :: rs →
  (if decide (n ∈ rs)
   then on_key c k (λ _, r) (fupd (agree cl spec) p (upd (agree cl spec p) c k r) n)
   else fupd (agree cl spec) p (upd (agree cl spec p) c k r) n) c' k'
  = agree cl (upd spec c k r) n c' k'.
Proof.
  intros Hok Ho. etrans; [|apply (agree_on_key cl spec c k (λ _, r))]. rewrite Ho.
  unfold fupd. destruct (decide (n ∈ rs)) as [Hn|Hn].
  - rewrite (decide_True (P := n ∈ p :: rs)) by set_solver.
    pose proof (ok_NoDup _ Hok k) as Hnd. rewrite Ho in Hnd. apply NoDup_cons in Hnd as [Hp _].
    by rewrite decide_False by (intros ->; done).
  - destruct (decide (p = n)) as [->|Hp].
    + by rewrite (decide_True (P := n ∈ n :: rs)) by set_solver.
    + by rewrite (decide_False (P := n ∈ p :: rs)) by set_solver.
Qed.

Lemma write_call {R} cl vs n cli (op : Z → Shard.t St → Shard.t St * R) c k h :
  refs_inj cl → clients cl !! n = Some cli →
  (∀ now sh m, shows (colls cl) sh m → shows (colls cl) (op now sh).1 (on_key c k h m)) →
  hoare (nodes_show cl vs) (Client.call cli op)
    (λ _, nodes_show cl (fupd vs n (on_key c k h (vs n)))).
Proof.
  intros Hinj Hcli Hop. eapply hoare_conseq.
  - apply (call_spec cl vs n cli op (on_key c k h (vs n)) (λ _, True)); [done..|].
    intros now sh Hs. split; [by apply Hop|done].
  - done.
  - by intros ?? [_ ?].
Qed.

Lemma replicate_spec cl vs c k v rs :
  refs_inj cl → c ∈ colls cl → entry_ok (V := V) (St := St) c k v → NoDup rs →
  (∀ n, n ∈ rs → is_Some (clients cl !! n)) →
  hoare (nodes_show cl vs) (replicate_to cl rs c k v)
    (λ _, nodes_show cl (λ n, if decide (n ∈ rs) then on_key c k (λ _, Some v) (vs n) else vs n)).
Proof.
  intros Hinj Hc Hk Hnd Hcl. apply visit_spec; [done..|]. intros n cli vs' Hcli.
  apply write_call; [done..|]. intros now sh m Hs. by apply shows_put.
Qed.

(** ** The operations and their specification *)

Inductive dop :=
  | DGet (c k : string)
  | DPut (c k : string) (v : V)
  | DDelete (c k : string)
  | DCas (c k : string) (expect : option V) (nw : V)
  | DIncr (c k : string) (d : Z)
  | DSetAdd (c k m : string)
  | DSetRemove (c k m : string).

Inductive dres :=
  | RUnit
  | RVal (o : option V)
  | RBool (b : bool)
  | RInt (o : option Z).

Definition run_dop cl (o : dop) : M St dres :=
  match o with
  | DGet c k => r ← get cl c k; mret (RVal r)
  | DPut c k v => _ ← put cl c k v; mret RUnit
  | DDelete c k => _ ← delete_ cl c k; mret RUnit
  | DCas c k e v => r ← cas cl c k e v; mret (RBool r)
  | DIncr c k d => r ← incr cl c k d; mret (RInt r)
  | DSetAdd c k m => _ ← set_add cl c k m; mret RUnit
  | DSetRemove c k m => _ ← set_remove cl c k m; mret RUnit
  end.

(** One atomic step on a single map. *)
Definition spec_dop spec (o : dop) : view V * dres :=
  match o with
  | DGet c k => (spec, RVal (spec c k))
  | DPut c k v => (upd spec c k (Some v), RUnit)
  | DDelete c k => (upd spec c k None, RUnit)
  | DCas c k e v => (upd spec c k (cell_cas e v (spec c k)).1, RBool (cell_cas e v (spec c k)).2)
  | DIncr c k d => (upd spec c k (cell_incr d (spec c k)).1, RInt (cell_incr d (spec c k)).2)
  | DSetAdd c k m => (upd spec c k (cell_set_add m (spec c k)), RUnit)
  | DSetRemove c k m => (upd spec c k (cell_set_remove m (spec c k)), RUnit)
  end.

Definition dop_key (o : dop) : string * string :=
  match o with
  | DGet c k | DPut c k _ | DDelete c k | DCas c k _ _ | DIncr c k _ | DSetAdd c k _
  | DSetRemove c k _ => (c, k)
  end.

(** The backend can hold what the operation may write. *)
Definition dop_fits (o : dop) : Prop :=
  match o with
  | DGet _ _ | DDelete _ _ => True
  | DPut c k v | DCas c k _ v => entry_ok (V := V) (St := St) c k v
  | DIncr c k _ => numbers_ok (V := V) (St := St) c k
  | DSetAdd c k _ | DSetRemove c k _ => lists_ok (V := V) (St := St) c k
  end.

(** The operation addresses a managed collection, with data the backend holds. *)
Definition dop_ok cl (o : dop) : Prop := (dop_key o).1 ∈ colls cl ∧ dop_fits o.

Section ops.
Context cl (Hok : cluster_ok cl).

Lemma get_spec spec c k :
  c ∈ colls cl → hoare (inv cl spec) (get cl c k) (λ r w', r = spec c k ∧ inv cl spec w').
Proof.
  intros Hc. unfold get. destruct (owners cl k) as [|n ns] eqn:Ho; [by destruct (ok_owner _ Hok k)|].
  assert (n ∈ owners cl k) as Hn by (rewrite Ho; left). cbn [get_from].
  rewrite nobody_down by done. destruct (ok_client _ Hok k n Hn) as [cli Hcli].
  unfold client_of. rewrite Hcli. eapply hoare_bind.
  - apply (query_spec cl _ n cli _ (λ r, r = spec c k)); [apply Hok|done|].
    intros now sh Hs. rewrite (shows_object _ _ _ now c k Hs Hc). unfold agree.
    by rewrite decide_True.
  - intros r. intros w [(a & -> & ->) Hinv]. by split.
Qed.

Lemma put_spec spec c k v :
  c ∈ colls cl → entry_ok (V := V) (St := St) c k v →
  hoare (inv cl spec) (put cl c k v) (λ _, inv cl (upd spec c k (Some v))).
Proof.
  intros Hc Hk. apply (broadcast_spec cl spec c k (λ _, Some v)); [done|]. intros n cli vs Hcli.
  apply write_call; [apply Hok|done|]. intros now sh m0 Hs. by apply shows_put.
Qed.

Lemma delete_spec spec c k :
  c ∈ colls cl → hoare (inv cl spec) (delete_ cl c k) (λ _, inv cl (upd spec c k None)).
Proof.
  intros Hc. apply (broadcast_spec cl spec c k (λ _, None)); [done|]. intros n cli vs Hcli.
  apply write_call; [apply Hok|done|]. intros now sh m0 Hs. by apply shows_delete.
Qed.

Lemma set_add_spec spec c k m :
  c ∈ colls cl → lists_ok (V := V) (St := St) c k →
  hoare (inv cl spec) (set_add cl c k m) (λ _, inv cl (upd spec c k (cell_set_add m (spec c k)))).
Proof.
  intros Hc Hk. apply (broadcast_spec cl spec c k (cell_set_add m)); [done|]. intros n cli vs Hcli.
  apply write_call; [apply Hok|done|]. intros now sh m0 Hs. by apply shows_set_add.
Qed.

Lemma set_remove_spec spec c k m :
  c ∈ colls cl → lists_ok (V := V) (St := St) c k →
  hoare (inv cl spec) (set_remove cl c k m)
    (λ _, inv cl (upd spec c k (cell_set_remove m (spec c k)))).
Proof.
  intros Hc Hk. apply (broadcast_spec cl spec c k (cell_set_remove m)); [done|].
  intros n cli vs Hcli.
  apply write_call; [apply Hok|done|]. intros now sh m0 Hs. by apply shows_set_remove.
Qed.

(** The primary decides, then its value is written to the replicas. *)
Lemma primary_first {R} spec c k r p rs pc (op : Z → Shard.t St → Shard.t St * R) (Q : R → Prop) :
  c ∈ colls cl → owners cl k = p :: rs → clients cl !! p = Some pc →
  (∀ now sh m, shows (colls cl) sh m → m c k = spec c k →
     shows (colls cl) (op now sh).1 (upd m c k r) ∧ Q (op now sh).2) →
  hoare (inv cl spec) (Client.call pc op) (λ a w', (∃ x, a = Ok x ∧ Q x) ∧
    nodes_show cl (fupd (agree cl spec) p (upd (agree cl spec p) c k r)) w').
Proof.
  intros Hc Ho Hpc Hop. apply (call_spec cl _ p pc op); [apply Hok|done|].
  intros now sh Hs. apply Hop; [done|]. unfold agree. rewrite decide_True; [done|].
  rewrite Ho. left.
Qed.

Lemma replicas_ok k p rs :
  owners cl k = p :: rs → NoDup rs ∧ ∀ n, n ∈ rs → is_Some (clients cl !! n).
Proof.
  intros Ho. pose proof (ok_NoDup _ Hok k) as Hnd. rewrite Ho in Hnd.
  apply NoDup_cons in Hnd as [_ Hnd]. split; [done|]. intros n Hn.
  apply (ok_client _ Hok k). rewrite Ho. by right.
Qed.

(** With a value [v] decided by the primary, the replicas follow. *)
Lemma replicas_follow {A} spec c k v p rs (a : A) :
  c ∈ colls cl → entry_ok (V := V) (St := St) c k v → owners cl k = p :: rs →
  hoare (nodes_show cl (fupd (agree cl spec) p (upd (agree cl spec p) c k (Some v))))
    (_ ← replicate_to cl rs c k v; mret a) (λ r w', r = a ∧ inv cl (upd spec c k (Some v)) w').
Proof.
  intros Hc Hk Ho. destruct (replicas_ok k p rs Ho) as [Hnd Hcl]. eapply hoare_bind.
  - by apply replicate_spec; [apply Hok|..].
  - intros []. apply hoare_ret. intros w Hw. split; [done|].
    eapply nodes_show_ext; [|exact Hw]. intros. by apply replicas_agree.
Qed.

(** When the primary refuses, nothing changed. *)
Lemma primary_refuses spec c k p w :
  nodes_show cl (fupd (agree cl spec) p (upd (agree cl spec p) c k (spec c k))) w →
  p ∈ owners cl k → inv cl (upd spec c k (spec c k)) w.
Proof.
  intros Hw Hp. eapply nodes_show_ext; [|exact Hw]. intros n c' k' _ _.
  unfold fupd, agree, upd. destruct (decide (p = n)) as [->|];
    destruct (decide ((c, k) = (c', k'))) as [[= <- <-]|]; try done.
  by rewrite decide_True.
Qed.

Lemma primary_of k : ∃ p rs pc, owners cl k = p :: rs ∧ clients cl !! p = Some pc.
Proof.
  destruct (owners cl k) as [|p rs] eqn:Ho; [by destruct (ok_owner _ Hok k)|].
  destruct (ok_client _ Hok k p) as [pc Hpc]; [rewrite Ho; left|]. by exists p, rs, pc.
Qed.

Lemma cas_refines spec c k e v :
  c ∈ colls cl → entry_ok (V := V) (St := St) c k v →
  hoare (inv cl spec) (cas cl c k e v)
    (λ r w', r = (cell_cas e v (spec c k)).2 ∧ inv cl (upd spec c k (cell_cas e v (spec c k)).1) w').
Proof.
  intros Hc Hk. destruct (primary_of k) as (p & rs & pc & Ho & Hpc). unfold cas.
  rewrite live_owners_all, Ho by done. unfold client_of. rewrite Hpc. eapply hoare_bind.
  - apply (primary_first spec c k (cell_cas e v (spec c k)).1 p rs pc _
             (λ b, b = (cell_cas e v (spec c k)).2)); [done..|].
    intros now sh m Hs Hm. rewrite <-Hm. by apply shows_cas.
  - intros r w [(x & -> & ->) Hw]. cbn [unwrap_or]. unfold cell_cas in *.
    destruct (option_value_eqb (spec c k) e); cbn [fst snd] in *.
    + by apply (replicas_follow spec c k v p rs true).
    + split; [done|]. eapply primary_refuses; [exact Hw|]. rewrite Ho. left.
Qed.

Lemma incr_spec spec c k d :
  c ∈ colls cl → numbers_ok (V := V) (St := St) c k →
  hoare (inv cl spec) (incr cl c k d)
    (λ r w', r = (cell_incr d (spec c k)).2 ∧ inv cl (upd spec c k (cell_incr d (spec c k)).1) w').
Proof.
  intros Hc Hk. destruct (primary_of k) as (p & rs & pc & Ho & Hpc). unfold incr.
  rewrite live_owners_all, Ho by done. unfold client_of. rewrite Hpc. eapply hoare_bind.
  - apply (primary_first spec c k (cell_incr d (spec c k)).1 p rs pc _
             (λ b, b = (cell_incr d (spec c k)).2)); [done..|].
    intros now sh m Hs Hm. rewrite <-Hm. by apply shows_incr.
  - intros r w [(x & -> & ->) Hw]. cbn [ok mjoin option_join]. unfold cell_incr in *.
    destruct (cell_int (spec c k)) as [z|]; cbn [fst snd] in *.
    + apply (replicas_follow spec c k _ p rs (Some (i64_wrapping_add z d))); try done.
      apply Hk, i64_wrap_range.
    + split; [done|]. eapply primary_refuses; [exact Hw|]. rewrite Ho. left.
Qed.

Lemma dop_refines spec o :
  dop_ok cl o →
  hoare (inv cl spec) (run_dop cl o)
    (λ r w', r = (spec_dop spec o).2 ∧ inv cl (spec_dop spec o).1 w').
Proof.
  unfold dop_ok. destruct o as [c k|c k v|c k|c k e v|c k d|c k m|c k m]; intros [Hc Hk];
    cbn [dop_key dop_fits fst snd] in Hc, Hk; cbn [run_dop spec_dop fst snd].
  - eapply hoare_bind; [by apply get_spec|]. intros r w [-> ?]. done.
  - eapply hoare_bind; [by apply put_spec|]. intros r w ?. done.
  - eapply hoare_bind; [by apply delete_spec|]. intros r w ?. done.
  - eapply hoare_bind; [by apply cas_refines|]. intros r w [-> ?]. done.
  - eapply hoare_bind; [by apply incr_spec|]. intros r w [-> ?]. done.
  - eapply hoare_bind; [by apply set_add_spec|]. intros r w ?. done.
  - eapply hoare_bind; [by apply set_remove_spec|]. intros r w ?. done.
Qed.

End ops.

(** ** Sequences of operations *)

Fixpoint run_dops cl (os : list dop) : M St (list dres) :=
  match os with
  | [] => mret []
  | o :: os' => r ← run_dop cl o; rs ← run_dops cl os'; mret (r :: rs)
  end.

Fixpoint spec_dops spec (os : list dop) : view V * list dres :=
  match os with
  | [] => (spec, [])
  | o :: os' =>
      let '(s1, r) := spec_dop spec o in
      let '(s2, rs) := spec_dops s1 os' in (s2, r :: rs)
  end.

Lemma run_dops_spec cl spec os w :
  cluster_ok cl → (∀ o, o ∈ os → dop_ok cl o) → inv cl spec w →
  (run_dops cl os w).2 = (spec_dops spec os).2
  ∧ inv cl (spec_dops spec os).1 (run_dops cl os w).1.
Proof.
  intros Hok. revert spec w. induction os as [|o os IH]; intros spec w Hos Hw; [done|].
  cbn [run_dops spec_dops]. unfold mbind, M_bind.
  destruct (dop_refines cl Hok spec o (Hos o ltac:(left)) w Hw) as [Hr Hw1].
  destruct (run_dop cl o w) as [w1 r], (spec_dop spec o) as [s1 r']. cbn [fst snd] in *.
  destruct (IH s1 w1) as [Hrs Hw2]; [intros; apply Hos; by right|done|].
  destruct (run_dops cl os w1) as [w2 rs], (spec_dops s1 os) as [s2 rs']. cbn in *.
  by subst.
Qed.

Lemma spec_dops_app spec os1 os2 :
  spec_dops spec (os1 ++ os2)
  = ((spec_dops (spec_dops spec os1).1 os2).1,
     (spec_dops spec os1).2 ++ (spec_dops (spec_dops spec os1).1 os2).2).
Proof.
  revert spec. induction os1 as [|o os1 IH]; intros spec.
  { cbn. by destruct (spec_dops spec os2). }
  cbn [spec_dops app]. destruct (spec_dop spec o) as [s1 r]. rewrite IH.
  by destruct (spec_dops s1 os1).
Qed.

(** C4. The replicated cluster is one map, as long as every call to a shard is
    delivered, no node is marked down and every owner is known ([cluster_ok]): any
    sequence of reads, writes, deletes, compare-and-sets, increments and set
    operations on the managed collections, of values that do not expire and that
    fit the store, answers exactly as it would on a single map, and leaves every
    owner of every key with the value of that map and every other node with
    nothing. *)
Theorem data_plane_refines_map cl spec os w :
  cluster_ok cl → (∀ o, o ∈ os → dop_ok cl o) → inv cl spec w →
  (run_dops cl os w).2 = (spec_dops spec os).2
  ∧ inv cl (spec_dops spec os).1 (run_dops cl os w).1.
Proof. apply run_dops_spec. Qed.

End data_plane.

(** ** Reads with failures *)

Section failover.
Context {V St : Type} `{!IndexStore V St, !IndexStoreLaws V St, !JsonValue V, !LeaseCodec V}.
Context `{!HashIter, !Env}.
Implicit Types (cl : Cluster.t) (w : world St) (spec : view V).

(** Some of the [n] calls made from tick [tk] on is delivered. *)
Fixpoint delivers (tk n : nat) : bool :=
  match n with
  | O => false
  | S n' => match fault_at tk with Delivered => true | _ => delivers (S tk) n' end
  end.

(** A read call, whatever happens to it, leaves the shards as they are. *)
Lemma query_any {R} (c : Client.t) (op : Z → Shard.t St → R) w sh :
  shards w !! Client.shard_ref c = Some sh →
  (Client.query c op w).1 = mkWorld (shards w) (S (tick w))
  ∧ match fault_at (tick w) with
    | Delivered => (Client.query c op w).2 = Ok (op (clock (tick w)) sh)
    | _ => ∃ e, (Client.query c op w).2 = Err e
    end.
Proof.
  intros Hsh. unfold Client.query, Client.call. rewrite Hsh. unfold Client.step_to.
  rewrite insert_id by done. destruct (fault_at (tick w)); eauto.
Qed.

Lemma get_from_failover cl spec c k ns w :
  c ∈ colls cl →
  (∀ n, n ∈ ns → ∃ cli sh, clients cl !! n = Some cli
     ∧ shards w !! Client.shard_ref cli = Some sh
     ∧ ∀ now, Shard.object now sh c k = spec c k) →
  let live := filter (λ n, is_down cl n = false) ns in
  shards (get_from cl c k ns w).1 = shards w
  ∧ (get_from cl c k ns w).2 = if delivers (tick w) (length live) then spec c k else None.
Proof.
  intros Hc. revert w. induction ns as [|n ns IH]; intros w Hns live; [done|].
  assert (Hns' : ∀ n, n ∈ ns → ∃ cli sh, clients cl !! n = Some cli
     ∧ shards w !! Client.shard_ref cli = Some sh ∧ ∀ now, Shard.object now sh c k = spec c k)
    by (intros; apply Hns; by right).
  unfold live. rewrite filter_cons. cbn [get_from].
  destruct (is_down cl n); [rewrite decide_False by done; by apply IH|].
  rewrite decide_True by done.
  destruct (Hns n ltac:(left)) as (cli & sh & Hcli & Hsh & Hobj). unfold client_of. rewrite Hcli.
  unfold mbind, M_bind. pose proof (query_any cli (λ now s, Shard.object now s c k) w sh Hsh) as Hq.
  unfold Client.object. destruct (Client.query cli _ w) as [w1 r]. cbn [fst snd] in Hq.
  destruct Hq as [-> Hr]. cbn [length delivers].
  destruct (fault_at (tick w)).
  - rewrite Hr, Hobj. done.
  - destruct Hr as [e ->]. by destruct (IH (mkWorld (shards w) (S (tick w))) Hns').
  - destruct Hr as [e ->]. by destruct (IH (mkWorld (shards w) (S (tick w))) Hns').
Qed.

(** Failover: when the replicas agree, a read answers the stored value as
    soon as one call to one owner that is not marked down gets through, whatever
    the other calls do, and answers "absent" only when none does; a read never
    changes a shard. *)
Theorem get_failover cl spec c k w :
  c ∈ colls cl → (∀ n, n ∈ owners cl k → is_Some (clients cl !! n)) → inv cl spec w →
  shards (get cl c k w).1 = shards w
  ∧ (get cl c k w).2
    = if delivers (tick w) (length (live_owners cl k)) then spec c k else None.
Proof.
  intros Hc Hcl Hw. apply get_from_failover; [done|]. intros n Hn.
  destruct (Hcl n Hn) as [cli Hcli]. destruct (Hw n cli Hcli) as (sh & Hsh & Hs).
  exists cli, sh. split; [done|]. split; [done|]. intros now.
  rewrite (shows_object _ _ _ now c k Hs Hc). unfold agree. by rewrite decide_True.
Qed.

End failover.


End DataPlane.
