(* ===== verification/Concurrent.v ===== *)
(** * The cluster under concurrent use ([src/src/cluster.rs])

    The operations of [Cluster] again, as tasks: the same code at the grain at
    which the program interleaves.  A step is one access to the shared state
    (a lock held for one statement, an atomic, a gate) or one call to a shard;
    between two steps any other task may run.  The gate is [Guard]'s, a wait is a
    step that cannot be taken yet (that the waiters are woken is
    [Guard.no_lost_wakeup]).

    Neighbouring statements are one step where nobody can tell: the plan, the
    overlay and the first journal record, since only the migration reads the
    journal; the epoch and the members; the two scans of the clients that leave.

    A task that runs alone does what [Cluster] says ([op_alone], [mget_alone],
    [rebalance_alone]); what many of them do together is the subject of
    [Linear], [Online], [Linearizability] and [Races]. *)

From S2P Require Import Prelude Machine Text Partitioner Reshard Store Lease Shard Replica Client.
From S2P Require Import Journal Guard Proc Cluster DataPlane.

Module Concurrent.
Import Partitioner Proc.

Section concurrent.
Context {V St : Type} `{!IndexStore V St, !JsonValue V, !LeaseCodec V, !HashIter, !Env}.

(** What the tasks share: the fields of [Cluster], its gates, the lock
    [migrating], and the shards behind the clients. *)
Record shared := mkShared {
  cluster : Cluster.t;
  gates : Guard.GateState;
  locked : bool;
  shards : world St;
}.

Definition with_cluster (s : shared) (cl : Cluster.t) : shared :=
  mkShared cl (gates s) (locked s) (shards s).
Definition with_gates (s : shared) (g : Guard.GateState) : shared :=
  mkShared (cluster s) g (locked s) (shards s).
Definition with_lock (s : shared) (b : bool) : shared :=
  mkShared (cluster s) (gates s) b (shards s).
Definition with_shards (s : shared) (w : world St) : shared :=
  mkShared (cluster s) (gates s) (locked s) w.

Abbreviation task := (proc shared).

(** ** Steps *)

Definition peek {A} (f : Cluster.t → A) : task A := atomic (λ s, (s, f (cluster s))).
Definition change (f : Cluster.t → Cluster.t) : task unit :=
  atomic (λ s, (with_cluster s (f (cluster s)), tt)).
Definition call {A} (m : M St A) : task A :=
  atomic (λ s, let '(w, a) := m (shards s) in (with_shards s w, a)).

Definition enter (b : nat) : task unit :=
  Act (λ s, match Guard.try_enter (gates s) b with
            | Some g => Some (with_gates s g, Ret tt)
            | None => None
            end).
Definition leave (b : nat) : task unit := atomic (λ s, (with_gates s (Guard.leave (gates s) b), tt)).
Definition freeze (bs : list nat) : task unit :=
  atomic (λ s, (with_gates s (Guard.freeze (gates s) bs), tt)).
Definition drained (bs : list nat) : task unit :=
  Act (λ s, if Guard.drained (gates s) bs then Some (s, Ret tt) else None).
Definition unfreeze (bs : list nat) : task unit :=
  atomic (λ s, (with_gates s (Guard.unfreeze (gates s) bs), tt)).

Definition lock : task unit := Act (λ s, if locked s then None else Some (with_lock s true, Ret tt)).
Definition unlock : task unit := atomic (λ s, (with_lock s false, tt)).

(** [let _gate = self.gates.enter(bucket_of(key)).await; body]. *)
Definition gated {A} (key : string) (body : task A) : task A :=
  _ ← enter (bucket_of key); a ← body; _ ← leave (bucket_of key); mret a.

(** ** The data plane *)

Fixpoint get_from (coll key : string) (ns : list NodeId) : task (option V) :=
  match ns with
  | [] => mret None
  | n :: ns' =>
      d ← peek (λ cl, Cluster.is_down cl n);
      if d : bool then get_from coll key ns'
      else
        oc ← peek (λ cl, Cluster.client_of cl n);
        match oc with
        | None => get_from coll key ns'
        | Some c =>
            r ← call (Client.object c coll key);
            match r with
            | Ok o => mret o
            | Err _ => get_from coll key ns'
            end
        end
  end.

Definition get (coll key : string) : task (option V) :=
  gated key (ns ← peek (λ cl, Cluster.owners cl key); get_from coll key ns).

(** [op] on one node, if it has a client. *)
Definition visit {R} (op : Client.t → M St R) (n : NodeId) : task unit :=
  oc ← peek (λ cl, Cluster.client_of cl n);
  match oc with
  | Some c => _ ← call (op c); mret tt
  | None => mret tt
  end.

Definition broadcast {R} (key : string) (op : Client.t → M St R) : task unit :=
  gated key (
    ns ← peek (λ cl, Cluster.owners cl key);
    loop ns tt (λ _ n,
      d ← peek (λ cl, Cluster.is_down cl n);
      if d : bool then mret tt else visit op n)).

Definition put (coll key : string) (obj : V) : task unit :=
  broadcast key (λ c, Client.write_object c coll key obj).

Definition delete_ (coll key : string) : task unit :=
  broadcast key (λ c, Client.delete_object c coll key).

Definition set_add (coll key member : string) : task unit :=
  broadcast key (λ c, Client.set_add c coll key member).

Definition set_remove (coll key member : string) : task unit :=
  broadcast key (λ c, Client.set_remove c coll key member).

(** [self.owners(key).into_iter().filter(|n| !self.is_down(n)).collect()]. *)
Definition live_owners (key : string) : task (list NodeId) :=
  ns ← peek (λ cl, Cluster.owners cl key);
  loop ns [] (λ live n,
    d ← peek (λ cl, Cluster.is_down cl n);
    mret (if d : bool then live else live ++ [n])).

Definition replicate_to (replicas : list NodeId) (coll key : string) (obj : V) : task unit :=
  loop replicas tt (λ _ n, visit (λ c, Client.write_object c coll key obj) n).

Definition cas (coll key : string) (expect : option V) (nw : V) : task bool :=
  gated key (
    live ← live_owners key;
    match live with
    | [] => mret false
    | primary :: replicas =>
        opc ← peek (λ cl, Cluster.client_of cl primary);
        match opc with
        | None => mret false
        | Some pc =>
            r ← call (Client.cas pc coll key expect nw);
            if unwrap_or false r then _ ← replicate_to replicas coll key nw; mret true
            else mret false
        end
    end).

Definition incr (coll key : string) (delta : Z) : task (option Z) :=
  gated key (
    live ← live_owners key;
    match live with
    | [] => mret None
    | primary :: replicas =>
        opc ← peek (λ cl, Cluster.client_of cl primary);
        match opc with
        | None => mret None
        | Some pc =>
            r ← call (Client.incr pc coll key delta);
            match mjoin (ok r) with
            | None => mret None
            | Some nw =>
                _ ← replicate_to replicas coll key (value_from_i64 nw); mret (Some nw)
            end
        end
    end).

(** Not gated: the keys are grouped by the shard that serves them now, and read
    shard by shard later. *)
Definition mget (coll : string) (keys : list string) : task (list (option V)) :=
  by_node ← peek (λ cl, Cluster.group_keys cl keys);
  loop (hash_iter by_node) (replicate (length keys) None) (λ out '(node, idxs),
    oc ← peek (λ cl, Cluster.client_of cl node);
    match oc with
    | None => mret out
    | Some c =>
        let sub := omap (λ i, keys !! i) idxs in
        r ← call (Client.mget c coll sub);
        match r with
        | Ok vals => mret (Cluster.place out idxs vals)
        | Err _ => mret out
        end
    end).

Definition op_task (o : DataPlane.dop (V := V)) : task (DataPlane.dres (V := V)) :=
  match o with
  | DataPlane.DGet c k => r ← get c k; mret (DataPlane.RVal r)
  | DataPlane.DPut c k v => _ ← put c k v; mret DataPlane.RUnit
  | DataPlane.DDelete c k => _ ← delete_ c k; mret DataPlane.RUnit
  | DataPlane.DCas c k e v => r ← cas c k e v; mret (DataPlane.RBool r)
  | DataPlane.DIncr c k d => r ← incr c k d; mret (DataPlane.RInt r)
  | DataPlane.DSetAdd c k m => _ ← set_add c k m; mret DataPlane.RUnit
  | DataPlane.DSetRemove c k m => _ ← set_remove c k m; mret DataPlane.RUnit
  end.

(** ** The control plane *)

Definition copy_pair (cols : list string) (copied : nat) (x : (NodeId * NodeId) * list nat)
    : task nat :=
  let '((from, to), bs) := x in
  ofc ← peek (λ cl, Cluster.client_of cl from);
  otc ← peek (λ cl, Cluster.client_of cl to);
  match ofc, otc with
  | Some fc, Some tc =>
      loop cols copied (λ copied coll,
        r ← call (Client.export_entries fc coll bs);
        let entries := unwrap_or [] r in
        if decide (length entries = 0) then mret (copied + length entries)
        else _ ← call (Client.import_entries tc coll entries); mret (copied + length entries))
  | _, _ => mret copied
  end.

Definition drop_node (cols : list string) (dropped : nat) (x : NodeId * list nat) : task nat :=
  let '(node, bs) := x in
  oc ← peek (λ cl, Cluster.client_of cl node);
  match oc with
  | Some c =>
      loop cols dropped (λ dropped coll,
        r ← call (Client.drop_buckets c coll bs); mret (dropped + unwrap_or 0 r))
  | None => mret dropped
  end.

(** One turn of the chunk loop. *)
Definition migrate_chunk (cols : list string) (m : Cluster.migration) (ch : list nat)
    : task Cluster.migration :=
  _ ← freeze ch;
  _ ← drained ch;
  copied ← loop (Cluster.btree_iter Cluster.pair_le (Cluster.pair_buckets (Cluster.m_actions m) ch))
             (Cluster.m_copied m) (copy_pair cols);
  _ ← change (λ cl, Cluster.cut_over cl ch);
  dropped ← loop (Cluster.btree_iter Cluster.str_le (Cluster.node_drops (Cluster.m_actions m) ch))
              (Cluster.m_dropped m) (drop_node cols);
  _ ← unfreeze ch;
  let done := list_to_set ch ∪ Cluster.m_done m in
  _ ← change (λ cl, Cluster.save_record cl (Cluster.m_old m) (Cluster.m_new m) done);
  mret (Cluster.mkMig (Cluster.m_old m) (Cluster.m_new m) (Cluster.m_actions m)
          (Cluster.m_moved m) done copied dropped).

(** Plan, overlay, first checkpoint. *)
Definition begin_migration (old nw : list NodeId) (done : gset nat)
    : task (Cluster.migration * list (list nat)) :=
  atomic (λ s, let '(cl, m, chs) := Cluster.begin_migration (cluster s) old nw done in
               (with_cluster s cl, (m, chs))).

(** [commit_membership], in its order: the epoch and the members, the replication
    factor, the clients. *)
Definition with_members (cl : Cluster.t) (nw : list NodeId) : Cluster.t :=
  Cluster.mk (set_nodes (Cluster.partitioner cl) nw) (Cluster.clients cl)
    (Cluster.replication_target cl) (Cluster.replication cl) (Cluster.chunk cl) (Cluster.down cl)
    (Cluster.journal cl) (Cluster.overlay cl) (Cluster.colls cl) (Cluster.topology cl)
    (u64_add (Cluster.epoch cl) 1).

Definition with_factor (cl : Cluster.t) (r : nat) : Cluster.t :=
  Cluster.mk (Cluster.partitioner cl) (Cluster.clients cl) (Cluster.replication_target cl) r
    (Cluster.chunk cl) (Cluster.down cl) (Cluster.journal cl) (Cluster.overlay cl)
    (Cluster.colls cl) (Cluster.topology cl) (Cluster.epoch cl).

Definition without_departed (cl : Cluster.t) (nw : list NodeId) : Cluster.t :=
  Cluster.mk (Cluster.partitioner cl) (filter (λ '(i, _), i ∈ nw) (Cluster.clients cl))
    (Cluster.replication_target cl) (Cluster.replication cl) (Cluster.chunk cl)
    (filter (λ n, ¬ (n ∈ dom (Cluster.clients cl) ∧ n ∉ nw)) (Cluster.down cl))
    (Cluster.journal cl) (Cluster.overlay cl) (Cluster.colls cl) (Cluster.topology cl)
    (Cluster.epoch cl).

Definition commit_membership (nw : list NodeId) : task unit :=
  _ ← change (λ cl, with_members cl nw);
  _ ← change (λ cl, with_factor cl (Cluster.clamp (Cluster.replication_target cl) (length nw)));
  change (λ cl, without_departed cl nw).

Definition clear_journal : task unit :=
  change (λ cl, Cluster.with_journal cl (Journal.clear (Cluster.journal cl))).

(** The whole of [run_migration], without an early stop. *)
Definition run_migration (old nw : list NodeId) (done : gset nat) : task Cluster.MigrateSummary :=
  _ ← lock;
  total ← peek (λ cl, bucket_count (Cluster.partitioner cl));
  if Cluster.same_members old nw then
    _ ← clear_journal;
    _ ← commit_membership nw;
    _ ← unlock;
    mret (Cluster.mkSummary total 0 0 0)
  else
    cols ← peek Cluster.colls;
    '(m, chs) ← begin_migration old nw done;
    m ← loop chs m (migrate_chunk cols);
    _ ← clear_journal;
    _ ← commit_membership (Cluster.m_new m);
    _ ← change (λ cl, Cluster.with_overlay cl None);
    _ ← unlock;
    mret (Cluster.summary total m).

(** The members are read before the lock is taken. *)
Definition rebalance (new_ids : list NodeId) : task Cluster.MigrateSummary :=
  old ← peek Cluster.member_ids;
  run_migration old new_ids ∅.

Definition drain (node : NodeId) : task Cluster.MigrateSummary :=
  ids ← peek Cluster.member_ids;
  rebalance (filter (.≠ node) ids).

(** The new clients first: a shard that is known keeps the client it has. *)
Definition apply_membership (tgt : gmap NodeId Client.t) : task Cluster.MigrateSummary :=
  _ ← change (λ cl, Cluster.with_clients cl (Cluster.clients cl ∪ tgt));
  rebalance (Cluster.hash_keys tgt).

(** What an administrator may ask for. *)
Inductive admin :=
  | Rebalance (nw : list NodeId)
  | Drain (node : NodeId)
  | ApplyMembership (tgt : gmap NodeId Client.t).

Definition admin_task (a : admin) : task Cluster.MigrateSummary :=
  match a with
  | Rebalance nw => rebalance nw
  | Drain node => drain node
  | ApplyMembership tgt => apply_membership tgt
  end.

Definition run_admin (cl : Cluster.t) (a : admin) : M St (Cluster.t * Cluster.MigrateSummary) :=
  match a with
  | Rebalance nw => Cluster.rebalance (V := V) cl nw
  | Drain node => Cluster.drain (V := V) cl node
  | ApplyMembership tgt => Cluster.apply_membership (V := V) cl tgt
  end.

(** ** A task alone *)

(** A task that only calls shards, running on a cluster [cl] with nobody else,
    does what [m] does. *)
Definition does {A} (cl : Cluster.t) (p : task A) (m : M St A) : Prop :=
  ∀ s, cluster s = cl → alone p s = Some (with_shards s (m (shards s)).1, (m (shards s)).2).

Section alone.
Context (cl : Cluster.t).

Lemma with_shards_id s : with_shards s (shards s) = s.
Proof. by destruct s. Qed.

Lemma alone_peek {A B} (f : Cluster.t → A) (k : A → task B) s :
  alone (peek f ≫= k) s = alone (k (f (cluster s))) s.
Proof. by apply alone_then. Qed.

Lemma does_ret {A} (a : A) : does cl (mret a) (mret a).
Proof. intros s _. cbn. by rewrite with_shards_id. Qed.

Lemma does_bind {A B} (p : task A) (m : M St A) (k : A → task B) (f : A → M St B) :
  does cl p m → (∀ a, does cl (k a) (f a)) → does cl (p ≫= k) (m ≫= f).
Proof.
  intros Hp Hk s Hs. rewrite (alone_then _ _ _ _ _ (Hp s Hs)). unfold mbind, M_bind.
  destruct (m (shards s)) as [w a]. cbn [fst snd]. by rewrite (Hk a).
Qed.

Lemma does_peek {A B} (f : Cluster.t → A) (k : A → task B) m :
  does cl (k (f cl)) m → does cl (peek f ≫= k) m.
Proof. intros Hk s Hs. rewrite (alone_peek f _ s), Hs. by apply Hk. Qed.

Lemma does_call {A} (m : M St A) : does cl (call m) m.
Proof. intros s _. unfold call. rewrite alone_atomic. by destruct (m (shards s)). Qed.

Lemma does_loop {A R} (xs : list A) (r : R) body (b : R → A → M St R) :
  (∀ r x, does cl (body r x) (b r x)) → does cl (loop xs r body) (forM xs r b).
Proof.
  intros Hb. revert r. induction xs as [|x xs IH]; intros r; [apply does_ret|].
  cbn [loop forM]. apply does_bind; [apply Hb|apply IH].
Qed.

Lemma does_visit {R} (op : Client.t → M St R) n :
  does cl (visit op n) (match Cluster.client_of cl n with
                        | Some c => _ ← op c; mret tt
                        | None => mret tt
                        end).
Proof.
  apply does_peek. destruct (Cluster.client_of cl n); [|apply does_ret].
  apply does_bind; [apply does_call|]. intros. apply does_ret.
Qed.

Lemma does_replicate rs c k v : does cl (replicate_to rs c k v) (Cluster.replicate_to cl rs c k v).
Proof. apply does_loop. intros [] n. apply does_visit. Qed.

(** Going through the gate and out again leaves no trace. *)
Lemma alone_gated {A} k (body : task A) m s :
  does cl body m → cluster s = cl → bucket_of k ∉ Guard.frozen (gates s) →
  Guard.in_flight (gates s) !! bucket_of k ≠ Some 0 →
  alone (gated k body) s = Some (with_shards s (m (shards s)).1, (m (shards s)).2).
Proof.
  intros Hb Hs Hf Hg. unfold gated. erewrite alone_then; cycle 1.
  { cbn [enter alone]. unfold Guard.try_enter. by rewrite decide_False. }
  cbv beta. erewrite alone_then; [|by apply Hb]. cbv beta. erewrite alone_then; [|reflexivity].
  cbn. f_equal. f_equal. unfold with_gates, with_shards. cbn. f_equal.
  unfold Guard.leave. cbn [Guard.in_flight Guard.frozen Guard.version].
  rewrite lookup_insert_eq. destruct (gates s) as [fr fl vr]. cbn in *.
  destruct (fl !! bucket_of k) as [n|] eqn:Hn; cbn.
  - rewrite Nat.sub_0_r. destruct n as [|n]; [done|].
    rewrite decide_False by done. by rewrite insert_insert_eq, insert_id.
  - by rewrite delete_insert_eq, delete_id.
Qed.

Lemma alone_live k :
  ∀ s, cluster s = cl → alone (live_owners k) s = Some (s, Cluster.live_owners cl k).
Proof.
  intros s Hs. unfold live_owners. rewrite alone_peek, Hs. unfold Cluster.live_owners.
  assert (∀ ns live, alone (loop ns live (λ live n, d ← peek (λ cl, Cluster.is_down cl n);
      mret (if d : bool then live else live ++ [n]))) s
    = Some (s, live ++ filter (λ n, Cluster.is_down cl n = false) ns)) as Hl.
  { induction ns as [|n ns IH]; intros live; [by rewrite app_nil_r|].
    cbn [loop]. erewrite alone_then by by rewrite alone_peek, Hs. rewrite IH, filter_cons.
    destruct (Cluster.is_down cl n); [done|]. by rewrite decide_True, <-app_assoc. }
  apply Hl.
Qed.

Lemma does_get_from c k ns : does cl (get_from c k ns) (Cluster.get_from cl c k ns).
Proof.
  induction ns as [|n ns IH]; [apply does_ret|]. cbn [get_from Cluster.get_from].
  apply does_peek. destruct (Cluster.is_down cl n); [done|].
  apply does_peek. destruct (Cluster.client_of cl n); [|done].
  apply does_bind; [apply does_call|]. intros [o|e]; [apply does_ret|done].
Qed.

Lemma does_owners {R} k (op : Client.t → M St R) :
  does cl (ns ← peek (λ cl, Cluster.owners cl k);
           loop ns tt (λ _ n,
             d ← peek (λ cl, Cluster.is_down cl n);
             if d : bool then mret tt else visit op n))
    (Cluster.broadcast cl k op).
Proof.
  apply does_peek. apply does_loop. intros [] n. apply does_peek.
  destruct (Cluster.is_down cl n); [apply does_ret|apply does_visit].
Qed.

Lemma does_live k {A} (f : list NodeId → task A) m :
  does cl (f (Cluster.live_owners cl k)) m → does cl (live_owners k ≫= f) m.
Proof.
  intros Hf s Hs. erewrite alone_then by by apply alone_live. by apply Hf.
Qed.

Lemma does_cas c k e v :
  ∃ body, cas c k e v = gated k body ∧ does cl body (Cluster.cas cl c k e v).
Proof.
  eexists. split; [done|]. apply does_live. unfold Cluster.cas.
  destruct (Cluster.live_owners cl k) as [|p rs]; [apply does_ret|].
  apply does_peek. destruct (Cluster.client_of cl p); [|apply does_ret].
  apply does_bind; [apply does_call|]. intros r. cbv zeta.
  destruct (unwrap_or false r); [|apply does_ret].
  apply does_bind; [apply does_replicate|]. intros. apply does_ret.
Qed.

Lemma does_incr c k d :
  ∃ body, incr c k d = gated k body ∧ does cl body (Cluster.incr cl c k d).
Proof.
  eexists. split; [done|]. apply does_live. unfold Cluster.incr.
  destruct (Cluster.live_owners cl k) as [|p rs]; [apply does_ret|].
  apply does_peek. destruct (Cluster.client_of cl p); [|apply does_ret].
  apply does_bind; [apply does_call|]. intros r. destruct (mjoin (ok r)); [|apply does_ret].
  apply does_bind; [apply does_replicate|]. intros. apply does_ret.
Qed.

(** Nothing is in flight on a bucket that is listed, and no bucket is frozen. *)
Definition open (g : Guard.GateState) : Prop :=
  ∀ b, b ∉ Guard.frozen g ∧ Guard.in_flight g !! b ≠ Some 0.

Lemma alone_map {A B} k (body : task A) m (f : A → B) s :
  does cl body m → cluster s = cl → open (gates s) →
  alone (a ← gated k body; mret (f a)) s
  = Some (with_shards s ((a ← m; mret (f a)) (shards s)).1, ((a ← m; mret (f a)) (shards s)).2).
Proof.
  intros Hb Hs Ho. destruct (Ho (bucket_of k)).
  erewrite alone_then by by apply alone_gated. cbn. unfold mbind, M_bind, mret, M_ret.
  by destruct (m (shards s)).
Qed.

(** An operation that runs alone does what [Cluster] does. *)
Theorem op_alone o s :
  cluster s = cl → open (gates s) →
  alone (op_task o) s
  = Some (with_shards s (DataPlane.run_dop cl o (shards s)).1, (DataPlane.run_dop cl o (shards s)).2).
Proof.
  intros Hs Ho. destruct o as [c k|c k v|c k|c k e v|c k d|c k m|c k m]; cbn [op_task DataPlane.run_dop].
  - apply alone_map; [|done..]. apply does_peek, does_get_from.
  - apply (alone_map k _ _ (λ _, DataPlane.RUnit)); [|done..]. apply does_owners.
  - apply (alone_map k _ _ (λ _, DataPlane.RUnit)); [|done..]. apply does_owners.
  - destruct (does_cas c k e v) as (body & -> & ?). by apply alone_map.
  - destruct (does_incr c k d) as (body & -> & ?). by apply alone_map.
  - apply (alone_map k _ _ (λ _, DataPlane.RUnit)); [|done..]. apply does_owners.
  - apply (alone_map k _ _ (λ _, DataPlane.RUnit)); [|done..]. apply does_owners.
Qed.

(** A batch read too. *)
Lemma mget_alone coll keys : does cl (mget coll keys) (Cluster.mget cl coll keys).
Proof.
  apply does_peek, does_loop. intros out [node idxs]. apply does_peek.
  destruct (Cluster.client_of cl node); [|apply does_ret].
  apply does_bind; [apply does_call|]. intros [vals|e]; apply does_ret.
Qed.

End alone.

(** *** A migration alone *)

Lemma does_copy_pair cl n x :
  does cl (copy_pair (Cluster.colls cl) n x) (Cluster.copy_pair cl n x).
Proof.
  destruct x as [[from to] bs]. do 2 apply does_peek.
  cbn [Cluster.copy_pair]. destruct (Cluster.client_of cl from), (Cluster.client_of cl to);
    try apply does_ret.
  apply does_loop. intros c coll. apply does_bind; [apply does_call|]. intros r. cbv zeta.
  case_decide; [apply does_ret|]. apply does_bind; [apply does_call|]. intros. apply does_ret.
Qed.

Lemma does_drop_node cl n x :
  does cl (drop_node (Cluster.colls cl) n x) (Cluster.drop_node cl n x).
Proof.
  destruct x as [node bs]. apply does_peek. cbn [Cluster.drop_node].
  destruct (Cluster.client_of cl node); [|apply does_ret].
  apply does_loop. intros c coll. apply does_bind; [apply does_call|]. intros. apply does_ret.
Qed.

(** Nobody in flight, nothing frozen. *)
Definition quiet_gates (g : Guard.GateState) : Prop := Guard.frozen g = ∅ ∧ Guard.in_flight g = ∅.

Lemma thawed g ch : quiet_gates g → Guard.unfreeze (Guard.freeze g ch) ch = g.
Proof.
  intros [Hf _]. destruct g as [fr fl v]. cbn in Hf. subst fr.
  assert (Guard.frozen (Guard.unfreeze (Guard.freeze (Guard.mk ∅ fl v) ch) ch) = ∅) as Hu.
  { apply set_eq. intros b. rewrite Guard.elem_of_unfreeze, Guard.elem_of_freeze. set_solver. }
  unfold Guard.unfreeze, Guard.freeze in *. cbn in *. by rewrite Hu.
Qed.

Lemma drained_quiet g bs ch : quiet_gates g → Guard.drained (Guard.freeze g bs) ch = true.
Proof. intros [_ Hq]. apply Guard.drained_spec. intros b _. cbn. by rewrite Hq. Qed.

Lemma alone_step {A B} (p : task A) (k : A → task B) s s' a r :
  alone p s = Some (s', a) → alone (k a) s' = r → alone (p ≫= k) s = r.
Proof. intros Hp <-. by apply alone_then. Qed.

(** The chunk loop. *)
Lemma alone_chunk g l cl m ch w :
  quiet_gates g →
  let '(w', (cl', m')) := Cluster.migrate_chunk cl m ch w in
  alone (migrate_chunk (Cluster.colls cl) m ch) (mkShared cl g l w) = Some (mkShared cl' g l w', m').
Proof.
  intros Hg. unfold Cluster.migrate_chunk, mbind, M_bind.
  destruct (forM _ (Cluster.m_copied m) _ w) as [w1 cp] eqn:H1.
  destruct (forM _ (Cluster.m_dropped m) _ w1) as [w2 dr] eqn:H2. cbn [mret M_ret].
  unfold migrate_chunk. eapply alone_step; [done|]. eapply alone_step.
  { cbn [drained alone gates with_gates]. by rewrite (drained_quiet _ _ _ Hg). }
  eapply alone_step.
  { by apply (does_loop cl _ _ _ (Cluster.copy_pair cl)); [intros; apply does_copy_pair|]. }
  cbn [shards with_gates]. rewrite H1. eapply alone_step; [done|].
  assert (Cluster.colls cl = Cluster.colls (Cluster.cut_over cl ch)) as Hc.
  { unfold Cluster.cut_over. by destruct (Cluster.overlay cl). }
  rewrite Hc. eapply alone_step.
  { by apply (does_loop (Cluster.cut_over cl ch) _ _ _ (Cluster.drop_node (Cluster.cut_over cl ch)));
      [intros; apply does_drop_node|]. }
  cbn [shards with_gates with_shards with_cluster fst snd]. rewrite H2. eapply alone_step; [done|].
  eapply alone_step; [done|]. cbn [alone mret proc_ret]. 
  unfold with_cluster, with_gates, with_shards.
  cbn [cluster gates locked shards fst snd]. by rewrite (thawed g ch Hg).
Qed.

Lemma colls_chunk cl m ch w :
  Cluster.colls (Cluster.migrate_chunk (V := V) cl m ch w).2.1 = Cluster.colls cl.
Proof.
  unfold Cluster.migrate_chunk, mbind, M_bind. destruct (forM _ _ _ w) as [w1 cp].
  destruct (forM _ _ _ w1) as [w2 dr]. cbn. unfold Cluster.cut_over. by destruct (Cluster.overlay cl).
Qed.

Lemma alone_loop g l chs cl m i w :
  quiet_gates g →
  let '(w', (cl', m', fin)) := Cluster.chunk_loop cl m i None chs w in
  fin = true ∧
  alone (loop chs m (migrate_chunk (Cluster.colls cl))) (mkShared cl g l w)
  = Some (mkShared cl' g l w', m').
Proof.
  intros Hg. revert cl m i w. induction chs as [|ch chs IH]; intros cl m i w; [done|].
  cbn [Cluster.chunk_loop loop]. pose proof (alone_chunk g l cl m ch w Hg) as Hc.
  pose proof (colls_chunk cl m ch w) as Hl. unfold mbind at 1, M_bind.
  destruct (Cluster.migrate_chunk cl m ch w) as [w1 [cl1 m1]]. cbn [fst snd] in Hl.
  specialize (IH cl1 m1 (S i) w1). rewrite Hl in IH.
  destruct (Cluster.chunk_loop cl1 m1 (S i) None chs w1) as [w2 [[cl2 m2] fin]].
  destruct IH as [? IH]. split; [done|]. by eapply alone_step.
Qed.

(** A rebalance that runs alone does what [Cluster] does. *)
Theorem rebalance_alone cl g nw w :
  quiet_gates g →
  let '(w', (cl', s)) := Cluster.rebalance cl nw w in
  alone (rebalance nw) (mkShared cl g false w) = Some (mkShared cl' g false w', s).
Proof.
  intros Hg. unfold Cluster.rebalance, Cluster.run_migration, rebalance.
  set (old := Cluster.member_ids cl). destruct (Cluster.same_members old nw) eqn:Hs.
  { cbn [mret M_ret]. eapply alone_step; [done|]. cbn [cluster]. fold old. do 2 (eapply alone_step; [done|]). rewrite Hs.
    do 3 (eapply alone_step; [done|]). done. }
  destruct (Cluster.begin_migration cl old nw ∅) as [[cl1 m] chs] eqn:Hb.
  assert (Cluster.colls cl = Cluster.colls cl1) as Hl.
  { unfold Cluster.begin_migration in Hb. by injection Hb as <- _ _. }
  pose proof (alone_loop g true chs cl1 m 0 w Hg) as Hloop. unfold mbind at 1, M_bind.
  destruct (Cluster.chunk_loop cl1 m 0 None chs w) as [w1 [[cl2 m2] fin]].
  destruct Hloop as [-> Hloop]. cbn [mret M_ret].
  eapply alone_step; [done|]. cbn [cluster]. fold old. do 2 (eapply alone_step; [done|]). rewrite Hs. eapply alone_step; [done|].
  eapply alone_step.
  { cbn [begin_migration alone atomic cluster with_lock]. by rewrite Hb. }
  cbv beta iota. eapply alone_step.
  { unfold with_cluster, with_lock. cbn [cluster gates locked shards]. by rewrite Hl. }
  do 4 (eapply alone_step; [done|]). done.
Qed.

Theorem admin_alone cl g a w :
  quiet_gates g →
  let '(w', (cl', s)) := run_admin cl a w in
  alone (admin_task a) (mkShared cl g false w) = Some (mkShared cl' g false w', s).
Proof.
  intros Hg. destruct a as [nw|node|tgt]; cbn [run_admin admin_task].
  - by apply rebalance_alone.
  - pose proof (rebalance_alone cl g (filter (.≠ node) (Cluster.member_ids cl)) w Hg) as Hr.
    unfold Cluster.drain. destruct (Cluster.rebalance cl _ w) as [w' [cl' s]].
    by eapply alone_step.
  - set (cl1 := Cluster.with_clients cl (Cluster.clients cl ∪ tgt)).
    pose proof (rebalance_alone cl1 g (Cluster.hash_keys tgt) w Hg) as Hr.
    unfold Cluster.apply_membership. fold cl1. destruct (Cluster.rebalance cl1 _ w) as [w' [cl' s]].
    by eapply alone_step.
Qed.

(** ** The system *)

(** Clients' operations in flight, by a number the client chose, and one task
    per administrative request. *)
Record config := mkConfig {
  state : shared;
  pool : gmap nat (DataPlane.dop (V := V) * task (DataPlane.dres (V := V)));
  control : gmap nat (task Cluster.MigrateSummary);
}.

(** What the clients and the administrators see. *)
Inductive event :=
  | Invoke (i : nat) (o : DataPlane.dop (V := V))
  | Respond (i : nat) (r : DataPlane.dres (V := V))
  | Ask (j : nat) (a : admin)
  | Done (j : nat) (s : Cluster.MigrateSummary).

(** Any task may take the next step. *)
Inductive step : config → option event → config → Prop :=
  | step_invoke s pl ct i o :
      pl !! i = None →
      step (mkConfig s pl ct) (Some (Invoke i o)) (mkConfig s (<[i := (o, op_task o)]> pl) ct)
  | step_respond s pl ct i o r :
      pl !! i = Some (o, Ret r) →
      step (mkConfig s pl ct) (Some (Respond i r)) (mkConfig s (delete i pl) ct)
  | step_op s s' pl ct i o p p' :
      pl !! i = Some (o, p) → next p s = Some (s', p') →
      step (mkConfig s pl ct) None (mkConfig s' (<[i := (o, p')]> pl) ct)
  | step_ask s pl ct j a :
      ct !! j = None →
      step (mkConfig s pl ct) (Some (Ask j a)) (mkConfig s pl (<[j := admin_task a]> ct))
  | step_done s pl ct j sm :
      ct !! j = Some (Ret sm) →
      step (mkConfig s pl ct) (Some (Done j sm)) (mkConfig s pl (delete j ct))
  | step_control s s' pl ct j p p' :
      ct !! j = Some p → next p s = Some (s', p') →
      step (mkConfig s pl ct) None (mkConfig s' pl (<[j := p']> ct)).

(** *** Requests that are given up

    When its client goes away the server drops the task of a request between two
    of its steps.  What the task holds by value is released, its place in the
    gate and the lock [migrating]; buckets it has frozen stay frozen. *)

(** [q] is what is left of [p] after at least one step. *)
Definition begun {A} (p q : task A) : Prop := tc (λ a b, sub b a) p q.

(** An operation that waits at the gate, one that has passed it, and an
    administrative request, here the only one. *)
Inductive cancel : config → config → Prop :=
  | cancel_waiting s pl ct i o :
      pl !! i = Some (o, op_task o) →
      cancel (mkConfig s pl ct) (mkConfig s (delete i pl) ct)
  | cancel_inside s pl ct i o f :
      pl !! i = Some (o, Act f) → begun (op_task o) (Act f) →
      cancel (mkConfig s pl ct)
        (mkConfig (with_gates s (Guard.leave (gates s) (bucket_of (DataPlane.dop_key o).2)))
           (delete i pl) ct)
  | cancel_control s pl j f :
      cancel (mkConfig s pl {[j := Act f]}) (mkConfig (with_lock s false) pl ∅).

End concurrent.

Arguments shared : clear implicits.
Arguments config _ _ : clear implicits.
Arguments event : clear implicits.

(** The visible trace of a run. *)
Inductive run {C E : Type} (R : C → option E → C → Prop) (c : C) : list E → C → Prop :=
  | run_nil : run R c [] c
  | run_silent tr c1 c2 : run R c tr c1 → R c1 None c2 → run R c tr c2
  | run_event tr c1 e c2 : run R c tr c1 → R c1 (Some e) c2 → run R c (tr ++ [e]) c2.

End Concurrent.
