(* ===== verification/Migration.v ===== *)
(** * Correctness of online rebalancing

    A migration moves buckets chunk by chunk while the data plane keeps
    running.  The invariant of the data plane (the owners of every key hold the
    value of the abstract map, everybody else holds nothing) is kept by every
    chunk, by the commit, and so by a whole rebalance, also when it is
    interrupted after some chunks and resumed from the journal. *)

From S2P Require Import Prelude Machine Text Partitioner Reshard Store Lease Shard Replica Client.
From S2P Require Import Journal Cluster DataPlane.

Module Migration.
Import Partitioner Cluster DataPlane.

Section migration.
Context {V St : Type} `{!IndexStore V St, !IndexStoreLaws V St, !JsonValue V, !LeaseCodec V}.
Context `{!HashIter, !Env, !Reliable}.
Implicit Types (cl : Cluster.t) (w : world St) (spec : view V).

(** ** One collection of one pair, one collection of one node *)

Lemma copy_coll cl vs from to fc tc c bs copied0 :
  refs_inj cl → clients cl !! from = Some fc → clients cl !! to = Some tc → c ∈ colls cl →
  hoare (nodes_show (V := V) cl vs)
    (r ← Client.export_entries (V := V) fc c bs;
     let entries := unwrap_or [] r in
     if decide (length entries = 0) then mret (copied0 + length entries)
     else _ ← Client.import_entries tc c entries; mret (copied0 + length entries))
    (λ _, nodes_show cl (fupd vs to (copied c bs (vs from) (vs to)))).
Proof.
  intros Hinj Hfc Htc Hc. eapply hoare_bind.
  { apply (query_spec cl vs from fc _ (λ es, ∃ now sh, shows (colls cl) sh (vs from)
      ∧ es = Shard.export_entries now sh c bs)); [done..|].
    intros now sh Hs. by exists now, sh. }
  intros r w [(es & -> & now & sh & Hsrc & ->) Hw]. cbn [unwrap_or].
  set (es := Shard.export_entries now sh c bs). case_decide as Hlen.
  - intros n cli Hcli. destruct (Hw n cli Hcli) as (sn & Hsn & Hshow). exists sn.
    split; [done|]. unfold fupd. case_decide as Hn; [subst n|done].
    pose proof (shows_copy (colls cl) sh sn _ _ now c bs Hsrc Hshow Hc) as Hcp.
    fold es in Hcp. by rewrite (nil_length_inv es Hlen) in Hcp.
  - pose proof (call_spec cl vs to tc (λ _ s, (Shard.import_entries s c es, tt))
      (copied c bs (vs from) (vs to)) (λ _, True) Hinj Htc) as Hcall.
    unfold mbind, M_bind, Client.import_entries, Client.command.
    destruct (Hcall (λ now' st Hs, conj (shows_copy _ _ _ _ _ now c bs Hsrc Hs Hc) I) w Hw)
      as [_ Hw']. by destruct (Client.call tc _ w).
Qed.

Lemma drop_coll cl vs node nc c bs dropped0 :
  refs_inj cl → clients cl !! node = Some nc → c ∈ colls cl →
  hoare (nodes_show (V := V) cl vs)
    (r ← Client.drop_buckets (V := V) nc c bs; mret (dropped0 + unwrap_or 0 r))
    (λ _, nodes_show cl (fupd vs node (dropped c bs (vs node)))).
Proof.
  intros Hinj Hnc Hc. eapply hoare_bind.
  - apply (call_spec cl vs node nc _ (dropped c bs (vs node)) (λ _, True)); [done..|].
    intros now sh Hs. split; [|done]. by apply shows_drop.
  - intros r. apply hoare_ret. by intros w [_ ?].
Qed.

(** ** The copy loop *)

(** Where the moves of the pairs in [xs] put key [k] of collection [c]. *)
Definition reaches (xs : list ((NodeId * NodeId) * list nat)) (n : NodeId) (k : string) : Prop :=
  Exists (λ x, x.1.2 = n ∧ bucket_of k ∈ x.2) xs.

#[local] Instance reaches_dec xs n k : Decision (reaches xs n k).
Proof. unfold reaches. apply _. Defined.

Definition copy_view cl spec xs : views := λ n c k,
  if decide (n ∈ owners cl k ∨ reaches xs n k) then spec c k else None.

(** The pairs only copy from owners, which have clients.  A target without a
    client is skipped by the copy: nothing the coordinator sees changes. *)
Definition pairs_ok cl (xs : list ((NodeId * NodeId) * list nat)) : Prop :=
  ∀ from to bs, ((from, to), bs) ∈ xs →
    is_Some (clients cl !! from) ∧ ∀ k, bucket_of k ∈ bs → from ∈ owners cl k.

Lemma skip_pair cl spec pre from to bs w :
  clients cl !! to = None → nodes_show cl (copy_view cl spec pre) w →
  nodes_show cl (copy_view cl spec (pre ++ [((from, to), bs)])) w.
Proof.
  intros Hto. apply nodes_show_ext. intros n c k [cli Hn] _. unfold copy_view, reaches.
  apply decide_ext. rewrite Exists_app, Exists_cons, Exists_nil. cbn. naive_solver.
Qed.

Lemma copy_pair_spec cl spec pre from to bs copied0 :
  refs_inj cl → pairs_ok cl [((from, to), bs)] →
  hoare (nodes_show cl (copy_view cl spec pre)) (copy_pair (V := V) cl copied0 ((from, to), bs))
    (λ _, nodes_show cl (copy_view cl spec (pre ++ [((from, to), bs)]))).
Proof.
  intros Hinj Hp. destruct (Hp from to bs) as ([fc Hfc] & Hown); [left|].
  unfold copy_pair, client_of. rewrite Hfc.
  destruct (clients cl !! to) as [tc|] eqn:Htc; [|apply hoare_ret; intros w; by apply skip_pair].
  set (mid := λ (pc : list string) n c k,
    if decide (n ∈ owners cl k ∨ reaches pre n k ∨ (to = n ∧ bucket_of k ∈ bs ∧ c ∈ pc))
    then spec c k else None : option V).
  eapply hoare_conseq; [apply (hoare_forM (colls cl) copied0 _ (λ pc _, nodes_show cl (mid pc)))|..].
  - intros pc c post cp Hcs. assert (c ∈ colls cl) as Hc by (rewrite Hcs; set_solver).
    eapply hoare_conseq; [by apply (copy_coll cl (mid pc) from to fc tc c bs cp)|done|].
    intros a w. apply nodes_show_ext. intros n c' k _ _. unfold fupd.
    destruct (decide (to = n)) as [<-|Hn]; unfold copied, Shard.moves, mid.
    + destruct (decide (bucket_of k ∈ bs)) as [Hb|Hb];
        [|rewrite decide_False by naive_solver; apply decide_ext; naive_solver].
      rewrite (decide_True (P := from ∈ _ ∨ _)) by (left; by apply Hown).
      destruct (decide (c' = c)) as [->|Hc'].
      * rewrite (decide_True (P := to ∈ owners cl k ∨ _ ∨ (_ ∧ _ ∧ c ∈ pc ++ [c]))) by set_solver.
        destruct (spec c k) as [v|].
        -- by rewrite decide_True by (split; [done|by eexists]).
        -- rewrite decide_False by (by intros [_ [? ?]]). by case_decide.
      * rewrite decide_False by naive_solver. apply decide_ext. set_solver.
    + apply decide_ext. naive_solver.
  - intros w. apply nodes_show_ext. intros n c k _ _. unfold copy_view, mid.
    apply decide_ext. set_solver.
  - intros a w. apply nodes_show_ext. intros n c k _ Hc. unfold copy_view, mid, reaches.
    apply decide_ext. rewrite Exists_app, Exists_cons, Exists_nil. cbn. naive_solver.
Qed.

Lemma copy_loop_spec cl spec xs copied0 :
  refs_inj cl → pairs_ok cl xs →
  hoare (inv cl spec) (forM xs copied0 (copy_pair (V := V) cl))
    (λ _, nodes_show cl (copy_view cl spec xs)).
Proof.
  intros Hinj Hp.
  eapply hoare_conseq; [apply (hoare_forM xs copied0 _ (λ pre _, nodes_show cl (copy_view cl spec pre)))|..].
  - intros pre [[from to] bs] post cp Hxs. apply copy_pair_spec; [done|].
    intros f t' bs' [= -> -> ->]%list_elem_of_singleton. apply (Hp from to bs). rewrite Hxs. set_solver.
  - intros w. apply nodes_show_ext. intros n c k _ _. unfold copy_view, agree.
    apply decide_ext. split; [tauto|]. by intros [?|?%Exists_nil].
  - done.
Qed.

(** ** The drop loop *)

Definition drops_at (xs : list (NodeId * list nat)) (n : NodeId) (k : string) : Prop :=
  Exists (λ x, x.1 = n ∧ bucket_of k ∈ x.2) xs.

#[local] Instance drops_at_dec xs n k : Decision (drops_at xs n k).
Proof. unfold drops_at. apply _. Defined.

Definition drop_view (vs : views) xs : views (V := V) := λ n c k,
  if decide (drops_at xs n k) then None else vs n c k.

Lemma drop_node_spec cl vs pre node bs dropped0 :
  refs_inj cl → is_Some (clients cl !! node) →
  hoare (nodes_show cl (drop_view vs pre)) (drop_node (V := V) cl dropped0 (node, bs))
    (λ _, nodes_show cl (drop_view vs (pre ++ [(node, bs)]))).
Proof.
  intros Hinj [nc Hnc]. unfold drop_node, client_of. rewrite Hnc.
  set (mid := λ (pc : list string) n c k,
    if decide (drops_at pre n k ∨ (node = n ∧ bucket_of k ∈ bs ∧ c ∈ pc))
    then None else vs n c k : option V).
  eapply hoare_conseq; [apply (hoare_forM (colls cl) dropped0 _ (λ pc _, nodes_show cl (mid pc)))|..].
  - intros pc c post cp Hcs. assert (c ∈ colls cl) as Hc by (rewrite Hcs; set_solver).
    eapply hoare_conseq; [by apply (drop_coll cl (mid pc) node nc c bs cp)|done|].
    intros a w. apply nodes_show_ext. intros n c' k _ _. unfold fupd.
    destruct (decide (node = n)) as [<-|Hn]; unfold dropped, Shard.moves, mid.
    + destruct (decide (c' = c ∧ bucket_of k ∈ bs)) as [[-> Hb]|Hb].
      * by rewrite decide_True by set_solver.
      * apply decide_ext. set_solver.
    + apply decide_ext. naive_solver.
  - intros w. apply nodes_show_ext. intros n c k _ _. unfold drop_view, mid.
    apply decide_ext. set_solver.
  - intros a w. apply nodes_show_ext. intros n c k _ Hc. unfold drop_view, mid, drops_at.
    apply decide_ext. rewrite Exists_app, Exists_cons, Exists_nil. cbn. naive_solver.
Qed.

Lemma drop_loop_spec cl vs xs dropped0 :
  refs_inj cl → (∀ n bs, (n, bs) ∈ xs → is_Some (clients cl !! n)) →
  hoare (nodes_show cl vs) (forM xs dropped0 (drop_node (V := V) cl))
    (λ _, nodes_show cl (drop_view vs xs)).
Proof.
  intros Hinj Hcl.
  eapply hoare_conseq; [apply (hoare_forM xs dropped0 _ (λ pre _, nodes_show cl (drop_view vs pre)))|..].
  - intros pre [n bs] post cp Hxs. apply drop_node_spec; [done|].
    apply (Hcl n bs). rewrite Hxs. set_solver.
  - intros w. apply nodes_show_ext. intros n c k _ _. unfold drop_view.
    rewrite decide_False; [done|]. by intros ?%Exists_nil.
  - done.
Qed.

(** The chunks still to do are disjoint from each other and from what is done. *)
Definition remaining (dn mg : gset nat) (chs : list (list nat)) : Prop :=
  NoDup (concat chs) ∧ ∀ b, b ∈ concat chs → b ∉ mg ∧ b ∉ dn.

Lemma remaining_cons dn mg ch chs :
  remaining dn mg (ch :: chs) →
  (∀ b, b ∈ ch → b ∉ mg ∧ b ∉ dn) ∧ remaining dn (list_to_set ch ∪ mg) chs.
Proof.
  intros [Hnd Hb]. cbn in Hnd, Hb. apply NoDup_app in Hnd as (_ & Hdis & Hnd).
  split; [intros; apply Hb; set_solver|]. split; [done|]. intros b Hin.
  destruct (Hb b) as [Hmg Hdn]; [set_solver|]. split; [|done].
  rewrite elem_of_union, elem_of_list_to_set. intros [Hc|]; [by apply (Hdis b)|done].
Qed.

(** ** A chunk *)

Section chunk.
Context (old nw : list NodeId) (rt : nat) (topo : gmap NodeId string).

(** The owners of a bucket before and after the migration. *)
Definition before (b : nat) : list NodeId := Reshard.bucket_owners old topo rt b.
Definition after (b : nat) : list NodeId := Reshard.bucket_owners nw topo rt b.

Definition mid_overlay (mg : gset nat) : Overlay :=
  mkOverlay (Reshard.planner old topo) (Reshard.effective rt (length old))
            (Reshard.planner nw topo) (Reshard.effective rt (length nw)) mg.

(** Every node of the new membership has a client. *)
Definition known cl : Prop := ∀ n, n ∈ nw → is_Some (clients cl !! n).

(** A cluster in the middle of the migration, [mg] being the buckets done. *)
Record mid cl (mg : gset nat) : Prop := {
  mid_ov : overlay cl = Some (mid_overlay mg);
  mid_topo : topology cl = topo;
  mid_target : replication_target cl = rt;
  mid_refs : refs_inj cl;
  mid_up : down cl = ∅;
  mid_clients : ∀ n, n ∈ old → is_Some (clients cl !! n);
  mid_wf : Partitioner.wf (partitioner cl);
  mid_ptopo : Partitioner.topology (partitioner cl) = topo;
  mid_chunk : 1 ≤ chunk cl;
}.

Hypothesis (Hold : old ≠ []) (Hnd_old : NoDup old) (Hnd_new : NoDup nw).

Lemma before_after_ok b :
  (NoDup (before b) ∧ before b ⊆ old) ∧ (NoDup (after b) ∧ after b ⊆ nw).
Proof.
  unfold before, after. rewrite !Reshard.bucket_owners_placement.
  split; (split; [by apply placement_NoDup|apply placement_subset]).
Qed.

Lemma bucket_owners_nonempty ns b :
  ns ≠ [] → NoDup ns → b < NUM_BUCKETS → Reshard.bucket_owners ns topo rt b ≠ [].
Proof.
  intros Hne Hnd Hb Hnil. destruct (Reshard.old_owners_nonempty ns topo rt b) as (s & Hs & _);
    [done..|]. unfold Reshard.old_owners in Hs. rewrite decide_False in Hs by done.
  by rewrite Hnil in Hs.
Qed.

Lemma owners_mid cl mg k :
  mid cl mg → owners cl k = if decide (bucket_of k ∈ mg) then after (bucket_of k)
                            else before (bucket_of k).
Proof. intros Hm. unfold owners. by rewrite (mid_ov _ _ Hm). Qed.

Lemma mid_cluster_ok cl mg : nw ≠ [] → known cl → mid cl mg → cluster_ok cl.
Proof.
  intros Hnew Hk Hm. split; [apply Hm|apply Hm|..].
  - intros k n. rewrite (owners_mid cl mg) by done. intros Hn.
    destruct (before_after_ok (bucket_of k)) as [[_ Hb] [_ Ha]].
    case_decide; [by apply Hk, Ha|by apply (mid_clients _ _ Hm), Hb].
  - intros k. rewrite (owners_mid cl mg) by done.
    destruct (before_after_ok (bucket_of k)) as [[? _] [? _]]. by case_decide.
  - intros k. rewrite (owners_mid cl mg) by done. pose proof (bucket_of_lt k).
    case_decide; by apply bucket_owners_nonempty.
Qed.

(** The actions of the plan, for the buckets not in [dn]. *)
Definition acts (dn : gset nat) : Actions :=
  plan_actions dn (Reshard.plan_reshard old nw rt topo).

Lemma elem_of_acts_copies dn b f to :
  (f, to) ∈ copies_of (acts dn) b
  ↔ b ∉ dn ∧ b < NUM_BUCKETS ∧ head (before b) = Some f ∧ to ∈ after b ∧ to ∉ before b.
Proof.
  destruct (plan_actions_spec dn (Reshard.plan_reshard old nw rt topo) b) as (-> & _ & _).
  rewrite Reshard.elem_of_copies. cbn [Reshard.c_bucket Reshard.c_from Reshard.c_to].
  unfold Reshard.old_owners, Reshard.new_owners, before, after. by rewrite decide_False.
Qed.

Lemma elem_of_acts_drops dn b n :
  n ∈ drops_of (acts dn) b ↔ b ∉ dn ∧ b < NUM_BUCKETS ∧ n ∈ before b ∧ n ∉ after b.
Proof.
  destruct (plan_actions_spec dn (Reshard.plan_reshard old nw rt topo) b) as (_ & -> & _).
  rewrite Reshard.elem_of_drops. cbn [Reshard.d_bucket Reshard.d_node].
  unfold Reshard.old_owners, Reshard.new_owners, before, after. by rewrite decide_False.
Qed.

Lemma elem_of_pairs dn ch f to b :
  (∃ bs, ((f, to), bs) ∈ btree_iter pair_le (pair_buckets (acts dn) ch) ∧ b ∈ bs)
  ↔ b ∈ ch ∧ (f, to) ∈ copies_of (acts dn) b.
Proof.
  rewrite (btree_group pair_le). unfold pair_buckets.
  rewrite (at_key_group (λ bk, copies_of (acts dn) bk)), at_key_empty. set_solver.
Qed.

Lemma elem_of_node_drops dn ch n b :
  (∃ bs, (n, bs) ∈ btree_iter str_le (node_drops (acts dn) ch) ∧ b ∈ bs)
  ↔ b ∈ ch ∧ n ∈ drops_of (acts dn) b.
Proof.
  rewrite (btree_group str_le). unfold node_drops.
  rewrite (at_key_group (λ bk, drops_of (acts dn) bk)), at_key_empty. set_solver.
Qed.

Lemma head_before b f : head (before b) = Some f → f ∈ before b.
Proof. intros Hh. by apply head_Some_elem_of. Qed.

Lemma chunk_pairs_ok cl mg dn ch :
  mid cl mg → (∀ b, b ∈ ch → b ∉ mg) →
  pairs_ok cl (btree_iter pair_le (pair_buckets (acts dn) ch)).
Proof.
  intros Hm Hch f to bs Hin.
  assert (Hmoves : ∀ b, b ∈ bs → b ∈ ch ∧ f ∈ before b ∧ to ∈ after b).
  { intros b Hb. destruct (proj1 (elem_of_pairs dn ch f to b)) as [? Hc]; [by exists bs|].
    apply elem_of_acts_copies in Hc as (_ & _ & Hh & ? & _). by apply head_before in Hh. }
  assert (bs ≠ []) as Hne.
  { apply elem_of_btree_iter in Hin.
    eapply (group_nonempty (λ bk, copies_of (acts dn) bk) ∅); [|exact Hin].
    intros k l. by rewrite lookup_empty. }
  destruct bs as [|b0 bs]; [done|].
  destruct (Hmoves b0 ltac:(left)) as (_ & Hf & _).
  destruct (before_after_ok b0) as [[_ Hbo] _].
  split; [by apply (mid_clients _ _ Hm), Hbo|].
  intros k Hk. destruct (Hmoves _ Hk) as (Hc & Hfk & _).
  rewrite (owners_mid cl mg) by done. by rewrite decide_False by (by apply Hch).
Qed.

(** Which nodes the copies of a chunk reach, and which drop. *)
Lemma reaches_chunk dn ch n k :
  (∀ b, b ∈ ch → b ∉ dn) →
  reaches (btree_iter pair_le (pair_buckets (acts dn) ch)) n k
  ↔ bucket_of k ∈ ch ∧ n ∈ after (bucket_of k) ∧ n ∉ before (bucket_of k).
Proof.
  intros Hch. pose proof (bucket_of_lt k) as Hb. set (b := bucket_of k) in *.
  unfold reaches. rewrite Exists_exists. split.
  - intros ([[f to] bs] & Hin & Hto & Hbs). cbn in Hto, Hbs. subst to.
    destruct (proj1 (elem_of_pairs dn ch f n b)) as [? Hc]; [by exists bs|].
    by apply elem_of_acts_copies in Hc as (_ & _ & _ & ? & ?).
  - intros (Hbch & Ha & Hnb). destruct (head (before b)) as [f|] eqn:Hh.
    + destruct (proj2 (elem_of_pairs dn ch f n b)) as (bs & Hin & Hbs).
      { split; [done|]. apply elem_of_acts_copies. split; [by apply Hch|done]. }
      by exists ((f, n), bs).
    + apply head_None in Hh. by apply bucket_owners_nonempty in Hh.
Qed.

Lemma drops_chunk dn ch n k :
  (∀ b, b ∈ ch → b ∉ dn) →
  drops_at (btree_iter str_le (node_drops (acts dn) ch)) n k
  ↔ bucket_of k ∈ ch ∧ n ∈ before (bucket_of k) ∧ n ∉ after (bucket_of k).
Proof.
  intros Hch. pose proof (bucket_of_lt k) as Hb. set (b := bucket_of k) in *.
  unfold drops_at. rewrite Exists_exists. split.
  - intros ([m bs] & Hin & Hm0 & Hbs). cbn in Hm0, Hbs. subst m.
    destruct (proj1 (elem_of_node_drops dn ch n b)) as [? Hc]; [by exists bs|].
    by apply elem_of_acts_drops in Hc as (_ & _ & ? & ?).
  - intros (Hbch & Ha & Hnb).
    destruct (proj2 (elem_of_node_drops dn ch n b)) as (bs & Hin & Hbs).
    { split; [done|]. apply elem_of_acts_drops. split; [by apply Hch|done]. }
    by exists (n, bs).
Qed.

(** Copying then dropping the buckets of a chunk turns the old owners of its
    keys into the new ones. *)
Lemma chunk_holders dn ch mg cl cl' n k :
  mid cl mg → mid cl' (list_to_set ch ∪ mg) → (∀ b, b ∈ ch → b ∉ mg ∧ b ∉ dn) →
  ((n ∈ owners cl k ∨ reaches (btree_iter pair_le (pair_buckets (acts dn) ch)) n k)
   ∧ ¬ drops_at (btree_iter str_le (node_drops (acts dn) ch)) n k)
  ↔ n ∈ owners cl' k.
Proof.
  intros Hm Hm' Hch. assert (Hdn : ∀ b, b ∈ ch → b ∉ dn) by (intros; by apply Hch).
  rewrite (reaches_chunk dn ch n k Hdn), (drops_chunk dn ch n k Hdn).
  rewrite (owners_mid cl mg), (owners_mid cl' (list_to_set ch ∪ mg)) by done.
  set (b := bucket_of k). destruct (decide (b ∈ ch)) as [Hb|Hb].
  - rewrite (decide_False (P := b ∈ mg)) by (by apply Hch).
    rewrite (decide_True (P := b ∈ list_to_set ch ∪ mg)) by set_solver.
    destruct (decide (n ∈ before b)), (decide (n ∈ after b)); tauto.
  - destruct (decide (b ∈ mg)).
    + rewrite (decide_True (P := b ∈ list_to_set ch ∪ mg)) by set_solver. tauto.
    + rewrite (decide_False (P := b ∈ list_to_set ch ∪ mg)) by set_solver. tauto.
Qed.

Lemma chunk_view dn ch mg cl cl' spec n c k :
  mid cl mg → mid cl' (list_to_set ch ∪ mg) → (∀ b, b ∈ ch → b ∉ mg ∧ b ∉ dn) →
  drop_view (copy_view cl spec (btree_iter pair_le (pair_buckets (acts dn) ch)))
    (btree_iter str_le (node_drops (acts dn) ch)) n c k
  = agree cl' spec n c k.
Proof.
  intros Hm Hm' Hch. pose proof (chunk_holders dn ch mg cl cl' n k Hm Hm' Hch) as Hh.
  unfold drop_view, copy_view, agree. repeat case_decide; tauto.
Qed.

Lemma nodes_show_clients cl cl' vs w :
  clients cl = clients cl' → colls cl = colls cl' →
  nodes_show (V := V) cl vs w → nodes_show cl' vs w.
Proof. intros Hc Hl Hs n c. rewrite <-Hc, <-Hl. apply Hs. Qed.

Lemma cut_over_mid cl mg ch : mid cl mg → mid (cut_over cl ch) (list_to_set ch ∪ mg).
Proof. intros [Ho ????????]. unfold cut_over. rewrite Ho. by split. Qed.

Lemma cut_over_same cl ch :
  clients (cut_over cl ch) = clients cl ∧ colls (cut_over cl ch) = colls cl
  ∧ chunk (cut_over cl ch) = chunk cl ∧ replication_target (cut_over cl ch) = replication_target cl.
Proof. unfold cut_over. by destruct (overlay cl). Qed.

(** One chunk keeps the data plane's invariant, and moves the routing of its
    buckets to the new owners. *)
Lemma migrate_chunk_spec cl mg m ch spec dn :
  mid cl mg → m_actions m = acts dn → (∀ b, b ∈ ch → b ∉ mg ∧ b ∉ dn) →
  hoare (inv cl spec) (migrate_chunk (V := V) cl m ch) (λ '(cl', m') w',
    mid cl' (list_to_set ch ∪ mg) ∧ inv cl' spec w'
    ∧ m_actions m' = m_actions m ∧ m_old m' = m_old m ∧ m_new m' = m_new m
    ∧ m_done m' = list_to_set ch ∪ m_done m
    ∧ clients cl' = clients cl ∧ colls cl' = colls cl
    ∧ journal cl' = Some (Journal.mkRecord (m_old m) (m_new m) rt
                            (elements (list_to_set ch ∪ m_done m)))).
Proof.
  intros Hm Hacts Hch. destruct (cut_over_same cl ch) as (Hcl & Hco & Hck & Hrt).
  pose proof (cut_over_mid cl mg ch Hm) as Hm'.
  unfold migrate_chunk. rewrite Hacts. eapply hoare_bind.
  { apply copy_loop_spec; [apply Hm|]. by eapply chunk_pairs_ok; [done|]; intros; apply Hch. }
  intros cp. eapply hoare_bind.
  { eapply hoare_conseq; [apply (drop_loop_spec (cut_over cl ch)
      (copy_view cl spec (btree_iter pair_le (pair_buckets (acts dn) ch))))|..];
      [apply Hm'| |intros w; by apply nodes_show_clients|intros a w Hw; exact Hw].
    intros n bs Hin. apply (mid_clients _ _ Hm').
    assert (bs ≠ []) as Hne.
    { apply elem_of_btree_iter in Hin.
      eapply (group_nonempty (λ bk, drops_of (acts dn) bk) ∅); [|exact Hin].
      intros k l. by rewrite lookup_empty. }
    destruct bs as [|b bs]; [done|].
    destruct (proj1 (elem_of_node_drops dn ch n b)) as [_ Hd]; [eexists; split; [done|left]|].
    apply elem_of_acts_drops in Hd as (_ & _ & Hd & _).
    destruct (before_after_ok b) as [[_ Hbo] _]. by apply Hbo. }
  intros dr. apply hoare_ret. intros w Hw.
  set (cl' := save_record (cut_over cl ch) (m_old m) (m_new m) (list_to_set ch ∪ m_done m)).
  assert (Hm2 : mid cl' (list_to_set ch ∪ mg)) by (by destruct Hm'; split).
  split; [done|]. split; [|split_and!; try done].
  - eapply (nodes_show_clients (cut_over cl ch)); [done..|].
    eapply nodes_show_ext; [|exact Hw]. intros n c k _ _. by apply (chunk_view dn ch mg).
  - unfold cl', save_record, with_journal, Journal.save. cbn [journal].
    by rewrite Hrt, (mid_target _ _ Hm).
Qed.

(** ** The chunk loop, interleaved with data operations *)

(** A migration under way: [dn] were done when it started, [mg] are by now. *)
Record running cl m (dn mg : gset nat) : Prop := {
  run_mid : mid cl mg;
  run_old : m_old m = old;
  run_new : m_new m = nw;
  run_acts : m_actions m = acts dn;
  run_done : m_done m = mg;
  run_journal : journal cl = Some (Journal.mkRecord old nw rt (elements mg));
}.

Lemma running_chunk cl m dn mg ch chs spec :
  running cl m dn mg → remaining dn mg (ch :: chs) →
  hoare (inv cl spec) (migrate_chunk (V := V) cl m ch) (λ '(cl', m') w',
    running cl' m' dn (list_to_set ch ∪ mg) ∧ inv cl' spec w'
    ∧ clients cl' = clients cl ∧ colls cl' = colls cl).
Proof.
  intros [Hm Ho Hn Ha Hd Hj] [Hch _]%remaining_cons.
  eapply hoare_conseq; [by apply (migrate_chunk_spec cl mg m ch spec dn)|done|].
  intros [cl' m'] w (Hm' & Hinv & Ha' & Ho' & Hn' & Hd' & Hcl & Hco & Hj').
  split; [|done]. split; [done|congruence..|]. by rewrite Hj', Ho, Hn, Hd.
Qed.

(** An event of an execution: the next chunk of the migration, or a data
    operation. *)
Inductive event := NextChunk | Op (o : dop (V := V)).

Fixpoint run_events cl m (chs : list (list nat)) (es : list event)
    : M St (Cluster.t * migration * list (list nat) * list (dres (V := V))) :=
  match es with
  | [] => mret (cl, m, chs, [])
  | Op o :: es' =>
      r ← run_dop cl o;
      '(cl', m', chs', rs) ← run_events cl m chs es';
      mret (cl', m', chs', r :: rs)
  | NextChunk :: es' =>
      match chs with
      | [] => run_events cl m chs es'
      | ch :: chs' =>
          '(cl', m') ← migrate_chunk (V := V) cl m ch;
          run_events cl' m' chs' es'
      end
  end.

Definition ops_of (es : list event) : list (dop (V := V)) :=
  omap (λ e, match e with Op o => Some o | NextChunk => None end) es.

Lemma run_events_spec cl m dn mg chs es spec :
  nw ≠ [] → known cl → running cl m dn mg → remaining dn mg chs → (∀ o, o ∈ ops_of es → dop_ok (St := St) cl o) →
  hoare (inv cl spec) (run_events cl m chs es) (λ '(cl', m', chs', rs) w',
    rs = (spec_dops spec (ops_of es)).2 ∧ inv cl' (spec_dops spec (ops_of es)).1 w'
    ∧ clients cl' = clients cl ∧ colls cl' = colls cl
    ∧ ∃ mg', running cl' m' dn mg' ∧ remaining dn mg' chs' ∧ mg ⊆ mg'
             ∧ ∀ b, b ∈ concat chs → b ∈ mg' ∨ b ∈ concat chs').
Proof.
  intros Hnew. revert cl m mg chs spec.
  induction es as [|[|o] es IH]; intros cl m mg chs spec Hk Hr Hrem Hops.
  - apply hoare_ret. intros w Hw. split_and!; try done. exists mg. by split_and!; [..|tauto].
  - cbn [run_events]. destruct chs as [|ch chs]; [by apply (IH cl m mg [] spec)|].
    eapply hoare_bind; [by eapply running_chunk|]. intros [cl1 m1] w (Hr1 & Hinv & Hc1 & Hl1).
    destruct (remaining_cons _ _ _ _ Hrem) as [_ Hrem1].
    assert (Hops1 : ∀ o, o ∈ ops_of es → dop_ok (St := St) cl1 o).
    { intros o Ho. specialize (Hops o Ho). unfold dop_ok in *. by rewrite Hl1. }
    assert (Hk1 : known cl1) by (unfold known; by rewrite Hc1).
    pose proof (IH cl1 m1 _ chs spec Hk1 Hr1 Hrem1 Hops1 w Hinv) as IH1. cbv beta iota.
    destruct (run_events cl1 m1 chs es w) as [w' [[[cl' m'] chs'] rs]]. cbn [fst snd] in *.
    destruct IH1 as (? & ? & ? & ? & mg' & ? & ? & Hsub & Hb).
    split_and!; [done|done|congruence|congruence|].
    exists mg'. split_and!; [done..|set_solver|]. intros b. cbn [concat]. rewrite elem_of_app.
    intros [Hin|Hin]; [|by apply Hb]. left. apply Hsub. set_solver.
  - cbn [run_events]. eapply hoare_bind.
    { apply dop_refines; [by eapply mid_cluster_ok, run_mid|]. apply Hops. left. }
    intros r w [-> Hinv].
    assert (Hops1 : ∀ o, o ∈ ops_of es → dop_ok (St := St) cl o) by (intros; apply Hops; by right).
    pose proof (IH cl m mg chs _ Hk Hr Hrem Hops1 w Hinv) as IH1.
    unfold mbind, M_bind. change (ops_of (Op o :: es)) with (o :: ops_of es).
    destruct (run_events cl m chs es w) as [w' [[[cl' m'] chs'] rs]]. cbn in *.
    destruct (spec_dop spec o) as [s1 r1]. cbn in *.
    destruct (spec_dops s1 (ops_of es)) as [s2 rs2]. cbn in *.
    destruct IH1 as (-> & ? & ? & ? & Hex). by split_and!.
Qed.

(** *** Start and end *)

(** What [begin_migration] needs of the cluster. *)
Record startable cl : Prop := {
  st_topo : topology cl = topo;
  st_target : replication_target cl = rt;
  st_refs : refs_inj cl;
  st_up : down cl = ∅;
  st_clients : ∀ n, n ∈ old → is_Some (clients cl !! n);
  st_wf : Partitioner.wf (partitioner cl);
  st_ptopo : Partitioner.topology (partitioner cl) = topo;
  st_chunk : 1 ≤ chunk cl;
}.

Lemma inv_owners_ext cl cl' spec w :
  clients cl = clients cl' → colls cl = colls cl' →
  (∀ k n, n ∈ owners cl k ↔ n ∈ owners cl' k) → inv cl spec w → inv cl' spec w.
Proof.
  intros Hc Hl Ho Hw. eapply nodes_show_clients; [done..|].
  eapply nodes_show_ext; [|exact Hw]. intros n c k _ _. unfold agree. apply decide_ext, Ho.
Qed.

(** The data once the buckets [dn] have moved. *)
Definition part_moved cl (dn : gset nat) spec w : Prop :=
  nodes_show cl (λ n c k,
    if decide (n ∈ if decide (bucket_of k ∈ dn) then after (bucket_of k) else before (bucket_of k))
    then spec c k else None) w.

Lemma mid_part_moved cl mg spec w : mid cl mg → inv cl spec w → part_moved cl mg spec w.
Proof.
  clear Hold Hnd_old Hnd_new. intros Hm. apply nodes_show_ext. intros n c k _ _. unfold agree.
  by rewrite (owners_mid cl mg).
Qed.

Lemma before_part_moved cl spec w :
  (∀ k, owners cl k = before (bucket_of k)) → inv cl spec w → part_moved cl ∅ spec w.
Proof.
  clear Hold Hnd_old Hnd_new. intros Ho. apply nodes_show_ext. intros n c k _ _. unfold agree.
  by rewrite Ho, (decide_False (P := bucket_of k ∈ ∅)) by set_solver.
Qed.

Lemma begin_running cl dn cl1 m chs :
  startable cl → begin_migration cl old nw dn = (cl1, m, chs) →
  running cl1 m dn dn ∧ remaining dn dn chs
  ∧ clients cl1 = clients cl ∧ colls cl1 = colls cl
  ∧ ∀ b, b ∈ concat chs ↔ b ∈ dom (acts dn).
Proof.
  intros [Ht Hrt Hinj Hup Hcl Hwf Hpt Hch] Hbegin.
  unfold begin_migration in Hbegin. cbn [chunk save_record with_journal with_overlay] in Hbegin.
  rewrite Ht, Hrt in Hbegin. fold (acts dn) in Hbegin. injection Hbegin as <- <- <-.
  rewrite concat_chunks by done.
  assert (Hdom : ∀ b, b ∈ map fst (btree_iter le (acts dn)) ↔ b ∈ dom (acts dn)).
  { intros b. unfold btree_iter. rewrite merge_sort_Permutation, elem_of_dom, list_elem_of_fmap.
    split; [intros ([? x] & -> & Hx); apply elem_of_map_to_list in Hx; by exists x|].
    intros [x Hx]. exists (b, x). by rewrite elem_of_map_to_list. }
  split; [|split; [|done]].
  - unfold make_partitioner. rewrite Ht. split; try done.
    unfold save_record, with_journal, Journal.save. cbn. by rewrite Hrt.
  - split; rewrite concat_chunks by done.
    + unfold btree_iter. rewrite merge_sort_Permutation. apply NoDup_fst_map_to_list.
    + intros b Hb%Hdom.
      destruct (plan_actions_spec dn (Reshard.plan_reshard old nw rt topo) b) as (_ & _ & Hd).
      apply Hd in Hb. tauto.
Qed.

Lemma begin_spec cl dn spec w cl1 m chs :
  startable cl → begin_migration cl old nw dn = (cl1, m, chs) → part_moved cl dn spec w →
  running cl1 m dn dn ∧ remaining dn dn chs ∧ inv cl1 spec w
  ∧ clients cl1 = clients cl ∧ colls cl1 = colls cl
  ∧ ∀ b, b ∈ concat chs ↔ b ∈ dom (acts dn).
Proof.
  intros Hst Hbegin Hw. destruct (begin_running cl dn cl1 m chs Hst Hbegin) as (Hrun & ? & Hc & Hl & ?).
  split_and!; try done. eapply (nodes_show_clients cl); [done..|].
  eapply nodes_show_ext; [|exact Hw]. intros n c k _ _.
  unfold agree. by rewrite (owners_mid _ dn k (run_mid _ _ _ _ Hrun)).
Qed.

(** Every bucket whose owners differ has been migrated. *)
Definition complete (mg : gset nat) : Prop :=
  ∀ b, b < NUM_BUCKETS → b ∉ mg → ∀ n, n ∈ before b ↔ n ∈ after b.

Lemma all_actions_complete dn mg :
  dn ⊆ mg → (∀ b, b ∈ dom (acts dn) → b ∈ mg) → complete mg.
Proof.
  intros Hsub Hdom b Hb Hmg n.
  destruct (plan_actions_spec dn (Reshard.plan_reshard old nw rt topo) b) as (_ & _ & Hd).
  assert (b ∉ dn) as Hdn by set_solver.
  assert (Hno : ¬ ((∃ c, c ∈ Reshard.copies (Reshard.plan_reshard old nw rt topo)
                         ∧ Reshard.c_bucket c = b)
                   ∨ ∃ d, d ∈ Reshard.drops (Reshard.plan_reshard old nw rt topo)
                         ∧ Reshard.d_bucket d = b)).
  { intros H'. apply Hmg, Hdom, Hd. by split. }
  split; intros Hn; apply dec_stable; intros Hnot; apply Hno.
  - right. exists (Reshard.mkDrop b n). split; [|done]. apply Reshard.elem_of_drops. cbn.
    unfold Reshard.old_owners. by rewrite decide_False.
  - left. destruct (head (before b)) as [f|] eqn:Hh.
    + exists (Reshard.mkCopy b f n). split; [|done]. apply Reshard.elem_of_copies. cbn.
      unfold Reshard.old_owners. by rewrite decide_False.
    + apply head_None in Hh. by apply bucket_owners_nonempty in Hh.
Qed.

(** The owners of every bucket, and the first of them, are the new ones. *)
Lemma complete_route dn mg cl k :
  distinct_hashes old → mid cl mg → dn ⊆ mg → (∀ b, b ∈ dom (acts dn) → b ∈ mg) →
  (∀ n, n ∈ owners cl k ↔ n ∈ after (bucket_of k))
  ∧ head (owners cl k) = head (after (bucket_of k)).
Proof.
  intros Hh Hm Hsub Hdom. rewrite (owners_mid cl mg k Hm). case_decide as Hk; [done|].
  pose proof (all_actions_complete dn mg Hsub Hdom (bucket_of k) (bucket_of_lt k) Hk) as Hc.
  split; [done|]. revert Hc. unfold before, after. rewrite !Reshard.bucket_owners_placement.
  apply placement_same_head; [done|apply bucket_of_lt|apply Reshard.effective_pos..].
Qed.

End chunk.

(** ** Stable clusters *)

(** Between membership changes: no overlay, the ring is the membership. *)
Record stable cl : Prop := {
  s_overlay : overlay cl = None;
  s_wf : Partitioner.wf (partitioner cl);
  s_topo : Partitioner.topology (partitioner cl) = topology cl;
  s_NoDup : NoDup (nodes (partitioner cl));
  s_hash : distinct_hashes (nodes (partitioner cl));
  s_ne : nodes (partitioner cl) ≠ [];
  s_repl : replication cl = clamp (replication_target cl) (length (nodes (partitioner cl)));
  s_target : 1 ≤ replication_target cl;
  s_clients : ∀ n, n ∈ nodes (partitioner cl) → is_Some (clients cl !! n);
  s_refs : refs_inj cl;
  s_up : down cl = ∅;
  s_chunk : 1 ≤ chunk cl;
}.

Lemma owners_stable cl k :
  overlay cl = None → Partitioner.wf (partitioner cl) →
  replication cl = clamp (replication_target cl) (length (nodes (partitioner cl))) →
  owners cl k = placement (nodes (partitioner cl)) (Partitioner.topology (partitioner cl))
                  (bucket_of k) (Reshard.effective (replication_target cl)
                                   (length (nodes (partitioner cl)))).
Proof.
  intros Ho Hwf Hr. unfold owners. rewrite Ho, replica_set_owners, Hr.
  pose proof (bucket_of_lt k) as Hb.
  rewrite owners_of_bucket_rank, placement_pick by done. by apply pick_nodes_ext.
Qed.

Lemma stable_owners cl k :
  stable cl →
  owners cl k = Reshard.bucket_owners (nodes (partitioner cl)) (topology cl)
                  (replication_target cl) (bucket_of k).
Proof.
  intros Hs. rewrite owners_stable by apply Hs.
  by rewrite Reshard.bucket_owners_placement, (s_topo _ Hs).
Qed.

Lemma stable_cluster_ok cl : stable cl → cluster_ok cl.
Proof.
  intros Hs. split; [apply Hs|apply Hs|..].
  - intros k n. rewrite stable_owners, Reshard.bucket_owners_placement by done.
    intros Hn%placement_subset. by apply Hs.
  - intros k. rewrite stable_owners, Reshard.bucket_owners_placement by done.
    apply placement_NoDup, Hs.
  - intros k. rewrite stable_owners by done. pose proof (bucket_of_lt k).
    by apply bucket_owners_nonempty; [apply Hs..|].
Qed.


(** *** Commit *)

(** The committed cluster, once the overlay is gone. *)
Definition committed cl (nw : list NodeId) : Cluster.t :=
  with_overlay (commit_membership (with_journal cl (Journal.clear (journal cl))) nw) None.

Lemma committed_clients cl nw n c :
  clients (committed cl nw) !! n = Some c ↔ clients cl !! n = Some c ∧ n ∈ nw.
Proof. cbn. by rewrite map_lookup_filter_Some. Qed.

Lemma committed_stable cl old nw rt topo :
  startable old rt topo cl → known nw cl → nw ≠ [] → NoDup nw → distinct_hashes nw → 1 ≤ rt →
  stable (committed cl nw).
Proof.
  intros [Ht Hrt Hinj Hup _ Hwf Hpt Hch] Hk Hne Hnd Hh Hrt1. split; try done.
  - by apply set_nodes_wf.
  - cbn. by rewrite Hpt, Ht.
  - cbn. by rewrite Hrt.
  - intros n Hn. destruct (Hk n Hn) as [c Hc]. exists c. by apply committed_clients.
  - intros n n' c c' [Hc _]%committed_clients [Hc' _]%committed_clients. by apply Hinj.
  - cbn. by rewrite Hup.
Qed.

(** Routing after the commit, also when some of the new members are unknown. *)
Lemma committed_owners cl old nw rt topo k :
  startable old rt topo cl →
  owners (committed cl nw) k = Reshard.bucket_owners nw topo rt (bucket_of k).
Proof.
  intros [Ht Hrt _ _ _ Hwf Hpt _].
  rewrite owners_stable, Reshard.bucket_owners_placement; [|done|by apply set_nodes_wf|done].
  cbn. by rewrite Hpt, Hrt.
Qed.

(** After a change of membership from [cl] to [cl'], the nodes that [cl] knew,
    also the departed ones: the owners hold the value, everybody else nothing. *)
Definition handed_over cl cl' spec w : Prop := nodes_show cl (agree cl' spec) w.

Lemma committed_inv cl nw spec w :
  (∀ k n, n ∈ owners cl k ↔ n ∈ owners (committed cl nw) k) →
  inv cl spec w → handed_over cl (committed cl nw) spec w.
Proof.
  intros Ho. apply nodes_show_ext. intros n c k _ _. unfold agree. apply decide_ext, Ho.
Qed.

(** *** The loop *)

Section loop.
Context (old nw : list NodeId) (rt : nat) (topo : gmap NodeId string).
Hypothesis (Hold : old ≠ []) (Hnd_old : NoDup old) (Hnd_new : NoDup nw).

Lemma chunk_loop_spec cl m dn mg i stop chs spec :
  running old nw rt topo cl m dn mg → remaining dn mg chs →
  hoare (inv cl spec) (chunk_loop (V := V) cl m i stop chs) (λ '(cl', m', fin) w',
    inv cl' spec w' ∧ clients cl' = clients cl ∧ colls cl' = colls cl
    ∧ (stop = None → fin = true)
    ∧ ∃ mg', running old nw rt topo cl' m' dn mg' ∧ mg ⊆ mg'
             ∧ (fin = true → ∀ b, b ∈ concat chs → b ∈ mg')).
Proof.
  revert cl m mg i. induction chs as [|ch chs IH]; intros cl m mg i Hr Hrem.
  { apply hoare_ret. intros w Hw. split_and!; try done. exists mg. split_and!; try done.
    intros _ b Hb. by apply elem_of_nil in Hb. }
  assert (Hgo : hoare (inv cl spec)
    ('(cl, m) ← migrate_chunk (V := V) cl m ch; chunk_loop cl m (S i) stop chs)
    (λ '(cl', m', fin) w',
    inv cl' spec w' ∧ clients cl' = clients cl ∧ colls cl' = colls cl
    ∧ (stop = None → fin = true)
    ∧ ∃ mg', running old nw rt topo cl' m' dn mg' ∧ mg ⊆ mg'
             ∧ (fin = true → ∀ b, b ∈ concat (ch :: chs) → b ∈ mg'))).
  { eapply hoare_bind; [by apply (running_chunk old nw rt topo) with (dn := dn) (mg := mg) (chs := chs)|].
    intros [cl1 m1] w (Hr1 & Hinv & Hc1 & Hl1).
    destruct (remaining_cons _ _ _ _ Hrem) as [_ Hrem1].
    pose proof (IH cl1 m1 _ (S i) Hr1 Hrem1 w Hinv) as IH1. cbv beta iota.
    destruct (chunk_loop cl1 m1 (S i) stop chs w) as [w' [[cl' m'] fin]]. cbn [fst snd] in *.
    destruct IH1 as (? & ? & ? & ? & mg' & ? & Hsub & Hb).
    split_and!; [done|congruence|congruence|done|]. exists mg'. split_and!; [done|set_solver|].
    intros Hfin b. cbn [concat]. rewrite elem_of_app. intros [Hin|Hin]; [|by apply Hb].
    apply Hsub. set_solver. }
  cbn [chunk_loop]. destruct stop as [mx|]; [|done]. destruct (mx <=? i)%nat; [|done].
  apply hoare_ret. intros w Hw. split_and!; try done. by exists mg.
Qed.

(** What a commit leaves: the new ring and the clients that are on it; a stable
    cluster if every member is known and the names have distinct hashes. *)
Record ended cl cl' : Prop := {
  en_nodes : nodes (partitioner cl') = nw;
  en_owners : ∀ k, owners cl' k = Reshard.bucket_owners nw topo rt (bucket_of k);
  en_clients : ∀ n, clients cl' !! n = if decide (n ∈ nw) then clients cl !! n else None;
  en_overlay : overlay cl' = None;
  en_journal : journal cl' = None;
  en_down : down cl' = ∅;
  en_stable : known nw cl → nw ≠ [] → distinct_hashes nw → 1 ≤ rt → stable cl';
  en_target : replication_target cl' = rt;
  en_topo : topology cl' = topo;
}.

Lemma committed_ended cl : startable old rt topo cl → ended cl (committed cl nw).
Proof.
  clear Hold Hnd_old. intros Hst. split; try done; try apply Hst.
  - intros k. by apply (committed_owners cl old).
  - intros n. apply option_eq. intros c. rewrite committed_clients. case_decide; naive_solver.
  - cbn. by rewrite (st_up _ _ _ _ Hst).
  - intros. by apply (committed_stable cl old nw rt topo).
Qed.

Lemma ended_inv cl cl' spec w :
  ended cl cl' → colls cl' = colls cl → handed_over cl cl' spec w → inv cl' spec w.
Proof.
  clear Hold Hnd_old Hnd_new.
  intros He Hl Hw n c Hc. rewrite (en_clients _ _ He) in Hc. case_decide; [|done].
  destruct (Hw n c Hc) as (sh & ? & ?). exists sh. by rewrite Hl.
Qed.

(** A finished loop can be committed. *)
Lemma finish_spec cl m dn mg spec w :
  running old nw rt topo cl m dn mg → dn ⊆ mg →
  (∀ b, b ∈ dom (acts old nw rt topo dn) → b ∈ mg) → inv cl spec w →
  ended cl (end_migration cl m) ∧ handed_over cl (end_migration cl m) spec w.
Proof.
  intros [Hm Ho Hn Ha Hd Hj] Hsub Hdom Hw.
  assert (Hst : startable old rt topo cl) by (by destruct Hm; split).
  unfold end_migration. rewrite Hn. fold (committed cl nw). split; [by apply committed_ended|].
  apply committed_inv; [|done]. intros k n.
  rewrite (committed_owners cl old nw rt topo), (owners_mid old nw rt topo cl mg) by done.
  case_decide as Hk; [done|].
  apply (all_actions_complete old nw rt topo Hold Hnd_old Hnd_new dn mg Hsub Hdom); [apply bucket_of_lt|done].
Qed.

Lemma ended_clients cl0 cl cl' : clients cl = clients cl0 → ended cl cl' → ended cl0 cl'.
Proof. intros Hc [?? Hcl ??? Hs ??]. unfold known in Hs. rewrite Hc in *. by split. Qed.

(** Migrating from the buckets already done to the end. *)
Lemma migrate_to_end cl dn spec cl1 m chs stop :
  startable old rt topo cl → begin_migration cl old nw dn = (cl1, m, chs) →
  hoare (part_moved old nw rt topo cl dn spec) (chunk_loop (V := V) cl1 m 0 stop chs) (λ '(cl', m', fin) w',
    colls cl' = colls cl ∧ clients cl' = clients cl
    ∧ if fin : bool then
        ended cl (end_migration cl' m') ∧ handed_over cl (end_migration cl' m') spec w'
      else stop ≠ None ∧ inv cl' spec w' ∧ ∃ mg, running old nw rt topo cl' m' dn mg).
Proof.
  intros Hst Hb w Hw.
  destruct (begin_spec old nw rt topo cl dn spec w cl1 m chs) as (Hr & Hrem & Hw1 & Hc1 & Hl1 & Hdom);
    [done..|].
  pose proof (chunk_loop_spec cl1 m dn dn 0 stop chs spec Hr Hrem w Hw1) as Hloop.
  destruct (chunk_loop cl1 m 0 stop chs w) as [w' [[cl' m'] fin]]. cbn [fst snd] in *.
  destruct Hloop as (Hinv & Hc & Hl & Hstop & mg & Hrun & Hsub & Hall).
  split; [congruence|]. split; [congruence|]. destruct fin.
  - destruct (finish_spec cl' m' dn mg spec w') as [He Hi]; [done..| |done|].
    { intros b Hbd. apply Hall, Hdom; done. }
    split; [by eapply ended_clients; [|exact He]; congruence|].
    by eapply nodes_show_clients; [| |exact Hi]; congruence.
  - split; [intros ->; by specialize (Hstop eq_refl)|]. split; [done|by exists mg].
Qed.

End loop.

(** ** Whole migrations *)

Lemma member_ids_perm cl : member_ids cl ≡ₚ nodes (partitioner cl).
Proof. apply sort_strings_perm. Qed.

Lemma members_ok cl :
  stable cl → member_ids cl ≠ [] ∧ NoDup (member_ids cl).
Proof.
  intros Hs. split.
  - intros He. apply (s_ne _ Hs). apply Permutation_nil_r. by rewrite <-member_ids_perm, He.
  - rewrite member_ids_perm. apply Hs.
Qed.

(** The overlay's old ring routes like the live one. *)
Lemma members_owners cl k :
  stable cl →
  owners cl k
  = before (member_ids cl) (replication_target cl) (topology cl) (bucket_of k).
Proof.
  intros Hs. rewrite stable_owners by done. unfold before.
  rewrite !Reshard.bucket_owners_placement.
  rewrite (Permutation_length (member_ids_perm cl)).
  apply placement_Permutation; [apply Hs|]. by rewrite member_ids_perm.
Qed.

(** A membership the cluster can move to: every member has a client. *)
Record target cl (nw : list NodeId) : Prop := {
  tg_ne : nw ≠ [];
  tg_NoDup : NoDup nw;
  tg_hash : distinct_hashes nw;
  tg_clients : ∀ n, n ∈ nw → is_Some (clients cl !! n);
}.

Lemma stable_startable cl :
  stable cl → startable (member_ids cl) (replication_target cl) (topology cl) cl.
Proof.
  intros Hs. split; try apply Hs; try done.
  intros n Hn. rewrite member_ids_perm in Hn. by apply Hs.
Qed.

Lemma target_stable cl nw cl' :
  stable cl → target cl nw →
  ended nw (replication_target cl) (topology cl) cl cl' → stable cl' ∧ nodes (partitioner cl') = nw.
Proof. intros Hs [? ? ? ?] He. split; [|apply He]. apply He; [done..|apply Hs]. Qed.

(** More clients, none of them a second name of a shard. *)
Lemma stable_clients cl cs :
  stable cl → clients cl ⊆ cs → refs_inj (with_clients cl cs) → stable (with_clients cl cs).
Proof.
  intros Hs Hsub Hr. pose proof (s_clients _ Hs) as Hcl. destruct Hs. split; try done.
  intros n Hn. destruct (Hcl n Hn) as [c Hc]. exists c. by eapply lookup_weaken.
Qed.

Lemma elem_of_hash_keys {A} (m : gmap string A) i : i ∈ hash_keys m ↔ is_Some (m !! i).
Proof.
  unfold hash_keys. rewrite list_elem_of_fmap. split.
  - intros ([j x] & -> & Hx). apply elem_of_hash_iter in Hx. by exists x.
  - intros [x Hx]. exists (i, x). by rewrite elem_of_hash_iter.
Qed.

Lemma hash_keys_ne {A} (m : gmap string A) : m ≠ ∅ → hash_keys m ≠ [].
Proof.
  intros Hm Hk. apply Hm, map_empty. intros i. apply eq_None_not_Some. intros Hi.
  apply elem_of_hash_keys in Hi. rewrite Hk in Hi. by apply elem_of_nil in Hi.
Qed.

(** The names of a list whose clients have been taken in. *)
Lemma keys_target cl (tgt : gmap NodeId Client.t) :
  tgt ≠ ∅ → distinct_hashes (hash_keys tgt) →
  target (with_clients cl (clients cl ∪ tgt)) (hash_keys tgt).
Proof.
  intros Hne Hh. split; [by apply hash_keys_ne|apply NoDup_hash_iter_keys|done|].
  intros n [c Hn]%elem_of_hash_keys. cbn. rewrite lookup_union, Hn. destruct (clients cl !! n); by eexists.
Qed.

(** The early exit: the new membership is the old one, in another order. *)
Lemma same_members_perm cl nw :
  stable cl → same_members (member_ids cl) nw = true →
  nodes (partitioner cl) ≡ₚ nw.
Proof.
  intros Hs [Hl Hall]%andb_true_iff. rewrite forallb_forall in Hall.
  apply Nat.eqb_eq in Hl. rewrite <-member_ids_perm. destruct (members_ok cl Hs) as [_ Hnd].
  apply submseteq_length_Permutation; [|lia]. apply NoDup_submseteq; [done|].
  intros n Hn. apply list_elem_of_In, Hall, bool_decide_eq_true in Hn. done.
Qed.

Lemma same_commit cl nw spec w :
  stable cl → NoDup nw → nodes (partitioner cl) ≡ₚ nw → inv cl spec w →
  let cl' := commit_membership (with_journal cl (Journal.clear (journal cl))) nw in
  ended nw (replication_target cl) (topology cl) cl cl' ∧ handed_over cl cl' spec w.
Proof.
  intros Hs Hnd Hp Hw cl'. pose proof (stable_startable cl Hs) as Hst.
  assert (committed cl nw = cl') as Heq.
  { unfold committed, with_overlay, cl', commit_membership. cbn. by rewrite (s_overlay _ Hs). }
  rewrite <-Heq. split; [by eapply committed_ended|]. apply committed_inv; [|done].
  intros k n. rewrite (committed_owners cl _ nw _ _ k Hst).
  rewrite stable_owners, !Reshard.bucket_owners_placement by done.
  rewrite (Permutation_length Hp), (placement_Permutation _ nw); [done|apply Hs|done].
Qed.

(** A migration from a stable cluster, possibly stopped after some chunks. *)
Lemma run_migration_spec cl nw stop spec :
  stable cl → NoDup nw →
  hoare (inv cl spec) (run_migration (V := V) cl (member_ids cl) nw ∅ stop) (λ '(cl', s) w',
    colls cl' = colls cl ∧
    if decide (overlay cl' = None) then
      ended nw (replication_target cl) (topology cl) cl cl' ∧ handed_over cl cl' spec w'
    else
      stop ≠ None ∧ inv cl' spec w' ∧ clients cl' = clients cl
      ∧ same_members (member_ids cl) nw = false
      ∧ ∃ m mg, running (member_ids cl) nw (replication_target cl) (topology cl) cl' m ∅ mg).
Proof.
  intros Hs Hnw. unfold run_migration. destruct (same_members _ nw) eqn:Hsame.
  { apply hoare_ret. intros w Hw. split; [done|].
    destruct (same_commit cl nw spec w Hs Hnw) as (He & ?); [by apply same_members_perm|done|].
    by rewrite decide_True by apply He. }
  destruct (begin_migration cl (member_ids cl) nw ∅) as [[cl1 m] chs] eqn:Hb.
  destruct (members_ok cl Hs) as [Hne Hnd]. eapply hoare_bind.
  { eapply hoare_conseq; [|intros w|intros a w Hw; exact Hw].
    - apply (migrate_to_end (member_ids cl) nw (replication_target cl) (topology cl) Hne Hnd
        Hnw cl ∅ spec cl1 m chs stop); [by apply stable_startable|done].
    - apply before_part_moved. intros k. by apply members_owners. }
  intros [[cl' m'] fin] w (Hl & Hc & Hfin). destruct fin; split; [done| |done|].
  - destruct Hfin as (He & ?). by rewrite decide_True by apply He.
  - destruct Hfin as (? & ? & mg & Hr). rewrite decide_False.
    + split_and!; try done. by exists m', mg.
    + cbn [fst snd]. by rewrite (mid_ov _ _ _ _ _ _ (run_mid _ _ _ _ _ _ _ _ Hr)).
Qed.

Lemma rebalance_ended cl nw spec :
  stable cl → NoDup nw →
  hoare (inv cl spec) (rebalance (V := V) cl nw) (λ '(cl', s) w',
    ended nw (replication_target cl) (topology cl) cl cl' ∧ colls cl' = colls cl
    ∧ handed_over cl cl' spec w').
Proof.
  intros Hs Hnd w Hw. pose proof (run_migration_spec cl nw None spec Hs Hnd w Hw) as Hr.
  unfold rebalance. destruct (run_migration cl (member_ids cl) nw ∅ None w) as [w' [cl' s]].
  cbn [fst snd] in Hr. destruct Hr as [Hl Hr]. case_decide; [|by destruct Hr]. by destruct Hr.
Qed.

(** One step of the life of a cluster. *)
Lemma rebalance_step cl nw spec w :
  stable cl → target cl nw → inv cl spec w →
  stable (rebalance (V := V) cl nw w).2.1
  ∧ colls (rebalance (V := V) cl nw w).2.1 = colls cl
  ∧ inv (rebalance (V := V) cl nw w).2.1 spec (rebalance (V := V) cl nw w).1.
Proof.
  intros Hs Ht Hw. pose proof (rebalance_ended cl nw spec Hs (tg_NoDup _ _ Ht) w Hw) as Hr.
  destruct (rebalance cl nw w) as [w' [cl' s]]. cbn [fst snd] in *. destruct Hr as (He & Hl & Hh).
  destruct (target_stable cl nw cl' Hs Ht He). split; [done|]. split; [done|]. by eapply ended_inv.
Qed.

(** Draining a node of a larger cluster. *)
Lemma drain_target cl n :
  stable cl → (∃ m, m ∈ member_ids cl ∧ m ≠ n) → target cl (filter (.≠ n) (member_ids cl)).
Proof.
  intros Hs (m & Hm & Hne). destruct (members_ok cl Hs) as [_ Hnd]. split.
  - intros He. apply (not_elem_of_nil m). rewrite <-He. by apply list_elem_of_filter.
  - by apply NoDup_filter.
  - apply distinct_hashes_inj; [by apply NoDup_filter|].
    intros i j [_ Hi]%list_elem_of_filter [_ Hj]%list_elem_of_filter Hf.
    rewrite member_ids_perm in Hi, Hj. by apply (NoDup_map_inj fnv1a (nodes (partitioner cl))); [apply Hs|..].
  - intros i [_ Hi]%list_elem_of_filter. rewrite member_ids_perm in Hi. by apply Hs.
Qed.

(** C2. Rebalancing loses nothing, as long as every call to a shard is delivered:
    moving a stable cluster to a new membership of known members, distinct in name
    and hash and at least one, leaves a stable cluster over exactly that
    membership, in which the owners of every key (the new ones) hold the value the
    key had before, and no other node holds a copy, the departed ones included; so
    every read answers as before. The data are values without expiry in the
    managed collections ([inv]). A lost export or import loses data
    ([lost_exports_copy_nothing]), and an import drops expiries. *)
Theorem rebalance_preserves_data cl nw spec w :
  stable cl → target cl nw → inv cl spec w →
  let '(w', (cl', s)) := rebalance (V := V) cl nw w in
  stable cl' ∧ nodes (partitioner cl') = nw ∧ colls cl' = colls cl
  ∧ inv cl' spec w' ∧ handed_over cl cl' spec w'.
Proof.
  intros Hs Ht Hw. pose proof (rebalance_ended cl nw spec Hs (tg_NoDup _ _ Ht) w Hw) as Hr.
  destruct (rebalance cl nw w) as [w' [cl' s]]. cbn [fst snd] in Hr. destruct Hr as (He & Hl & ?).
  destruct (target_stable cl nw cl' Hs Ht He). split_and!; try done. by eapply ended_inv.
Qed.

(** A migration as a sequence of events. *)
Lemma online_events cl nw spec w es cl1 m chs :
  stable cl → target cl nw → inv cl spec w →
  begin_migration cl (member_ids cl) nw ∅ = (cl1, m, chs) →
  (∀ o, o ∈ ops_of es → dop_ok (V := V) (St := St) cl o) →
  let '(w', (cl', m', chs', rs)) := run_events cl1 m chs es w in
  rs = (spec_dops spec (ops_of es)).2
  ∧ inv cl' (spec_dops spec (ops_of es)).1 w'
  ∧ (chs' = [] → stable (end_migration cl' m')
       ∧ nodes (partitioner (end_migration cl' m')) = nw
       ∧ inv (end_migration cl' m') (spec_dops spec (ops_of es)).1 w').
Proof.
  intros Hs Ht Hw Hb Hops. destruct (members_ok cl Hs) as [Hne Hnd].
  destruct (begin_spec (member_ids cl) nw (replication_target cl) (topology cl) cl ∅ spec w cl1 m chs)
    as (Hr & Hrem & Hw1 & Hc1 & Hl1 & Hdom); [by apply stable_startable|done| |].
  { apply before_part_moved; [|done]. intros k. by apply members_owners. }
  assert (Hops1 : ∀ o, o ∈ ops_of es → dop_ok (V := V) (St := St) cl1 o).
  { intros o Ho. specialize (Hops o Ho). unfold dop_ok in *. by rewrite Hl1. }
  assert (Hk1 : known nw cl1) by (unfold known; rewrite Hc1; apply Ht).
  pose proof (run_events_spec (member_ids cl) nw (replication_target cl) (topology cl) Hne Hnd
    (tg_NoDup _ _ Ht) cl1 m ∅ ∅ chs es spec (tg_ne _ _ Ht) Hk1 Hr Hrem Hops1 w Hw1) as Hrun.
  destruct (run_events cl1 m chs es w) as [w' [[[cl' m'] chs'] rs]]. cbn [fst snd] in Hrun.
  destruct Hrun as (-> & Hinv & Hc' & _ & mg & Hr' & _ & Hsub & Hall).
  split; [done|]. split; [done|]. intros ->.
  destruct (finish_spec (member_ids cl) nw (replication_target cl) (topology cl) Hne Hnd
    (tg_NoDup _ _ Ht) cl' m' ∅ mg (spec_dops spec (ops_of es)).1 w') as [He Hi]; [done|set_solver| |done|].
  { intros b Hbd. apply Hdom, Hall in Hbd as [?|?%elem_of_nil]; done. }
  pose proof (ended_inv _ _ _ cl' _ _ w' He eq_refl Hi) as Hw'.
  destruct (target_stable cl nw (end_migration cl' m') Hs Ht); [|done].
  eapply ended_clients; [|exact He]. congruence.
Qed.

(** Online rebalancing: while the migration runs, any data operations
    interleaved with its chunks, in any order, answer exactly as on a single map
    (reads see the latest write, whether their bucket has moved or not); and
    when the last chunk is done, the commit gives a stable cluster over the new
    membership that holds that map. *)
Theorem online_rebalance cl nw spec w es cl1 m chs :
  stable cl → target cl nw → inv cl spec w →
  begin_migration cl (member_ids cl) nw ∅ = (cl1, m, chs) →
  (∀ o, o ∈ ops_of es → dop_ok (V := V) (St := St) cl o) →
  let '(w', (cl', m', chs', rs)) := run_events cl1 m chs es w in
  rs = (spec_dops spec (ops_of es)).2
  ∧ inv cl' (spec_dops spec (ops_of es)).1 w'
  ∧ (chs' = [] → stable (end_migration cl' m')
       ∧ nodes (partitioner (end_migration cl' m')) = nw
       ∧ inv (end_migration cl' m') (spec_dops spec (ops_of es)).1 w').
Proof. apply online_events. Qed.

(** *** Crash and resume *)

(** Resuming from a journal record, on a cluster whose data is where the record
    says: the one that was interrupted, or a new one over the old membership. *)
Lemma resume_from_record old nw rt topo cl mg spec :
  old ≠ [] → NoDup old → target cl nw → 1 ≤ rt → same_members old nw = false →
  startable old rt topo (with_target cl rt) →
  journal cl = Some (Journal.mkRecord old nw rt (elements mg)) →
  hoare (part_moved old nw rt topo cl mg spec) (resume_migration (V := V) cl) (λ '(cl', s) w',
    stable cl' ∧ nodes (partitioner cl') = nw ∧ inv cl' spec w').
Proof.
  intros Hne Hnd Ht Hrt Hsame Hst Hj. unfold resume_migration, Journal.load.
  rewrite Hj. cbn [Journal.replication Journal.old_nodes Journal.new_nodes Journal.done].
  replace (rt `max` 1) with rt by lia. set (cl0 := with_target cl rt).
  rewrite list_to_set_elements_L.
  apply (hoare_bind _ _ _ (λ '(cl', s) w',
    stable cl' ∧ nodes (partitioner cl') = nw ∧ inv cl' spec w')); cycle 1.
  { intros [cl' s]. by apply hoare_ret. }
  unfold run_migration. rewrite Hsame.
  destruct (begin_migration cl0 old nw mg) as [[cl1 m1] chs] eqn:Hb. eapply hoare_bind.
  { by apply (migrate_to_end old nw rt topo Hne Hnd (tg_NoDup _ _ Ht)
             cl0 mg spec cl1 m1 chs None). }
  intros [[cl' m'] fin] w (Hl & _ & Hfin). destruct fin; [|by destruct Hfin].
  destruct Hfin as [He Hi]. split_and!; [|apply He|by eapply ended_inv].
  by apply (en_stable _ _ _ _ _ He); [intros n Hin; by apply Ht|apply Ht..|].
Qed.

Lemma resume_spec old nw rt topo cl m mg spec :
  old ≠ [] → NoDup old → target cl nw → 1 ≤ rt → same_members old nw = false →
  running old nw rt topo cl m ∅ mg →
  hoare (inv cl spec) (resume_migration (V := V) cl) (λ '(cl', s) w',
    stable cl' ∧ nodes (partitioner cl') = nw ∧ inv cl' spec w').
Proof.
  intros Hne Hnd Ht Hrt Hsame [Hm _ _ _ _ Hj]. eapply hoare_conseq;
    [eapply (resume_from_record old nw rt topo cl mg spec)|
     intros w; by apply mid_part_moved|intros a w Hw; exact Hw]; try done.
  by destruct Hm; split.
Qed.

(** Interrupted, used, resumed. *)
Lemma interrupted_spec cl nw mx spec w os :
  stable cl → target cl nw → inv cl spec w →
  (∀ o, o ∈ os → dop_ok (V := V) (St := St) cl o) →
  let '(w1, (cl1, _)) := rebalance_partial (V := V) cl nw mx w in
  let '(w2, rs) := run_dops cl1 os w1 in
  let '(w3, (cl3, _)) := resume_migration (V := V) cl1 w2 in
  rs = (spec_dops spec os).2
  ∧ stable cl3 ∧ nodes (partitioner cl3) = nw ∧ inv cl3 (spec_dops spec os).1 w3.
Proof.
  intros Hs Ht Hw Hops. destruct (members_ok cl Hs) as [Hne Hnd].
  pose proof (run_migration_spec cl nw (Some mx) spec Hs (tg_NoDup _ _ Ht) w Hw) as Hp. unfold rebalance_partial.
  destruct (run_migration cl (member_ids cl) nw ∅ (Some mx) w) as [w1 [cl1 s1]].
  cbn [fst snd] in Hp. destruct Hp as [Hl Hp].
  assert (Hops1 : ∀ o, o ∈ os → dop_ok (V := V) (St := St) cl1 o).
  { intros o Ho. specialize (Hops o Ho). unfold dop_ok in *. by rewrite Hl. }
  case_decide as Hov.
  - destruct Hp as (He & Hi1). destruct (target_stable cl nw cl1 Hs Ht He) as [Hs1 Hn1].
    pose proof (ended_inv _ _ _ cl cl1 _ w1 He Hl Hi1) as Hw1.
    destruct (run_dops_spec cl1 spec os w1 (stable_cluster_ok _ Hs1) Hops1 Hw1) as [Hrs Hw2].
    destruct (run_dops cl1 os w1) as [w2 rs]. cbn [fst snd] in *.
    unfold resume_migration, Journal.load. rewrite (en_journal _ _ _ _ _ He). by split_and!.
  - destruct Hp as (_ & Hw1 & Hc1 & Hsame & m & mg & Hr).
    assert (Hok1 : cluster_ok cl1).
    { eapply mid_cluster_ok; [..|apply Hr]; [done|done|apply Ht|apply Ht|].
      unfold known. rewrite Hc1. apply Ht. }
    destruct (run_dops_spec cl1 spec os w1 Hok1 Hops1 Hw1) as [Hrs Hw2].
    destruct (run_dops cl1 os w1) as [w2 rs]. cbn [fst snd] in *.
    assert (Ht1 : target cl1 nw) by (destruct Ht; split; [done..|by rewrite Hc1]).
    pose proof (resume_spec _ nw _ _ cl1 m mg (spec_dops spec os).1 Hne Hnd Ht1
      (s_target _ Hs) Hsame Hr w2 Hw2) as Hres.
    by destruct (resume_migration cl1 w2) as [w3 [cl3 s3]].
Qed.

(** C5. Crash recovery, as long as every call to a shard is delivered, from a
    stable cluster to known members, distinct in name and hash and at least one: a
    migration that stops after any number of chunks leaves a journal and a routing
    overlay with which the cluster keeps serving (any operations run in between,
    on managed collections and fitting the store, answer as on a single map of
    values without expiry), and resuming from the journal finishes it: a stable
    cluster over the new membership that holds that map. *)
Theorem crash_resume cl nw mx spec w os :
  stable cl → target cl nw → inv cl spec w →
  (∀ o, o ∈ os → dop_ok (V := V) (St := St) cl o) →
  let '(w1, (cl1, _)) := rebalance_partial (V := V) cl nw mx w in
  let '(w2, rs) := run_dops cl1 os w1 in
  let '(w3, (cl3, _)) := resume_migration (V := V) cl1 w2 in
  rs = (spec_dops spec os).2
  ∧ stable cl3 ∧ nodes (partitioner cl3) = nw ∧ inv cl3 (spec_dops spec os).1 w3.
Proof. apply interrupted_spec. Qed.

(** *** Memberships the coordinator does not know *)

(** A read asks the first owner that has a client. *)
Lemma get_from_first cl vs c k n cli ns w :
  down cl = ∅ → c ∈ colls cl → nodes_show (V := V) cl vs w → clients cl !! n = Some cli →
  (get_from cl c k (n :: ns) w).2 = vs n c k.
Proof.
  intros Hd Hc Hw Hcli. cbn [get_from]. unfold is_down, client_of.
  rewrite bool_decide_eq_false_2 by (rewrite Hd; set_solver). rewrite Hcli.
  destruct (Hw n cli Hcli) as (sh & Hsh & Hs).
  pose proof (query_any cli (λ now s, Shard.object now s c k) w sh Hsh) as Hq.
  unfold mbind, M_bind, Client.object. destruct (Client.query cli _ w) as [w1 r]. cbn [fst snd] in Hq.
  rewrite reliable in Hq. destruct Hq as [_ ->]. by apply (shows_object _ _ _ _ c k Hs Hc).
Qed.

Lemma get_from_known cl vs c k v ns w :
  down cl = ∅ → c ∈ colls cl → nodes_show (V := V) cl vs w → (∀ n, n ∈ ns → vs n c k = v) →
  (get_from cl c k ns w).2
  = if decide (Exists (λ n, is_Some (clients cl !! n)) ns) then v else None.
Proof.
  intros Hd Hc Hw. induction ns as [|n ns IH]; intros Hv; [done|].
  specialize (IH (λ m Hm, Hv m (proj2 (elem_of_cons _ _ _) (or_intror Hm)))).
  destruct (clients cl !! n) as [cli|] eqn:Hcli.
  - rewrite decide_True by (left; by eexists).
    rewrite (get_from_first cl vs c k n cli ns w Hd Hc Hw Hcli). apply Hv. left.
  - cbn [get_from]. unfold is_down, client_of. rewrite bool_decide_eq_false_2 by (rewrite Hd; set_solver).
    rewrite Hcli, IH. apply decide_ext. rewrite Exists_cons, Hcli. split; [by right|].
    intros [[? ?]|?]; done.
Qed.

(** C36. What a rebalance of a stable cluster does with any list of distinct
    names, also when the coordinator has no client for some of them (nothing
    checks the list of [/admin/rebalance], and draining the last member gives an
    empty one), every call to the shards it does know being delivered. It always
    ends with that list as the membership; a key, with a value that does not
    expire, is still read if one of its new owners is known; if none is, every
    read answers absent, and no node the coordinator knew holds the value any
    more: it has been dropped everywhere. *)
Theorem rebalance_any_membership cl nw spec w c k :
  stable cl → NoDup nw → inv cl spec w → c ∈ colls cl →
  let os := Reshard.bucket_owners nw (topology cl) (replication_target cl) (bucket_of k) in
  let '(w', (cl', s)) := rebalance (V := V) cl nw w in
  nodes (partitioner cl') = nw ∧ owners cl' k = os
  ∧ (get cl' c k w').2
    = (if decide (Exists (λ n, is_Some (clients cl !! n)) os) then spec c k else None)
  ∧ ∀ n cli, clients cl !! n = Some cli → n ∉ os →
      ∃ sh, shards w' !! Client.shard_ref cli = Some sh ∧ ∀ now, Shard.object now sh c k = None.
Proof.
  intros Hs Hnd Hw Hc os. pose proof (rebalance_ended cl nw spec Hs Hnd w Hw) as Hr.
  destruct (rebalance cl nw w) as [w' [cl' s]]. cbn [fst snd] in Hr. destruct Hr as (He & Hl & Hh).
  pose proof (en_owners _ _ _ _ _ He k) as Ho. fold os in Ho.
  split; [apply He|]. split; [done|]. split.
  - unfold get. rewrite (get_from_known cl' (agree cl' spec) c k (spec c k)).
    + assert (Hsame : ∀ n, n ∈ os → clients cl' !! n = clients cl !! n).
      { intros n Hn. rewrite (en_clients _ _ _ _ _ He), decide_True; [done|].
        revert Hn. unfold os. rewrite Reshard.bucket_owners_placement. apply placement_subset. }
      rewrite Ho. apply decide_ext. rewrite !Exists_exists.
      by split; intros (n & Hn & Hx); exists n; rewrite ?Hsame in *.
    + apply He.
    + by rewrite Hl.
    + by eapply ended_inv.
    + intros n Hn. unfold agree. by rewrite decide_True.
  - intros n cli Hcli Hn. destruct (Hh n cli Hcli) as (sh & Hsh & Hshow). exists sh.
    split; [done|]. intros now. rewrite (shows_object _ _ _ now c k Hshow Hc). unfold agree.
    by rewrite Ho, decide_False.
Qed.

(** C7. A coordinator that is started again over the membership it started with,
    during or after a change to known members, distinct in name and hash and at
    least one, every call to a shard being delivered before and after. If it finds
    the journal of an interrupted migration, resuming finishes the migration and
    every value without expiry is kept. With the journal the daemon uses, which is
    empty after every start, it routes by the membership of its command line: a
    key is read only if the first of its old owners is an owner still; of the
    others every read answers absent. *)
Theorem coordinator_restart cl nw mx spec w c k :
  stable cl → target cl nw → inv cl spec w → c ∈ colls cl →
  let '(w1, (cl1, _)) := rebalance_partial (V := V) cl nw mx w in
  (get (with_journal cl Journal.new) c k w1).2
    = (p ← head (owners cl k); if decide (p ∈ owners cl1 k) then spec c k else None)
  ∧ (overlay cl1 ≠ None →
     let '(w2, (cl2, _)) := resume_migration (V := V) (with_journal cl (journal cl1)) w1 in
     stable cl2 ∧ nodes (partitioner cl2) = nw ∧ inv cl2 spec w2).
Proof.
  intros Hs Ht Hw Hc. destruct (members_ok cl Hs) as [Hne Hnd].
  pose proof (run_migration_spec cl nw (Some mx) spec Hs (tg_NoDup _ _ Ht) w Hw) as Hp.
  unfold rebalance_partial.
  destruct (run_migration cl (member_ids cl) nw ∅ (Some mx) w) as [w1 [cl1 s1]].
  cbn [fst snd] in Hp. destruct Hp as [Hl Hp].
  assert (Hshow : nodes_show cl (agree cl1 spec) w1).
  { case_decide; [by destruct Hp|]. destruct Hp as (_ & Hw1 & Hc1 & _).
    by apply (nodes_show_clients cl1). }
  split.
  - unfold get. change (owners (with_journal cl Journal.new) k) with (owners cl k).
    pose proof (ok_client _ (stable_cluster_ok _ Hs) k) as Hcl.
    destruct (owners cl k) as [|p ns]; [done|]. destruct (Hcl p) as [cli Hcli]; [left|].
    apply (get_from_first (with_journal cl Journal.new) (agree cl1 spec) c k p cli); [apply Hs|done..].
  - intros Hov. rewrite decide_False in Hp by done.
    destruct Hp as (_ & Hw1 & Hc1 & Hsame & m & mg & [Hm _ _ _ _ Hj]).
    set (cl0 := with_journal cl (journal cl1)).
    assert (Ht0 : target cl0 nw) by (destruct Ht; by split).
    assert (Hst : startable (member_ids cl) (replication_target cl) (topology cl)
                    (with_target cl0 (replication_target cl)))
      by (destruct (stable_startable cl Hs); by split).
    assert (Hpm : part_moved (member_ids cl) nw (replication_target cl) (topology cl) cl0 mg spec w1).
    { apply (nodes_show_clients cl1); [done..|]. by apply mid_part_moved. }
    pose proof (resume_from_record _ nw _ _ cl0 mg spec Hne Hnd Ht0 (s_target _ Hs) Hsame Hst Hj w1 Hpm)
      as Hres.
    by destruct (resume_migration cl0 w1) as [w2 [cl2 s2]].
Qed.

End migration.

(** ** Calls that fail during a migration *)

Section failing.
Context {V St : Type} `{!IndexStore V St, !JsonValue V, !LeaseCodec V, !HashIter, !Env}.
Implicit Types (cl : Cluster.t) (w : world St).

(** A read whose request is lost costs a call and nothing else. *)
Lemma query_lost {R} (c : Client.t) (op : Z → Shard.t St → R) w :
  fault_at (tick w) = Lost →
  ∃ e, Client.query c op w = (mkWorld (shards w) (S (tick w)), Err e).
Proof.
  intros Hf. unfold Client.query, Client.call. destruct (shards w !! Client.shard_ref c); [|by eexists].
  rewrite Hf. by eexists.
Qed.

(** Exports that are lost pass for empty ones: the pair is done, nothing was
    copied, and nothing is reported. *)
Lemma lost_exports_copy_nothing cl copied from to bs w :
  (∀ i, i < length (colls cl) → fault_at (tick w + i) = Lost) →
  ∃ t, copy_pair (V := V) cl copied ((from, to), bs) w = (mkWorld (shards w) t, copied).
Proof.
  intros Hf. unfold copy_pair. destruct (client_of cl from) as [fc|], (client_of cl to) as [tc|];
    try (exists (tick w); by destruct w).
  revert w copied Hf. induction (colls cl) as [|c cs IH]; intros w copied0 Hf;
    [exists (tick w); by destruct w|].
  cbn [forM]. unfold mbind, M_bind, Client.export_entries.
  destruct (query_lost fc (λ now s, Shard.export_entries now s c bs) w) as [e ->].
  { rewrite <-(Nat.add_0_r (tick w)). apply Hf. cbn. lia. }
  cbn [unwrap_or length]. rewrite decide_True by done. rewrite Nat.add_0_r. cbv beta iota.
  apply (IH (mkWorld (shards w) (S (tick w))) copied0).
  intros i Hi. cbn [tick]. rewrite Nat.add_succ_l, <-Nat.add_succ_r. apply Hf. cbn. lia.
Qed.

(** Whatever calls fail, the chunk is cut over to its new owners and recorded as
    done. *)
Lemma chunk_done_anyway cl m ch o w :
  overlay cl = Some o →
  let '(_, (cl', m')) := migrate_chunk (V := V) cl m ch w in
  overlay cl' = Some (mkOverlay (old_p o) (r_old o) (new_p o) (r_new o) (list_to_set ch ∪ migrated o))
  ∧ m_done m' = list_to_set ch ∪ m_done m.
Proof.
  intros Ho. unfold migrate_chunk, mbind, M_bind.
  destruct (forM _ (m_copied m) _ w) as [w1 cp]. destruct (forM _ (m_dropped m) _ w1) as [w2 dr].
  cbn. unfold cut_over. by rewrite Ho.
Qed.

End failing.

End Migration.
