(* ===== verification/Linear.v ===== *)
(** * Linearizability of the cluster during a migration

    Any number of clients and one rebalance, interleaved step by step as in
    [Concurrent].  The proof is in the logic of [Proc]: the ghost state carries
    the abstract map and, per operation, whether it has taken effect; an
    operation takes effect when its first owner answers. *)

From S2P Require Import Prelude Machine Text Partitioner Reshard Store Lease Shard Replica Client.
From S2P Require Import Journal Guard Proc Cluster DataPlane Migration Concurrent.

Module Linear.
Import Partitioner Proc DataPlane Concurrent.

Section linear.
Context {V St : Type} `{!IndexStore V St, !IndexStoreLaws V St, !JsonValue V, !LeaseCodec V}.
Context `{!HashIter, !Env, !Reliable}.

(** ** The atomic object *)

(** The key an operation may change. *)
Definition writes (o : dop (V := V)) : option (string * string) :=
  match o with DGet _ _ => None | _ => Some (dop_key o) end.

(** An operation as a function of the value of its key. *)
Definition cell (o : dop (V := V)) (old : option V) : option V * dres (V := V) :=
  match o with
  | DGet _ _ => (old, RVal old)
  | DPut _ _ v => (Some v, RUnit)
  | DDelete _ _ => (None, RUnit)
  | DCas _ _ e v => ((cell_cas e v old).1, RBool (cell_cas e v old).2)
  | DIncr _ _ d => ((cell_incr d old).1, RInt (cell_incr d old).2)
  | DSetAdd _ _ m => (cell_set_add m old, RUnit)
  | DSetRemove _ _ m => (cell_set_remove m old, RUnit)
  end.

(** The object's state: the map, and the operations in flight with their
    answer once they have taken effect.  A change of the membership is no change
    of the object. *)
Definition object : Type := view V * gmap nat (dop (V := V) * option (dres (V := V))).

Inductive object_step : object → option (event V) → object → Prop :=
  | object_invoke m ops i o :
      ops !! i = None → object_step (m, ops) (Some (Invoke i o)) (m, <[i := (o, None)]> ops)
  | object_effect m ops i o :
      ops !! i = Some (o, None) →
      object_step (m, ops) None
        ((spec_dop m o).1, <[i := (o, Some (spec_dop m o).2)]> ops)
  | object_respond m ops i o r :
      ops !! i = Some (o, Some r) →
      object_step (m, ops) (Some (Respond i r)) (m, delete i ops)
  | object_ask m ops j a : object_step (m, ops) (Some (Ask j a)) (m, ops)
  | object_done m ops j s : object_step (m, ops) (Some (Done j s)) (m, ops).

Lemma spec_dop_cell m o c k :
  dop_key o = (c, k) →
  (spec_dop m o).2 = (cell o (m c k)).2
  ∧ ∀ c' k', (spec_dop m o).1 c' k' = upd m c k (cell o (m c k)).1 c' k'.
Proof.
  destruct o; intros [= -> ->]; (split; [done|]); intros; try done.
  cbn. unfold upd. case_decide; [by simplify_eq|done].
Qed.

(** ** Ghost state *)

Record ghost := mkGhost {
  spec : view V;
  ops : gmap nat (dop (V := V) * option (dres (V := V)));
  (** the bucket each operation is inside *)
  inside : gmap nat nat;
  (** owners that an operation under way has not reached yet, and what they
      still hold *)
  late : string → string → list NodeId;
  prev : view V;
  (** the nodes with a copy of a key *)
  hold : string → string → gset NodeId;
}.

Abbreviation world := (shared St * ghost)%type.

Definition val (g : ghost) : views (V := V) := λ n c k,
  if decide (n ∈ late g c k) then prev g c k
  else if decide (n ∈ hold g c k) then spec g c k else None.

(** How many operations are inside a bucket. *)
Definition count (g : ghost) (b : nat) : nat := size (filter (λ x, x.2 = b) (inside g)).

(** The cluster at the start: its clients are all there will be. *)
Context (cl0 : Cluster.t).

Record Inv (x : world) : Prop := {
  inv_show : nodes_show cl0 (val x.2) (shards x.1);
  inv_ok : cluster_ok (cluster x.1);
  inv_clients : Cluster.clients (cluster x.1) ⊆ Cluster.clients cl0;
  inv_colls : Cluster.colls (cluster x.1) = Cluster.colls cl0;
  inv_count b : default 0 (Guard.in_flight (gates x.1) !! b) = count x.2 b;
  inv_inside i b : inside x.2 !! i = Some b →
    ∃ o r, ops x.2 !! i = Some (o, r) ∧ bucket_of (dop_key o).2 = b;
  inv_late c k : late x.2 c k ≠ [] →
    ∃ i o r, inside x.2 !! i = Some (bucket_of k) ∧ ops x.2 !! i = Some (o, r) ∧ writes o = Some (c, k);
  inv_late_owner c k n : n ∈ late x.2 c k →
    n ∈ Cluster.owners (cluster x.1) k ∧ head (Cluster.owners (cluster x.1) k) ≠ Some n;
  inv_hold k : bucket_of k ∉ Guard.frozen (gates x.1) ∨ (∃ i, inside x.2 !! i = Some (bucket_of k)) →
    ∀ c n, c ∈ Cluster.colls cl0 → n ∈ hold x.2 c k ↔ n ∈ Cluster.owners (cluster x.1) k;
  inv_writers i j o o' r r' ck : ops x.2 !! i = Some (o, r) → ops x.2 !! j = Some (o', r') →
    writes o = Some ck → writes o' = Some ck → i = j;
  inv_ops i o r : ops x.2 !! i = Some (o, r) →
    (dop_key o).1 ∈ Cluster.colls cl0 ∧ dop_fits (St := St) o;
}.

(** The same owners, and the same first one. *)
Definition same_route (k : string) (cl cl' : Cluster.t) : Prop :=
  (∀ n, n ∈ Cluster.owners cl k ↔ n ∈ Cluster.owners cl' k)
  ∧ head (Cluster.owners cl k) = head (Cluster.owners cl' k).

#[export] Instance same_route_preorder k : PreOrder (same_route k).
Proof.
  split; [by intros cl|]. intros cl1 cl2 cl3 [A1 A2] [A3 A4].
  split; [intros n; by rewrite A1, A3|congruence].
Qed.

(** What the others leave alone for operation [i]: its entries of the ghost
    state, the routing of its bucket while it is inside, and the key it writes. *)
Record rely (i : nat) (x y : world) : Prop := {
  rely_ops : ops y.2 !! i = ops x.2 !! i;
  rely_inside : inside y.2 !! i = inside x.2 !! i;
  rely_route k : inside x.2 !! i = Some (bucket_of k) → same_route k (cluster x.1) (cluster y.1);
  rely_key o r c k : ops x.2 !! i = Some (o, r) → writes o = Some (c, k) →
    late y.2 c k = late x.2 c k ∧ prev y.2 c k = prev x.2 c k ∧ spec y.2 c k = spec x.2 c k;
}.

#[export] Instance rely_preorder i : PreOrder (rely i).
Proof.
  split; [intros x; by split|].
  intros x y z [A1 A2 A3 A4] [A5 A6 A7 A8]. split; [congruence|congruence|..].
  - intros k Hk. etrans; [by apply (A3 k)|]. apply (A7 k). congruence.
  - intros o r c k Ho Hw. destruct (A4 o r c k Ho Hw) as (<- & <- & <-).
    apply (A8 o r); [congruence|done].
Qed.

(** What they leave alone for the migration: the cluster, who holds what, the
    frozen buckets; nobody enters those, and once they are empty their data
    stays. *)
Record rely_mig (x y : world) : Prop := {
  mig_cluster : cluster y.1 = cluster x.1;
  mig_hold : hold y.2 = hold x.2;
  mig_frozen : Guard.frozen (gates y.1) = Guard.frozen (gates x.1);
  mig_locked : locked y.1 = locked x.1;
  mig_inside i b : b ∈ Guard.frozen (gates x.1) → inside y.2 !! i = Some b → inside x.2 !! i = Some b;
  mig_spec c k : bucket_of k ∈ Guard.frozen (gates x.1) →
    (∀ i, inside x.2 !! i ≠ Some (bucket_of k)) → spec y.2 c k = spec x.2 c k;
}.

#[export] Instance rely_mig_preorder : PreOrder rely_mig.
Proof.
  split; [intros x; by split|].
  intros x y z [A1 A2 A3 A4 A5 A6] [A7 A8 A9 A10 A11 A12]. split; try congruence.
  - intros i b Hb Hz. apply A5; [done|]. apply A11; [congruence|done].
  - intros c k Hk Hno. rewrite A12; [by apply A6|congruence|].
    intros i Hi. by apply (Hno i), A5.
Qed.

(** An operation takes effect, or the object stays as it is. *)
Definition effect (i : nat) (g g' : ghost) : Prop :=
  (spec g' = spec g ∧ ops g' = ops g)
  ∨ ∃ o, ops g !! i = Some (o, None) ∧ spec g' = (spec_dop (spec g) o).1
      ∧ ops g' = <[i := (o, Some (spec_dop (spec g) o).2)]> (ops g).

Definition guar (i : nat) (x y : world) : Prop :=
  rely_mig x y ∧ (∀ j, j ≠ i → rely j x y) ∧ effect i x.2 y.2.

Definition guar_mig (x y : world) : Prop :=
  (∀ j, rely j x y) ∧ spec y.2 = spec x.2 ∧ ops y.2 = ops x.2.

(** Waiting: an operation for a frozen bucket, outside of any; the migration for
    an operation that is inside one. *)
Definition blocked (i : nat) (x : world) : Prop :=
  inside x.2 !! i = None ∧ Guard.frozen (gates x.1) ≠ ∅.

Definition blocked_mig (x : world) : Prop := ∃ j b, inside x.2 !! j = Some b.

Abbreviation wp_op i := (wp Inv (rely i) (guar i) (blocked i)).
Abbreviation wp_mig := (wp Inv rely_mig guar_mig blocked_mig).

(** ** Reading the state *)

Lemma inv_client x k n :
  Inv x → n ∈ Cluster.owners (cluster x.1) k →
  ∃ c, Cluster.client_of (cluster x.1) n = Some c ∧ Cluster.clients cl0 !! n = Some c.
Proof.
  intros Hx Hn. destruct (ok_client _ (inv_ok _ Hx) k n Hn) as [c Hc]. exists c.
  split; [done|]. by eapply lookup_weaken, inv_clients.
Qed.

Lemma not_down x n : Inv x → Cluster.is_down (cluster x.1) n = false.
Proof. intros Hx. apply nobody_down, Hx. Qed.

Lemma op_bind {A B} i (p : proc (shared St) A) (k : A → proc (shared St) B) Q x :
  wp_op i p (λ a, wp_op i (k a) Q) x → Inv x → wp_op i (p ≫= k) Q x.
Proof. apply (wp_bind Inv (rely i) (guar i) (blocked i)). Qed.

Lemma mig_bind {A B} (p : proc (shared St) A) (k : A → proc (shared St) B) Q x :
  wp_mig p (λ a, wp_mig (k a) Q) x → Inv x → wp_mig (p ≫= k) Q x.
Proof. apply (wp_bind Inv rely_mig guar_mig blocked_mig). Qed.

(** A step that only looks. *)
Lemma wp_peek {A B} i (f : Cluster.t → A) (k : A → proc (shared St) B) Q x :
  (∀ y, rely i x y → Inv y → wp_op i (k (f (cluster y.1))) Q y) → wp_op i (peek f ≫= k) Q x.
Proof.
  intros Hk y Hxy Hy. exists y.2. destruct y as [s g]. split; [done|]. split; [|by apply Hk].
  split; [done|]. split; [done|]. by left.
Qed.

(** ** Steps of an operation *)

(** What operation [i] may do to the ghost state, [r] being its answer by now. *)
Record moved (i : nat) (o : dop (V := V)) (y : world) (g : ghost) (r : option (dres (V := V)))
    : Prop := {
  mv_ops : ops g = <[i := (o, r)]> (ops y.2);
  mv_inside : inside g = inside y.2;
  mv_hold : hold g = hold y.2;
  mv_key c k : writes o ≠ Some (c, k) →
    late g c k = late y.2 c k ∧ prev g c k = prev y.2 c k ∧ spec g c k = spec y.2 c k;
  mv_late c k n : writes o = Some (c, k) → n ∈ late g c k →
    n ∈ Cluster.owners (cluster y.1) k ∧ head (Cluster.owners (cluster y.1) k) ≠ Some n;
}.

(** Operation [i] is under way and inside its bucket. *)
Definition within (i : nat) (o : dop (V := V)) (r : option (dres (V := V))) (y : world) : Prop :=
  ops y.2 !! i = Some (o, r) ∧ inside y.2 !! i = Some (bucket_of (dop_key o).2).

Lemma within_stable i o r y z : rely i y z → within i o r y → within i o r z.
Proof. intros [Ho Hi _ _] [??]. split; congruence. Qed.

Lemma writes_key o c k : writes o = Some (c, k) → dop_key o = (c, k).
Proof. destruct o; cbn; congruence. Qed.

Lemma step_moved_inv i o r r' y g w :
  Inv y → within i o r y → moved i o y g r' → nodes_show cl0 (val g) w →
  Inv (with_shards y.1 w, g).
Proof.
  intros Hy [Ho Hi] [Mo Mi Mh Mk Ml] Hw.
  assert (Hops : ∀ j o' q, ops g !! j = Some (o', q) → ∃ q', ops y.2 !! j = Some (o', q')).
  { intros j o' q. rewrite Mo. destruct (decide (i = j)) as [<-|Hj].
    - rewrite lookup_insert_eq. intros [= <- <-]. by exists r.
    - rewrite lookup_insert_ne by done. by exists q. }
  assert (Hops' : ∀ j o' q, ops y.2 !! j = Some (o', q) → ∃ q', ops g !! j = Some (o', q')).
  { intros j o' q Hj. rewrite Mo. destruct (decide (i = j)) as [<-|Hne].
    - rewrite lookup_insert_eq. assert (o' = o) as -> by congruence. by exists r'.
    - rewrite lookup_insert_ne by done. by exists q. }
  split; cbn [fst snd cluster gates with_shards]; try apply Hy; try done.
  - intros b. unfold count. cbn. rewrite Mi. apply (inv_count _ Hy).
  - intros j b. rewrite Mi. intros Hj. destruct (inv_inside _ Hy j b Hj) as (o' & q & Hq & ?).
    destruct (Hops' _ _ _ Hq) as [q' ?]. by exists o', q'.
  - intros c k Hl. rewrite Mi. destruct (decide (writes o = Some (c, k))) as [Hwr|Hwr].
    + exists i, o, r'. rewrite Mo, lookup_insert_eq, Hi, (writes_key _ _ _ Hwr). done.
    + destruct (Mk c k Hwr) as (Hlk & _). rewrite Hlk in Hl.
      destruct (inv_late _ Hy c k Hl) as (j & o' & q & ? & Hq & ?).
      destruct (Hops' _ _ _ Hq) as [q' ?]. by exists j, o', q'.
  - intros c k n Hn. destruct (decide (writes o = Some (c, k))) as [Hwr|Hwr]; [by apply (Ml c)|].
    destruct (Mk c k Hwr) as (Hlk & _). rewrite Hlk in Hn. by apply (inv_late_owner _ Hy c).
  - intros k. rewrite Mi, Mh. apply (inv_hold _ Hy).
  - intros j j' o1 o2 q1 q2 ck [? H1']%Hops [? H2']%Hops. by apply (inv_writers _ Hy j j' o1 o2 _ _ ck H1' H2').
  - intros j o' q [? Hj]%Hops. by apply (inv_ops _ Hy j o' _ Hj).
Qed.

Lemma step_moved_guar i o r r' y g w :
  Inv y → within i o r y → moved i o y g r' → effect i y.2 g →
  guar i y (with_shards y.1 w, g).
Proof.
  intros Hy [Ho Hi] [Mo Mi Mh Mk Ml] He. split; [|split; [|done]].
  - split; cbn [fst snd]; try done.
    + intros j b _. by rewrite Mi.
    + intros c k Hk Hno. apply Mk. intros Hw%writes_key. apply (Hno i). rewrite Hi, Hw. done.
  - intros j Hj. split; cbn [fst snd].
    + by rewrite Mo, lookup_insert_ne.
    + by rewrite Mi.
    + intros k _. by split.
    + intros o' q c k Hq Hw. apply Mk. intros Hw'. apply Hj.
      by eapply (inv_writers _ Hy j i o' o q r (c, k)).
Qed.

(** A call by operation [i], with the change of the ghost state it makes. *)
Lemma wp_call {A} i o r (m : M St A) Q x :
  within i o r x →
  (∀ y, rely i x y → Inv y → within i o r y → ∃ g r', moved i o y g r' ∧ effect i y.2 g
     ∧ nodes_show cl0 (val g) (m (shards y.1)).1
     ∧ ∀ z, rely i (with_shards y.1 (m (shards y.1)).1, g) z → Inv z → Q (m (shards y.1)).2 z) →
  wp_op i (call m) Q x.
Proof.
  intros Hx Hm. apply wp_atomic. intros y Hxy Hy.
  pose proof (within_stable _ _ _ _ _ Hxy Hx) as Hwy.
  destruct (Hm y Hxy Hy Hwy) as (g & r' & Hmv & He & Hs & HQ). exists g.
  destruct (m (shards y.1)) as [w a]. cbn [fst snd] in *.
  split_and!; [by eapply step_moved_inv|by eapply step_moved_guar|done].
Qed.

(** *** Taking effect *)

Definition put_at {A} (c k : string) (a : A) (f : string → string → A) : string → string → A :=
  λ c' k', if decide ((c, k) = (c', k')) then a else f c' k'.

Lemma put_at_eq {A} c k (a : A) f : put_at c k a f c k = a.
Proof. unfold put_at. by rewrite decide_True. Qed.

Lemma put_at_ne {A} c k (a : A) f c' k' : (c, k) ≠ (c', k') → put_at c k a f c' k' = f c' k'.
Proof. intros. unfold put_at. by rewrite decide_False. Qed.

(** The first owner answers: the operation takes effect, the owners in [l] are
    late. *)
Definition take_effect (i : nat) (o : dop (V := V)) (l : list NodeId) (g : ghost) : ghost :=
  let '(c, k) := dop_key o in
  mkGhost (spec_dop (spec g) o).1 (<[i := (o, Some (spec_dop (spec g) o).2)]> (ops g)) (inside g)
    (match writes o with Some _ => put_at c k l (late g) | None => late g end)
    (match writes o with Some _ => put_at c k (spec g c k) (prev g) | None => prev g end) (hold g).

(** Who may be late: owners other than the first; all of them if the value
    changed. *)
Definition late_ok (y : world) (o : dop (V := V)) (old : option V) (l : list NodeId) : Prop :=
  let os := Cluster.owners (cluster y.1) (dop_key o).2 in
  (∀ n, n ∈ l → n ∈ os ∧ head os ≠ Some n)
  ∧ ((cell o old).1 = old ∨ ∀ n, n ∈ os → head os ≠ Some n → n ∈ l).

Lemma take_effect_moved i o y l :
  late_ok y o (spec y.2 (dop_key o).1 (dop_key o).2) l →
  moved i o y (take_effect i o l y.2) (Some (spec_dop (spec y.2) o).2).
Proof.
  unfold take_effect, late_ok. destruct (dop_key o) as [c k] eqn:Hk. cbn [fst snd]. intros [Hl _].
  assert (Hwr : ∀ c' k', writes o = Some (c', k') → c' = c ∧ k' = k).
  { intros c' k' Hw%writes_key. rewrite Hk in Hw. by simplify_eq. }
  split; cbn [ops inside hold late prev spec]; [done..| |].
  - intros c' k' Hne. destruct (spec_dop_cell (spec y.2) o c k Hk) as [_ Hs]. rewrite Hs.
    destruct (decide ((c, k) = (c', k'))) as [[= <- <-]|Hck].
    + destruct o; cbn in *; try congruence. split_and!; [done..|]. unfold upd. by rewrite decide_True.
    + unfold upd. rewrite decide_False by done. by destruct (writes o); rewrite ?put_at_ne.
  - intros c' k' n Hw. destruct (Hwr _ _ Hw) as [-> ->]. rewrite Hw, put_at_eq. apply Hl.
Qed.

Lemma fupd_upd (vs : views (V := V)) n c k r m c' k' :
  fupd vs n (upd (vs n) c k r) m c' k'
  = if decide (n = m ∧ (c, k) = (c', k')) then r else vs m c' k'.
Proof.
  unfold fupd. destruct (decide (n = m)) as [<-|Hn]; [|by rewrite decide_False by tauto].
  unfold upd. apply decide_ext. tauto.
Qed.

(** Its value on every node after the call to the first owner [n]. *)
Lemma take_effect_val i o y l n m c' k' :
  Inv y → within i o None y →
  (∀ c k, writes o = Some (c, k) → late y.2 c k = []) →
  head (Cluster.owners (cluster y.1) (dop_key o).2) = Some n →
  late_ok y o (spec y.2 (dop_key o).1 (dop_key o).2) l → c' ∈ Cluster.colls cl0 →
  fupd (val y.2) n (upd (val y.2 n) (dop_key o).1 (dop_key o).2
    (cell o (val y.2 n (dop_key o).1 (dop_key o).2)).1) m c' k'
  = val (take_effect i o l y.2) m c' k'.
Proof.
  intros Hy [Ho Hi] Hlate Hn Hl Hc'. unfold take_effect, late_ok in *.
  destruct (dop_key o) as [c k] eqn:Hk. cbn [fst snd] in *. destruct Hl as [Hl1 Hl2].
  pose proof (head_Some_elem_of _ _ Hn) as Hno.
  pose proof (inv_hold _ Hy k (or_intror (ex_intro _ i Hi))) as Hh.
  pose proof (inv_late_owner _ Hy c k) as Hlo.
  destruct (spec_dop_cell (spec y.2) o c k Hk) as [_ Hs].
  rewrite fupd_upd. unfold val at 3. cbn [late prev hold spec]. rewrite Hs. unfold upd.
  destruct (decide ((c, k) = (c', k'))) as [[= <- <-]|Hck]; cycle 1.
  { rewrite decide_False by tauto. by destruct (writes o); rewrite ?put_at_ne by done. }
  assert (val y.2 n c k = spec y.2 c k) as Hval.
  { unfold val. rewrite decide_False by naive_solver. by rewrite decide_True by (by apply Hh). }
  rewrite Hval. destruct (writes o) as [[? ?]|] eqn:Hw.
  - assert (late y.2 c k = []) as Hnil.
    { apply Hlate. apply writes_key in Hw as Hw'. congruence. }
    rewrite !put_at_eq. destruct (decide (n = m)) as [->|Hnm].
    + rewrite decide_True, decide_False by naive_solver. by rewrite decide_True by (by apply Hh).
    + rewrite decide_False by tauto. unfold val.
      rewrite Hnil, (decide_False (P := m ∈ [])) by apply not_elem_of_nil.
      destruct (decide (m ∈ l)) as [Hml|Hml].
      * rewrite decide_True; [done|]. by apply Hh, Hl1.
      * case_decide as Hmh; [|done]. apply Hh in Hmh; [|done].
        destruct Hl2 as [->|Hl2]; [done|]. destruct Hml. apply Hl2; [done|]. congruence.
  - destruct o; try done. cbn [cell fst]. case_decide as Hnm; [|done].
    destruct Hnm as [<- _]. by rewrite <-Hval at 1.
Qed.

Hypothesis Hrefs : refs_inj cl0.

(** The owners of its key as the operation read them. *)
Definition routed (o : dop (V := V)) (ns : list NodeId) (y : world) : Prop :=
  let os := Cluster.owners (cluster y.1) (dop_key o).2 in
  head os = head ns ∧ ∀ n, n ∈ os ↔ n ∈ ns.

Lemma routed_stable i o r ns y z : rely i y z → within i o r y → routed o ns y → routed o ns z.
Proof.
  intros Hyz [_ Hi] [Hh Hm]. destruct (rely_route _ _ _ Hyz (dop_key o).2 Hi) as [Hm' Hh'].
  split; [congruence|]. intros n. by rewrite <-Hm'.
Qed.

(** What operation [i] owns while it writes. *)
Definition wrote (o : dop (V := V)) (old : option V) (l : list NodeId) (y : world) : Prop :=
  ∀ c k, writes o = Some (c, k) →
    (∀ n, n ∈ late y.2 c k ↔ n ∈ l) ∧ prev y.2 c k = old ∧ spec y.2 c k = (cell o old).1.

Lemma wrote_stable i o r old l y z : rely i y z → within i o r y → wrote o old l y → wrote o old l z.
Proof.
  intros Hyz [Ho _] Hw c k Hk. destruct (Hw c k Hk) as (Hl & Hp & Hs).
  destruct (rely_key _ _ _ Hyz o r c k Ho Hk) as (-> & -> & ->). done.
Qed.

Definition untouched (o : dop (V := V)) (y : world) : Prop :=
  ∀ c k, writes o = Some (c, k) → late y.2 c k = [].

Lemma untouched_stable i o r y z : rely i y z → within i o r y → untouched o y → untouched o z.
Proof.
  intros Hyz [Ho _] Hw c k Hk. destruct (rely_key _ _ _ Hyz o r c k Ho Hk) as (-> & _ & _). by apply Hw.
Qed.

(** The call to the first owner. *)
Lemma wp_first {R} i o n ns cli (op : Z → Shard.t St → Shard.t St * R) (l : option V → list NodeId)
    (P : option V → R → Prop) x :
  within i o None x → routed o (n :: ns) x → NoDup (n :: ns) → untouched o x →
  Cluster.clients cl0 !! n = Some cli →
  (∀ old, l old = ns ∨ l old = [] ∧ (cell o old).1 = old) →
  (∀ now sh m, shows (Cluster.colls cl0) sh m →
     let '(c, k) := dop_key o in
     c ∈ Cluster.colls cl0 → dop_fits (St := St) o →
     shows (Cluster.colls cl0) (op now sh).1 (upd m c k (cell o (m c k)).1)
     ∧ P (m c k) (op now sh).2) →
  wp_op i (call (Client.call cli op)) (λ a z, ∃ old b, a = Ok b ∧ P old b
    ∧ within i o (Some (cell o old).2) z ∧ routed o (n :: ns) z ∧ wrote o old (l old) z) x.
Proof.
  intros Hx Hr Hnd Hu Hcli Hl Hop. apply (wp_call i o None); [done|].
  intros y Hxy Hy Hwy. apply (routed_stable _ _ _ _ _ _ Hxy Hx) in Hr.
  apply (untouched_stable _ _ _ _ _ Hxy Hx) in Hu. clear x Hxy Hx.
  destruct (inv_ops _ Hy _ _ _ (proj1 Hwy)) as [Hc Hk].
  set (old := spec y.2 (dop_key o).1 (dop_key o).2).
  assert (Hlate : late_ok y o old (l old)).
  { destruct Hr as [Hh Hm]. apply NoDup_cons in Hnd as [Hn _]. unfold late_ok.
    destruct (Hl old) as [->|[-> Hsame]]; (split; [|tauto || right]).
    - intros m Hmn. rewrite Hh, Hm. split; [by right|]. cbn. congruence.
    - intros m. rewrite Hh, Hm, elem_of_cons. cbn. intros [->|]; congruence.
    - by intros m ?%elem_of_nil. }
  exists (take_effect i o (l old) y.2), (Some (spec_dop (spec y.2) o).2).
  assert (Hmv := take_effect_moved i o y (l old) Hlate).
  destruct (call_spec cl0 (val y.2) n cli op (upd (val y.2 n) (dop_key o).1 (dop_key o).2
    (cell o (val y.2 n (dop_key o).1 (dop_key o).2)).1)
    (P (val y.2 n (dop_key o).1 (dop_key o).2)) Hrefs Hcli) with (w := shards y.1)
    as [(b & Hb & HP) Hshow].
  { intros now sh Hs. specialize (Hop now sh _ Hs). destruct (dop_key o) as [c k]. by apply Hop. }
  { apply Hy. }
  assert (Hval : val y.2 n (dop_key o).1 (dop_key o).2 = old).
  { destruct Hwy as [_ Hi]. pose proof (inv_hold _ Hy _ (or_intror (ex_intro _ i Hi)) _ n Hc) as Hh.
    destruct Hr as [Hhd _]. unfold val. rewrite decide_False, decide_True; [done| |].
    - apply Hh. apply head_Some_elem_of. by rewrite Hhd.
    - intros [_ Hlo]%(inv_late_owner _ Hy). by rewrite Hhd in Hlo. }
  split; [done|]. split.
  { right. exists o. split; [apply Hwy|]. unfold take_effect. by destruct (dop_key o). }
  split.
  { eapply nodes_show_ext; [|exact Hshow]. intros m c' k' _ Hc'.
    eapply take_effect_val; try done. by destruct Hr as [-> _]. }
  set (y' := (with_shards y.1 _, _)). intros z Hz Hzi. exists old, b.
  rewrite Hval in HP. split; [done|]. split; [done|].
  assert (Hwy' : within i o (Some (cell o old).2) y').
  { split; cbn [y' snd]; [|by rewrite (mv_inside _ _ _ _ _ Hmv); apply Hwy].
    rewrite (mv_ops _ _ _ _ _ Hmv), lookup_insert_eq. repeat f_equal. unfold old.
    destruct (dop_key o) as [c k] eqn:Hd. by destruct (spec_dop_cell (spec y.2) o c k Hd) as [-> _]. }
  split; [by eapply within_stable|]. split; [by eapply (routed_stable _ _ _ _ y')|].
  eapply (wrote_stable _ _ _ _ _ y'); [done..|]. intros c k Hw. cbn [y' snd]. unfold take_effect, old.
  pose proof (writes_key _ _ _ Hw) as Hd. rewrite Hd, Hw. cbn [late prev spec fst snd].
  rewrite !put_at_eq. split; [done|]. split; [done|].
  destruct (spec_dop_cell (spec y.2) o c k Hd) as [_ ->]. unfold upd. by rewrite decide_True.
Qed.

(** A call to an owner that is late: it catches up. *)
Definition catch_up (c k : string) (n : NodeId) (g : ghost) : ghost :=
  mkGhost (spec g) (ops g) (inside g) (put_at c k (filter (.≠ n) (late g c k)) (late g)) (prev g)
    (hold g).

Lemma wp_late {R} i o r ns n cli (op : Z → Shard.t St → Shard.t St * R) old l c k x :
  within i o (Some r) x → routed o ns x → wrote o old l x → writes o = Some (c, k) → n ∈ l →
  Cluster.clients cl0 !! n = Some cli →
  (∀ now sh m, shows (Cluster.colls cl0) sh m → m c k = old → c ∈ Cluster.colls cl0 →
     dop_fits (St := St) o →
     shows (Cluster.colls cl0) (op now sh).1 (upd m c k (cell o old).1)) →
  wp_op i (call (Client.call cli op)) (λ _ z,
    within i o (Some r) z ∧ routed o ns z ∧ wrote o old (filter (.≠ n) l) z) x.
Proof.
  intros Hx Hr Hwr Hw Hn Hcli Hop. apply (wp_call i o (Some r)); [done|].
  intros y Hxy Hy Hwy. apply (routed_stable _ _ _ _ _ _ Hxy Hx) in Hr.
  apply (wrote_stable _ _ _ _ _ _ _ Hxy Hx) in Hwr. clear x Hxy Hx.
  destruct (inv_ops _ Hy _ _ _ (proj1 Hwy)) as [Hc Hk]. pose proof (writes_key _ _ _ Hw) as Hd.
  rewrite Hd in Hc. cbn [fst snd] in Hc. destruct (Hwr c k Hw) as (Hl & Hp & Hs).
  assert (Hin : n ∈ late y.2 c k) by by apply Hl.
  assert (Hval : val y.2 n c k = old) by (unfold val; by rewrite decide_True).
  destruct (call_spec cl0 (val y.2) n cli op (upd (val y.2 n) c k (cell o old).1) (λ _, True) Hrefs Hcli)
    with (w := shards y.1) as [_ Hshow].
  { intros now sh Hsh. split; [|done]. by apply Hop. }
  { apply Hy. }
  set (g := catch_up c k n y.2). set (y' := (with_shards y.1 (Client.call cli op (shards y.1)).1, g)).
  assert (Hmv : moved i o y g (Some r)).
  { split; cbn; [by rewrite insert_id by apply Hwy|done|done| |].
    - intros c' k' Hne. rewrite put_at_ne by congruence. done.
    - intros c' k' m Hw'. assert ((c', k') = (c, k)) as [= -> ->] by congruence.
      rewrite put_at_eq. intros [_ Hm]%list_elem_of_filter. by apply (inv_late_owner _ Hy c). }
  exists g, (Some r). split; [done|]. split; [by left|]. split.
  { eapply nodes_show_ext; [|exact Hshow]. intros m c' k' _ Hc'. rewrite fupd_upd.
    unfold val at 2. cbn [g catch_up late prev hold spec].
    destruct (decide ((c, k) = (c', k'))) as [[= <- <-]|Hck].
    - rewrite put_at_eq. destruct (decide (n = m)) as [<-|Hnm].
      + rewrite decide_True by done. rewrite decide_False by (intros [? _]%list_elem_of_filter; done).
        rewrite decide_True; [done|]. destruct Hwy as [_ Hi]. rewrite Hd in Hi.
        apply (inv_hold _ Hy k (or_intror (ex_intro _ i Hi))); [done|].
        by apply (inv_late_owner _ Hy c).
      + rewrite decide_False by tauto. unfold val.
        rewrite (decide_ext (m ∈ filter (.≠ n) (late y.2 c k)) (m ∈ late y.2 c k)); [done|].
        rewrite list_elem_of_filter. naive_solver.
    - rewrite decide_False by tauto. by rewrite put_at_ne. }
  intros z Hz Hzi. assert (Hwy' : within i o (Some r) y') by done.
  split; [by eapply within_stable|]. split; [by eapply (routed_stable _ _ _ _ y')|].
  eapply (wrote_stable _ _ _ _ _ y'); [done..|]. intros c' k' Hw'.
  assert ((c', k') = (c, k)) as [= -> ->] by congruence. cbn [y' g snd catch_up late prev spec].
  rewrite put_at_eq. split; [|done]. intros m. by rewrite !list_elem_of_filter, Hl.
Qed.

Lemma wrote_ext o old l l' y : (∀ n, n ∈ l ↔ n ∈ l') → wrote o old l y → wrote o old l' y.
Proof. intros Hl Hw c k Hk. destruct (Hw c k Hk) as (Hn & ?). split; [|done]. intros n. by rewrite Hn. Qed.

Lemma routed_client o ns n y :
  Inv y → routed o ns y → n ∈ ns →
  ∃ c, Cluster.client_of (cluster y.1) n = Some c ∧ Cluster.clients cl0 !! n = Some c.
Proof. intros Hy [_ Hm] Hn. eapply inv_client; [done|]. by apply Hm. Qed.

(** An operation between two calls, its answer known, the owners [l] late. *)
Definition writing i o r ns old l (y : world) : Prop :=
  within i o (Some r) y ∧ routed o ns y ∧ wrote o old l y.

Lemma writing_stable i o r ns old l y z : rely i y z → writing i o r ns old l y → writing i o r ns old l z.
Proof.
  intros Hyz (Hw & Hr & Ho). split; [by eapply within_stable|].
  split; [by eapply routed_stable|by eapply wrote_stable].
Qed.

(** [op] on a late owner. *)
Lemma wp_visit {R} i o r ns old l n (op : Z → Shard.t St → Shard.t St * R) c k x :
  writing i o r ns old l x → writes o = Some (c, k) → n ∈ l → n ∈ ns → Inv x →
  (∀ now sh m, shows (Cluster.colls cl0) sh m → m c k = old → c ∈ Cluster.colls cl0 →
     dop_fits (St := St) o →
     shows (Cluster.colls cl0) (op now sh).1 (upd m c k (cell o old).1)) →
  wp_op i (visit (λ c, Client.call c op) n) (λ _, writing i o r ns old (filter (.≠ n) l)) x.
Proof.
  intros Hx Hw Hl Hn Hi Hop. apply wp_peek. intros y Hxy Hy.
  apply (writing_stable _ _ _ _ _ _ _ _ Hxy) in Hx as (Hwi & Hr & Hwr).
  destruct (routed_client _ _ _ _ Hy Hr Hn) as (cli & -> & Hcli).
  apply op_bind; [|done]. eapply wp_mono; [|by apply (wp_late i o r ns n cli op old l c k)].
  intros a z Hz. apply wp_ret. intros z' Hzz _. by eapply writing_stable.
Qed.

(** The remaining owners, one after the other. *)
Lemma wp_rest i o r ns old rest c k (body : unit → NodeId → proc (shared St) unit) x :
  writing i o r ns old rest x → writes o = Some (c, k) → NoDup rest → Inv x →
  (∀ n l y, n ∈ rest → n ∈ l → Inv y → writing i o r ns old l y →
     wp_op i (body tt n) (λ _, writing i o r ns old (filter (.≠ n) l)) y) →
  wp_op i (loop rest tt body) (λ _ z, within i o (Some r) z ∧ untouched o z) x.
Proof.
  intros Hx Hw Hnd Hi Hb.
  eapply wp_mono; [|apply (wp_loop Inv (rely i) (guar i) (blocked i) rest tt body
    (λ pre _, writing i o r ns old (filter (.∉ pre) rest)))]; [| | | |done].
  - intros _ z (Hwi & _ & Hwr). split; [done|]. intros c' k' Hk'.
    destruct (Hwr c' k' Hk') as [Hl _]. apply elem_of_nil_inv. intros n. rewrite Hl.
    rewrite list_elem_of_filter. tauto.
  - intros pre n post [] y Hxs (Hwi & Hr & Hwr) Hy.
    assert (n ∉ pre) as Hnp.
    { rewrite Hxs in Hnd. apply NoDup_app in Hnd as (_ & Hd & _). intros Hp. apply (Hd n Hp). left. }
    assert (n ∈ rest) as Hnr by (rewrite Hxs; set_solver).
    eapply wp_mono; [|apply (Hb n (filter (.∉ pre) rest) y)]; [|done|by apply list_elem_of_filter|done|done].
    intros _ z (? & ? & Hz). split; [done|]. split; [done|]. eapply wrote_ext; [|exact Hz].
    intros m. rewrite !list_elem_of_filter, elem_of_app, list_elem_of_singleton. tauto.
  - intros [] y z Hy Hyz _. by eapply writing_stable.
  - destruct Hx as (? & ? & Hwr). split; [done|]. split; [done|]. eapply wrote_ext; [|exact Hwr].
    intros n. rewrite list_elem_of_filter. split; [|tauto]. intros. split; [apply not_elem_of_nil|done].
Qed.

(** *** Through the gate *)

(** An operation under way, outside. *)
Definition outside (i : nat) (o : dop (V := V)) (r : option (dres (V := V))) (y : world) : Prop :=
  ops y.2 !! i = Some (o, r) ∧ inside y.2 !! i = None.

Lemma outside_stable i o r y z : rely i y z → outside i o r y → outside i o r z.
Proof. intros [Ho Hi _ _] [??]. split; congruence. Qed.

Definition put_inside (g : ghost) (m : gmap nat nat) : ghost :=
  mkGhost (spec g) (ops g) m (late g) (prev g) (hold g).

Lemma count_enter g i b b' :
  inside g !! i = None →
  count (put_inside g (<[i := b]> (inside g))) b' = (if decide (b = b') then 1 else 0) + count g b'.
Proof.
  intros Hi. unfold count. cbn [inside put_inside]. rewrite map_filter_insert. cbn [snd].
  case_decide as Hb.
  - rewrite map_size_insert_None; [done|]. apply map_lookup_filter_None. left. done.
  - by rewrite delete_id.
Qed.

Lemma count_leave g i b b' :
  inside g !! i = Some b →
  count g b' = (if decide (b = b') then 1 else 0) + count (put_inside g (delete i (inside g))) b'.
Proof.
  intros Hi. set (g' := put_inside g (delete i (inside g))).
  rewrite <-(count_enter g' i b b') by (cbn; apply lookup_delete_eq). unfold count. cbn.
  by rewrite insert_delete_id.
Qed.

Lemma gate_counts (x : world) b i : Inv x → inside x.2 !! i = Some b →
  ∃ n, Guard.in_flight (gates x.1) !! b = Some (S n) ∧ count x.2 b = S n.
Proof.
  intros Hx Hi. pose proof (inv_count _ Hx b) as Hc. rewrite (count_leave _ i b b Hi) in Hc |- *.
  rewrite decide_True in Hc |- * by done.
  destruct (Guard.in_flight (gates x.1) !! b) as [[|n]|]; cbn in Hc; [lia| |lia].
  exists n. split; [done|]. lia.
Qed.

Lemma enter_step i o y g :
  Inv y → outside i o None y → Guard.try_enter (gates y.1) (bucket_of (dop_key o).2) = Some g →
  let y' := (with_gates y.1 g, put_inside y.2 (<[i := bucket_of (dop_key o).2]> (inside y.2))) in
  Inv y' ∧ guar i y y' ∧ within i o None y' ∧ untouched o y'.
Proof.
  intros Hy [Ho Hi] Hg y'. unfold Guard.try_enter in Hg. case_decide as Hf; [done|]. injection Hg as <-.
  set (b := bucket_of (dop_key o).2) in *.
  assert (Hin : ∀ j b', inside y.2 !! j = Some b' → inside y'.2 !! j = Some b').
  { intros j b' Hj. cbn. rewrite lookup_insert_ne; [done|]. intros ->. congruence. }
  assert (Hunt : untouched o y').
  { intros c k Hw. cbn. apply dec_stable. intros Hl.
    destruct (inv_late _ Hy c k Hl) as (j & o' & r & Hj & Ho' & Hw').
    assert (j = i) as -> by by eapply (inv_writers _ Hy j i o' o). congruence. }
  split; [|split; [|split; [|done]]].
  - split; cbn [y' fst snd cluster gates shards with_gates Guard.in_flight Guard.frozen]; try apply Hy.
    + intros b'. rewrite count_enter, <-(inv_count _ Hy) by done.
      destruct (decide (b = b')) as [->|Hb]; [by rewrite lookup_insert_eq|by rewrite lookup_insert_ne].
    + intros j b'. cbn. destruct (decide (i = j)) as [<-|Hj].
      * rewrite lookup_insert_eq. intros [= <-]. by exists o, None.
      * rewrite lookup_insert_ne by done. apply (inv_inside _ Hy).
    + intros c k Hl. destruct (inv_late _ Hy c k Hl) as (j & o' & r & Hj & ?).
      exists j, o', r. split; [by apply Hin|done].
    + intros k Hk. apply (inv_hold _ Hy). destruct Hk as [|[j Hj]]; [by left|].
      cbn in Hj. destruct (decide (i = j)) as [<-|Hne].
      * rewrite lookup_insert_eq in Hj. left. congruence.
      * rewrite lookup_insert_ne in Hj by done. right. by exists j.
  - split; [|split; [|by left]].
    + split; cbn; try done. intros j b' Hb'. destruct (decide (i = j)) as [<-|Hne].
      * rewrite lookup_insert_eq. intros [= <-]. done.
      * by rewrite lookup_insert_ne.
    + intros j Hj. split; cbn; try done. by rewrite lookup_insert_ne.
  - split; cbn; [done|]. by rewrite lookup_insert_eq.
Qed.

Lemma leave_step i o r y :
  Inv y → within i o r y → untouched o y →
  let y' := (with_gates y.1 (Guard.leave (gates y.1) (bucket_of (dop_key o).2)),
             put_inside y.2 (delete i (inside y.2))) in
  Inv y' ∧ guar i y y' ∧ outside i o r y'.
Proof.
  intros Hy [Ho Hi] Hunt y'. set (b := bucket_of (dop_key o).2) in *.
  destruct (gate_counts y b i Hy Hi) as (n & Hn & _).
  assert (Hfr : Guard.frozen (Guard.leave (gates y.1) b) = Guard.frozen (gates y.1)).
  { unfold Guard.leave. by rewrite Hn. }
  assert (Hin : ∀ j b', inside y'.2 !! j = Some b' → inside y.2 !! j = Some b').
  { intros j b'. cbn. rewrite lookup_delete_Some. tauto. }
  split; [|split].
  - split; cbn [y' fst snd cluster gates shards with_gates]; rewrite ?Hfr; try apply Hy.
    + intros b'. pose proof (inv_count _ Hy b') as Hc. rewrite (count_leave _ i b b' Hi) in Hc.
      unfold Guard.leave. rewrite Hn. cbn [Guard.in_flight]. rewrite Nat.sub_succ, Nat.sub_0_r.
      destruct (decide (b = b')) as [<-|Hb].
      * rewrite Hn in Hc. cbn in Hc. case_decide; [rewrite lookup_delete_eq|rewrite lookup_insert_eq]; cbn; lia.
      * case_decide; [rewrite lookup_delete_ne by done|rewrite lookup_insert_ne by done]; done.
    + intros j b' Hj. by apply (inv_inside _ Hy), Hin.
    + intros c k Hl. cbn in Hl. destruct (inv_late _ Hy c k Hl) as (j & o' & q & Hj & Hoj & Hw).
      exists j, o', q. split; [|done]. cbn. rewrite lookup_delete_ne; [done|]. intros <-.
      apply Hl, Hunt. by simplify_eq.
    + intros k Hk. apply (inv_hold _ Hy). destruct Hk as [|[j Hj]]; [by left|]. right. exists j.
      by apply Hin.
  - split; [|split; [|by left]].
    + split; cbn [y' fst snd with_gates gates cluster locked]; try done. intros j b' _. apply Hin.
    + intros j Hj. split; cbn; try done. by rewrite lookup_delete_ne.
  - split; cbn; [done|]. apply lookup_delete_eq.
Qed.

Lemma wp_gated {A} i o k (body : proc (shared St) A) (res : A → dres (V := V)) x :
  (dop_key o).2 = k → outside i o None x → Inv x →
  (∀ y, Inv y → within i o None y → untouched o y →
     wp_op i body (λ a z, within i o (Some (res a)) z ∧ untouched o z) y) →
  wp_op i (gated k body) (λ a, outside i o (Some (res a))) x.
Proof.
  intros <- Hx Hi Hb. apply op_bind; [|done]. intros y Hxy Hy.
  apply (outside_stable _ _ _ _ _ Hxy) in Hx.
  destruct (Guard.try_enter (gates y.1) (bucket_of (dop_key o).2)) as [g|] eqn:Hg; cycle 1.
  { split; [apply Hx|]. unfold Guard.try_enter in Hg. case_decide; [set_solver|done]. }
  destruct (enter_step i o y g Hy Hx Hg) as (Hy' & Hgu & Hwi & Hun).
  eexists. split; [exact Hy'|]. split; [done|]. intros z Hz Hzi.
  apply (untouched_stable _ _ _ _ _ Hz Hwi) in Hun. apply (within_stable _ _ _ _ _ Hz) in Hwi.
  apply op_bind; [|done]. eapply wp_mono; [|by apply Hb]. clear x Hi Hxy y Hx Hy g Hg Hy' Hgu z Hz Hzi Hwi Hun.
  intros a x [Hwi Hun]. intros y Hxy Hy.
  apply (untouched_stable _ _ _ _ _ Hxy Hwi) in Hun. apply (within_stable _ _ _ _ _ Hxy) in Hwi.
  destruct (leave_step i o _ y Hy Hwi Hun) as (Hy' & Hgu & Ho).
  eexists. split; [exact Hy'|]. split; [done|]. intros z Hz _. by eapply outside_stable.
Qed.

(** ** The operations *)

(** Operation [i] knows the owners of its key, and has not done anything yet. *)
Definition ready i o n rest (y : world) : Prop :=
  within i o None y ∧ untouched o y ∧ routed o (n :: rest) y ∧ NoDup (n :: rest).

Lemma ready_stable i o n rest y z : rely i y z → ready i o n rest y → ready i o n rest z.
Proof.
  intros Hyz (Hw & Hu & Hr & Hnd). split; [by eapply within_stable|].
  split; [by eapply untouched_stable|]. split; [by eapply routed_stable|done].
Qed.

Lemma wp_owners {A} i o k (f : list NodeId → proc (shared St) A) Q x :
  (dop_key o).2 = k → within i o None x → untouched o x →
  (∀ n rest y, Inv y → ready i o n rest y → wp_op i (f (n :: rest)) Q y) →
  wp_op i (peek (λ cl, Cluster.owners cl k) ≫= f) Q x.
Proof.
  intros <- Hw Hu Hf. apply wp_peek. intros y Hxy Hy.
  apply (untouched_stable _ _ _ _ _ Hxy Hw) in Hu. apply (within_stable _ _ _ _ _ Hxy) in Hw.
  pose proof (ok_NoDup _ (inv_ok _ Hy) (dop_key o).2) as Hnd.
  destruct (Cluster.owners (cluster y.1) (dop_key o).2) as [|n rest] eqn:Ho;
    [by destruct (ok_owner _ (inv_ok _ Hy) (dop_key o).2)|].
  apply Hf; [done|]. split; [done|]. split; [done|]. split; [|done]. unfold routed. by rewrite Ho.
Qed.

Lemma ready_client i o n rest y m :
  Inv y → ready i o n rest y → m ∈ n :: rest →
  ∃ c, Cluster.client_of (cluster y.1) m = Some c ∧ Cluster.clients cl0 !! m = Some c.
Proof. intros Hy (_ & _ & Hr & _) Hm. by eapply routed_client. Qed.

(** Nobody is down. *)
Lemma wp_up {A} i n (f : bool → proc (shared St) A) Q x :
  (∀ y, rely i x y → Inv y → wp_op i (f false) Q y) →
  wp_op i (peek (λ cl, Cluster.is_down cl n) ≫= f) Q x.
Proof. intros Hf. apply wp_peek. intros y Hxy Hy. rewrite not_down by done. by apply Hf. Qed.

(** What a shard operation has to do on a single replica. *)
Definition on_replica {R} (op : Z → Shard.t St → Shard.t St * R) (o : dop (V := V))
    (P : option V → R → Prop) : Prop :=
  ∀ now sh m, shows (Cluster.colls cl0) sh m →
    let '(c, k) := dop_key o in
    c ∈ Cluster.colls cl0 → dop_fits (St := St) o →
    shows (Cluster.colls cl0) (op now sh).1 (upd m c k (cell o (m c k)).1) ∧ P (m c k) (op now sh).2.

Lemma wp_broadcast {R} i o c k (op : Z → Shard.t St → Shard.t St * R) x :
  writes o = Some (c, k) → (∀ old, (cell o old).2 = RUnit) → on_replica op o (λ _ _, True) →
  outside i o None x → Inv x →
  wp_op i (broadcast k (λ c, Client.call c op)) (λ _, outside i o (Some RUnit)) x.
Proof.
  intros Hw Hu Hop Hx Hi. pose proof (writes_key _ _ _ Hw) as Hk.
  apply (wp_gated i o k _ (λ _, RUnit)); [by rewrite Hk|done..|]. clear x Hx Hi.
  intros x Hi Hx Hun. apply (wp_owners i o); [by rewrite Hk|done..|]. clear x Hi Hx Hun.
  intros n rest x Hi Hx. cbn [loop]. apply op_bind; [|done].
  apply wp_up. intros y Hxy Hy. apply (ready_stable _ _ _ _ _ _ Hxy) in Hx. clear x Hxy Hi.
  apply wp_peek. intros x Hyx Hi. apply (ready_stable _ _ _ _ _ _ Hyx) in Hx. clear y Hyx Hy.
  destruct (ready_client _ _ _ _ _ n Hi Hx) as (cli & -> & Hcli); [left|].
  destruct Hx as (Hwi & Hun & Hr & Hnd). apply op_bind; [|done].
  eapply wp_mono; [|apply (wp_first i o n rest cli op (λ _, rest) (λ _ _, True)); try done; by left].
  intros a y (old & b & -> & _ & Hy). rewrite Hu in Hy. apply wp_ret. intros z Hyz Hz.
  eapply writing_stable in Hy; [|done]. clear y Hyz. apply NoDup_cons in Hnd as [_ Hnd].
  eapply (wp_rest i o RUnit (n :: rest) old rest c k); [done..|].
  intros m l y Hm Hl Hy' Hwr. apply wp_up. intros y' Hyy' Hi'.
  apply (writing_stable _ _ _ _ _ _ _ _ Hyy') in Hwr.
  eapply (wp_visit i o RUnit (n :: rest) old l m op c k); [done..|by right|done|].
  intros now sh v Hv <- ? ?. specialize (Hop now sh v Hv). rewrite Hk in Hop. by apply Hop.
Qed.

Lemma wp_get i c k x :
  outside i (DGet c k) None x → Inv x →
  wp_op i (get c k) (λ r, outside i (DGet c k) (Some (RVal r))) x.
Proof.
  intros Hx Hi. set (o := DGet c k) in *.
  apply (wp_gated i o k _ RVal); [done..|]. clear x Hx Hi.
  intros x Hi Hx Hun. apply (wp_owners i o); [done..|]. clear x Hi Hx Hun.
  intros n rest x Hi Hx. cbn [get_from].
  apply wp_up. intros y Hxy Hy. apply (ready_stable _ _ _ _ _ _ Hxy) in Hx. clear x Hxy Hi.
  apply wp_peek. intros x Hyx Hi. apply (ready_stable _ _ _ _ _ _ Hyx) in Hx. clear y Hyx Hy.
  destruct (ready_client _ _ _ _ _ n Hi Hx) as (cli & -> & Hcli); [left|].
  destruct Hx as (Hwi & Hun & Hr & Hnd). apply op_bind; [|done].
  eapply wp_mono; [|apply (wp_first i o n rest cli
    (λ now sh, (sh, Shard.object now sh c k)) (λ _, []) (λ old r, r = old)); try done].
  - intros a y (old & b & -> & -> & Hy & _). apply wp_ret. intros z Hyz Hz.
    apply (within_stable _ _ _ _ _ Hyz) in Hy. by split.
  - intros old. by right.
  - intros now sh m Hs Hc _. split; [|by apply (shows_object (Cluster.colls cl0))].
    change (cell o (m c k)).1 with (m c k). by apply shows_same.
Qed.

(** The owners that are up: all of them. *)
Lemma wp_live i o k x :
  (dop_key o).2 = k → within i o None x → untouched o x →
  wp_op i (live_owners k) (λ live y, ∃ n rest, live = n :: rest ∧ ready i o n rest y) x.
Proof.
  intros Hk Hw Hu. apply (wp_owners i o); [done..|]. clear x Hw Hu. intros n rest x Hi Hx.
  eapply wp_mono; [|apply (wp_loop Inv (rely i) (guar i) (blocked i) (n :: rest) [] _
    (λ pre live y, live = pre ∧ ready i o n rest y))]; [| | |done|done].
  - intros live y [-> Hy]. by exists n, rest.
  - intros pre m post live y _ [-> Hy] Hyi. apply wp_up. intros z Hyz Hz. apply wp_ret.
    intros z' Hzz _. split; [done|]. do 2 (eapply ready_stable; [done|]). done.
  - intros live y z [-> Hy] Hyz _. split; [done|]. by eapply ready_stable.
Qed.

(** The primary has accepted the value [v]; the replicas follow. *)
Lemma wp_replicate {A} i o r n rest old c k v (a : A) x :
  writing i o r (n :: rest) old rest x → writes o = Some (c, k) → NoDup rest → Inv x →
  (cell o old).1 = Some v → (dop_fits (St := St) o → entry_ok (St := St) c k v) →
  wp_op i (_ ← replicate_to rest c k v; mret a)
    (λ b z, b = a ∧ within i o (Some r) z ∧ untouched o z) x.
Proof.
  intros Hx Hw Hnd Hi Hv Hfit. apply op_bind; [|done]. eapply wp_mono; [|eapply (wp_rest i o r (n :: rest) old rest c k)]; try done.
  - intros [] y [Hwi Hun]. apply wp_ret. intros z Hyz _. split; [done|].
    split; [by eapply within_stable|by eapply untouched_stable].
  - intros m l y Hm Hl Hy Hwr.
    eapply (wp_visit i o r (n :: rest) old l m (λ _ sh, (Shard.write_object sh c k v, tt)) c k);
      [done..|by right|done|].
    intros now sh u Hu _ _ Hko. rewrite Hv. apply shows_put; [done|by apply Hfit].
Qed.

(** Compare-and-set and increment: the primary answers, and if it changed the
    value the replicas get the new one. *)
Lemma wp_primary {R A} i o c k (op : Z → Shard.t St → Shard.t St * R) (P : option V → R → Prop)
    (changes : option V → bool) (res : A → dres (V := V)) (none : A)
    (cont : list NodeId → CResult R → proc (shared St) A) x :
  writes o = Some (c, k) → outside i o None x → Inv x → on_replica op o P →
  (∀ old, changes old = false → (cell o old).1 = old) →
  (∀ old b rest, P old b →
     if changes old then ∃ v a, (cell o old).1 = Some v ∧ (cell o old).2 = res a
         ∧ (dop_fits (St := St) o → entry_ok (St := St) c k v)
         ∧ cont rest (Ok b) = (_ ← replicate_to rest c k v; mret a)
     else ∃ a, (cell o old).2 = res a ∧ cont rest (Ok b) = mret a) →
  wp_op i (gated k (
    live ← live_owners k;
    match live with
    | [] => mret none
    | primary :: replicas =>
        opc ← peek (λ cl, Cluster.client_of cl primary);
        match opc with
        | None => mret none
        | Some pc => r ← call (Client.call pc op); cont replicas r
        end
    end)) (λ a, outside i o (Some (res a))) x.
Proof.
  intros Hw Hx Hi Hop Hch Hcont. pose proof (writes_key _ _ _ Hw) as Hk.
  apply (wp_gated i o k _ res); [by rewrite Hk|done..|]. clear x Hx Hi.
  intros x Hi Hx Hun. apply op_bind; [|done].
  eapply wp_mono; [|eapply wp_inv, (wp_live i o k x); [by rewrite Hk|done..]].
  clear x Hi Hx Hun. intros live x [(n & rest & -> & Hx) Hi].
  apply wp_peek. intros y Hxy Hy. apply (ready_stable _ _ _ _ _ _ Hxy) in Hx. clear x Hxy Hi.
  destruct (ready_client _ _ _ _ _ n Hy Hx) as (cli & -> & Hcli); [left|].
  destruct Hx as (Hwi & Hun & Hr & Hnd). apply op_bind; [|done].
  eapply wp_mono; [|eapply wp_inv, (wp_first i o n rest cli op
    (λ old, if changes old then rest else []) P); try done].
  - intros a z [(old & b & -> & HP & Hz & Hrz & Hwr) Hzi]. specialize (Hcont old b rest HP).
    destruct (changes old).
    + destruct Hcont as (v & a & Hv & Ha & Hfit & ->). rewrite Ha in Hz. apply NoDup_cons in Hnd as [_ Hnd].
      eapply wp_mono; [|by apply (wp_replicate i o (res a) n rest old c k v a)].
      by intros b' z' (-> & ? & ?).
    + destruct Hcont as (a & Ha & ->). rewrite Ha in Hz. apply wp_ret. intros z' Hzz _.
      split; [by eapply within_stable|].
      apply (wrote_stable _ _ _ _ _ _ _ Hzz Hz) in Hwr.
      intros c' k' Hw'. destruct (Hwr c' k' Hw') as [Hl _]. apply elem_of_nil_inv. intros m.
      rewrite Hl. apply not_elem_of_nil.
  - intros old. specialize (Hch old). destruct (changes old); [by left|right]. by split; [|apply Hch].
Qed.

Lemma wp_cas i c k e v x :
  outside i (DCas c k e v) None x → Inv x →
  wp_op i (cas c k e v) (λ r, outside i (DCas c k e v) (Some (RBool r))) x.
Proof.
  intros Hx Hi. set (o := DCas c k e v) in *.
  apply (wp_primary i o c k (λ now sh, Shard.cas now sh c k e v) (λ old b, b = (cell_cas e v old).2)
    (λ old, (cell_cas e v old).2) RBool false
    (λ replicas r, if unwrap_or false r then _ ← replicate_to replicas c k v; mret true
                   else mret false)); [done..| | |].
  - intros now sh m Hs Hc Hk. by apply (shows_cas (Cluster.colls cl0)).
  - intros old. cbn. unfold cell_cas. by destruct (option_value_eqb old e).
  - intros old b rest ->. cbn. unfold cell_cas. destruct (option_value_eqb old e); cbn.
    + by exists v, true.
    + by exists false.
Qed.

Lemma wp_incr i c k d x :
  outside i (DIncr c k d) None x → Inv x →
  wp_op i (incr c k d) (λ r, outside i (DIncr c k d) (Some (RInt r))) x.
Proof.
  intros Hx Hi. set (o := DIncr c k d) in *.
  apply (wp_primary i o c k (λ now sh, Shard.incr now sh c k d) (λ old b, b = (cell_incr d old).2)
    (λ old, match cell_int old with Some _ => true | None => false end) RInt None
    (λ replicas r, match mjoin (ok r) with
                   | None => mret None
                   | Some nw => _ ← replicate_to replicas c k (value_from_i64 nw); mret (Some nw)
                   end)); [done..| | |].
  - intros now sh m Hs Hc Hk. by apply (shows_incr (Cluster.colls cl0)).
  - intros old. cbn. unfold cell_incr. by destruct (cell_int old).
  - intros old b rest ->. cbn. unfold cell_incr. destruct (cell_int old) as [z|]; cbn.
    + exists (value_from_i64 (i64_wrapping_add z d)), (Some (i64_wrapping_add z d)).
      split; [done|]. split; [done|]. split; [|done]. intros Hk. apply Hk, i64_wrap_range.
    + by exists None.
Qed.

(** Every operation keeps the guarantee and ends with its answer. *)
Lemma wp_operation i o x :
  outside i o None x → Inv x → wp_op i (op_task o) (λ r, outside i o (Some r)) x.
Proof.
  intros Hx Hi.
  assert (Hret : ∀ A (p : proc (shared St) A) (f : A → dres (V := V)),
    wp_op i p (λ a, outside i o (Some (f a))) x →
    wp_op i (a ← p; mret (f a)) (λ r, outside i o (Some r)) x).
  { intros A p f Hp. apply op_bind; [|done]. eapply wp_mono; [|exact Hp]. intros a y Hy.
    apply wp_ret. intros z Hyz _. by eapply outside_stable. }
  destruct o as [c k|c k v|c k|c k e v|c k d|c k m|c k m]; cbn [op_task]; apply Hret.
  - by apply wp_get.
  - eapply (wp_broadcast i _ c k (λ _ sh, (Shard.write_object sh c k v, tt))); [done..| |done|done].
    intros now sh m Hs Hc Hk. split; [|done]. by apply shows_put.
  - eapply (wp_broadcast i _ c k (λ _ sh, (Shard.delete_object sh c k, tt))); [done..| |done|done].
    intros now sh m Hs Hc Hk. split; [|done]. by apply shows_delete.
  - by apply wp_cas.
  - by apply wp_incr.
  - eapply (wp_broadcast i _ c k (λ now sh, Shard.set_add now sh c k m)); [done..| |done|done].
    intros now sh u Hs Hc Hk. split; [|done]. by apply shows_set_add.
  - eapply (wp_broadcast i _ c k (λ now sh, Shard.set_remove now sh c k m)); [done..| |done|done].
    intros now sh u Hs Hc Hk. split; [|done]. by apply shows_set_remove.
Qed.

End linear.

End Linear.
