(* ===== verification/Online.v ===== *)
(** * The migration among concurrent operations

    The other half of the proof that [Linear] starts: the task of a rebalance
    keeps the invariant and the guarantee that the operations rely on.  Its own
    assertions say exactly what the cluster is and which nodes hold a copy of the
    keys of the chunk it works on: those keys are frozen and nobody is inside. *)

From S2P Require Import Prelude Machine Text Partitioner Reshard Store Lease Shard Replica Client.
From S2P Require Import Journal Guard Proc Cluster DataPlane Migration Concurrent Linear.

Module Online.
Import Partitioner Proc DataPlane Migration Concurrent Linear.

Section online.
Context {V St : Type} `{!IndexStore V St, !IndexStoreLaws V St, !JsonValue V, !LeaseCodec V}.
Context `{!HashIter, !Env, !Reliable}.
Context (cl0 : Cluster.t).
Hypothesis Hrefs : refs_inj cl0.

Abbreviation world := (shared St * ghost (V := V))%type.
Abbreviation Inv := (Inv (V := V) (St := St) cl0).
Abbreviation wp_mig := (wp Inv rely_mig guar_mig blocked_mig).

(** ** Steps of the migration *)

(** A change of the cluster keeps the route of every bucket that is open, or
    that an operation is inside. *)
Definition keeps_routes (y : world) (cl : Cluster.t) : Prop :=
  ∀ k, bucket_of k ∉ Guard.frozen (gates y.1) ∨ (∃ i, inside y.2 !! i = Some (bucket_of k)) →
    same_route k (cluster y.1) cl.

Lemma change_ok (y : world) cl :
  Inv y → cluster_ok cl → Cluster.clients cl ⊆ Cluster.clients cl0 →
  Cluster.colls cl = Cluster.colls cl0 → keeps_routes y cl →
  Inv (with_cluster y.1 cl, y.2) ∧ guar_mig y (with_cluster y.1 cl, y.2).
Proof.
  intros Hy Hok Hsub Hcolls Hr. split.
  - split; cbn [fst snd with_cluster cluster gates shards]; try done; try apply Hy.
    + intros c k n Hn. destruct (inv_late _ _ Hy c k) as (i & o & r & Hi & _).
      { intros He. rewrite He in Hn. by apply elem_of_nil in Hn. }
      destruct (Hr k) as [Hm Hh]; [right; by exists i|].
      destruct (inv_late_owner _ _ Hy c k n Hn). rewrite <-Hm, <-Hh. done.
    + intros k Hk c n Hc. destruct (Hr k Hk) as [Hm _]. rewrite <-Hm. by apply (inv_hold _ _ Hy).
  - split; [|done]. intros j. split; cbn; try done. intros k Hk. apply Hr. right. by exists j.
Qed.

Lemma wp_change f Q x :
  (∀ y, rely_mig x y → Inv y →
     cluster_ok (f (cluster y.1)) ∧ Cluster.clients (f (cluster y.1)) ⊆ Cluster.clients cl0
     ∧ Cluster.colls (f (cluster y.1)) = Cluster.colls cl0 ∧ keeps_routes y (f (cluster y.1))
     ∧ ∀ z, rely_mig (with_cluster y.1 (f (cluster y.1)), y.2) z → Inv z → Q tt z) →
  wp_mig (change f) Q x.
Proof.
  intros Hf. apply wp_atomic. intros y Hxy Hy. destruct (Hf y Hxy Hy) as (? & ? & ? & ? & HQ).
  exists y.2. cbn [fst snd]. destruct (change_ok y (f (cluster y.1))) as [? ?]; [done..|].
  split; [done|]. split; [done|]. exact HQ.
Qed.

(** A step on the gates or the lock alone. *)
Lemma gates_ok (y : world) s :
  Inv y → cluster s = cluster y.1 → shards s = shards y.1 →
  Guard.in_flight (gates s) = Guard.in_flight (gates y.1) →
  (∀ k, bucket_of k ∉ Guard.frozen (gates s) → bucket_of k ∈ Guard.frozen (gates y.1) →
     ∀ c n, c ∈ Cluster.colls cl0 → n ∈ hold y.2 c k ↔ n ∈ Cluster.owners (cluster y.1) k) →
  Inv (s, y.2) ∧ guar_mig y (s, y.2).
Proof.
  intros Hy Hc Hs Hg Hh. split.
  - split; cbn [fst snd]; rewrite ?Hc, ?Hs, ?Hg; try apply Hy.
    intros k Hk. destruct Hk as [Hk|Hk]; [|by apply (inv_hold _ _ Hy); right].
    destruct (decide (bucket_of k ∈ Guard.frozen (gates y.1))); [by apply Hh|].
    apply (inv_hold _ _ Hy). by left.
  - split; [|done]. intros j. split; cbn; try done. intros k _. by rewrite Hc.
Qed.

(** A step on the data of frozen buckets that nobody is inside. *)
Definition with_hold (g : ghost (V := V)) (h : string → string → gset NodeId) : ghost :=
  mkGhost (spec g) (ops g) (inside g) (late g) (prev g) h.

Lemma data_ok (y : world) w h :
  Inv y → nodes_show cl0 (val (with_hold y.2 h)) w →
  (∀ c k, bucket_of k ∉ Guard.frozen (gates y.1) ∨ (∃ i, inside y.2 !! i = Some (bucket_of k)) →
     h c k = hold y.2 c k) →
  Inv (with_shards y.1 w, with_hold y.2 h) ∧ guar_mig y (with_shards y.1 w, with_hold y.2 h).
Proof.
  intros Hy Hw Hh. split.
  - split; cbn [fst snd with_shards cluster gates shards with_hold]; try done; try apply Hy.
    intros k Hk c n Hc. cbn [hold]. rewrite Hh by done. by apply (inv_hold _ _ Hy).
  - split; [|done]. intros j. split; cbn; done.
Qed.

(** ** A chunk under way *)

(** The buckets [ch] are frozen and drained, and exactly the nodes of [P] hold
    their keys. *)
Record at_chunk (cl : Cluster.t) (ch : list nat) (P : NodeId → string → string → Prop) (y : world)
    : Prop := {
  ac_cluster : cluster y.1 = cl;
  ac_locked : locked y.1 = true;
  ac_frozen b : b ∈ Guard.frozen (gates y.1) ↔ b ∈ ch;
  ac_empty i b : b ∈ ch → inside y.2 !! i ≠ Some b;
  ac_hold c k n : c ∈ Cluster.colls cl0 → bucket_of k ∈ ch → n ∈ hold y.2 c k ↔ P n c k;
}.

Lemma at_chunk_stable cl ch P y z : rely_mig y z → at_chunk cl ch P y → at_chunk cl ch P z.
Proof.
  intros [R1 R2 R3 R4 R5 _] [C1 C2 C3 C4 C5]. split; [congruence|congruence|..].
  - intros b. by rewrite R3.
  - intros i b Hb Hz. apply (C4 i b Hb), R5; [by apply C3|done].
  - intros c k n. rewrite R2. apply C5.
Qed.

Lemma at_chunk_ext cl ch P P' y :
  (∀ n c k, c ∈ Cluster.colls cl0 → bucket_of k ∈ ch → P n c k ↔ P' n c k) →
  at_chunk cl ch P y → at_chunk cl ch P' y.
Proof.
  intros He [? ? ? ? Hh]. split; try done. intros c k n Hc Hk. by rewrite Hh, He.
Qed.

(** The keys of the chunk do not change, and no owner of theirs is late. *)
Lemma at_chunk_spec cl ch P y z c k :
  rely_mig y z → at_chunk cl ch P y → bucket_of k ∈ ch → spec z.2 c k = spec y.2 c k.
Proof.
  intros Hr Hc Hk. apply (mig_spec _ _ Hr); [by apply (ac_frozen _ _ _ _ Hc)|].
  intros i. by apply (ac_empty _ _ _ _ Hc).
Qed.

Lemma at_chunk_val cl ch P y n c k :
  Inv y → at_chunk cl ch P y → bucket_of k ∈ ch →
  val y.2 n c k = if decide (n ∈ hold y.2 c k) then spec y.2 c k else None.
Proof.
  intros Hy Hc Hk. unfold val. rewrite decide_False; [done|]. intros Hn.
  destruct (inv_late _ _ Hy c k) as (i & _ & _ & Hi & _).
  { intros He. rewrite He in Hn. by apply elem_of_nil in Hn. }
  by apply (ac_empty _ _ _ _ Hc i _ Hk).
Qed.

(** Who holds the keys of collection [c] in the buckets [bs], changed by [f]. *)
Definition rehold (c : string) (bs : list nat) (f : gset NodeId → gset NodeId)
    (h : string → string → gset NodeId) : string → string → gset NodeId := λ c' k,
  if decide (Shard.moves c bs c' k) then f (h c' k) else h c' k.

Lemma rehold_frozen cl ch P (y : world) c bs f c' k :
  at_chunk cl ch P y → (∀ b, b ∈ bs → b ∈ ch) →
  bucket_of k ∉ Guard.frozen (gates y.1) ∨ (∃ i, inside y.2 !! i = Some (bucket_of k)) →
  rehold c bs f (hold y.2) c' k = hold y.2 c' k.
Proof.
  intros Hc Hbs Hk. unfold rehold, Shard.moves. rewrite decide_False; [done|].
  intros [_ Hb%Hbs]. destruct Hk as [Hk|[i Hi]].
  - by apply Hk, (ac_frozen _ _ _ _ Hc).
  - by apply (ac_empty _ _ _ _ Hc i _ Hb).
Qed.

Lemma at_chunk_rehold cl ch P (y : world) c bs f P' w :
  at_chunk cl ch P y → (∀ b, b ∈ bs → b ∈ ch) →
  (∀ n c' k, c' ∈ Cluster.colls cl0 → bucket_of k ∈ ch →
     n ∈ rehold c bs f (hold y.2) c' k ↔ P' n c' k) →
  at_chunk cl ch P' (with_shards y.1 w, with_hold y.2 (rehold c bs f (hold y.2))).
Proof.
  intros [? ? ? ? Hh] Hbs Hf. split; try done. intros c' k n Hc Hk. by apply Hf.
Qed.

(** ** Moving the data *)

Lemma at_chunk_late cl ch P y n c k :
  Inv y → at_chunk cl ch P y → bucket_of k ∈ ch → n ∉ late y.2 c k.
Proof.
  intros Hy Hc Hk Hn. destruct (inv_late _ _ Hy c k) as (i & _ & _ & Hi & _).
  { intros He. rewrite He in Hn. by apply elem_of_nil in Hn. }
  by apply (ac_empty _ _ _ _ Hc i _ Hk).
Qed.

(** The values after a change of who holds them. *)
Lemma rehold_val cl ch P (y : world) c bs f n c' k :
  Inv y → at_chunk cl ch P y → (∀ b, b ∈ bs → b ∈ ch) →
  val (with_hold y.2 (rehold c bs f (hold y.2))) n c' k
  = if decide (Shard.moves c bs c' k)
    then if decide (n ∈ f (hold y.2 c' k)) then spec y.2 c' k else None
    else val y.2 n c' k.
Proof.
  intros Hy Hc Hbs. unfold val. cbn [with_hold late prev spec hold]. unfold rehold.
  destruct (decide (Shard.moves c bs c' k)) as [[_ Hk%Hbs]|]; [|done].
  rewrite decide_False; [done|]. by eapply at_chunk_late.
Qed.

(** What a copy leaves: [m] is the source's view, its keys those of the map. *)
Lemma copied_val cl ch P (y : world) c bs to m n c' k :
  Inv y → at_chunk cl ch P y → (∀ b, b ∈ bs → b ∈ ch) →
  (∀ k, bucket_of k ∈ bs → m c k = spec y.2 c k) →
  fupd (val y.2) to (copied c bs m (val y.2 to)) n c' k
  = val (with_hold y.2 (rehold c bs (λ h, {[to]} ∪ h) (hold y.2))) n c' k.
Proof.
  intros Hy Hc Hbs Hm. erewrite rehold_val by done. unfold fupd.
  destruct (decide (Shard.moves c bs c' k)) as [[-> Hk]|Hmv]; cycle 1.
  { destruct (decide (to = n)) as [->|]; [|done]. unfold copied. by rewrite decide_False by tauto. }
  pose proof (at_chunk_val cl ch P y n c k Hy Hc (Hbs _ Hk)) as Hv.
  destruct (decide (to = n)) as [->|Hn].
  - rewrite (decide_True (P := n ∈ {[n]} ∪ _)) by set_solver. unfold copied. rewrite Hm, Hv by done.
    destruct (spec y.2 c k) as [v|].
    + by rewrite decide_True by (split; [done|by eexists]).
    + rewrite decide_False by (by intros [_ [? ?]]). by case_decide.
  - rewrite Hv. apply decide_ext. set_solver.
Qed.

Lemma dropped_val cl ch P (y : world) c bs node n c' k :
  Inv y → at_chunk cl ch P y → (∀ b, b ∈ bs → b ∈ ch) →
  fupd (val y.2) node (dropped c bs (val y.2 node)) n c' k
  = val (with_hold y.2 (rehold c bs (λ h, h ∖ {[node]}) (hold y.2))) n c' k.
Proof.
  intros Hy Hc Hbs. erewrite rehold_val by done. unfold fupd.
  destruct (decide (Shard.moves c bs c' k)) as [[-> Hk]|Hmv]; cycle 1.
  { destruct (decide (node = n)) as [->|]; [|done]. unfold dropped. by rewrite decide_False. }
  destruct (decide (node = n)) as [->|Hn].
  - unfold dropped. rewrite decide_True by done. by rewrite decide_False by set_solver.
  - rewrite (at_chunk_val cl ch P y n c k Hy Hc (Hbs _ Hk)). apply decide_ext. set_solver.
Qed.

(** A call on a chunk's data. *)
Lemma wp_data {A} cl ch P (m : M St A) Q x :
  at_chunk cl ch P x →
  (∀ y, rely_mig x y → Inv y → at_chunk cl ch P y → ∃ c bs f,
     (∀ b, b ∈ bs → b ∈ ch)
     ∧ nodes_show cl0 (val (with_hold y.2 (rehold c bs f (hold y.2)))) (m (shards y.1)).1
     ∧ ∀ z, rely_mig (with_shards y.1 (m (shards y.1)).1,
                       with_hold y.2 (rehold c bs f (hold y.2))) z → Inv z →
         Q (m (shards y.1)).2 z) →
  wp_mig (call m) Q x.
Proof.
  intros Hx Hm. apply wp_atomic. intros y Hxy Hy.
  pose proof (at_chunk_stable _ _ _ _ _ Hxy Hx) as Hc.
  destruct (Hm y Hxy Hy Hc) as (c & bs & f & Hbs & Hs & HQ).
  exists (with_hold y.2 (rehold c bs f (hold y.2))). destruct (m (shards y.1)) as [w a]. cbn [fst snd] in *.
  destruct (data_ok y w (rehold c bs f (hold y.2)) Hy Hs) as [? ?].
  { intros c' k Hk. by eapply rehold_frozen. }
  by split_and!.
Qed.

(** *** One collection of one pair *)

Section copy.
Context (cl : Cluster.t) (ch : list nat) (P : NodeId → string → string → Prop).
Context (from to : NodeId) (fc tc : Client.t) (c : string) (bs : list nat).
Hypothesis (Hfc : Cluster.clients cl0 !! from = Some fc) (Htc : Cluster.clients cl0 !! to = Some tc).
Hypothesis (Hc : c ∈ Cluster.colls cl0) (Hbs : ∀ b, b ∈ bs → b ∈ ch).
Hypothesis (Hfrom : ∀ k, bucket_of k ∈ bs → P from c k).

Definition copied_to : NodeId → string → string → Prop := λ n c' k,
  P n c' k ∨ (to = n ∧ Shard.moves c bs c' k).

Lemma at_chunk_copied y w :
  at_chunk cl ch P y →
  at_chunk cl ch copied_to
    (with_shards y.1 w, with_hold y.2 (rehold c bs (λ h, {[to]} ∪ h) (hold y.2))).
Proof.
  clear Hfrom Htc Hfc. intros Hy. apply (at_chunk_rehold cl ch P); [done..|]. intros n c' k Hc' Hk.
  pose proof (ac_hold _ _ _ _ Hy c' k n Hc' Hk). unfold rehold, copied_to. case_decide; set_solver.
Qed.

Lemma source_val y k :
  Inv y → at_chunk cl ch P y → bucket_of k ∈ bs → val y.2 from c k = spec y.2 c k.
Proof.
  clear Htc Hfc. intros Hy Hat Hk. rewrite (at_chunk_val cl ch P y) by eauto.
  rewrite decide_True; [done|]. apply (ac_hold _ _ _ _ Hat); [done|by apply Hbs|by apply Hfrom].
Qed.

(** The entries are those of a shard that shows the map on the moving keys. *)
Definition exported (es : list (string * V)) (z : world) : Prop :=
  ∃ now sh ms, shows (Cluster.colls cl0) sh ms ∧ es = Shard.export_entries now sh c bs
    ∧ ∀ k, bucket_of k ∈ bs → ms c k = spec z.2 c k.

Lemma exported_stable es y z :
  rely_mig y z → at_chunk cl ch P y → exported es y → exported es z.
Proof.
  clear Hfc Htc Hfrom. intros Hyz Hy (now & sh & ms & Hs & He & Hms). exists now, sh, ms. split; [done|].
  split; [done|]. intros k Hk. rewrite Hms by done. symmetry. by eapply at_chunk_spec; eauto.
Qed.

(** An export that finds nothing is already the whole copy. *)
Lemma wp_export x :
  at_chunk cl ch P x →
  wp_mig (call (Client.export_entries (V := V) fc c bs)) (λ r z, ∃ es, r = Ok es ∧
    if decide (length es = 0) then at_chunk cl ch copied_to z
    else at_chunk cl ch P z ∧ exported es z) x.
Proof.
  intros Hx. apply (wp_data cl ch P); [done|]. intros y Hxy Hy Hat. clear x Hx Hxy.
  destruct (query_spec cl0 (val y.2) from fc (λ now s, Shard.export_entries now s c bs)
    (λ es, ∃ now sh, shows (Cluster.colls cl0) sh (val y.2 from)
      ∧ es = Shard.export_entries now sh c bs) Hrefs Hfc) with (w := shards y.1)
    as [(es & Hes & now & sh & Hsh & Hexp) Hw].
  { intros now sh Hs. by exists now, sh. }
  { apply Hy. }
  destruct (decide (length es = 0)) as [Hlen|Hlen].
  - exists c, bs, (λ h, {[to]} ∪ h). split; [done|]. split.
    + apply (nodes_show_ext cl0 (fupd (val y.2) to (copied c bs (val y.2 from) (val y.2 to)))).
      { intros n c' k _ _. apply (copied_val cl ch P); [done..|]. intros k' Hk'. by apply source_val. }
      intros n cli Hcli. destruct (Hw n cli Hcli) as (sn & Hsn & Hshow). exists sn. split; [done|].
      unfold fupd. case_decide as Hn; [subst n|done].
      pose proof (shows_copy (Cluster.colls cl0) sh sn _ _ now c bs Hsh Hshow Hc) as Hcp.
      rewrite <-Hexp in Hcp. by rewrite (nil_length_inv es Hlen) in Hcp.
    + intros z Hyz _. exists es. split; [done|]. rewrite decide_True by done.
      eapply at_chunk_stable; [done|]. by apply at_chunk_copied.
  - exists c, [], id. assert (Hnil : ∀ b : nat, b ∈ [] → b ∈ ch) by (by intros b ?%elem_of_nil).
    split; [done|]. split.
    + eapply nodes_show_ext; [|exact Hw]. intros n c' k _ _. rewrite (rehold_val cl ch P) by done.
      by rewrite decide_False by (by intros [_ ?%elem_of_nil]).
    + intros z Hyz Hz. exists es. split; [done|]. rewrite decide_False by done.
      set (y' := (with_shards y.1 _, _)) in Hyz.
      assert (Hat' : at_chunk cl ch P y').
      { apply (at_chunk_rehold cl ch P); [done..|]. intros n c' k Hc' Hk.
        pose proof (ac_hold _ _ _ _ Hat c' k n Hc' Hk). unfold rehold. by case_decide. }
      split; [by eapply at_chunk_stable|]. eapply (exported_stable es y'); [done..|].
      exists now, sh, (val y.2 from). split; [done|]. split; [done|]. intros k Hk. by apply (source_val y).
Qed.

Lemma wp_import es x :
  at_chunk cl ch P x → exported es x → Inv x →
  wp_mig (call (Client.import_entries tc c es)) (λ _, at_chunk cl ch copied_to) x.
Proof.
  intros Hx Hes Hi. apply (wp_data cl ch P); [done|]. intros y Hxy Hy Hat.
  apply (exported_stable _ _ _ Hxy Hx) in Hes as (now & sh & ms & Hsh & -> & Hms).
  exists c, bs, (λ h, {[to]} ∪ h). split; [done|].
  destruct (call_spec cl0 (val y.2) to tc
    (λ _ s, (Shard.import_entries s c (Shard.export_entries now sh c bs), tt))
    (copied c bs ms (val y.2 to)) (λ _, True) Hrefs Htc) with (w := shards y.1) as [_ Hw].
  { intros now' s Hs. split; [|done]. by apply shows_copy. }
  { apply Hy. }
  split.
  - eapply nodes_show_ext; [|exact Hw]. intros n c' k _ _. by apply (copied_val cl ch P).
  - intros z Hyz _. eapply at_chunk_stable; [done|]. by apply at_chunk_copied.
Qed.

Lemma wp_copy_coll copied0 x :
  at_chunk cl ch P x → Inv x →
  wp_mig (r ← call (Client.export_entries (V := V) fc c bs);
          let entries := unwrap_or [] r in
          if decide (length entries = 0) then mret (copied0 + length entries)
          else _ ← call (Client.import_entries tc c entries); mret (copied0 + length entries))
    (λ _, at_chunk cl ch copied_to) x.
Proof.
  intros Hx Hi. apply mig_bind; [|done]. eapply wp_mono; [|by apply wp_inv, wp_export].
  intros r y [(es & -> & Hes) Hy]. cbn [unwrap_or]. case_decide as Hlen.
  { apply wp_ret. intros z Hyz _. by eapply at_chunk_stable. }
  destruct Hes as [Hat Hes]. apply mig_bind; [|done]. eapply wp_mono; [|by apply wp_import].
  intros a z Hz. apply wp_ret. intros z' Hzz _. by eapply at_chunk_stable.
Qed.

End copy.

(** One collection of one dropping node. *)
Lemma wp_drop_coll cl ch P node nc c bs dropped0 x :
  Cluster.clients cl0 !! node = Some nc → c ∈ Cluster.colls cl0 → (∀ b, b ∈ bs → b ∈ ch) →
  at_chunk cl ch P x → Inv x →
  wp_mig (r ← call (Client.drop_buckets (V := V) nc c bs); mret (dropped0 + unwrap_or 0 r))
    (λ _, at_chunk cl ch (λ n c' k, P n c' k ∧ ¬ (node = n ∧ Shard.moves c bs c' k))) x.
Proof.
  intros Hnc Hc Hbs Hx Hi. apply mig_bind; [|done]. eapply wp_mono; cycle 1.
  - apply (wp_data cl ch P _ (λ _, at_chunk cl ch
      (λ n c' k, P n c' k ∧ ¬ (node = n ∧ Shard.moves c bs c' k)))); [done|].
    intros y Hxy Hy Hat. exists c, bs, (λ h, h ∖ {[node]}). split; [done|].
    destruct (call_spec cl0 (val y.2) node nc (λ now s, Shard.drop_buckets now s c bs)
      (dropped c bs (val y.2 node)) (λ _, True) Hrefs Hnc) with (w := shards y.1) as [_ Hw].
    { intros now s Hs. split; [|done]. by apply shows_drop. }
    { apply Hy. }
    split; [eapply nodes_show_ext; [|exact Hw]; intros; by apply (dropped_val cl ch P)|].
    intros z Hyz _. eapply at_chunk_stable; [done|]. apply (at_chunk_rehold cl ch P); [done..|].
    intros n c' k Hc' Hk. pose proof (ac_hold _ _ _ _ Hat c' k n Hc' Hk). unfold rehold.
    case_decide; set_solver.
  - intros a z Hz. apply wp_ret. intros z' Hzz _. by eapply at_chunk_stable.
Qed.

(** ** A whole chunk *)

Lemma mig_peek {A B} (f : Cluster.t → A) (k : A → proc (shared St) B) Q x :
  (∀ y, rely_mig x y → Inv y → wp_mig (k (f (cluster y.1))) Q y) → wp_mig (peek f ≫= k) Q x.
Proof.
  intros Hk y Hxy Hy. exists y.2. destruct y as [s g]. split; [done|]. split; [|by apply Hk].
  split; [|done]. intros j. by split.
Qed.

Abbreviation holders := (NodeId → string → string → Prop).

Lemma wp_copy_pair cl ch (P : holders) from to bs copied0 x :
  at_chunk cl ch P x → Inv x →
  is_Some (Cluster.clients cl !! from) → is_Some (Cluster.clients cl !! to) →
  (∀ b, b ∈ bs → b ∈ ch) → (∀ c k, bucket_of k ∈ bs → P from c k) →
  wp_mig (copy_pair (Cluster.colls cl0) copied0 ((from, to), bs))
    (λ _, at_chunk cl ch (λ n c k, P n c k ∨ (to = n ∧ bucket_of k ∈ bs))) x.
Proof.
  intros Hx Hi [fc Hfc] [tc Htc] Hbs Hfrom.
  assert (Hsub : ∀ y n c, Inv y → cluster y.1 = cl → Cluster.clients cl !! n = Some c →
    Cluster.clients cl0 !! n = Some c).
  { intros y n c Hy <- Hn. by eapply lookup_weaken, inv_clients. }
  apply mig_peek. intros y Hxy Hy. apply (at_chunk_stable _ _ _ _ _ Hxy) in Hx. clear x Hxy Hi.
  apply mig_peek. intros x Hyx Hi. rewrite (ac_cluster _ _ _ _ Hx).
  apply (at_chunk_stable _ _ _ _ _ Hyx) in Hx. clear y Hyx Hy. rewrite (ac_cluster _ _ _ _ Hx).
  unfold Cluster.client_of. rewrite Hfc, Htc.
  pose proof (Hsub x from fc Hi (ac_cluster _ _ _ _ Hx) Hfc) as Hfc0.
  pose proof (Hsub x to tc Hi (ac_cluster _ _ _ _ Hx) Htc) as Htc0.
  set (mid := λ (pc : list string) n c k, P n c k ∨ (to = n ∧ bucket_of k ∈ bs ∧ c ∈ pc)).
  eapply wp_mono; [|apply (wp_loop Inv rely_mig guar_mig blocked_mig (Cluster.colls cl0) copied0 _
    (λ pc _, at_chunk cl ch (mid pc)))]; [| | | |done].
  - intros a y. apply at_chunk_ext. intros n c k Hc _. unfold mid. tauto.
  - intros pc c post cp y Hcs Hy Hyi. assert (c ∈ Cluster.colls cl0) as Hc by (rewrite Hcs; set_solver).
    eapply wp_mono; [|apply (wp_copy_coll cl ch (mid pc) from to fc tc c bs); try done].
    + intros a z. apply at_chunk_ext. intros n c' k _ _. unfold copied_to, mid, Shard.moves.
      rewrite elem_of_app, list_elem_of_singleton. naive_solver.
    + intros k Hk. left. by apply Hfrom.
  - intros r y z Hy Hyz _. by eapply at_chunk_stable.
  - eapply at_chunk_ext; [|exact Hx]. intros n c k _ _. unfold mid. rewrite elem_of_nil. tauto.
Qed.

Lemma wp_drop_node cl ch (P : holders) node bs dropped0 x :
  at_chunk cl ch P x → Inv x → is_Some (Cluster.clients cl !! node) → (∀ b, b ∈ bs → b ∈ ch) →
  wp_mig (drop_node (Cluster.colls cl0) dropped0 (node, bs))
    (λ _, at_chunk cl ch (λ n c k, P n c k ∧ ¬ (node = n ∧ bucket_of k ∈ bs))) x.
Proof.
  intros Hx Hi [nc Hnc] Hbs. apply mig_peek. intros y Hxy Hy.
  apply (at_chunk_stable _ _ _ _ _ Hxy) in Hx. clear x Hxy Hi. rewrite (ac_cluster _ _ _ _ Hx).
  unfold Cluster.client_of. rewrite Hnc.
  assert (Cluster.clients cl0 !! node = Some nc) as Hnc0.
  { eapply lookup_weaken; [|by apply (inv_clients _ _ Hy)]. by rewrite (ac_cluster _ _ _ _ Hx). }
  set (mid := λ (pc : list string) n c k, P n c k ∧ ¬ (node = n ∧ bucket_of k ∈ bs ∧ c ∈ pc)).
  eapply wp_mono; [|apply (wp_loop Inv rely_mig guar_mig blocked_mig (Cluster.colls cl0) dropped0 _
    (λ pc _, at_chunk cl ch (mid pc)))]; [| | | |done].
  - intros a x. apply at_chunk_ext. intros n c k Hc _. unfold mid. tauto.
  - intros pc c post dr x Hcs Hx' Hi. assert (c ∈ Cluster.colls cl0) as Hc by (rewrite Hcs; set_solver).
    eapply wp_mono; [|by apply (wp_drop_coll cl ch (mid pc) node nc c bs)].
    intros a z. apply at_chunk_ext. intros n c' k _ _. unfold mid, Shard.moves.
    rewrite elem_of_app, list_elem_of_singleton. naive_solver.
  - intros r x z Hx' Hxz _. by eapply at_chunk_stable.
  - eapply at_chunk_ext; [|exact Hx]. intros n c k _ _. unfold mid. rewrite elem_of_nil. tauto.
Qed.

Lemma wp_copy_loop cl ch xs copied0 x :
  at_chunk cl ch (λ n _ k, n ∈ Cluster.owners cl k) x → Inv x → pairs_ok cl xs →
  (∀ from to bs, ((from, to), bs) ∈ xs → is_Some (Cluster.clients cl !! to) ∧ ∀ b, b ∈ bs → b ∈ ch) →
  wp_mig (loop xs copied0 (copy_pair (Cluster.colls cl0)))
    (λ _, at_chunk cl ch (λ n _ k, n ∈ Cluster.owners cl k ∨ reaches xs n k)) x.
Proof.
  intros Hx Hi Hp Hto.
  apply (wp_loop Inv rely_mig guar_mig blocked_mig xs copied0 _
    (λ pre _, at_chunk cl ch (λ n _ k, n ∈ Cluster.owners cl k ∨ reaches pre n k))); [| | |done].
  - intros pre [[from to] bs] post cp y Hxs Hy Hyi.
    assert (((from, to), bs) ∈ xs) as Hin by (rewrite Hxs; set_solver).
    destruct (Hp _ _ _ Hin) as [Hf Hfo], (Hto _ _ _ Hin) as [Ht Hb].
    eapply wp_mono; [|apply (wp_copy_pair cl ch _ from to bs cp y Hy Hyi Hf Ht Hb)].
    + intros a z. apply at_chunk_ext. intros n c k _ _. unfold reaches.
      rewrite Exists_app, Exists_cons, Exists_nil. cbn. tauto.
    + intros c k Hk. left. by apply Hfo.
  - intros r y z Hy Hyz _. by eapply at_chunk_stable.
  - eapply at_chunk_ext; [|exact Hx]. intros n c k _ _. unfold reaches. rewrite Exists_nil. tauto.
Qed.

Lemma wp_drop_loop cl ch (P : holders) xs dropped0 x :
  at_chunk cl ch P x → Inv x →
  (∀ node bs, (node, bs) ∈ xs → is_Some (Cluster.clients cl !! node) ∧ ∀ b, b ∈ bs → b ∈ ch) →
  wp_mig (loop xs dropped0 (drop_node (Cluster.colls cl0)))
    (λ _, at_chunk cl ch (λ n c k, P n c k ∧ ¬ drops_at xs n k)) x.
Proof.
  intros Hx Hi Hn.
  apply (wp_loop Inv rely_mig guar_mig blocked_mig xs dropped0 _
    (λ pre _, at_chunk cl ch (λ n c k, P n c k ∧ ¬ drops_at pre n k))); [| | |done].
  - intros pre [node bs] post dr y Hxs Hy Hyi.
    destruct (Hn node bs) as [Hc Hb]; [rewrite Hxs; set_solver|].
    eapply wp_mono; [|apply (wp_drop_node cl ch _ node bs dr y Hy Hyi Hc Hb)].
    intros a z. apply at_chunk_ext. intros n c k _ _. unfold drops_at.
    rewrite Exists_app, Exists_cons, Exists_nil. cbn. tauto.
  - intros r y z Hy Hyz _. by eapply at_chunk_stable.
  - eapply at_chunk_ext; [|exact Hx]. intros n c k _ _. unfold drops_at. rewrite Exists_nil. tauto.
Qed.

(** ** The gates of a chunk *)

(** Between two chunks: the lock is held, every bucket is open. *)
Record between (cl : Cluster.t) (y : world) : Prop := {
  bt_cluster : cluster y.1 = cl;
  bt_locked : locked y.1 = true;
  bt_frozen : Guard.frozen (gates y.1) = ∅;
}.

Lemma between_stable cl y z : rely_mig y z → between cl y → between cl z.
Proof. intros [? _ ? ? _ _] [? ? ?]. split; congruence. Qed.

Lemma between_hold cl y c k n :
  Inv y → between cl y → c ∈ Cluster.colls cl0 → n ∈ hold y.2 c k ↔ n ∈ Cluster.owners cl k.
Proof.
  intros Hy [<- _ Hf] Hc. apply (inv_hold _ _ Hy); [|done]. left. rewrite Hf. set_solver.
Qed.

(** Frozen, but perhaps not drained. *)
Record freezing (cl : Cluster.t) (ch : list nat) (y : world) : Prop := {
  fz_cluster : cluster y.1 = cl;
  fz_locked : locked y.1 = true;
  fz_frozen b : b ∈ Guard.frozen (gates y.1) ↔ b ∈ ch;
  fz_hold c k n : c ∈ Cluster.colls cl0 → n ∈ hold y.2 c k ↔ n ∈ Cluster.owners cl k;
}.

Lemma freezing_stable cl ch y z : rely_mig y z → freezing cl ch y → freezing cl ch z.
Proof.
  intros [R1 R2 R3 R4 _ _] [F1 F2 F3 F4]. split; [congruence|congruence|intros b; by rewrite R3|].
  intros c k n. rewrite R2. apply F4.
Qed.

Lemma wp_freeze cl ch x :
  between cl x → Inv x → wp_mig (freeze ch) (λ _, freezing cl ch) x.
Proof.
  intros Hx Hi. apply wp_atomic. intros y Hxy Hy. apply (between_stable _ _ _ Hxy) in Hx.
  exists y.2. cbn [fst snd]. destruct (gates_ok y (with_gates y.1 (Guard.freeze (gates y.1) ch)))
    as [HI HG]; [done..| |].
  { intros k _. rewrite (bt_frozen _ _ Hx). set_solver. }
  split; [done|]. split; [done|]. intros z Hz _. eapply freezing_stable; [done|].
  destruct Hx as [Hc Hl Hf] eqn:Hbt. split; cbn; [done|done|..].
  - intros b. change (b ∈ foldl (λ f b, {[b]} ∪ f) (Guard.frozen (gates y.1)) ch)
      with (b ∈ Guard.frozen (Guard.freeze (gates y.1) ch)).
    rewrite Guard.elem_of_freeze, Hf. set_solver.
  - intros c k n. by apply between_hold.
Qed.

(** Drained: nobody is inside. *)
Lemma wp_drained cl ch x :
  freezing cl ch x → Inv x →
  wp_mig (drained ch) (λ _, at_chunk cl ch (λ n _ k, n ∈ Cluster.owners cl k)) x.
Proof.
  intros Hx Hi y Hxy Hy. apply (freezing_stable _ _ _ _ Hxy) in Hx. clear x Hxy Hi.
  destruct (Guard.drained (gates y.1) ch) eqn:Hd.
  - exists y.2. destruct y as [s g]. split; [done|]. split; [split; [intros j; by split|done]|].
    intros z Hz _. eapply at_chunk_stable; [done|]. rewrite Guard.drained_spec in Hd.
    destruct Hx as [F1 F2 F3 F4]. split; try done.
    + intros i b Hb Hin. destruct (gate_counts _ _ b i Hy Hin) as (n & Hn & _).
      specialize (Hd b Hb). cbn in Hd, Hn. by rewrite Hn in Hd.
    + intros c k n Hc _. by apply F4.
  - destruct (decide (inside y.2 = ∅)) as [He|(i & b & Hi)%map_choose]; [|by exists i, b].
    apply not_true_iff_false in Hd. destruct Hd. apply Guard.drained_spec. intros b _.
    rewrite (inv_count _ _ Hy). unfold count. by rewrite He, map_filter_empty.
Qed.

(** ** The rebalance *)

(** The commit: the journal is cleared, the new members are in place. *)
Abbreviation commit cl := (Cluster.commit_membership
  (Cluster.with_journal cl (Journal.clear (Cluster.journal cl)))).

(** Only the routes, the clients and who is down decide whether a cluster is
    sound. *)
Lemma cluster_ok_same cl cl' :
  (∀ k, Cluster.owners cl' k = Cluster.owners cl k) → Cluster.clients cl' = Cluster.clients cl →
  Cluster.down cl' = Cluster.down cl → cluster_ok cl → cluster_ok cl'.
Proof.
  intros Ho Hc Hd [Hr Hu Hk Hn He]. split; unfold refs_inj; rewrite ?Hc, ?Hd; try done;
    intros k; rewrite Ho; [apply Hk|apply Hn|apply He].
Qed.

(** A change between two chunks that keeps every route. *)
Lemma wp_reroute cl f x :
  (∀ k, same_route k cl (f cl)) → cluster_ok (f cl) →
  Cluster.clients (f cl) ⊆ Cluster.clients cl0 → Cluster.colls (f cl) = Cluster.colls cl0 →
  between cl x → wp_mig (change f) (λ _, between (f cl)) x.
Proof.
  intros Hf Hok Hc Hl Hx. apply wp_change. intros y Hxy Hy. apply (between_stable _ _ _ Hxy) in Hx.
  rewrite (bt_cluster _ _ Hx). split_and!; [done..| |].
  - intros k _. rewrite (bt_cluster _ _ Hx). apply Hf.
  - intros z Hz _. eapply between_stable; [done|]. destruct Hx. by split.
Qed.

(** A change that leaves the owners and the clients alone. *)
Lemma wp_inner cl f x :
  (∀ k, Cluster.owners (f cl) k = Cluster.owners cl k) → Cluster.clients (f cl) = Cluster.clients cl →
  Cluster.down (f cl) = Cluster.down cl → Cluster.colls (f cl) = Cluster.colls cl0 →
  cluster_ok cl → Cluster.clients cl ⊆ Cluster.clients cl0 → between cl x →
  wp_mig (change f) (λ _, between (f cl)) x.
Proof.
  intros Ho Hc Hd Hl Hok Hsub Hx. apply wp_reroute; try done.
  - intros k. unfold same_route. by rewrite Ho.
  - by apply (cluster_ok_same cl).
  - by rewrite Hc.
Qed.

(** The journal is cleared and the members committed, step by step; the routes
    stay as they are throughout. *)
Lemma wp_commit cl nw x :
  (∀ k, Cluster.owners (with_members cl nw) k = Cluster.owners cl k) →
  (∀ k, Cluster.owners (with_factor (with_members cl nw)
     (Cluster.clamp (Cluster.replication_target cl) (length nw))) k = Cluster.owners cl k) →
  cluster_ok cl → cluster_ok (commit cl nw) → Cluster.clients cl ⊆ Cluster.clients cl0 →
  Cluster.colls cl = Cluster.colls cl0 → between cl x → Inv x →
  wp_mig (_ ← clear_journal; commit_membership nw) (λ _, between (commit cl nw)) x.
Proof.
  intros Hm Hf Hok Hok' Hsub Hl Hx Hi. set (cj := Cluster.with_journal cl (Journal.clear (Cluster.journal cl))).
  apply mig_bind; [|done]. eapply wp_mono; [|by apply wp_inv, (wp_inner cl)]. clear x Hx Hi.
  intros [] x [Hx Hi]. assert (Hokj : cluster_ok cj) by by apply (cluster_ok_same cl).
  apply mig_bind; [|done].
  eapply wp_mono; [|by apply wp_inv, (wp_inner cj (λ cl, with_members cl nw))]. clear x Hx Hi.
  intros [] x [Hx Hi]. assert (Hokm : cluster_ok (with_members cj nw)).
  { by apply (cluster_ok_same cl). }
  set (fac := λ cl, with_factor cl (Cluster.clamp (Cluster.replication_target cl) (length nw))).
  assert (Hfm : ∀ k, Cluster.owners (fac (with_members cj nw)) k = Cluster.owners cl k) by exact Hf.
  apply mig_bind; [|done]. eapply wp_mono; [|apply wp_inv, (wp_inner (with_members cj nw) fac); try done];
    cycle 1.
  { intros k. rewrite Hfm. symmetry. apply Hm. }
  clear x Hx Hi. intros [] x [Hx Hi].
  apply (wp_reroute (fac (with_members cj nw)) (λ cl, without_departed cl nw)); try done.
  etrans; [apply map_filter_subseteq|exact Hsub].
Qed.

Section rebalance.
Context (old nw : list NodeId) (rt : nat) (topo : gmap NodeId string).
Hypothesis (Hold : old ≠ []) (Hnd_old : NoDup old) (Hnew : nw ≠ []) (Hnd_new : NoDup nw).

(** A running migration on clients the coordinator had at the start. *)
Record at_work (cl : Cluster.t) m dn mg : Prop := {
  wk_running : running old nw rt topo cl m dn mg;
  wk_known : known nw cl;
  wk_colls : Cluster.colls cl = Cluster.colls cl0;
  wk_sub : Cluster.clients cl ⊆ Cluster.clients cl0;
}.

Lemma at_work_ok cl m dn mg : at_work cl m dn mg → cluster_ok cl.
Proof. intros [[Hm _ _ _ _ _] Hk _ _]. by eapply (mid_cluster_ok old nw rt topo). Qed.

(** The pairs and the drops of a chunk concern its buckets. *)
Lemma chunk_pairs cl m dn mg ch f to bs :
  at_work cl m dn mg → ((f, to), bs) ∈ Cluster.btree_iter Cluster.pair_le
    (Cluster.pair_buckets (acts old nw rt topo dn) ch) →
  is_Some (Cluster.clients cl !! to) ∧ ∀ b, b ∈ bs → b ∈ ch.
Proof.
  intros Hw Hin.
  assert (Hb : ∀ b, b ∈ bs → b ∈ ch ∧ to ∈ after nw rt topo b).
  { intros b Hb. destruct (proj1 (elem_of_pairs old nw rt topo Hold Hnd_old Hnd_new dn ch f to b)) as [? Hc]; [by exists bs|].
    apply elem_of_acts_copies in Hc as (_ & _ & _ & ? & _); done. }
  split; [|intros b ?; by apply Hb].
  assert (bs ≠ []) as Hne.
  { apply Cluster.elem_of_btree_iter in Hin.
    eapply (Cluster.group_nonempty (λ bk, Cluster.copies_of (acts old nw rt topo dn) bk) ∅); [|exact Hin].
    intros k l. by rewrite lookup_empty. }
  destruct bs as [|b bs]; [done|]. apply (wk_known _ _ _ _ Hw).
  destruct (before_after_ok old nw rt topo Hnd_old Hnd_new b) as [_ [_ Ha]]. apply Ha, Hb. by left.
Qed.

Lemma chunk_drops cl m dn mg ch n bs :
  at_work cl m dn mg → (n, bs) ∈ Cluster.btree_iter Cluster.str_le
    (Cluster.node_drops (acts old nw rt topo dn) ch) →
  is_Some (Cluster.clients cl !! n) ∧ ∀ b, b ∈ bs → b ∈ ch.
Proof.
  intros Hw Hin.
  assert (Hb : ∀ b, b ∈ bs → b ∈ ch ∧ n ∈ before old rt topo b).
  { intros b Hb. destruct (proj1 (elem_of_node_drops old nw rt topo Hold Hnd_old Hnd_new dn ch n b)) as [? Hc]; [by exists bs|].
    apply elem_of_acts_drops in Hc as (_ & _ & ? & _); done. }
  split; [|intros b ?; by apply Hb].
  assert (bs ≠ []) as Hne.
  { apply Cluster.elem_of_btree_iter in Hin.
    eapply (Cluster.group_nonempty (λ bk, Cluster.drops_of (acts old nw rt topo dn) bk) ∅); [|exact Hin].
    intros k l. by rewrite lookup_empty. }
  destruct bs as [|b bs]; [done|].
  apply (mid_clients _ _ _ _ _ _ (run_mid _ _ _ _ _ _ _ _ (wk_running _ _ _ _ Hw))).
  destruct (before_after_ok old nw rt topo Hnd_old Hnd_new b) as [[_ Ha] _]. apply Ha, Hb. by left.
Qed.

(** Cutting over keeps the routes of the other buckets. *)
Lemma cut_over_routes cl m dn mg ch k :
  at_work cl m dn mg → bucket_of k ∉ ch → same_route k cl (Cluster.cut_over cl ch).
Proof.
  intros [[Hm _ _ _ _ _] _ _ _] Hk. pose proof (cut_over_mid _ _ _ _ cl mg ch Hm) as Hm'.
  unfold same_route. rewrite (owners_mid _ _ _ _ cl mg), (owners_mid _ _ _ _ _ (list_to_set ch ∪ mg)) by done.
  rewrite (decide_ext (bucket_of k ∈ list_to_set ch ∪ mg) (bucket_of k ∈ mg)) by set_solver.
  done.
Qed.

(** Opening the buckets again: their keys are where the new routes lead. *)
Lemma wp_unfreeze cl ch x :
  at_chunk cl ch (λ n _ k, n ∈ Cluster.owners cl k) x → Inv x →
  wp_mig (unfreeze ch) (λ _, between cl) x.
Proof.
  intros Hx Hi. apply wp_atomic. intros y Hxy Hy. apply (at_chunk_stable _ _ _ _ _ Hxy) in Hx.
  exists y.2. cbn [fst snd].
  destruct (gates_ok y (with_gates y.1 (Guard.unfreeze (gates y.1) ch))) as [HI HG]; [done..| |].
  { intros k _ Hk%(ac_frozen _ _ _ _ Hx) c n Hc. rewrite (ac_cluster _ _ _ _ Hx).
    by apply (ac_hold _ _ _ _ Hx). }
  split; [done|]. split; [done|]. intros z Hz _. eapply between_stable; [done|].
  split; [apply Hx|apply Hx|]. apply set_eq. intros b.
  change (b ∈ Guard.frozen (Guard.unfreeze (gates y.1) ch) ↔ b ∈ (∅ : gset nat)).
  rewrite Guard.elem_of_unfreeze, (ac_frozen _ _ _ _ Hx). set_solver.
Qed.

Lemma at_work_chunk cl m dn mg ch cp dr :
  at_work cl m dn mg → (∀ b, b ∈ ch → b ∉ mg ∧ b ∉ dn) →
  let done := list_to_set ch ∪ Cluster.m_done m in
  at_work (Cluster.save_record (Cluster.cut_over cl ch) (Cluster.m_old m) (Cluster.m_new m) done)
    (Cluster.mkMig (Cluster.m_old m) (Cluster.m_new m) (Cluster.m_actions m) (Cluster.m_moved m)
       done cp dr) dn (list_to_set ch ∪ mg).
Proof.
  intros [[Hm Ho Hn Ha Hd Hj] Hk Hl Hs] Hch done.
  destruct (cut_over_same cl ch) as (Hc & Hco & _ & Hrt). pose proof (cut_over_mid _ _ _ _ cl mg ch Hm) as Hm'.
  split; cbn; [|unfold known; cbn; by rewrite Hc|congruence|by rewrite Hc].
  split; cbn; try congruence; [by destruct Hm'; split|by unfold done; rewrite Hd|].
  unfold done. by rewrite Ho, Hn, Hd, Hrt, (mid_target _ _ _ _ _ _ Hm).
Qed.

(** After the copies: cut over, drop, open, record. *)
Lemma wp_chunk_end cl m dn mg ch chs cp x :
  at_work cl m dn mg → remaining dn mg (ch :: chs) →
  at_chunk cl ch (λ n _ k, n ∈ Cluster.owners cl k ∨ reaches (Cluster.btree_iter Cluster.pair_le
    (Cluster.pair_buckets (acts old nw rt topo dn) ch)) n k) x → Inv x →
  wp_mig (
    _ ← change (λ cl, Cluster.cut_over cl ch);
    dropped ← loop (Cluster.btree_iter Cluster.str_le
                (Cluster.node_drops (acts old nw rt topo dn) ch))
                (Cluster.m_dropped m) (drop_node (Cluster.colls cl0));
    _ ← unfreeze ch;
    let done := list_to_set ch ∪ Cluster.m_done m in
    _ ← change (λ cl, Cluster.save_record cl (Cluster.m_old m) (Cluster.m_new m) done);
    mret (Cluster.mkMig (Cluster.m_old m) (Cluster.m_new m) (acts old nw rt topo dn)
            (Cluster.m_moved m) done cp dropped)) (λ m' y, ∃ cl',
    between cl' y ∧ at_work cl' m' dn (list_to_set ch ∪ mg)) x.
Proof.
  intros Hw Hrem Hx Hi. destruct (remaining_cons _ _ _ _ Hrem) as [Hch _].
  pose proof (wk_running _ _ _ _ Hw) as [Hm _ _ Ha _ _].
  pose proof (cut_over_mid _ _ _ _ cl mg ch Hm) as Hm'.
  destruct (cut_over_same cl ch) as (Hc & Hco & _ & _).
  set (cl1 := Cluster.cut_over cl ch) in *. set (done := list_to_set ch ∪ Cluster.m_done m).
  assert (Hok : cluster_ok cl1).
  { eapply (mid_cluster_ok old nw rt topo); try done. unfold known. rewrite Hc. apply Hw. }
  apply mig_bind; [|done]. eapply wp_mono; [|apply wp_inv, (wp_change _ (λ _, at_chunk cl1 ch
    (λ n _ k, n ∈ Cluster.owners cl k ∨ reaches (Cluster.btree_iter Cluster.pair_le
       (Cluster.pair_buckets (acts old nw rt topo dn) ch)) n k)))]; cycle 1.
  { intros y Hxy Hy. apply (at_chunk_stable _ _ _ _ _ Hxy) in Hx. rewrite (ac_cluster _ _ _ _ Hx).
    fold cl1. split_and!; [done|rewrite Hc; apply Hw|rewrite Hco; apply Hw| |].
    - intros k Hk. rewrite (ac_cluster _ _ _ _ Hx). apply (cut_over_routes cl m dn mg); [done|].
      intros Hb. destruct Hk as [Hk|[i Hk]]; [by apply Hk, (ac_frozen _ _ _ _ Hx)|].
      by apply (ac_empty _ _ _ _ Hx i _ Hb).
    - intros z Hz _. eapply at_chunk_stable; [done|]. destruct Hx. by split. }
  clear x Hx Hi. intros _ x [Hx Hi]. apply mig_bind; [|done].
  eapply wp_mono; [|apply wp_inv, (wp_drop_loop cl1 ch); [done|done|]]; cycle 1.
  { intros n bs Hin. rewrite Hc. by eapply chunk_drops. }
  clear x Hx Hi. intros dr x [Hx Hi]. apply mig_bind; [|done].
  eapply wp_mono; [|apply wp_inv, (wp_unfreeze cl1 ch); [|done]]; cycle 1.
  { eapply at_chunk_ext; [|exact Hx]. intros n c k _ _.
    by apply (chunk_holders old nw rt topo Hold Hnd_old Hnd_new dn ch mg). }
  clear x Hx Hi. intros _ x [Hx Hi]. apply mig_bind; [|done].
  pose proof (at_work_chunk cl m dn mg ch cp dr Hw Hch) as Hw2. rewrite Ha in Hw2.
  eapply wp_mono; [|apply (wp_reroute cl1); try done]; cycle 1.
  { by eapply at_work_ok. } { apply Hw2. } { apply Hw2. }
  intros [] y Hy. apply wp_ret. intros z Hyz _. eexists. split; [by eapply between_stable|done].
Qed.

Lemma wp_chunk cl m dn mg ch chs x :
  at_work cl m dn mg → remaining dn mg (ch :: chs) → between cl x → Inv x →
  wp_mig (migrate_chunk (Cluster.colls cl0) m ch) (λ m' y, ∃ cl',
    between cl' y ∧ at_work cl' m' dn (list_to_set ch ∪ mg)) x.
Proof.
  intros Hw Hrem Hx Hi. destruct (remaining_cons _ _ _ _ Hrem) as [Hch _].
  pose proof (wk_running _ _ _ _ Hw) as [Hm Ho Hn Ha Hd Hj].
  unfold migrate_chunk. rewrite Ha. apply mig_bind; [|done].
  eapply wp_mono; [|by apply wp_inv, (wp_freeze cl ch)]. clear x Hx Hi. intros a1 x [Hx Hi].
  apply mig_bind; [|done]. eapply wp_mono; [|by apply wp_inv, (wp_drained cl ch)].
  clear x Hx Hi. intros a2 x [Hx Hi]. apply mig_bind; [|done].
  eapply wp_mono; [|apply wp_inv, (wp_copy_loop cl ch); [done|done|..]]; cycle 1.
  { eapply (chunk_pairs_ok old nw rt topo); [done..|]. intros b Hb. by apply Hch. }
  { intros f to bs Hin. by eapply chunk_pairs. }
  intros cp y [Hy Hyi]. by apply (wp_chunk_end cl m dn mg ch chs cp).
Qed.

(** All the chunks: every bucket of the plan is moved. *)
Lemma wp_chunks cl m dn chs x :
  at_work cl m dn dn → remaining dn dn chs → between cl x → Inv x →
  wp_mig (loop chs m (migrate_chunk (Cluster.colls cl0))) (λ m' y, ∃ cl' mg,
    between cl' y ∧ at_work cl' m' dn mg ∧ dn ⊆ mg ∧ ∀ b, b ∈ concat chs → b ∈ mg) x.
Proof.
  intros Hw Hrem Hx Hi.
  set (I := λ pre m' (y : world), ∃ cl' mg, between cl' y ∧ at_work cl' m' dn mg ∧ dn ⊆ mg
    ∧ (∀ b, b ∈ concat pre → b ∈ mg) ∧ ∀ post, chs = pre ++ post → remaining dn mg post).
  eapply wp_mono; [|apply (wp_loop Inv rely_mig guar_mig blocked_mig chs m _ I)]; [| | | |done].
  - intros m' y (cl' & mg & ? & ? & ? & ? & _). by exists cl', mg.
  - intros pre ch post m' y Hchs (cl' & mg & Hy & Hwy & Hsub & Hdone & Hr) Hyi.
    specialize (Hr _ Hchs) as Hch. eapply wp_mono; [|by apply (wp_chunk cl' m' dn mg ch post y)].
    intros m2 z (cl2 & Hz & Hw2). exists cl2, (list_to_set ch ∪ mg). split; [done|]. split; [done|].
    split; [set_solver|]. split.
    + intros b. rewrite concat_app, elem_of_app. cbn. rewrite app_nil_r.
      intros [?%Hdone|?]; [set_solver|]. apply elem_of_union_l. by apply elem_of_list_to_set.
    + intros post' Hp. rewrite Hchs, <-app_assoc in Hp. apply app_inv_head in Hp as [= <-].
      by apply remaining_cons.
  - intros m' y z (cl' & mg & ? & ?) Hyz _. exists cl', mg. split; [by eapply between_stable|done].
  - exists cl, dn. split_and!; [done..| |].
    + by intros b ?%elem_of_nil.
    + intros post Hp. cbn [app] in Hp. by subst post.
Qed.

Lemma commit_routes cl m dn mg k :
  at_work cl m dn mg → Cluster.owners (commit cl nw) k = Cluster.owners cl k.
Proof.
  intros [[Hm _ _ _ _ _] _ _ _]. unfold Cluster.owners. cbn. by rewrite (mid_ov _ _ _ _ _ _ Hm).
Qed.

Lemma committed_routes cl m dn mg k :
  distinct_hashes old → at_work cl m dn mg → dn ⊆ mg →
  (∀ b, b ∈ dom (acts old nw rt topo dn) → b ∈ mg) →
  same_route k cl (committed cl nw).
Proof.
  intros Hh [[Hm _ _ _ _ _] _ _ _] Hsub Hall.
  destruct (complete_route old nw rt topo Hold Hnd_old Hnd_new dn mg cl k Hh Hm Hsub Hall) as [Hin Hhd].
  unfold same_route. rewrite (committed_owners cl old nw rt topo k) by (by destruct Hm; split).
  by split.
Qed.

Lemma commit_sub cl (n : list NodeId) :
  Cluster.clients cl ⊆ Cluster.clients cl0 → Cluster.clients (commit cl n) ⊆ Cluster.clients cl0.
Proof. intros Hs. cbn. etrans; [apply map_filter_subseteq|exact Hs]. Qed.

(** The cluster between the commit and the end of the overlay. *)
Lemma commit_ok cl m dn mg :
  distinct_hashes old → at_work cl m dn mg → dn ⊆ mg →
  (∀ b, b ∈ dom (acts old nw rt topo dn) → b ∈ mg) → cluster_ok (commit cl nw).
Proof.
  intros Hh Hw Hsub Hall. pose proof (at_work_ok _ _ _ _ Hw) as Hok.
  assert (Hcl : ∀ n c, Cluster.clients (commit cl nw) !! n = Some c ↔
    Cluster.clients cl !! n = Some c ∧ n ∈ nw) by (intros n c; apply committed_clients).
  split.
  - intros n n' c c' [Hn _]%Hcl [Hn' _]%Hcl. by apply (ok_refs _ Hok).
  - cbn. by rewrite (ok_up _ Hok).
  - intros k n. rewrite (commit_routes cl m dn mg) by done. intros Hn.
    destruct (ok_client _ Hok k n Hn) as [c Hc]. exists c. apply Hcl. split; [done|].
    destruct (before_after_ok old nw rt topo Hnd_old Hnd_new (bucket_of k)) as [_ [_ Ha]]. apply Ha.
    destruct (complete_route old nw rt topo Hold Hnd_old Hnd_new dn mg cl k Hh
      (run_mid _ _ _ _ _ _ _ _ (wk_running _ _ _ _ Hw)) Hsub Hall) as [Hin _]. by apply Hin.
  - intros k. rewrite (commit_routes cl m dn mg) by done. by apply Hok.
  - intros k. rewrite (commit_routes cl m dn mg) by done. by apply Hok.
Qed.

(** The end: the commit, then the end of the overlay. *)
Lemma wp_finish cl m dn mg x :
  distinct_hashes old → distinct_hashes nw → 1 ≤ rt → at_work cl m dn mg → dn ⊆ mg →
  (∀ b, b ∈ dom (acts old nw rt topo dn) → b ∈ mg) → between cl x → Inv x →
  stable (committed cl nw)
  ∧ wp_mig (_ ← (_ ← clear_journal; commit_membership nw); change (λ cl, Cluster.with_overlay cl None))
      (λ _, between (committed cl nw)) x.
Proof.
  intros Hho Hhn Hrt Hw Hsub Hall Hx Hi. pose proof (wk_running _ _ _ _ Hw) as [Hm _ _ _ _ _].
  assert (Hst : stable (committed cl nw)).
  { apply (committed_stable cl old nw rt topo); try done; [|apply Hw]. by destruct Hm; split. }
  split; [done|]. apply mig_bind; [|done].
  eapply wp_mono; [|apply wp_inv, (wp_commit cl nw x); try done].
  - intros [] y [Hy Hyi].
    apply (wp_reroute (commit cl nw) (λ cl, Cluster.with_overlay cl None)); try done.
    + intros k. unfold same_route. rewrite (commit_routes cl m dn mg k) by done.
      by apply (committed_routes cl m dn mg).
    + by apply stable_cluster_ok.
    + apply (commit_sub cl nw), Hw.
    + apply Hw.
  - intros k. unfold Cluster.owners. cbn. by rewrite (mid_ov _ _ _ _ _ _ Hm).
  - intros k. unfold Cluster.owners. cbn. by rewrite (mid_ov _ _ _ _ _ _ Hm).
  - by eapply at_work_ok.
  - by apply (commit_ok cl m dn mg).
  - apply Hw.
  - apply Hw.
Qed.

End rebalance.

(** *** The whole task *)

(** No migration under way. *)
Record idle (cl : Cluster.t) (y : world) : Prop := {
  id_cluster : cluster y.1 = cl;
  id_locked : locked y.1 = false;
  id_frozen : Guard.frozen (gates y.1) = ∅;
}.

Lemma idle_stable cl y z : rely_mig y z → idle cl y → idle cl z.
Proof. intros [? _ ? ? _ _] [? ? ?]. split; congruence. Qed.

Lemma wp_lock cl x : idle cl x → wp_mig lock (λ _, between cl) x.
Proof.
  intros Hx y Hxy Hy. apply (idle_stable _ _ _ Hxy) in Hx. rewrite (id_locked _ _ Hx). exists y.2.
  destruct (gates_ok y (with_lock y.1 true)) as [HI HG]; [done..| |].
  { intros k Hn Hk. by destruct Hn. }
  split; [done|]. split; [done|]. intros z Hz _. eapply between_stable; [done|].
  destruct Hx. by split.
Qed.

Lemma wp_unlock cl x : between cl x → wp_mig unlock (λ _, idle cl) x.
Proof.
  intros Hx. apply wp_atomic. intros y Hxy Hy. apply (between_stable _ _ _ Hxy) in Hx. exists y.2.
  destruct (gates_ok y (with_lock y.1 false)) as [HI HG]; [done..| |].
  { intros k Hn Hk. by destruct Hn. }
  split; [done|]. split; [done|]. intros z Hz _. eapply idle_stable; [done|].
  destruct Hx. by split.
Qed.

Section start.
Context (cl : Cluster.t) (nw : list NodeId).
Hypothesis (Hst : stable cl) (Htg : target cl nw).
Hypothesis (Hsub : Cluster.clients cl ⊆ Cluster.clients cl0).
Hypothesis (Hcols : Cluster.colls cl = Cluster.colls cl0).

Abbreviation old := (Cluster.member_ids cl).
Abbreviation rt := (Cluster.replication_target cl).
Abbreviation topo := (Cluster.topology cl).

(** Plan, overlay, first checkpoint: the routes are the old ones. *)
Lemma wp_begin x :
  between cl x →
  wp_mig (begin_migration old nw ∅) (λ '(m, chs) y, ∃ cl1, between cl1 y
    ∧ at_work old nw rt topo cl1 m ∅ ∅ ∧ remaining ∅ ∅ chs
    ∧ ∀ b, b ∈ dom (acts old nw rt topo ∅) → b ∈ concat chs) x.
Proof.
  intros Hx. apply wp_atomic. intros y Hxy Hy. apply (between_stable _ _ _ Hxy) in Hx.
  rewrite (bt_cluster _ _ Hx). destruct (members_ok cl Hst) as [Hne Hnd].
  destruct (Cluster.begin_migration cl old nw ∅) as [[cl1 m] chs] eqn:Hb.
  destruct (begin_running old nw rt topo cl ∅ cl1 m chs)
    as (Hr & Hrem & Hc & Hl & Hdom); [by apply stable_startable|done|].
  assert (Hw : at_work old nw rt topo cl1 m ∅ ∅).
  { split; [done|..]; unfold known; rewrite ?Hc, ?Hl; [apply Htg|done..]. }
  exists y.2. cbn [fst snd]. destruct (change_ok y cl1) as [HI HG]; [done|..].
  - by eapply (at_work_ok old nw rt topo); [done|done|apply Htg..|].
  - by rewrite Hc.
  - by rewrite Hl.
  - intros k _. rewrite (bt_cluster _ _ Hx). unfold same_route.
    rewrite (owners_mid old nw rt topo cl1 ∅ k) by apply Hr.
    rewrite decide_False by set_solver. by rewrite members_owners.
  - split; [done|]. split; [done|]. intros z Hz _. exists cl1. split.
    + eapply between_stable; [done|]. destruct Hx. by split.
    + split; [done|]. split; [done|]. intros b. by apply Hdom.
Qed.

Lemma committed_now : stable (committed cl nw).
Proof.
  clear Hsub Hcols. destruct Htg as [? ? ? Hk].
  apply (committed_stable cl old nw rt topo); [by apply stable_startable|exact Hk|done..|apply Hst].
Qed.

Lemma wp_same x :
  Cluster.same_members old nw = true → between cl x → Inv x →
  wp_mig (_ ← clear_journal; commit_membership nw) (λ _, between (committed cl nw)) x.
Proof.
  intros Hs Hx Hi. pose proof (same_members_perm cl nw Hst Hs) as Hp.
  assert (Heq : committed cl nw = commit cl nw).
  { unfold committed, Cluster.with_overlay, Cluster.commit_membership. cbn. by rewrite (s_overlay _ Hst). }
  assert (Hk : ∀ k, Cluster.owners (commit cl nw) k = Cluster.owners cl k).
  { intros k. rewrite <-Heq, (committed_owners cl old nw rt topo k) by by apply stable_startable.
    rewrite stable_owners, !Reshard.bucket_owners_placement by done. symmetry.
    rewrite (Permutation_length Hp), (placement_Permutation _ nw); [done|apply Hst|done]. }
  assert (Hr : Cluster.clamp rt (length nw) = Cluster.replication cl).
  { rewrite (s_repl _ Hst). by rewrite (Permutation_length Hp). }
  rewrite Heq. apply wp_commit; try done; [|by apply stable_cluster_ok|].
  - intros k. rewrite <-Hk. unfold Cluster.owners. cbn. by rewrite <-Hr.
  - rewrite <-Heq. apply stable_cluster_ok, committed_now.
Qed.

(** The new cluster, the lock free and nothing frozen. *)
Definition rebalanced (y : world) : Prop := ∃ cl', idle cl' y ∧ stable cl'
  ∧ nodes (Cluster.partitioner cl') = nw ∧ Cluster.colls cl' = Cluster.colls cl0.

Lemma wp_end cl1 (s : Cluster.MigrateSummary) x :
  stable (committed cl1 nw) → Cluster.colls cl1 = Cluster.colls cl0 →
  between (committed cl1 nw) x → Inv x →
  wp_mig (_ ← unlock; mret s) (λ _, rebalanced) x.
Proof.
  intros Hs Hl Hx Hi. apply mig_bind; [|done]. eapply wp_mono; [|by apply wp_unlock].
  intros [] y Hy. apply wp_ret. intros z Hyz _. exists (committed cl1 nw).
  split; [by eapply idle_stable|done].
Qed.

(** The migration proper. *)
Lemma wp_migrate total x :
  between cl x → Inv x →
  wp_mig ('(m, chs) ← begin_migration old nw ∅;
          m ← loop chs m (migrate_chunk (Cluster.colls cl0));
          _ ← clear_journal;
          _ ← commit_membership (Cluster.m_new m);
          _ ← change (λ cl, Cluster.with_overlay cl None);
          _ ← unlock;
          mret (Cluster.summary total m)) (λ _, rebalanced) x.
Proof.
  intros Hx Hi. destruct (members_ok cl Hst) as [Hne Hnd]. apply mig_bind; [|done].
  eapply wp_mono; [|by apply wp_inv, wp_begin]. clear x Hx Hi.
  intros [m chs] x [(cl1 & Hx & Hw & Hrem & Hdom) Hi]. apply mig_bind; [|done].
  eapply wp_mono; [|eapply wp_inv, (wp_chunks old nw rt topo); [done|done|apply Htg..|done|done|done|done]].
  clear x Hx Hi Hw. intros m2 x [(cl2 & mg & Hx & Hw & Hsubm & Hall) Hi].
  pose proof (run_new _ _ _ _ _ _ _ _ (wk_running _ _ _ _ _ _ _ _ Hw)) as Hnew. rewrite Hnew.
  apply (wp_assoc _ _ _ _ clear_journal (λ _, commit_membership nw)), wp_assoc.
  destruct (wp_finish old nw rt topo Hne Hnd (tg_ne _ _ Htg) (tg_NoDup _ _ Htg) cl2 m2 ∅ mg x)
    as [Hs Hfin]; try done; [|apply Htg|apply Hst| |].
  - unfold distinct_hashes. rewrite (member_ids_perm cl). apply Hst.
  - intros b Hb. by apply Hall, Hdom.
  - apply mig_bind; [|done]. eapply wp_mono; [|by apply wp_inv].
    intros [] y [Hy Hyi]. apply (wp_end cl2); try done. apply Hw.
Qed.

(** A rebalance among any number of operations: it keeps its side of the
    bargain and ends in a cluster of the new members. *)
Lemma wp_rebalance x :
  idle cl x → Inv x → wp_mig (rebalance nw) (λ _, rebalanced) x.
Proof.
  intros Hx Hi. apply mig_peek. intros y Hxy Hy. apply (idle_stable _ _ _ Hxy) in Hx. clear x Hxy Hi.
  rewrite (id_cluster _ _ Hx). apply mig_bind; [|done]. eapply wp_mono; [|by apply wp_inv, wp_lock].
  clear y Hx Hy. intros [] x [Hx Hi]. apply mig_peek. intros y Hxy Hy.
  apply (between_stable _ _ _ Hxy) in Hx. clear x Hxy Hi.
  destruct (Cluster.same_members old nw) eqn:Hs.
  - apply (wp_assoc _ _ _ _ clear_journal (λ _, commit_membership nw)).
    apply mig_bind; [|done]. eapply wp_mono; [|by apply wp_inv, wp_same]. intros [] z [Hz Hzi].
    apply (wp_end cl); try done. apply committed_now.
  - apply mig_peek. intros x Hyx Hi. apply (between_stable _ _ _ Hyx) in Hx.
    rewrite (bt_cluster _ _ Hx), Hcols. by apply wp_migrate.
Qed.

End start.

(** *** Every administrative request *)

(** What a request has to keep to: a rebalance names distinct shards that have a
    client; the last member is not drained; the clients of a list are those of
    shards that exist. *)
Definition admin_ok (known : gmap NodeId Client.t) (cl : Cluster.t) (a : admin) : Prop :=
  match a with
  | Rebalance nw => target cl nw
  | Drain node => ∃ m, m ∈ Cluster.member_ids cl ∧ m ≠ node
  | ApplyMembership tgt => tgt ≠ ∅ ∧ tgt ⊆ known ∧ distinct_hashes (Cluster.hash_keys tgt)
  end.

(** The members it leads to, from the members [ns]. *)
Definition wanted (a : admin) (ns : list NodeId) : list NodeId :=
  match a with
  | Rebalance nw => nw
  | Drain node => filter (.≠ node) (sort_strings ns)
  | ApplyMembership tgt => Cluster.hash_keys tgt
  end.

Lemma with_clients_ok cl cs :
  stable cl → Cluster.clients cl ⊆ cs → cs ⊆ Cluster.clients cl0 →
  stable (Cluster.with_clients cl cs).
Proof.
  intros Hs Hsub Hcs. apply stable_clients; [done..|].
  intros n n' c c' Hn Hn'. apply Hrefs; by eapply lookup_weaken.
Qed.

Lemma wp_admin cl a x :
  stable cl → admin_ok (Cluster.clients cl0) cl a → Cluster.clients cl ⊆ Cluster.clients cl0 →
  Cluster.colls cl = Cluster.colls cl0 → idle cl x → Inv x →
  wp_mig (admin_task a) (λ _, rebalanced (wanted a (nodes (Cluster.partitioner cl)))) x.
Proof.
  intros Hs Ha Hsub Hcols Hx Hi. destruct a as [nw|node|tgt]; cbn [admin_task wanted].
  - by apply (wp_rebalance cl).
  - apply mig_peek. intros y Hxy Hy. apply (idle_stable _ _ _ Hxy) in Hx.
    rewrite (id_cluster _ _ Hx). apply (wp_rebalance cl); try done. by apply drain_target.
  - destruct Ha as (Hne & Hk & Hh). set (cs := Cluster.clients cl ∪ tgt).
    assert (Hcs : cs ⊆ Cluster.clients cl0) by by apply map_union_least.
    assert (Hs1 : stable (Cluster.with_clients cl cs)).
    { apply with_clients_ok; [done|apply map_union_subseteq_l|done]. }
    apply mig_bind; [|done]. eapply wp_mono; [|apply wp_inv,
      (wp_change _ (λ _, idle (Cluster.with_clients cl cs)))].
    + intros [] y [Hy Hyi]. apply (wp_rebalance (Cluster.with_clients cl cs)); try done.
      by apply keys_target.
    + intros y Hxy Hy. apply (idle_stable _ _ _ Hxy) in Hx. rewrite (id_cluster _ _ Hx).
      split_and!; [by apply stable_cluster_ok|done|done| |].
      * intros k _. rewrite (id_cluster _ _ Hx). done.
      * intros z Hz _. eapply idle_stable; [done|]. by destruct Hx.
Qed.

End online.

End Online.
