(* ===== verification/Linearizability.v ===== *)
(** * Any number of clients, one change of the membership after the other

    [Linear] and [Online] show that every operation and every administrative
    request keeps what the others rely on; here the tasks are put together.  A
    run of the system of [Concurrent], in whatever order the scheduler takes the
    steps, is a run of an atomic map; and once the requests stop it comes to an
    end with every request answered. *)

From S2P Require Import Prelude Machine Text Partitioner Reshard Store Lease Shard Replica Client.
From S2P Require Import Journal Guard Proc Cluster DataPlane Migration Concurrent Linear Online.

Module Linearizability.
Import Partitioner Proc DataPlane Migration Concurrent Linear Online.

Section system.
Context {V St : Type} `{!IndexStore V St, !IndexStoreLaws V St, !JsonValue V, !LeaseCodec V}.
Context `{!HashIter, !Env, !Reliable}.

(** ** The requests *)

(** The shards that exist, those that are to join included. *)
Context (known : gmap NodeId Client.t).

(** What the requests have to keep to: an operation names a managed collection
    and a key the shards can hold, and no two operations that write one key are
    in flight together; a change of the membership is requested when none is
    under way ([admin_ok] says which). *)
Definition disciplined (c : config V St) (e : option (event V)) : Prop :=
  match e with
  | Some (Invoke _ o) =>
      dop_ok (V := V) (St := St) (cluster (state c)) o
      ∧ ∀ j o' p ck, pool c !! j = Some (o', p) → writes o = Some ck → writes o' ≠ Some ck
  | Some (Ask _ a) => control c = ∅ ∧ admin_ok known (cluster (state c)) a
  | _ => True
  end.

Definition dstep (c : config V St) (e : option (event V)) (c' : config V St) : Prop :=
  step c e c' ∧ disciplined c e.

(** The system at rest. *)
Definition at_rest (cl : Cluster.t) (w : world St) : config V St :=
  mkConfig (mkShared cl Guard.new false w) ∅ ∅.

(** The members that were asked for last. *)
Definition members_after (ns : list NodeId) (tr : list (event V)) : list NodeId :=
  foldl (λ ns e, match e with Ask _ a => wanted a ns | _ => ns end) ns tr.

(** Every shard that exists, member or not, shows the part of the map that it
    owns. *)
Definition holds (cl : Cluster.t) (m : view V) (w : world St) : Prop :=
  inv (Cluster.with_clients cl known) m w.

(** ** The invariant of the system *)

Section good.
Context (cl0 : Cluster.t).
Hypothesis (Hrefs : refs_inj cl0) (Hknown : Cluster.clients cl0 = known).

Abbreviation world := (shared St * ghost (V := V))%type.
Abbreviation Inv := (Inv (V := V) (St := St) cl0).
Abbreviation wp_op i := (wp Inv (rely i) (guar i) (blocked i)).
Abbreviation wp_mig := (wp Inv rely_mig guar_mig blocked_mig).
Abbreviation rebalanced := (rebalanced (V := V) (St := St) cl0).

Definition control_ok (ns : list NodeId) (ct : gmap nat (proc (shared St) Cluster.MigrateSummary))
    (x : world) : Prop :=
  (ct = ∅ ∧ rebalanced ns x) ∨ (∃ j p, ct = {[j := p]} ∧ wp_mig p (λ _, rebalanced ns) x).

Record good (ns : list NodeId) (c : config V St) (g : ghost (V := V)) : Prop := {
  gd_inv : Inv (state c, g);
  gd_ops i : fst <$> ops g !! i = fst <$> pool c !! i;
  gd_pool i o p : pool c !! i = Some (o, p) → wp_op i p (λ r, outside i o (Some r)) (state c, g);
  gd_control : control_ok ns (control c) (state c, g);
}.

(** The object that the ghost state describes. *)
Definition shape (g : ghost (V := V)) : object := (spec g, ops g).

Lemma rebalanced_stable ns x y : rely_mig x y → rebalanced ns x → rebalanced ns y.
Proof. intros Hxy (cl & Hx & ?). exists cl. split; [by eapply idle_stable|done]. Qed.

Lemma control_stable ns ct x y : rely_mig x y → control_ok ns ct x → control_ok ns ct y.
Proof.
  intros Hxy [[-> Hx]|(j & p & -> & Hp)].
  - left. split; [done|]. by eapply rebalanced_stable.
  - right. exists j, p. split; [done|]. by eapply wp_stable; [apply _|..].
Qed.

Lemma pool_op ns c g i o p :
  good ns c g → pool c !! i = Some (o, p) → ∃ r, ops g !! i = Some (o, r).
Proof.
  intros Hg Hp. pose proof (gd_ops _ _ _ Hg i) as Ho. rewrite Hp in Ho. cbn in Ho.
  apply fmap_Some in Ho as ([o' r] & -> & [= ->]). by exists r.
Qed.

Lemma op_pool ns c g i o r :
  good ns c g → ops g !! i = Some (o, r) → ∃ p, pool c !! i = Some (o, p).
Proof.
  intros Hg Hp. pose proof (gd_ops _ _ _ Hg i) as Ho. rewrite Hp in Ho. cbn in Ho. symmetry in Ho.
  apply fmap_Some in Ho as ([o' q] & -> & [= ->]). by exists q.
Qed.

(** ** The steps *)

Definition with_ops (g : ghost (V := V)) m : ghost :=
  mkGhost (spec g) m (inside g) (late g) (prev g) (hold g).

Lemma op_none ns c g i : good ns c g → pool c !! i = None → ops g !! i = None.
Proof.
  intros Hg Hp. pose proof (gd_ops _ _ _ Hg i) as Ho. rewrite Hp in Ho. by destruct (ops g !! i).
Qed.

Lemma inside_none (x : world) i : Inv x → ops x.2 !! i = None → inside x.2 !! i = None.
Proof.
  intros Hx Ho. destruct (inside x.2 !! i) as [b|] eqn:Hb; [|done].
  destruct (inv_inside _ _ Hx i b Hb) as (o & r & ? & _). congruence.
Qed.

Lemma invoke_inv s (g : ghost (V := V)) i o :
  Inv (s, g) → ops g !! i = None →
  (dop_key o).1 ∈ Cluster.colls cl0 → dop_fits (St := St) o →
  (∀ j o' r ck, ops g !! j = Some (o', r) → writes o = Some ck → writes o' ≠ Some ck) →
  Inv (s, with_ops g (<[i := (o, None)]> (ops g))).
Proof.
  intros Hx Hi Hc Hk Hw. pose proof (inside_none _ _ Hx Hi) as Hin. cbn in Hin.
  assert (Hne : ∀ j b, inside g !! j = Some b → i ≠ j) by (intros j b Hj <-; congruence).
  split; cbn [fst snd]; try apply Hx.
  - intros j b Hj. cbn. rewrite lookup_insert_ne by by eapply Hne. by apply (inv_inside _ _ Hx).
  - intros c k Hl. destruct (inv_late _ _ Hx c k Hl) as (j & o' & r & Hj & Ho & ?). exists j, o', r.
    cbn. rewrite lookup_insert_ne by by eapply Hne. done.
  - intros j j' o1 o2 r1 r2 ck. cbn. rewrite !lookup_insert_Some.
    intros [[<- [= <- <-]]|[? A1]] [[<- [= <- <-]]|[? A2]] W1 W2; try done.
    + by destruct (Hw _ _ _ _ A2 W1).
    + by destruct (Hw _ _ _ _ A1 W2).
    + by eapply (inv_writers _ _ Hx j j').
  - intros j o' r. cbn. rewrite lookup_insert_Some. intros [[<- [= <- <-]]|[_ Ho]]; [done|].
    by apply (inv_ops _ _ Hx j o' r).
Qed.

Lemma good_invoke ns c g i o :
  good ns c g → pool c !! i = None → disciplined c (Some (Invoke i o)) →
  let g' := with_ops g (<[i := (o, None)]> (ops g)) in
  good ns (mkConfig (state c) (<[i := (o, op_task o)]> (pool c)) (control c)) g'
  ∧ object_step (shape g) (Some (Invoke i o)) (shape g').
Proof.
  intros Hg Hp [Hok Hw] g'. pose proof (gd_inv _ _ _ Hg) as Hi. pose proof (op_none _ _ _ _ Hg Hp) as Ho.
  pose proof (inside_none _ _ Hi Ho) as Hin. cbn in Hin.
  assert (Hi' : Inv (state c, g')).
  { pose proof (inv_colls _ _ Hi) as Hl. cbn [fst] in Hl. unfold dop_ok in Hok. rewrite Hl in Hok.
    apply invoke_inv; [done..| | |]; [by destruct o; apply Hok..|].
    intros j o' r ck Hj. destruct (op_pool _ _ _ _ _ _ Hg Hj) as [p ?]. by eapply Hw. }
  assert (Hrel : ∀ j, j ≠ i → rely j (state c, g) (state c, g')).
  { intros j Hj. split; cbn; try done. by rewrite lookup_insert_ne. }
  split; [|by constructor]. split; cbn [state pool control].
  - done.
  - intros j. cbn. destruct (decide (i = j)) as [<-|Hne].
    + by rewrite !lookup_insert_eq.
    + rewrite !lookup_insert_ne by done. by apply Hg.
  - intros j o' p. rewrite lookup_insert_Some. intros [[<- [= <- <-]]|[Hne Hj]].
    + apply wp_operation; [done| |done]. split; cbn; [by rewrite lookup_insert_eq|done].
    + eapply wp_stable; [apply _|by apply Hrel|]. by apply Hg.
  - eapply control_stable; [|apply Hg]. by split.
Qed.

Lemma respond_inv s (g : ghost (V := V)) i :
  Inv (s, g) → inside g !! i = None → Inv (s, with_ops g (delete i (ops g))).
Proof.
  intros Hx Hin.
  assert (Hne : ∀ j b, inside g !! j = Some b → i ≠ j) by (intros j b Hj <-; congruence).
  assert (Hsub : ∀ j q, delete i (ops g) !! j = Some q → ops g !! j = Some q).
  { intros j q. rewrite lookup_delete_Some. tauto. }
  split; cbn [fst snd]; try apply Hx.
  - intros j b Hj. cbn. rewrite lookup_delete_ne by by eapply Hne. by apply (inv_inside _ _ Hx).
  - intros c k Hl. destruct (inv_late _ _ Hx c k Hl) as (j & o' & r & Hj & Ho & ?). exists j, o', r.
    cbn. rewrite lookup_delete_ne by by eapply Hne. done.
  - intros j j' o1 o2 r1 r2 ck A1%Hsub A2%Hsub. by apply (inv_writers _ _ Hx j j' o1 o2 r1 r2).
  - intros j o' r Hj%Hsub. by apply (inv_ops _ _ Hx j o' r).
Qed.

Lemma good_respond ns c g i o r :
  good ns c g → pool c !! i = Some (o, Ret r) →
  let g' := with_ops g (delete i (ops g)) in
  good ns (mkConfig (state c) (delete i (pool c)) (control c)) g'
  ∧ object_step (shape g) (Some (Respond i r)) (shape g').
Proof.
  intros Hg Hp g'. pose proof (gd_inv _ _ _ Hg) as Hi.
  assert (Hout : outside i o (Some r) (state c, g)).
  { pose proof (gd_pool _ _ _ Hg i o _ Hp) as Hw. by apply Hw. }
  destruct Hout as [Ho Hin]. cbn in Ho, Hin.
  split; [|by econstructor]. split; cbn [state pool control].
  - by apply respond_inv.
  - intros j. cbn. destruct (decide (i = j)) as [<-|Hne].
    + by rewrite !lookup_delete_eq.
    + rewrite !lookup_delete_ne by done. by apply Hg.
  - intros j o' p [Hne Hj]%lookup_delete_Some.
    eapply wp_stable; [apply _| |by apply Hg]. split; cbn; try done. by rewrite lookup_delete_ne.
  - eapply control_stable; [|apply Hg]. by split.
Qed.

(** An operation takes effect or nothing happens. *)
Lemma effect_step i (g g' : ghost (V := V)) :
  effect i g g' → shape g' = shape g ∨ object_step (shape g) None (shape g').
Proof.
  unfold shape. intros [[-> ->]|(o & Ho & -> & ->)]; [by left|]. right. by constructor.
Qed.

Lemma effect_ops i (g g' : ghost (V := V)) j : effect i g g' → fst <$> ops g' !! j = fst <$> ops g !! j.
Proof.
  intros [[_ ->]|(o & Ho & _ & ->)]; [done|]. destruct (decide (i = j)) as [<-|Hne].
  - by rewrite lookup_insert_eq, Ho.
  - by rewrite lookup_insert_ne.
Qed.

Lemma good_op ns c g i o p s' p' :
  good ns c g → pool c !! i = Some (o, p) → next p (state c) = Some (s', p') →
  ∃ g', good ns (mkConfig s' (<[i := (o, p')]> (pool c)) (control c)) g'
    ∧ (shape g' = shape g ∨ object_step (shape g) None (shape g')).
Proof.
  intros Hg Hp Hn. destruct p as [|f]; [done|]. cbn in Hn.
  pose proof (gd_pool _ _ _ Hg i o _ Hp) as Hw.
  specialize (Hw (state c, g) (reflexivity _) (gd_inv _ _ _ Hg)). cbn [fst] in Hw. rewrite Hn in Hw.
  destruct Hw as (g' & Hi & (Hrm & Hrel & He) & Hw). exists g'. split; [|by eapply effect_step].
  split; cbn [state pool control].
  - done.
  - intros j. rewrite (effect_ops i g g' j He). destruct (decide (i = j)) as [<-|Hne].
    + rewrite lookup_insert_eq, (gd_ops _ _ _ Hg i), Hp. done.
    + rewrite lookup_insert_ne by done. by apply Hg.
  - intros j o' q. rewrite lookup_insert_Some. intros [[<- [= <- <-]]|[Hne Hj]]; [done|].
    eapply wp_stable; [apply _|by apply Hrel|]. by apply Hg.
  - eapply control_stable; [done|apply Hg].
Qed.

(** ** The control plane *)

Lemma good_ask ns c g j a :
  good ns c g → disciplined c (Some (Ask j a)) →
  good (wanted a ns) (mkConfig (state c) (pool c) (<[j := admin_task a]> (control c))) g
  ∧ object_step (shape g) (Some (Ask j a)) (shape g).
Proof.
  intros Hg [Hct Ha]. split; [|constructor].
  destruct (gd_control _ _ _ Hg) as [[_ Hr]|(j' & p & Hj & _)]; cycle 1.
  { rewrite Hct in Hj. symmetry in Hj. by apply map_non_empty_singleton in Hj. }
  split; cbn [state pool control]; try apply Hg. right. exists j, (admin_task a).
  split; [by rewrite Hct|]. destruct Hr as (cl & Hid & Hst & <- & Hl).
  assert (Hcl : cluster (state c) = cl) by apply Hid. rewrite Hcl, <-Hknown in Ha.
  apply wp_admin; try done; [|apply Hg]. rewrite <-Hcl. apply (inv_clients _ _ (gd_inv _ _ _ Hg)).
Qed.

Lemma good_done ns c g j sm :
  good ns c g → control c !! j = Some (Ret sm) →
  good ns (mkConfig (state c) (pool c) (delete j (control c))) g
  ∧ object_step (shape g) (Some (Done j sm)) (shape g).
Proof.
  intros Hg Hj. split; [|constructor].
  destruct (gd_control _ _ _ Hg) as [[Hc _]|(j' & p & Hc & Hw)]; rewrite Hc in Hj; [done|].
  apply lookup_singleton_Some in Hj as [-> ->].
  split; cbn [state pool control]; try apply Hg. left.
  split; [by rewrite Hc, delete_singleton_eq|]. apply (Hw (state c, g)); [done|apply Hg].
Qed.

Lemma good_control ns c g j p s' p' :
  good ns c g → control c !! j = Some p → next p (state c) = Some (s', p') →
  ∃ g', good ns (mkConfig s' (pool c) (<[j := p']> (control c))) g' ∧ shape g' = shape g.
Proof.
  intros Hg Hj Hn.
  destruct (gd_control _ _ _ Hg) as [[Hc _]|(j' & q & Hc & Hw)]; rewrite Hc in Hj |- *; [done|].
  apply lookup_singleton_Some in Hj as [-> ->]. destruct p as [|f]; [done|]. cbn in Hn.
  specialize (Hw (state c, g) (reflexivity _) (gd_inv _ _ _ Hg)). cbn [fst] in Hw. rewrite Hn in Hw.
  destruct Hw as (g' & Hi & (Hrel & Hs & Ho) & Hw). exists g'. cbn in Hs, Ho.
  split; [|unfold shape; congruence]. split; cbn [state pool control].
  - done.
  - intros i. rewrite Ho. apply Hg.
  - intros i o r Hp. eapply wp_stable; [apply _|by apply Hrel|]. by apply Hg.
  - right. exists j, p'. split; [|done]. apply insert_singleton_eq.
Qed.

Definition asked (e : option (event V)) : list (event V) :=
  match e with Some e => [e] | None => [] end.

Lemma good_step ns c g e c' :
  good ns c g → dstep c e c' →
  ∃ g', good (members_after ns (asked e)) c' g'
    ∧ (e = None ∧ shape g' = shape g ∨ object_step (shape g) e (shape g')).
Proof.
  intros Hg [Hs Hd]. destruct Hs as [s pl ct i o Hi|s pl ct i o r Hi|s s' pl ct i o p p' Hi Hn
    |s pl ct j a Hj|s pl ct j sm Hj|s s' pl ct j p p' Hj Hn]; cbn [asked members_after foldl].
  - destruct (good_invoke ns _ g i o Hg Hi Hd). eexists. split; [done|by right].
  - destruct (good_respond ns _ g i o r Hg Hi). eexists. split; [done|by right].
  - destruct (good_op ns _ g i o p s' p' Hg Hi Hn) as (g' & ? & Hsh). exists g'. split; [done|].
    destruct Hsh; [by left|by right].
  - destruct (good_ask ns _ g j a Hg Hd). exists g. split; [done|by right].
  - destruct (good_done ns _ g j sm Hg Hj). exists g. split; [done|by right].
  - destruct (good_control ns _ g j p s' p' Hg Hj Hn) as (g' & ? & ?). exists g'. split; [done|by left].
Qed.

Lemma run_good ns c g tr c' :
  good ns c g → run dstep c tr c' →
  ∃ g', good (members_after ns tr) c' g' ∧ run object_step (shape g) tr (shape g').
Proof.
  intros Hg. induction 1 as [|tr c1 c2 _ (g1 & Hg1 & Ho) Hs|tr c1 e c2 _ (g1 & Hg1 & Ho) Hs].
  - exists g. split; [done|constructor].
  - destruct (good_step _ _ _ _ _ Hg1 Hs) as (g2 & Hg2 & Hsh). exists g2. split; [done|].
    destruct Hsh as [[_ ->]|Hst]; [done|]. by eapply run_silent.
  - destruct (good_step _ _ _ _ _ Hg1 Hs) as (g2 & Hg2 & Hsh). exists g2. split.
    + unfold members_after in *. by rewrite foldl_app.
    + destruct Hsh as [[? _]|Hst]; [done|]. by eapply run_event.
Qed.

(** At rest the nodes show the map. *)
Lemma good_rest ns c g :
  good ns c g → pool c = ∅ → control c = ∅ →
  ops g = ∅ ∧ stable (cluster (state c)) ∧ nodes (Cluster.partitioner (cluster (state c))) = ns
  ∧ holds (cluster (state c)) (spec g) (shards (state c)).
Proof.
  clear Hrefs. intros Hg Hp Hc. pose proof (gd_inv _ _ _ Hg) as Hi.
  assert (Hops : ops g = ∅).
  { apply map_eq. intros i. rewrite lookup_empty. apply (op_none ns c); [done|].
    by rewrite Hp, lookup_empty. }
  destruct (gd_control _ _ _ Hg) as [[_ (cl & Hid & Hst & Hn & Hl)]|(j & p & Hj & _)]; cycle 1.
  { rewrite Hc in Hj. symmetry in Hj. by apply map_non_empty_singleton in Hj. }
  pose proof (id_cluster _ _ Hid) as Hcl. cbn in Hcl. rewrite Hcl.
  split; [done|]. split; [done|]. split; [done|].
  intros n cli Hcli. cbn in Hcli. rewrite <-Hknown in Hcli.
  destruct (inv_show _ _ Hi n cli Hcli) as (sh & Hsh & Hshow).
  exists sh. split; [done|]. cbn [Cluster.colls Cluster.with_clients]. rewrite Hl.
  eapply shows_ext; [|exact Hshow]. intros c' k Hc'.
  assert (late g c' k = []) as Hlate.
  { apply dec_stable. intros Hne. destruct (inv_late _ _ Hi c' k Hne) as (i & o & r & _ & Ho & _).
    cbn in Ho. by rewrite Hops in Ho. }
  unfold val, agree. cbn. rewrite Hlate, decide_False by apply not_elem_of_nil. apply decide_ext.
  change (n ∈ hold g c' k ↔ n ∈ Cluster.owners cl k). rewrite <-Hcl.
  apply (inv_hold _ _ Hi k); [|done]. left. rewrite (id_frozen _ _ Hid). set_solver.
Qed.

End good.

(** A stable cluster among the shards that exist, each known by one name. *)
Record started (cl : Cluster.t) (m : view V) (w : world St) : Prop := {
  sd_stable : stable cl;
  sd_known : Cluster.clients cl ⊆ known;
  sd_refs : refs_inj (Cluster.with_clients cl known);
  sd_holds : holds cl m w;
}.

(** The ghost state at the start. *)
Lemma good_start cl m0 w :
  started cl m0 w →
  ∃ g, good (Cluster.with_clients cl known) (nodes (Cluster.partitioner cl)) (at_rest cl w) g
    ∧ shape g = (m0, ∅).
Proof.
  intros [Hs Hk Hr Hw].
  exists (mkGhost m0 ∅ ∅ (λ _ _, []) (λ _ _, None) (λ _ k, list_to_set (Cluster.owners cl k))).
  split; [|done]. assert (Hok : cluster_ok cl) by by apply stable_cluster_ok.
  split; cbn [state pool control at_rest]; [|done|done|].
  - split; cbn [fst snd cluster gates shards]; try done.
    + eapply nodes_show_ext; [|exact Hw]. intros n c k _ _. unfold val, agree. cbn.
      rewrite (decide_False (P := n ∈ [])) by apply not_elem_of_nil. apply decide_ext.
      change (n ∈ Cluster.owners cl k ↔ n ∈ (list_to_set (Cluster.owners cl k) : gset NodeId)). set_solver.
    + intros c k n Hn. by apply elem_of_nil in Hn.
    + intros k _ c n _. cbn. set_solver.
  - left. split; [done|]. exists cl. by split.
Qed.

(** C1. Operations during changes of the membership are linearizable, for any
    number of clients and any interleaving of steps, under this discipline
    ([dstep]): operations name a managed collection and fit the store, no two that
    write one key are in flight together, and a change of the membership (a
    rebalance, a drain, a new list with shards that join, to members the
    coordinator knows: [admin_ok]) is asked for when none is under way; every call
    to a shard is delivered and no request is given up half-way. Then what clients
    and administrator see is what an atomic map would have shown: every operation
    takes effect at one moment between its request and its answer, and a change of
    the membership is no change of the map. When every request has its answer, the
    cluster is a stable one of the members asked for last, and each key is on
    exactly its owners there: the other shards, those that left included, hold
    nothing. [Races] and [RaceExamples] show what happens otherwise. *)
Theorem linearizable_online cl m0 w tr c :
  started cl m0 w → run dstep (at_rest cl w) tr c →
  ∃ m os, run object_step (m0, ∅) tr (m, os)
    ∧ (pool c = ∅ → control c = ∅ →
         os = ∅ ∧ stable (cluster (state c))
         ∧ nodes (Cluster.partitioner (cluster (state c)))
           = members_after (nodes (Cluster.partitioner cl)) tr
         ∧ holds (cluster (state c)) m (shards (state c))).
Proof.
  intros Hs Hrun. destruct (good_start cl m0 w Hs) as (g & Hg & Hsh).
  destruct (run_good _ (sd_refs _ _ _ Hs) eq_refl _ _ _ _ _ Hg Hrun) as (g' & Hg' & Ho).
  rewrite Hsh in Ho. exists (spec g'), (ops g'). split; [done|]. intros Hp Hc.
  by apply (good_rest (Cluster.with_clients cl known) eq_refl _ c g').
Qed.

(** ** It comes to an end *)

(** One entry of the map is replaced by a smaller one, or removed. *)
Definition shrink {A} (R : A → A → Prop) (m' m : gmap nat A) : Prop :=
  ∃ i a, m !! i = Some a ∧ (m' = delete i m ∨ ∃ a', R a' a ∧ m' = <[i := a']> m).

Lemma shrink_insert {A} (R : A → A → Prop) i a (m : gmap nat A) :
  Acc R a → Acc (shrink R) m → m !! i = None → Acc (shrink R) (<[i := a]> m).
Proof.
  intros Ha. revert m. induction Ha as [a _ IHa]. intros m Hm. induction Hm as [m Hacc IHm].
  intros Hi. constructor. intros m' (j & b & Hj & Hm').
  destruct (decide (i = j)) as [<-|Hne].
  - rewrite lookup_insert_eq in Hj. injection Hj as <-. destruct Hm' as [->|(a' & Ha' & ->)].
    + rewrite delete_insert_id by done. by constructor.
    + rewrite insert_insert_eq. by apply IHa; [|constructor|].
  - rewrite lookup_insert_ne in Hj by done. destruct Hm' as [->|(b' & Hb' & ->)].
    + rewrite delete_insert_ne by done. apply IHm; [|by rewrite lookup_delete_ne].
      exists j, b. by split; [|left].
    + rewrite insert_insert_ne by done. apply IHm; [|by rewrite lookup_insert_ne].
      exists j, b. split; [done|]. right. by exists b'.
Qed.

Lemma shrink_acc {A} (R : A → A → Prop) (m : gmap nat A) :
  (∀ a, Acc R a) → Acc (shrink R) m.
Proof.
  intros HR. induction m as [|i a m Hi IH] using map_ind; [|by apply shrink_insert].
  constructor. intros m' (j & b & Hj & _). by rewrite lookup_empty in Hj.
Qed.

(** A step that answers the requests there are. *)
Definition progress (c' c : config V St) : Prop :=
  ∃ e, step c e c' ∧ match e with Some (Invoke _ _ | Ask _ _) => False | _ => True end.

Definition smaller_task (x y : dop (V := V) * proc (shared St) (dres (V := V))) : Prop := sub x.2 y.2.

Lemma smaller_acc o p : Acc smaller_task (o, p).
Proof.
  revert o. induction (sub_acc p) as [p _ IH]. intros o. constructor. intros [o' p'] Hs. by apply IH.
Qed.

Lemma progress_shrinks c' c :
  progress c' c →
  (shrink smaller_task (pool c') (pool c) ∧ control c' = control c)
  ∨ (pool c' = pool c ∧ shrink sub (control c') (control c)).
Proof.
  intros (e & [s pl ct i o Hi|s pl ct i o r Hi|s s' pl ct i o p p' Hi Hn
    |s pl ct j a Hj|s pl ct j sm Hj|s s' pl ct j p p' Hj Hn] & He); cbn; try done.
  - left. split; [|done]. eexists i, _. split; [done|by left].
  - left. split; [|done]. eexists i, _. split; [done|]. right. eexists (o, p'). split; [|done].
    by exists s, s'.
  - right. split; [done|]. eexists j, _. split; [done|by left].
  - right. split; [done|]. eexists j, _. split; [done|]. right. exists p'. split; [|done].
    by exists s, s'.
Qed.

Lemma progress_acc c : Acc progress c.
Proof.
  assert (Hp : Acc (shrink smaller_task) (pool c)).
  { apply shrink_acc. intros [o p]. apply smaller_acc. }
  assert (Hc : Acc (shrink sub) (control c)) by (apply shrink_acc; intros p; apply sub_acc).
  remember (pool c) as pl eqn:Hpl. remember (control c) as ct eqn:Hct. revert ct Hc c Hpl Hct.
  induction Hp as [pl _ IHp]. intros ct Hc. induction Hc as [ct Hacc IHc]. intros c -> ->.
  constructor. intros c' [[Hs He]|[He Hs]]%progress_shrinks.
  - apply (IHp _ Hs (control c)); [by constructor|done|by rewrite He].
  - by apply (IHc _ Hs).
Qed.

(** A system that cannot take another step has nothing left to do: a task that
    waits, waits for one that can go on. *)
Lemma good_stuck cl0 ns c g :
  good cl0 ns c g → (∀ c', ¬ progress c' c) → pool c = ∅ ∧ control c = ∅.
Proof.
  intros Hg Hno. destruct c as [s pl ct]. cbn [pool control].
  pose proof (gd_inv _ _ _ _ Hg) as Hi. cbn [state] in Hi.
  assert (Hop : ∀ i o p, pl !! i = Some (o, p) → blocked i (s, g)).
  { intros i o [r|f] Hp.
    - destruct (Hno (mkConfig s (delete i pl) ct)). eexists. split; [by eapply step_respond|done].
    - pose proof (gd_pool _ _ _ _ Hg i o _ Hp (s, g) (reflexivity _) Hi) as Hw. cbn [fst] in Hw.
      destruct (f s) as [[s' q]|] eqn:Hf; [|done].
      destruct (Hno (mkConfig s' (<[i := (o, q)]> pl) ct)). eexists. split; [by eapply step_op|done]. }
  assert (Hct : ∀ j p, ct = {[j := p]} → ∃ i b, inside g !! i = Some b).
  { intros j p Hj. assert (Hl : ct !! j = Some p) by (rewrite Hj; apply lookup_singleton_eq).
    destruct p as [sm|f].
    - destruct (Hno (mkConfig s pl (delete j ct))). eexists. split; [by eapply step_done|done].
    - destruct (gd_control _ _ _ _ Hg) as [[Hc _]|(j' & p & Hc & Hw)]; cbn [control] in Hc; [by rewrite Hc in Hl|].
      rewrite Hc in Hl. apply lookup_singleton_Some in Hl as [-> ->].
      specialize (Hw (s, g) (reflexivity _) Hi). cbn [fst] in Hw.
      destruct (f s) as [[s' q]|] eqn:Hf; [|done].
      destruct (Hno (mkConfig s' pl (<[j := q]> ct))). eexists.
      split; [eapply (step_control _ _ _ _ j (Act f)); [|exact Hf]; rewrite Hc; apply lookup_singleton_eq|done]. }
  assert (Hout : ∀ i b, inside g !! i ≠ Some b).
  { intros i b Hb. destruct (inv_inside _ _ Hi i b Hb) as (o & r & Ho & _).
    destruct (op_pool _ _ _ _ _ _ _ Hg Ho) as [p Hp]. destruct (Hop i o p Hp) as [Hn _].
    cbn in Hn. congruence. }
  enough (ct = ∅ ∧ Guard.frozen (gates s) = ∅) as [-> Hf].
  { split; [|done]. apply map_empty. intros i. destruct (pl !! i) as [[o p]|] eqn:Hp; [|done].
    by destruct (Hop i o p Hp) as [_ ?]. }
  destruct (gd_control _ _ _ _ Hg) as [[Hc (cl & Hid & _)]|(j & p & Hc & _)].
  - split; [done|apply Hid].
  - destruct (Hct j p Hc) as (i & b & Hb). by destruct (Hout i b).
Qed.

(** C3. In the system of C1, under the same discipline, with every call to a shard
    delivered and no request given up half-way, the requests come to an end once
    no new ones arrive: no schedule of their steps runs for ever (each task is a
    finite tree of steps), and none gets stuck, at a gate, at the lock or in a
    migration's wait, before every operation has its answer and the change of the
    membership is done. (A rebalance whose handler is dropped while a chunk is
    frozen is outside this system: [Races.cancelled_rebalance_blocks].) *)
Theorem online_completes cl m0 w tr c :
  started cl m0 w → run dstep (at_rest cl w) tr c →
  Acc progress c ∧ ((∀ c', ¬ progress c' c) → pool c = ∅ ∧ control c = ∅).
Proof.
  intros Hs Hrun. split; [apply progress_acc|].
  destruct (good_start cl m0 w Hs) as (g & Hg & _).
  destruct (run_good _ (sd_refs _ _ _ Hs) eq_refl _ _ _ _ _ Hg Hrun) as (g' & Hg' & _).
  intros Hno. by eapply good_stuck.
Qed.

End system.

End Linearizability.
