(* ===== verification/Races.v ===== *)
(** * What the clients and the administrator must not do

    [Linearizability] asks for some discipline: one rebalance at a time, and no
    two writes of one key at once.  This file shows, in the same system, what
    happens without it, what the operations that do not pass the gate see, and
    what a rebalance leaves whose handler is dropped half way. *)

From S2P Require Import Prelude Machine Text Partitioner Reshard Store Lease Shard Replica Client.
From S2P Require Import Journal Guard Proc Cluster DataPlane Migration Concurrent Linearizability.

Module Races.
Import Partitioner Proc DataPlane Migration Concurrent Linearizability.

(** ** Schedules in which a task runs to its end *)

Section alone.
Context {V St : Type} `{!IndexStore V St, !JsonValue V, !LeaseCodec V, !HashIter, !Env}.
Context (R : config V St → option (event V) → config V St → Prop).
Hypothesis Hsilent : ∀ c c', step c None c' → R c None c'.

Lemma run_op_alone c0 tr s pl ct i o p s' r :
  run R c0 tr (mkConfig s pl ct) → pl !! i = Some (o, p) → alone p s = Some (s', r) →
  run R c0 tr (mkConfig s' (<[i := (o, Ret r)]> pl) ct).
Proof.
  revert s pl. induction p as [a|f IH] using proc_ind_next; intros s pl Hrun Hi Hp.
  - injection Hp as <- <-. by rewrite insert_id.
  - cbn in Hp. destruct (f s) as [[s1 q]|] eqn:Hf; [|done].
    rewrite <-(insert_insert_eq pl i (o, Ret r) (o, q)). eapply (IH s s1 q); [done| |apply lookup_insert_eq|done].
    eapply run_silent; [exact Hrun|]. by apply Hsilent, (step_op _ _ _ _ i o (Act f)).
Qed.

Lemma run_control_alone c0 tr s pl ct j p s' sm :
  run R c0 tr (mkConfig s pl ct) → ct !! j = Some p → alone p s = Some (s', sm) →
  run R c0 tr (mkConfig s' pl (<[j := Ret sm]> ct)).
Proof.
  revert s ct. induction p as [a|f IH] using proc_ind_next; intros s ct Hrun Hj Hp.
  - injection Hp as <- <-. by rewrite insert_id.
  - cbn in Hp. destruct (f s) as [[s1 q]|] eqn:Hf; [|done].
    rewrite <-(insert_insert_eq ct j (Ret sm) q). eapply (IH s s1 q); [done| |apply lookup_insert_eq|done].
    eapply run_silent; [exact Hrun|]. by apply Hsilent, (step_control _ _ _ _ j (Act f)).
Qed.

(** The last step on a task that has ended. *)
Lemma run_respond c0 tr s pl ct i o r :
  (∀ c c', step c (Some (Respond i r)) c' → R c (Some (Respond i r)) c') →
  pl !! i = None → run R c0 tr (mkConfig s (<[i := (o, Ret r)]> pl) ct) →
  run R c0 (tr ++ [Respond i r]) (mkConfig s pl ct).
Proof.
  intros Hresp Hi Hrun. eapply run_event; [exact Hrun|]. apply Hresp.
  rewrite <-(delete_insert_id pl i (o, Ret r)) at 2 by done.
  eapply step_respond. by rewrite lookup_insert_eq.
Qed.

Lemma run_done c0 tr s pl ct j sm :
  (∀ c c', step c (Some (Done j sm)) c' → R c (Some (Done j sm)) c') →
  ct !! j = None → run R c0 tr (mkConfig s pl (<[j := Ret sm]> ct)) →
  run R c0 (tr ++ [Done j sm]) (mkConfig s pl ct).
Proof.
  intros Hresp Hj Hrun. eapply run_event; [exact Hrun|]. apply Hresp.
  rewrite <-(delete_insert_id ct j (Ret sm)) at 2 by done.
  eapply step_done. by rewrite lookup_insert_eq.
Qed.

End alone.

(** ** A scheduler *)

Section schedule.
Context {V St : Type} `{!IndexStore V St, !JsonValue V, !LeaseCodec V, !HashIter, !Env}.

(** Operation [i] takes a step, if it can. *)
Definition tick (c : config V St) (i : nat) : config V St :=
  match pool c !! i with
  | Some (o, p) =>
      match next p (state c) with
      | Some (s', p') => mkConfig s' (<[i := (o, p')]> (pool c)) (control c)
      | None => c
      end
  | None => c
  end.

Lemma run_ticks c0 tr c sched : run step c0 tr c → run step c0 tr (foldl tick c sched).
Proof.
  revert c. induction sched as [|i sched IH]; intros c Hrun; [done|]. cbn [foldl]. apply IH.
  destruct c as [s pl ct]. unfold tick. cbn [pool state control].
  destruct (pl !! i) as [[o p]|] eqn:Hi; [|done]. destruct (next p s) as [[s' p']|] eqn:Hp; [|done].
  eapply run_silent; [exact Hrun|]. by eapply step_op.
Qed.

End schedule.

(** ** Two rebalances at once *)

Section stale.
Context {V St : Type} `{!IndexStore V St, !IndexStoreLaws V St, !JsonValue V, !LeaseCodec V}.
Context `{!HashIter, !Env, !Reliable}.
Implicit Types (cl : Cluster.t) (w : world St).

(** None of the members to come owns the key now. *)
Definition displaced cl (nw : list NodeId) (key : string) : Prop :=
  ∀ n, n ∈ Cluster.owners cl key → n ∉ nw.

(** A key none of whose owners has a client is absent. *)
Lemma get_nobody cl coll key w :
  (∀ n, n ∈ Cluster.owners cl key → Cluster.client_of cl n = None) →
  Cluster.get (V := V) cl coll key w = (w, None).
Proof.
  unfold Cluster.get. induction (Cluster.owners cl key) as [|n ns IH]; intros Hn; [done|].
  cbn [Cluster.get_from]. destruct (Cluster.is_down cl n); [apply IH; set_solver|].
  rewrite Hn by set_solver. apply IH. set_solver.
Qed.

Abbreviation commit cl := (Cluster.commit_membership
  (Cluster.with_journal cl (Journal.clear (Cluster.journal cl)))).

Lemma same_members_refl ns : Cluster.same_members ns ns = true.
Proof.
  unfold Cluster.same_members. rewrite Nat.eqb_refl. apply forallb_forall. intros n Hn.
  by apply bool_decide_eq_true, list_elem_of_In.
Qed.

(** A migration whose old and new members are the same only commits them. *)
Lemma same_alone cl g ns w :
  alone (run_migration ns ns ∅) (mkShared cl g false w)
  = Some (mkShared (commit cl ns) g false w,
          Cluster.mkSummary (bucket_count (Cluster.partitioner cl)) 0 0 0).
Proof.
  unfold run_migration. rewrite same_members_refl. do 5 (eapply alone_step; [done|]). done.
Qed.

(** The members it commits were read before the lock: another rebalance has
    replaced them in the meantime, and has taken the data with it. *)
Lemma stale_commit cl nw m0 w cl1 w1 sm coll key :
  stable cl → target cl nw → inv cl m0 w →
  Cluster.rebalance (V := V) cl nw w = (w1, (cl1, sm)) →
  displaced cl nw key →
  Cluster.get (V := V) (commit cl1 (Cluster.member_ids cl)) coll key w1 = (w1, None).
Proof.
  intros Hs Ht Hw Hr Hn. pose proof (rebalance_ended cl nw m0 Hs (tg_NoDup _ _ Ht) w Hw) as He.
  rewrite Hr in He. cbn in He. destruct He as (He & _ & _).
  destruct (target_stable cl nw cl1 Hs Ht He) as [Hs1 _].
  apply get_nobody. intros n Ho.
  assert (Heq : committed cl1 (Cluster.member_ids cl) = commit cl1 (Cluster.member_ids cl)).
  { unfold committed, Cluster.with_overlay, Cluster.commit_membership. cbn.
    by rewrite (en_overlay _ _ _ _ _ He). }
  rewrite <-Heq in Ho.
  rewrite (committed_owners cl1 _ _ _ _ key (stable_startable cl1 Hs1)) in Ho.
  rewrite (en_target _ _ _ _ _ He), (en_topo _ _ _ _ _ He) in Ho.
  unfold displaced in Hn. rewrite members_owners in Hn by done. specialize (Hn n Ho).
  unfold Cluster.client_of. apply eq_None_not_Some. intros [c Hc].
  cbn in Hc. apply map_lookup_filter_Some in Hc as [Hc _].
  rewrite (en_clients _ _ _ _ _ He), decide_False in Hc; done.
Qed.

(** C8. Two rebalances requested together, back to the present members and to the
    new ones: the first has read the members when the second takes the lock, finds
    nothing to do when its turn comes, and commits the old members, whose data the
    other has moved away.  A key that none of the new members owned before is
    absent, whatever it held. *)
Theorem stale_rebalance_strands cl nw m0 w coll key :
  stable cl → target cl nw → inv cl m0 w →
  displaced cl nw key →
  ∃ sm0 sm1 c,
    run step (at_rest cl w)
      [Ask 0 (Rebalance (Cluster.member_ids cl)); Ask 1 (Rebalance nw); Done 1 sm1; Done 0 sm0;
       Invoke 2 (DGet (V := V) coll key); Respond 2 (RVal None)] c
    ∧ pool c = ∅ ∧ control c = ∅.
Proof.
  intros Hs Ht Hw Hn. set (g := Guard.new).
  assert (Hq : quiet_gates g) by done. pose proof (rebalance_alone cl g nw w Hq) as Hal.
  destruct (Cluster.rebalance cl nw w) as [w1 [cl1 sm1]] eqn:Hr.
  pose proof (stale_commit cl nw m0 w cl1 w1 sm1 coll key Hs Ht Hw Hr Hn) as Hget.
  set (old := Cluster.member_ids cl) in *. set (cl2 := commit cl1 old) in *.
  eexists _, sm1, (mkConfig (mkShared cl2 g false w1) ∅ ∅). split; [|done].
  assert (R1 : run step (at_rest (V := V) cl w) [Ask 0 (Rebalance old); Ask 1 (Rebalance nw)]
    (mkConfig (mkShared cl g false w) ∅ (<[1 := rebalance nw]> {[0 := run_migration old old ∅]}))).
  { apply (run_event step _ [Ask 0 (Rebalance old)] (mkConfig (mkShared cl g false w) ∅
      {[0 := run_migration old old ∅]})); [|by apply (step_ask _ _ _ 1 (Rebalance nw))].
    eapply (run_silent step _ _ (mkConfig (mkShared cl g false w) ∅ {[0 := rebalance old]})).
    - apply (run_event step _ [] (at_rest cl w)); [constructor|]. by apply (step_ask _ ∅ ∅ 0 (Rebalance old)).
    - rewrite <-(insert_singleton_eq 0 (run_migration old old ∅) (rebalance old)).
      by apply (step_control _ _ _ _ 0 (rebalance old)). }
  eapply (run_control_alone step (λ _ _ H, H) _ _ _ _ _ 1) in R1; [|by rewrite lookup_insert_eq|exact Hal].
  rewrite insert_insert_eq in R1. apply run_done in R1; [|done|done].
  eapply (run_control_alone step (λ _ _ H, H) _ _ _ _ _ 0) in R1;
    [|by rewrite lookup_singleton_eq|apply (same_alone cl1 g old w1)].
  rewrite insert_singleton_eq in R1. apply (run_done step _ _ _ _ ∅) in R1; [|done|done].
  apply (λ r, run_event step _ _ _ _ _ r (step_invoke _ ∅ ∅ 2 (DGet coll key) (lookup_empty 2))) in R1.
  eapply (run_op_alone step (λ _ _ H, H) _ _ _ _ _ 2) in R1;
    [|by rewrite lookup_insert_eq|apply (op_alone cl2 (DGet coll key)); [done|]].
  - rewrite insert_insert_eq in R1. apply (run_respond step _ _ _ ∅) in R1; [|done|apply lookup_empty]. revert R1.
    cbn [run_dop]. unfold mbind, M_bind. cbn [shards]. rewrite Hget. intros R1. exact R1.
  - intros b. cbn. rewrite lookup_empty. set_solver.
Qed.

(** ** What does not pass the gate *)

(** A batch read chooses the shards first and reads them later; a rebalance that
    runs in between leaves it asking the old owners: the key is reported absent,
    whatever it holds. *)
Lemma batch_read_misses cl nw m0 w cl1 w1 sm coll key :
  stable cl → target cl nw → inv cl m0 w →
  Cluster.rebalance (V := V) cl nw w = (w1, (cl1, sm)) →
  displaced cl nw key →
  let before := mkShared cl Guard.new false w in
  let after := mkShared cl1 Guard.new false w1 in
  ∃ p, next (mget (V := V) coll [key]) before = Some (before, p)
    ∧ alone p after = Some (after, [None]).
Proof.
  intros Hs Ht Hw Hr Hn before after. eexists. split; [done|].
  pose proof (rebalance_ended cl nw m0 Hs (tg_NoDup _ _ Ht) w Hw) as He.
  rewrite Hr in He. cbn in He. destruct He as (He & _ & _).
  cbn [before cluster bind]. unfold Cluster.group_keys. cbn [foldl imap length replicate].
  destruct (Cluster.live_owner cl key) as [n|] eqn:Hl; cycle 1.
  { pose proof (hash_iter_perm _ (∅ : gmap string (list nat))) as Hp.
    rewrite map_to_list_empty in Hp. apply Permutation_nil_r in Hp. by rewrite Hp. }
  assert (Ho : n ∈ Cluster.owners cl key).
  { apply head_Some_elem_of in Hl. unfold Cluster.live_owners in Hl.
    by apply list_elem_of_filter in Hl as [_ ?]. }
  change (Cluster.push_at n 0 ∅) with ({[n := [0]]} : gmap string (list nat)).
  pose proof (hash_iter_perm _ ({[n := [0]]} : gmap string (list nat))) as Hp.
  rewrite map_to_list_singleton in Hp. apply Permutation_singleton_r in Hp. rewrite Hp.
  cbn [loop]. eapply alone_step; [|reflexivity]. eapply alone_step; [reflexivity|].
  cbn [cluster after]. unfold Cluster.client_of.
  rewrite (en_clients _ _ _ _ _ He), decide_False by by apply Hn. done.
Qed.

(** *** A rebalance that is given up *)

(** Every step of the task, whenever it is taken, is within [P]. *)
Fixpoint within {S A} (P : S → S → Prop) (p : proc S A) : Prop :=
  match p with
  | Ret _ => True
  | Act f => ∀ s, match f s with Some (s', q) => P s s' ∧ within P q | None => True end
  end.

Lemma within_atomic {S A} (P : S → S → Prop) (f : S → S * A) :
  (∀ s, P s (f s).1) → within P (atomic f).
Proof. intros Hf s. specialize (Hf s). by destruct (f s). Qed.

Lemma within_bind {S A B} (P : S → S → Prop) (p : proc S A) (k : A → proc S B) :
  within P p → (∀ a, within P (k a)) → within P (p ≫= k).
Proof.
  unfold mbind, proc_bind. intros Hp Hk. induction p as [a|f IH] using proc_ind_next; [apply Hk|].
  cbn [bind within]. intros s. specialize (Hp s). destruct (f s) as [[s' q]|] eqn:Hq; [|done].
  destruct Hp as [HP Hw]. split; [done|]. by eapply IH.
Qed.

Lemma within_loop {S A R} (P : S → S → Prop) (xs : list A) (r : R) (body : R → A → proc S R) :
  (∀ r x, within P (body r x)) → within P (loop xs r body).
Proof.
  intros Hb. revert r. induction xs as [|x xs IH]; intros r; [done|]. by apply within_bind.
Qed.

Lemma within_next {S A} (P : S → S → Prop) (p q : proc S A) s s' :
  within P p → next p s = Some (s', q) → P s s' ∧ within P q.
Proof. destruct p as [a|f]; [done|]. cbn. intros Hw Hn. specialize (Hw s). by rewrite Hn in Hw. Qed.

(** No operation freezes or thaws a bucket. *)
Definition keeps_frozen (s s' : shared St) : Prop :=
  Guard.frozen (gates s') = Guard.frozen (gates s).

Lemma peek_keeps {A B} (f : Cluster.t → A) (k : A → proc (shared St) B) :
  (∀ a, within keeps_frozen (k a)) → within keeps_frozen (peek f ≫= k).
Proof. intros Hk. apply within_bind; [|done]. by apply within_atomic. Qed.

Lemma call_keeps {A B} (m : M St A) (k : A → proc (shared St) B) :
  (∀ a, within keeps_frozen (k a)) → within keeps_frozen (call m ≫= k).
Proof. intros Hk. apply within_bind; [|done]. apply within_atomic. intros s. by destruct (m (shards s)). Qed.

Lemma gated_keeps {A} key (body : proc (shared St) A) :
  within keeps_frozen body → within keeps_frozen (gated key body).
Proof.
  intros Hb. unfold gated. apply within_bind.
  - intros s. unfold Guard.try_enter. case_decide; [done|]. by split.
  - intros _. apply within_bind; [done|]. intros a. apply within_bind; [|done].
    apply within_atomic. intros s. unfold keeps_frozen, Guard.leave. cbn. by case_match.
Qed.

Ltac keeps :=
  repeat first [done | progress intros | apply gated_keeps | apply peek_keeps | apply call_keeps
                | apply within_loop | case_match | apply within_bind].

Lemma visit_keeps {R} (op : Client.t → M St R) n : within keeps_frozen (visit op n).
Proof. unfold visit. keeps. Qed.

Lemma get_from_keeps c k ns : within keeps_frozen (get_from (V := V) (St := St) c k ns).
Proof. induction ns as [|n ns IH]; [done|]. cbn [get_from]. keeps. Qed.

Lemma op_keeps o : within keeps_frozen (op_task (V := V) (St := St) o).
Proof.
  destruct o; cbn [op_task]; (apply within_bind; [|done]); apply gated_keeps;
    unfold live_owners, replicate_to; keeps; try apply get_from_keeps; apply visit_keeps.
Qed.

(** Nobody administers the cluster, the buckets [ch] are frozen, and the
    operations on them wait at their gates. *)
Definition stuck (ch : list nat) (c : config V St) : Prop :=
  control c = ∅ ∧ (∀ b, b ∈ ch → b ∈ Guard.frozen (gates (state c)))
  ∧ ∀ i o p, pool c !! i = Some (o, p) →
      within keeps_frozen p ∧ (bucket_of (dop_key o).2 ∈ ch → p = op_task o).

(** An operation starts at the gate of its key. *)
Lemma op_waits o (s : shared St) :
  bucket_of (dop_key o).2 ∈ Guard.frozen (gates s) → next (op_task (V := V) o) s = None.
Proof.
  destruct o; cbn; unfold Guard.try_enter; intros Hf; by rewrite decide_True.
Qed.

Lemma stuck_step ch c e c' :
  stuck ch c → step c e c' → (∀ j a, e ≠ Some (Ask j a)) → stuck ch c'.
Proof.
  intros (Hct & Hfr & Hpl) Hst He. destruct Hst as [s pl ct i o Hi|s pl ct i o r Hi
    |s s' pl ct i o p p' Hi Hp|s pl ct j a Hj|s pl ct j sm Hj|s s' pl ct j p p' Hj Hp];
    unfold stuck in *; cbn [control pool state] in *; try (subst ct; by rewrite lookup_empty in Hj).
  - split; [done|]. split; [done|]. intros i' o' p'. rewrite lookup_insert_Some.
    intros [[<- [= <- <-]]|[_ Hi']]; [split; [apply op_keeps|done]|by eapply Hpl].
  - split; [done|]. split; [done|]. intros i' o' p'. rewrite lookup_delete_Some.
    intros [_ Hi']. by eapply Hpl.
  - destruct (Hpl i o p Hi) as [Hw Hwait]. destruct (within_next _ _ _ _ _ Hw Hp) as [Hk Hw'].
    split; [done|]. split; [by rewrite Hk|]. intros i' o' q. rewrite lookup_insert_Some.
    intros [[<- [= <- <-]]|[_ Hi']]; [|by eapply Hpl]. split; [done|]. intros Hch.
    rewrite (Hwait Hch), op_waits in Hp by by apply Hfr. done.
  - by destruct (He j a).
Qed.

(** Once asked for, an operation on such a bucket waits for ever. *)
Lemma stuck_run ch c tr c' :
  stuck ch c → pool c = ∅ → run step c tr c' → (∀ j a, Ask j a ∉ tr) →
  stuck ch c' ∧ ∀ i o, Invoke i o ∈ tr → bucket_of (dop_key o).2 ∈ ch → pool c' !! i = Some (o, op_task o).
Proof.
  intros Hc Hpool Hrun. induction Hrun as [|tr c1 c2 _ IH Hst|tr c1 e c2 _ IH Hst]; intros Hna.
  - split; [done|]. by intros i o ?%elem_of_nil.
  - destruct (IH Hna) as [Hs1 Hp1]. split; [by eapply stuck_step|]. intros i o Hin Hch.
    specialize (Hp1 i o Hin Hch). destruct Hs1 as (Hct & Hfr & _).
    inversion Hst as [| |s s' pl ct i' o' p p' Hi Hp E1 E2 E3| | |s s' pl ct j p p' Hj Hp E1 E2 E3];
      subst c1 c2; cbn [pool control state] in *; [|by subst ct].
    rewrite lookup_insert_ne; [done|]. intros ->. rewrite Hp1 in Hi. injection Hi as <- <-.
    rewrite op_waits in Hp by by apply Hfr. done.
  - destruct IH as [Hs1 Hp1]; [set_solver|]. split; [eapply stuck_step; [done..|]; set_solver|].
    intros i o Hin Hch. apply elem_of_app in Hin as [Hin|<-%list_elem_of_singleton].
    + specialize (Hp1 i o Hin Hch).
      inversion Hst as [s pl ct i' o' Hi E1 E2 E3|s pl ct i' o' r Hi E1 E2 E3| | | |];
        subst; cbn [pool] in *; try done.
      * rewrite lookup_insert_ne; [done|]. intros ->. congruence.
      * rewrite lookup_delete_ne; [done|]. intros ->. rewrite Hp1 in Hi. injection Hi as <- Hi.
        by destruct o.
    + inversion Hst; subst. cbn. by rewrite lookup_insert_eq.
Qed.

(** [n] steps of a task. *)
Fixpoint after {S A} (n : nat) (p : proc S A) (s : S) : option (S * proc S A) :=
  match n with
  | O => Some (s, p)
  | Datatypes.S n => '(s', q) ← next p s; after n q s'
  end.

Lemma run_control_after c0 tr n : ∀ s pl ct j p s' q,
  run step c0 tr (mkConfig (V := V) (St := St) s pl ct) → ct !! j = Some p → after n p s = Some (s', q) →
  run step c0 tr (mkConfig s' pl (<[j := q]> ct)).
Proof.
  induction n as [|n IH]; intros s pl ct j p s' q Hrun Hj Ha.
  - injection Ha as <- <-. by rewrite insert_id.
  - cbn in Ha. destruct (next p s) as [[s1 p1]|] eqn:Hn; [|done].
    rewrite <-(insert_insert_eq ct j q p1). eapply IH; [|apply lookup_insert_eq|exact Ha].
    eapply run_silent; [exact Hrun|]. by eapply step_control.
Qed.

(** Up to the frozen chunk. *)
Lemma rebalance_freezes cl nw cl1 m ch chs w :
  Cluster.same_members (Cluster.member_ids cl) nw = false →
  Cluster.begin_migration cl (Cluster.member_ids cl) nw ∅ = (cl1, m, ch :: chs) →
  ∃ f, after 6 (rebalance (V := V) nw) (mkShared cl Guard.new false w)
       = Some (mkShared cl1 (Guard.freeze Guard.new ch) true w, Act f).
Proof.
  intros Hsame Hb. eexists. cbn [after next rebalance peek atomic mbind proc_bind bind option_bind cluster].
  unfold run_migration. cbn -[Cluster.begin_migration]. rewrite Hsame. cbn -[Cluster.begin_migration].
  rewrite Hb. cbn. reflexivity.
Qed.

(** The administrator's connection breaks while its rebalance moves a chunk: the
    lock is released and no request is under way, but the buckets of the chunk
    stay frozen.  From then on, until another migration takes them up, no
    operation on them is ever answered. *)
Theorem cancelled_rebalance_blocks cl nw cl1 m ch chs w :
  Cluster.same_members (Cluster.member_ids cl) nw = false →
  Cluster.begin_migration cl (Cluster.member_ids cl) nw ∅ = (cl1, m, ch :: chs) →
  ∃ c0 c, run step (at_rest cl w) [Ask 0 (Rebalance nw)] c0 ∧ cancel (V := V) c0 c
    ∧ control c = ∅ ∧ locked (state c) = false
    ∧ ∀ tr c', run step c tr c' → (∀ j a, Ask j a ∉ tr) →
        ∀ i o, Invoke i o ∈ tr → bucket_of (dop_key o).2 ∈ ch →
          pool c' !! i = Some (o, op_task o) ∧ next (op_task o) (state c') = None.
Proof.
  intros Hsame Hb. set (old := Cluster.member_ids cl) in *.
  set (s1 := mkShared cl1 (Guard.freeze Guard.new ch) true w).
  destruct (rebalance_freezes cl nw cl1 m ch chs w Hsame Hb) as [f Hf].
  assert (R1 : run step (at_rest (V := V) cl w) [Ask 0 (Rebalance nw)] (mkConfig s1 ∅ {[0 := Act f]})).
  { rewrite <-(insert_singleton_eq 0 (Act f) (rebalance nw)). eapply run_control_after; [|apply lookup_singleton_eq|exact Hf].
    apply (run_event step _ [] (at_rest cl w)); [constructor|]. by apply (step_ask _ ∅ ∅ 0 (Rebalance nw)). }
  exists (mkConfig s1 ∅ {[0 := Act f]}), (mkConfig (with_lock s1 false) ∅ ∅).
  split; [exact R1|]. split; [apply cancel_control|]. split; [done|]. split; [done|].
  intros tr c' Hrun Hna i o Hin Hch.
  assert (Hst : stuck ch (mkConfig (with_lock s1 false) ∅ ∅)).
  { split; [done|]. split; [|intros ???; cbn; by rewrite lookup_empty].
    intros b Hb'. apply (Guard.elem_of_freeze Guard.new). by left. }
  destruct (stuck_run ch _ tr c' Hst eq_refl Hrun Hna) as [(_ & Hfr & _) Hp].
  split; [by apply Hp|]. apply op_waits, Hfr, Hch.
Qed.

(** A bulk load looks at the members and not at the overlay: during a migration
    the entries of the buckets that were moved already go to their old owners. *)
Lemma bulk_load_ignores_overlay cl o coll es w :
  Cluster.bulk_load (V := V) (Cluster.with_overlay cl o) coll es w = Cluster.bulk_load cl coll es w.
Proof. done. Qed.

End stale.

End Races.
