(* ===== verification/Scans.v ===== *)
(** * Batch reads, ordered scans and the partition plan

    The multi-key reads of [Cluster]: [mget] regroups keys by shard and puts the
    answers back in place, [scan_range] merges the ordered pages of all shards,
    [partition_plan] tiles the keyspace for parallel readers. *)

From S2P Require Import Prelude Machine Text Partitioner Reshard Store Lease Shard Replica Client.
From S2P Require Import Journal Cluster DataPlane.

Local Open Scope Z_scope.

Module Scans.
Import Partitioner Cluster DataPlane.

(** ** Positions *)

Lemma place_spec {A} (g : nat → option A) idxs vals out :
  (∀ j i, idxs !! j = Some i → mjoin (vals !! j) = g i) →
  length (place out idxs vals) = length out
  ∧ ∀ i, place out idxs vals !! i
         = if decide (i ∈ idxs ∧ (i < length out)%nat) then Some (g i) else out !! i.
Proof.
  unfold place. revert vals out. induction idxs as [|i0 idxs IH] using rev_ind; intros vals out Hg.
  { split; [done|]. intros i. rewrite decide_False; [done|]. set_solver. }
  rewrite imap_app, foldl_app. cbn [imap foldl].
  destruct (IH vals out) as [Hlen Hget].
  { intros j i Hj. apply Hg. by apply lookup_app_l_Some. }
  assert (mjoin (vals !! (length idxs + 0)%nat) = g i0) as ->.
  { apply Hg. rewrite Nat.add_0_r. by apply list_lookup_middle. }
  rewrite length_insert. split; [done|]. intros i.
  destruct (decide (i0 = i)) as [->|Hi].
  - destruct (decide (i < length out)%nat) as [Hlt|Hge].
    + rewrite list_lookup_insert_eq by lia. rewrite decide_True by set_solver. done.
    + rewrite list_insert_ge by lia. rewrite Hget.
      by rewrite !decide_False by naive_solver.
  - rewrite list_lookup_insert_ne by done. rewrite Hget. apply decide_ext. set_solver.
Qed.

(** ** Ordered pages *)

(** Merging pages that hold the first [n] keys of the whole loses none of them. *)
Lemma take_sandwich n (l k : list string) :
  StronglySorted str_lt l → StronglySorted str_lt k →
  (∀ x, x ∈ k → x ∈ l) → (∀ x, x ∈ take n l → x ∈ k) → take n k = take n l.
Proof.
  intros Hl Hk Hsub Htake.
  assert (k = filter (.∈ k) l) as Heq.
  { apply strict_sorted_ext; [done|by apply StronglySorted_filter|].
    intros x. rewrite list_elem_of_filter. naive_solver. }
  assert (k = take n l ++ filter (.∈ k) (drop n l)) as Hk'.
  { rewrite Heq at 1. rewrite <-(take_drop n l) at 1. rewrite filter_app. f_equal.
    by apply filter_all. }
  destruct (decide (n ≤ length l)%nat).
  - rewrite Hk', take_app_length'; [done|]. rewrite length_take. lia.
  - rewrite drop_ge, app_nil_r in Hk' by lia. rewrite take_ge in Hk' by lia. by rewrite Hk'.
Qed.

(** A key among the first [n] of the whole is among the first [n] of any
    sublist that has it. *)
Lemma take_sub n (l k : list string) x :
  StronglySorted str_lt l → StronglySorted str_lt k → (∀ x, x ∈ k → x ∈ l) →
  x ∈ take n l → x ∈ k → x ∈ take n k.
Proof.
  intros Hl Hk Hsub Hx Hxk. set (f := filter (.∈ k) (take n l)).
  assert (k = f ++ filter (.∈ k) (drop n l)) as Heq.
  { unfold f. rewrite <-filter_app, take_drop.
    apply strict_sorted_ext; [done|by apply StronglySorted_filter|].
    intros y. rewrite list_elem_of_filter. naive_solver. }
  assert (length f ≤ n)%nat as Hlen.
  { unfold f. etrans; [apply length_filter|]. rewrite length_take. lia. }
  rewrite Heq, take_app_ge by done. apply elem_of_app. left.
  apply list_elem_of_filter. by split.
Qed.

Section scans.
Context {V St : Type} `{!IndexStore V St, !IndexStoreLaws V St, !JsonValue V, !LeaseCodec V}.
Context `{!HashIter, !Env}.
Implicit Types (cl : Cluster.t) (w : world St) (spec : view V).

Lemma elem_of_group_keys cl keys n i :
  i ∈ at_key (group_keys cl keys) n ↔ ∃ k, keys !! i = Some k ∧ live_owner cl k = Some n.
Proof.
  unfold group_keys. induction keys as [|k keys IH] using rev_ind.
  { cbn. rewrite at_key_empty. set_solver. }
  rewrite imap_app, foldl_app. cbn [imap foldl]. rewrite Nat.add_0_r.
  setoid_rewrite lookup_app_Some.
  assert (Hk : ∀ k0, [k] !! (i - length keys)%nat = Some k0 ∧ (length keys ≤ i)%nat
                ↔ k0 = k ∧ i = length keys).
  { intros k0. destruct (i - length keys)%nat as [|d] eqn:Hd; cbn.
    - split; [intros [[= <-] ?]|intros [-> ?]]; split; try done; lia.
    - split; [by intros [? _]|intros [_ ?]; lia]. }
  destruct (live_owner cl k) as [n0|] eqn:Ho.
  - rewrite at_key_push. destruct (decide (n0 = n)) as [->|Hn].
    + rewrite elem_of_app, IH, list_elem_of_singleton. split.
      * intros [(k' & ? & ?)|He]; [exists k'; tauto|subst i]. exists k. split; [right|done].
        apply and_comm, Hk. done.
      * intros (k' & [?|[? ?]] & ?); [left; by exists k'|right]. by apply (Hk k').
    + rewrite IH. split; [intros (k' & ? & ?); exists k'; tauto|].
      intros (k' & [?|[H1 H2]] & ?); [by exists k'|].
      destruct (proj1 (Hk k') (conj H2 H1)) as [-> _]. congruence.
  - rewrite IH. split; [intros (k' & ? & ?); exists k'; tauto|].
    intros (k' & [?|[H1 H2]] & ?); [by exists k'|].
    destruct (proj1 (Hk k') (conj H2 H1)) as [-> _]. congruence.
Qed.

Lemma elem_of_hash_groups cl keys n idxs :
  (n, idxs) ∈ hash_iter (group_keys cl keys) → at_key (group_keys cl keys) n = idxs.
Proof. rewrite elem_of_hash_iter. unfold at_key. by intros ->. Qed.

Lemma omap_positions (keys : list string) (idxs : list nat) :
  (∀ i, i ∈ idxs → is_Some (keys !! i)) →
  ∀ j i, idxs !! j = Some i → omap (λ i, keys !! i) idxs !! j = keys !! i.
Proof.
  induction idxs as [|i0 idxs IH]; intros Hi j i Hj; [done|]. cbn [omap list_omap].
  destruct (Hi i0 ltac:(left)) as [k0 Hk0]. rewrite Hk0.
  destruct j as [|j]; cbn in *; [by simplify_eq|]. apply IH; [|done]. intros. apply Hi. by right.
Qed.

(** *** Batch get *)

Section reliable.
Context `{!Reliable}.

(** The positions served by the groups visited so far hold their values. *)
Definition filled cl spec c keys (pre : list (NodeId * list nat)) (out : list (option V)) : Prop :=
  length out = length keys
  ∧ ∀ i k, keys !! i = Some k →
      out !! i = Some (if decide (Exists (λ x, i ∈ x.2) pre) then spec c k else None).

Lemma group_client cl keys n idxs :
  cluster_ok cl → (n, idxs) ∈ hash_iter (group_keys cl keys) →
  ∀ i, i ∈ idxs → ∃ k, keys !! i = Some k ∧ n ∈ owners cl k.
Proof.
  intros Hok Hin i Hi. rewrite <-(elem_of_hash_groups cl keys n idxs Hin) in Hi.
  apply elem_of_group_keys in Hi as (k & Hk & Ho). exists k. split; [done|].
  unfold live_owner in Ho. rewrite live_owners_all in Ho by done. by apply head_Some_elem_of.
Qed.

Lemma fill_group cl spec c keys pre n idxs out :
  cluster_ok cl → (n, idxs) ∈ hash_iter (group_keys cl keys) →
  filled cl spec c keys pre out →
  filled cl spec c keys (pre ++ [(n, idxs)])
    (place out idxs (map (spec c) (omap (λ i, keys !! i) idxs))).
Proof.
  intros Hok Hin [Hlen Hout]. pose proof (group_client cl keys n idxs Hok Hin) as Hg.
  set (g := λ i, keys !! i ≫= spec c).
  destruct (place_spec g idxs (map (spec c) (omap (λ i, keys !! i) idxs)) out) as [Hl Hp].
  { intros j i Hj. rewrite list_lookup_fmap, (omap_positions keys idxs) with (i := i); [|..|done].
    - unfold g. by destruct (keys !! i).
    - intros i' Hi'. destruct (Hg i' Hi') as (k & -> & _). by eexists. }
  split; [lia|]. intros i k Hk. rewrite Hp. rewrite (Hout i k Hk).
  assert (i < length out)%nat as Hlt by (rewrite Hlen; by eapply lookup_lt_Some).
  unfold g. rewrite Hk. cbn [mbind option_bind].
  assert (Hex : Exists (λ x, i ∈ x.2) (pre ++ [(n, idxs)]) ↔ Exists (λ x, i ∈ x.2) pre ∨ i ∈ idxs).
  { rewrite Exists_app, Exists_cons, Exists_nil. cbn. tauto. }
  destruct (decide (i ∈ idxs)) as [Hi|Hi].
  - rewrite decide_True by done. by rewrite decide_True by tauto.
  - rewrite decide_False by tauto. f_equal. apply decide_ext. tauto.
Qed.

Lemma mget_loop cl spec c keys :
  cluster_ok cl → c ∈ colls cl →
  hoare (inv cl spec) (mget cl c keys) (λ r w',
    inv cl spec w' ∧ filled cl spec c keys (hash_iter (group_keys cl keys)) r).
Proof.
  intros Hok Hc. unfold mget.
  eapply hoare_conseq; [apply (hoare_forM _ _ _
    (λ pre out w, inv cl spec w ∧ filled cl spec c keys pre out))|..].
  - intros pre [n idxs] post out Hxs.
    assert (Hin : (n, idxs) ∈ hash_iter (group_keys cl keys)) by (rewrite Hxs; set_solver).
    destruct (client_of cl n) as [cli|] eqn:Hcli; cycle 1.
    { apply hoare_ret. intros w [Hw Hf]. split; [done|].
      replace out with (place out idxs (map (spec c) (omap (λ i, keys !! i) idxs)));
        [by apply fill_group|].
      assert (idxs = []) as ->; [|done]. apply list_nil_iff. intros i Hi.
      destruct (group_client cl keys n idxs Hok Hin i Hi) as (k & _ & Hn).
      apply ok_client in Hn as [? Hn]; [|done]. unfold client_of in Hcli. congruence. }
    intros w [Hw Hf]. unfold mbind, M_bind.
    pose proof (query_spec cl (agree cl spec) n cli
      (λ now sh, Shard.mget now sh c (omap (λ i, keys !! i) idxs))
      (λ r, r = map (spec c) (omap (λ i, keys !! i) idxs)) (ok_refs _ Hok) Hcli) as Hq.
    destruct (Hq) with (w := w) as [(vals & Hr & ->) Hw']; [|done|].
    { intros now sh Hs. apply map_ext_in. intros k Hk%list_elem_of_In.
      apply list_elem_of_omap in Hk as (i & Hi & Hk).
      destruct (group_client cl keys n idxs Hok Hin i Hi) as (k' & Hk' & Hn). simplify_eq.
      etrans; [apply (shows_object _ _ _ now c k Hs Hc)|]. unfold agree. by rewrite decide_True. }
    unfold Client.mget. destruct (Client.query cli _ w) as [w1 r]. cbn [fst snd] in *. subst r.
    split; [done|]. by apply fill_group.
  - intros w Hw. split; [done|]. split; [apply length_replicate|]. intros i k Hk.
    rewrite lookup_replicate_2 by (by eapply lookup_lt_Some). by rewrite decide_False by inversion 1.
  - done.
Qed.

(** Batch get: one request per shard, reassembled, answers every requested
    key (duplicates included) with exactly the value a single read of it
    returns, in the order of the request. *)
Theorem mget_in_order cl spec c keys w :
  cluster_ok cl → c ∈ colls cl → inv cl spec w →
  (mget cl c keys w).2 = map (spec c) keys ∧ inv cl spec (mget cl c keys w).1.
Proof.
  intros Hok Hc Hw. destruct (mget_loop cl spec c keys Hok Hc w Hw) as [Hw' [Hlen Hout]].
  split; [|done]. apply list_eq. intros i. rewrite list_lookup_fmap.
  destruct (keys !! i) as [k|] eqn:Hk.
  - rewrite (Hout i k Hk). cbn. f_equal. apply decide_True. apply Exists_exists.
    destruct (primary_of cl Hok k) as (p & rs & pc & Ho & _).
    assert (i ∈ at_key (group_keys cl keys) p) as Hi.
    { apply elem_of_group_keys. exists k. split; [done|]. unfold live_owner.
      by rewrite live_owners_all, Ho. }
    unfold at_key in Hi. destruct (group_keys cl keys !! p) as [idxs|] eqn:Hp;
      [|by apply elem_of_nil in Hi].
    exists (p, idxs). split; [by apply elem_of_hash_iter|done].
  - apply lookup_ge_None_2. rewrite Hlen. by apply lookup_ge_None.
Qed.

End reliable.

(** *** Ordered scans *)

Section scan.
Context `{!Reliable}.

(** [l] lists the live keys of collection [c] within bounds, ascending. *)
Definition lists spec c (a p e : option string) (l : list string) : Prop :=
  StronglySorted str_lt l ∧ ∀ k, k ∈ l ↔ is_Some (spec c k) ∧ in_bounds a p e k.

(** The page a shard answers: the first keys of its own list. *)
Lemma shard_page cols sh m now c a p e n :
  shows cols sh m → c ∈ cols →
  ∃ l, lists m c a p e l ∧ Shard.scan_range now sh c a p e n = take n l.
Proof.
  intros Hs Hc. exists (filter (in_bounds a p e) (live_keys now (Shard.store sh) c)).
  split; [|apply Store.scan_range_spec, Hs]. split.
  - apply StronglySorted_filter, live_keys_sorted, Hs.
  - intros k. rewrite list_elem_of_filter, elem_of_live_keys by apply Hs.
    change (get_object now (Shard.store sh) c k) with (Shard.object now sh c k).
    rewrite (shows_object _ _ _ now c k Hs Hc). tauto.
Qed.

(** What the merge holds after the clients in [pre]. *)
Definition merged_ok cl n l (pre : list Client.t) (mrg : gset string) : Prop :=
  (∀ k, k ∈ mrg → k ∈ l)
  ∧ ∀ node cli k, clients cl !! node = Some cli → cli ∈ pre → node ∈ owners cl k →
      k ∈ take n l → k ∈ mrg.

Lemma merge_page cl spec c a p e n l pre mrg node cli page :
  lists spec c a p e l → merged_ok cl n l pre mrg →
  refs_inj cl → clients cl !! node = Some cli →
  (∃ l', lists (agree cl spec node) c a p e l' ∧ page = take n l') →
  merged_ok cl n l (pre ++ [cli]) (mrg ∪ list_to_set page).
Proof.
  intros [Hsort Hl] [Hsub Hall] Hinj Hcli (l' & [Hsort' Hl'] & ->).
  assert (Hin : ∀ k, k ∈ l' → k ∈ l).
  { intros k Hk. apply Hl' in Hk as [Hk ?]. apply Hl. split; [|done].
    unfold agree in Hk. case_decide; [done|by destruct Hk]. }
  split.
  - intros k [Hk|Hk]%elem_of_union; [by apply Hsub|].
    apply Hin. rewrite elem_of_list_to_set in Hk. by eapply elem_of_take.
  - intros node' cli' k Hcli' Hpre Hown Hk. apply elem_of_union.
    apply elem_of_app in Hpre as [Hpre|Hpre]; [left; by eapply Hall|]. right.
    apply list_elem_of_singleton in Hpre. subst cli'.
    assert (node' = node) as -> by (by eapply Hinj). apply elem_of_list_to_set.
    apply (take_sub n l); [done..|]. apply Hl'. unfold agree. rewrite decide_True by done.
    apply Hl. by eapply elem_of_take.
Qed.

Lemma elem_of_hash_values {A} (m : gmap string A) x :
  x ∈ hash_values m ↔ ∃ k, m !! k = Some x.
Proof.
  unfold hash_values. rewrite list_elem_of_fmap. split.
  - intros ([k y] & -> & Hin). apply elem_of_hash_iter in Hin. by exists k.
  - intros [k Hk]. exists (k, x). split; [done|]. by apply elem_of_hash_iter.
Qed.

Lemma scan_loop cl spec c a p e n l :
  cluster_ok cl → c ∈ colls cl → lists spec c a p e l →
  hoare (inv cl spec)
    (forM (hash_values (clients cl)) (∅ : gset string) (λ merged cli,
      if is_down cl (Client.id cli) then mret merged
      else
        r ← Client.scan_range cli c a p e n;
        match r with
        | Ok keys => mret (merged ∪ list_to_set keys)
        | Err _ => mret merged
        end))
    (λ mrg w', inv cl spec w' ∧ merged_ok cl n l (hash_values (clients cl)) mrg).
Proof.
  intros Hok Hc Hl.
  eapply hoare_conseq; [apply (hoare_forM _ _ _
    (λ pre mrg w, inv cl spec w ∧ merged_ok cl n l pre mrg))|..].
  - intros pre cli post mrg Hxs. rewrite nobody_down by done.
    assert (cli ∈ hash_values (clients cl)) as [node Hcli]%elem_of_hash_values
      by (rewrite Hxs; set_solver).
    intros w [Hw Hm]. unfold mbind, M_bind.
    destruct (query_spec cl (agree cl spec) node cli
      (λ now sh, Shard.scan_range now sh c a p e n)
      (λ r, ∃ l', lists (agree cl spec node) c a p e l' ∧ r = take n l')
      (ok_refs _ Hok) Hcli (λ now sh Hs, shard_page _ sh _ now c a p e n Hs Hc) w Hw)
      as [(keys & Hr & Hpage) Hw'].
    unfold Client.scan_range. destruct (Client.query cli _ w) as [w1 r]. cbn [fst snd] in *.
    subst r. split; [done|]. eapply merge_page; [done..|apply Hok|done|done].
  - intros w Hw. split; [done|]. split; [set_solver|]. intros ??? _ Hn. by apply elem_of_nil in Hn.
  - done.
Qed.

Lemma scan_range_page cl spec c a p e n l w :
  cluster_ok cl → c ∈ colls cl → inv cl spec w → lists spec c a p e l →
  (scan_range cl c a p e n w).2
  = (take n l, if (n <=? length (take n l))%nat then last (take n l) else None)
  ∧ inv cl spec (scan_range cl c a p e n w).1.
Proof.
  intros Hok Hc Hw Hl. destruct (scan_loop cl spec c a p e n l Hok Hc Hl w Hw) as [Hw' [Hsub Hall]].
  unfold scan_range. set (loop := forM _ _ _) in *. unfold mbind, M_bind.
  destruct (loop w) as [w1 mrg]. cbn [fst snd] in *.
  assert (take n (sort_strings (elements mrg)) = take n l) as Hpage.
  { apply take_sandwich; [apply Hl|apply sort_strings_strict, NoDup_elements|..].
    - intros x. rewrite elem_of_sort_strings, elem_of_elements. apply Hsub.
    - intros x Hx. rewrite elem_of_sort_strings, elem_of_elements.
      destruct (primary_of cl Hok x) as (node & rs & cli & Ho & Hcli).
      apply (Hall node cli); [done|apply elem_of_hash_values; by exists node| |done].
      rewrite Ho. left. }
  unfold mret, M_ret. cbn [fst snd]. rewrite Hpage. by split.
Qed.

(** A cluster scan returns one ascending page without duplicates: the first
    [limit] of all the live keys of the collection that are within the bounds,
    over all shards; the cursor is its last key exactly when the page is full. *)
Theorem scan_range_merges cl spec c a p e n l w :
  cluster_ok cl → c ∈ colls cl → inv cl spec w → lists spec c a p e l →
  (scan_range cl c a p e n w).2
  = (take n l, if (n <=? length (take n l))%nat then last (take n l) else None)
  ∧ inv cl spec (scan_range cl c a p e n w).1.
Proof. apply scan_range_page. Qed.

(** A reader that follows the cursor until it is absent. *)
Fixpoint scan_all (fuel : nat) cl (c : string) (cursor : option string) (n : nat)
    (acc : list string) : M St (option (list string)) :=
  match fuel with
  | O => mret None
  | S f =>
      '(page, next) ← scan_range cl c cursor None None n;
      match next with
      | Some k => scan_all f cl c (Some k) n (acc ++ page)
      | None => mret (Some (acc ++ page))
      end
  end.

Lemma lists_after spec c l cur :
  lists spec c None None None l →
  lists spec c cur None None (filter (in_bounds cur None None) l).
Proof.
  intros [Hs Hl]. split; [by apply StronglySorted_filter|]. intros k.
  rewrite list_elem_of_filter, Hl. unfold in_bounds. cbn. tauto.
Qed.

(** C24. Paging is complete, as long as every call to a shard is delivered, no
    node is marked down and the shard clients return the pages they are asked for
    (over HTTP that is at most 10,000 keys: [Http.remote_scan_capped]): a reader
    that passes each returned cursor to the next scan, with any page size, sees
    every key of the collection exactly once, in ascending order, and stops. *)
Theorem scan_pages_complete cl spec c l w n fuel :
  cluster_ok cl → c ∈ colls cl → inv cl spec w → lists spec c None None None l →
  (1 ≤ n)%nat → (length l < fuel)%nat →
  (scan_all fuel cl c None n [] w).2 = Some l.
Proof.
  intros Hok Hc Hw Hl Hn Hf.
  enough (∀ cur acc w, inv cl spec w →
    (length (filter (in_bounds cur None None) l) < fuel)%nat →
    (scan_all fuel cl c cur n acc w).2 = Some (acc ++ filter (in_bounds cur None None) l)) as Hgo.
  { rewrite Hgo; [|done|by eapply Nat.le_lt_trans; [apply length_filter|]].
    by rewrite filter_all. }
  clear Hw Hf w. induction fuel as [|f IH]; intros cur acc w Hw Hf; [lia|].
  cbn [scan_all]. unfold mbind, M_bind.
  destruct (scan_range_page cl spec c cur None None n _ w Hok Hc Hw (lists_after _ _ _ cur Hl))
    as [Hpage Hw'].
  destruct (scan_range cl c cur None None n w) as [w1 [page next]]. cbn [fst snd] in *.
  set (rest := filter (in_bounds cur None None) l) in *. injection Hpage as -> ->.
  destruct (Nat.leb_spec n (length (take n rest))) as [Hfull|Hshort].
  - destruct (last (take n rest)) as [k|] eqn:Hlast;
      [|apply last_None in Hlast; rewrite Hlast in Hfull; cbn in Hfull; lia].
    pose proof (resume_after l cur n k (proj1 Hl) Hlast) as Hres. fold rest in Hres.
    rewrite IH; [|done|].
    + by rewrite Hres, <-app_assoc, take_drop.
    + rewrite Hres, length_drop. rewrite length_take in Hfull. lia.
  - rewrite length_take in Hshort. by rewrite take_ge by lia.
Qed.

End scan.

End scans.

(** ** The partition plan *)

Section partition.
Context `{!HashIter}.
Implicit Types (cl : Cluster.t).

Lemma at_key_assign p m l n :
  at_key (foldl (assign_bucket p) m l) n
  = at_key m n ++ filter (λ b, head (owners_of_bucket p b 1) = Some n) l.
Proof.
  revert m. induction l as [|b l IH]; intros m; cbn [foldl]; [by rewrite app_nil_r|].
  rewrite IH, filter_cons. unfold assign_bucket.
  destruct (head (owners_of_bucket p b 1)) as [n0|]; [|by rewrite decide_False].
  rewrite at_key_push. destruct (decide (n0 = n)) as [->|Hn].
  - rewrite decide_True by done. by rewrite <-app_assoc.
  - by rewrite decide_False by congruence.
Qed.

Definition primaries (p : Partitioner.t) : gmap NodeId (list nat) :=
  foldl (assign_bucket p) ∅ (seq 0 (bucket_count p)).

Lemma primaries_lookup p n bs :
  primaries p !! n = Some bs →
  bs = filter (λ b, head (owners_of_bucket p b 1) = Some n) (seq 0 (bucket_count p)).
Proof.
  intros Hn. pose proof (at_key_assign p ∅ (seq 0 (bucket_count p)) n) as Ha.
  rewrite at_key_empty in Ha. fold (primaries p) in Ha. unfold at_key in Ha.
  by rewrite Hn in Ha.
Qed.

Lemma elem_of_plan cl q :
  q ∈ partition_plan cl → primaries (partitioner cl) !! p_id q = Some (p_buckets q).
Proof.
  unfold partition_plan. rewrite merge_sort_Permutation, list_elem_of_fmap.
  intros ([n bs] & -> & Hin). by apply elem_of_hash_iter in Hin.
Qed.

Lemma plan_ids cl : map p_id (partition_plan cl) ≡ₚ map fst (hash_iter (primaries (partitioner cl))).
Proof.
  unfold partition_plan. rewrite merge_sort_Permutation, map_map.
  erewrite map_ext; [done|]. by intros [].
Qed.

Lemma plan_covers cl n bs :
  primaries (partitioner cl) !! n = Some bs →
  ∃ q, q ∈ partition_plan cl ∧ p_id q = n ∧ p_buckets q = bs.
Proof.
  intros Hn. unfold partition_plan. eexists. rewrite merge_sort_Permutation. split.
  - apply list_elem_of_fmap. exists (n, bs). split; [reflexivity|]. by apply elem_of_hash_iter.
  - done.
Qed.

Lemma plan_NoDup cl : NoDup (map p_id (partition_plan cl)).
Proof. rewrite plan_ids. apply NoDup_hash_iter_keys. Qed.

Lemma primary_exists p b :
  Partitioner.wf p → nodes p ≠ [] → NoDup (nodes p) → (b < NUM_BUCKETS)%nat →
  ∃ n, head (owners_of_bucket p b 1) = Some n.
Proof.
  intros Hwf Hne Hnd Hb. rewrite owners_of_bucket_rank by done.
  pose proof (pick_length p (rank (nodes p) b) 1 (rank_perm _ _) Hnd) as Hlen.
  destruct (pick p (rank (nodes p) b) 1) as [|n l]; [|by exists n].
  destruct (nodes p); [done|]. cbn in Hlen. lia.
Qed.

(** The partition plan tiles the keyspace: the buckets of its partitions
    are, together, every bucket exactly once; the partitions belong to distinct
    shards, and each holds exactly the buckets its shard is the primary of. *)
Theorem partition_plan_tiles cl :
  Partitioner.wf (partitioner cl) → nodes (partitioner cl) ≠ [] → NoDup (nodes (partitioner cl)) →
  (partition_plan cl ≫= p_buckets) ≡ₚ seq 0 NUM_BUCKETS
  ∧ NoDup (map p_id (partition_plan cl))
  ∧ ∀ q b, q ∈ partition_plan cl →
      b ∈ p_buckets q ↔ (b < NUM_BUCKETS)%nat
                        ∧ head (owners_of_bucket (partitioner cl) b 1) = Some (p_id q).
Proof.
  intros Hwf Hne Hnd.
  assert (Hbc : bucket_count (partitioner cl) = NUM_BUCKETS) by apply Hwf.
  assert (Hb : ∀ q b, q ∈ partition_plan cl → b ∈ p_buckets q ↔ (b < NUM_BUCKETS)%nat
    ∧ head (owners_of_bucket (partitioner cl) b 1) = Some (p_id q)).
  { intros q b Hq%elem_of_plan%primaries_lookup.
    rewrite Hq, list_elem_of_filter, elem_of_seq, Hbc. naive_solver lia. }
  split; [|split; [apply plan_NoDup|done]].
  apply NoDup_Permutation; [|apply NoDup_seq|].
  - apply NoDup_bind.
    + intros q1 q2 b Hq1 Hq2 H1 H2. apply Hb in H1 as [_ H1], H2 as [_ H2]; [|done..].
      eapply NoDup_map_inj; [apply plan_NoDup|done|done|congruence].
    + intros q Hq%elem_of_plan%primaries_lookup. rewrite Hq. apply NoDup_filter, NoDup_seq.
    + eapply (NoDup_fmap_1 p_id), plan_NoDup.
  - intros b. rewrite list_elem_of_bind, elem_of_seq. split.
    + intros (q & Hin & Hq). apply Hb in Hin; [lia|done].
    + intros [_ Hlt]. destruct (primary_exists (partitioner cl) b) as [n Hn]; [done..|].
      pose proof (at_key_assign (partitioner cl) ∅ (seq 0 (bucket_count (partitioner cl))) n) as Ha.
      rewrite at_key_empty in Ha. fold (primaries (partitioner cl)) in Ha. unfold at_key in Ha.
      assert (Hin : b ∈ filter (λ b, head (owners_of_bucket (partitioner cl) b 1) = Some n)
                (seq 0 (bucket_count (partitioner cl)))).
      { apply list_elem_of_filter. split; [done|]. rewrite elem_of_seq, Hbc. lia. }
      destruct (primaries (partitioner cl) !! n) as [bs|] eqn:Hbs; cbn in Ha;
        [|rewrite <-Ha in Hin; by apply elem_of_nil in Hin].
      destruct (plan_covers cl n bs Hbs) as (q & Hq & _ & Hqb). exists q.
      split; [|done]. by rewrite Hqb, Ha.
Qed.

End partition.

End Scans.
