(* ===== verification/Election.v ===== *)
(** * Leader election among coordinators ([src/src/coord.rs])

    Coordinators keep a [Leadership] record, updated by a loop that tries to
    acquire the leader lease and then sleeps; control operations are served
    only by a coordinator that believes it leads.  Theorems: at most one
    coordinator leads within the lifetime of its lease; a belief can outlive the
    lease; and a rebalance that moves the leader key does not move the lease. *)

From S2P Require Import Prelude Machine Text Partitioner Reshard Store Lease Shard Client.
From S2P Require Import Journal Cluster.

Local Open Scope Z_scope.

Module Election.

Record Leadership := mkLeadership {
  self : string;
  is_leader : bool;
  token : Z;
  current_leader : string;
}.

Definition new (who : string) : Leadership := mkLeadership who false 0 EmptyString.

(** What the loop stores after an attempt: the answer, or (the lease owner is
    out of reach) that this coordinator does not lead. *)
Definition observe (l : Leadership) (o : option Lease.LeaseOutcome) : Leadership :=
  match o with
  | Some o =>
      mkLeadership (self l) (Lease.granted o) (Lease.token (Lease.lease o))
        (Lease.holder (Lease.lease o))
  | None => mkLeadership (self l) false (token l) (current_leader l)
  end.

(** The sleep between two attempts. *)
Definition renew_ms (ttl_ms : Z) : Z := Z.max (ttl_ms / 3) 50.

(** ** Polls of several coordinators

    The lease owner serves attempts one at a time, at clock readings that do
    not decrease.  A poll may be lost before it reaches the owner, or its
    answer may be. *)

Record poll := mkPoll { who : string; at_ms : Z; fate : fault }.

Record state := mkState {
  record : option Lease.t;                    (** the lease record of the owner *)
  leaders : gmap string (Leadership * Z);     (** each coordinator, and when it last polled *)
}.

Section polls.
Context (ttl : string → Z).

Definition known (s : state) (i : string) : Leadership * Z :=
  default (new i, 0) (leaders s !! i).

(** One round of coordinator [who p]'s loop. *)
Definition elect (s : state) (p : poll) : state :=
  let i := who p in
  let o := Lease.attempt (record s) (Lease.req i (ttl i) (at_ms p)) in
  match fate p with
  | Delivered =>
      mkState (Lease.kept (record s) o)
        (<[i := (observe (known s i).1 (Some o), at_ms p)]> (leaders s))
  | Lost => mkState (record s) (<[i := (observe (known s i).1 None, at_ms p)]> (leaders s))
  | ReplyLost =>
      mkState (Lease.kept (record s) o)
        (<[i := (observe (known s i).1 None, at_ms p)]> (leaders s))
  end.

Definition run (ps : list poll) : state := foldl elect (mkState None ∅) ps.

(** The polls are served in the order of the owner's clock, up to [now]. *)
Definition ordered (ps : list poll) (now : Z) : Prop :=
  StronglySorted (λ p q, at_ms p ≤ at_ms q) ps ∧ Forall (λ p, 0 ≤ at_ms p ≤ now) ps.

(** Coordinator [i] takes itself for the leader, and its last poll is at most
    one lease lifetime old. *)
Definition leads (s : state) (now : Z) (i : string) : Prop :=
  ∃ l t, leaders s !! i = Some (l, t) ∧ is_leader l = true ∧ now < t + ttl i.

(** A belief is backed by the record, or the lease it came from has run out. *)
Definition backed (s : state) (now : Z) : Prop :=
  ∀ i l t, leaders s !! i = Some (l, t) → is_leader l = true →
    (∃ r, record s = Some r ∧ Lease.holder r = i ∧ Lease.expires_ms r = t + ttl i)
    ∨ t + ttl i ≤ now.

Lemma backed_later s t t' : backed s t → t ≤ t' → backed s t'.
Proof.
  intros Hb Ht i l u Hi Hl. destruct (Hb i l u Hi Hl) as [?|?]; [by left|right; lia].
Qed.

Lemma granted_record cur r :
  Lease.granted (Lease.attempt cur r) = true →
  is_u64 (Lease.at_ms r) → is_u64 (Lease.ttl r) → Lease.at_ms r + Lease.ttl r < u64_modulus →
  Lease.holder (Lease.lease (Lease.attempt cur r)) = Lease.who r
  ∧ Lease.expires_ms (Lease.lease (Lease.attempt cur r)) = Lease.at_ms r + Lease.ttl r.
Proof.
  intros Hg [? ?] [? ?] Hs. split; [by apply Lease.attempt_granted_holder|].
  unfold Lease.attempt, Lease.evaluate in *. destruct cur as [l|].
  - repeat case_match; simpl in *; try done; by apply u64_add_small.
  - simpl. by apply u64_add_small.
Qed.

(** A lease that is taken over has run out. *)
Lemma takeover_expired cur r l :
  cur = Some l → Lease.granted (Lease.attempt cur r) = true → Lease.who r ≠ Lease.holder l →
  Lease.expires_ms l ≤ Lease.at_ms r.
Proof. intros ->. apply Lease.attempt_takeover. Qed.

Definition sane (now : Z) : Prop :=
  ∀ i, is_u64 (ttl i) ∧ now + ttl i < u64_modulus.

Lemma elect_backed s p :
  sane (at_ms p) → is_u64 (at_ms p) → backed s (at_ms p) → backed (elect s p) (at_ms p).
Proof.
  intros Hsane Hu Hb. destruct (Hsane (who p)) as [Httl Hsum].
  set (r := Lease.req (who p) (ttl (who p)) (at_ms p)).
  set (o := Lease.attempt (record s) r).
  (* the other coordinators, after the record became [Lease.kept _ o] *)
  assert (Hothers : ∀ j l t, j ≠ who p → leaders s !! j = Some (l, t) → is_leader l = true →
    (∃ x, Lease.kept (record s) o = Some x ∧ Lease.holder x = j ∧ Lease.expires_ms x = t + ttl j)
    ∨ t + ttl j ≤ at_ms p).
  { intros j l t Hj Hl Hlead. destruct (Hb j l t Hl Hlead) as [(x & Hx & Hh & He)|?]; [|by right].
    unfold Lease.kept. destruct (Lease.granted o) eqn:Hg; [|left; by exists x].
    right. rewrite <-He. apply (takeover_expired (record s) r x Hx Hg). cbn. congruence. }
  unfold elect. fold r. fold o. intros j l t Hj Hl. destruct (fate p); cbn [leaders record] in *;
    (destruct (decide (who p = j)) as [<-|Hne];
       [rewrite lookup_insert_eq in Hj|rewrite lookup_insert_ne in Hj by done]).
  - injection Hj as <- <-. cbn [observe is_leader] in Hl. left.
    destruct (granted_record (record s) r Hl Hu Httl Hsum) as [Hh He].
    exists (Lease.lease o). unfold Lease.kept. fold o in Hl. rewrite Hl. done.
  - by apply (Hothers j l).
  - injection Hj as <- <-. done.
  - by apply (Hb j l).
  - injection Hj as <- <-. done.
  - by apply (Hothers j l).
Qed.

Lemma run_backed ps now :
  (∀ p, p ∈ ps → sane (at_ms p)) → ordered ps now → is_u64 now → backed (run ps) now.
Proof.
  intros Hsane [Hs Hall] Hnow. revert Hsane Hs Hall. unfold run.
  assert (Hgen : ∀ ps s t0, backed s t0 → (∀ p, p ∈ ps → sane (at_ms p)) →
    StronglySorted (λ p q, at_ms p ≤ at_ms q) ps → Forall (λ p, t0 ≤ at_ms p ∧ 0 ≤ at_ms p ≤ now) ps →
    t0 ≤ now → backed (foldl elect s ps) now).
  { clear ps. induction ps as [|p ps IH]; intros s t0 Hb Hsane Hs Hall Ht0; cbn [foldl];
      [by eapply backed_later|].
    apply StronglySorted_inv in Hs as [Hs Hp]. apply Forall_cons in Hall as [[Hp0 Hpn] Hall].
    apply (IH _ (at_ms p)).
    - apply elect_backed; [apply Hsane; left|split; [lia|]; destruct Hnow; lia|].
      by eapply backed_later.
    - intros q Hq. apply Hsane. by right.
    - done.
    - rewrite Forall_forall in Hp, Hall |- *. intros q Hq. split; [by apply Hp|by apply Hall].
    - lia. }
  intros Hsane Hs Hall. apply (Hgen ps (mkState None ∅) 0); [|done|done| |apply Hnow].
  - intros i l t Hi. cbn in Hi. done.
  - eapply Forall_impl; [exact Hall|]. intros p Hp. cbn in Hp. split; lia.
Qed.

(** C27. At most one leader over one lease owner: among coordinators that poll the
    lease of one shard, which keeps its record throughout and whose clock does not
    go back, with any timing, losses included, no two take themselves for the
    leader while the last poll of each is younger than its lease lifetime. (A
    rebalance that gives the leader key another owner starts from an empty record
    there: [rebalance_forgets_leader].) *)
Theorem at_most_one_leader ps now i j :
  (∀ p, p ∈ ps → sane (at_ms p)) → ordered ps now → is_u64 now →
  leads (run ps) now i → i ≠ j → ¬ leads (run ps) now j.
Proof.
  intros Hsane Ho Hnow (l1 & t1 & H1 & L1 & F1) Hij (l2 & t2 & H2 & L2 & F2). apply Hij.
  pose proof (run_backed ps now Hsane Ho Hnow) as Hb.
  destruct (Hb i l1 t1 H1 L1) as [(r1 & E1 & <- & _)|?]; [|lia].
  destruct (Hb j l2 t2 H2 L2) as [(r2 & E2 & <- & _)|?]; [|lia]. congruence.
Qed.

End polls.

(** The belief itself has no expiry: a coordinator whose next poll is late (its
    call hangs, or its timer is slower than the lease) still takes itself for
    the leader after another one was elected. *)
Example stale_leader :
  let s := run (λ _, 300) [mkPoll "a" 0 Delivered; mkPoll "b" 300 Delivered] in
  is_leader (known s "a").1 = true ∧ is_leader (known s "b").1 = true
  ∧ token (known s "a").1 = 1 ∧ token (known s "b").1 = 2.
Proof. by vm_compute. Qed.

(** With a lifetime of at most 50 ms every lease runs out before its renewal. *)
Lemma renewal_too_late ttl_ms : ttl_ms ≤ 50 → ttl_ms ≤ renew_ms ttl_ms.
Proof. unfold renew_ms. lia. Qed.

Lemma renewal_in_time ttl_ms : 50 < ttl_ms → renew_ms ttl_ms < ttl_ms.
Proof. unfold renew_ms. intros. apply Z.max_lub_lt; [apply Z.div_lt_upper_bound; lia|lia]. Qed.

(** ** The loop over the cluster *)

Section cluster.
Context `{!HashIter} {V St : Type} `{!IndexStore V St, !JsonValue V, !LeaseCodec V, !Env}.
Implicit Types (cl : Cluster.t) (w : world St) (sh : Shard.t St).

(** One round of [spawn_elector]'s loop. *)
Definition elector_round cl (l : Leadership) (ttl_ms : Z) : M St Leadership :=
  o ← Cluster.try_acquire_leadership (V := V) cl (self l) ttl_ms; mret (observe l o).

(** The shard that keeps the leader lease. *)
Definition lease_owner cl w (c : Client.t) sh : Prop :=
  ∃ n, head (Cluster.owners cl Lease.LEADER_KEY) = Some n ∧ Cluster.is_down cl n = false
    ∧ Cluster.client_of cl n = Some c ∧ shards w !! Client.shard_ref c = Some sh.

Lemma round_unfold cl l ttl_ms w c sh :
  lease_owner cl w c sh →
  elector_round cl l ttl_ms w
  = let '(w', r) := Client.lease_acquire c Lease.LEADER_KEY (self l) ttl_ms w in
    (w', observe l (ok r)).
Proof.
  intros (n & Hn & Hd & Hc & _). unfold elector_round, Cluster.try_acquire_leadership.
  unfold Cluster.lease_acquire. rewrite Hn, Hd, Hc. unfold mbind, M_bind, mret, M_ret.
  by destruct (Client.lease_acquire c Lease.LEADER_KEY (self l) ttl_ms w).
Qed.

(** A round is a poll: whatever happens to the call, the shard's record and the
    coordinator's state change as [elect] has it. *)
Lemma round_is_poll `{!IndexStoreLaws V St, !LeaseCodecLaws V} cl l ttl_ms w c sh cur :
  lease_owner cl w c sh → Shard.lease_rep sh Lease.LEADER_KEY cur →
  (∀ x, entry_ok Lease.LEASE_COLL Lease.LEADER_KEY (value_from_lease x)) →
  let o := Lease.attempt cur (Lease.req (self l) ttl_ms (clock (tick w))) in
  let '(w', l') := elector_round cl l ttl_ms w in
  ∃ sh', shards w' !! Client.shard_ref c = Some sh'
    ∧ match fault_at (tick w) with
      | Delivered => l' = observe l (Some o) ∧ Shard.lease_rep sh' Lease.LEADER_KEY (Lease.kept cur o)
      | Lost => l' = observe l None ∧ Shard.lease_rep sh' Lease.LEADER_KEY cur
      | ReplyLost => l' = observe l None ∧ Shard.lease_rep sh' Lease.LEADER_KEY (Lease.kept cur o)
      end.
Proof.
  intros Ho Hrep Hok o. rewrite (round_unfold cl l ttl_ms w c sh Ho).
  destruct Ho as (n & _ & _ & _ & Hsh). unfold Client.lease_acquire, Client.call. rewrite Hsh.
  pose proof (Shard.lease_acquire_spec sh Lease.LEADER_KEY cur
                (Lease.req (self l) ttl_ms (clock (tick w))) Hok Hrep) as Hs.
  cbn [Lease.at_ms Lease.who Lease.ttl] in Hs.
  destruct (Shard.lease_acquire _ sh _ _ _) as [sh' o']. destruct Hs as (-> & Hrep' & _).
  destruct (fault_at (tick w)); cbn [shards Client.step_to].
  - exists sh'. by rewrite lookup_insert_eq.
  - exists sh. done.
  - exists sh'. by rewrite lookup_insert_eq.
Qed.

End cluster.

(** ** A rebalance does not move the lease *)

Section frame.
Context `{!HashIter} {V St : Type} `{!IndexStore V St, !IndexStoreLaws V St, !JsonValue V}.
Context `{!LeaseCodec V, !Env}.
Implicit Types (cl : Cluster.t) (w : world St) (sh : Shard.t St) (c : string).

(** Collection [c] reads the same on every shard as it did in [w0]. *)
Definition same_coll c w0 w : Prop :=
  ∀ r, match shards w0 !! r, shards w !! r with
       | Some a, Some b =>
           store_wf (Shard.store b) ∧ ∀ now k, Shard.object now b c k = Shard.object now a c k
       | None, None => True
       | _, _ => False
       end.

Definition all_wf w : Prop := ∀ r sh, shards w !! r = Some sh → store_wf (Shard.store sh).

Lemma same_coll_refl c w : all_wf w → same_coll c w w.
Proof. intros Hw r. destruct (shards w !! r) as [sh|] eqn:E; [|done]. split; [by apply Hw in E|done]. Qed.

(** A call whose operation leaves [c] alone does too. *)
Lemma call_same {R} c w0 (cli : Client.t) (op : Z → Shard.t St → Shard.t St * R) (Q : R → Prop) :
  (∀ now sh, store_wf (Shard.store sh) →
     store_wf (Shard.store (op now sh).1) ∧ Q (op now sh).2
     ∧ ∀ now' k, Shard.object now' (op now sh).1 c k = Shard.object now' sh c k) →
  hoare (same_coll c w0) (Client.call cli op)
    (λ r w, same_coll c w0 w ∧ ∀ a, r = Ok a → Q a).
Proof.
  intros Hop w Hw. unfold Client.call.
  destruct (shards w !! Client.shard_ref cli) as [sh|] eqn:Hsh; [|done].
  assert (Hstep : same_coll c w0 (Client.step_to w (Client.shard_ref cli) (op (clock (tick w)) sh).1)
                  ∧ Q (op (clock (tick w)) sh).2).
  { pose proof (Hw (Client.shard_ref cli)) as Hr. rewrite Hsh in Hr.
    destruct (shards w0 !! Client.shard_ref cli) as [a|] eqn:Ha; [|done]. destruct Hr as [Hwf Hobj].
    destruct (Hop (clock (tick w)) sh Hwf) as (Hwf' & HQ & Hf). split; [|done].
    intros r. cbn [shards Client.step_to]. destruct (decide (Client.shard_ref cli = r)) as [<-|Hne].
    - rewrite Ha, lookup_insert_eq. split; [done|]. intros now k. by rewrite Hf.
    - rewrite lookup_insert_ne by done. apply Hw. }
  destruct (op (clock (tick w)) sh) as [sh' x]. cbn [fst snd] in Hstep.
  destruct Hstep as [Hstep HQ]. destruct (fault_at (tick w)); cbn [fst snd].
  - split; [done|]. by intros a [= <-].
  - done.
  - done.
Qed.

Lemma export_same c w0 cli coll bs :
  hoare (same_coll c w0) (Client.export_entries (V := V) cli coll bs)
    (λ r w, same_coll c w0 w ∧ ∀ es, r = Ok es → Shard.entries_ok coll es).
Proof.
  apply call_same. intros now sh Hwf. split; [done|]. split; [|done]. by apply Shard.export_ok.
Qed.

Lemma import_same c w0 cli coll (es : list (string * V)) :
  coll ≠ c → Shard.entries_ok coll es →
  hoare (same_coll c w0) (Client.import_entries cli coll es) (λ _, same_coll c w0).
Proof.
  intros Hc Hok. eapply hoare_conseq;
    [apply (call_same c w0 _ _ (λ _, True))|done|by intros ? ? [? _]].
  intros now sh Hwf. cbn [fst snd].
  destruct (Shard.import_entries_spec sh coll es Hwf Hok) as [Hwf' Hget].
  split; [done|]. split; [done|]. intros now' k. specialize (Hget c k).
  rewrite decide_False in Hget by done. apply Hget.
Qed.

Lemma drop_same c w0 cli coll bs :
  coll ≠ c →
  hoare (same_coll c w0) (Client.drop_buckets (V := V) cli coll bs) (λ _, same_coll c w0).
Proof.
  intros Hc. eapply hoare_conseq;
    [apply (call_same c w0 _ _ (λ _, True))|done|by intros ? ? [? _]].
  intros now sh Hwf. rewrite Shard.drop_buckets_delete_all. cbn [fst snd].
  destruct (Shard.delete_all_spec sh coll (map fst (Shard.export_entries now sh coll bs)) Hwf)
    as [Hwf' Hget].
  split; [done|]. split; [done|]. intros now' k. specialize (Hget c k).
  rewrite decide_False in Hget by naive_solver. apply Hget.
Qed.

Lemma forM_same {A S} c w0 (xs : list A) (x0 : S) (body : S → A → M St S) :
  (∀ y x, x ∈ xs → hoare (same_coll c w0) (body y x) (λ _, same_coll c w0)) →
  hoare (same_coll c w0) (forM xs x0 body) (λ _, same_coll c w0).
Proof.
  intros Hb. apply (hoare_forM xs x0 body (λ _ _, same_coll c w0)).
  intros pre x post y ->. apply Hb. set_solver.
Qed.

Lemma copy_pair_same c w0 cl n x :
  c ∉ Cluster.colls cl →
  hoare (same_coll c w0) (Cluster.copy_pair (V := V) cl n x) (λ _, same_coll c w0).
Proof.
  intros Hc. destruct x as [[from to] bs]. unfold Cluster.copy_pair.
  destruct (Cluster.client_of cl from) as [fc|], (Cluster.client_of cl to) as [tc|];
    try by apply hoare_ret.
  apply forM_same. intros y coll Hin. assert (coll ≠ c) as Hne by set_solver.
  eapply hoare_bind; [apply export_same|]. intros r.
  intros w [Hw Hok]. case_decide; [done|].
  eapply (hoare_bind (same_coll c w0) _ _ (λ _, same_coll c w0) (λ _, same_coll c w0));
    [|intros; by apply hoare_ret|exact Hw].
  apply import_same; [done|]. destruct r; [by apply Hok|]. intros k v []%not_elem_of_nil.
Qed.

Lemma drop_node_same c w0 cl n x :
  c ∉ Cluster.colls cl →
  hoare (same_coll c w0) (Cluster.drop_node (V := V) cl n x) (λ _, same_coll c w0).
Proof.
  intros Hc. destruct x as [node bs]. unfold Cluster.drop_node.
  destruct (Cluster.client_of cl node) as [nc|]; [|by apply hoare_ret].
  apply forM_same. intros y coll Hin.
  apply (hoare_bind (same_coll c w0) _ _ (λ _, same_coll c w0)); [|intros; by apply hoare_ret].
  apply drop_same. set_solver.
Qed.

(** What a running migration leaves of the cluster state. *)
Definition same_config cl cl' : Prop :=
  Cluster.colls cl' = Cluster.colls cl ∧ Cluster.partitioner cl' = Cluster.partitioner cl
  ∧ Cluster.clients cl' = Cluster.clients cl ∧ Cluster.down cl' = Cluster.down cl
  ∧ Cluster.replication_target cl' = Cluster.replication_target cl.

Lemma cut_over_config cl ch : same_config cl (Cluster.cut_over cl ch).
Proof. unfold Cluster.cut_over. by destruct (Cluster.overlay cl). Qed.

Lemma migrate_chunk_same c w0 cl m ch :
  c ∉ Cluster.colls cl →
  hoare (same_coll c w0) (Cluster.migrate_chunk (V := V) cl m ch)
    (λ r w, same_coll c w0 w ∧ same_config cl r.1 ∧ Cluster.m_new r.2 = Cluster.m_new m).
Proof.
  intros Hc. unfold Cluster.migrate_chunk. pose proof (cut_over_config cl ch) as Hcfg.
  apply (hoare_bind _ _ _ (λ _, same_coll c w0)).
  { apply forM_same. intros. by apply copy_pair_same. }
  intros copied. apply (hoare_bind _ _ _ (λ _, same_coll c w0)).
  { apply forM_same. intros. apply drop_node_same. by destruct Hcfg as [-> _]. }
  intros dropped. by apply hoare_ret.
Qed.

Lemma chunk_loop_same c w0 chs : ∀ cl m i,
  c ∉ Cluster.colls cl →
  hoare (same_coll c w0) (Cluster.chunk_loop (V := V) cl m i None chs)
    (λ r w, same_coll c w0 w ∧ same_config cl r.1.1 ∧ Cluster.m_new r.1.2 = Cluster.m_new m
            ∧ r.2 = true).
Proof.
  induction chs as [|ch chs IH]; intros cl m i Hc; cbn [Cluster.chunk_loop]; [by apply hoare_ret|].
  eapply hoare_bind; [by apply migrate_chunk_same|]. intros [cl1 m1] w (Hw & Hcfg & Hm).
  cbn [fst snd] in *. destruct Hcfg as (H1 & H2 & H3 & H4 & H5).
  assert (c ∉ Cluster.colls cl1) as Hc1 by congruence.
  destruct (IH cl1 m1 (S i) Hc1 w Hw) as (Hw' & (C1 & C2 & C3 & C4 & C5) & Hm' & Hfin).
  split; [done|]. split; [repeat split; congruence|]. split; [congruence|done].
Qed.

(** The state a completed rebalance commits. *)
Definition committed cl nw cl' : Prop :=
  Cluster.partitioner cl' = Partitioner.set_nodes (Cluster.partitioner cl) nw
  ∧ Cluster.clients cl' = filter (λ '(i, _), i ∈ nw) (Cluster.clients cl)
  ∧ Cluster.replication cl' = Cluster.clamp (Cluster.replication_target cl) (length nw)
  ∧ Cluster.down cl' = filter (λ n, ¬ (n ∈ dom (Cluster.clients cl) ∧ n ∉ nw)) (Cluster.down cl)
  ∧ Cluster.overlay cl' = None.

Lemma rebalance_same c w0 cl nw :
  c ∉ Cluster.colls cl → Cluster.overlay cl = None →
  hoare (same_coll c w0) (Cluster.rebalance (V := V) cl nw)
    (λ r w, same_coll c w0 w ∧ committed cl nw r.1).
Proof.
  intros Hc Hov. unfold Cluster.rebalance, Cluster.run_migration.
  destruct (Cluster.same_members _ _); [by apply hoare_ret|].
  destruct (Cluster.begin_migration cl (Cluster.member_ids cl) nw ∅) as [[cl1 m] chs] eqn:Hb.
  unfold Cluster.begin_migration in Hb. injection Hb as <- <- <-.
  set (cl1 := Cluster.save_record _ _ _ _).
  assert (same_config cl cl1) as (C1 & C2 & C3 & C4 & C5) by done.
  eapply hoare_bind; [apply chunk_loop_same; by rewrite C1|].
  intros [[cl2 m2] fin] w (Hw & (D1 & D2 & D3 & D4 & D5) & Hm & Hfin).
  cbn [fst snd] in *. subst fin. cbn. split; [done|].
  unfold committed, Cluster.end_migration, Cluster.commit_membership. cbn.
  rewrite Hm, D2, D3, D4, D5. done.
Qed.

(** A rebalance forgets the leader.  The lease record lives in a collection
    of its own, which no migration copies: when the leader key's owner changes
    and the new owner has no record, then after the rebalance the first
    coordinator that asks is granted the lease with token 1, whatever lease, of
    whatever age and token, the old owner still holds. *)
Theorem rebalance_forgets_leader cl nw w w' cl' sm n cli sh who ttl_ms :
  all_wf w → Lease.LEASE_COLL ∉ Cluster.colls cl → Cluster.overlay cl = None →
  Cluster.rebalance (V := V) cl nw w = (w', (cl', sm)) →
  head (Partitioner.replica_set (Partitioner.set_nodes (Cluster.partitioner cl) nw) Lease.LEADER_KEY
          (Cluster.clamp (Cluster.replication_target cl) (length nw))) = Some n →
  n ∉ Cluster.down cl → n ∈ nw → Cluster.clients cl !! n = Some cli →
  shards w !! Client.shard_ref cli = Some sh →
  (∀ now, Shard.object now sh Lease.LEASE_COLL Lease.LEADER_KEY = None) →
  fault_at (tick w') = Delivered →
  (Cluster.try_acquire_leadership (V := V) cl' who ttl_ms w').2
  = Some {| Lease.granted := true;
            Lease.lease := Lease.mk who (u64_add (clock (tick w')) ttl_ms) 1 |}.
Proof.
  intros Hwf Hc Hov Hr Hn Hdown Hin Hcl Hsh Hnone Hf.
  pose proof (rebalance_same Lease.LEASE_COLL w cl nw Hc Hov w (same_coll_refl _ w Hwf)) as Hs.
  rewrite Hr in Hs. cbn [fst snd] in Hs. destruct Hs as [Hw (P1 & P2 & P3 & P4 & P5)].
  unfold Cluster.try_acquire_leadership, Cluster.lease_acquire, Cluster.owners.
  rewrite P5, P1, P3, Hn. unfold Cluster.is_down. rewrite P4.
  rewrite bool_decide_eq_false_2 by set_solver. unfold Cluster.client_of. rewrite P2.
  assert (filter (λ '(i, _), i ∈ nw) (Cluster.clients cl) !! n = Some cli) as ->
    by (by apply map_lookup_filter_Some_2).
  pose proof (Hw (Client.shard_ref cli)) as Hr'. rewrite Hsh in Hr'.
  destruct (shards w' !! Client.shard_ref cli) as [sh'|] eqn:Hsh'; [|done].
  destruct Hr' as [_ Hobj]. unfold Client.lease_acquire, Client.call.
  unfold mbind, M_bind, mret, M_ret. rewrite Hsh', Hf. unfold Shard.lease_acquire.
  specialize (Hobj (clock (tick w')) Lease.LEADER_KEY). unfold Shard.object in Hobj, Hnone.
  rewrite Hobj, Hnone. done.
Qed.

End frame.

End Election.
