(* ===== verification/Kvdb.v ===== *)
(** * Ordered key-value databases

    The durable logs and the durable store sit on [heed] (LMDB).  A database of
    string keys and string values is a parameter of the model: a class with the
    operations the source calls and the documented behaviour they have (keys are
    iterated in ascending byte order, a write transaction applies all its
    operations).  I/O errors of the database are not modelled: the source either
    aborts on them ([expect]) or gives up the operation.

    The second half is what both durable logs build on it: entries numbered by
    zero-padded keys. *)

From S2P Require Import Prelude Machine Text.

Local Open Scope Z_scope.

Class KvDb (D : Type) := {
  db_empty : D;
  db_get : D → string → option string;
  db_put : D → string → string → D;
  (** the flag tells whether the key was there *)
  db_delete : D → string → D * bool;
  db_iter : D → list (string * string);
}.

(** LMDB accepts keys of 1 to 511 bytes. *)
Definition valid_key (k : string) : bool :=
  (0 <? String.length k)%nat && (String.length k <=? 511)%nat.

Class KvDbLaws (D : Type) `{!KvDb D} := {
  db_get_empty : ∀ k, db_get db_empty k = None;
  db_get_put : ∀ d k v k', valid_key k = true →
    db_get (db_put d k v) k' = if decide (k = k') then Some v else db_get d k';
  db_get_delete : ∀ d k k', valid_key k = true →
    db_get (db_delete d k).1 k' = if decide (k = k') then None else db_get d k';
  db_delete_found : ∀ d k, (db_delete d k).2 = bool_decide (is_Some (db_get d k));
  db_iter_sorted : ∀ d, StronglySorted str_lt (map fst (db_iter d));
  elem_of_db_iter : ∀ d k v, (k, v) ∈ db_iter d ↔ db_get d k = Some v;
}.

(** [db.last()]: the greatest key. *)
Definition db_last `{KvDb D} (d : D) : option (string * string) := last (db_iter d).

(** ** Finite maps are ordered databases *)

#[export] Instance gmap_kvdb : KvDb (gmap string string) := {
  db_empty := ∅;
  db_get d k := d !! k;
  db_put d k v := <[k := v]> d;
  db_delete d k := (delete k d, bool_decide (is_Some (d !! k)));
  db_iter d := omap (λ k, v ← d !! k; Some (k, v)) (sort_strings (elements (dom d)));
}.

#[export] Instance gmap_kvdb_laws : KvDbLaws (gmap string string).
Proof.
  split; cbn.
  - intros k. apply lookup_empty.
  - intros d k v k' _. case_decide; [subst; by rewrite lookup_insert_eq|by rewrite lookup_insert_ne].
  - intros d k k' _. case_decide; [subst; by rewrite lookup_delete_eq|by rewrite lookup_delete_ne].
  - done.
  - intros d.
    assert (map fst (omap (λ k, v ← d !! k; Some (k, v)) (sort_strings (elements (dom d))))
            = sort_strings (elements (dom d))) as ->.
    { assert (∀ k, k ∈ sort_strings (elements (dom d)) → is_Some (d !! k)) as Hd.
      { intros k. rewrite elem_of_sort_strings, elem_of_elements. by rewrite elem_of_dom. }
      induction (sort_strings (elements (dom d))) as [|k l IH]; [done|]. cbn.
      destruct (Hd k ltac:(left)) as [v ->]. cbn. f_equal. apply IH. intros. apply Hd. by right. }
    apply sort_strings_strict, NoDup_elements.
  - intros d k v. rewrite list_elem_of_omap. split.
    + intros (k' & _ & Hk'). destruct (d !! k') eqn:E; cbn in Hk'; congruence.
    + intros Hk. exists k. rewrite elem_of_sort_strings, elem_of_elements, elem_of_dom, Hk.
      split; [by eexists|done].
Qed.

(** ** Numbered logs *)

Lemma valid_padded s : is_u64 s → valid_key (padded_key s) = true.
Proof.
  intros Hs. rewrite padded_key_digits by done.
  assert (∀ w n acc, String.length (pad_digits w n acc) = (w + String.length acc)%nat) as Hlen.
  { induction w as [|w IH]; intros n acc; [done|]. cbn [pad_digits]. rewrite IH. cbn. lia. }
  unfold valid_key. rewrite Hlen. done.
Qed.

#[local] Opaque padded_key.

Section numbered.
Context {D : Type} `{!KvDb D, !KvDbLaws D}.
Implicit Types (d : D) (l : list (Z * string)).

(** The keys of the leading entries whose number satisfies [p]; keys that are
    not numbers are skipped, the first other number ends the search. *)
Fixpoint leading_keys (p : Z → bool) (items : list (string * string)) : list string :=
  match items with
  | [] => []
  | (k, _) :: items' =>
      match parse_u64 k with
      | Some s => if p s then k :: leading_keys p items' else []
      | None => leading_keys p items'
      end
  end.

(** Delete a list of keys in one transaction, counting those that were there. *)
Definition delete_keys d (ks : list string) : D * nat :=
  foldl (λ '(d, n) k, let '(d', found) := db_delete d k in (d', if found then S n else n)) (d, O) ks.

Definition key_of : Z * string → string * string := λ '(s, v), (padded_key s, v).

(** The database holds exactly the entries [l], in ascending order. *)
Definition ascending l : Prop :=
  StronglySorted (λ a b : Z * string, a.1 < b.1) l ∧ ∀ s v, (s, v) ∈ l → is_u64 s.

Definition log_rep d l : Prop := ascending l ∧ db_iter d = map key_of l.

Lemma iter_unique d (xs : list (string * string)) :
  StronglySorted str_lt (map fst xs) → (∀ k v, (k, v) ∈ xs ↔ db_get d k = Some v) →
  db_iter d = xs.
Proof.
  intros Hs Hx. set (R := λ a b : string * string, str_lt a.1 b.1).
  assert (Hpair : ∀ l : list (string * string), StronglySorted str_lt (map fst l) → StronglySorted R l).
  { induction l as [|[k v] l IH]; [constructor|]. intros Hl. cbn in Hl.
    apply StronglySorted_inv in Hl as [Hl Hk]. constructor; [by apply IH|].
    apply Forall_forall. intros y Hy. eapply Forall_forall in Hk; [exact Hk|].
    by apply list_elem_of_fmap_2. }
  apply (StronglySorted_unique_strong R).
  - intros [k1 v1] [k2 v2] _ _ H1 H2. unfold R in *. cbn in *.
    exfalso. apply (irreflexivity str_lt k1). by etrans.
  - apply Hpair, db_iter_sorted.
  - by apply Hpair.
  - apply NoDup_Permutation.
    + apply (NoDup_fmap_1 fst), strict_sorted_NoDup, db_iter_sorted.
    + by apply (NoDup_fmap_1 fst), strict_sorted_NoDup.
    + intros [k v]. by rewrite elem_of_db_iter, Hx.
Qed.

Lemma padded_sorted l : ascending l → StronglySorted str_lt (map fst (map key_of l)).
Proof.
  intros [Hs Hu]. induction Hs as [|[s v] l Hs IH Hall]; [constructor|]. cbn. constructor.
  - apply IH. intros. eapply Hu. by right.
  - apply Forall_forall. intros k Hk. rewrite map_map in Hk.
    apply list_elem_of_fmap in Hk as ([s' v'] & -> & Hin). cbn.
    eapply Forall_forall in Hall; [|exact Hin]. cbn in Hall.
    apply str_ltb_spec. rewrite padded_key_lt; [by apply Z.ltb_lt|eapply Hu; left|].
    eapply Hu. by right.
Qed.

Lemma log_rep_intro d l :
  ascending l → (∀ k v, (k, v) ∈ map key_of l ↔ db_get d k = Some v) → log_rep d l.
Proof. intros Ha Hg. split; [done|]. apply iter_unique; [by apply padded_sorted|done]. Qed.

Lemma log_rep_get d l k v : log_rep d l → db_get d k = Some v ↔ (k, v) ∈ map key_of l.
Proof. intros [_ Hi]. by rewrite <-elem_of_db_iter, Hi. Qed.

Lemma log_rep_empty : log_rep db_empty [].
Proof.
  apply log_rep_intro; [split; [constructor|]; intros ?? ?%elem_of_nil; done|].
  intros k v. rewrite db_get_empty. cbn. split; [by intros ?%elem_of_nil|done].
Qed.

Lemma elem_of_key_of l k v :
  (k, v) ∈ map key_of l ↔ ∃ s, k = padded_key s ∧ (s, v) ∈ l.
Proof.
  rewrite list_elem_of_fmap. split.
  - intros ([s v'] & [= -> ->] & Hin). by exists s.
  - intros (s & -> & Hin). by exists (s, v).
Qed.

Lemma log_rep_put d l s v :
  log_rep d l → is_u64 s → (∀ s' v', (s', v') ∈ l → s' < s) →
  log_rep (db_put d (padded_key s) v) (l ++ [(s, v)]).
Proof.
  intros Hl Hs Hlt. pose proof Hl as [[Hasc Hu] _]. apply log_rep_intro.
  - split.
    + apply StronglySorted_app_2; [|done|repeat constructor].
      intros [s1 v1] [s2 v2] H1 [= -> ->]%list_elem_of_singleton. cbn. by eapply Hlt.
    + intros s' v' [?|[= -> ->]%list_elem_of_singleton]%elem_of_app; [by eapply Hu|done].
  - intros k w. rewrite db_get_put, map_app, elem_of_app by (by apply valid_padded). cbn. rewrite list_elem_of_singleton.
    case_decide as Hk.
    + subst k. split; [|intros [= ->]; by right]. intros [Hin|[= ->]]; [|done].
      apply elem_of_key_of in Hin as (s' & He & Hin).
      apply padded_key_inj in He; [|done|by eapply Hu]. subst s'. apply Hlt in Hin. lia.
    + rewrite (log_rep_get d l) by done. naive_solver.
Qed.

Lemma ascending_filter (P : Z * string → Prop) `{!∀ x, Decision (P x)} l :
  ascending l → ascending (filter P l).
Proof.
  intros [Hs Hu]. split; [by apply StronglySorted_filter|].
  intros s v [_ Hin]%list_elem_of_filter. by eapply Hu.
Qed.

Lemma log_rep_delete d l s :
  log_rep d l → is_u64 s → log_rep (db_delete d (padded_key s)).1 (filter (λ x, x.1 ≠ s) l).
Proof.
  intros Hl Hs. pose proof Hl as [Ha _]. apply log_rep_intro; [by apply ascending_filter|].
  intros k v. rewrite db_get_delete, elem_of_key_of by (by apply valid_padded). setoid_rewrite list_elem_of_filter. cbn.
  case_decide as Hk.
  - subst k. split; [|done]. intros (s' & He & Hne & Hin).
    apply padded_key_inj in He; [congruence|done|]. destruct Ha as [_ Hu]. by eapply Hu.
  - rewrite (log_rep_get d l), elem_of_key_of by done.
    split; [intros (s' & -> & _ & ?); by exists s'|]. intros (s' & -> & Hin). exists s'.
    split; [done|]. split; [|done]. intros ->. done.
Qed.

(** On a numbered log, the leading keys are those of a prefix-closed test. *)
Lemma leading_keys_filter (p : Z → bool) l :
  ascending l → (∀ s s', s ≤ s' → p s' = true → p s = true) →
  leading_keys p (map key_of l) = map (padded_key ∘ fst) (filter (λ x, p x.1 = true) l).
Proof.
  intros [Hs Hu] Hp. induction Hs as [|[s v] l Hs IH Hall]; [done|].
  cbn [map key_of leading_keys]. rewrite padded_key_roundtrip by (eapply Hu; left).
  rewrite filter_cons. cbn [fst]. destruct (p s) eqn:Hps.
  - rewrite decide_True by done. cbn [map]. rewrite IH; [done|]. intros. eapply Hu. by right.
  - rewrite decide_False by done. rewrite filter_none; [done|]. intros [s' v'] Hin Hp'.
    eapply Forall_forall in Hall; [|exact Hin]. cbn in *.
    rewrite (Hp s s') in Hps; [done|lia|done].
Qed.

Lemma delete_keys_from d n ks :
  foldl (λ '(d, n) k, let '(d', found) := db_delete d k in (d', if found then S n else n)) (d, n) ks
  = let '(d', m) := delete_keys d ks in (d', (n + m)%nat).
Proof.
  unfold delete_keys. assert (∀ (ks : list string) (d : D) (a b : nat),
    foldl (λ '(d, n) k, let '(d', found) := db_delete d k in (d', if found then S n else n))
      (d, (a + b)%nat) ks
    = let '(d', m) := foldl (λ '(d, n) k, let '(d', found) := db_delete d k in
        (d', if found then S n else n)) (d, b) ks in (d', (a + m)%nat)) as H.
  { clear. induction ks as [|k ks IH]; intros d a b; [done|]. cbn [foldl].
    destruct (db_delete d k) as [d' []]; [|apply IH].
    rewrite <-IH. by rewrite Nat.add_succ_r. }
  specialize (H ks d n O). by rewrite Nat.add_0_r in H.
Qed.

Lemma delete_keys_cons d k ks :
  delete_keys d (k :: ks)
  = let '(d', m) := delete_keys (db_delete d k).1 ks in
    (d', ((if (db_delete d k).2 then 1 else 0) + m)%nat).
Proof.
  unfold delete_keys at 1. cbn [foldl]. destruct (db_delete d k) as [d0 []]; cbn [fst snd];
    apply (delete_keys_from d0 _ ks).
Qed.

(** Deleting the keys of some entries of a log removes exactly these entries. *)
Lemma delete_keys_spec d l (ss : list (Z * string)) :
  log_rep d l → NoDup (map fst ss) → (∀ x, x ∈ ss → x ∈ l) →
  log_rep (delete_keys d (map (padded_key ∘ fst) ss)).1 (filter (λ x, x.1 ∉ map fst ss) l)
  ∧ (delete_keys d (map (padded_key ∘ fst) ss)).2 = length ss.
Proof.
  revert d l. induction ss as [|[s v] ss IH]; intros d l Hl Hnd Hss.
  { split; [|done]. cbn. by rewrite filter_all by (intros; apply not_elem_of_nil). }
  assert (Hin : (s, v) ∈ l) by (apply Hss; left).
  assert (Hu : is_u64 s) by (destruct Hl as [[_ Hu] _]; by eapply Hu).
  cbn in Hnd. apply NoDup_cons in Hnd as [Hs Hnd].
  pose proof (log_rep_delete d l s Hl Hu) as Hl1.
  destruct (IH _ _ Hl1 Hnd) as [IHl IHn].
  { intros [s' v'] Hx. apply list_elem_of_filter. split; [|apply Hss; by right].
    cbn. intros ->. apply Hs. by apply (list_elem_of_fmap_2 fst _ (s, v')). }
  cbn [map]. unfold compose at 1 3. cbn [fst]. rewrite delete_keys_cons.
  destruct (delete_keys (db_delete d (padded_key s)).1 (map (padded_key ∘ fst) ss)) as [d' m].
  cbn [fst snd] in *. split.
  - rewrite list_filter_filter in IHl. erewrite filter_ext_in; [exact IHl|].
    intros [s' v'] _. cbn. rewrite not_elem_of_cons. tauto.
  - rewrite db_delete_found, bool_decide_eq_true_2; [cbn; lia|].
    exists v. apply (log_rep_get d l); [done|]. apply elem_of_key_of. by exists s.
Qed.

(** Deleting the leading entries that satisfy a prefix-closed test keeps the
    others. *)
Lemma trim_spec d l (p : Z → bool) :
  log_rep d l → (∀ s s', s ≤ s' → p s' = true → p s = true) →
  log_rep (delete_keys d (leading_keys p (db_iter d))).1 (filter (λ x, p x.1 = false) l)
  ∧ (delete_keys d (leading_keys p (db_iter d))).2 = length (filter (λ x, p x.1 = true) l).
Proof.
  intros Hl Hp. pose proof Hl as [Ha Hi]. rewrite Hi, leading_keys_filter by done.
  assert (Hnd : NoDup (map fst l)).
  { destruct Ha as [Hs _]. clear -Hs. induction Hs as [|[s v] l Hs IH Hall]; [constructor|].
    cbn. apply NoDup_cons. split; [|done]. intros ([s' v'] & Heq & Hin)%list_elem_of_fmap.
    eapply Forall_forall in Hall; [|exact Hin]. cbn in *. lia. }
  destruct (delete_keys_spec d l (filter (λ x, p x.1 = true) l) Hl) as [H1 H2].
  { by apply NoDup_fst_filter. }
  { by intros x [_ ?]%list_elem_of_filter. }
  split; [|done]. rewrite (filter_ext_in (λ x, p x.1 = false)
    (λ x, x.1 ∉ map fst (filter (λ x, p x.1 = true) l))); [exact H1|]. intros [s v] Hin. cbn.
  rewrite list_elem_of_fmap. split.
  - intros Hps ([s' v'] & -> & [Hps' _]%list_elem_of_filter). cbn in *. congruence.
  - intros Hno. apply not_true_iff_false. intros Hps. apply Hno. exists (s, v).
    split; [done|]. by apply list_elem_of_filter.
Qed.

(** The number of the last entry, as [open] reads it back. *)
Definition last_seq d : Z := default 0 ('(k, _) ← db_last d; parse_u64 k).

Lemma last_seq_spec d l :
  log_rep d l → last_seq d = match last l with Some (s, _) => s | None => 0 end.
Proof.
  intros [[_ Hu] Hi]. unfold last_seq, db_last. rewrite Hi, fmap_last.
  destruct (last l) as [[s v]|] eqn:Hl; [|done]. cbn.
  rewrite padded_key_roundtrip; [done|]. apply last_Some_elem_of in Hl. by eapply Hu.
Qed.

End numbered.
