(* ===== verification/Lmdb.v ===== *)
(** * The durable store ([src/src/lmdb.rs])

    One named ordered database per collection ([o:<coll>]), one per source table
    ([t:<table>]), a registry of tables and a database of expiry times, in one
    environment.  The cache of database handles, the write counter that decides
    when to call fsync, and the limit on the number of databases have no effect
    on what the store holds and are not part of the state.

    A key that LMDB refuses makes a write panic ([expect]): the transaction is
    dropped, the rest of the operation does not run, and what was committed
    before stays.  The operations below leave the environment as it is then;
    that the panic also poisons the shard's lock is the subject of [Poison].

    The file ends with the store's instance of the [IndexStore] contract, so
    that every theorem about stores, shards and clusters applies to it. *)

From S2P Require Import Prelude Machine Text Store Kvdb.

Local Open Scope Z_scope.

(** The JSON text of values, as far as the store uses it. *)
Class LmdbCodec (V : Type) := {
  value_to_string : V → string;
  value_of_string : string → option V;
  value_as_u64 : V → option Z;
}.

Class LmdbCodecLaws (V : Type) `{!LmdbCodec V} := {
  (** a decimal numeral is JSON text for that number *)
  u64_json : ∀ e, is_u64 e → value_of_string (u64_to_string e) ≫= value_as_u64 = Some e;
}.

Module Lmdb.

Definition NUL : ascii := ascii_of_N 0.

Definition TABLES_DB : string := "__tables".
Definition EXP_DB : string := "__expiry".

Definition obj_db (coll : string) : string := "o:" ++ coll.
Definition tbl_db (table : string) : string := "t:" ++ table.
Definition exp_key (coll id : string) : string := coll ++ String NUL id.

(** [str::split_once('\u{0}')]. *)
Fixpoint split_once (s : string) : option (string * string) :=
  match s with
  | EmptyString => None
  | String a s' =>
      if decide (a = NUL) then Some (EmptyString, s')
      else '(x, y) ← split_once s'; Some (String a x, y)
  end.

(** A lower bound of a range scan. *)
Inductive Bound := Excluded (k : string) | Included (k : string) | Unbounded.

Definition above (lo : Bound) (k : string) : bool :=
  match lo with
  | Excluded a => str_ltb a k
  | Included p => negb (str_ltb k p)
  | Unbounded => true
  end.

Section store.
Context {V D : Type} `{!LmdbCodec V, !KvDb D}.

Record t := mk {
  env : gmap string D;
  has_any_ttl : bool;
}.

Implicit Types (st : t) (coll id : string) (now : Z).

Definition open (e : gmap string D) : t :=
  mk e (match e !! EXP_DB with
        | Some d => match db_iter d with [] => false | _ => true end
        | None => false
        end).

(** [db]: create the named database on first use. *)
Definition db st (name : string) : t :=
  match env st !! name with
  | Some _ => st
  | None => mk (<[name := db_empty]> (env st)) (has_any_ttl st)
  end.

Definition read_db st (name : string) : option D := env st !! name.

(** Change one database in a committed transaction. *)
Definition commit st (name : string) (f : D → D) : t :=
  mk (alter f name (env st)) (has_any_ttl st).

(** [db.delete]: a key of the wrong size is not there. *)
Definition del (k : string) (d : D) : D := if valid_key k then (db_delete d k).1 else d.

(** [put_str]: the named database is there even if the key is refused. *)
Definition put_str st (name key val : string) : t :=
  let st := db st name in
  if valid_key key then commit st name (λ d, db_put d key val) else st.

Definition read_expiry st coll id : option Z :=
  d ← read_db st EXP_DB; db_get d (exp_key coll id) ≫= parse_u64.

Definition is_expired now st coll id : bool :=
  has_any_ttl st && match read_expiry st coll id with Some e => e <=? now | None => false end.

Definition clear_expiry st coll id : t := commit (db st EXP_DB) EXP_DB (del (exp_key coll id)).

Definition entries st (name : string) : list (string * V) :=
  match read_db st name with
  | None => []
  | Some d => omap (λ '(k, s), v ← value_of_string s; Some (k, v)) (db_iter d)
  end.

Definition add_row st (table row_id : string) (doc : V) : t :=
  put_str (put_str st (tbl_db table) row_id (value_to_string doc)) TABLES_DB table "1".

Definition list_tables st : list string := map fst (entries st TABLES_DB).

Definition scan_table st (table : string) : list (string * V) := entries st (tbl_db table).

Definition get_row st (table row_id : string) : option V :=
  d ← read_db st (tbl_db table); db_get d row_id ≫= value_of_string.

(** ** Objects *)

Definition put_object st coll id (obj : V) : t :=
  let st := put_str st (obj_db coll) id (value_to_string obj) in
  if valid_key id && has_any_ttl st then clear_expiry st coll id else st.

(** The writes of one item of a batch, its databases being there. *)
Definition put_item (ttl : bool) st (x : string * string * V) : t :=
  let '(coll, id, obj) := x in
  let st := commit st (obj_db coll) (λ d, db_put d id (value_to_string obj)) in
  if ttl then commit st EXP_DB (del (exp_key coll id)) else st.

(** All of the batch or nothing: one transaction. *)
Definition put_batch st (items : list (string * string * V)) : t :=
  match items with
  | [] => st
  | _ =>
      let st := foldl (λ st '(coll, _, _), db st (obj_db coll)) st items in
      let ttl := has_any_ttl st in
      let st := if ttl then db st EXP_DB else st in
      if forallb (λ '(_, id, _), valid_key id) items then foldl (put_item ttl) st items else st
  end.

Definition get_object now st coll id : option V :=
  if is_expired now st coll id then None
  else d ← read_db st (obj_db coll); db_get d id ≫= value_of_string.

Definition scan_entries now st coll : list (string * V) :=
  let es := entries st (obj_db coll) in
  if has_any_ttl st then filter (λ x, is_expired now st coll x.1 = false) es else es.

Definition scan_objects now st coll : list V := map snd (scan_entries now st coll).

(** The tighter of the cursor and the start of the prefix. *)
Definition lower (after prefix : option string) : Bound :=
  match after, prefix with
  | Some a, Some p => if negb (str_ltb a p) then Excluded a else Included p
  | Some a, None => Excluded a
  | None, Some p => Included p
  | None, None => Unbounded
  end.

(** The walk from the lower bound; past the end or the prefix it stops. *)
Fixpoint range_loop now st coll (prefix end_ : option string) (limit : nat)
    (items : list (string * string)) (out : list string) : list string :=
  match items with
  | [] => out
  | (k, _) :: items' =>
      if (limit <=? length out)%nat then out
      else if negb (map_or_true end_ (λ e, str_ltb k e)) then out
      else if negb (map_or_true prefix (λ p, starts_with p k)) then out
      else if has_any_ttl st && is_expired now st coll k
      then range_loop now st coll prefix end_ limit items' out
      else range_loop now st coll prefix end_ limit items' (out ++ [k])
  end.

Definition scan_range now st coll (after prefix end_ : option string) (limit : nat) : list string :=
  match read_db st (obj_db coll) with
  | None => []
  | Some d =>
      range_loop now st coll prefix end_ limit
        (filter (λ x, above (lower after prefix) x.1 = true) (db_iter d)) []
  end.

Definition clear_collection st coll : t :=
  match read_db st (obj_db coll) with
  | None => st
  | Some _ => commit st (obj_db coll) (λ _, db_empty)
  end.

(** LMDB refuses the empty key here too; one that is too long it does not find. *)
Definition delete_object st coll id : t :=
  match read_db st (obj_db coll) with
  | Some _ =>
      if String.eqb id EmptyString then st
      else
        let st := commit st (obj_db coll) (del id) in
        if has_any_ttl st then clear_expiry st coll id else st
  | None => if has_any_ttl st then clear_expiry st coll id else st
  end.

Definition put_object_at st coll id (obj : V) (expire_at_ms : Z) : t :=
  let st := put_str st (obj_db coll) id (value_to_string obj) in
  if valid_key id then
    let st := put_str st EXP_DB (exp_key coll id) (u64_to_string expire_at_ms) in
    if valid_key (exp_key coll id) then mk (env st) true else st
  else st.

Definition expiry_of st coll id : option Z := read_expiry st coll id.

(** Expired entries of the expiry database: their keys, collections and ids. *)
Definition dead (now_ms : Z) (es : list (string * V)) : list (string * string * string) :=
  omap (λ '(ekey, v),
    exp ← value_as_u64 v;
    if now_ms <? exp then None
    else '(coll, id) ← split_once ekey; Some (ekey, coll, id)) es.

Definition reap st (x : string * string * string) : t :=
  let '(ekey, coll, id) := x in
  match read_db st (obj_db coll) with
  | Some _ => commit (commit st (obj_db coll) (del id)) EXP_DB (del ekey)
  | None => st
  end.

Definition sweep_expired st (now_ms : Z) : t * nat :=
  if negb (has_any_ttl st) then (st, O)
  else match read_db st EXP_DB with
  | None => (st, O)
  | Some _ =>
      let ds := dead now_ms (entries st EXP_DB) in
      (foldl reap st ds, length ds)
  end.

#[global] Instance lmdb_index_store : IndexStore V t := {
  Store.put_object := put_object;
  Store.put_batch := put_batch;
  Store.get_object := get_object;
  Store.scan_objects := scan_objects;
  Store.scan_entries := scan_entries;
  Store.scan_range := scan_range;
  Store.clear_collection := clear_collection;
  Store.delete_object := delete_object;
  Store.put_object_at := put_object_at;
  Store.expiry_of := expiry_of;
  Store.sweep_expired := sweep_expired;
}.

End store.
Arguments t : clear implicits.

(** ** Keys *)

Fixpoint nul_free (s : string) : bool :=
  match s with
  | EmptyString => true
  | String a s' => negb (bool_decide (a = NUL)) && nul_free s'
  end.

Lemma nul_free_app x y : nul_free (x ++ y) = nul_free x && nul_free y.
Proof.
  induction x as [|a x IH]; [done|].
  change (nul_free (String a (x ++ y)) = nul_free (String a x) && nul_free y).
  cbn [nul_free]. by rewrite IH, andb_assoc.
Qed.

(** The expiry key of a pair determines it. *)
Lemma exp_key_inj c i c' i' :
  nul_free c = true → nul_free i = true → exp_key c' i' = exp_key c i → c' = c ∧ i' = i.
Proof.
  unfold exp_key. revert c'. induction c as [|a c IH]; intros c' Hc Hi; destruct c' as [|b c'].
  - intros He. by injection He as ->.
  - intros [= -> He]. change (c' ++ String NUL i' = i)%string in He. subst i.
    rewrite nul_free_app in Hi. cbn in Hi. by rewrite andb_false_r in Hi.
  - intros [= <- _]. by cbn in Hc.
  - intros [= -> He]. change (c' ++ String NUL i' = c ++ String NUL i)%string in He.
    cbn in Hc. apply andb_true_iff in Hc as [_ Hc].
    by destruct (IH c' Hc Hi He) as [-> ->].
Qed.

Lemma split_once_exp_key c i : nul_free c = true → split_once (exp_key c i) = Some (c, i).
Proof.
  unfold exp_key. induction c as [|a c IH]; [done|]. intros Hc. cbn in Hc.
  apply andb_true_iff in Hc as [Ha Hc].
  change (split_once (String a (c ++ String NUL i)) = Some (String a c, i)). cbn [split_once].
  rewrite decide_False; [by rewrite (IH Hc)|]. apply negb_true_iff, bool_decide_eq_false in Ha. done.
Qed.

Lemma obj_db_inj c c' : obj_db c = obj_db c' → c = c'.
Proof. unfold obj_db. by intros He%(inj (String.append "o:")). Qed.

Lemma obj_db_not_exp c : obj_db c ≠ EXP_DB.
Proof. done. Qed.

Lemma map_fst_filter {A} (P : string → Prop) `{!∀ k, Decision (P k)} (l : list (string * A)) :
  map fst (filter (λ x, P x.1) l) = filter P (map fst l).
Proof.
  induction l as [|[k v] l IH]; [done|]. cbn [map fst]. rewrite !filter_cons. cbn [fst].
  case_decide; [cbn; by rewrite IH|done].
Qed.

(** *** Ranges and prefixes *)

(** Between a prefix and a key that has it, every key has it. *)
Lemma prefix_convex p k k' :
  starts_with p k' = true → ¬ str_lt k p → str_lt k k' → starts_with p k = true.
Proof.
  unfold starts_with. rewrite <-!str_ltb_spec. unfold str_ltb, String.ltb.
  revert k k'. induction p as [|a p IH]; intros k k'; [by destruct k|].
  destruct k' as [|c k']; [done|]. destruct k as [|b k]; [done|]. cbn [String.prefix String.compare].
  destruct (ascii_dec a c) as [->|]; [|done]. intros Hp Hge Hlt.
  destruct (Ascii.compare b c) eqn:E.
  - apply Ascii.compare_eq_iff in E as ->. destruct (ascii_dec c c) as [_|]; [|done].
    by apply (IH k k').
  - by destruct Hge.
  - done.
Qed.

(** ** What the environment holds *)

Section laws.
Context {V D : Type} `{!LmdbCodec V, !LmdbCodecLaws V, !KvDb D, !KvDbLaws D}.
Implicit Types (st : t D) (c i k : string).

Definition names_ok c i : bool :=
  nul_free c && nul_free i && valid_key i && valid_key (exp_key c i).

Definition entry_ok c i (v : V) : Prop :=
  names_ok c i = true ∧ value_of_string (value_to_string v) = Some v.

Definition raw st c i : option string := d ← env st !! obj_db c; db_get d i.
Definition exps st k : option string := d ← env st !! EXP_DB; db_get d k.

Record wf st : Prop := {
  wf_obj : ∀ c i s, raw st c i = Some s → ∃ v : V, s = value_to_string v ∧ entry_ok c i v;
  wf_exp : ∀ k s, exps st k = Some s →
    ∃ c i e, k = exp_key c i ∧ names_ok c i = true ∧ is_u64 e ∧ s = u64_to_string e;
  wf_ttl : has_any_ttl st = false → ∀ k, exps st k = None;
}.

Lemma names_ok_inv c i :
  names_ok c i = true →
  nul_free c = true ∧ nul_free i = true ∧ valid_key i = true ∧ valid_key (exp_key c i) = true.
Proof. unfold names_ok. rewrite !andb_true_iff. tauto. Qed.

Lemma expiry_exps st c i : expiry_of st c i = exps st (exp_key c i) ≫= parse_u64.
Proof.
  unfold expiry_of, read_expiry, read_db, exps. by destruct (env st !! EXP_DB).
Qed.

Lemma exp_key_other st c i c' i' :
  wf st → (c, i) ≠ (c', i') →
  (if decide (exp_key c i = exp_key c' i') then None else exps st (exp_key c' i'))
  = exps st (exp_key c' i').
Proof.
  intros Hwf Hne. case_decide as Hk; [|done].
  destruct (exps st (exp_key c' i')) as [s|] eqn:E; [|done].
  destruct (wf_exp _ Hwf _ _ E) as (c0 & i0 & e & Hk0 & Hok & _).
  apply names_ok_inv in Hok as (Hc0 & Hi0 & _).
  destruct (exp_key_inj c0 i0 c' i' Hc0 Hi0 Hk0) as [-> ->].
  destruct (exp_key_inj c0 i0 c i Hc0 Hi0 Hk) as [-> ->]. done.
Qed.

Lemma get_raw now st c i :
  wf st →
  get_object now st c i
  = match expiry_of st c i with
    | Some e => if e <=? now then None else raw st c i ≫= value_of_string
    | None => raw st c i ≫= value_of_string
    end.
Proof.
  intros Hwf. unfold get_object, is_expired, read_db, raw. fold (expiry_of st c i).
  assert ((d ← env st !! obj_db c; db_get d i ≫= value_of_string)
    = (d ← env st !! obj_db c; db_get d i) ≫= value_of_string (V := V)) as ->
    by (by destruct (env st !! obj_db c)).
  destruct (has_any_ttl st) eqn:Ht; cbn [andb].
  - by destruct (expiry_of st c i) as [e|]; [destruct (e <=? now)|].
  - rewrite expiry_exps, (wf_ttl _ Hwf Ht). done.
Qed.

(** *** The two databases an operation touches *)

Lemma raw_db st n c i : raw (db st n) c i = raw st c i.
Proof.
  unfold raw, db. destruct (env st !! n) eqn:E; [done|]. cbn [env].
  destruct (decide (n = obj_db c)) as [->|Hn]; [|by rewrite lookup_insert_ne].
  rewrite lookup_insert_eq, E. cbn. apply db_get_empty.
Qed.

Lemma exps_db st n k : exps (db st n) k = exps st k.
Proof.
  unfold exps, db. destruct (env st !! n) eqn:E; [done|]. cbn [env].
  destruct (decide (n = EXP_DB)) as [->|Hn]; [|by rewrite lookup_insert_ne].
  rewrite lookup_insert_eq, E. cbn. apply db_get_empty.
Qed.

Lemma ttl_db st n : has_any_ttl (db st n) = has_any_ttl st.
Proof. unfold db. by destruct (env st !! n). Qed.

Lemma db_there st n : is_Some (env (db st n) !! n).
Proof.
  unfold db. destruct (env st !! n) eqn:E; [by rewrite E|]. cbn. by rewrite lookup_insert_eq.
Qed.

Lemma raw_commit_exp st f c i : raw (commit st EXP_DB f) c i = raw st c i.
Proof. unfold raw, commit. cbn [env]. by rewrite lookup_alter_ne. Qed.

Lemma exps_commit_obj st c f k : exps (commit st (obj_db c) f) k = exps st k.
Proof. unfold exps, commit. cbn [env]. by rewrite lookup_alter_ne. Qed.

Lemma raw_commit_obj st c f c' i :
  raw (commit st (obj_db c) f) c' i
  = if decide (c = c') then d ← env st !! obj_db c; db_get (f d) i else raw st c' i.
Proof.
  unfold raw, commit. cbn [env]. case_decide as Hc.
  - subst c'. rewrite lookup_alter_eq. by destruct (env st !! obj_db c).
  - rewrite lookup_alter_ne; [done|]. by intros ?%obj_db_inj.
Qed.

Lemma exps_commit_exp st f k :
  exps (commit st EXP_DB f) k = d ← env st !! EXP_DB; db_get (f d) k.
Proof. unfold exps, commit. cbn [env]. rewrite lookup_alter_eq. by destruct (env st !! EXP_DB). Qed.

Lemma raw_put_str st c i s c' i' :
  valid_key i = true →
  raw (put_str st (obj_db c) i s) c' i' = if decide ((c, i) = (c', i')) then Some s else raw st c' i'.
Proof.
  intros Hi. unfold put_str. rewrite Hi, raw_commit_obj.
  destruct (db_there st (obj_db c)) as [d Hd]. rewrite Hd.
  destruct (decide (c = c')) as [<-|Hc]; [|rewrite decide_False by naive_solver; apply raw_db].
  cbn. rewrite db_get_put by done. destruct (decide (i = i')) as [<-|Hne].
  - by rewrite decide_True.
  - rewrite decide_False by naive_solver. rewrite <-(raw_db st (obj_db c)). unfold raw. by rewrite Hd.
Qed.

Lemma exps_put_str_obj st c i s k : exps (put_str st (obj_db c) i s) k = exps st k.
Proof. unfold put_str. destruct (valid_key i); rewrite ?exps_commit_obj; apply exps_db. Qed.

Lemma raw_put_str_exp st k s c i : raw (put_str st EXP_DB k s) c i = raw st c i.
Proof. unfold put_str. destruct (valid_key k); rewrite ?raw_commit_exp; apply raw_db. Qed.

Lemma exps_put_str st k s k' :
  valid_key k = true →
  exps (put_str st EXP_DB k s) k' = if decide (k = k') then Some s else exps st k'.
Proof.
  intros Hk. unfold put_str. rewrite Hk, exps_commit_exp.
  destruct (db_there st EXP_DB) as [d Hd]. rewrite Hd. cbn. rewrite db_get_put by done.
  case_decide; [done|]. rewrite <-(exps_db st EXP_DB). unfold exps. by rewrite Hd.
Qed.

Lemma ttl_put_str st n k s : has_any_ttl (put_str st n k s) = has_any_ttl st.
Proof. unfold put_str. destruct (valid_key k); apply ttl_db. Qed.

(** Deleting an expiry entry, valid or not: only stored keys matter. *)
Lemma exps_del st k k' :
  (∀ k s, exps st k = Some s → valid_key k = true) →
  exps (commit st EXP_DB (del k)) k' = if decide (k = k') then None else exps st k'.
Proof.
  intros Hv. rewrite exps_commit_exp. unfold exps in *. destruct (env st !! EXP_DB) as [d|]; cbn in *;
    [|by case_decide]. unfold del. destruct (valid_key k) eqn:E; [by rewrite db_get_delete|].
  case_decide as Hk; [|done]. subst k'. destruct (db_get d k) eqn:Ed; [|done].
  apply Hv in Ed. congruence.
Qed.

Lemma raw_del st c i c' i' :
  (∀ c i s, raw st c i = Some s → valid_key i = true) →
  raw (commit st (obj_db c) (del i)) c' i'
  = if decide ((c, i) = (c', i')) then None else raw st c' i'.
Proof.
  intros Hv. rewrite raw_commit_obj. destruct (decide (c = c')) as [<-|Hc];
    [|by rewrite decide_False by naive_solver].
  specialize (Hv c). unfold raw in *. destruct (env st !! obj_db c) as [d|]; cbn in *;
    [|by case_decide]. unfold del. destruct (valid_key i) eqn:E.
  - rewrite db_get_delete by done. destruct (decide (i = i')); [by rewrite decide_True by congruence|].
    by rewrite decide_False by naive_solver.
  - case_decide as Hk; [|done]. injection Hk as <-. destruct (db_get d i) eqn:Ed; [|done].
    apply Hv in Ed. congruence.
Qed.

Lemma exps_valid st : wf st → ∀ k s, exps st k = Some s → valid_key k = true.
Proof.
  intros Hwf k s (c & i & e & -> & Hok & _)%(wf_exp _ Hwf). by apply names_ok_inv in Hok as (_ & _ & _ & ?).
Qed.

Lemma raw_valid st : wf st → ∀ c i s, raw st c i = Some s → valid_key i = true.
Proof.
  intros Hwf c i s (v & -> & Hok & _)%(wf_obj _ Hwf). by apply names_ok_inv in Hok as (_ & _ & ? & _).
Qed.

(** *** The operations *)

Lemma raw_clear_expiry st c i c' i' : raw (clear_expiry st c i) c' i' = raw st c' i'.
Proof. unfold clear_expiry. rewrite raw_commit_exp. apply raw_db. Qed.

Lemma exps_clear_expiry st c i k :
  (∀ k s, exps st k = Some s → valid_key k = true) →
  exps (clear_expiry st c i) k = if decide (exp_key c i = k) then None else exps st k.
Proof.
  intros Hv. unfold clear_expiry. rewrite exps_del; [by rewrite exps_db|].
  intros k' s. rewrite exps_db. apply Hv.
Qed.

Lemma ttl_clear_expiry st c i : has_any_ttl (clear_expiry st c i) = has_any_ttl st.
Proof. apply ttl_db. Qed.

Lemma raw_put st c i (v : V) c' i' :
  valid_key i = true →
  raw (put_object st c i v) c' i'
  = if decide ((c, i) = (c', i')) then Some (value_to_string v) else raw st c' i'.
Proof.
  intros Hi. unfold put_object. destruct (_ && _); rewrite ?raw_clear_expiry;
    by apply raw_put_str.
Qed.

Lemma exps_put st c i (v : V) k :
  wf st → valid_key i = true →
  exps (put_object st c i v) k = if decide (exp_key c i = k) then None else exps st k.
Proof.
  intros Hwf Hi. unfold put_object. rewrite Hi, ttl_put_str. cbn [andb]. destruct (has_any_ttl st) eqn:Ht.
  - rewrite exps_clear_expiry; rewrite ?exps_put_str_obj; [done|].
    intros k' s. rewrite exps_put_str_obj. by apply exps_valid.
  - rewrite exps_put_str_obj, (wf_ttl _ Hwf Ht). by case_decide.
Qed.

Lemma ttl_put st c i (v : V) : has_any_ttl (put_object st c i v) = has_any_ttl st.
Proof.
  unfold put_object. destruct (_ && _); rewrite ?ttl_clear_expiry; apply ttl_put_str.
Qed.

Lemma raw_put_at st c i (v : V) e c' i' :
  valid_key i = true →
  raw (put_object_at st c i v e) c' i'
  = if decide ((c, i) = (c', i')) then Some (value_to_string v) else raw st c' i'.
Proof.
  intros Hi. unfold put_object_at. set (st1 := put_str st _ _ _). rewrite Hi.
  transitivity (raw (put_str st1 EXP_DB (exp_key c i) (u64_to_string e)) c' i'); [by case_match|].
  rewrite raw_put_str_exp. by apply raw_put_str.
Qed.

Lemma exps_put_at st c i (v : V) e k :
  valid_key i = true → valid_key (exp_key c i) = true →
  exps (put_object_at st c i v e) k
  = if decide (exp_key c i = k) then Some (u64_to_string e) else exps st k.
Proof.
  intros Hi Hk. unfold put_object_at. set (st1 := put_str st _ _ _). rewrite Hi, Hk.
  etrans; [by apply (exps_put_str st1 (exp_key c i) (u64_to_string e))|].
  subst st1. by rewrite exps_put_str_obj.
Qed.

(** Nothing is stored under the empty id. *)
Lemma raw_empty_id st c : wf st → raw st c EmptyString = None.
Proof.
  intros Hwf. destruct (raw st c EmptyString) eqn:E; [|done]. by apply (raw_valid _ Hwf) in E.
Qed.

Lemma exps_empty_id st c : wf st → exps st (exp_key c EmptyString) = None.
Proof.
  intros Hwf. destruct (exps st _) as [s|] eqn:E; [|done].
  destruct (wf_exp _ Hwf _ _ E) as (c0 & i0 & e & Hk & (Hc & Hi & Hv & _)%names_ok_inv & _).
  by destruct (exp_key_inj c0 i0 c EmptyString Hc Hi Hk) as [_ <-].
Qed.

Lemma raw_delete st c i c' i' :
  wf st → raw (delete_object st c i) c' i' = if decide ((c, i) = (c', i')) then None else raw st c' i'.
Proof.
  intros Hwf. unfold delete_object, read_db. destruct (env st !! obj_db c) as [d|] eqn:E.
  - destruct (String.eqb_spec i EmptyString) as [->|_].
    { case_decide as Hk; [|done]. injection Hk as <- <-. by apply raw_empty_id. }
    cbv zeta. destruct (has_any_ttl _); rewrite ?raw_clear_expiry; by apply raw_del, raw_valid.
  - assert (raw st c' i' = if decide ((c, i) = (c', i')) then None else raw st c' i') as Hr.
    { case_decide as Hk; [|done]. injection Hk as <- <-. unfold raw. by rewrite E. }
    destruct (has_any_ttl st); rewrite ?raw_clear_expiry; done.
Qed.

(** The expiry entry goes, or there was none. *)
Lemma exps_forget st st1 c i k :
  wf st → (∀ k, exps st1 k = exps st k) → has_any_ttl st1 = has_any_ttl st →
  exps (if has_any_ttl st1 then clear_expiry st1 c i else st1) k
  = if decide (exp_key c i = k) then None else exps st k.
Proof.
  intros Hwf He Ht. rewrite Ht. destruct (has_any_ttl st) eqn:Hst.
  - rewrite exps_clear_expiry; [by rewrite He|]. intros k' s. rewrite He. by apply exps_valid.
  - rewrite He, (wf_ttl _ Hwf Hst). by case_decide.
Qed.

Lemma exps_delete st c i k :
  wf st → exps (delete_object st c i) k = if decide (exp_key c i = k) then None else exps st k.
Proof.
  intros Hwf. unfold delete_object. destruct (read_db st (obj_db c)); [|by apply exps_forget].
  destruct (String.eqb_spec i EmptyString) as [->|_].
  - case_decide as Hk; [|done]. subst k. by apply exps_empty_id.
  - apply exps_forget; [done|intros; apply exps_commit_obj|done].
Qed.

Lemma ttl_delete st c i : has_any_ttl (delete_object st c i) = has_any_ttl st.
Proof.
  unfold delete_object. destruct (read_db st (obj_db c)); [case_match; [done|]|];
    cbv zeta; case_match; by rewrite ?ttl_clear_expiry.
Qed.

Lemma raw_clear st c c' i :
  raw (clear_collection st c) c' i = if decide (c = c') then None else raw st c' i.
Proof.
  unfold clear_collection, read_db. destruct (env st !! obj_db c) as [d|] eqn:E.
  - rewrite raw_commit_obj, E. case_decide; [|done]. cbn. apply db_get_empty.
  - case_decide; [|done]. subst c'. unfold raw. by rewrite E.
Qed.

Lemma exps_clear st c k : exps (clear_collection st c) k = exps st k.
Proof. unfold clear_collection. destruct (read_db st _); [apply exps_commit_obj|done]. Qed.

Lemma ttl_clear st c : has_any_ttl (clear_collection st c) = has_any_ttl st.
Proof. unfold clear_collection. by destruct (read_db st _). Qed.

(** *** Well-formedness *)

Lemma wf_removed st st' :
  wf st → has_any_ttl st' = has_any_ttl st →
  (∀ c i, raw st' c i = None ∨ raw st' c i = raw st c i) →
  (∀ k, exps st' k = None ∨ exps st' k = exps st k) → wf st'.
Proof.
  intros Hwf Ht Hr He. split.
  - intros c i s Hs. destruct (Hr c i) as [H|H]; rewrite H in Hs; [done|]. by apply (wf_obj _ Hwf).
  - intros k s Hs. destruct (He k) as [H|H]; rewrite H in Hs; [done|]. by apply (wf_exp _ Hwf).
  - intros Hn k. destruct (He k) as [H|H]; rewrite H; [done|]. apply (wf_ttl _ Hwf). congruence.
Qed.

Lemma wf_put_lmdb st c i (v : V) : wf st → entry_ok c i v → wf (put_object st c i v).
Proof.
  intros Hwf Hok. pose proof (proj1 Hok) as (_ & _ & Hi & _)%names_ok_inv. split.
  - intros c' i' s. rewrite raw_put by done. case_decide as Hk; [|apply (wf_obj _ Hwf)].
    injection Hk as <- <-. intros [= <-]. by exists v.
  - intros k s. rewrite exps_put by done. case_decide; [done|]. apply (wf_exp _ Hwf).
  - rewrite ttl_put. intros Ht k. rewrite exps_put by done. case_decide; [done|]. by apply (wf_ttl _ Hwf).
Qed.

Lemma wf_put_at_lmdb st c i (v : V) e :
  wf st → entry_ok c i v → is_u64 e → wf (put_object_at st c i v e).
Proof.
  intros Hwf Hok He. pose proof (proj1 Hok) as (_ & _ & Hi & Hk)%names_ok_inv. split.
  - intros c' i' s. rewrite raw_put_at by done. case_decide as Hc; [|apply (wf_obj _ Hwf)].
    injection Hc as <- <-. intros [= <-]. by exists v.
  - intros k s. rewrite exps_put_at by done. case_decide as Hkk; [|apply (wf_exp _ Hwf)].
    subst k. intros [= <-]. exists c, i, e. by destruct Hok.
  - unfold put_object_at. by rewrite Hi, Hk.
Qed.

Lemma wf_delete_lmdb st c i : wf st → wf (delete_object st c i).
Proof.
  intros Hwf. apply (wf_removed st); [done|apply ttl_delete|..].
  - intros c' i'. rewrite raw_delete by done. case_decide; auto.
  - intros k. rewrite exps_delete by done. case_decide; auto.
Qed.

Lemma wf_clear_lmdb st c : wf st → wf (clear_collection st c).
Proof.
  intros Hwf. apply (wf_removed st); [done|apply ttl_clear|..].
  - intros c' i'. rewrite raw_clear. case_decide; auto.
  - intros k. rewrite exps_clear. auto.
Qed.

(** *** Reads after writes *)

Lemma expiry_other st st' c i c' i' :
  wf st → (∀ k, exps st' k = if decide (exp_key c i = k) then None else exps st k) →
  expiry_of st' c' i' = if decide ((c, i) = (c', i')) then None else expiry_of st c' i'.
Proof.
  intros Hwf He. rewrite !expiry_exps, He. destruct (decide ((c, i) = (c', i'))) as [Hk|Hk].
  - injection Hk as <- <-. by rewrite decide_True.
  - by rewrite (exp_key_other st c i c' i' Hwf Hk).
Qed.

Lemma get_removed now st st' c i c' i' :
  wf st → wf st' →
  (∀ c' i', raw st' c' i' = if decide ((c, i) = (c', i')) then None else raw st c' i') →
  (∀ k, exps st' k = if decide (exp_key c i = k) then None else exps st k) →
  get_object (V := V) now st' c' i'
  = if decide ((c, i) = (c', i')) then None else get_object now st c' i'.
Proof.
  intros Hwf Hwf' Hr He. rewrite !get_raw by done. rewrite (expiry_other st st' c i) by done.
  rewrite Hr. by case_decide.
Qed.

Lemma expiry_put_at_lmdb st c i (v : V) e c' i' :
  wf st → entry_ok c i v → is_u64 e →
  expiry_of (put_object_at st c i v e) c' i'
  = if decide ((c, i) = (c', i')) then Some e else expiry_of st c' i'.
Proof.
  intros Hwf Hok He. pose proof (proj1 Hok) as (Hc & Hn & Hi & Hk)%names_ok_inv.
  rewrite !expiry_exps, exps_put_at by done. destruct (decide ((c, i) = (c', i'))) as [Heq|Hne].
  - injection Heq as <- <-. rewrite decide_True by done. cbn [mbind option_bind].
    by apply u64_string_roundtrip.
  - rewrite decide_False; [done|]. intros Heq. symmetry in Heq.
    destruct (exp_key_inj c i c' i' Hc Hn Heq). congruence.
Qed.

Lemma get_put_lmdb now st c i (v : V) c' i' :
  wf st → entry_ok c i v →
  get_object now (put_object st c i v) c' i'
  = if decide ((c, i) = (c', i')) then Some v else get_object now st c' i'.
Proof.
  intros Hwf Hok. pose proof Hok as [(_ & _ & Hi & _)%names_ok_inv Hv].
  rewrite !get_raw by (done || by apply wf_put_lmdb).
  rewrite (expiry_other st _ c i c' i' Hwf (λ k, exps_put st c i v k Hwf Hi)), raw_put by done.
  by case_decide.
Qed.

Lemma get_put_at_lmdb now st c i (v : V) e c' i' :
  wf st → entry_ok c i v → is_u64 e →
  get_object now (put_object_at st c i v e) c' i'
  = if decide ((c, i) = (c', i')) then (if e <=? now then None else Some v)
    else get_object now st c' i'.
Proof.
  intros Hwf Hok He. pose proof Hok as [(_ & _ & Hi & _)%names_ok_inv Hv].
  rewrite !get_raw by (done || by apply wf_put_at_lmdb).
  rewrite expiry_put_at_lmdb, raw_put_at by done. case_decide; [|done]. cbn. by rewrite Hv.
Qed.

(** *** The sweep *)

Lemma dead_spec tm st x :
  wf st → x ∈ dead tm (entries (V := V) st EXP_DB) →
  ∃ c i e, x = (exp_key c i, c, i) ∧ expiry_of st c i = Some e ∧ e ≤ tm.
Proof.
  intros Hwf. unfold dead, entries, read_db. destruct (env st !! EXP_DB) as [d|] eqn:Hd; [|by intros ?%elem_of_nil].
  rewrite list_elem_of_omap. intros ([k v] & Hin & Hx).
  apply list_elem_of_omap in Hin as ([k' s] & Hin & Hv). cbn in Hv.
  destruct (value_of_string s) as [v'|] eqn:Hvs; [|done]. injection Hv as -> ->.
  apply elem_of_db_iter in Hin.
  assert (Hexps : exps st k = Some s) by (unfold exps; by rewrite Hd).
  destruct (wf_exp _ Hwf _ _ Hexps) as (c & i & e & -> & Hok & He & ->).
  pose proof (u64_json e He) as Hj. rewrite Hvs in Hj. cbn in Hj. rewrite Hj in Hx. cbn in Hx.
  destruct (Z.ltb_spec tm e) as [|Hle]; [done|].
  apply names_ok_inv in Hok as (Hc & _). rewrite split_once_exp_key in Hx by done. cbn in Hx.
  injection Hx as <-. exists c, i, e. split_and!; [done| |done].
  rewrite expiry_exps, Hexps. cbn. by apply u64_string_roundtrip.
Qed.

Lemma reap_spec st c i :
  wf st →
  wf (reap st (exp_key c i, c, i))
  ∧ ∀ now c' i', get_object (V := V) now (reap st (exp_key c i, c, i)) c' i'
      = if decide ((c, i) = (c', i')) then None else get_object now st c' i'.
Proof.
  intros Hwf. unfold reap, read_db. destruct (env st !! obj_db c) as [d|] eqn:E.
  - set (st1 := commit st (obj_db c) (del i)). set (st2 := commit st1 EXP_DB (del (exp_key c i))).
    assert (Hr : ∀ c' i', raw st2 c' i' = if decide ((c, i) = (c', i')) then None else raw st c' i').
    { intros c' i'. subst st2. rewrite raw_commit_exp. subst st1. by apply raw_del, raw_valid. }
    assert (He : ∀ k, exps st2 k = if decide (exp_key c i = k) then None else exps st k).
    { intros k. subst st2. rewrite exps_del; [subst st1; by rewrite exps_commit_obj|].
      intros k' s'. subst st1. rewrite exps_commit_obj. by apply exps_valid. }
    assert (Hwf2 : wf st2).
    { apply (wf_removed st); [done|done|..]; intros; rewrite ?Hr, ?He; case_decide; auto. }
    split; [done|]. intros now c' i'. by apply get_removed.
  - split; [done|]. intros now c' i'. case_decide as Hk; [|done]. injection Hk as <- <-.
    rewrite get_raw by done. assert (raw st c i = None) as -> by (unfold raw; by rewrite E).
    destruct (expiry_of st c i) as [e|]; [by destruct (e <=? now)|done].
Qed.

Lemma reap_all tm ds st :
  wf st →
  (∀ x, x ∈ ds → ∃ c i, x = (exp_key c i, c, i)
     ∧ ∀ now, tm ≤ now → get_object (V := V) now st c i = None) →
  wf (foldl reap st ds)
  ∧ ∀ now c i, tm ≤ now → get_object (V := V) now (foldl reap st ds) c i = get_object now st c i.
Proof.
  revert st. induction ds as [|x ds IH]; intros st Hwf Hds; [done|]. cbn [foldl].
  destruct (Hds x ltac:(left)) as (c & i & -> & Hnone).
  destruct (reap_spec st c i Hwf) as [Hwf1 Hg1].
  assert (Hsame : ∀ now c' i', tm ≤ now →
    get_object (V := V) now (reap st (exp_key c i, c, i)) c' i' = get_object now st c' i').
  { intros now c' i' Hn. rewrite Hg1. case_decide as Hk; [|done]. injection Hk as <- <-.
    by rewrite Hnone. }
  destruct (IH _ Hwf1) as [Hwf2 Hg2].
  { intros y Hy. destruct (Hds y ltac:(by right)) as (c' & i' & -> & Hn'). exists c', i'.
    split; [done|]. intros now Hn. rewrite Hsame by done. by apply Hn'. }
  split; [done|]. intros now c' i' Hn. by rewrite Hg2, Hsame.
Qed.

Lemma sweep_lmdb st tm :
  wf st →
  wf (sweep_expired (V := V) st tm).1
  ∧ ∀ now c i, tm ≤ now →
      get_object (V := V) now (sweep_expired (V := V) st tm).1 c i = get_object now st c i.
Proof.
  intros Hwf. unfold sweep_expired. destruct (negb (has_any_ttl st)); [done|].
  destruct (read_db st EXP_DB); [|done]. cbn [fst]. apply reap_all; [done|].
  intros x (c & i & e & -> & He & Hle)%dead_spec; [|done]. exists c, i. split; [done|].
  intros now Hn. rewrite get_raw, He by done. by rewrite (proj2 (Z.leb_le _ _)) by lia.
Qed.

(** Clearing a collection leaves its expiry entries: the next sweep reports the
    cleared objects as reclaimed. *)
Lemma clear_keeps_expiry st c c' i now :
  expiry_of (clear_collection st c) c' i = expiry_of st c' i
  ∧ (sweep_expired (V := V) (clear_collection st c) now).2 = (sweep_expired (V := V) st now).2.
Proof.
  assert (Hrd : read_db (clear_collection st c) EXP_DB = read_db st EXP_DB).
  { unfold clear_collection, read_db, commit. destruct (env st !! obj_db c); [|done]. cbn.
    by rewrite lookup_alter_ne by apply obj_db_not_exp. }
  split; [by rewrite !expiry_exps, exps_clear|].
  unfold sweep_expired. rewrite ttl_clear, Hrd. destruct (negb (has_any_ttl st)); [done|].
  destruct (read_db st EXP_DB) eqn:Hdb; [|done]. cbn [snd]. unfold entries. by rewrite Hrd, Hdb.
Qed.

Lemma exp_key_shift c x i : exp_key (c ++ String NUL x) i = exp_key c (x ++ String NUL i).
Proof.
  unfold exp_key. induction c as [|a c IH]; [done|].
  change (String a ((c ++ String NUL x) ++ String NUL i) = String a (c ++ String NUL (x ++ String NUL i))).
  by rewrite IH.
Qed.

(** Two objects share an expiry entry when their names differ only in where the
    separator stands: a deadline set on one hides the other. *)
Lemma shared_expiry_entry st c x i (v : V) e now :
  valid_key (x ++ String NUL i) = true → valid_key (exp_key c (x ++ String NUL i)) = true →
  is_u64 e → e ≤ now →
  get_object (V := V) now (put_object_at st c (x ++ String NUL i) v e) (c ++ String NUL x) i = None.
Proof.
  intros Hi Hk He Hle. unfold get_object, is_expired.
  assert (has_any_ttl (put_object_at st c (x ++ String NUL i) v e) = true) as ->
    by (unfold put_object_at; by rewrite Hi, Hk).
  cbn [andb].
  change (read_expiry ?s ?a ?b) with (expiry_of s a b). rewrite expiry_exps, exps_put_at by done.
  rewrite exp_key_shift.
  rewrite decide_True by done. cbn [mbind option_bind]. rewrite u64_string_roundtrip by done.
  by rewrite (proj2 (Z.leb_le _ _) Hle).
Qed.

(** *** Scans *)

Lemma elem_of_entries st c k v :
  wf st → (k, v) ∈ entries (V := V) st (obj_db c) ↔ raw st c k ≫= value_of_string = Some v.
Proof.
  intros Hwf. unfold entries, raw, read_db. destruct (env st !! obj_db c) as [d|]; cbn.
  2:{ split; [by intros ?%elem_of_nil|done]. }
  rewrite list_elem_of_omap. split.
  - intros ([k' s] & Hin & Hv). cbn in Hv. apply elem_of_db_iter in Hin.
    destruct (value_of_string s) eqn:E; [|done]. injection Hv as -> ->. by rewrite Hin.
  - intros Hv. destruct (db_get d k) as [s|] eqn:E; [|done]. cbn in Hv. exists (k, s).
    split; [by apply elem_of_db_iter|]. cbn. by rewrite Hv.
Qed.

(** Every stored value parses, so the keys of the entries are the stored keys. *)
Lemma entries_keys st c d :
  wf st → env st !! obj_db c = Some d →
  map fst (entries (V := V) st (obj_db c)) = map fst (db_iter d).
Proof.
  intros Hwf Hd. unfold entries, read_db. rewrite Hd.
  assert (∀ k s, (k, s) ∈ db_iter d → ∃ v : V, value_of_string s = Some v) as Hall.
  { intros k s Hin%elem_of_db_iter. destruct (wf_obj _ Hwf c k s) as (v & -> & _ & Hv).
    - unfold raw. by rewrite Hd.
    - by exists v. }
  induction (db_iter d) as [|[k s] l IH]; [done|]. cbn.
  destruct (Hall k s ltac:(left)) as [v ->]. cbn. f_equal. apply IH. intros. eapply Hall. by right.
Qed.

Lemma scan_entries_filter now st c :
  wf st → scan_entries (V := V) now st c
          = filter (λ x, is_expired now st c x.1 = false) (entries st (obj_db c)).
Proof.
  intros Hwf. unfold scan_entries. destruct (has_any_ttl st) eqn:Ht; [done|].
  rewrite filter_all; [done|]. intros x _. unfold is_expired. by rewrite Ht.
Qed.

Lemma entries_get_lmdb now st c k (v : V) :
  wf st → (k, v) ∈ scan_entries now st c ↔ get_object now st c k = Some v.
Proof.
  intros Hwf. rewrite scan_entries_filter, list_elem_of_filter, elem_of_entries by done. cbn.
  unfold get_object. assert ((d ← read_db st (obj_db c); db_get d k ≫= value_of_string)
    = raw st c k ≫= value_of_string (V := V)) as ->.
  { unfold raw, read_db. by destruct (env st !! obj_db c). }
  destruct (is_expired now st c k); naive_solver.
Qed.

Lemma scan_keys_filter now st c :
  wf st → map fst (scan_entries (V := V) now st c)
          = filter (λ k, is_expired now st c k = false) (map fst (entries (V := V) st (obj_db c))).
Proof.
  intros Hwf. rewrite scan_entries_filter by done.
  exact (@map_fst_filter V (λ k, is_expired now st c k = false)
    (λ k, decide_rel eq (is_expired now st c k) false) _).
Qed.

Lemma above_keys lo (d : D) :
  map fst (filter (λ x, above lo x.1 = true) (db_iter d))
  = filter (λ k, above lo k = true) (map fst (db_iter d)).
Proof.
  exact (@map_fst_filter string (λ k, above lo k = true) (λ k, decide_rel eq (above lo k) true) _).
Qed.

Lemma keys_strict now st c :
  wf st → StronglySorted str_lt (map fst (scan_entries (V := V) now st c)).
Proof.
  intros Hwf. rewrite scan_keys_filter by done. apply StronglySorted_filter. destruct (env st !! obj_db c) as [d|] eqn:E.
  - rewrite (entries_keys st c d) by done. apply db_iter_sorted.
  - unfold entries, read_db. rewrite E. constructor.
Qed.

(** The keys the walk keeps. *)
Definition kept now st c (prefix end_ : option string) k : Prop :=
  map_or_true end_ (λ e, str_ltb k e) = true ∧ map_or_true prefix (λ p, starts_with p k) = true
  ∧ is_expired now st c k = false.

#[local] Instance kept_dec now st c prefix end_ k : Decision (kept now st c prefix end_ k).
Proof. unfold kept. apply _. Defined.

(** Once past the end or the prefix, nothing further is kept. *)
Lemma kept_stops now st c prefix end_ k k' :
  map_or_true prefix (λ p, negb (str_ltb k p)) = true → str_lt k k' →
  map_or_true end_ (λ e, str_ltb k e) = false ∨ map_or_true prefix (λ p, starts_with p k) = false →
  ¬ kept now st c prefix end_ k'.
Proof.
  intros Hp Hlt Hstop (He' & Hp' & _). destruct Hstop as [Hs|Hs].
  - destruct end_ as [e|]; [|done]. cbn in *. apply str_ltb_spec in He'.
    apply not_true_iff_false in Hs. apply Hs, str_ltb_spec. by etrans.
  - destruct prefix as [p|]; [|done]. cbn in *. apply not_true_iff_false in Hs. apply Hs.
    apply (prefix_convex p k k'); [done| |done]. rewrite <-str_ltb_spec.
    apply negb_true_iff in Hp. by rewrite Hp.
Qed.

Lemma range_loop_spec now st c prefix end_ limit items out :
  StronglySorted str_lt (map fst items) → (length out ≤ limit)%nat →
  (∀ k, k ∈ map fst items → map_or_true prefix (λ p, negb (str_ltb k p)) = true) →
  range_loop now st c prefix end_ limit items out
  = take limit (out ++ filter (kept now st c prefix end_) (map fst items)).
Proof.
  revert out. induction items as [|[k s] items IH]; intros out Hs Hout Hp; cbn [range_loop map fst].
  { by rewrite app_nil_r, take_ge. }
  cbn [map fst] in Hs. apply StronglySorted_inv in Hs as [Hs Hall].
  assert (Hpk := Hp k ltac:(left)).
  assert (Hp' : ∀ k', k' ∈ map fst items → map_or_true prefix (λ p, negb (str_ltb k' p)) = true)
    by (intros; apply Hp; by right).
  assert (Hend : map_or_true end_ (λ e, str_ltb k e) = false
                 ∨ map_or_true prefix (λ p, starts_with p k) = false →
    take limit (out ++ filter (kept now st c prefix end_) (k :: map fst items)) = out).
  { intros Hstop. rewrite filter_none; [by rewrite app_nil_r, take_ge|].
    intros k' [->|Hin]%elem_of_cons.
    - intros (H1 & H2 & _). destruct Hstop; congruence.
    - apply (kept_stops now st c prefix end_ k k' Hpk); [|done].
      by eapply Forall_forall in Hall. }
  destruct (Nat.leb_spec limit (length out)) as [Hfull|Hmore].
  { rewrite take_app_le, take_ge by lia. done. }
  destruct (map_or_true end_ _) eqn:E1; cbn [negb]; [|by rewrite Hend by auto].
  destruct (map_or_true prefix (λ p, starts_with p k)) eqn:E2; cbn [negb]; [|by rewrite Hend by auto].
  rewrite filter_cons.
  assert (Hx : has_any_ttl st && is_expired now st c k = is_expired now st c k).
  { unfold is_expired. by destruct (has_any_ttl st). }
  rewrite Hx. destruct (is_expired now st c k) eqn:E3.
  - rewrite decide_False; [by apply IH|]. intros (_ & _ & Hk). congruence.
  - rewrite decide_True by done. rewrite IH; [by rewrite <-app_assoc|done| |done].
    rewrite length_app. cbn. lia.
Qed.

Lemma above_lower after prefix k :
  above (lower after prefix) k = true →
  map_or_true after (λ a, str_ltb a k) = true ∧ map_or_true prefix (λ p, negb (str_ltb k p)) = true.
Proof.
  unfold lower. destruct after as [a|], prefix as [p|]; cbn; [|by auto..].
  destruct (str_ltb a p) eqn:E; cbn.
  - intros Hk. split; [|done]. apply negb_true_iff in Hk. apply str_ltb_spec in E.
    apply str_ltb_spec. destruct (decide (str_lt a k)) as [|Hn]; [done|].
    apply not_true_iff_false in Hk. destruct Hk. apply str_ltb_spec.
    apply str_lt_not_le. intros Hle. apply Hn. rewrite str_lt_not_le in *.
    intros Hka. apply E. by etrans.
  - intros Hk. split; [done|]. apply negb_true_iff, not_true_iff_false. rewrite str_ltb_spec.
    apply str_ltb_spec in Hk. apply not_true_iff_false in E. rewrite str_ltb_spec in E.
    intros Hkp. apply E. by etrans.
Qed.

Lemma prefix_ge p k : starts_with p k = true → negb (str_ltb k p) = true.
Proof.
  unfold starts_with. intros Hp. apply negb_true_iff. revert k Hp.
  unfold str_ltb, String.ltb. induction p as [|a p IH]; intros k; [by destruct k|].
  destruct k as [|b k]; [done|]. cbn [String.prefix String.compare].
  destruct (ascii_dec a b) as [->|]; [|done]. unfold Ascii.compare. rewrite N.compare_refl. apply IH.
Qed.

Lemma lower_above after prefix k :
  map_or_true after (λ a, str_ltb a k) = true → map_or_true prefix (λ p, starts_with p k) = true →
  above (lower after prefix) k = true.
Proof.
  intros Ha Hp. unfold lower. destruct after as [a|], prefix as [p|]; cbn in *; try done.
  - destruct (negb (str_ltb a p)); [done|]. by apply prefix_ge.
  - by apply prefix_ge.
Qed.

Lemma range_default_lmdb now st c a p e n :
  wf st → scan_range now st c a p e n
          = scan_range_default (scan_entries (V := V) now st c) a p e n.
Proof.
  intros Hwf. unfold scan_range_default.
  rewrite (strict_sorted_ext (sort_strings _) (map fst (scan_entries now st c)));
    [|apply sort_strings_strict, strict_sorted_NoDup; by apply keys_strict|by apply keys_strict
     |intros x; apply elem_of_sort_strings].
  rewrite scan_keys_filter by done.
  unfold scan_range, read_db. destruct (env st !! obj_db c) as [d|] eqn:Hd.
  2:{ unfold entries, read_db. rewrite Hd. by destruct n. }
  rewrite (entries_keys st c d) by done.
  rewrite range_loop_spec.
  - cbn [app]. rewrite above_keys.
    rewrite !list_filter_filter. f_equal. apply filter_ext_in. intros k _. unfold kept. split.
    + intros [(He & Hp & Hx) [Ha _]%above_lower]. by split_and!.
    + intros ?. destruct_and!. split_and!; [done..|by apply lower_above].
  - rewrite above_keys. apply StronglySorted_filter, db_iter_sorted.
  - cbn. lia.
  - intros k. rewrite above_keys, list_elem_of_filter.
    by intros [[_ ?]%above_lower _].
Qed.

(** *** Batches *)

Lemma db_present st n : is_Some (env st !! n) → db st n = st.
Proof. intros [d Hd]. unfold db. by rewrite Hd. Qed.

Lemma db_keeps st n m : is_Some (env st !! n) → is_Some (env (db st m) !! n).
Proof.
  intros Hn. unfold db. destruct (env st !! m) eqn:E; [done|]. cbn [env].
  destruct (decide (m = n)) as [->|]; [by rewrite lookup_insert_eq|by rewrite lookup_insert_ne].
Qed.

Lemma db_comm st n m : db (db st n) m = db (db st m) n.
Proof.
  destruct (env st !! n) as [d|] eqn:En.
  { rewrite (db_present st n) by by eexists. rewrite (db_present (db st m) n); [done|]. apply db_keeps. by eexists. }
  destruct (env st !! m) as [d|] eqn:Em.
  { rewrite (db_present st m) by by eexists. rewrite (db_present (db st n) m); [done|]. apply db_keeps. by eexists. }
  destruct (decide (n = m)) as [->|Hne]; [done|].
  unfold db. rewrite En, Em. cbn [env]. rewrite !lookup_insert_ne, En, Em by done. cbn [has_any_ttl].
  f_equal. by apply insert_insert_ne.
Qed.

Lemma commit_keeps st n m f : is_Some (env st !! n) → is_Some (env (commit st m f) !! n).
Proof. intros Hn. unfold commit. cbn [env]. by rewrite lookup_alter_is_Some. Qed.

Lemma commit_db st n m f : is_Some (env st !! n) → commit (db st m) n f = db (commit st n f) m.
Proof.
  intros Hn. unfold db at 1. destruct (env st !! m) as [d|] eqn:Em.
  - by rewrite db_present by (apply commit_keeps; by eexists).
  - assert (n ≠ m) by (intros ->; rewrite Em in Hn; by destruct Hn).
    unfold commit, db. cbn [env has_any_ttl]. rewrite lookup_alter_ne, Em by done. f_equal.
    by rewrite alter_insert_ne.
Qed.

Definition ready (ttl : bool) st : t D := if ttl then db st EXP_DB else st.

Lemma put_item_db ttl st c i (v : V) m :
  is_Some (env st !! obj_db c) → (ttl = true → is_Some (env st !! EXP_DB)) →
  put_item ttl (db st m) (c, i, v) = db (put_item ttl st (c, i, v)) m.
Proof.
  intros Hc He. unfold put_item. rewrite commit_db by done. destruct ttl; [|done].
  apply commit_db. apply commit_keeps. by apply He.
Qed.

Lemma put_object_item st c i (v : V) :
  valid_key i = true →
  put_object st c i v
  = put_item (has_any_ttl st) (ready (has_any_ttl st) (db st (obj_db c))) (c, i, v).
Proof.
  intros Hi. unfold put_object, put_item, ready, clear_expiry. rewrite ttl_put_str, Hi. cbn [andb].
  unfold put_str. rewrite Hi. destruct (has_any_ttl st); [|done]. f_equal. symmetry. apply commit_db, db_there.
Qed.

Lemma ensure_db items st m :
  foldl (λ st '(c, _, _), db st (obj_db c)) (db st m) items
  = db (foldl (λ st '((c, _, _) : string * string * V), db st (obj_db c)) st items) m.
Proof.
  revert st. induction items as [|[[c i] v] items IH]; intros st; [done|]. cbn [foldl].
  by rewrite db_comm, IH.
Qed.

Lemma put_item_ensure ttl items st c i (v : V) :
  is_Some (env st !! obj_db c) → (ttl = true → is_Some (env st !! EXP_DB)) →
  put_item ttl (foldl (λ st '((c, _, _) : string * string * V), db st (obj_db c)) st items) (c, i, v)
  = foldl (λ st '((c, _, _) : string * string * V), db st (obj_db c)) (put_item ttl st (c, i, v)) items.
Proof.
  revert st. induction items as [|[[c' i'] v'] items IH]; intros st Hc He; [done|]. cbn [foldl].
  rewrite IH; [by rewrite put_item_db|by apply db_keeps|]. intros Ht. by apply db_keeps, He.
Qed.

Lemma put_item_keeps ttl st x n : is_Some (env st !! n) → is_Some (env (put_item ttl st x) !! n).
Proof.
  destruct x as [[c i] v]. intros Hn. unfold put_item. destruct ttl; repeat apply commit_keeps; done.
Qed.

Lemma put_item_ttl ttl st (x : string * string * V) : has_any_ttl (put_item ttl st x) = has_any_ttl st.
Proof. destruct x as [[c i] v]. by destruct ttl. Qed.

(** The keys of a batch are all accepted. *)
Definition keys_valid (items : list (string * string * V)) : bool :=
  forallb (λ '(_, i, _), valid_key i) items.

Lemma batch_loop items st :
  keys_valid items = true →
  (has_any_ttl st = true → is_Some (env st !! EXP_DB)) →
  foldl (put_item (has_any_ttl st))
    (foldl (λ st '((c, _, _) : string * string * V), db st (obj_db c)) st items) items
  = put_batch_default put_object st items.
Proof.
  revert st. induction items as [|[[c i] v] items IH]; intros st Hv He; [done|]. apply andb_true_iff in Hv as [Hi Hv].
  unfold put_batch_default in *. cbn [foldl].
  rewrite put_item_ensure; [|apply db_there|intros Ht; apply db_keeps; by apply He].
  assert (Hput : put_object st c i v = put_item (has_any_ttl st) (db st (obj_db c)) (c, i, v)).
  { rewrite put_object_item by done. unfold ready. destruct (has_any_ttl st) eqn:Ht; [|done].
    rewrite db_present; [done|]. by apply db_keeps, He. }
  rewrite <-Hput, <-IH; [by rewrite ttl_put|done|].
  - rewrite ttl_put. intros Ht. rewrite Hput. by apply put_item_keeps, db_keeps, He.
Qed.

Lemma put_batch_lmdb st (items : list (string * string * V)) :
  keys_valid items = true → put_batch st items = put_batch_default put_object st items.
Proof.
  intros Hv. destruct items as [|[[c i] v] items]; [done|]. unfold put_batch. fold (keys_valid ((c, i, v) :: items)).
  rewrite Hv. pose proof Hv as [Hi _]%andb_true_iff.
  assert (Httl : ∀ l st, has_any_ttl (foldl (λ st '((c, _, _) : string * string * V), db st (obj_db c)) st l)
                 = has_any_ttl st).
  { induction l as [|[[c' i'] v'] l IH]; intros st'; [done|]. cbn [foldl]. by rewrite IH, ttl_db. }
  rewrite Httl. destruct (has_any_ttl st) eqn:Ht.
  - rewrite <-ensure_db. pose proof (batch_loop ((c, i, v) :: items) (db st EXP_DB)) as H.
    rewrite ttl_db, Ht in H. rewrite H by (done || intros; apply db_there).
    unfold put_batch_default. cbn [foldl]. f_equal.
    rewrite !put_object_item, !ttl_db, Ht by done. cbn [ready]. f_equal.
    rewrite (db_comm _ EXP_DB). apply db_present, db_there.
  - pose proof (batch_loop ((c, i, v) :: items) st) as H. rewrite Ht in H. by apply H.
Qed.

(** The durable store keeps the contract of a store: whatever is proved of
    stores, shards and clusters through [IndexStoreLaws] holds on it. *)
#[global] Instance lmdb_store_laws : IndexStoreLaws V (t D).
Proof.
  refine {| store_wf := wf; Store.entry_ok := entry_ok |}.
  - apply wf_put_lmdb.
  - apply wf_put_at_lmdb.
  - apply wf_delete_lmdb.
  - apply wf_clear_lmdb.
  - intros st tm Hwf. by apply sweep_lmdb.
  - intros now st c i v Hwf. cbn. rewrite get_raw by done. intros Hg.
    assert (Hr : raw st c i ≫= value_of_string = Some v).
    { destruct (expiry_of st c i) as [e|]; [by destruct (e <=? now)|done]. }
    destruct (raw st c i) as [s|] eqn:E; [|done]. destruct (wf_obj _ Hwf c i s E) as (v' & -> & Hok).
    cbn in Hr. rewrite (proj2 Hok) in Hr. by injection Hr as <-.
  - apply get_put_lmdb.
  - apply get_put_at_lmdb.
  - intros now st c i c' i' Hwf. cbn. apply get_removed; [done|by apply wf_delete_lmdb|..].
    + intros. by apply raw_delete.
    + intros. by apply exps_delete.
  - intros now st c c' i Hwf. cbn. rewrite !get_raw by (done || by apply wf_clear_lmdb).
    rewrite !expiry_exps, exps_clear, raw_clear. case_decide; [|done]. cbn.
    destruct (exps st (exp_key c' i) ≫= parse_u64) as [e|]; [by destruct (e <=? now)|done].
  - intros now st tm c i Hwf Hle. by apply sweep_lmdb.
  - intros st items _ Hok. apply put_batch_lmdb, forallb_forall. intros [[c i] v] Hin%list_elem_of_In.
    by destruct (Hok c i v Hin) as [(_ & _ & ? & _)%names_ok_inv _].
  - intros st c i v c' i' Hwf [(_ & _ & ? & _)%names_ok_inv _]. cbn. apply (expiry_other st); [done|].
    intros. by apply exps_put.
  - apply expiry_put_at_lmdb.
  - intros st c i c' i' Hwf. cbn. apply (expiry_other st); [done|]. intros. by apply exps_delete.
  - intros st c i Hwf. exists (raw st c i ≫= value_of_string). intros now. by apply get_raw.
  - intros now st c Hwf. by apply strict_sorted_NoDup, keys_strict.
  - intros now st c k v Hwf. by apply entries_get_lmdb.
  - done.
  - intros now st c a p e n Hwf. by apply range_default_lmdb.
Defined.

Lemma wf_open_empty : wf (open ∅).
Proof. split; done. Qed.

End laws.

End Lmdb.
