(* ===== verification/StoreEquiv.v ===== *)
(** * The two stores are interchangeable

    Two lawful stores that agree on their reads keep agreeing, operation by
    operation, on every answer; in particular the durable store behaves like the
    in-memory one. *)

From S2P Require Import Prelude Machine Text Partitioner Store MemoryStore Kvdb Lmdb.

Local Open Scope Z_scope.

Module StoreEquiv.

(** The calls a shard makes on its store; sweeping reclaims space and its count
    is not an answer to a client. *)
Inductive sop (V : Type) :=
  | SPut (c i : string) (v : V)
  | SPutAt (c i : string) (v : V) (e : Z)
  | SBatch (items : list (string * string * V))
  | SDelete (c i : string)
  | SClear (c : string)
  | SSweep
  | SCas (c i : string) (expect : option V) (nw : V)
  | SIncr (c i : string) (delta : Z)
  | SSetAdd (c i m : string)
  | SSetRemove (c i m : string)
  | SGet (c i : string)
  | SMget (c : string) (is_ : list string)
  | SScan (c : string) (after prefix end_ : option string) (limit : nat)
  | SScanBuckets (c : string) (bs : list nat) (after : option string) (limit : nat).
Arguments SPut {_} _ _ _. Arguments SPutAt {_} _ _ _ _. Arguments SBatch {_} _.
Arguments SDelete {_} _ _. Arguments SClear {_} _. Arguments SSweep {_}.
Arguments SCas {_} _ _ _ _. Arguments SIncr {_} _ _ _. Arguments SSetAdd {_} _ _ _.
Arguments SSetRemove {_} _ _ _. Arguments SGet {_} _ _. Arguments SMget {_} _ _.
Arguments SScan {_} _ _ _ _ _. Arguments SScanBuckets {_} _ _ _ _.

Inductive sres (V : Type) :=
  | ODone
  | OBool (b : bool)
  | OInt (z : option Z)
  | OVals (vs : list (option V))
  | OKeys (ks : list string).
Arguments ODone {_}. Arguments OBool {_} _. Arguments OInt {_} _. Arguments OVals {_} _.
Arguments OKeys {_} _.

Section run.
Context {V St : Type} `{!IndexStore V St, !JsonValue V}.

Definition run_sop (now : Z) (st : St) (o : sop V) : St * sres V :=
  match o with
  | SPut c i v => (put_object st c i v, ODone)
  | SPutAt c i v e => (put_object_at st c i v e, ODone)
  | SBatch items => (put_batch st items, ODone)
  | SDelete c i => (delete_object st c i, ODone)
  | SClear c => (clear_collection st c, ODone)
  | SSweep => ((sweep_expired st now).1, ODone)
  | SCas c i x v => let '(st', b) := cas now st c i x v in (st', OBool b)
  | SIncr c i d => let '(st', z) := incr now st c i d in (st', OInt z)
  | SSetAdd c i m => let '(st', b) := set_add now st c i m in (st', OBool b)
  | SSetRemove c i m => let '(st', b) := set_remove now st c i m in (st', OBool b)
  | SGet c i => (st, OVals [get_object now st c i])
  | SMget c is_ => (st, OVals (mget now st c is_))
  | SScan c a p e n => (st, OKeys (scan_range now st c a p e n))
  | SScanBuckets c bs a n => (st, OKeys (scan_buckets now st c bs a n))
  end.

Fixpoint run_sops (st : St) (os : list (Z * sop V)) : St * list (sres V) :=
  match os with
  | [] => (st, [])
  | (now, o) :: os' =>
      let '(st1, r) := run_sop now st o in
      let '(st2, rs) := run_sops st1 os' in (st2, r :: rs)
  end.

Context `{!IndexStoreLaws V St}.

(** What an operation writes can be held by the store; the key of a deletion is
    not empty. *)
Definition sop_ok (o : sop V) : Prop :=
  match o with
  | SPut c i v | SCas c i _ v => entry_ok c i v
  | SPutAt c i v e => entry_ok c i v ∧ is_u64 e
  | SBatch items => ∀ c i v, (c, i, v) ∈ items → entry_ok c i v
  | SIncr c i _ => ∀ z, is_i64 z → entry_ok c i (value_from_i64 z)
  | SSetAdd c i _ | SSetRemove c i _ => ∀ l, entry_ok c i (value_from_strings l)
  | SDelete _ i => i ≠ EmptyString
  | _ => True
  end.

Lemma run_sop_wf now st o : store_wf st → sop_ok o → store_wf (run_sop now st o).1.
Proof.
  intros Hwf Hok. destruct o; cbn [run_sop sop_ok fst] in *; try done.
  - by apply wf_put.
  - by apply wf_put_at; destruct Hok.
  - rewrite put_batch_fold by done. revert st Hwf. induction items as [|[[c i] v] items IH];
      intros st Hwf; [done|]. apply IH; [intros; apply Hok; by right|]. apply wf_put; [done|]. apply Hok. left.
  - by apply wf_delete.
  - by apply wf_clear.
  - by apply wf_sweep.
  - unfold cas. destruct (option_value_eqb _ _); [|done]. by apply wf_put.
  - unfold incr. destruct (match get_object now st c i with Some v => value_int v | None => _ end); [|done].
    apply wf_put; [done|]. apply Hok, i64_wrap_range.
  - unfold set_add. case_decide; [done|]. by apply wf_put.
  - unfold set_remove. destruct (_ =? _)%nat; [done|]. case_decide; [by apply wf_delete|by apply wf_put].
Qed.

End run.

(** ** Agreement *)

Section agree.
Context {V S1 S2 : Type} `{!JsonValue V}.
Context `{!IndexStore V S1, !IndexStoreLaws V S1, !IndexStore V S2, !IndexStoreLaws V S2}.

(** Same reads from time [from] on. *)
Definition agree (from : Z) (s1 : S1) (s2 : S2) : Prop :=
  ∀ now c i, from ≤ now → get_object now s1 c i = get_object now s2 c i.

Lemma agree_entries from now s1 s2 c :
  store_wf s1 → store_wf s2 → agree from s1 s2 → from ≤ now →
  scan_entries now s1 c ≡ₚ scan_entries now s2 c.
Proof.
  intros H1 H2 Ha Hn. apply NoDup_Permutation.
  - by eapply NoDup_fmap_1, entries_NoDup.
  - by eapply NoDup_fmap_1, entries_NoDup.
  - intros [k v]. rewrite !entries_get by done. by rewrite Ha.
Qed.

Lemma agree_scan from now s1 s2 c a p e n :
  store_wf s1 → store_wf s2 → agree from s1 s2 → from ≤ now →
  scan_range now s1 c a p e n = scan_range now s2 c a p e n.
Proof.
  intros H1 H2 Ha Hn. rewrite !range_default by done. unfold scan_range_default.
  rewrite (strict_sorted_ext (sort_strings (map fst (scan_entries now s1 c)))
    (sort_strings (map fst (scan_entries now s2 c)))); [done| | |].
  - by apply sort_strings_strict, entries_NoDup.
  - by apply sort_strings_strict, entries_NoDup.
  - intros k. rewrite !elem_of_sort_strings. by rewrite (agree_entries from now s1 s2 c).
Qed.

Lemma agree_scan_buckets from now s1 s2 c bs a n :
  store_wf s1 → store_wf s2 → agree from s1 s2 → from ≤ now →
  scan_buckets now s1 c bs a n = scan_buckets now s2 c bs a n.
Proof.
  intros H1 H2 Ha Hn. unfold scan_buckets.
  rewrite (Permutation_length (agree_entries from now s1 s2 c H1 H2 Ha Hn)). f_equal.
  generalize ([] : list string). revert a.
  induction (S _) as [|f IH]; intros a out; [done|]. cbn [scan_buckets_loop].
  rewrite (agree_scan from now s1 s2 c a None None SCAN_CHUNK H1 H2 Ha Hn).
  destruct (scan_range now s2 c a None None SCAN_CHUNK) as [|k ks]; [done|].
  destruct (take_wanted _ _ _ _); [|done]. destruct (_ =? _)%nat; [|done]. apply IH.
Qed.

Lemma agree_put from s1 s2 c i v :
  store_wf s1 → store_wf s2 → entry_ok (St := S1) c i v → entry_ok (St := S2) c i v →
  agree from s1 s2 → agree from (put_object s1 c i v) (put_object s2 c i v).
Proof. intros H1 H2 O1 O2 Ha now c' i' Hn. rewrite !get_put by done. by rewrite Ha. Qed.

Lemma agree_delete from s1 s2 c i :
  store_wf s1 → store_wf s2 → agree from s1 s2 →
  agree from (delete_object s1 c i) (delete_object s2 c i).
Proof. intros H1 H2 Ha now c' i' Hn. rewrite !get_delete by done. by rewrite Ha. Qed.

Lemma agree_batch from s1 s2 items :
  store_wf s1 → store_wf s2 →
  (∀ c i v, (c, i, v) ∈ items → entry_ok (St := S1) c i v ∧ entry_ok (St := S2) c i v) →
  agree from s1 s2 → agree from (put_batch s1 items) (put_batch s2 items).
Proof.
  intros H1 H2 Hok Ha. rewrite !put_batch_fold by (done || (intros; by apply Hok)).
  revert s1 s2 H1 H2 Ha. induction items as [|[[c i] v] items IH]; intros s1 s2 H1 H2 Ha; [done|].
  destruct (Hok c i v ltac:(left)) as [O1 O2]. apply IH.
  - intros. apply Hok. by right.
  - by apply wf_put.
  - by apply wf_put.
  - by apply agree_put.
Qed.

(** One operation, not a sweep: the same answer, and the same reads still. *)
Lemma agree_op from now s1 s2 o :
  store_wf s1 → store_wf s2 → sop_ok (St := S1) o → sop_ok (St := S2) o → o ≠ SSweep →
  agree from s1 s2 → from ≤ now →
  (run_sop now s1 o).2 = (run_sop now s2 o).2 ∧ agree from (run_sop now s1 o).1 (run_sop now s2 o).1.
Proof.
  intros H1 H2 O1 O2 Hns Ha Hn.
  assert (Hg : ∀ c i, get_object now s1 c i = get_object now s2 c i) by (intros; by apply Ha).
  destruct o; cbn [run_sop sop_ok fst snd] in *.
  - split; [done|]. by apply agree_put.
  - destruct O1 as [O1 He], O2 as [O2 _]. split; [done|]. intros n c' i' Hle.
    rewrite !get_put_at by done. by rewrite Ha.
  - split; [done|]. apply agree_batch; [done|done| |done]. intros. split; [by apply O1|by apply O2].
  - split; [done|]. by apply agree_delete.
  - split; [done|]. intros n c' i' Hle. rewrite !get_clear by done. by rewrite Ha.
  - done.
  - unfold cas. rewrite Hg. destruct (option_value_eqb _ _); [|done]. split; [done|]. by apply agree_put.
  - unfold incr. rewrite Hg. destruct (match get_object now s2 c i with Some v => _ | None => _ end);
      [|done]. split; [done|]. apply agree_put; try done; [apply O1|apply O2]; apply i64_wrap_range.
  - unfold set_add, set_members. rewrite Hg. case_decide; [done|]. split; [done|]. by apply agree_put.
  - unfold set_remove, set_members. rewrite Hg. destruct (_ =? _)%nat; [done|]. split; [done|].
    case_decide; [by apply agree_delete|by apply agree_put].
  - split; [by rewrite Hg|done].
  - split; [|done]. unfold mget. f_equal. apply map_ext. intros. apply Hg.
  - split; [|done]. f_equal. by eapply agree_scan.
  - split; [|done]. f_equal. by eapply agree_scan_buckets.
Qed.

(** A sweep on one side only does not show afterwards. *)
Lemma agree_sweep_l from now s1 s2 :
  store_wf s1 → agree from s1 s2 → from ≤ now → agree now (sweep_expired s1 now).1 s2.
Proof. intros H1 Ha Hn n c i Hle. rewrite get_sweep by done. apply Ha. lia. Qed.

Lemma agree_later from now s1 s2 : agree from s1 s2 → from ≤ now → agree now s1 s2.
Proof. intros Ha Hn n c i Hle. apply Ha. lia. Qed.

Lemma agree_step from now s1 s2 o :
  store_wf s1 → store_wf s2 → sop_ok (St := S1) o → sop_ok (St := S2) o →
  agree from s1 s2 → from ≤ now →
  (run_sop now s1 o).2 = (run_sop now s2 o).2 ∧ agree now (run_sop now s1 o).1 (run_sop now s2 o).1.
Proof.
  intros H1 H2 O1 O2 Ha Hn. assert (o = SSweep ∨ o ≠ SSweep)
    as [->|Hns] by (destruct o; (by left) || (by right)); cbn [run_sop fst snd].
  - split; [done|]. intros n c i Hle. rewrite !get_sweep by done. apply Ha. lia.
  - destruct (agree_op from now s1 s2 o) as [Hr Hs]; [done..|]. split; [done|]. by eapply agree_later.
Qed.

(** Times never go back. *)
Fixpoint clock_from (from : Z) (os : list (Z * sop V)) : Prop :=
  match os with
  | [] => True
  | (now, _) :: os' => from ≤ now ∧ clock_from now os'
  end.

Lemma agree_run from s1 s2 os :
  store_wf s1 → store_wf s2 → agree from s1 s2 → clock_from from os →
  (∀ now o, (now, o) ∈ os → sop_ok (St := S1) o ∧ sop_ok (St := S2) o) →
  (run_sops s1 os).2 = (run_sops s2 os).2.
Proof.
  revert from s1 s2. induction os as [|[now o] os IH]; intros from s1 s2 H1 H2 Ha Hc Hok; [done|].
  destruct Hc as [Hn Hc]. destruct (Hok now o ltac:(left)) as [O1 O2].
  destruct (agree_step from now s1 s2 o H1 H2 O1 O2 Ha Hn) as [Hr Ha'].
  pose proof (run_sop_wf now s1 o H1 O1) as W1. pose proof (run_sop_wf now s2 o H2 O2) as W2.
  cbn [run_sops]. destruct (run_sop now s1 o) as [s1' r1], (run_sop now s2 o) as [s2' r2].
  cbn [fst snd] in *. specialize (IH now s1' s2' W1 W2 Ha' Hc ltac:(intros; eapply Hok; by right)).
  destruct (run_sops s1' os), (run_sops s2' os). cbn in *. congruence.
Qed.

End agree.

(** The durable store answers like the in-memory one: from empty stores, any
    sequence of store operations (writes, batches, expiring writes, deletes,
    clears, sweeps, compare-and-set, increments, set operations, reads and
    scans) at non-decreasing times gets the same answers from both, as long as
    the durable store can hold what is written (names without NUL and within
    LMDB's key size, values that survive their JSON text). *)
Theorem lmdb_matches_memory {V D} `{!JsonValue V, !HashIter, !LmdbCodec V, !LmdbCodecLaws V,
    !KvDb D, !KvDbLaws D} from (os : list (Z * sop V)) :
  clock_from from os →
  (∀ now o, (now, o) ∈ os → sop_ok (St := Lmdb.t D) o) →
  (run_sops (Lmdb.open ∅ : Lmdb.t D) os).2 = (run_sops (MemoryStore.new : MemoryStore.t V) os).2.
Proof.
  intros Hc Hok. apply (agree_run from).
  - apply Lmdb.wf_open_empty.
  - apply MemoryStore.wf_new.
  - intros now c i _. done.
  - done.
  - intros now o Hin. pose proof (Hok now o Hin) as Ho. split; [done|].
    destruct o; cbn in *; try done. by destruct Ho.
Qed.

End StoreEquiv.
