(* ===== verification/Poison.v ===== *)
(** * Keys that LMDB refuses ([src/src/lmdb.rs], [src/src/net.rs])

    Every request reaches its shard through a lock.  A write of the durable store
    that LMDB refuses panics while it holds the lock, which poisons it: from then
    on every [lock.read().unwrap()] and [lock.write().unwrap()] panics too, and no
    request is answered.  The operations of [Lmdb] say what such a write leaves in
    the environment; this file says which ones panic, and what follows. *)

From S2P Require Import Prelude Machine Text Partitioner Store Kvdb Lmdb StoreEquiv.

Local Open Scope Z_scope.

Module Poison.
Import StoreEquiv.

Section poison.
Context {V D : Type} `{!LmdbCodec V, !KvDb D, !JsonValue V}.
Implicit Types (st : Lmdb.t D) (c i : string).

(** [db.put(..).expect("lmdb put")]. *)
Definition put_panics i : bool := negb (valid_key i).

(** [db.delete(..).expect("lmdb delete")]: LMDB has no empty key, and a key that
    is too long is not found. *)
Definition delete_panics st c i : bool :=
  bool_decide (is_Some (Lmdb.read_db st (Lmdb.obj_db c))) && String.eqb i EmptyString.

(** Does the operation panic?  One that writes nothing does not. *)
Definition panics (now : Z) st (o : sop V) : bool :=
  match o with
  | SPut _ i _ => put_panics i
  | SPutAt c i _ _ => put_panics i || negb (valid_key (Lmdb.exp_key c i))
  | SBatch items => negb (forallb (λ '(_, i, _), valid_key i) items)
  | SDelete c i => delete_panics st c i
  | SCas c i x _ => option_value_eqb (get_object now st c i) x && put_panics i
  | SIncr c i _ =>
      match match get_object now st c i with Some v => value_int v | None => Some 0 end with
      | Some _ => put_panics i
      | None => false
      end
  | SSetAdd c i m => negb (bool_decide (m ∈ set_members now st c i)) && put_panics i
  | SSetRemove c i m =>
      let members := filter (.≠ m) (set_members now st c i) in
      negb (length members =? length (set_members now st c i))%nat
      && (if bool_decide (members = []) then delete_panics st c i else put_panics i)
  | _ => false
  end.

(** The shard's lock, with the store behind it. *)
Inductive lock :=
  | Healthy (st : Lmdb.t D)
  | Poisoned (st : Lmdb.t D).

(** A request takes the lock and runs; its answer, if it gets one. *)
Definition attempt (now : Z) (l : lock) (o : sop V) : lock * option (sres V) :=
  match l with
  | Poisoned st => (Poisoned st, None)
  | Healthy st =>
      let '(st', r) := run_sop now st o in
      if panics now st o then (Poisoned st', None) else (Healthy st', Some r)
  end.

Fixpoint attempts (l : lock) (os : list (Z * sop V)) : lock * list (option (sres V)) :=
  match os with
  | [] => (l, [])
  | (now, o) :: os' =>
      let '(l1, r) := attempt now l o in
      let '(l2, rs) := attempts l1 os' in (l2, r :: rs)
  end.

Lemma poisoned_forever st os :
  attempts (Poisoned st) os = (Poisoned st, replicate (length os) None).
Proof. induction os as [|[now o] os IH]; [done|]. cbn. by rewrite IH. Qed.

(** One write under a key that LMDB refuses, from any client, and the shard is
    lost: neither the write nor any later request is answered, reads included,
    until the process is started again. *)
Theorem invalid_key_poisons now st c i v os :
  valid_key i = false →
  (attempts (Healthy st) ((now, SPut c i v) :: os)).2 = replicate (S (length os)) None.
Proof.
  intros Hi. cbn [attempts attempt run_sop panics]. unfold put_panics. rewrite Hi. cbn [negb].
  by rewrite poisoned_forever.
Qed.

Context `{!LmdbCodecLaws V, !KvDbLaws D}.

Lemma fits_valid c i (v : V) :
  Lmdb.entry_ok c i v → valid_key i = true ∧ valid_key (Lmdb.exp_key c i) = true.
Proof. by intros [(_ & _ & ? & ?)%Lmdb.names_ok_inv _]. Qed.

Lemma nonempty_valid i : valid_key i = true → String.eqb i EmptyString = false.
Proof. by destruct i. Qed.

(** Operations that fit LMDB do not panic ... *)
Lemma fitting_calm now st o : sop_ok (St := Lmdb.t D) o → panics now st o = false.
Proof.
  unfold sop_ok, panics, put_panics, delete_panics.
  destruct o as [c i v|c i v e|items|c i|c| |c i x v|c i d|c i m|c i m| | | |]; try done.
  - by intros [-> _]%fits_valid.
  - by intros [[-> ->]%fits_valid _].
  - intros Hok. apply negb_false_iff, forallb_forall. intros [[c i] v] Hin%list_elem_of_In.
    by destruct (fits_valid _ _ _ (Hok c i v Hin)).
  - intros Hi. apply andb_false_iff. right. by apply String.eqb_neq.
  - intros [-> _]%fits_valid. apply andb_false_r.
  - intros Hok. case_match; [|done]. by destruct (fits_valid _ _ _ (Hok 0 ltac:(done))) as [-> _].
  - intros Hok. destruct (fits_valid _ _ _ (Hok [])) as [-> _]. apply andb_false_r.
  - intros Hok. destruct (fits_valid _ _ _ (Hok [])) as [Hi _]. cbv zeta.
    rewrite (nonempty_valid i Hi), Hi, !andb_false_r. case_bool_decide; apply andb_false_r.
Qed.

(** ... so their answers are those of the store: the theorems about stores,
    shards and clusters on the durable store speak of requests that do get an
    answer. *)
Theorem fitting_answered st os :
  (∀ now o, (now, o) ∈ os → sop_ok (St := Lmdb.t D) o) →
  attempts (Healthy st) os = (Healthy (run_sops st os).1, map Some (run_sops st os).2).
Proof.
  revert st. induction os as [|[now o] os IH]; intros st Hok; [done|].
  cbn [attempts attempt run_sops]. rewrite fitting_calm by (apply (Hok now); left).
  destruct (run_sop now st o) as [st' r]. rewrite IH by (intros; eapply Hok; by right).
  by destruct (run_sops st' os).
Qed.

End poison.
End Poison.
