(* ===== verification/Backends.v ===== *)
(** * The storage backend does not show

    Two shards on different lawful stores whose reads agree stay in agreement,
    and answer alike, through every front end: the HTTP routes, the binary
    protocol and the Redis commands.  In particular a node on the durable store,
    with the daemon's background sweeper at work, cannot be told from an
    in-memory node that never sweeps. *)

From S2P Require Import Prelude Machine Text Wire Partitioner Store MemoryStore Lease Shard Proto.
From S2P Require Import Resp Replica Client Http Kvdb Lmdb StoreEquiv.

Local Open Scope Z_scope.

Module Backends.
Import StoreEquiv.

(** ** Shards *)

Section twin.
Context {V S1 S2 : Type} `{!JsonValue V, !LeaseCodec V}.
Context `{!IndexStore V S1, !IndexStoreLaws V S1, !IndexStore V S2, !IndexStoreLaws V S2}.
Implicit Types (sh : Shard.t S1) (th : Shard.t S2) (from now : Z) (c k : string).

(** Same reads from time [from] on. *)
Definition twin from sh th : Prop :=
  store_wf (Shard.store sh) ∧ store_wf (Shard.store th)
  ∧ agree from (Shard.store sh) (Shard.store th).

(** Same result, and still twins. *)
Definition same {R} from (x1 : Shard.t S1 * R) (x2 : Shard.t S2 * R) : Prop :=
  x1.2 = x2.2 ∧ twin from x1.1 x2.1.

(** Both stores can hold the value, any number, any list at this key. *)
Definition both_ok c k (v : V) : Prop := entry_ok (St := S1) c k v ∧ entry_ok (St := S2) c k v.
Definition both_numbers c k : Prop :=
  numbers_ok (V := V) (St := S1) c k ∧ numbers_ok (V := V) (St := S2) c k.
Definition both_lists c k : Prop :=
  lists_ok (V := V) (St := S1) c k ∧ lists_ok (V := V) (St := S2) c k.

Lemma twin_later from now sh th : twin from sh th → from ≤ now → twin now sh th.
Proof. intros (H1 & H2 & Ha) Hn. split; [done|]. split; [done|]. by eapply agree_later. Qed.

Lemma same_ret {R} from sh th (r : R) : twin from sh th → same from (sh, r) (th, r).
Proof. by split. Qed.

(** An operation of the store, as the shard runs it. *)
Lemma twin_op from now sh th (o : sop V) :
  twin from sh th → from ≤ now → o ≠ SSweep → sop_ok (St := S1) o → sop_ok (St := S2) o →
  (run_sop now (Shard.store sh) o).2 = (run_sop now (Shard.store th) o).2
  ∧ twin from (Shard.with_store sh (run_sop now (Shard.store sh) o).1)
      (Shard.with_store th (run_sop now (Shard.store th) o).1).
Proof.
  intros (H1 & H2 & Ha) Hn Hns O1 O2.
  destruct (agree_op from now _ _ o H1 H2 O1 O2 Hns Ha Hn) as [Hr Hs].
  split; [done|]. split; [by apply run_sop_wf|]. split; [by apply run_sop_wf|done].
Qed.

Section ops.
Context from now sh th (Ht : twin from sh th) (Hn : from ≤ now).

Lemma both_object c k : Shard.object (V := V) now sh c k = Shard.object now th c k.
Proof. destruct Ht as (_ & _ & Ha). by apply Ha. Qed.

Lemma both_mget c ks : Shard.mget (V := V) now sh c ks = Shard.mget now th c ks.
Proof. unfold Shard.mget, mget. apply map_ext. intros k. apply both_object. Qed.

Lemma both_scan_range c a p e n :
  Shard.scan_range (V := V) now sh c a p e n = Shard.scan_range (V := V) now th c a p e n.
Proof. destruct Ht as (H1 & H2 & Ha). by apply (agree_scan from). Qed.

Lemma both_scan_buckets c bs a n :
  Shard.scan_buckets (V := V) now sh c bs a n = Shard.scan_buckets (V := V) now th c bs a n.
Proof. destruct Ht as (H1 & H2 & Ha). by apply (agree_scan_buckets from). Qed.

Lemma both_entries c :
  scan_entries (V := V) now (Shard.store sh) c ≡ₚ scan_entries now (Shard.store th) c.
Proof. destruct Ht as (H1 & H2 & Ha). by apply (agree_entries from). Qed.

(** The order of an export depends on the store. *)
Lemma both_export c bs :
  Shard.export_entries (V := V) now sh c bs ≡ₚ Shard.export_entries now th c bs.
Proof. unfold Shard.export_entries. apply filter_Permutation, both_entries. Qed.

Lemma both_write c k v :
  both_ok c k v → twin from (Shard.write_object sh c k v) (Shard.write_object th c k v).
Proof. intros [O1 O2]. by apply (twin_op from now sh th (SPut c k v)). Qed.

Lemma both_write_ttl c k v t :
  both_ok c k v → twin from (Shard.write_object_ttl now sh c k v t) (Shard.write_object_ttl now th c k v t).
Proof.
  intros [O1 O2]. unfold Shard.write_object_ttl. destruct (t =? 0).
  - by apply (twin_op from now sh th (SPut c k v)).
  - apply (twin_op from now sh th (SPutAt c k v (u64_add now t))); try done;
      (split; [done|apply u64_add_range]).
Qed.

Lemma both_delete c k : twin from (Shard.delete_object (V := V) sh c k) (Shard.delete_object (V := V) th c k).
Proof.
  destruct Ht as (H1 & H2 & Ha). split; [by apply wf_delete|]. split; [by apply wf_delete|].
  by apply agree_delete.
Qed.

Lemma both_batch (items : list (string * string * V)) :
  (∀ c k v, (c, k, v) ∈ items → both_ok c k v) →
  twin from (Shard.write_batch sh items) (Shard.write_batch th items).
Proof.
  intros Hok. apply (twin_op from now sh th (SBatch items)); try done;
    intros c k v Hin; by apply (Hok c k v Hin).
Qed.

(** Results of the operations that answer. *)
Ltac by_op o :=
  let H := fresh in
  pose proof (twin_op from now sh th o Ht Hn ltac:(done)) as H; cbn [run_sop sop_ok] in H;
  unfold same, Shard.update.

Lemma both_set_add c k m :
  both_lists c k → same from (Shard.set_add (V := V) now sh c k m) (Shard.set_add (V := V) now th c k m).
Proof.
  intros [O1 O2]. by_op (SSetAdd (V := V) c k m). unfold Shard.set_add, Shard.update.
  destruct (set_add now (Shard.store sh) c k m), (set_add now (Shard.store th) c k m).
  destruct H as [Hr Htw]; [intros; apply O1|intros; apply O2|]. cbn in *. split; [congruence|done].
Qed.

Lemma both_set_remove c k m :
  both_lists c k → same from (Shard.set_remove (V := V) now sh c k m) (Shard.set_remove (V := V) now th c k m).
Proof.
  intros [O1 O2]. by_op (SSetRemove (V := V) c k m). unfold Shard.set_remove, Shard.update.
  destruct (set_remove now (Shard.store sh) c k m), (set_remove now (Shard.store th) c k m).
  destruct H as [Hr Htw]; [intros; apply O1|intros; apply O2|]. cbn in *. split; [congruence|done].
Qed.

Lemma both_cas c k e v :
  both_ok c k v → same from (Shard.cas (V := V) now sh c k e v) (Shard.cas now th c k e v).
Proof.
  intros [O1 O2]. by_op (SCas c k e v). unfold Shard.cas, Shard.update.
  destruct (cas now (Shard.store sh) c k e v), (cas now (Shard.store th) c k e v).
  destruct H as [Hr Htw]; [apply O1|apply O2|]. cbn in *. split; [congruence|done].
Qed.

Lemma both_incr c k d :
  both_numbers c k → same from (Shard.incr (V := V) now sh c k d) (Shard.incr (V := V) now th c k d).
Proof.
  intros [O1 O2]. by_op (SIncr (V := V) c k d). unfold Shard.incr, Shard.update.
  destruct (incr now (Shard.store sh) c k d), (incr now (Shard.store th) c k d).
  destruct H as [Hr Htw]; [apply O1|apply O2|]. cbn in *. split; [congruence|done].
Qed.

Lemma both_lease k w t :
  (∀ l, both_ok Lease.LEASE_COLL k (value_from_lease l)) →
  same from (Shard.lease_acquire now sh k w t) (Shard.lease_acquire now th k w t).
Proof.
  intros Hk. unfold Shard.lease_acquire. fold (Shard.object now sh Lease.LEASE_COLL k).
  fold (Shard.object now th Lease.LEASE_COLL k). rewrite both_object. split; [done|]. cbn [fst].
  case_match; [by apply both_write|done].
Qed.

(** Twins by their stores: import and drop, from their specifications. *)
Lemma both_import c (es : list (string * V)) :
  (∀ k v, (k, v) ∈ es → both_ok c k v) →
  twin from (Shard.import_entries sh c es) (Shard.import_entries th c es).
Proof.
  intros Hok. destruct Ht as (H1 & H2 & Ha).
  destruct (Shard.import_entries_spec sh c es H1) as [W1 G1]; [intros k v Hin; by apply (Hok k v Hin)|].
  destruct (Shard.import_entries_spec th c es H2) as [W2 G2]; [intros k v Hin; by apply (Hok k v Hin)|].
  split; [done|]. split; [done|]. intros n c' k Hle. specialize (G1 c' k). specialize (G2 c' k).
  unfold Shard.object in *. destruct (if decide (c' = c) then _ else None) as [v|].
  - destruct G1 as [_ ->], G2 as [_ ->]. done.
  - destruct G1 as [_ ->], G2 as [_ ->]. by apply Ha.
Qed.

Lemma both_drop c bs :
  same from (Shard.drop_buckets (V := V) now sh c bs) (Shard.drop_buckets (V := V) now th c bs).
Proof.
  rewrite !Shard.drop_buckets_delete_all. split; cbn [fst snd].
  { by rewrite (Permutation_length (both_export c bs)). }
  destruct Ht as (H1 & H2 & Ha).
  destruct (Shard.delete_all_spec sh c (map fst (Shard.export_entries now sh c bs)) H1) as [W1 G1].
  destruct (Shard.delete_all_spec th c (map fst (Shard.export_entries now th c bs)) H2) as [W2 G2].
  split; [done|]. split; [done|]. intros n c' k Hle. specialize (G1 c' k). specialize (G2 c' k).
  assert (k ∈ map fst (Shard.export_entries (V := V) now sh c bs)
          ↔ k ∈ map fst (Shard.export_entries (V := V) now th c bs)) as Hm
    by by rewrite (both_export c bs).
  unfold Shard.object in *. destruct (decide (c' = c ∧ k ∈ map fst (Shard.export_entries now sh c bs))).
  - rewrite decide_True in G2 by tauto. destruct G1 as [_ ->], G2 as [_ ->]. done.
  - rewrite decide_False in G2 by tauto. destruct G1 as [_ ->], G2 as [_ ->]. by apply Ha.
Qed.

End ops.
End twin.

(** ** The HTTP routes *)

Section http.
Context {V S1 S2 : Type} `{!JsonValue V, !LeaseCodec V, !WireJson V, !JsonEnvelope V}.
Context `{!IndexStore V S1, !IndexStoreLaws V S1, !IndexStore V S2, !IndexStoreLaws V S2}.
Implicit Types (sh : Shard.t S1) (th : Shard.t S2) (from now : Z).

(** Equal responses, or two exports with the same entries in some order. *)
Definition alike (r r' : Http.response V) : Prop :=
  r = r' ∨ ∃ e f, e ≡ₚ f
    ∧ r = Http.json [("entries", Http.enc_vec Http.enc_pair e)]
    ∧ r' = Http.json [("entries", Http.enc_vec Http.enc_pair f)].

Definition served from (x : Shard.t S1 * Http.response V) (y : Shard.t S2 * Http.response V) : Prop :=
  alike x.2 y.2 ∧ twin (V := V) from x.1 y.1.

(** The keys a request names are fit for the store. *)
Definition names_ok (St : Type) `{!IndexStore V St, !IndexStoreLaws V St} (r : Http.request bytes) : Prop :=
  match r with
  | Http.GetReq _ _ => True
  | Http.PostReq p b => Http.keys_ok (V := V) (St := St) p b
  end.

Lemma served_refl from sh th r : twin (V := V) from sh th → served from (sh, r) (th, r).
Proof. split; [by left|done]. Qed.

Lemma both_served {R} from (x : Shard.t S1 * R) (y : Shard.t S2 * R) (f : R → Http.response V) :
  same (V := V) from x y →
  served from (let '(sh, r) := x in (sh, f r)) (let '(th, r) := y in (th, f r)).
Proof. destruct x, y. intros [Hr Ht]. cbn in *. subst. by apply served_refl. Qed.

Lemma served_query {A} from now sh th (q : option A) h h' :
  twin (V := V) from sh th → (∀ a, served from (h a now sh) (h' a now th)) →
  served from (Http.with_query q h now sh) (Http.with_query q h' now th).
Proof. intros Ht Hh. destruct q; [apply Hh|by apply served_refl]. Qed.

Lemma served_json {A} from now sh th limit b (dec : V → option A) h h' :
  twin (V := V) from sh th →
  (∀ v a, value_from_slice b = Some v → dec v = Some a → served from (h a now sh) (h' a now th)) →
  served from (Http.with_json limit b dec h now sh) (Http.with_json limit b dec h' now th).
Proof.
  intros Ht Hh. unfold Http.with_json. destruct (limit <? _); [by apply served_refl|].
  destruct (value_from_slice b) as [v|] eqn:Hv; [|by apply served_refl].
  destruct (dec v) as [a|] eqn:Ha; [|by apply served_refl]. by eapply Hh.
Qed.

Lemma post_ok p b v c k :
  names_ok S1 (Http.PostReq p b) → names_ok S2 (Http.PostReq p b) → value_from_slice b = Some v →
  Http.acts_on p v = Some c → k ∈ Http.body_keys v →
  both_numbers (V := V) (S1 := S1) (S2 := S2) c k ∧ both_lists (V := V) (S1 := S1) (S2 := S2) c k
  ∧ (∀ l, both_ok (V := V) (S1 := S1) (S2 := S2) c k (value_from_lease l))
  ∧ ∀ x, x ∈ Http.body_values v → both_ok (V := V) (S1 := S1) (S2 := S2) c k x.
Proof.
  intros N1 N2 Hv Hc Hk. destruct (N1 v c k Hv Hc Hk) as (A1 & A2 & A3 & A4).
  destruct (N2 v c k Hv Hc Hk) as (B1 & B2 & B3 & B4). unfold both_numbers, both_lists, both_ok. auto 6.
Qed.

Lemma get_twin from now sh th limit p q :
  twin (V := V) from sh th → from ≤ now →
  served from (Http.app limit (Http.GetReq p q) now sh) (Http.app limit (Http.GetReq p q) now th).
Proof.
  intros Ht Hn. unfold Http.app.
  repeat (destruct (String.eqb p _)); try (by apply served_refl); apply served_query; try done; intros a.
  - unfold Http.object. rewrite (both_object from now sh th) by done. by apply served_refl.
  - unfold Http.scan. rewrite (both_scan_range from now sh th) by done. by apply served_refl.
Qed.

(** The routes that only read. *)
Lemma read_twin from now sh th :
  twin (V := V) from sh th → from ≤ now →
  (∀ b, served from (Http.mget b now sh) (Http.mget b now th))
  ∧ (∀ b, served from (Http.scan_buckets b now sh) (Http.scan_buckets b now th))
  ∧ (∀ b, served from (Http.export b now sh) (Http.export b now th)).
Proof.
  intros Ht Hn. split; [|split]; intros b.
  - unfold Http.mget. rewrite (both_mget from now sh th) by done. by apply served_refl.
  - unfold Http.scan_buckets. rewrite (both_scan_buckets from now sh th) by done. by apply served_refl.
  - split; [|done]. right. do 2 eexists. split; [|done]. by apply (both_export from).
Qed.

Lemma write_twin from now sh th (b : Http.WriteBody V) :
  twin (V := V) from sh th → from ≤ now → both_ok (V := V) (S1 := S1) (S2 := S2) (Http.wr_coll b) (Http.wr_key b) (Http.wr_obj b) →
  served from (Http.write b now sh) (Http.write b now th).
Proof.
  intros Ht Hn Hk. split; [by left|]. unfold Http.write. cbn [fst].
  destruct (Http.wr_ttl b) as [t|]; [|by apply (both_write from now)].
  destruct (0 <? t); [by apply (both_write_ttl from now)|by apply (both_write from now)].
Qed.

Ltac route p :=
  match goal with |- context [String.eqb p ?x] => destruct (String.eqb_spec p x) as [->|_] end;
  [apply served_json; [done|]; intros v a Hv Ha|].

(** The fields the decoder has read name the key, and the value to write. *)
Ltac named v Hok Ha :=
  Http.decoded_as Ha; eapply (Hok v); [done|done|by apply Http.body_key|..];
  try (apply Http.body_obj; by eauto).

Lemma post_twin from now sh th limit p b :
  twin (V := V) from sh th → from ≤ now →
  names_ok S1 (Http.PostReq p b) → names_ok S2 (Http.PostReq p b) →
  served from (Http.app limit (Http.PostReq p b) now sh) (Http.app limit (Http.PostReq p b) now th).
Proof.
  intros Ht Hn N1 N2. pose proof (λ v c k, post_ok p b v c k N1 N2) as Hok. clear N1 N2.
  destruct (read_twin from now sh th Ht Hn) as (Rm & Rs & Re). unfold Http.app.
  route p; [apply Rm|]. route p; [apply Rs|].
  route p; [apply both_served, (both_set_add from now); try done; named v Hok Ha|].
  route p; [apply both_served, (both_set_remove from now); try done; named v Hok Ha|].
  route p; [apply write_twin; try done; named v Hok Ha|].
  route p; [apply both_served, (both_cas from now); try done; named v Hok Ha|].
  route p; [apply both_served, (both_incr from now); try done; named v Hok Ha|].
  route p; [split; [by left|]; by apply (both_delete from)|].
  route p; [apply Re|].
  route p.
  { split; [by left|]. apply (both_import from); try done. intros k x Hin.
    pose proof (Http.body_entry v a k x Ha Hin) as [Hk Hx]. Http.decoded_as Ha. by apply (Hok v). }
  route p; [apply both_served; by apply (both_drop from now)|].
  route p; [|by apply served_refl].
  apply both_served, (both_lease from now); try done. named v Hok Ha.
Qed.

Lemma http_twin from now sh th limit r :
  twin (V := V) from sh th → from ≤ now → names_ok S1 r → names_ok S2 r →
  served from (Http.app limit r now sh) (Http.app limit r now th).
Proof. destruct r; intros; [by apply get_twin|by apply post_twin]. Qed.

End http.

(** ** The binary protocol and the Redis commands *)

Section wire.
Context {V S1 S2 : Type} `{!JsonValue V, !LeaseCodec V, !WireJson V}.
Context `{!IndexStore V S1, !IndexStoreLaws V S1, !IndexStore V S2, !IndexStoreLaws V S2}.
Implicit Types (sh : Shard.t S1) (th : Shard.t S2) (from now : Z) (clk : nat → Z) (args : list bytes).

Abbreviation twins := (twin (V := V) (S1 := S1) (S2 := S2)).
Abbreviation equal := (same (V := V) (S1 := S1) (S2 := S2)).

Lemma equal_map {R T} from (x : Shard.t S1 * R) (y : Shard.t S2 * R) (f : R → T) :
  equal from x y → equal from (let '(sh, r) := x in (sh, f r)) (let '(th, r) := y in (th, f r)).
Proof. destruct x, y. intros [Hr Ht]. cbn in *. subst. by split. Qed.

Lemma proto_twin from now sh th token q :
  twins from sh th → from ≤ now → Proto.storable (St := S1) q → Proto.storable (St := S2) q →
  equal from (Proto.execute token now sh q) (Proto.execute token now th q).
Proof.
  intros Ht Hn O1 O2. destruct q as [p|c k|c k v|c k m|c k m|c k|]; cbn [Proto.execute Proto.storable] in *;
    try (by apply same_ret).
  - rewrite (both_object from now sh th) by done. by apply same_ret.
  - split; [done|]. apply (both_batch from now); [done|done|].
    intros ??? [= -> -> ->]%list_elem_of_singleton. done.
  - by apply equal_map, (both_set_add from now).
  - by apply equal_map, (both_set_remove from now).
  - split; [done|]. by apply (both_delete from).
Qed.

Lemma del_twin from clk keys : (∀ i, from ≤ clk i) → ∀ i sh th n, twins from sh th →
  equal from (Resp.del_loop (V := V) clk i sh keys n) (Resp.del_loop (V := V) clk i th keys n).
Proof.
  intros Hc. induction keys as [|k keys IH]; intros i sh th n Ht; [by split|]. cbn [Resp.del_loop].
  rewrite (both_object from (clk i) sh th) by done. case_match; apply IH; [|done].
  by apply (both_delete from).
Qed.

Lemma exists_twin from clk keys : (∀ i, from ≤ clk i) → ∀ i sh th, twins from sh th →
  Resp.exists_loop (V := V) clk i sh keys = Resp.exists_loop (V := V) clk i th keys.
Proof.
  intros Hc. induction keys as [|k keys IH]; intros i sh th Ht; [done|]. cbn [Resp.exists_loop].
  rewrite (both_object from (clk i) sh th) by done. f_equal. by apply IH.
Qed.

Lemma member_twin from clk key ms op op' :
  (∀ now sh th m, twins from sh th → from ≤ now →
     equal from (op now sh Resp.COLL key m) (op' now th Resp.COLL key m)) →
  (∀ i, from ≤ clk i) → ∀ i sh th n, twins from sh th →
  equal from (Resp.member_loop op clk i sh key ms n) (Resp.member_loop op' clk i th key ms n).
Proof.
  intros Ho Hc. induction ms as [|m ms IH]; intros i sh th n Ht; [by split|]. cbn [Resp.member_loop].
  destruct (Ho (clk i) sh th (Resp.s m) Ht (Hc i)) as [Hr Ht'].
  destruct (op _ _ _ _ _), (op' _ _ _ _ _). cbn in *. subst. by apply IH.
Qed.

Lemma scan_usize_twin from now sh th a p e n :
  twins from sh th → from ≤ now →
  Resp.scan_usize (V := V) now sh a p e n = Resp.scan_usize (V := V) now th a p e n.
Proof.
  intros Ht Hn. unfold Resp.scan_usize. rewrite (both_scan_range from now sh th) by done.
  by rewrite (Permutation_length (both_entries from now sh th Ht Hn Resp.COLL)).
Qed.

(** A command that writes names its key first; what it writes fits the store.
    A command that does not write, or is refused for its arity, may name
    anything. *)
Definition command_fits (St : Type) `{!IndexStore V St, !IndexStoreLaws V St} (cmd : string) args : Prop :=
  let cmd_is := String.eqb cmd in
  let n := length args in
  let k := Resp.s (nth 1 args []) in
  (cmd_is "SET" && (3 <=? n)%nat || cmd_is "GETSET" && (n =? 3)%nat = true →
     entry_ok (V := V) (St := St) Resp.COLL k (value_from_str (Resp.s (nth 2 args []))))
  ∧ ((cmd_is "INCR" || cmd_is "DECR") && (n =? 2)%nat
     || (cmd_is "INCRBY" || cmd_is "DECRBY") && (n =? 3)%nat = true →
     numbers_ok (V := V) (St := St) Resp.COLL k)
  ∧ ((cmd_is "SADD" || cmd_is "SREM") && (3 <=? n)%nat = true → lists_ok (V := V) (St := St) Resp.COLL k).

(** The branch taken meets the premise. *)
Ltac guarded A :=
  apply A; try (match goal with E : _ && _ = true |- _ => apply andb_true_iff in E as [-> ->] end);
  by rewrite ?orb_true_r.

Lemma exec_twin from clk sh th cmd args :
  twins from sh th → (∀ i, from ≤ clk i) → command_fits S1 cmd args → command_fits S2 cmd args →
  equal from (Resp.exec_command clk sh cmd args) (Resp.exec_command clk th cmd args).
Proof.
  intros Ht Hc (A1 & A2 & A3) (B1 & B2 & B3). pose proof (Hc 0%nat) as H0.
  assert (Ho : ∀ k, Shard.object (clk 0%nat) sh Resp.COLL k = Shard.object (clk 0%nat) th Resp.COLL k)
    by (intros; by apply (both_object from)).
  assert (Hi : ∀ d, both_numbers (V := V) (S1 := S1) (S2 := S2) Resp.COLL (Resp.s (nth 1 args [])) → equal from (Resp.incr_reply (Shard.incr (V := V) (clk 0%nat) sh Resp.COLL (Resp.s (nth 1 args [])) d))
                      (Resp.incr_reply (Shard.incr (V := V) (clk 0%nat) th Resp.COLL (Resp.s (nth 1 args [])) d))).
  { intros d Hk. destruct (both_incr from (clk 0%nat) sh th Ht H0 _ _ d Hk) as [Hr Ht'].
    unfold Resp.incr_reply. split; cbn [fst snd]; [by rewrite Hr|done]. }
  unfold Resp.exec_command, Resp.set_members, Resp.scan_page.
  rewrite !Ho, !(exists_twin from clk _ Hc 0 sh th Ht).
  repeat (match goal with |- equal _ (if ?b then _ else _) _ => let E := fresh "E" in destruct b eqn:E end;
    [try (by apply same_ret)|]).
  - rewrite (scan_usize_twin from (clk 0%nat) sh th) by done. by apply same_ret.
  - split; [done|]. cbn [fst].
    assert (both_ok (V := V) (S1 := S1) (S2 := S2) Resp.COLL (Resp.s (nth 1 args []))
      (value_from_str (Resp.s (nth 2 args [])))) by (split; [guarded A1|guarded B1]).
    case_match; [by apply (both_write_ttl from)|by apply (both_write from (clk 0%nat))].
  - split; [done|]. apply (both_write from (clk 0%nat)); [done|done|]. split; [guarded A1|guarded B1].
  - by apply equal_map, del_twin.
  - apply Hi. split; [guarded A2|guarded B2].
  - case_match; [|by apply same_ret]. apply Hi. split; [guarded A2|guarded B2].
  - apply equal_map, member_twin; [|done|done]. intros. apply (both_set_add from); [done|done|].
    split; [guarded A3|guarded B3].
  - apply equal_map, member_twin; [|done|done]. intros. apply (both_set_remove from); [done|done|].
    split; [guarded A3|guarded B3].
  - destruct (Resp.scan_opts _ _ _) as [n p]. cbv zeta.
    rewrite (scan_usize_twin from (clk 0%nat) sh th) by done. by apply same_ret.
  - by apply same_ret.
Qed.

(** A round of a Redis connection: the same reply, the same flags. *)
Lemma resp_twin from clk sh th token authed args :
  twins from sh th → (∀ i, from ≤ clk i) →
  command_fits S1 (Resp.to_upper (Resp.s (nth 0 args []))) args →
  command_fits S2 (Resp.to_upper (Resp.s (nth 0 args []))) args →
  let '(sh', a, out, go) := Resp.run_command token clk sh authed args in
  let '(th', a', out', go') := Resp.run_command token clk th authed args in
  (a, out, go) = (a', out', go') ∧ twins from sh' th'.
Proof.
  intros Ht Hc O1 O2. unfold Resp.run_command.
  set (cmd := Resp.to_upper (Resp.s (nth 0 args []))).
  destruct (negb authed && negb (Resp.open_command cmd)); [done|].
  destruct (String.eqb cmd "AUTH"); [destruct token as [t|]; [destruct (Resp.password_ok t args)|]; done|].
  destruct (String.eqb cmd "QUIT"); [done|].
  destruct (exec_twin from clk sh th cmd args Ht Hc O1 O2) as [Hr Ht'].
  destruct (Resp.exec_command _ sh _ _), (Resp.exec_command _ th _ _). cbn in *. by subst.
Qed.

End wire.

(** ** A node *)

(** What happens to a node, in the order its lock serializes it: requests of
    the three front ends, with the clock readings their handlers take, and
    passes of the background sweeper. *)
Section node.
Context {V : Type} `{!JsonValue V, !LeaseCodec V, !WireJson V, !JsonEnvelope V}.

Inductive event :=
  | EHttp (now : Z) (r : Http.request bytes)
  | EBin (now : Z) (q : Proto.request V)
  | EResp (clk : nat → Z) (authed : bool) (args : list bytes)
  | ESweep (now : Z).

Inductive output :=
  | OHttp (r : Http.response V)
  | OBin (b : bytes)
  | OResp (authed : bool) (b : bytes) (go : bool).

(** The node's settings: the body limit and the token of the stream protocols. *)
Context (limit : Z) (token : option string).

Definition on_event {St} `{!IndexStore V St} (sh : Shard.t St) (e : event) : Shard.t St * list output :=
  match e with
  | EHttp now r => let '(sh', a) := Http.app limit r now sh in (sh', [OHttp a])
  | EBin now q => let '(sh', b) := Proto.execute token now sh q in (sh', [OBin b])
  | EResp clk authed args =>
      let '(sh', a, b, go) := Resp.run_command token clk sh authed args in (sh', [OResp a b go])
  | ESweep now => ((Shard.sweep_expired now sh).1, [])
  end.

Fixpoint run_node {St} `{!IndexStore V St} (sh : Shard.t St) (es : list event) : Shard.t St * list output :=
  match es with
  | [] => (sh, [])
  | e :: es' =>
      let '(sh1, o) := on_event sh e in
      let '(sh2, os) := run_node sh1 es' in (sh2, o ++ os)
  end.

Definition is_sweep (e : event) : bool := match e with ESweep _ => true | _ => false end.
Definition without_sweeps (es : list event) : list event := filter (λ e, is_sweep e = false) es.

(** No reading is earlier than the last sweep's. *)
Fixpoint timed (from : Z) (es : list event) : Prop :=
  match es with
  | [] => True
  | EHttp now _ :: es' | EBin now _ :: es' => from ≤ now ∧ timed from es'
  | EResp clk _ _ :: es' => (∀ i, from ≤ clk i) ∧ timed from es'
  | ESweep now :: es' => from ≤ now ∧ timed now es'
  end.

(** What the event writes can be held by the store, and it deletes no empty key. *)
Definition event_ok (St : Type) `{!IndexStore V St, !IndexStoreLaws V St} (e : event) : Prop :=
  match e with
  | EHttp _ r => names_ok St r
  | EBin _ q =>
      Proto.storable (St := St) q
      ∧ match q with Proto.Del _ k => k ≠ EmptyString | _ => True end
  | EResp _ _ args => command_fits (V := V) St (Resp.to_upper (Resp.s (nth 0 args []))) args
  | ESweep _ => True
  end.

(** The same output, up to the order of an export. *)
Definition output_alike (o o' : output) : Prop :=
  match o, o' with
  | OHttp r, OHttp r' => alike r r'
  | _, _ => o = o'
  end.

Section two.
Context {S1 S2 : Type}.
Context `{!IndexStore V S1, !IndexStoreLaws V S1, !IndexStore V S2, !IndexStoreLaws V S2}.

Lemma event_twin from (sh : Shard.t S1) (th : Shard.t S2) e es :
  twin (V := V) from sh th → is_sweep e = false → timed from (e :: es) → event_ok S1 e → event_ok S2 e →
  Forall2 output_alike (on_event sh e).2 (on_event th e).2
  ∧ twin (V := V) from (on_event sh e).1 (on_event th e).1 ∧ timed from es.
Proof.
  intros Ht He Hc O1 O2. destruct e as [now r|now q|clk authed args|now]; cbn in Hc, He; try done;
    destruct Hc as [Hn Hc]; cbn [on_event].
  - destruct (http_twin from now sh th limit r Ht Hn O1 O2) as [Hr Ht'].
    destruct (Http.app _ _ _ sh), (Http.app _ _ _ th). cbn in *.
    split; [by apply Forall2_cons|done].
  - destruct (proto_twin from now sh th token q Ht Hn (proj1 O1) (proj1 O2)) as [Hr Ht'].
    destruct (Proto.execute _ _ sh _), (Proto.execute _ _ th _). cbn in *. subst.
    split; [by apply Forall2_cons|done].
  - pose proof (resp_twin from clk sh th token authed args Ht Hn O1 O2) as Hr.
    destruct (Resp.run_command _ _ sh _ _) as [[[??]?]?], (Resp.run_command _ _ th _ _) as [[[??]?]?].
    destruct Hr as [[= -> -> ->] Ht']. split; [by apply Forall2_cons|done].
Qed.

Lemma node_twin es : ∀ from (sh : Shard.t S1) (th : Shard.t S2),
  twin (V := V) from sh th → timed from es → Forall (event_ok S1) es → Forall (event_ok S2) es →
  Forall2 output_alike (run_node sh es).2 (run_node th (without_sweeps es)).2.
Proof.
  induction es as [|e es IH]; intros from sh th Ht Hc O1 O2; [constructor|].
  apply Forall_cons in O1 as [O1 Os1], O2 as [O2 Os2]. unfold without_sweeps. rewrite filter_cons.
  destruct (decide (is_sweep e = false)) as [He|He].
  - destruct (event_twin from sh th e es Ht He Hc O1 O2) as (Ho & Ht' & Hc'). cbn [run_node].
    destruct (on_event sh e) as [sh1 o], (on_event th e) as [th1 o']. cbn [fst snd] in *.
    specialize (IH from sh1 th1 Ht' Hc' Os1 Os2). unfold without_sweeps in IH.
    destruct (run_node sh1 es), (run_node th1 _). cbn [snd] in *. by apply Forall2_app.
  - destruct e as [| | |now]; try done. destruct Hc as [Hn Hc], Ht as (H1 & H2 & Ha).
    specialize (IH now (Shard.sweep_expired now sh).1 th).
    cbn [run_node on_event]. destruct (run_node (Shard.sweep_expired now sh).1 es). cbn [app snd] in *.
    apply IH; try done. split; [by apply wf_sweep|]. split; [done|]. by apply (agree_sweep_l from).
Qed.

End two.
End node.


End Backends.
