(* ===== verification/Durability.v ===== *)
(** * What the disk holds ([src/src/lmdb.rs])

    The environment of the durable store runs without a sync at each commit: a
    commit is visible at once, and reaches the disk at the next forced sync,
    which comes every [SYNC_EVERY] counted writes, before a snapshot and on
    drop.  A sync may fail, and the store ignores that.  This file adds the disk
    to the store of [Lmdb]: the environment at the last sync that succeeded and
    those committed since, any of which a crash may leave.  Then the backup: a
    snapshot, its inspection and its restore. *)

From S2P Require Import Prelude Machine Text Wire Partitioner Store Lease Shard Http Kvdb Lmdb StoreEquiv.

Local Open Scope Z_scope.

(** Whether the [n]-th sync attempted by the process succeeds. *)
Class SyncEnv := sync_ok : nat → bool.

Module Durability.
Import StoreEquiv.

Definition SYNC_EVERY : Z := 2048.

Section disk.
Context {V D : Type} `{!LmdbCodec V, !KvDb D, !SyncEnv}.

(** [live] is what every reader of the process sees; [synced] what the last
    successful sync left on disk, [since] the environments committed after it,
    the latest first; [syncs] counts the attempts. *)
Record t := mk {
  live : Lmdb.t D;
  writes : Z;
  synced : gmap string D;
  since : list (gmap string D);
  syncs : nat;
}.

Implicit Types (d : t) (coll id : string) (now : Z).

Definition open (e : gmap string D) : t := mk (Lmdb.open e) 0 e [] 0.

(** A committed transaction. *)
Definition txn d (f : Lmdb.t D → Lmdb.t D) : t :=
  mk (f (live d)) (writes d) (synced d) (Lmdb.env (f (live d)) :: since d)
    (syncs d).

(** The sync, and whether it succeeded: a failed one leaves the disk at risk. *)
Definition force_sync d : t * bool :=
  if sync_ok (syncs d)
  then (mk (live d) (writes d) (Lmdb.env (live d)) [] (S (syncs d)), true)
  else (mk (live d) (writes d) (synced d) (since d) (S (syncs d)), false).

Definition maybe_sync d : t :=
  let d' := mk (live d) (u64_add (writes d) 1) (synced d) (since d) (syncs d) in
  if writes d mod SYNC_EVERY =? SYNC_EVERY - 1 then let '(d'', _) := force_sync d' in d'' else d'.

(** The handle of a named database, created in a transaction of its own. *)
Definition db d (name : string) : t := txn d (λ st, Lmdb.db st name).

Definition put_str d (name key val : string) : t :=
  let d := db d name in
  if valid_key key
  then maybe_sync (txn d (λ st, Lmdb.commit st name (λ x, db_put x key val))) else d.

Definition clear_expiry d coll id : t :=
  txn (db d Lmdb.EXP_DB) (λ st, Lmdb.commit st Lmdb.EXP_DB (Lmdb.del (Lmdb.exp_key coll id))).

Definition put_object d coll id (obj : V) : t :=
  let d := put_str d (Lmdb.obj_db coll) id (value_to_string obj) in
  if valid_key id && Lmdb.has_any_ttl (live d) then clear_expiry d coll id else d.

Definition put_batch d (items : list (string * string * V)) : t :=
  match items with
  | [] => d
  | _ =>
      let d := foldl (λ d '(coll, _, _), db d (Lmdb.obj_db coll)) d items in
      let ttl := Lmdb.has_any_ttl (live d) in
      let d := if ttl then db d Lmdb.EXP_DB else d in
      if forallb (λ '(_, id, _), valid_key id) items
      then maybe_sync (txn d (λ st, foldl (Lmdb.put_item ttl) st items)) else d
  end.

Definition clear_collection d coll : t :=
  match Lmdb.read_db (live d) (Lmdb.obj_db coll) with
  | None => d
  | Some _ => maybe_sync (txn d (λ st, Lmdb.commit st (Lmdb.obj_db coll) (λ _, db_empty)))
  end.

Definition delete_object d coll id : t :=
  match Lmdb.read_db (live d) (Lmdb.obj_db coll) with
  | Some _ =>
      if String.eqb id EmptyString then d
      else
        let d := maybe_sync (txn d (λ st, Lmdb.commit st (Lmdb.obj_db coll) (Lmdb.del id))) in
        if Lmdb.has_any_ttl (live d) then clear_expiry d coll id else d
  | None => if Lmdb.has_any_ttl (live d) then clear_expiry d coll id else d
  end.

Definition put_object_at d coll id (obj : V) (expire_at_ms : Z) : t :=
  let d := put_str d (Lmdb.obj_db coll) id (value_to_string obj) in
  if valid_key id then
    let d := db d Lmdb.EXP_DB in
    if valid_key (Lmdb.exp_key coll id) then
      let d := txn d (λ st, Lmdb.commit st Lmdb.EXP_DB
                              (λ x, db_put x (Lmdb.exp_key coll id) (u64_to_string expire_at_ms))) in
      maybe_sync (mk (Lmdb.mk (Lmdb.env (live d)) true) (writes d) (synced d) (since d) (syncs d))
    else d
  else d.

Definition reap d (x : string * string * string) : t :=
  match Lmdb.read_db (live d) (Lmdb.obj_db x.1.2) with
  | Some _ => txn d (λ st, Lmdb.reap st x)
  | None => d
  end.

Definition sweep_expired d (now_ms : Z) : t * nat :=
  if negb (Lmdb.has_any_ttl (live d)) then (d, O)
  else match Lmdb.read_db (live d) Lmdb.EXP_DB with
  | None => (d, O)
  | Some _ =>
      let ds := Lmdb.dead now_ms (Lmdb.entries (V := V) (live d) Lmdb.EXP_DB) in
      let d := foldl reap d ds in
      (if (0 <? length ds)%nat then maybe_sync d else d, length ds)
  end.

Definition add_row d (table row_id : string) (doc : V) : t :=
  put_str (put_str d (Lmdb.tbl_db table) row_id (value_to_string doc)) Lmdb.TABLES_DB table "1".

(** Reads see the live environment. *)
#[global] Instance disk_index_store : IndexStore V t := {
  Store.put_object := put_object;
  Store.put_batch := put_batch;
  Store.get_object now d := Lmdb.get_object now (live d);
  Store.scan_objects now d := Lmdb.scan_objects now (live d);
  Store.scan_entries now d := Lmdb.scan_entries now (live d);
  Store.scan_range now d := Lmdb.scan_range now (live d);
  Store.clear_collection := clear_collection;
  Store.delete_object := delete_object;
  Store.put_object_at := put_object_at;
  Store.expiry_of d := Lmdb.expiry_of (live d);
  Store.sweep_expired := sweep_expired;
}.

(** A clean shutdown: the store is dropped. *)
Definition drop d : t := let '(d', _) := force_sync d in d'.

(** What a crash may leave on disk. *)
Definition may_remain d (e : gmap string D) : Prop := e = synced d ∨ e ∈ since d.

End disk.
Arguments t : clear implicits.

(** ** The live side is the store of [Lmdb] *)

Section live.
Context {V D : Type} `{!LmdbCodec V, !KvDb D, !SyncEnv, !JsonValue V}.
Implicit Types (d : t D) (c i : string).

Lemma live_maybe_sync d : live (maybe_sync d) = live d.
Proof. unfold maybe_sync, force_sync. by repeat case_match; simplify_eq. Qed.

Lemma live_put_str d n k s : live (put_str d n k s) = Lmdb.put_str (live d) n k s.
Proof. unfold put_str, Lmdb.put_str. case_match; [apply live_maybe_sync|done]. Qed.

Lemma live_put d c i (v : V) : live (put_object d c i v) = Lmdb.put_object (live d) c i v.
Proof.
  unfold put_object, Lmdb.put_object. rewrite !live_put_str. case_match; [|apply live_put_str].
  unfold clear_expiry, db, txn. cbn [live]. by rewrite live_put_str.
Qed.

Lemma live_ensure (items : list (string * string * V)) d :
  live (foldl (λ d '(c, _, _), db d (Lmdb.obj_db c)) d items)
  = foldl (λ st '(c, _, _), Lmdb.db st (Lmdb.obj_db c)) (live d) items.
Proof. revert d. induction items as [|[[c i] v] items IH]; intros d; [done|]. cbn [foldl]. by rewrite IH. Qed.

Lemma live_batch d (items : list (string * string * V)) :
  live (put_batch d items) = Lmdb.put_batch (live d) items.
Proof.
  destruct items as [|x items]; [done|]. unfold put_batch, Lmdb.put_batch.
  rewrite <-live_ensure. destruct (forallb _ _); [rewrite live_maybe_sync|]; unfold txn; cbn [live]; by case_match.
Qed.

Lemma live_clear d c : live (clear_collection d c) = Lmdb.clear_collection (live d) c.
Proof.
  unfold clear_collection, Lmdb.clear_collection. case_match; [|done]. apply live_maybe_sync.
Qed.

Lemma live_delete d c i : live (delete_object d c i) = Lmdb.delete_object (live d) c i.
Proof.
  unfold delete_object, Lmdb.delete_object. destruct (Lmdb.read_db (live d) (Lmdb.obj_db c)).
  - destruct (String.eqb i EmptyString); [done|]. cbv zeta. rewrite live_maybe_sync. cbn [txn live]. case_match; [|apply live_maybe_sync].
    unfold clear_expiry, db, txn. cbn [live]. by rewrite live_maybe_sync.
  - by case_match.
Qed.

Lemma live_put_at d c i (v : V) e :
  live (put_object_at d c i v e) = Lmdb.put_object_at (live d) c i v e.
Proof.
  unfold put_object_at, Lmdb.put_object_at. destruct (valid_key i); [|apply live_put_str].
  cbv zeta. set (d1 := put_str _ _ _ _). assert (live d1 = Lmdb.put_str (live d) (Lmdb.obj_db c) i (value_to_string v)) as Hd
    by apply live_put_str.
  rewrite <-Hd. unfold Lmdb.put_str.
  destruct (valid_key (Lmdb.exp_key c i)); [by rewrite live_maybe_sync|done].
Qed.

Lemma live_reap ds d : live (foldl reap d ds) = foldl Lmdb.reap (live d) ds.
Proof.
  revert d. induction ds as [|[[e c] i] ds IH]; intros d; [done|]. cbn [foldl]. rewrite IH. f_equal.
  unfold reap. cbn [fst snd]. destruct (Lmdb.read_db (live d) (Lmdb.obj_db c)) eqn:E; [done|].
  unfold Lmdb.reap. by rewrite E.
Qed.

Lemma live_sweep d tm :
  live (sweep_expired (V := V) d tm).1 = (Lmdb.sweep_expired (V := V) (live d) tm).1
  ∧ (sweep_expired (V := V) d tm).2 = (Lmdb.sweep_expired (V := V) (live d) tm).2.
Proof.
  unfold sweep_expired, Lmdb.sweep_expired. case_match; [done|]. case_match; [|done]. cbn [fst snd].
  split; [|done]. case_match; rewrite ?live_maybe_sync; apply live_reap.
Qed.

(** Every store operation: the same answer, on the same live environment. *)
Lemma live_run now d (o : sop V) :
  (run_sop now (live d) o).2 = (run_sop now d o).2
  ∧ live (run_sop now d o).1 = (run_sop now (live d) o).1.
Proof.
  destruct o as [c i v|c i v e|items|c i|c| |c i x v|c i z|c i m|c i m| | | |c bs a n];
    cbn [run_sop fst snd]; try done.
  - split; [done|apply live_put].
  - split; [done|apply live_put_at].
  - split; [done|apply live_batch].
  - split; [done|apply live_delete].
  - split; [done|apply live_clear].
  - split; [done|apply live_sweep].
  - unfold cas. change (Store.get_object now (live d) c i) with (Store.get_object now d c i).
    destruct (option_value_eqb _ _); [|done]. split; [done|apply live_put].
  - unfold incr. change (Store.get_object now (live d) c i) with (Store.get_object now d c i).
    destruct (match Store.get_object now d c i with Some w => value_int w | None => _ end); [|done].
    split; [done|apply live_put].
  - unfold set_add. change (set_members now (live d) c i) with (set_members now d c i).
    case_decide; [done|]. split; [done|apply live_put].
  - unfold set_remove. change (set_members now (live d) c i) with (set_members now d c i).
    destruct (_ =? _)%nat; [done|]. split; [done|]. cbn [fst].
    case_decide; [apply live_delete|apply live_put].
  - split; [|done]. cbn [snd]. f_equal. unfold scan_buckets.
    change (Store.scan_entries now (live d) c) with (Store.scan_entries now d c). f_equal.
    generalize (S (length (Store.scan_entries now d c))), ([] : list string). intros f. revert a.
    induction f as [|f IH]; intros a out; [done|]. cbn [scan_buckets_loop].
    change (Store.scan_range now (live d) c a None None SCAN_CHUNK)
      with (Store.scan_range now d c a None None SCAN_CHUNK).
    repeat case_match; try done; apply IH.
Qed.

End live.

(** ** How long a write stays at risk *)

Section window.
Context {V D : Type} `{!LmdbCodec V, !KvDb D, !SyncEnv}.
Implicit Types (d : t D).

(** [d'] is reached from [d] by transactions whose environments satisfy [ok]
    and by [n] counted writes. *)
Inductive evolves (ok : gmap string D → Prop) d : nat → t D → Prop :=
  | evolves_refl : evolves ok d 0 d
  | evolves_txn n d1 f :
      evolves ok d n d1 → ok (Lmdb.env (f (live d1))) → evolves ok d n (txn d1 f)
  | evolves_flag n d1 :
      evolves ok d n d1 →
      evolves ok d n (mk (Lmdb.mk (Lmdb.env (live d1)) true) (writes d1) (synced d1) (since d1) (syncs d1))
  | evolves_count n d1 : evolves ok d n d1 → evolves ok d (S n) (maybe_sync d1).

Lemma evolves_trans ok d n d1 m d2 :
  evolves ok d n d1 → evolves ok d1 m d2 → evolves ok d (m + n) d2.
Proof.
  intros H1 H2. induction H2; [done|..].
  - by apply evolves_txn.
  - by apply evolves_flag.
  - by apply evolves_count.
Qed.

(** The counter, at its width: the sync period divides it. *)
Lemma count_mod w n : (u64_add w n) mod SYNC_EVERY = (w + n) mod SYNC_EVERY.
Proof.
  unfold u64_add, u64_modulus, SYNC_EVERY. apply Z.mod_mod_divide. by exists (2 ^ 53).
Qed.

Lemma writes_maybe_sync d : writes (maybe_sync d) = u64_add (writes d) 1.
Proof. unfold maybe_sync, force_sync. by repeat case_match; simplify_eq. Qed.

(** A counted write leaves no more on the disk than there was, or what a
    successful sync has put there. *)
Lemma maybe_sync_remain d e : may_remain (maybe_sync d) e → may_remain d e ∨ e = Lmdb.env (live d).
Proof.
  unfold maybe_sync, force_sync, may_remain.
  repeat case_match; simplify_eq; cbn; rewrite ?elem_of_nil; tauto.
Qed.

(** Either the period has not been completed, or everything that may remain
    satisfies [ok]: the first sync succeeds, and what later ones do, or fail to
    do, cannot harm. *)
Lemma evolves_window ok d n d' :
  evolves ok d n d' → ok (Lmdb.env (live d)) → sync_ok (syncs d) = true →
  ok (Lmdb.env (live d')) ∧ writes d' mod SYNC_EVERY = (writes d + Z.of_nat n) mod SYNC_EVERY
  ∧ (writes d mod SYNC_EVERY + Z.of_nat n < SYNC_EVERY ∧ syncs d' = syncs d
     ∨ ∀ e, may_remain d' e → ok e).
Proof.
  intros He Hok Hsync. induction He as [|n d1 f _ IH Hf|n d1 _ IH|n d1 _ IH].
  - split; [done|]. split; [f_equal; lia|]. left. split; [|done].
    pose proof (Z.mod_pos_bound (writes d) SYNC_EVERY). unfold SYNC_EVERY in *. lia.
  - destruct IH as (_ & Hw & Hr). split; [done|]. split; [done|]. destruct Hr as [Hr|Hr]; [by left|].
    right. intros e [He|[->|He]%elem_of_cons]; [apply Hr; by left|done|apply Hr; by right].
  - done.
  - destruct IH as (Hl & Hw & Hr). rewrite live_maybe_sync. split; [done|].
    rewrite writes_maybe_sync, count_mod. split.
    { rewrite <-Zplus_mod_idemp_l, Hw, Zplus_mod_idemp_l. f_equal. lia. }
    destruct Hr as [[Hr Hn]|Hr]; [|right; intros e [He| ->]%maybe_sync_remain; [by apply Hr|done]].
    unfold maybe_sync. destruct (Z.eqb_spec (writes d1 mod SYNC_EVERY) (SYNC_EVERY - 1)) as [Hs|Hs].
    + right. unfold force_sync. cbn [syncs]. rewrite Hn, Hsync.
      intros e [->|He]; [done|by apply elem_of_nil in He].
    + left. rewrite Hw, <-Zplus_mod_idemp_l in Hs.
      rewrite Z.mod_small in Hs by (pose proof (Z.mod_pos_bound (writes d) SYNC_EVERY ltac:(done)); lia).
      split; [lia|done].
Qed.

End window.

(** ** A key that is not touched *)

(** The operation may change what the key reads as. *)
Definition touches {V} (o : sop V) (c k : string) : Prop :=
  match o with
  | SPut c' i _ | SPutAt c' i _ _ | SDelete c' i | SCas c' i _ _ | SIncr c' i _
  | SSetAdd c' i _ | SSetRemove c' i _ => (c', i) = (c, k)
  | SBatch items => ∃ v, (c, k, v) ∈ items
  | SClear c' => c' = c
  | _ => False
  end.

(** Counted writes an operation always makes: a batch counts once, a write with
    an expiry twice. *)
Definition weight {V} (o : sop V) : nat :=
  match o with
  | SPut _ _ _ => 1
  | SPutAt _ _ _ _ => 2
  | SBatch (_ :: _) => 1
  | _ => 0
  end.

Section held.
Context {V D : Type} `{!LmdbCodec V, !LmdbCodecLaws V, !KvDb D, !KvDbLaws D, !JsonValue V, !SyncEnv}.
Context (c k s : string).
Implicit Types (d : t D) (st : Lmdb.t D).

(** The key holds the text, without an expiry. *)
Definition held st : Prop := Lmdb.raw st c k = Some s ∧ Lmdb.exps st (Lmdb.exp_key c k) = None.

Abbreviation evolved := (evolves (λ e, held (Lmdb.open e))).

(** Reached with the key held all along. *)
Definition kept d n d' : Prop := evolved d n d' ∧ held (live d').

Lemma held_db st n : held st → held (Lmdb.db st n).
Proof. intros [Hr He]. split; [by rewrite Lmdb.raw_db|by rewrite Lmdb.exps_db]. Qed.

Lemma held_put st c' i w :
  (c', i) ≠ (c, k) → valid_key i = true → held st →
  held (Lmdb.commit st (Lmdb.obj_db c') (λ x, db_put x i w)).
Proof.
  intros Hne Hi [Hr He]. split; [|by rewrite Lmdb.exps_commit_obj]. rewrite Lmdb.raw_commit_obj.
  case_decide as Hc; [subst c'|done]. unfold Lmdb.raw in Hr.
  destruct (Lmdb.env st !! Lmdb.obj_db c); [|done]. cbn in *. rewrite db_get_put by done.
  by rewrite decide_False by congruence.
Qed.

Lemma db_get_del (x : D) i j : db_get (Lmdb.del i x) j = None ∨ db_get (Lmdb.del i x) j = db_get x j.
Proof.
  unfold Lmdb.del. destruct (valid_key i) eqn:Hi; [|by right]. rewrite db_get_delete by done.
  case_decide; auto.
Qed.

Lemma held_del st c' i :
  (c', i) ≠ (c, k) → held st → held (Lmdb.commit st (Lmdb.obj_db c') (Lmdb.del i)).
Proof.
  intros Hne [Hr He]. split; [|by rewrite Lmdb.exps_commit_obj]. rewrite Lmdb.raw_commit_obj.
  case_decide as Hc; [subst c'|done]. unfold Lmdb.raw in Hr.
  destruct (Lmdb.env st !! Lmdb.obj_db c); [|done]. cbn in *. unfold Lmdb.del.
  destruct (valid_key i) eqn:Hi; [|done]. rewrite db_get_delete by done.
  by rewrite decide_False by congruence.
Qed.

Lemma held_del_exp st i : held st → held (Lmdb.commit st Lmdb.EXP_DB (Lmdb.del i)).
Proof.
  intros [Hr He]. split; [by rewrite Lmdb.raw_commit_exp|]. rewrite Lmdb.exps_commit_exp.
  unfold Lmdb.exps in He. destruct (Lmdb.env st !! Lmdb.EXP_DB) as [x|]; [|done]. cbn in *.
  destruct (db_get_del x i (Lmdb.exp_key c k)); congruence.
Qed.

Lemma held_put_exp st c' i w :
  (c', i) ≠ (c, k) → Lmdb.names_ok c' i = true → held st →
  held (Lmdb.commit st Lmdb.EXP_DB (λ x, db_put x (Lmdb.exp_key c' i) w)).
Proof.
  intros Hne (Hc & Hi & _ & Hk)%Lmdb.names_ok_inv [Hr He].
  split; [by rewrite Lmdb.raw_commit_exp|]. rewrite Lmdb.exps_commit_exp.
  unfold Lmdb.exps in He. destruct (Lmdb.env st !! Lmdb.EXP_DB) as [x|]; [|done]. cbn in *.
  rewrite db_get_put by done. rewrite decide_False; [done|]. intros Heq. symmetry in Heq.
  destruct (Lmdb.exp_key_inj c' i c k Hc Hi Heq). congruence.
Qed.

Lemma kept_refl d : held (live d) → kept d 0 d.
Proof. by split; [constructor|]. Qed.

Lemma kept_txn d n d1 f : kept d n d1 → held (f (live d1)) → kept d n (txn d1 f).
Proof. intros [He _] Hf. split; [by apply evolves_txn|done]. Qed.

Lemma kept_db d n d1 name : kept d n d1 → kept d n (db d1 name).
Proof. intros Hk. apply kept_txn; [done|]. apply held_db, Hk. Qed.

Lemma kept_count d n d1 : kept d n d1 → kept d (S n) (maybe_sync d1).
Proof. intros [He Hh]. split; [by apply evolves_count|by rewrite live_maybe_sync]. Qed.

Lemma kept_put_str d n d1 c' i w :
  (c', i) ≠ (c, k) → valid_key i = true → kept d n d1 → kept d (S n) (put_str d1 (Lmdb.obj_db c') i w).
Proof.
  intros Hne Hi Hk. unfold put_str. rewrite Hi. apply kept_count, kept_txn; [by apply kept_db|]. apply held_put; [done..|].
  by apply held_db, Hk.
Qed.

Lemma kept_clear_expiry d n d1 c' i : kept d n d1 → kept d n (clear_expiry d1 c' i).
Proof.
  intros Hk. apply kept_txn; [by apply kept_db|]. by apply held_del_exp, held_db, Hk.
Qed.

Lemma kept_put d n d1 c' i (v : V) :
  (c', i) ≠ (c, k) → Lmdb.names_ok c' i = true → kept d n d1 → kept d (S n) (put_object d1 c' i v).
Proof.
  intros Hne (_ & _ & Hi & _)%Lmdb.names_ok_inv Hk. unfold put_object.
  case_match; [apply kept_clear_expiry|]; by apply kept_put_str.
Qed.

Lemma kept_put_at d n d1 c' i (v : V) e :
  (c', i) ≠ (c, k) → Lmdb.names_ok c' i = true → kept d n d1 →
  kept d (S (S n)) (put_object_at d1 c' i v e).
Proof.
  intros Hne Hn Hk. pose proof Hn as (_ & _ & Hi & Hx)%Lmdb.names_ok_inv. unfold put_object_at.
  rewrite Hi, Hx. apply kept_count.
  assert (kept d (S n) (txn (db (put_str d1 (Lmdb.obj_db c') i (value_to_string v)) Lmdb.EXP_DB)
    (λ st, Lmdb.commit st Lmdb.EXP_DB (λ x, db_put x (Lmdb.exp_key c' i) (u64_to_string e))))) as [He Hh].
  { apply kept_txn; [by apply kept_db, kept_put_str|]. apply held_put_exp; [done..|].
    apply held_db. by apply (kept_put_str d n d1). }
  split; [by apply evolves_flag|done].
Qed.

Lemma kept_delete d n d1 c' i :
  (c', i) ≠ (c, k) → kept d n d1 → ∃ m, (n ≤ m)%nat ∧ kept d m (delete_object d1 c' i).
Proof.
  intros Hne Hk. unfold delete_object. case_match; cycle 1.
  { exists n. split; [done|]. case_match; [by apply kept_clear_expiry|done]. }
  case_match; [by exists n|]. exists (S n). split; [lia|].
  assert (Hd : kept d (S n) (maybe_sync (txn d1 (λ st, Lmdb.commit st (Lmdb.obj_db c') (Lmdb.del i))))).
  { apply kept_count, kept_txn; [done|]. by apply held_del, Hk. }
  cbv zeta. case_match; [by apply kept_clear_expiry|done].
Qed.

Lemma kept_clear d n d1 c' : c' ≠ c → kept d n d1 → ∃ m, (n ≤ m)%nat ∧ kept d m (clear_collection d1 c').
Proof.
  intros Hne Hk. unfold clear_collection. case_match; [|by exists n]. exists (S n).
  split; [lia|]. apply kept_count, kept_txn; [done|]. destruct Hk as [_ [Hr He]].
  split; [|by rewrite Lmdb.exps_commit_obj]. rewrite Lmdb.raw_commit_obj. by rewrite decide_False.
Qed.

Lemma held_items ttl (items : list (string * string * V)) st :
  (∀ c' i v, (c', i, v) ∈ items → (c', i) ≠ (c, k) ∧ valid_key i = true) → held st →
  held (foldl (Lmdb.put_item ttl) st items).
Proof.
  revert st. induction items as [|[[c' i] v] items IH]; intros st Hi Hh; [done|].
  destruct (Hi c' i v ltac:(left)) as [Hne Hv]. cbn [foldl]. apply IH; [intros; eapply Hi; by right|].
  unfold Lmdb.put_item. destruct ttl; [apply held_del_exp|]; by apply held_put.
Qed.

Lemma kept_ensure (items : list (string * string * V)) d n : ∀ d1,
  kept d n d1 → kept d n (foldl (λ d '(c', _, _), db d (Lmdb.obj_db c')) d1 items).
Proof.
  induction items as [|[[c' i] v] items IH]; intros d1 Hk; [done|]. cbn [foldl]. by apply IH, kept_db.
Qed.

Lemma kept_batch d n d1 (items : list (string * string * V)) :
  items ≠ [] → (∀ c' i v, (c', i, v) ∈ items → (c', i) ≠ (c, k) ∧ valid_key i = true) →
  kept d n d1 → kept d (S n) (put_batch d1 items).
Proof.
  intros Hne Hi Hk. destruct items as [|x items]; [done|]. unfold put_batch.
  assert (forallb (λ '(_, i, _), valid_key i) (x :: items) = true) as ->.
  { apply forallb_forall. intros [[c' i] v] Hin%list_elem_of_In. by destruct (Hi c' i v Hin). }
  apply kept_count.
  set (d2 := foldl _ d1 (x :: items)).
  assert (kept d n (if Lmdb.has_any_ttl (live d2) then db d2 Lmdb.EXP_DB else d2)) as Hk2.
  { case_match; [apply kept_db|]; by apply kept_ensure. }
  apply kept_txn; [done|]. apply held_items; [done|apply Hk2].
Qed.

Lemma kept_reap d n ds : ∀ d1,
  (∀ x, x ∈ ds → (x.1.2, x.2) ≠ (c, k)) → kept d n d1 → kept d n (foldl reap d1 ds).
Proof.
  induction ds as [|[[e c'] i] ds IH]; intros d1 Hds Hk; [done|]. cbn [foldl].
  apply IH; [intros; apply Hds; by right|]. pose proof (Hds (e, c', i) ltac:(left)) as Hne. cbn in Hne.
  unfold reap. cbn [fst snd]. destruct (Lmdb.read_db (live d1) (Lmdb.obj_db c')) eqn:E; [|done].
  apply kept_txn; [done|]. unfold Lmdb.reap. rewrite E. by apply held_del_exp, held_del, Hk.
Qed.

Lemma kept_sweep d n d1 tm :
  Lmdb.wf (V := V) (live d1) → kept d n d1 → ∃ m, (n ≤ m)%nat ∧ kept d m (sweep_expired (V := V) d1 tm).1.
Proof.
  intros Hwf Hk. unfold sweep_expired. case_match; [by exists n|]. case_match; [|by exists n]. cbn [fst].
  assert (kept d n (foldl reap d1 (Lmdb.dead tm (Lmdb.entries (V := V) (live d1) Lmdb.EXP_DB)))) as Hr.
  { apply kept_reap; [|done]. intros x (c' & i & e & -> & He & _)%Lmdb.dead_spec; [|done]. cbn.
    intros [= -> ->]. rewrite Lmdb.expiry_exps in He. destruct Hk as [_ [_ Hn]]. by rewrite Hn in He. }
  case_match; [exists (S n); split; [lia|by apply kept_count]|by exists n].
Qed.

(** One store operation that does not touch the key. *)
Lemma kept_op now d n d1 (o : sop V) :
  Lmdb.wf (V := V) (live d1) → sop_ok (St := Lmdb.t D) o → ¬ touches o c k → kept d n d1 →
  ∃ m, (weight o + n ≤ m)%nat ∧ kept d m (run_sop now d1 o).1.
Proof.
  intros Hwf Ho Ht Hk.
  destruct o as [c' i v|c' i v e|items|c' i|c'| |c' i x v|c' i z|c' i m|c' i m| | | |];
    cbn [run_sop fst weight sop_ok touches] in *; try (by exists n).
  - exists (S n). split; [lia|]. apply kept_put; [done|apply Ho|done].
  - exists (S (S n)). split; [lia|]. apply kept_put_at; [done|apply Ho|done].
  - destruct items as [|y items]; [by exists n|]. exists (S n). split; [lia|].
    apply kept_batch; [done| |done]. intros c' i v Hin. split.
    + intros [= -> ->]. apply Ht. by exists v.
    + by apply (Ho c' i v) in Hin as [(_ & _ & Hi & _)%Lmdb.names_ok_inv _].
  - by apply kept_delete.
  - by apply kept_clear.
  - by apply kept_sweep.
  - unfold cas. destruct (option_value_eqb _ _); [|by exists n]. exists (S n). split; [lia|]. apply kept_put; [done|apply Ho|done].
  - unfold incr. destruct (match Store.get_object now d1 c' i with Some w => value_int w | None => _ end);
      [|by exists n]. exists (S n). split; [lia|]. apply kept_put; [done|by apply (Ho 0)|done].
  - unfold set_add. case_decide; [by exists n|]. exists (S n). split; [lia|].
    apply kept_put; [done|apply (Ho [])|done].
  - unfold set_remove. destruct (_ =? _)%nat; [by exists n|]. cbn [fst].
    case_decide; [by apply kept_delete|]. exists (S n). split; [lia|].
    apply kept_put; [done|apply (Ho [])|done].
Qed.

Definition total_weight (os : list (Z * sop V)) : nat := sum_list_with (λ x, weight x.2) os.

Lemma kept_run d os : ∀ n d1,
  Lmdb.wf (V := V) (live d1) → (∀ now o, (now, o) ∈ os → sop_ok (St := Lmdb.t D) o ∧ ¬ touches o c k) →
  kept d n d1 → ∃ m, (total_weight os + n ≤ m)%nat ∧ kept d m (run_sops d1 os).1.
Proof.
  induction os as [|[now o] os IH]; intros n d1 Hwf Hos Hk; [by exists n|].
  destruct (Hos now o ltac:(left)) as [Ho Ht].
  destruct (kept_op now d n d1 o Hwf Ho Ht Hk) as (m & Hm & Hk1).
  pose proof (live_run now d1 o) as [_ Hl]. pose proof (run_sop_wf now (live d1) o Hwf Ho) as Hwf1.
  rewrite <-Hl in Hwf1. cbn [run_sops]. destruct (run_sop now d1 o) as [d2 r]. cbn [fst] in *.
  destruct (IH m d2 Hwf1) as (m' & Hm' & Hk2); [intros; by eapply Hos; right|done|].
  exists m'. destruct (run_sops d2 os). cbn [fst] in *. split; [|done].
  unfold total_weight in *. cbn in *. lia.
Qed.

End held.

Section recovery.
Context {V D : Type} `{!LmdbCodec V, !LmdbCodecLaws V, !KvDb D, !KvDbLaws D, !JsonValue V, !SyncEnv}.
Implicit Types (d : t D) (st : Lmdb.t D) (c k : string) (e : gmap string D).

(** A key that reads as [v] and does not expire is held. *)
Lemma held_of_get now st c k (v : V) :
  Lmdb.wf (V := V) st → Lmdb.get_object now st c k = Some v → Lmdb.expiry_of st c k = None →
  ∃ s, held c k s st ∧ value_of_string s = Some v.
Proof.
  intros Hwf Hg He. rewrite Lmdb.get_raw, He in Hg by done.
  destruct (Lmdb.raw st c k) as [s|] eqn:Hr; [|done]. exists s. split; [|done]. split; [done|].
  destruct (Lmdb.exps st (Lmdb.exp_key c k)) as [u|] eqn:Hx; [|done].
  rewrite Lmdb.expiry_exps, Hx in He. destruct (Lmdb.wf_exp _ Hwf _ _ Hx) as (? & ? & x & _ & _ & Hu & ->).
  change (parse_u64 (u64_to_string x) = None) in He. by rewrite u64_string_roundtrip in He.
Qed.

Lemma get_of_held now st c k s (v : V) :
  held c k s st → value_of_string s = Some v → Lmdb.get_object now st c k = Some v.
Proof.
  intros [Hr Hx] Hv. unfold Lmdb.get_object, Lmdb.is_expired. unfold Lmdb.exps in Hx.
  assert (Lmdb.read_expiry st c k = None) as ->.
  { unfold Lmdb.read_expiry, Lmdb.read_db. destruct (Lmdb.env st !! Lmdb.EXP_DB); [|done].
    cbn in *. by rewrite Hx. }
  rewrite andb_false_r. unfold Lmdb.raw, Lmdb.read_db in *.
  destruct (Lmdb.env st !! Lmdb.obj_db c); [|done]. cbn in *. by rewrite Hr.
Qed.

(** C20. How long a write is at risk.  Take a durable store in any well-formed
    state (as every operation with names and values that fit LMDB leaves it) and
    a key that reads as [v] with no expiry.  After any further operations that
    fit, do not touch the key and make at least 2,048 counted writes among them
    (a batch counts once, a write with an expiry twice), and provided the first
    sync attempted from then on succeeds, whatever environment a crash leaves on
    the disk, of those committed since the last successful sync, the store
    reopened on it reads [v] at the key.  (A failed sync is ignored by the store:
    [failed_syncs_lose_writes].) *)
Theorem write_survives_crash d t0 c k (v : V) os e now :
  Lmdb.wf (V := V) (live d) →
  Lmdb.get_object t0 (live d) c k = Some v → Lmdb.expiry_of (live d) c k = None →
  (∀ tm o, (tm, o) ∈ os → sop_ok (St := Lmdb.t D) o ∧ ¬ touches o c k) →
  SYNC_EVERY ≤ Z.of_nat (total_weight os) → sync_ok (syncs d) = true →
  may_remain (run_sops d os).1 e →
  Lmdb.get_object now (Lmdb.open e) c k = Some v.
Proof.
  intros Hwf Hg He Hos Hn Hsync Hm. destruct (held_of_get t0 _ c k v Hwf Hg He) as (s & Hs & Hv).
  destruct (kept_run c k s d os 0 d Hwf Hos (kept_refl c k s d Hs)) as (n & Hle & Hev & _).
  destruct (evolves_window _ d n _ Hev Hs Hsync) as (_ & _ & [[Hlt _]|Hall]).
  - pose proof (Z.mod_pos_bound (writes d) SYNC_EVERY ltac:(done)). lia.
  - eapply get_of_held; [by apply Hall|done].
Qed.

(** What a sync leaves at risk: nothing, or, when it fails, what there was. *)
Lemma force_sync_remain d e :
  may_remain (force_sync d).1 e ↔ if sync_ok (syncs d) then e = Lmdb.env (live d) else may_remain d e.
Proof.
  unfold force_sync, may_remain. destruct (sync_ok _); cbn; [|done]. rewrite elem_of_nil. tauto.
Qed.

(** After a clean shutdown nothing is at risk, if its sync succeeds. *)
Lemma drop_durable d e :
  sync_ok (syncs d) = true → may_remain (drop d) e ↔ e = Lmdb.env (live d).
Proof.
  intros Hs. pose proof (force_sync_remain d e) as Hr. rewrite Hs in Hr. unfold drop.
  by destruct (force_sync d).
Qed.

Lemma ensure_counts (items : list (string * string * V)) : ∀ d,
  let d' := foldl (λ d '(c, _, _), db d (Lmdb.obj_db c)) d items in
  synced d' = synced d ∧ writes d' = writes d.
Proof. induction items as [|[[c i] v] items IH]; intros d; [done|]. apply (IH (db d (Lmdb.obj_db c))). Qed.

(** A batch counts as one write. *)
Lemma batch_counts d (b : list (string * string * V)) :
  0 ≤ writes d < SYNC_EVERY - 1 →
  synced (put_batch d b) = synced d ∧ writes d ≤ writes (put_batch d b) ≤ writes d + 1.
Proof.
  intros Hw. destruct b as [|x b]; [split; [done|cbn; lia]|]. unfold put_batch.
  destruct (ensure_counts (x :: b) d) as [Hs2 Hw2]. set (d2 := foldl _ d (x :: b)) in *.
  set (d3 := if Lmdb.has_any_ttl (live d2) then db d2 Lmdb.EXP_DB else d2).
  assert (synced d3 = synced d ∧ writes d3 = writes d) as [Hs3 Hw3] by (subst d3; by case_match).
  destruct (forallb _ _); [|change (synced d3 = synced d ∧ writes d ≤ writes d3 ≤ writes d + 1); rewrite Hs3; split; [done|lia]].
  unfold maybe_sync. cbn [txn writes synced live since syncs]. rewrite Hw3, Hs3.
  unfold SYNC_EVERY in *. rewrite Z.mod_small by lia.
  rewrite (proj2 (Z.eqb_neq _ _)) by lia. cbn [synced writes]. split; [done|].
  unfold u64_add, u64_modulus. rewrite Z.mod_small by lia. lia.
Qed.

(** The sync period counts batches, not the writes in them: fewer than 2,048
    batches, of any size, may all be lost. *)
Lemma batches_may_be_lost e (bs : list (Z * list (string * string * V))) :
  Z.of_nat (length bs) < SYNC_EVERY →
  may_remain (run_sops (open e) (map (λ x, (x.1, SBatch x.2)) bs)).1 e.
Proof.
  intros Hn. left.
  assert (∀ d, 0 ≤ writes d → writes d + Z.of_nat (length bs) < SYNC_EVERY →
    synced (run_sops d (map (λ x, (x.1, SBatch x.2)) bs)).1 = synced d) as Hall;
    [|symmetry; by apply (Hall (open e))].
  clear Hn. induction bs as [|[tm b] bs IH]; intros d H0 Hlt; [done|]. cbn [map run_sops run_sop length] in *.
  destruct (batch_counts d b) as [Hs Hw]; [lia|]. rewrite <-Hs.
  rewrite <-(IH (put_batch d b)) by lia. cbn [fst snd]. change (Store.put_batch d b) with (put_batch d b).
  by destruct (run_sops (put_batch d b) _).
Qed.

End recovery.

(** ** When syncs fail *)

Section unsynced.
Context {V D : Type} `{!LmdbCodec V, !KvDb D, !JsonValue V, !SyncEnv}.
Context (Hfail : ∀ n, sync_ok n = false).
Implicit Types (d : t D).

Definition grows d d' : Prop := ∀ e, may_remain d e → may_remain d' e.

Lemma grows_refl d : grows d d.
Proof. by intros e. Qed.

Lemma grows_txn d d' f : grows d d' → grows d (txn d' f).
Proof. intros Hg e [->|He]%Hg; [by left|right; by right]. Qed.

Lemma grows_count d d' : grows d d' → grows d (maybe_sync d').
Proof.
  intros Hg e He%Hg. unfold maybe_sync, force_sync. rewrite Hfail. by case_match.
Qed.

Lemma grows_flag d d' b :
  grows d d' → grows d (mk (Lmdb.mk (Lmdb.env (live d')) b) (writes d') (synced d') (since d') (syncs d')).
Proof. done. Qed.

#[local] Hint Resolve grows_refl grows_txn grows_count : core.

Lemma grows_foldl {A} (f : t D → A → t D) l : (∀ d d' a, grows d d' → grows d (f d' a)) →
  ∀ d d', grows d d' → grows d (foldl f d' l).
Proof. intros Hf. induction l as [|a l IH]; intros d d' Hg; [done|]. cbn [foldl]. by apply IH, Hf. Qed.

Lemma grows_put d c i (v : V) : grows d (put_object d c i v).
Proof. unfold put_object, put_str, clear_expiry, db. repeat case_match; auto 8. Qed.

Lemma grows_delete d c i : grows d (delete_object d c i).
Proof. unfold delete_object, clear_expiry, db. repeat case_match; auto 8. Qed.

(** Every operation leaves on the disk at least what was there. *)
Lemma grows_op now d (o : sop V) : grows d (run_sop now d o).1.
Proof.
  destruct o as [c i v|c i v e|items|c i|c| |c i x v|c i z|c i m|c i m| | | |]; cbn [run_sop fst]; auto.
  - apply grows_put.
  - cbn. unfold put_object_at, put_str, db.
    repeat case_match; try apply grows_count, grows_flag; auto 8.
  - cbn. destruct items as [|x items]; [done|]. unfold put_batch.
    set (d2 := foldl _ d _). assert (grows d d2).
    { apply (grows_foldl (λ d '(c, _, _), db d (Lmdb.obj_db c))); [|apply grows_refl].
      intros ? ? [[??]?] ?. apply grows_txn. done. }
    unfold db. repeat case_match; auto 6.
  - apply grows_delete.
  - cbn. unfold clear_collection. case_match; auto.
  - cbn. unfold sweep_expired. repeat case_match; try done; cbn [fst].
    1: apply grows_count.
    all: apply (grows_foldl reap); [|apply grows_refl]; intros; unfold reap; case_match; auto.
  - unfold cas. destruct (option_value_eqb _ _); [apply grows_put|done].
  - unfold incr. destruct (match Store.get_object now d c i with Some w => value_int w | None => _ end);
      [apply grows_put|done].
  - unfold set_add. case_decide; [done|apply grows_put].
  - unfold set_remove. destruct (_ =? _)%nat; [done|]. cbn [fst].
    case_decide; [apply grows_delete|apply grows_put].
Qed.

(** While every sync fails nothing becomes durable, however many operations
    follow: a crash may still leave the disk as it was before them all. *)
Theorem failed_syncs_lose_writes d os e :
  may_remain d e → may_remain (run_sops (V := V) d os).1 e.
Proof.
  revert d. induction os as [|[now o] os IH]; intros d He; [done|]. cbn [run_sops].
  apply (grows_op now d o) in He. destruct (run_sop now d o) as [d1 r]. cbn [fst] in He.
  apply IH in He. by destruct (run_sops d1 os).
Qed.

End unsynced.

(** ** Backups *)

Definition pair_le (x y : string * nat) : Prop := str_lt x.1 y.1 ∨ (x.1 = y.1 ∧ (x.2 ≤ y.2)%nat).

#[local] Instance pair_le_dec : RelDecision pair_le.
Proof. intros x y. unfold pair_le. apply _. Defined.

Section backup.
Context {V D : Type} `{!LmdbCodec V, !KvDb D, !SyncEnv}.
Implicit Types (d : t D) (e : gmap string D).

(** The copy of the environment, or an error: the directory of the destination
    ([mkdir]), then the copy ([copy]) may fail; so may the sync in between, which
    is ignored. *)
Definition snapshot (parent : option string) (mkdir : string → option string) (copy : option string) d
    : t D * (string + gmap string D) :=
  match (p ← parent; err ← mkdir p; Some ("mkdir " ++ p ++ ": " ++ err)%string) with
  | Some err => (d, inl err)
  | None =>
      let '(d, _) := force_sync d in
      match copy with
      | Some err => (d, inl err)
      | None => (d, inr (Lmdb.env (live d)))
      end
  end.

(** Entries of each named database of a snapshot. *)
Definition verify_snapshot e : list (string * nat) :=
  merge_sort pair_le
    (omap (λ name, x ← e !! name; Some (name, length (db_iter x))) (sort_strings (elements (dom e)))).

(** The inspection mode of the daemon: refuses a snapshot without entries. *)
Definition verify_mode e : string + list (string * nat) :=
  let stats := verify_snapshot e in
  let total := sum_list_with snd stats in
  if (total =? 0)%nat then inl "snapshot has no entries — refusing to vouch for an empty backup"%string
  else inr stats.

(** The backup route: failures are answers too.  The task that runs the
    snapshot may panic. *)
Definition backup_reply `{!JsonValue V, !WireJson V, !JsonEnvelope V}
    (dest : string) (res : string + (string + unit)) : Http.response V :=
  Http.json
    match res with
    | inr (inr _) => [("ok", value_of_bool true); ("dest", value_from_str dest)]
    | inr (inl err) => [("ok", value_of_bool false); ("error", value_from_str err)]
    | inl panic =>
        [("ok", value_of_bool false);
         ("error", value_from_str ("backup task panicked: " ++ panic)%string)]
    end.

End backup.

(** The default of the store trait, which the in-memory store keeps. *)
Definition snapshot_default : string + unit :=
  inl "snapshot not supported by this store (durable backend only)"%string.

Section restore.
Context {V D : Type} `{!LmdbCodec V, !LmdbCodecLaws V, !KvDb D, !KvDbLaws D, !JsonValue V, !SyncEnv}.
Implicit Types (d : t D) (st : Lmdb.t D) (c k : string) (e : gmap string D).

(** Reopening recovers the expiry guard from the disk. *)
Lemma wf_reopen st : Lmdb.wf (V := V) st → Lmdb.wf (V := V) (Lmdb.open (Lmdb.env st)).
Proof.
  intros Hwf. split; [apply (Lmdb.wf_obj _ Hwf)|apply (Lmdb.wf_exp _ Hwf)|].
  unfold Lmdb.open, Lmdb.exps. cbn [Lmdb.has_any_ttl Lmdb.env].
  destruct (Lmdb.env st !! Lmdb.EXP_DB) as [x|]; [|done]. intros Hi key. cbn.
  destruct (db_get x key) as [s|] eqn:Hk; [|done]. apply elem_of_db_iter in Hk.
  destruct (db_iter x); [by apply elem_of_nil in Hk|done].
Qed.

Lemma reopen_agrees from st :
  Lmdb.wf (V := V) st → agree (V := V) from (Lmdb.open (Lmdb.env st)) st.
Proof.
  intros Hwf now c k _. cbn. rewrite !Lmdb.get_raw by (done || by apply wf_reopen). done.
Qed.

Lemma live_runs os d : (run_sops (V := V) d os).2 = (run_sops (live d) os).2.
Proof.
  revert d. induction os as [|[now o] os IH]; intros d; [done|]. cbn [run_sops].
  destruct (live_run now d o) as [Hr Hl]. specialize (IH (run_sop now d o).1). rewrite Hl in IH.
  destruct (run_sop now d o), (run_sop now (live d) o). cbn [fst snd] in *.
  destruct (run_sops t0 os), (run_sops t1 os). cbn in *. congruence.
Qed.

Lemma elem_of_verify e name n :
  (name, n) ∈ verify_snapshot e ↔ ∃ x, e !! name = Some x ∧ n = length (db_iter x).
Proof.
  unfold verify_snapshot. rewrite (merge_sort_Permutation pair_le), list_elem_of_omap. split.
  - intros (y & _ & Hy). destruct (e !! y) as [x|] eqn:Hx; [|done]. injection Hy as <- <-. by exists x.
  - intros (x & Hx & ->). exists name. rewrite elem_of_sort_strings, elem_of_elements, elem_of_dom, Hx.
    by split.
Qed.

Lemma verify_mode_readable now st c k (v : V) :
  Lmdb.wf (V := V) st → Lmdb.get_object now st c k = Some v →
  verify_mode (Lmdb.env st) = inr (verify_snapshot (Lmdb.env st)).
Proof.
  intros Hwf Hg. rewrite Lmdb.get_raw in Hg by done. unfold verify_mode.
  assert (Hr : is_Some (Lmdb.raw st c k)).
  { destruct (Lmdb.raw st c k); [done|]. by repeat case_match. }
  destruct Hr as [s Hr]. unfold Lmdb.raw in Hr.
  destruct (Lmdb.env st !! Lmdb.obj_db c) as [x|] eqn:Hx; [|done]. cbn in Hr.
  apply elem_of_db_iter in Hr. assert ((Lmdb.obj_db c, length (db_iter x)) ∈ verify_snapshot (Lmdb.env st)) as Hv.
  { apply elem_of_verify. by exists x. }
  destruct (Nat.eqb_spec (sum_list_with snd (verify_snapshot (Lmdb.env st))) 0) as [H0|]; [|done].
  pose proof (sum_list_with_in _ snd _ Hv) as Hle. cbn in Hle.
  assert (length (db_iter x) = 0%nat) as Hn by lia.
  apply length_zero_iff_nil in Hn. rewrite Hn in Hr. by apply elem_of_nil in Hr.
Qed.

(** C23. Backup and restore.  When a snapshot of a well-formed store reports
    success, the live store is unchanged, and nothing it holds is at risk any more
    if the sync inside succeeded too; if that failed, which the report does not
    show, as much is at risk as before.  Either way a fresh node opened on the copy
    answers every sequence of store operations that fit LMDB, at non-decreasing
    times, exactly as the original would, and has its source tables; and the
    daemon's inspection accepts the copy whenever the store had a readable
    key. *)
Theorem snapshot_restores parent mkdir copy d d' e :
  Lmdb.wf (V := V) (live d) → snapshot parent mkdir copy d = (d', inr e) →
  live d' = live d
  ∧ (∀ e', may_remain d' e' ↔ if sync_ok (syncs d) then e' = e else may_remain d e')
  ∧ (∀ from os, clock_from (V := V) from os →
       (∀ now o, (now, o) ∈ os → sop_ok (St := Lmdb.t D) o) →
       (run_sops (Lmdb.open e) os).2 = (run_sops d' os).2)
  ∧ (∀ table, Lmdb.scan_table (V := V) (Lmdb.open e) table = Lmdb.scan_table (V := V) (live d) table)
  ∧ (∀ now c k (v : V), Lmdb.get_object now (live d) c k = Some v →
       verify_mode e = inr (verify_snapshot e)).
Proof.
  intros Hwf Hs. unfold snapshot in Hs. case_match; [done|].
  pose proof (force_sync_remain d) as Hr.
  assert (Hl : live (force_sync d).1 = live d) by (unfold force_sync; by case_match).
  destruct (force_sync d) as [d1 ok]. cbn [fst] in Hr, Hl. destruct copy as [err|]; [done|].
  injection Hs as <- <-. rewrite Hl. split; [done|]. split; [exact Hr|].
  split; [|split; [done|]].
  - intros from os Hc Hos. rewrite live_runs, Hl. apply (agree_run from); try done.
    + by apply wf_reopen.
    + by apply reopen_agrees.
    + intros now o Hin. by split; apply (Hos now).
  - intros now c k v Hg. by eapply verify_mode_readable.
Qed.

End restore.

End Durability.
