(* ===== verification/Ingest.v ===== *)
(** * The durable ingest queue ([src/src/ingest.rs])

    A write-ahead log of operations, numbered from 1, with a durable committed
    cursor; draining applies accepted operations in order and advances the
    cursor; opening a queue recovers both counters from disk. *)

From S2P Require Import Prelude Machine Text Store Shard Replica Client Cluster Kvdb.

Local Open Scope Z_scope.

Module Ingest.

Inductive IngestOp (V : Type) :=
  | Put (coll key : string) (value : V)
  | SetAdd (coll key member : string)
  | SetRemove (coll key member : string)
  | Delete (coll key : string).
Arguments Put {_} _ _ _.
Arguments SetAdd {_} _ _ _.
Arguments SetRemove {_} _ _ _.
Arguments Delete {_} _ _.

(** The derived JSON encoding of operations. *)
Class IngestCodec (V : Type) := {
  op_to_string : IngestOp V → string;
  op_of_string : string → option (IngestOp V);
}.

Class IngestCodecLaws (V : Type) `{!IngestCodec V} := {
  op_roundtrip : ∀ o : IngestOp V, op_of_string (op_to_string o) = Some o;
}.

Definition COMMITTED : string := "committed".

(** [key(seq)]. *)
Definition key (seq : Z) : string := padded_key seq.

Section queue.
Context {V D : Type} `{!IngestCodec V, !KvDb D}.

Record t := mk {
  queue : D;
  meta : D;
  next : Z;
  committed : Z;
}.

Implicit Types (q : t).

(** Recover the counters from the two databases. *)
Definition open (qdb mdb : D) : t :=
  mk qdb mdb (u64_add (last_seq qdb) 1) (default 0 (db_get mdb COMMITTED ≫= parse_u64)).

Definition enqueue q (op : IngestOp V) : t * Z :=
  (mk (db_put (queue q) (key (next q)) (op_to_string op)) (meta q) (u64_add (next q) 1)
      (committed q), next q).

Definition latest_seq q : Z := saturating_sub (next q) 1.

Definition pending q : Z := saturating_sub (latest_seq q) (committed q).

(** The loop of [read_uncommitted]; the limit is tested after each push. *)
Fixpoint read_loop (from : Z) (limit : nat) (items : list (string * string))
    (out : list (Z * IngestOp V)) : list (Z * IngestOp V) :=
  match items with
  | [] => out
  | (k, v) :: items' =>
      match parse_u64 k with
      | Some seq =>
          if from <? seq then
            match op_of_string v with
            | Some op =>
                let out' := out ++ [(seq, op)] in
                if (limit <=? length out')%nat then out' else read_loop from limit items' out'
            | None => read_loop from limit items' out
            end
          else read_loop from limit items' out
      | None => read_loop from limit items' out
      end
  end.

Definition read_uncommitted q (from : Z) (limit : nat) : list (Z * IngestOp V) :=
  read_loop from limit (db_iter (queue q)) [].

Definition persist_committed q (seq : Z) : t :=
  mk (queue q) (db_put (meta q) COMMITTED (u64_to_string seq)) (next q) seq.

Definition compact q : t * nat :=
  if committed q =? 0 then (q, O)
  else
    let to_delete := leading_keys (λ seq, seq <=? committed q) (db_iter (queue q)) in
    if decide (to_delete = []) then (q, O)
    else
      let '(qdb, removed) := delete_keys (queue q) to_delete in
      (mk qdb (meta q) (next q) (committed q), removed).

(** Where operations are applied: [true] for success. *)
Context {Sk : Type} (apply : IngestOp V → Sk → Sk * bool).

(** Apply in order, stop at the first failure: the sink, the last number that
    succeeded, and how many did. *)
Fixpoint apply_loop (ops : list (Z * IngestOp V)) (sk : Sk) (last_ok : Z) (applied : nat)
    : Sk * Z * nat :=
  match ops with
  | [] => (sk, last_ok, applied)
  | (seq, op) :: ops' =>
      let '(sk', okay) := apply op sk in
      if okay : bool then apply_loop ops' sk' seq (S applied) else (sk', last_ok, applied)
  end.

(** A drain that nothing interrupts ([drain_steps]). *)
Definition drain q (limit : nat) (sk : Sk) : t * Sk * nat :=
  let from := committed q in
  let ops := read_uncommitted q from limit in
  let '(sk, last_ok, applied) := apply_loop ops sk from 0 in
  if from <? last_ok then ((compact (persist_committed q last_ok)).1, sk, applied)
  else (q, sk, applied).

(** The same, step by step: a drain reads the operations, applies them one at a
    time, stores the cursor, and trims.  The process may accept operations, or
    stop for good, between any two steps. *)
Inductive phase :=
  | Idle
  | Applying (ops : list (Z * IngestOp V)) (last_ok : Z)
  | Trimming.

Definition begin_drain q (limit : nat) : phase :=
  Applying (read_uncommitted q (committed q) limit) (committed q).

Definition drain_step (st : t * phase * Sk) : t * phase * Sk :=
  let '(q, ph, sk) := st in
  match ph with
  | Idle => st
  | Applying [] last_ok =>
      if committed q <? last_ok then (persist_committed q last_ok, Trimming, sk) else (q, Idle, sk)
  | Applying ((seq, op) :: ops) last_ok =>
      let '(sk', okay) := apply op sk in
      if okay : bool then (q, Applying ops seq, sk') else (q, Applying [] last_ok, sk')
  | Trimming => ((compact q).1, Idle, sk)
  end.

End queue.

Arguments t : clear implicits.
Arguments phase : clear implicits.
Arguments Idle {_}.
Arguments Applying {_} _ _.
Arguments Trimming {_}.

(** ** The cluster is a sink *)

Section cluster_sink.
Context {V St : Type} `{!IndexStore V St, !JsonValue V, !LeaseCodec V, !HashIter, !Env}.

Definition apply_op (cl : Cluster.t) (op : IngestOp V) (w : world St) : world St * bool :=
  match op with
  | Put coll key value => ((Cluster.put cl coll key value w).1, true)
  | SetAdd coll key member => ((Cluster.set_add cl coll key member w).1, true)
  | SetRemove coll key member => ((Cluster.set_remove cl coll key member w).1, true)
  | Delete coll key => ((Cluster.delete_ cl coll key w).1, true)
  end.

End cluster_sink.

(** ** What the queue holds *)

Section theorems.
Context {V D : Type} `{!IngestCodec V, !IngestCodecLaws V, !KvDb D, !KvDbLaws D}.
Implicit Types (q : t D) (l : list (Z * IngestOp V)).

Definition encode : Z * IngestOp V → Z * string := λ '(s, o), (s, op_to_string o).

(** The queue holds the accepted operations [l]; the counters agree with disk. *)
Record holds q l : Prop := {
  h_log : log_rep (queue q) (map encode l);
  h_next : ∀ s o, (s, o) ∈ l → 0 < s < next q;
  h_range : 0 < next q ∧ next q + 1 < u64_modulus;
  h_comm : 0 ≤ committed q < next q;
  h_meta : default 0 (db_get (meta q) COMMITTED ≫= parse_u64) = committed q;
  h_last : match list.last l with Some (s, _) => s | None => committed q end = next q - 1;
}.

(** Accepted and not yet applied. *)
Definition waiting q l : list (Z * IngestOp V) := filter (λ x, committed q < x.1) l.

Lemma encode_key l : map key_of (map encode l) = map (λ '(s, o), (padded_key s, op_to_string o)) l.
Proof. rewrite map_map. apply map_ext. by intros []. Qed.

Lemma ascending_decoded l : ascending (map encode l) → ∀ s o, (s, o) ∈ l → is_u64 s.
Proof.
  intros [_ Hu] s o Hin. apply (Hu s (op_to_string o)). apply list_elem_of_fmap. by exists (s, o).
Qed.

Lemma read_loop_spec from limit l out :
  (∀ s o, (s, o) ∈ l → is_u64 s) → (length out < limit `max` 1)%nat →
  read_loop from limit (map (λ '(s, o), (padded_key s, op_to_string o)) l) out
  = take (limit `max` 1) (out ++ filter (λ x, from < x.1) l).
Proof.
  revert out. induction l as [|[s o] l IH]; intros out Hu Hout.
  { cbn. rewrite app_nil_r, take_ge by lia. done. }
  assert (Hu' : ∀ s o, (s, o) ∈ l → is_u64 s) by (intros; eapply Hu; by right).
  cbn [map read_loop]. rewrite padded_key_roundtrip by (eapply Hu; left).
  rewrite filter_cons. cbn [fst]. destruct (Z.ltb_spec from s) as [Hlt|Hge];
    [rewrite decide_True by done|rewrite decide_False by lia; by apply IH].
  rewrite op_roundtrip. destruct (Nat.leb_spec limit (length (out ++ [(s, o)]))) as [Hfull|Hmore].
  - rewrite (cons_middle (s, o) out (filter _ l)), app_assoc, take_app_length'; [done|].
    rewrite length_app in *. cbn in *. lia.
  - rewrite IH; [by rewrite <-app_assoc|done|]. rewrite length_app in *. cbn in *. lia.
Qed.

Lemma read_uncommitted_spec q l limit :
  holds q l → read_uncommitted q (committed q) limit = take (limit `max` 1) (waiting q l).
Proof.
  intros Hh. unfold read_uncommitted. destruct (h_log _ _ Hh) as [Ha Hi].
  rewrite Hi, encode_key, read_loop_spec; [done|by apply ascending_decoded|cbn; lia].
Qed.

Lemma holds_enqueue q l op :
  holds q l → next q + 2 < u64_modulus →
  holds (enqueue q op).1 (l ++ [(next q, op)]) ∧ (enqueue q op).2 = next q.
Proof.
  intros [Hlog Hn [Hn0 Hn1] Hc Hm _] Hroom. split; [|done].
  unfold enqueue. cbn [fst]. split; cbn [queue meta next committed].
  - rewrite map_app. apply (log_rep_put (queue q)); [done|unfold is_u64; lia|].
    intros s v Hin. apply list_elem_of_fmap in Hin as ([s' o] & [= -> ->] & Hin).
    apply Hn in Hin. lia.
  - rewrite u64_add_small by lia. intros s o [Hin|[= -> ->]%list_elem_of_singleton]%elem_of_app; [|lia].
    apply Hn in Hin. lia.
  - rewrite u64_add_small by lia. lia.
  - rewrite u64_add_small by lia. lia.
  - done.
  - rewrite last_snoc, u64_add_small by lia. lia.
Qed.

Lemma holds_persist q l seq :
  holds q l → committed q ≤ seq < next q → holds (persist_committed q seq) l.
Proof.
  intros [Hlog Hn Hr Hc Hm Hla] Hs. split; cbn [queue meta next committed persist_committed]; try done.
  - lia.
  - rewrite db_get_put, decide_True by done. cbn [mbind option_bind default from_option].
    by rewrite u64_string_roundtrip by (unfold is_u64; lia).
  - destruct (list.last l) as [[s o]|]; [done|]. lia.
Qed.

Lemma encode_filter (p : Z → bool) l :
  filter (λ x, p x.1 = false) (map encode l) = map encode (filter (λ x, p x.1 = false) l).
Proof.
  induction l as [|[s o] l IH]; [done|]. cbn [map]. rewrite !filter_cons. cbn [encode fst].
  destruct (p s); [by rewrite !decide_False|]. rewrite !decide_True by done. cbn. by rewrite IH.
Qed.

(** Compaction leaves the last accepted number on disk, or the cursor is at it. *)
Lemma last_waiting q l :
  holds q l →
  match list.last (waiting q l) with Some (s, _) => s | None => committed q end = next q - 1.
Proof.
  intros [_ Hn _ Hc _ Hla]. unfold waiting.
  destruct (list.last l) as [[s o]|] eqn:Hl; [|by apply last_None in Hl as ->].
  apply last_Some in Hl as [l' ->]. rewrite filter_app, filter_cons, filter_nil.
  cbn [fst].
  case_decide as Hs; [by rewrite last_snoc|]. rewrite app_nil_r.
  destruct (list.last (filter _ l')) as [[s' o']|] eqn:Hl'; [|lia].
  apply last_Some_elem_of, list_elem_of_filter in Hl' as [Hgt Hin]. cbn in Hgt.
  specialize (Hn s' o' ltac:(set_solver)). lia.
Qed.

Lemma holds_compact q l :
  holds q l → holds (compact q).1 (waiting q l).
Proof.
  intros Hh. pose proof Hh as [Hlog Hn Hr Hc Hm _]. pose proof (last_waiting q l Hh) as Hla.
  unfold compact, waiting in *.
  destruct (Z.eqb_spec (committed q) 0) as [Hz|Hz].
  { rewrite filter_all; [done|]. intros [s o] Hin. cbn. apply Hn in Hin. lia. }
  destruct (trim_spec _ _ (λ seq, seq <=? committed q) Hlog) as [Htrim _].
  { intros s s' Hle. rewrite !Z.leb_le. lia. }
  assert (Hf : filter (λ x, committed q < x.1) l = filter (λ x, (x.1 <=? committed q) = false) l).
  { apply filter_ext_in. intros x _. rewrite Z.leb_gt. done. }
  rewrite (encode_filter (λ seq, seq <=? committed q)) in Htrim. cbn beta in Htrim. rewrite <-Hf in Htrim.
  set (ks := leading_keys _ _) in *. case_decide as Hks.
  - rewrite Hks in Htrim. cbn in Htrim. split; try done.
    intros s o [_ Hin]%list_elem_of_filter. by eapply Hn.
  - destruct (delete_keys (queue q) ks) as [qdb removed]. cbn [fst] in *. split; try done.
    intros s o [_ Hin]%list_elem_of_filter. by eapply Hn.
Qed.

(** *** Draining *)

Lemma committed_compact q : committed (compact q).1 = committed q.
Proof. unfold compact. destruct (_ =? 0); [done|]. case_decide; [done|]. by destruct (delete_keys _ _). Qed.

Lemma next_compact q : next (compact q).1 = next q.
Proof. unfold compact. destruct (_ =? 0); [done|]. case_decide; [done|]. by destruct (delete_keys _ _). Qed.

(** Trimming removes nothing that waits. *)
Lemma waiting_compact q l : waiting (compact q).1 (waiting q l) = waiting q l.
Proof.
  unfold waiting. rewrite committed_compact, list_filter_filter. apply filter_ext_in. intros x _. tauto.
Qed.

Section drain.
Context {Sk : Type} (apply : IngestOp V → Sk → Sk * bool).

(** An uninterrupted drain is its steps. *)
Lemma apply_loop_steps q ops : ∀ sk last n,
  let '(sk', last', _) := apply_loop apply ops sk last n in
  ∃ k, Nat.iter k (drain_step apply) (q, Applying ops last, sk) = (q, Applying [] last', sk').
Proof.
  induction ops as [|[s op] ops IH]; intros sk last n; [by exists O|]. cbn [apply_loop].
  destruct (apply op sk) as [sk1 okay] eqn:Ha. destruct okay.
  - specialize (IH sk1 s (S n)). destruct (apply_loop apply ops sk1 s (S n)) as [[sk' last'] n'].
    destruct IH as [k Hk]. exists (S k). rewrite Nat.iter_succ_r. cbn [drain_step]. by rewrite Ha.
  - exists 1%nat. cbn. by rewrite Ha.
Qed.

Lemma drain_steps q limit sk :
  let '(q', sk', _) := drain apply q limit sk in
  ∃ k, Nat.iter k (drain_step apply) (q, begin_drain q limit, sk) = (q', Idle, sk').
Proof.
  unfold drain, begin_drain.
  pose proof (apply_loop_steps q (read_uncommitted q (committed q) limit) sk (committed q) 0) as Hk.
  destruct (apply_loop apply _ sk (committed q) 0) as [[sk' last'] n]. destruct Hk as [k Hk].
  destruct (committed q <? last') eqn:Hlt.
  - exists (S (S k)). rewrite !Nat.iter_succ, Hk. cbn [drain_step]. by rewrite Hlt.
  - exists (S k). rewrite !Nat.iter_succ, Hk. cbn [drain_step]. by rewrite Hlt.
Qed.

Lemma step_next st : next (drain_step apply st).1.1 = next st.1.1.
Proof.
  destruct st as [[q [|[|[s op] ops] last|]] sk]; cbn [drain_step]; [done|by case_match| |apply next_compact].
  destruct (apply op sk) as [sk' []]; done.
Qed.

(** The sink after the operations of [xs], all of which succeeded. *)
Fixpoint applied_all (xs : list (Z * IngestOp V)) (sk sk' : Sk) : Prop :=
  match xs with
  | [] => sk = sk'
  | (_, op) :: xs' => ∃ sk1, apply op sk = (sk1, true) ∧ applied_all xs' sk1 sk'
  end.

(** [xs] succeed in order; then either nothing is left of [ys], or its first
    operation fails. *)
Lemma apply_loop_spec ops sk last n sk' last' n' :
  apply_loop apply ops sk last n = (sk', last', n') →
  ∃ xs ys sk1, ops = xs ++ ys ∧ applied_all xs sk sk1 ∧ n' = (n + length xs)%nat
    ∧ last' = match list.last xs with Some (s, _) => s | None => last end
    ∧ match ys with [] => sk' = sk1 | (_, op) :: _ => apply op sk1 = (sk', false) end.
Proof.
  revert sk last n. induction ops as [|[s op] ops IH]; intros sk last n; cbn [apply_loop].
  { intros [= <- <- <-]. exists [], [], sk. by rewrite Nat.add_0_r. }
  destruct (apply op sk) as [sk1 okay] eqn:Ha. destruct okay.
  - intros (xs & ys & sk2 & -> & Hx & -> & -> & Hy)%IH. exists ((s, op) :: xs), ys, sk2.
    split_and!; [done|by exists sk1|cbn; lia| |done].
    rewrite last_cons. by destruct (list.last xs).
  - intros [= <- <- <-]. exists [], ((s, op) :: ops), sk. by rewrite Nat.add_0_r.
Qed.

Lemma waiting_sorted q l : holds q l → StronglySorted (λ a b : Z * IngestOp V, a.1 < b.1) (waiting q l).
Proof.
  intros Hh. destruct (h_log _ _ Hh) as [[Hs _] _]. apply StronglySorted_filter. clear -Hs.
  induction l as [|[s o] l IH]; [constructor|]. cbn in Hs.
  apply StronglySorted_inv in Hs as [Hs Hall]. constructor; [by apply IH|].
  apply Forall_forall. intros [s' o'] Hin. 
  rewrite Forall_forall in Hall. apply (Hall (s', op_to_string o')).
  apply list_elem_of_fmap. by exists (s', o').
Qed.

(** Advancing the cursor to the last of a prefix of the waiting operations
    leaves the rest waiting. *)
Lemma waiting_rest q l xs ys s o :
  holds q l → waiting q l = xs ++ ys → list.last xs = Some (s, o) →
  filter (λ x, s < x.1) l = ys ∧ committed q < s < next q.
Proof.
  intros Hh Hw Hlast. pose proof (waiting_sorted q l Hh) as Hs. rewrite Hw in Hs.
  assert (Hin : (s, o) ∈ xs) by (by apply last_Some_elem_of).
  assert (Hsw : (s, o) ∈ waiting q l) by (rewrite Hw; set_solver).
  apply list_elem_of_filter in Hsw as [Hc Hl]. cbn in Hc.
  pose proof (h_next _ _ Hh s o Hl) as [_ Hn]. split; [|lia].
  assert (filter (λ x, s < x.1) l = filter (λ x, s < x.1) (waiting q l)) as ->.
  { unfold waiting. rewrite list_filter_filter. apply filter_ext_in. intros x _. lia. }
  rewrite Hw, filter_app, filter_none, filter_all; [done| |].
  - intros y Hy. by apply (StronglySorted_app_1_elem_of _ xs ys (s, o) y Hs).
  - intros y Hy. apply last_Some in Hlast as [xs' ->].
    apply StronglySorted_app_1_l in Hs. apply elem_of_app in Hy as [Hy|Hy].
    + apply (StronglySorted_app_1_elem_of _ xs' [(s, o)] y (s, o)) in Hs; [|done|left].
      cbn in Hs. lia.
    + apply list_elem_of_singleton in Hy. subst y. cbn. lia.
Qed.

(** Draining applies a prefix of the waiting operations, in order, up to the
    limit or the first failure; exactly the rest stays waiting. *)
Lemma drain_prefix q l limit sk q' sk' n :
  holds q l → drain apply q limit sk = (q', sk', n) →
  ∃ xs ys sk1,
    waiting q l = xs ++ ys ∧ applied_all xs sk sk1 ∧ n = length xs
    ∧ (length xs ≤ limit `max` 1)%nat
    ∧ (ys = [] ∧ sk' = sk1 ∨ length xs = (limit `max` 1)%nat ∧ sk' = sk1
       ∨ ∃ x ys', ys = x :: ys' ∧ apply x.2 sk1 = (sk', false))
    ∧ (∃ l', holds q' l' ∧ waiting q' l' = ys).
Proof.
  intros Hh. unfold drain. rewrite (read_uncommitted_spec q l) by done.
  set (W := waiting q l). destruct (apply_loop apply (take (limit `max` 1) W) sk (committed q) 0)
    as [[sk2 last'] n'] eqn:Hloop.
  apply apply_loop_spec in Hloop as (xs & ys & sk1 & Htake & Hall & -> & -> & Hy).
  assert (HW : W = xs ++ (ys ++ drop (limit `max` 1) W)).
  { by rewrite app_assoc, <-Htake, take_drop. }
  assert (Hlen : (length xs ≤ limit `max` 1)%nat).
  { pose proof (length_take W (limit `max` 1)) as Hl. rewrite Htake, length_app in Hl. lia. }
  intros Hd. exists xs, (ys ++ drop (limit `max` 1) W), sk1.
  assert (Hq : ∃ l', holds q' l' ∧ waiting q' l' = ys ++ drop (limit `max` 1) W).
  { destruct (list.last xs) as [[s o]|] eqn:Hlast.
    - destruct (waiting_rest q l xs _ s o Hh HW Hlast) as [Hrest Hs].
      rewrite (proj2 (Z.ltb_lt _ _)) in Hd by lia. injection Hd as <- _ _.
      exists (waiting (persist_committed q s) l).
      assert (Hp : holds (persist_committed q s) l) by (apply holds_persist; [done|lia]).
      split; [by apply holds_compact|]. rewrite waiting_compact. exact Hrest.
    - apply last_None in Hlast as ->. rewrite Z.ltb_irrefl in Hd. injection Hd as <- _ _.
      exists l. by split. }
  assert (Hsk : sk' = sk2 ∧ n = length xs).
  { destruct (_ <? _) in Hd; injection Hd as _ <- <-; done. }
  destruct Hsk as [-> ->]. split_and!; try done.
  destruct ys as [|x ys]; [|right; right; exists x, (ys ++ drop (limit `max` 1) W); split; [done|by destruct x]].
  cbn [app] in *. rewrite app_nil_r in Htake.
  destruct (decide (length W ≤ limit `max` 1)%nat) as [Hle|Hgt].
  - left. by rewrite drop_ge.
  - right. left. split; [|done]. rewrite <-Htake, length_take. lia.
Qed.

Lemma drain_next q limit sk q' sk' n : drain apply q limit sk = (q', sk', n) → next q' = next q.
Proof.
  unfold drain. destruct (apply_loop _ _ _ _ _) as [[sk1 s] m].
  destruct (_ <? _); intros [= <- _ _]; [|done]. by rewrite next_compact.
Qed.

End drain.

(** A new operation waits after the others. *)
Lemma waiting_enqueue q l op :
  holds q l → waiting (enqueue q op).1 (l ++ [(next q, op)]) = waiting q l ++ [(next q, op)].
Proof.
  intros Hh. unfold waiting. rewrite filter_app. cbn [committed enqueue fst]. f_equal.
  rewrite filter_all; [done|]. intros x ->%list_elem_of_singleton. cbn. apply (h_comm _ _ Hh).
Qed.

(** *** Restarts *)

Definition reopen q : t D := open (queue q) (meta q).

Lemma holds_open : holds (open db_empty db_empty) [].
Proof.
  unfold open. rewrite (last_seq_spec _ [] log_rep_empty). rewrite db_get_empty.
  split; cbn [queue meta next committed]; try done.
  - apply log_rep_empty.
  - by intros s o Hin%elem_of_nil.
  - by rewrite db_get_empty.
Qed.

Lemma last_encode l :
  match list.last (map encode l) with Some (s, _) => s | None => 0 end
  = match list.last l with Some (s, _) => s | None => 0 end.
Proof. rewrite fmap_last. by destruct (list.last l) as [[]|]. Qed.

(** Opening recovers both counters while the last accepted entry is on disk. *)
Lemma reopen_same q l : holds q l → l ≠ [] → reopen q = q.
Proof.
  intros Hh Hl. pose proof Hh as [Hlog Hn Hr _ Hm Hla].
  unfold reopen, open. rewrite (last_seq_spec _ _ Hlog), last_encode, Hm.
  destruct (list.last l) as [[s o]|] eqn:E; [|by apply last_None in E].
  rewrite Hla, u64_add_small by lia. destruct q; cbn. f_equal. lia.
Qed.

(** Nothing on disk: the numbering starts again. *)
Lemma reopen_empty q : holds q [] → reopen q = mk (queue q) (meta q) 1 (committed q).
Proof.
  intros [Hlog _ _ _ Hm _]. unfold reopen, open.
  rewrite (last_seq_spec _ _ Hlog), last_encode, Hm. done.
Qed.

(** *** Sessions *)

(** A process that accepts operations and drains, one step of the drain at a
    time; it may stop between any two steps, and reopen the directory. *)
Inductive event :=
  | Accept (op : IngestOp V)
  | Begin (limit : nat)
  | Step
  | Restart.

(** A sink that records what it applies and refuses what [accepts] refuses. *)
Definition record (accepts : list (IngestOp V) → IngestOp V → bool) (op : IngestOp V)
    (log : list (IngestOp V)) : list (IngestOp V) * bool :=
  if accepts log op then (log ++ [op], true) else (log, false).

(** The queue, the drain under way, the sink's log. *)
Definition process : Type := t D * phase V * list (IngestOp V).

Definition run_event accepts (st : process) (e : event) : process :=
  let '(q, ph, log) := st in
  match e with
  | Accept op => ((enqueue q op).1, ph, log)
  | Begin limit => (q, match ph with Idle => begin_drain q limit | _ => ph end, log)
  | Step => drain_step (record accepts) st
  | Restart => (reopen q, Idle, log)
  end.

Definition run accepts (evs : list event) (st : process) : process := foldl (run_event accepts) st evs.

(** Restarts find an operation in the queue's database. *)
Definition stocked q : bool := match db_iter (queue q) with [] => false | _ => true end.

Fixpoint restarts_stocked accepts (evs : list event) (st : process) : bool :=
  match evs with
  | [] => true
  | e :: evs' =>
      match e with Restart => stocked st.1.1 | _ => true end
      && restarts_stocked accepts evs' (run_event accepts st e)
  end.

(** Some restart interrupts a drain. *)
Fixpoint interrupted accepts (evs : list event) (st : process) : bool :=
  match evs with
  | [] => false
  | e :: evs' =>
      match e, st.1.2 with Restart, Idle => false | Restart, _ => true | _, _ => false end
      || interrupted accepts evs' (run_event accepts st e)
  end.

Definition accepted (evs : list event) : list (IngestOp V) :=
  omap (λ e, match e with Accept op => Some op | _ => None end) evs.

(** What a sink gets that is served the operations [acc] from a cursor [c]: the
    next one after the [p] applied since the cursor was stored, the cursor moved
    past those, or, after an interruption ([b]), everything from the cursor
    again. *)
Inductive delivered (acc : list (IngestOp V)) : bool → nat → nat → list (IngestOp V) → Prop :=
  | delivered_start b : delivered acc b 0 0 []
  | delivered_apply b c p log op :
      delivered acc b c p log → acc !! (c + p)%nat = Some op → delivered acc b c (S p) (log ++ [op])
  | delivered_commit b c p log : delivered acc b c p log → delivered acc b (c + p) 0 log
  | delivered_again b c p log : delivered acc b c p log → delivered acc true c 0 log.

Lemma delivered_more acc acc' b c p log : delivered acc b c p log → delivered (acc ++ acc') b c p log.
Proof.
  induction 1; [constructor|constructor; [done|by apply lookup_app_l_Some]|by constructor|by econstructor].
Qed.

Lemma take_more (acc : list (IngestOp V)) n op : acc !! n = Some op → take (S n) acc = take n acc ++ [op].
Proof. apply take_S_r. Qed.

(** Without interruptions, each operation once. *)
Lemma delivered_exactly acc c p log : delivered acc false c p log → log = take (c + p) acc.
Proof.
  remember false as b eqn:Hb. induction 1 as [|b c p log op _ IH Hop|b c p log _ IH|]; [done|..|done].
  - rewrite IH, Nat.add_succ_r, (take_more _ _ op) by done. done.
  - rewrite Nat.add_0_r. by apply IH.
Qed.

(** In any case all of them up to the cursor, in order, and nothing else. *)
Lemma delivered_least acc b c p log :
  delivered acc b c p log →
  ∃ log1, log = log1 ++ drop c (take (c + p) acc) ∧ take c acc `sublist_of` log1
    ∧ (c + p ≤ length acc)%nat ∧ ∀ op, op ∈ log → op ∈ acc.
Proof.
  induction 1 as [b|b c p log op _ (log1 & -> & Hs & Hle & Hin) Hop
    |b c p log _ (log1 & -> & Hs & Hle & Hin)|b c p log _ (log1 & -> & Hs & Hle & Hin)].
  - exists []. split; [done|]. split; [done|]. split; [lia|]. by intros op ?%elem_of_nil.
  - exists log1. pose proof (lookup_lt_Some _ _ _ Hop) as Hlt. split; [|split; [done|split; [lia|]]].
    + rewrite Nat.add_succ_r, (take_more _ _ op) by done.
      rewrite drop_app_le by (rewrite length_take; lia). by rewrite app_assoc.
    + intros o [Ho| ->%list_elem_of_singleton]%elem_of_app; [by apply Hin|]. by eapply list_elem_of_lookup_2.
  - exists (log1 ++ drop c (take (c + p) acc)). rewrite Nat.add_0_r, (drop_ge (take (c + p) acc) (c + p)) by (rewrite length_take; lia).
    rewrite app_nil_r. split; [done|]. split; [|split; [lia|done]].
    rewrite <-(take_drop c (take (c + p) acc)) at 1. rewrite take_take, Nat.min_l by lia.
    by apply sublist_app.
  - exists (log1 ++ drop c (take (c + p) acc)). rewrite Nat.add_0_r, (drop_ge (take c acc) c) by (rewrite length_take; lia).
    rewrite app_nil_r. split; [done|]. split; [|split; [lia|done]]. by apply sublist_inserts_r.
Qed.

(** Where a drain stands: it has applied [p] operations since the cursor. *)
Definition under_way q l (ph : phase V) (p : nat) : Prop :=
  match ph with
  | Idle | Trimming => p = O
  | Applying ops last_ok => ∃ xs rest, waiting q l = xs ++ ops ++ rest ∧ p = length xs
      ∧ last_ok = match list.last xs with Some (s, _) => s | None => committed q end
  end.

Definition session_inv (acc : list (IngestOp V)) (b : bool) (st : process) : Prop :=
  let '(q, ph, log) := st in
  ∃ l done p, holds q l ∧ acc = done ++ map snd (waiting q l) ∧ under_way q l ph p
    ∧ delivered acc b (length done) p log.

Lemma accept_inv acc b q ph log op :
  session_inv acc b (q, ph, log) → next q + 2 < u64_modulus →
  session_inv (acc ++ [op]) b ((enqueue q op).1, ph, log).
Proof.
  intros (l & done & p & Hh & -> & Hw & Hd) Hroom.
  destruct (holds_enqueue q l op Hh Hroom) as [He _].
  exists (l ++ [(next q, op)]), done, p. rewrite waiting_enqueue, map_app, app_assoc by done.
  split; [done|]. split; [done|]. split; [|by apply delivered_more].
  destruct ph as [|ops last_ok|]; [done| |done]. destruct Hw as (xs & rest & Hwt & -> & ->).
  exists xs, (rest ++ [(next q, op)]). rewrite waiting_enqueue, Hwt, <-!app_assoc by done. done.
Qed.

Lemma begin_inv acc b q log limit :
  session_inv acc b (q, Idle, log) → session_inv acc b (q, begin_drain q limit, log).
Proof.
  intros (l & done & p & Hh & -> & -> & Hd). exists l, done, O. split; [done|]. split; [done|].
  split; [|done]. unfold begin_drain. rewrite (read_uncommitted_spec q l) by done.
  exists [], (drop (limit `max` 1) (waiting q l)). by rewrite take_drop.
Qed.

Lemma apply_inv accepts acc b q x ops last_ok log :
  session_inv acc b (q, Applying (x :: ops) last_ok, log) →
  session_inv acc b (drain_step (record accepts) (q, Applying (x :: ops) last_ok, log)).
Proof.
  intros (l & done & p & Hh & Hacc & (xs & rest & Hw & -> & ->) & Hd). destruct x as [s op].
  cbn [drain_step]. unfold record. destruct (accepts log op).
  - exists l, done, (S (length xs)). split; [done|]. split; [done|]. split.
    + exists (xs ++ [(s, op)]), rest. rewrite last_snoc, length_app. cbn.
      split; [by rewrite Hw, <-app_assoc|]. split; [lia|done].
    + apply delivered_apply; [done|]. rewrite Hacc, Hw, !map_app.
      rewrite lookup_app_r, Nat.add_comm, Nat.add_sub by lia.
      rewrite lookup_app_r, length_map, Nat.sub_diag by (rewrite length_map; lia). done.
  - exists l, done, (length xs). split; [done|]. split; [done|]. split; [|done].
    by exists xs, ((s, op) :: ops ++ rest).
Qed.

Lemma persist_inv accepts acc b q last_ok log :
  session_inv acc b (q, Applying [] last_ok, log) →
  session_inv acc b (drain_step (record accepts) (q, Applying [] last_ok, log)).
Proof.
  intros (l & done & p & Hh & Hacc & (xs & rest & Hw & -> & ->) & Hd). cbn [drain_step].
  destruct (list.last xs) as [[s o]|] eqn:Hlast.
  - destruct (waiting_rest (record accepts) q l xs _ s o Hh Hw Hlast) as [Hrest Hs].
    rewrite (proj2 (Z.ltb_lt _ _)) by lia. exists l, (done ++ map snd xs), O.
    split; [apply holds_persist; [done|lia]|].
    assert (waiting (persist_committed q s) l = rest) as -> by exact Hrest.
    split; [by rewrite Hacc, Hw, map_app, app_assoc|]. split; [done|].
    rewrite length_app, length_map. by apply delivered_commit.
  - apply last_None in Hlast as ->. rewrite Z.ltb_irrefl. by exists l, done, O.
Qed.

Lemma trim_inv accepts acc b q log :
  session_inv acc b (q, Trimming, log) →
  session_inv acc b (drain_step (record accepts) (q, Trimming, log)).
Proof.
  intros (l & done & p & Hh & Hacc & -> & Hd). exists (waiting q l), done, O.
  split; [by apply holds_compact|]. by rewrite waiting_compact.
Qed.

Lemma drain_step_inv accepts acc b st : session_inv acc b st → session_inv acc b (drain_step (record accepts) st).
Proof.
  destruct st as [[q [|[|x ops] last_ok|]] log]; [done|apply persist_inv|apply apply_inv|apply trim_inv].
Qed.

Lemma restart_inv acc b q ph log :
  session_inv acc b (q, ph, log) → stocked q = true →
  session_inv acc (b || match ph with Idle => false | _ => true end) (reopen q, Idle, log).
Proof.
  intros (l & done & p & Hh & Hacc & Hw & Hd) Hs.
  assert (l ≠ []) as Hl.
  { intros ->. destruct (h_log _ _ Hh) as [_ Hi]. unfold stocked in Hs. by rewrite Hi in Hs. }
  rewrite (reopen_same q l Hh Hl). exists l, done, O. split; [done|]. split; [done|]. split; [done|].
  destruct ph; [|by rewrite orb_true_r; eapply delivered_again..].
  rewrite orb_false_r. cbn in Hw. by subst p.
Qed.

Lemma run_inv accepts evs : ∀ acc b st,
  session_inv acc b st → next st.1.1 + Z.of_nat (length evs) + 1 < u64_modulus →
  restarts_stocked accepts evs st = true →
  session_inv (acc ++ accepted evs) (b || interrupted accepts evs st) (run accepts evs st).
Proof.
  induction evs as [|e evs IH]; intros acc b [[q ph] log] Hs Hroom Hr.
  { cbn. by rewrite app_nil_r, orb_false_r. }
  cbn [restarts_stocked interrupted length fst snd] in *. apply andb_true_iff in Hr as [Hre Hr].
  change (run accepts (e :: evs) (q, ph, log)) with (run accepts evs (run_event accepts (q, ph, log) e)).
  destruct e as [op|limit| |].
  - assert (Hnext : next (enqueue q op).1 = next q + 1).
    { destruct Hs as (l & ? & ? & Hh & _). cbn. apply u64_add_small; pose proof (h_range _ _ Hh); lia. }
    change (accepted (Accept op :: evs)) with (op :: accepted evs). rewrite cons_middle, app_assoc.
    apply IH; [apply accept_inv; [done|lia]|cbn [run_event fst] in *; lia|done].
  - apply IH; [|cbn [run_event fst]; lia|done]. cbn [run_event]. destruct ph; [by apply begin_inv|done..].
  - apply IH; [by apply drain_step_inv| |done]. cbn [run_event]. rewrite step_next. cbn [fst]. lia.
  - destruct (restart_inv acc b q ph log Hs Hre) as (l & dn & p & Hh & Hi).
    replace (b || (match ph with Idle => false | _ => true end || interrupted accepts evs _))
      with ((b || match ph with Idle => false | _ => true end)
            || interrupted accepts evs (reopen q, Idle, log)) by (by rewrite orb_assoc).
    apply IH; [by exists l, dn, p| |done]. cbn [run_event fst]. destruct Hs as (l0 & ? & ? & Hh0 & _).
    assert (l0 ≠ []) as Hl.
    { intros ->. destruct (h_log _ _ Hh0) as [_ Hi0]. unfold stocked in Hre. by rewrite Hi0 in Hre. }
    rewrite (reopen_same q l0 Hh0 Hl). lia.
Qed.

(** C26. Accepted writes are delivered in order, at least once.  Start from an
    empty directory and take any sequence of accepts, drains (whatever the sink
    refuses, and whatever the limits) and restarts, where a drain goes step by
    step (apply one operation, store the cursor, trim) and accepts and restarts
    may come between any two steps, as long as every restart finds something in
    the queue's database.  The accepted operations are, in acceptance order, those
    up to the cursor and those still queued; the sink has received all of the
    former in that order, and nothing that was not accepted.  If no restart
    interrupts a drain it has received each exactly once: those up to the cursor,
    and the [p] that the drain under way has applied ([p = 0] between drains). *)
Theorem session_delivers accepts evs q ph log :
  let start := (open db_empty db_empty, Idle, []) in
  Z.of_nat (length evs) + 2 < u64_modulus →
  restarts_stocked accepts evs start = true →
  run accepts evs start = (q, ph, log) →
  ∃ l done p, holds q l ∧ accepted evs = done ++ map snd (waiting q l)
    ∧ done `sublist_of` log ∧ (∀ op, op ∈ log → op ∈ accepted evs)
    ∧ (interrupted accepts evs start = false →
         log = done ++ take p (map snd (waiting q l)) ∧ (ph = Idle → p = O)).
Proof.
  intros start Hroom Hr Hrun.
  assert (Hn : next (open db_empty db_empty : t D) = 1).
  { unfold open. by rewrite (last_seq_spec _ [] log_rep_empty). }
  assert (H0 : session_inv [] false start).
  { exists [], [], O. split; [apply holds_open|]. repeat split; constructor. }
  pose proof (run_inv accepts evs [] false start H0 ltac:(cbn [start fst]; lia) Hr) as Hs.
  rewrite Hrun in Hs. destruct Hs as (l & done & p & Hh & Hacc & Hw & Hd). cbn [app orb] in Hacc, Hd.
  exists l, done, p. split; [done|]. split; [done|].
  destruct (delivered_least _ _ _ _ _ Hd) as (log1 & Hlog & Hsub & _ & Hin).
  assert (take (length done) (accepted evs) = done) as Ht by (by rewrite Hacc, take_app_length).
  rewrite Ht in Hsub. split; [rewrite Hlog; by apply sublist_inserts_r|]. split; [done|]. intros Hi.
  rewrite Hi in Hd. apply delivered_exactly in Hd as ->. split; [|intros ->; done].
  rewrite Hacc. apply take_app_add.
Qed.

(** An interrupted drain repeats what it had applied: here one operation, lost
    the cursor after it, reaches the sink twice. *)
Lemma interrupted_drain_repeats q l s op limit log :
  holds q l → waiting q l = [(s, op)] →
  (run (λ _ _, true) [Begin limit; Step; Restart; Begin limit; Step] (q, Idle, log)).2 = log ++ [op; op].
Proof.
  intros Hh Hw. assert (Hl : l ≠ []) by (intros ->; discriminate Hw).
  assert (Hb : begin_drain q limit = Applying [(s, op)] (committed q)).
  { unfold begin_drain. rewrite (read_uncommitted_spec q l), Hw by done. f_equal.
    rewrite take_ge; [done|]. cbn. lia. }
  assert (Hrun : ∀ lg, run (λ _ _, true) [Begin limit; Step; Restart] (q, Idle, lg)
    = (reopen q, Idle, lg ++ [op])).
  { intros lg. unfold run. cbn [foldl run_event]. by rewrite Hb. }
  change (run (λ _ _, true) [Begin limit; Step; Restart; Begin limit; Step] (q, Idle, log))
    with (run (λ _ _, true) [Begin limit; Step] (run (λ _ _, true) [Begin limit; Step; Restart] (q, Idle, log))).
  rewrite Hrun, (reopen_same q l Hh Hl). unfold run. cbn [foldl run_event]. rewrite Hb.
  cbn [drain_step record snd]. by rewrite <-app_assoc.
Qed.

(** C37. After a restart of a drained queue, accepted writes are lost: once every
    accepted operation has been applied and trimmed, opening the directory again
    numbers new operations from 1, below the durable cursor, so an acknowledged
    write is not pending and no drain ever applies it, whatever the sink. *)
Theorem reopen_loses_writes q op limit {Sk} (apply : IngestOp V → Sk → Sk * bool) sk :
  holds q [] → 0 < committed q →
  let q1 := (enqueue (reopen q) op).1 in
  (enqueue (reopen q) op).2 = 1 ∧ pending q1 = 0 ∧ drain apply q1 limit sk = (q1, sk, O).
Proof.
  intros Hh Hc. rewrite (reopen_empty q Hh). cbn [enqueue fst snd next].
  set (q1 := mk _ _ _ _). pose proof Hh as [Hlog _ Hr Hcn _ _].
  split; [done|]. split.
  { unfold pending, latest_seq, saturating_sub. subst q1. cbn [next committed].
    rewrite u64_add_small by lia. lia. }
  assert (Hread : read_uncommitted q1 (committed q1) limit = []).
  { assert (Hlog1 : log_rep (queue q1) (map encode [(1, op)])).
    { apply (log_rep_put (queue q) [] 1 (op_to_string op)); [done|unfold is_u64; lia|].
      by intros s v Hin%elem_of_nil. }
    destruct Hlog1 as [Ha Hi]. unfold read_uncommitted.
    rewrite Hi, encode_key, read_loop_spec; [|by apply ascending_decoded|cbn; lia].
    rewrite filter_none; [apply take_nil|]. intros x ->%list_elem_of_singleton.
    subst q1. cbn. lia. }
  unfold drain. rewrite Hread. cbn [apply_loop]. by rewrite Z.ltb_irrefl.
Qed.

End theorems.

End Ingest.
