(* ===== verification/Coord.v ===== *)
(** * The coordinator's HTTP front end ([src/src/coord.rs])

    The routes of a coordinator: the data plane of the cluster, its routing
    information, the operations reserved to the leader and the ingest queue.
    Requests, responses and body formats are those of [Http] (the bodies of the
    two front ends have the same fields).  A data handler runs in the monad of
    the cluster; the handlers that replace the cluster state return it.  The
    counter a handler bumps is [Metrics.coordinator_route]. *)

From S2P Require Import Prelude Machine Text Wire Partitioner Reshard Store Lease Shard Client Http.
From S2P Require Import Metrics Journal Cluster Kvdb Ingest Election.

Local Open Scope Z_scope.

Module Coord.
Import Http Election.

Section routes.
Context `{!HashIter} {V St : Type} `{!IndexStore V St, !JsonValue V, !WireJson V, !JsonEnvelope V}.
Context `{!LeaseCodec V, !Env}.
Implicit Types (cl : Cluster.t).

Abbreviation handler := (M St (response V)).

Definition str_list (l : list string) : V := value_from_strings l.

(** ** The data plane *)

Definition object cl (q : ObjQ) : handler :=
  o ← Cluster.get (V := V) cl (oq_coll q) (oq_key q); mret (json [("object", enc_option o)]).

Definition mget cl (b : MgetBody) : handler :=
  vs ← Cluster.mget (V := V) cl (mg_coll b) (mg_keys b);
  mret (json [("values", enc_vec enc_option vs)]).

Definition scan cl (q : ScanQ) : handler :=
  '(keys, cursor) ← Cluster.scan_range (V := V) cl (sq_coll q) (sq_after q) (sq_prefix q) (sq_end q)
                      (sq_limit q `min` scan_cap);
  mret (json [("keys", str_list keys); ("cursor", ser_opt value_from_str cursor)]).

Definition write cl (b : WriteBody V) : handler :=
  _ ← match wr_ttl b with
      | Some ttl =>
          if 0 <? ttl then Cluster.put_ttl cl (wr_coll b) (wr_key b) (wr_obj b) ttl
          else Cluster.put cl (wr_coll b) (wr_key b) (wr_obj b)
      | None => Cluster.put cl (wr_coll b) (wr_key b) (wr_obj b)
      end;
  mret (json [("ok", value_of_bool true)]).

Definition cas cl (b : CasBody V) : handler :=
  set ← Cluster.cas cl (cs_coll b) (cs_key b) (cs_expect b) (cs_new b);
  mret (json [("set", value_of_bool set)]).

Definition incr cl (b : IncrBody) : handler :=
  v ← Cluster.incr (V := V) cl (in_coll b) (in_key b) (in_delta b);
  mret (json [("value", ser_opt value_from_i64 v)]).

Definition set_add cl (b : SetBody) : handler :=
  _ ← Cluster.set_add (V := V) cl (st_coll b) (st_key b) (st_member b);
  mret (json [("ok", value_of_bool true)]).

Definition set_remove cl (b : SetBody) : handler :=
  _ ← Cluster.set_remove (V := V) cl (st_coll b) (st_key b) (st_member b);
  mret (json [("ok", value_of_bool true)]).

Definition delete_object cl (b : DeleteBody) : handler :=
  _ ← Cluster.delete_ (V := V) cl (dl_coll b) (dl_key b); mret (json [("ok", value_of_bool true)]).

(** ** Routing information *)

Definition route_info cl (key : string) : response V :=
  let '(owners, served_by, _) := Cluster.route cl key in
  json [("owners", str_list owners); ("servedBy", ser_opt value_from_str served_by)].

Definition members cl : response V :=
  json [("epoch", value_of_u64 (Cluster.epoch cl));
        ("members", enc_vec (λ '(i, ep), value_of_fields [("id", value_from_str i);
                                                          ("endpoint", value_from_str ep)])
                      (Cluster.members_with_endpoints cl))].

Definition enc_partition (p : Cluster.Partition) : V :=
  value_of_fields [("id", value_from_str (Cluster.p_id p));
                   ("endpoint", value_from_str (Cluster.p_endpoint p));
                   ("buckets", enc_vec enc_usize (Cluster.p_buckets p))].

Definition partitions cl : response V :=
  json [("epoch", value_of_u64 (Cluster.epoch cl));
        ("partitions", enc_vec enc_partition (Cluster.partition_plan cl))].

(** [GET /metrics]: text, whatever the rest of the coordinator does. *)
Definition metrics cl (c : Metrics.Counters) (up : string) : string :=
  (Metrics.render c up
   ++ Metrics.render_cluster_gauges (Cluster.shard_count cl) (Cluster.replication_factor cl)
        (Cluster.is_migrating cl))%string.

(** ** The router *)

Definition extract_query {A} (q : option A) (h : A → handler) : handler :=
  match q with Some a => h a | None => mret (refuse 400) end.

Definition extract_json {A} (body_limit : Z) (body : bytes) (dec : V → option A) (h : A → handler)
    : handler :=
  if body_limit <? Z.of_nat (length body) then mret (refuse 413)
  else match value_from_slice body with
       | None => mret (refuse 400)
       | Some v => match dec v with Some a => h a | None => mret (refuse 422) end
       end.

Definition app (body_limit : Z) cl (r : request bytes) : handler :=
  match r with
  | GetReq p q =>
      if String.eqb p "/health" then mret (json [("ok", value_of_bool true)])
      else if String.eqb p "/object" then extract_query (de_obj q) (object cl)
      else if String.eqb p "/scan" then extract_query (de_scan q) (scan cl)
      else if String.eqb p "/route" then
        extract_query (required q "key") (λ k, mret (route_info cl k))
      else if String.eqb p "/members" then mret (members cl)
      else if String.eqb p "/partitions" then mret (partitions cl)
      else mret (refuse 404)
  | PostReq p b =>
      let on {A} := extract_json (A := A) body_limit b in
      if String.eqb p "/mget" then on de_mget (mget cl)
      else if String.eqb p "/write" then on de_write (write cl)
      else if String.eqb p "/cas" then on de_cas (cas cl)
      else if String.eqb p "/incr" then on de_incr (incr cl)
      else if String.eqb p "/setAdd" then on de_set (set_add cl)
      else if String.eqb p "/setRemove" then on de_set (set_remove cl)
      else if String.eqb p "/deleteObject" then on de_delete (delete_object cl)
      else mret (refuse 404)
  end.

(** ** Leader-only operations *)

Definition leader_status (l : Leadership) : response V :=
  json [("self", value_from_str (self l)); ("leader", value_from_str (current_leader l));
        ("isLeader", value_of_bool (is_leader l)); ("token", value_of_u64 (token l))].

(** [Some] redirect, or go on. *)
Definition not_leader (l : Leadership) : option (response V) :=
  if is_leader l then None
  else Some (mkResponse 409 (Some (value_of_fields
         [("ok", value_of_bool false); ("error", value_from_str "not leader");
          ("leader", value_from_str (current_leader l))]))).

Definition moved (l : Leadership) (s : Cluster.MigrateSummary) : response V :=
  json [("ok", value_of_bool true); ("leader", value_from_str (self l));
        ("movedBuckets", enc_usize (Cluster.s_moved s)); ("copied", enc_usize (Cluster.s_copied s));
        ("dropped", enc_usize (Cluster.s_dropped s))].

Definition admin (l : Leadership) cl (op : M St (Cluster.t * Cluster.MigrateSummary))
    : M St (Cluster.t * response V) :=
  match not_leader l with
  | Some redirect => mret (cl, redirect)
  | None => '(cl', s) ← op; mret (cl', moved l s)
  end.

Definition admin_rebalance (l : Leadership) cl (nodes : list string) : M St (Cluster.t * response V) :=
  admin l cl (Cluster.rebalance (V := V) cl nodes).

Definition admin_drain (l : Leadership) cl (node : string) : M St (Cluster.t * response V) :=
  admin l cl (Cluster.drain (V := V) cl node).

(** ** The ingest routes *)

Context {D : Type} `{!Ingest.IngestCodec V, !KvDb D}.

(** [POST /enqueue]. *)
Definition enqueue (q : Ingest.t D) (b : WriteBody V) : Ingest.t D * response V :=
  let '(q', seq) := Ingest.enqueue q (Ingest.Put (wr_coll b) (wr_key b) (wr_obj b)) in
  (q', json [("ok", value_of_bool true); ("durable", value_of_bool true); ("seq", value_of_u64 seq)]).

(** [GET /ingest/status]. *)
Definition ingest_status (q : Ingest.t D) : response V :=
  json [("accepted", value_of_u64 (Ingest.latest_seq q)); ("committed", value_of_u64 (Ingest.committed q));
        ("pending", value_of_u64 (Ingest.pending q))].

End routes.

(** ** What a client of the coordinator gets *)

Section client.
Context `{!HashIter} {V St : Type} `{!IndexStore V St, !JsonValue V, !JsonLaws V, !WireJson V}.
Context `{!JsonEnvelope V, !JsonEnvelopeLaws V, !LeaseCodec V, !Env}.
Implicit Types (cl : Cluster.t) (w : world St).

(** A delivered call of the HTTP shard client pointed at a coordinator. *)
Definition remote (body_limit : Z) cl {R} (c : call V R) : M St (CResult R) :=
  r ← app body_limit cl (on_wire (to_request c)); mret (of_response c (print_body r)).

(** The cluster operation that stands for a shard operation. *)
Definition clustered cl {R} (c : call V R) : option (M St R) :=
  match c with
  | CObject _ co k => Some (Cluster.get cl co k)
  | CMget _ co ks => Some (Cluster.mget cl co ks)
  | CScanRange _ co a p e n =>
      Some (r ← Cluster.scan_range (V := V) cl co a p e n; mret r.1)
  | CWrite _ co k v => Some (Cluster.put cl co k v)
  | CWriteTtl _ co k v t =>
      Some (if 0 <? t then Cluster.put_ttl cl co k v t else Cluster.put cl co k v)
  | CCas _ co k e v => Some (Cluster.cas cl co k e v)
  | CIncr _ co k d => Some (Cluster.incr (V := V) cl co k d)
  | CDelete _ co k => Some (Cluster.delete_ (V := V) cl co k)
  | _ => None
  end.

(** Arguments, and results, that the envelope carries without loss. *)
Definition args_ok {R} (c : call V R) : Prop :=
  match c with
  | CScanRange _ _ _ _ _ n => Z.of_nat n ≤ 10000
  | CWriteTtl _ _ _ _ t => is_u64 t
  | CCas _ _ _ e _ => not_null e
  | CIncr _ _ _ d => is_i64 d
  | _ => True
  end.

Definition result_ok {R} (c : call V R) : R → Prop :=
  match c with
  | CObject _ _ _ => λ o, not_null o
  | CMget _ _ _ => λ vs, Forall not_null vs
  | CIncr _ _ _ _ => λ o, ∀ z, o = Some z → is_i64 z
  | _ => λ _, True
  end.

Lemma extract_json_ok {A} limit v (dec : V → option A) (h : A → M St (response V)) a :
  Z.of_nat (length (value_to_vec v)) ≤ limit ∧ value_from_slice (value_to_vec v) = Some v →
  dec v = Some a → extract_json limit (value_to_vec v) dec h = h a.
Proof.
  intros [Hl Hp] Hd. unfold extract_json.
  destruct (Z.ltb_spec limit (Z.of_nat (length (value_to_vec v)))); [lia|]. by rewrite Hp, Hd.
Qed.

Lemma bind_ret {A B} (m : M St A) (f : A → B) w :
  (m ≫= λ a, mret (f a)) w = let '(w', a) := m w in (w', f a).
Proof. done. Qed.

Lemma coord_received limit cl {R} (c : call V R) w :
  parses_back (app limit cl (on_wire (to_request c)) w).2 →
  remote limit cl c w = let '(w', r) := app limit cl (on_wire (to_request c)) w in (w', of_json c r).
Proof.
  intros Hb. unfold remote, of_response, mbind, M_bind. destruct (app _ _ _ _) as [w' r].
  unfold mret, M_ret. by rewrite received_sent.
Qed.

Ltac body b lem := rewrite (extract_json_ok _ _ _ _ b); [|done|apply lem; side].
Ltac run_op := unfold mbind, M_bind, mret, M_ret.

(** C25. A coordinator looks like a shard: for reads, batch reads, scans, writes,
    compare-and-set, increments and deletes, a delivered call of a shard client
    pointed at a coordinator gets exactly the result, and causes exactly the
    effect, of the cluster operation, through the bytes of the request and of the
    response.  The conditions are those of a call to a shard: the request's body
    is within the server's limit, request and reply parse back to what was
    printed, no null is read or expected, scan limits are at most 10,000, and
    numbers have machine width. *)
Theorem coordinator_looks_like_a_shard {R} (c : call V R) limit cl m w :
  clustered cl c = Some m → sendable limit c → args_ok c → result_ok c (m w).2 →
  parses_back (app limit cl (on_wire (to_request c)) w).2 →
  remote limit cl c w = let '(w', r) := m w in (w', Ok r).
Proof.
  intros Hm Hsize Hargs Hres Hback. rewrite coord_received by done. clear Hback. unfold sendable in Hsize.
  destruct c; cbn [clustered] in Hm; try done; injection Hm as <-;
    cbn [to_request on_wire app String.eqb Ascii.eqb Bool.eqb] in *; cbn [args_ok result_ok] in *.
  - change (de_obj [("coll", coll); ("key", key)]) with (Some (mkObjQ coll key)).
    cbn [extract_query]. unfold object. cbn [oq_coll oq_key]. run_op.
    destruct (Cluster.get cl coll key w) as [w' o]. answer. by rewrite filter_not_null.
  - rewrite de_scan_request by (unfold fits, u64_modulus; lia). cbn [extract_query].
    unfold scan. cbn [sq_coll sq_after sq_prefix sq_end sq_limit]. unfold scan_cap.
    rewrite nat_cap by done. run_op.
    destruct (Cluster.scan_range cl coll after prefix0 end_ limit0 w) as [w' [keys cur]].
    answer. unfold str_list. by rewrite value_to_from_strings.
  - body (mkMget coll keys) (de_ser_mget (V := V)). unfold mget. cbn [mg_coll mg_keys]. run_op.
    destruct (Cluster.mget cl coll keys w) as [w' vs]. answer. by rewrite dec_enc_options.
  - body (mkWrite coll key obj None) (de_ser_write (V := V)). unfold write.
    cbn [wr_ttl wr_coll wr_key wr_obj]. run_op.
    by destruct (Cluster.put cl coll key obj w) as [w' []].
  - body (mkWrite coll key obj (Some ttl_ms)) (de_ser_write (V := V)). unfold write.
    cbn [wr_ttl wr_coll wr_key wr_obj]. run_op. destruct (0 <? ttl_ms).
    + by destruct (Cluster.put_ttl cl coll key obj ttl_ms w) as [w' []].
    + by destruct (Cluster.put cl coll key obj w) as [w' []].
  - body (mkCas coll key (e ← expect; if value_is_null e then None else Some e) nw) (de_ser_cas (V := V)).
    assert (Hex : (e ← expect; if value_is_null e then None else Some e) = expect).
    { destruct expect as [e|]; [|done]. cbn. by rewrite Hargs. }
    unfold cas. cbn [cs_coll cs_key cs_expect cs_new]. rewrite Hex. run_op.
    destruct (Cluster.cas cl coll key expect nw w) as [w' b]. answer. by rewrite bool_of_bool.
  - body (mkIncr coll key delta) (de_ser_incr (V := V)). unfold incr.
    cbn [in_coll in_key in_delta]. run_op.
    destruct (Cluster.incr cl coll key delta w) as [w' [z|]]; answer; cbn [ser_opt].
    + by rewrite value_as_i64_from by (by apply Hres).
    + by rewrite null_i64.
  - body (mkDelete coll key) (de_ser_delete (V := V)). unfold delete_object. cbn [dl_coll dl_key].
    run_op. by destruct (Cluster.delete_ cl coll key w) as [w' []].
Qed.

(** For set operations it does not: the coordinator answers [{"ok": true}], so
    the client reports every addition as "was there already". *)
Theorem coordinator_set_add_says_no limit cl co k m w :
  sendable limit (CSetAdd V co k m) →
  parses_back (app limit cl (on_wire (to_request (CSetAdd V co k m))) w).2 →
  remote limit cl (CSetAdd V co k m) w
  = ((Cluster.set_add (V := V) cl co k m w).1, Ok false).
Proof.
  intros Hsize Hback. rewrite coord_received by done. clear Hback. unfold sendable in Hsize.
  cbn [to_request on_wire app String.eqb Ascii.eqb Bool.eqb] in *.
  body (mkSet co k m) (de_ser_set (V := V)). unfold set_add. cbn [st_coll st_key st_member]. run_op.
  destruct (Cluster.set_add cl co k m w) as [w' []]. answer. done.
Qed.

(** Control operations run on the leader only: a coordinator that does not
    believe it leads answers 409 with the leader it knows, calls no shard and
    keeps its state; the one that does runs the operation and reports it. *)
Theorem admin_only_on_leader (l : Leadership) cl nodes w :
  admin_rebalance (V := V) l cl nodes w
  = if is_leader l then
      let '(w', (cl', s)) := Cluster.rebalance (V := V) cl nodes w in (w', (cl', moved l s))
    else (w, (cl, mkResponse 409 (Some (value_of_fields
           [("ok", value_of_bool false); ("error", value_from_str "not leader");
            ("leader", value_from_str (current_leader l))])))).
Proof.
  unfold admin_rebalance, admin, not_leader. destruct (is_leader l); [|done].
  unfold mbind, M_bind, mret, M_ret. by destruct (Cluster.rebalance cl nodes w) as [w' [cl' s]].
Qed.

(** The time to live of an enqueued write is read and dropped. *)
Lemma enqueue_drops_ttl {D} `{!Ingest.IngestCodec V, !KvDb D} (q : Ingest.t D) co k (v : V) ttl :
  enqueue q (mkWrite co k v ttl) = enqueue q (mkWrite co k v None).
Proof. done. Qed.

End client.

End Coord.
