(* ===== verification/Changefeed.v ===== *)
(** * The change feed ([src/src/changefeed.rs])

    A numbered log of set-membership changes with consumer-group offsets.  The
    trait [ChangeLog] is a class; the in-memory and the durable log are its
    instances, and both implement one abstract feed ([ChangeLogLaws]).  The
    theorems about consumers are proved against the interface. *)

From S2P Require Import Prelude Machine Text Kvdb.

Local Open Scope Z_scope.

Record ChangeEvent := mkEvent {
  ev_seq : Z;
  ev_op : string;
  ev_value : string;
  ev_set : string;
  ev_doc_id : string;
}.

Class ChangeLog (L : Type) := {
  append : L → string → string → string → string → L * Z;
  read : L → Z → nat → list ChangeEvent;
  latest_seq : L → Z;
  compact : L → Z → L * nat;
  committed_offset : L → string → Z;
  commit_offset : L → string → Z → L;
}.

(** The trait's provided methods. *)
Definition retain_latest `{ChangeLog L} (l : L) (max : Z) : L * nat :=
  let latest := latest_seq l in
  if max <? latest then compact l (u64_add (latest - max) 1) else (l, O).

Definition read_group `{ChangeLog L} (l : L) (group : string) (limit : nat) : list ChangeEvent :=
  read l (committed_offset l group) limit.

(** ** The abstract feed *)

Record feed := mkFeed {
  f_events : list ChangeEvent;
  f_latest : Z;
  f_offset : string → Z;
}.

(** Consecutive numbers from [a] on. *)
Definition numbered_from (a : Z) (evs : list ChangeEvent) : Prop :=
  ∀ i e, evs !! i = Some e → ev_seq e = a + Z.of_nat i.

Definition f_first (f : feed) : Z := f_latest f - Z.of_nat (length (f_events f)) + 1.

(** Events are numbered without gaps up to the latest number. *)
Record feed_wf (f : feed) : Prop := {
  wf_latest : 0 ≤ f_latest f ∧ f_latest f + 1 < u64_modulus;
  wf_numbered : numbered_from (f_first f) (f_events f);
  wf_first : 1 ≤ f_first f;
  wf_offset : ∀ g, is_u64 (f_offset f g);
}.

Definition feed_append (f : feed) (op value set doc_id : string) : feed :=
  mkFeed (f_events f ++ [mkEvent (f_latest f + 1) op value set doc_id]) (f_latest f + 1) (f_offset f).

Definition after (since : Z) (evs : list ChangeEvent) : list ChangeEvent :=
  filter (λ e, since < ev_seq e) evs.

Definition feed_compact (f : feed) (before : Z) : feed :=
  mkFeed (filter (λ e, before ≤ ev_seq e) (f_events f)) (f_latest f) (f_offset f).

Definition feed_commit (f : feed) (group : string) (seq : Z) : feed :=
  mkFeed (f_events f) (f_latest f) (λ g, if decide (g = group) then seq else f_offset f g).

Class ChangeLogLaws (L : Type) `{!ChangeLog L} := {
  feed_rep : L → feed → Prop;
  feed_rep_wf : ∀ l f, feed_rep l f → feed_wf f;
  append_rep : ∀ l f op value set doc_id, feed_rep l f → f_latest f + 2 < u64_modulus →
    (append l op value set doc_id).2 = f_latest f + 1
    ∧ feed_rep (append l op value set doc_id).1 (feed_append f op value set doc_id);
  read_rep : ∀ l f since limit, feed_rep l f → (0 < limit)%nat →
    read l since limit = take limit (after since (f_events f));
  latest_rep : ∀ l f, feed_rep l f → latest_seq l = f_latest f;
  compact_rep : ∀ l f before, feed_rep l f → is_u64 before →
    feed_rep (compact l before).1 (feed_compact f before)
    ∧ (compact l before).2
      = (length (f_events f) - length (f_events (feed_compact f before)))%nat;
  offset_rep : ∀ l f g, feed_rep l f → committed_offset l g = f_offset f g;
  commit_rep : ∀ l f g seq, feed_rep l f → is_u64 seq → valid_key g = true →
    feed_rep (commit_offset l g seq) (feed_commit f g seq);
}.

(** ** Lemmas on numbered events *)

Lemma numbered_cons a e evs :
  numbered_from a (e :: evs) → ev_seq e = a ∧ numbered_from (a + 1) evs.
Proof.
  intros Hn. split; [rewrite (Hn O e eq_refl); lia|].
  intros i e' Hi. rewrite (Hn (S i) e' Hi). lia.
Qed.

Lemma numbered_drop a n evs :
  numbered_from a evs → numbered_from (a + Z.of_nat n) (drop n evs).
Proof. intros Hn i e. rewrite lookup_drop. intros He. rewrite (Hn _ _ He). lia. Qed.

Lemma numbered_snoc a evs e :
  numbered_from a evs → ev_seq e = a + Z.of_nat (length evs) → numbered_from a (evs ++ [e]).
Proof.
  intros Hn He i e' [Hi|[Hi He']]%lookup_app_Some; [by apply Hn|].
  apply list_lookup_singleton_Some in He' as [Hz ->]. rewrite He. lia.
Qed.

(** Dropping the numbers below a bound drops a prefix. *)
Lemma numbered_filter a evs before :
  numbered_from a evs →
  filter (λ e, before ≤ ev_seq e) evs = drop (Z.to_nat (before - a)) evs.
Proof.
  revert a. induction evs as [|e evs IH]; intros a Hn; [by rewrite drop_nil|].
  apply numbered_cons in Hn as [He Hn]. rewrite filter_cons, He. case_decide as Hb.
  - replace (Z.to_nat (before - a)) with O by lia. cbn. f_equal.
    rewrite (IH _ Hn). by replace (Z.to_nat (before - (a + 1))) with O by lia.
  - replace (Z.to_nat (before - a)) with (S (Z.to_nat (before - (a + 1)))) by lia.
    cbn. by apply IH.
Qed.

Lemma numbered_after a evs since :
  numbered_from a evs → after since evs = drop (Z.to_nat (since + 1 - a)) evs.
Proof.
  intros Hn. rewrite <-numbered_filter by done. apply filter_ext_in. intros e _. lia.
Qed.

Lemma numbered_sorted a evs :
  numbered_from a evs → StronglySorted (λ x y, ev_seq x < ev_seq y) evs.
Proof.
  revert a. induction evs as [|e evs IH]; intros a Hn; [constructor|].
  apply numbered_cons in Hn as [He Hn]. constructor; [by eapply IH|].
  apply Forall_forall. intros e' [i Hi]%list_elem_of_lookup. rewrite (Hn _ _ Hi). lia.
Qed.

Lemma feed_append_wf f op value set doc_id :
  feed_wf f → f_latest f + 2 < u64_modulus → feed_wf (feed_append f op value set doc_id).
Proof.
  intros [Hl Hn H1 Ho] Hroom. unfold f_first in *.
  split; unfold f_first; cbn [f_latest f_events f_offset feed_append]; rewrite ?length_app; cbn [length].
  - lia.
  - apply numbered_snoc; [|cbn; lia].
    by replace (_ + 1 - _ + 1) with (f_latest f - Z.of_nat (length (f_events f)) + 1) by lia.
  - lia.
  - done.
Qed.

Lemma feed_compact_wf f before : feed_wf f → feed_wf (feed_compact f before).
Proof.
  intros [Hl Hn H1 Ho]. unfold feed_compact. rewrite (numbered_filter _ _ _ Hn).
  set (n := Z.to_nat (before - f_first f)). unfold f_first in *.
  split; unfold f_first; cbn [f_latest f_events f_offset]; rewrite ?length_drop; try done; [|lia].
  destruct (decide (n ≤ length (f_events f))%nat) as [Hle|Hgt].
  - apply (numbered_drop _ n) in Hn.
    by replace (f_latest f - Z.of_nat (length (f_events f) - n) + 1)
      with (f_latest f - Z.of_nat (length (f_events f)) + 1 + Z.of_nat n) by lia.
  - rewrite drop_ge by lia. intros i e Hi. by rewrite lookup_nil in Hi.
Qed.

Lemma feed_commit_wf f g seq : feed_wf f → is_u64 seq → feed_wf (feed_commit f g seq).
Proof.
  intros [Hl Hn H1 Ho] Hs. split; try done.
  intros g'. cbn. case_decide; [done|apply Ho].
Qed.

(** ** The in-memory log *)

Module MemoryChangeLog.

Record t := mk {
  inner : list ChangeEvent;
  next : Z;
  offsets : gmap string Z;
}.

Definition new : t := mk [] 0 ∅.

(** [fetch_add(1) + 1]. *)
Definition append (l : t) (op value set doc_id : string) : t * Z :=
  let seq := u64_add (next l) 1 in
  (mk (inner l ++ [mkEvent seq op value set doc_id]) (u64_add (next l) 1) (offsets l), seq).

Definition read (l : t) (since : Z) (limit : nat) : list ChangeEvent :=
  take limit (filter (λ e, since < ev_seq e) (inner l)).

Definition latest_seq (l : t) : Z := next l.

Definition compact (l : t) (before : Z) : t * nat :=
  let n := length (inner l) in
  let v := filter (λ e, before ≤ ev_seq e) (inner l) in
  (mk v (next l) (offsets l), (n - length v)%nat).

Definition committed_offset (l : t) (group : string) : Z := default 0 (offsets l !! group).

Definition commit_offset (l : t) (group : string) (seq : Z) : t :=
  mk (inner l) (next l) (<[group := seq]> (offsets l)).

#[global] Instance memory_change_log : ChangeLog t := {
  Changefeed.append := append;
  Changefeed.read := read;
  Changefeed.latest_seq := latest_seq;
  Changefeed.compact := compact;
  Changefeed.committed_offset := committed_offset;
  Changefeed.commit_offset := commit_offset;
}.

Record rep (l : t) (f : feed) : Prop := {
  rep_wf : feed_wf f;
  rep_inner : inner l = f_events f;
  rep_next : next l = f_latest f;
  rep_offsets : ∀ g, committed_offset l g = f_offset f g;
}.

#[global] Instance memory_change_log_laws : ChangeLogLaws t.
Proof.
  refine {| feed_rep := rep |}.
  - apply rep_wf.
  - intros l f op value set doc_id [Hwf Hi Hn Ho] Hroom.
    pose proof (wf_latest _ Hwf) as Hl. cbn. rewrite Hn, u64_add_small by lia.
    split; [done|]. split; cbn; [by apply feed_append_wf|by rewrite Hi|done|done].
  - intros l f since limit [Hwf Hi Hn Ho] _. cbn. unfold read. by rewrite Hi.
  - intros l f [Hwf Hi Hn Ho]. done.
  - intros l f before [Hwf Hi Hn Ho] _. cbn. rewrite Hi. split; [|done].
    split; cbn; [by apply feed_compact_wf|done|done|done].
  - intros l f g [Hwf Hi Hn Ho]. apply Ho.
  - intros l f g seq [Hwf Hi Hn Ho] Hs _. split; cbn; [by apply feed_commit_wf|done|done|].
    intros g'. unfold committed_offset. cbn. case_decide as Hg.
    + subst g'. by rewrite lookup_insert_eq.
    + rewrite lookup_insert_ne by done. apply Ho.
Defined.

Lemma rep_new : feed_rep new (mkFeed [] 0 (λ _, 0)).
Proof.
  split; [|done..]. split; [vm_compute; by split| |done|intros; vm_compute; by split].
  by intros [] e Hi.
Qed.

End MemoryChangeLog.

(** ** The durable log *)

(** The derived JSON encoding of events. *)
Class EventCodec := {
  event_to_string : ChangeEvent → string;
  event_of_string : string → option ChangeEvent;
}.

Class EventCodecLaws `{!EventCodec} := {
  event_roundtrip : ∀ e, event_of_string (event_to_string e) = Some e;
}.

Module LmdbChangeLog.
Section log.
Context {D : Type} `{!KvDb D, !EventCodec}.

Record t := mk {
  db : D;
  offsets : D;
  next : Z;
}.

Definition key (seq : Z) : string := padded_key seq.

Definition open (db0 offsets0 : D) : t := mk db0 offsets0 (u64_add (last_seq db0) 1).

Definition append (l : t) (op value set doc_id : string) : t * Z :=
  let seq := next l in
  let ev := mkEvent seq op value set doc_id in
  (mk (db_put (db l) (key seq) (event_to_string ev)) (offsets l) (u64_add seq 1), seq).

(** The loop of [read]; the limit is tested after each push. *)
Fixpoint read_loop (since : Z) (limit : nat) (items : list (string * string))
    (out : list ChangeEvent) : list ChangeEvent :=
  match items with
  | [] => out
  | (_, v) :: items' =>
      match event_of_string v with
      | Some ev =>
          if since <? ev_seq ev then
            let out' := out ++ [ev] in
            if (limit <=? length out')%nat then out' else read_loop since limit items' out'
          else read_loop since limit items' out
      | None => read_loop since limit items' out
      end
  end.

Definition read (l : t) (since : Z) (limit : nat) : list ChangeEvent :=
  read_loop since limit (db_iter (db l)) [].

Definition latest_seq (l : t) : Z := saturating_sub (next l) 1.

Definition compact (l : t) (before : Z) : t * nat :=
  if before <=? 1 then (l, O)
  else
    let to_delete := leading_keys (λ seq, seq <? before) (db_iter (db l)) in
    if decide (to_delete = []) then (l, O)
    else
      let '(d, removed) := delete_keys (db l) to_delete in
      (mk d (offsets l) (next l), removed).

Definition committed_offset (l : t) (group : string) : Z :=
  default 0 (db_get (offsets l) group ≫= parse_u64).

Definition commit_offset (l : t) (group : string) (seq : Z) : t :=
  mk (db l) (db_put (offsets l) group (u64_to_string seq)) (next l).

#[global] Instance lmdb_change_log : ChangeLog t := {
  Changefeed.append := append;
  Changefeed.read := read;
  Changefeed.latest_seq := latest_seq;
  Changefeed.compact := compact;
  Changefeed.committed_offset := committed_offset;
  Changefeed.commit_offset := commit_offset;
}.

Context `{!KvDbLaws D, !EventCodecLaws}.

Definition encode (e : ChangeEvent) : Z * string := (ev_seq e, event_to_string e).

Record rep (l : t) (f : feed) : Prop := {
  rep_wf : feed_wf f;
  rep_db : log_rep (db l) (map encode (f_events f));
  rep_next : next l = f_latest f + 1;
  rep_offsets : ∀ g, committed_offset l g = f_offset f g;
}.

Lemma read_loop_events since limit evs out :
  (length out < limit)%nat →
  read_loop since limit (map key_of (map encode evs)) out
  = take limit (out ++ after since evs).
Proof.
  revert out. induction evs as [|e evs IH]; intros out Hout.
  { cbn. rewrite app_nil_r, take_ge by lia. done. }
  cbn [map read_loop key_of encode]. rewrite event_roundtrip.
  unfold after. rewrite filter_cons. destruct (Z.ltb_spec since (ev_seq e)) as [Hlt|Hge];
    [rewrite decide_True by done|rewrite decide_False by lia; by apply IH].
  destruct (Nat.leb_spec limit (length (out ++ [e]))) as [Hfull|Hmore].
  - rewrite (cons_middle e out (filter _ evs)), app_assoc, take_app_length'; [done|].
    rewrite length_app in *. cbn in *. lia.
  - rewrite IH; [by rewrite <-app_assoc|done].
Qed.

Lemma encode_events_filter (p : Z → bool) b evs :
  filter (λ x, p x.1 = b) (map encode evs) = map encode (filter (λ e, p (ev_seq e) = b) evs).
Proof.
  induction evs as [|e evs IH]; [done|]. cbn [map]. rewrite !filter_cons. cbn [encode fst].
  destruct (decide (p (ev_seq e) = b)); [|done]. cbn. by rewrite IH.
Qed.

Lemma compact_log l f before :
  rep l f →
  log_rep (db (compact l before).1) (map encode (f_events (feed_compact f before)))
  ∧ (compact l before).2
    = (length (f_events f) - length (f_events (feed_compact f before)))%nat.
Proof.
  intros [Hwf Hdb _ _]. pose proof (wf_numbered _ Hwf) as Hn. pose proof (wf_first _ Hwf) as H1.
  unfold compact, feed_compact. cbn [f_events].
  destruct (Z.leb_spec before 1) as [Hb|Hb].
  { rewrite (numbered_filter _ _ _ Hn). replace (Z.to_nat (before - f_first f)) with O by lia.
    rewrite drop_0. split; [done|cbn; lia]. }
  destruct (trim_spec _ _ (λ seq, seq <? before) Hdb) as [Ht Hc].
  { intros s s' Hle. rewrite !Z.ltb_lt. lia. }
  rewrite (encode_events_filter (λ seq, seq <? before)) in Ht, Hc. cbn beta in Ht, Hc.
  rewrite length_map in Hc.
  assert (Hf : filter (λ e, before ≤ ev_seq e) (f_events f)
               = filter (λ e, (ev_seq e <? before) = false) (f_events f)).
  { apply filter_ext_in. intros e _. by rewrite Z.ltb_ge. }
  assert (Hlen : length (filter (λ e, (ev_seq e <? before) = true) (f_events f))
    = (length (f_events f) - length (filter (λ e, before ≤ ev_seq e)%Z (f_events f)))%nat).
  { rewrite Hf. clear. induction (f_events f) as [|e evs IH]; [done|]. rewrite !filter_cons.
    pose proof (length_filter (λ e, (ev_seq e <? before) = false) evs).
    destruct (ev_seq e <? before); [rewrite decide_True, decide_False by done|
      rewrite decide_False, decide_True by done]; cbn [length]; lia. }
  rewrite <-Hf in Ht. rewrite <-Hlen. set (ks := leading_keys _ _) in *. case_decide as Hks.
  - rewrite Hks in Ht, Hc. cbn in Ht, Hc. by split.
  - destruct (delete_keys (db l) ks) as [d removed]. by split.
Qed.

#[global] Instance lmdb_change_log_laws : ChangeLogLaws t.
Proof.
  refine {| feed_rep := rep |}.
  - apply rep_wf.
  - intros l f op value set doc_id Hr Hroom. pose proof Hr as [Hwf Hdb Hn Ho].
    pose proof (wf_latest _ Hwf) as Hl. cbn. rewrite Hn. split; [done|].
    split; cbn; [by apply feed_append_wf| |apply u64_add_small; lia|done].
    rewrite map_app. apply (log_rep_put (db l)); [done|unfold is_u64; lia|].
    intros s v Hin. apply list_elem_of_fmap in Hin as (e & [= -> ->] & [i Hi]%list_elem_of_lookup).
    rewrite (wf_numbered _ Hwf _ _ Hi). apply lookup_lt_Some in Hi. unfold f_first. lia.
  - intros l f since limit [Hwf [_ Hi] Hn Ho] Hlim. cbn. unfold read.
    rewrite Hi, read_loop_events by (cbn; lia). done.
  - intros l f [Hwf Hi Hn Ho]. pose proof (wf_latest _ Hwf). cbn. unfold latest_seq, saturating_sub.
    rewrite Hn. lia.
  - intros l f before Hr _. destruct (compact_log l f before Hr) as [Hlog Hcount].
    split; [|done]. destruct Hr as [Hwf Hdb Hn Ho].
    split; [by apply feed_compact_wf|done| |]; cbn; unfold compact;
      (destruct (_ <=? 1); [done|]); (case_decide; [done|]); by destruct (delete_keys _ _).
  - intros l f g Hr. apply (rep_offsets _ _ Hr).
  - intros l f g seq [Hwf Hi Hn Ho] Hs Hg. split; cbn; [by apply feed_commit_wf|done|done|].
    intros g'. unfold committed_offset. cbn [offsets commit_offset].
    rewrite db_get_put by done. rewrite (decide_ext (g' = g) (g = g')) by done.
    case_decide; [|apply Ho]. cbn [mbind option_bind default from_option].
    by rewrite u64_string_roundtrip.
Defined.

Lemma rep_open : feed_rep (open db_empty db_empty) (mkFeed [] 0 (λ _, 0)).
Proof.
  unfold open. rewrite (last_seq_spec _ [] log_rep_empty). split; cbn.
  - split; [vm_compute; by split| |done|intros; vm_compute; by split].
    by intros [] e Hi.
  - apply log_rep_empty.
  - by apply u64_add_small.
  - intros g. unfold committed_offset. cbn. by rewrite db_get_empty.
Qed.

End log.
Arguments t : clear implicits.
End LmdbChangeLog.

(** ** Consumers, against the interface *)

Module Feed.
Section consumers.
Context {L : Type} `{!ChangeLog L, !ChangeLogLaws L}.
Implicit Types (l : L) (f : feed).

(** Retention keeps exactly the most recent [max] events: whatever the
    implementation of the log, after [retain_latest(max)] the readable events
    are the last [max] ones (all, if there are fewer), the numbering goes on
    where it was, offsets are kept, and the result counts what was dropped. *)
Theorem retain_latest_keeps l f max :
  feed_rep l f → is_u64 max →
  ∃ f', feed_rep (retain_latest l max).1 f'
    ∧ f_events f' = drop (length (f_events f) - Z.to_nat max) (f_events f)
    ∧ (retain_latest l max).2 = (length (f_events f) - Z.to_nat max)%nat
    ∧ f_latest f' = f_latest f ∧ f_offset f' = f_offset f.
Proof.
  intros Hf Hm. pose proof (feed_rep_wf _ _ Hf) as Hwf. unfold is_u64 in Hm.
  pose proof (wf_latest _ Hwf) as Hl. pose proof (wf_first _ Hwf) as H1. unfold f_first in H1.
  unfold retain_latest. rewrite (latest_rep _ _ Hf). destruct (Z.ltb_spec max (f_latest f)).
  - rewrite u64_add_small by lia.
    destruct (compact_rep l f (f_latest f - max + 1) Hf) as [Hc Hn]; [unfold is_u64; lia|].
    exists (feed_compact f (f_latest f - max + 1)). split; [done|].
    rewrite Hn. unfold feed_compact. cbn [f_events f_latest f_offset].
    rewrite (numbered_filter _ _ _ (wf_numbered _ Hwf)), length_drop. unfold f_first.
    replace (Z.to_nat (f_latest f - max + 1 - (f_latest f - Z.of_nat (length (f_events f)) + 1)))
      with (length (f_events f) - Z.to_nat max)%nat by lia.
    split_and!; [done|lia|done|done].
  - exists f. replace (length (f_events f) - Z.to_nat max)%nat with O by lia. by rewrite drop_0.
Qed.

(** *** A consumer group among producers and retention *)

Inductive action :=
  | Publish (op value set doc_id : string)
  | Poll (limit : nat)
  | Trim (before : Z).

(** A poll reads the next batch of the group and commits its last number. *)
Definition poll (group : string) (limit : nat) l : L * list ChangeEvent :=
  let batch := read_group l group limit in
  match last batch with
  | Some e => (commit_offset l group (ev_seq e), batch)
  | None => (l, batch)
  end.

Definition act (group : string) (a : action) : L * list ChangeEvent → L * list ChangeEvent :=
  λ '(l, got), match a with
  | Publish op value set doc_id => ((append l op value set doc_id).1, got)
  | Poll limit => let '(l', batch) := poll group limit l in (l', got ++ batch)
  | Trim before => ((compact l before).1, got)
  end.

Definition acts group (as_ : list action) (st : L * list ChangeEvent) :=
  foldl (λ st a, act group a st) st as_.

(** Retention never passes what the group has committed; polls are not empty
    requests. *)
Fixpoint trims_behind group (as_ : list action) (st : L * list ChangeEvent) : bool :=
  match as_ with
  | [] => true
  | a :: as' =>
      match a with
      | Trim before => (0 <=? before) && (before <=? committed_offset st.1 group + 1)
                       && (before <? u64_modulus)
      | Poll limit => (0 <? limit)%nat
      | Publish _ _ _ _ => true
      end && trims_behind group as' (act group a st)
  end.

(** The events the publications create, numbered after [latest]. *)
Fixpoint published (latest : Z) (as_ : list action) : list ChangeEvent :=
  match as_ with
  | [] => []
  | Publish op value set doc_id :: as' =>
      mkEvent (latest + 1) op value set doc_id :: published (latest + 1) as'
  | _ :: as' => published latest as'
  end.

(** What the group has not read yet. *)
Definition unread group f : list ChangeEvent := after (f_offset f group) (f_events f).

Lemma unread_append group f op value set doc_id :
  f_offset f group ≤ f_latest f →
  unread group (feed_append f op value set doc_id)
  = unread group f ++ [mkEvent (f_latest f + 1) op value set doc_id].
Proof.
  intros Ho. unfold unread, after, feed_append. cbn [f_events f_offset].
  rewrite filter_app. f_equal. rewrite filter_all; [done|].
  intros e ->%list_elem_of_singleton. cbn. lia.
Qed.

Lemma unread_compact group f before :
  before ≤ f_offset f group + 1 → unread group (feed_compact f before) = unread group f.
Proof.
  intros Hb. unfold unread, after, feed_compact. cbn [f_events f_offset].
  rewrite list_filter_filter. apply filter_ext_in. intros e _. lia.
Qed.

(** Committing the last of a batch leaves the rest of the unread events. *)
Lemma unread_commit group f limit e :
  feed_wf f → last (take limit (unread group f)) = Some e →
  unread group (feed_commit f group (ev_seq e)) = drop limit (unread group f)
  ∧ 0 ≤ ev_seq e ≤ f_latest f.
Proof.
  intros Hwf Hlast. set (U := unread group f) in *.
  pose proof (wf_numbered _ Hwf) as Hn. pose proof (wf_first _ Hwf) as H1.
  assert (HU : ∃ a, numbered_from a U).
  { subst U. unfold unread. rewrite (numbered_after _ _ _ Hn). eexists. by apply numbered_drop. }
  destruct HU as [a Ha]. pose proof (numbered_sorted _ _ Ha) as Hs.
  rewrite <-(take_drop limit U) in Hs.
  assert (Hin : e ∈ take limit U) by (by apply last_Some_elem_of).
  assert (Hev : e ∈ f_events f).
  { apply (subseteq_take limit U) in Hin. by apply list_elem_of_filter in Hin as [_ ?]. }
  assert (HeU : e ∈ U) by (by apply (subseteq_take limit U)).
  apply list_elem_of_filter in HeU as [Hoff _].
  split.
  - unfold unread, feed_commit, after. cbn [f_events f_offset]. rewrite decide_True by done.
    assert (filter (λ e0, ev_seq e < ev_seq e0) (f_events f)
            = filter (λ e0, ev_seq e < ev_seq e0) U) as ->.
    { subst U. unfold unread, after. rewrite list_filter_filter.
      apply filter_ext_in. intros x _. lia. }
    rewrite <-(take_drop limit U) at 1. rewrite filter_app, filter_none, filter_all; [done| |].
    + intros y Hy. by apply (StronglySorted_app_1_elem_of _ _ _ e y Hs).
    + intros y Hy. apply last_Some in Hlast as [xs Hx]. rewrite Hx in Hs, Hy.
      apply StronglySorted_app_1_l in Hs. apply elem_of_app in Hy as [Hy|Hy].
      * apply (StronglySorted_app_1_elem_of _ xs [e] y e) in Hs; [|done|left]. cbn in Hs. lia.
      * apply list_elem_of_singleton in Hy. subst y. lia.
  - apply list_elem_of_lookup in Hev as [i Hi]. rewrite (Hn _ _ Hi).
    apply lookup_lt_Some in Hi. unfold f_first in *. lia.
Qed.

Lemma poll_spec group limit l f :
  feed_rep l f → valid_key group = true → (0 < limit)%nat → f_offset f group ≤ f_latest f →
  ∃ f', feed_rep (poll group limit l).1 f' ∧ f_offset f' group ≤ f_latest f'
    ∧ f_latest f' = f_latest f
    ∧ (poll group limit l).2 ++ unread group f' = unread group f.
Proof.
  intros Hf Hg Hlim Ho. unfold poll, read_group. pose proof (feed_rep_wf _ _ Hf) as Hwf.
  rewrite (offset_rep _ _ _ Hf), (read_rep _ _ _ _ Hf Hlim). fold (unread group f).
  destruct (last (take limit (unread group f))) as [e|] eqn:Hlast.
  - destruct (unread_commit group f limit e Hwf Hlast) as [Hrest He].
    pose proof (wf_latest _ Hwf) as Hl.
    exists (feed_commit f group (ev_seq e)). split_and!.
    + apply commit_rep; [done|unfold is_u64; lia|done].
    + cbn. rewrite decide_True by done. lia.
    + done.
    + cbn [snd]. by rewrite Hrest, take_drop.
  - apply last_None in Hlast. exists f. cbn [fst snd]. by rewrite Hlast.
Qed.

(** C31. A consumer group sees every event once and in order, whatever the
    implementation of the log: under any interleaving of publications, polls
    that commit what they read, and retention that stays behind the group's
    committed offset, what the group has received followed by what it has yet to
    read is what was unread at the start followed by the events published
    since. *)
Theorem consumer_group_complete group as_ l f l' got :
  feed_rep l f → valid_key group = true → f_offset f group ≤ f_latest f →
  f_latest f + Z.of_nat (length as_) + 1 < u64_modulus →
  trims_behind group as_ (l, []) = true →
  acts group as_ (l, []) = (l', got) →
  ∃ f', feed_rep l' f'
    ∧ got ++ unread group f' = unread group f ++ published (f_latest f) as_.
Proof.
  intros Hf Hg Ho Hroom Ht Hacts.
  enough (∀ got0, trims_behind group as_ (l, got0) = true →
    let '(l', got) := acts group as_ (l, got0) in
    ∃ f', feed_rep l' f'
      ∧ got ++ unread group f' = got0 ++ unread group f ++ published (f_latest f) as_) as H.
  { specialize (H [] Ht). by rewrite Hacts in H. }
  clear Ht Hacts l' got. revert l f Hf Ho Hroom.
  induction as_ as [|a as_ IH]; intros l f Hf Ho Hroom got0 Ht.
  { cbn. exists f. by rewrite app_nil_r. }
  change (acts group (a :: as_) (l, got0)) with (acts group as_ (act group a (l, got0))).
  cbn [trims_behind] in Ht. apply andb_true_iff in Ht as [Ha Ht]. cbn [length] in Hroom.
  destruct a as [op value set doc_id|limit|before]; cbn [act] in Ht |- *.
  - destruct (append_rep l f op value set doc_id Hf ltac:(lia)) as [_ Hf1].
    specialize (IH _ _ Hf1 ltac:(cbn; lia) ltac:(cbn; lia) got0 Ht).
    destruct (acts group as_ _) as [l' got]. destruct IH as (f' & Hf' & Heq).
    exists f'. split; [done|]. rewrite Heq, unread_append by done. cbn [published f_latest feed_append].
    by rewrite <-(app_assoc (unread group f)).
  - apply Nat.ltb_lt in Ha. destruct (poll_spec group limit l f Hf Hg Ha Ho) as (f1 & Hf1 & Ho1 & Hl1 & Hu).
    destruct (poll group limit l) as [l1 batch]. cbn [fst snd] in *.
    rewrite <-Hl1 in Hroom. specialize (IH _ _ Hf1 Ho1 ltac:(lia) (got0 ++ batch) Ht).
    destruct (acts group as_ _) as [l' got]. destruct IH as (f' & Hf' & Heq).
    exists f'. split; [done|]. rewrite Heq, <-Hu, Hl1. cbn [published]. by rewrite <-!app_assoc.
  - cbn [fst] in Ha. rewrite (offset_rep _ _ _ Hf), !andb_true_iff, Z.ltb_lt, !Z.leb_le in Ha.
    destruct Ha as [[Hb0 Hb1] Hb2].
    destruct (compact_rep l f before Hf) as [Hf1 _]; [unfold is_u64; lia|].
    specialize (IH _ _ Hf1 Ho ltac:(cbn; lia) got0 Ht).
    destruct (acts group as_ _) as [l' got]. destruct IH as (f' & Hf' & Heq).
    exists f'. split; [done|]. by rewrite Heq, unread_compact by done.
Qed.

End consumers.

(** *** Restarting the durable log *)

Section restart.
Context {D : Type} `{!KvDb D, !KvDbLaws D, !EventCodec, !EventCodecLaws}.
Implicit Types (l : LmdbChangeLog.t D) (f : feed).

Definition reopen l : LmdbChangeLog.t D :=
  LmdbChangeLog.open (LmdbChangeLog.db l) (LmdbChangeLog.offsets l).

(** The durable log resumes after a restart: as long as one event is retained,
    opening the directory again recovers the numbering, the events and the
    offsets. *)
Lemma feed_resumes l f : feed_rep l f → f_events f ≠ [] → reopen l = l.
Proof.
  intros Hf He. cbn in Hf. destruct Hf as [Hwf Hdb Hn _].
  unfold reopen, LmdbChangeLog.open. rewrite (last_seq_spec _ _ Hdb), fmap_last.
  destruct (last (f_events f)) as [e|] eqn:Hl; [|by apply last_None in Hl].
  cbn. rewrite last_lookup in Hl. rewrite (wf_numbered _ Hwf _ _ Hl).
  apply lookup_lt_Some in Hl. pose proof (wf_latest _ Hwf). pose proof (wf_first _ Hwf).
  unfold f_first in *. rewrite u64_add_small by lia. destruct l; cbn in *. f_equal. lia.
Qed.

(** The numbering is not monotonic across a restart that follows a
    compaction of the whole log: the next event is numbered 1 again, and a
    consumer group that had committed an offset is never handed that event. *)
Theorem feed_restart_reuses_numbers l f group limit op value set doc_id :
  feed_rep l f → f_events f = [] → 0 < f_offset f group →
  let l1 := append (reopen l) op value set doc_id in
  l1.2 = 1 ∧ read_group l1.1 group limit = [].
Proof.
  intros Hf He Ho. cbn in Hf. destruct Hf as [Hwf Hdb Hn Hoff]. rewrite He in Hdb.
  unfold reopen, LmdbChangeLog.open. rewrite (last_seq_spec _ _ Hdb).
  set (l0 := LmdbChangeLog.mk _ _ _). split; [done|].
  assert (Hlog1 : log_rep (LmdbChangeLog.db (append l0 op value set doc_id).1)
            (map LmdbChangeLog.encode [mkEvent 1 op value set doc_id])).
  { apply (log_rep_put _ [] 1); [done|vm_compute; by split|]. by intros s v Hin%elem_of_nil. }
  cbn [fst]. unfold read_group.
  assert (committed_offset (append l0 op value set doc_id).1 group = f_offset f group) as ->
    by apply Hoff.
  destruct Hlog1 as [_ Hi]. cbn [read LmdbChangeLog.lmdb_change_log]. unfold LmdbChangeLog.read.
  rewrite Hi. cbn [map key_of LmdbChangeLog.encode LmdbChangeLog.read_loop ev_seq].
  rewrite event_roundtrip. cbn [ev_seq]. by rewrite (proj2 (Z.ltb_ge _ _)) by lia.
Qed.

End restart.
End Feed.
