(* ===== verification/Rbac.v ===== *)
(** * Role-based access control ([src/src/rbac.rs])

    Policies map bearer tokens to grants; a policy is parsed from a
    configuration string. *)

From Stdlib Require Import Btauto.
From S2P Require Import Prelude Machine Text.

Module Rbac.

Inductive Op := Read | Write | Delete | Admin.

#[global] Instance op_eq_dec : EqDecision Op.
Proof. solve_decision. Defined.

Record Grant := mkGrant {
  coll : string;
  read : bool;
  write : bool;
  delete : bool;
  admin : bool;
}.

Definition grant_allows (g : Grant) (c : option string) (op : Op) : bool :=
  let coll_ok :=
    if decide (coll g = "*") then true
    else match c with
         | Some c => bool_decide (coll g = c)
         | None => false
         end in
  coll_ok
  && match op with
     | Read => read g || admin g
     | Write => write g || admin g
     | Delete => delete g || admin g
     | Admin => admin g
     end.

Record Principal := mkPrincipal {
  name : string;
  grants : list Grant;
}.

Definition allows (p : Principal) (c : option string) (op : Op) : bool :=
  existsb (λ g, grant_allows g c op) (grants p).

Record Policy := mkPolicy { tokens : gmap string Principal }.

(** The ways [parse] bails out, with the entry it reports. *)
Inductive PolicyError :=
  | BadEntry (entry : string)
  | EmptyTokenOrColl (entry : string)
  | BadPermission (entry : string)
  | EmptyPolicy.

(** The loop over [perms.chars()] (a character outside ASCII starts with a byte
    that is none of the letters, so bytes and characters give the same result). *)
Fixpoint set_perms (entry : string) (perms : string) (g : Grant) : PolicyError + Grant :=
  match perms with
  | EmptyString => inr g
  | String ch perms' =>
      if decide (ch = "r"%char) then
        set_perms entry perms' (mkGrant (coll g) true (write g) (delete g) (admin g))
      else if decide (ch = "w"%char) then
        set_perms entry perms' (mkGrant (coll g) (read g) true (delete g) (admin g))
      else if decide (ch = "d"%char) then
        set_perms entry perms' (mkGrant (coll g) (read g) (write g) true (admin g))
      else if decide (ch = "a"%char) then
        set_perms entry perms' (mkGrant (coll g) (read g) (write g) (delete g) true)
      else inl (BadPermission entry)
  end.

(** One entry: its token and its grant. *)
Definition parse_entry (entry : string) : PolicyError + (string * Grant) :=
  match split_on ":" entry with
  | [p0; p1; p2] =>
      let token := trim p0 in
      let c := trim p1 in
      let perms := trim p2 in
      if decide (token = EmptyString ∨ c = EmptyString) then inl (EmptyTokenOrColl entry)
      else
        match set_perms entry perms (mkGrant c false false false false) with
        | inl e => inl e
        | inr g => inr (token, g)
        end
  | _ => inl (BadEntry entry)
  end.

(** [entry(token).or_insert_with(..)], then [grants.push(grant)]. *)
Definition push_grant (token : string) (g : Grant) (m : gmap string Principal)
    : gmap string Principal :=
  let p := default (mkPrincipal token []) (m !! token) in
  <[token := mkPrincipal (name p) (grants p ++ [g])]> m.

Fixpoint parse_entries (es : list string) (m : gmap string Principal)
    : PolicyError + gmap string Principal :=
  match es with
  | [] => inr m
  | e :: es' =>
      match parse_entry e with
      | inl err => inl err
      | inr (token, g) => parse_entries es' (push_grant token g m)
      end
  end.

Definition entries (spec : string) : list string :=
  filter (λ s, s ≠ EmptyString) (map trim (split_on ";" spec)).

Definition parse (spec : string) : PolicyError + Policy :=
  match parse_entries (entries spec) ∅ with
  | inl e => inl e
  | inr m => if decide (m = ∅) then inl EmptyPolicy else inr (mkPolicy m)
  end.

Definition principal (p : Policy) (token : string) : option Principal := tokens p !! token.

(** ** What a configuration grants *)

Fixpoint has_char (c : ascii) (s : string) : bool :=
  match s with
  | EmptyString => false
  | String a s' => bool_decide (a = c) || has_char c s'
  end.

Definition op_char (op : Op) : ascii :=
  match op with Read => "r" | Write => "w" | Delete => "d" | Admin => "a" end%char.

(** The entry gives [token] access to [c] for [op]. *)
Definition entry_grants (entry token : string) (c : option string) (op : Op) : Prop :=
  ∃ p0 p1 p2, split_on ":" entry = [p0; p1; p2] ∧ trim p0 = token
    ∧ (trim p1 = "*" ∨ c = Some (trim p1))
    ∧ (has_char (op_char op) (trim p2) || has_char "a" (trim p2)) = true.

Definition op_flag (g : Grant) (op : Op) : bool :=
  match op with Read => read g | Write => write g | Delete => delete g | Admin => admin g end.

(** A permission string sets the flags of its letters. *)
Lemma set_perms_flags entry perms g g' :
  set_perms entry perms g = inr g' →
  coll g' = coll g ∧ ∀ op, op_flag g' op = op_flag g op || has_char (op_char op) perms.
Proof.
  revert g. induction perms as [|ch perms IH]; intros g; cbn [set_perms has_char].
  { intros [= <-]. split; [done|]. intros op. by rewrite orb_false_r. }
  repeat case_decide; subst; try done; intros [Hc Hf]%IH; (split; [done|]);
    intros op; rewrite Hf; destruct op; cbn; repeat (case_bool_decide; try done); btauto.
Qed.

Lemma grant_allows_spec g c op :
  grant_allows g c op = true
  ↔ (coll g = "*" ∨ c = Some (coll g)) ∧ (op_flag g op || op_flag g Admin) = true.
Proof.
  unfold grant_allows. rewrite andb_true_iff.
  assert (match op with Read => read g || admin g | Write => write g || admin g
    | Delete => delete g || admin g | Admin => admin g end = op_flag g op || op_flag g Admin) as ->.
  { destruct op; cbn; [done..|]. btauto. }
  f_equiv. case_decide as Hs; [naive_solver|]. destruct c as [c|]; [|naive_solver].
  rewrite bool_decide_eq_true. naive_solver.
Qed.

Lemma parse_entry_grants entry token g c op t :
  parse_entry entry = inr (t, g) →
  entry_grants entry token c op ↔ t = token ∧ grant_allows g c op = true.
Proof.
  unfold parse_entry, entry_grants. intros Hp.
  destruct (split_on ":" entry) as [|p0 [|p1 [|p2 [|]]]]; try done.
  case_decide as Hempty; [done|].
  destruct (set_perms entry _ _) as [|g'] eqn:Hs; [done|]. injection Hp as <- <-.
  apply set_perms_flags in Hs as [Hc Hf]. cbn in Hc.
  rewrite grant_allows_spec, Hc, (Hf op), (Hf Admin).
  assert (op_flag (mkGrant (trim p1) false false false false) op = false) as -> by (by destruct op).
  cbn [op_flag admin op_char orb]. split.
  - intros (q0 & q1 & q2 & [= <- <- <-] & Ht & Hq & Hb). done.
  - intros (Ht & Hq & Hb). by exists p0, p1, p2.
Qed.

(** *** The fold over the entries *)

Lemma parse_entries_allows es m m' token c op :
  parse_entries es m = inr m' →
  (∃ p, m' !! token = Some p ∧ allows p c op = true)
  ↔ (∃ p, m !! token = Some p ∧ allows p c op = true) ∨ ∃ e, e ∈ es ∧ entry_grants e token c op.
Proof.
  revert m. induction es as [|e es IH]; intros m; cbn [parse_entries].
  { intros [= <-]. setoid_rewrite elem_of_nil. naive_solver. }
  destruct (parse_entry e) as [|[t g]] eqn:He; [done|]. intros H. rewrite (IH _ H). clear IH H.
  setoid_rewrite elem_of_cons.
  assert ((∃ p, push_grant t g m !! token = Some p ∧ allows p c op = true)
    ↔ (∃ p, m !! token = Some p ∧ allows p c op = true) ∨ entry_grants e token c op) as ->.
  { rewrite (parse_entry_grants e token g c op t He). unfold push_grant.
    destruct (decide (t = token)) as [->|Ht].
    - rewrite lookup_insert_eq. unfold allows.
      destruct (m !! token) as [p|]; cbn [default from_option id grants].
      + split.
        * intros (p' & [= <-] & Ha). cbn [grants] in Ha. rewrite existsb_app, orb_true_iff in Ha.
          cbn [existsb] in Ha. rewrite orb_false_r in Ha. naive_solver.
        * intros Ha. eexists. split; [done|]. cbn [grants]. rewrite existsb_app, orb_true_iff.
          cbn [existsb]. rewrite orb_false_r. naive_solver.
      + split.
        * intros (p' & [= <-] & Ha). cbn in Ha. rewrite orb_false_r in Ha. by right.
        * intros [(p' & ? & _)|[_ Ha]]; [done|]. eexists. split; [done|]. cbn. by rewrite Ha.
    - rewrite lookup_insert_ne by done. naive_solver. }
  naive_solver.
Qed.

Lemma parse_entry_error e err : parse_entry e = inl err → err ≠ EmptyPolicy.
Proof.
  assert (∀ entry perms g err, set_perms entry perms g = inl err → err ≠ EmptyPolicy) as Hs.
  { intros entry perms. induction perms as [|ch perms IH]; intros g err'; cbn [set_perms]; [done|].
    repeat case_decide; try apply IH. by intros [= <-]. }
  unfold parse_entry. destruct (split_on ":" e) as [|? [|? [|? []]]]; try (by intros [= <-]).
  case_decide; [by intros [= <-]|]. destruct (set_perms _ _ _) eqn:E; [|done].
  intros [= <-]. by eapply Hs.
Qed.

Lemma parse_entries_error es m :
  match parse_entries es m with
  | inl err => ∃ es1 e es2, es = es1 ++ e :: es2 ∧ parse_entry e = inl err
               ∧ ∀ e', e' ∈ es1 → ∃ r, parse_entry e' = inr r
  | inr m' => (∀ e, e ∈ es → ∃ r, parse_entry e = inr r) ∧ (es ≠ [] → m' ≠ ∅) ∧ (es = [] → m' = m)
  end.
Proof.
  revert m. induction es as [|e es IH]; intros m; cbn [parse_entries].
  { split_and!; [by intros e ?%elem_of_nil|done|done]. }
  destruct (parse_entry e) as [err|[t g]] eqn:He.
  { exists [], e, es. split_and!; [done|done|]. by intros e' ?%elem_of_nil. }
  specialize (IH (push_grant t g m)). destruct (parse_entries es _) as [err|m'].
  - destruct IH as (es1 & e1 & es2 & -> & He1 & Hall). exists (e :: es1), e1, es2.
    split_and!; [done|done|]. intros e' [->|?]%elem_of_cons; eauto.
  - destruct IH as (Hall & Hne & Hnil). split_and!; [|intros _|done].
    + intros e' [->|?]%elem_of_cons; eauto.
    + destruct es as [|e' es']; [|by apply Hne]. rewrite Hnil by done.
      unfold push_grant. apply insert_non_empty.
Qed.

(** Parsing fails at the first malformed entry, with its error, or on a text
    without entries; otherwise it succeeds. *)
Lemma parse_total spec :
  match parse spec with
  | inl EmptyPolicy => entries spec = []
  | inl err => ∃ es1 e es2, entries spec = es1 ++ e :: es2 ∧ parse_entry e = inl err
               ∧ ∀ e', e' ∈ es1 → ∃ r, parse_entry e' = inr r
  | inr _ => entries spec ≠ [] ∧ ∀ e, e ∈ entries spec → ∃ r, parse_entry e = inr r
  end.
Proof.
  unfold parse. pose proof (parse_entries_error (entries spec) ∅) as H.
  destruct (parse_entries (entries spec) ∅) as [err|m].
  - assert (err ≠ EmptyPolicy) by (destruct H as (_ & e & _ & _ & He & _); by eapply parse_entry_error).
    by destruct err.
  - destruct H as (Hall & Hne & Hnil). case_decide as Hm.
    + destruct (entries spec); [done|]. by specialize (Hne ltac:(done)).
    + split; [|done]. intros Hes. by apply Hm, Hnil.
Qed.

(** A parsed policy authorizes exactly what its text says: a token is allowed an
    operation if and only if some entry names that token, with [*] or the very
    collection as scope, and lists the operation's letter or [a]. *)
Lemma policy_grants spec pol token c op :
  parse spec = inr pol →
  (∃ p, principal pol token = Some p ∧ allows p c op = true)
  ↔ ∃ e, e ∈ entries spec ∧ entry_grants e token c op.
Proof.
  unfold parse, principal. destruct (parse_entries (entries spec) ∅) as [|m] eqn:Hp; [done|].
  case_decide; [done|]. intros [= <-]. cbn [tokens].
  rewrite (parse_entries_allows _ _ _ token c op Hp). setoid_rewrite lookup_empty. naive_solver.
Qed.

End Rbac.
