(* ===== verification/NetAuth.v ===== *)
(** * Request authentication and authorization ([src/src/net.rs])

    The two middleware layers in front of the HTTP routes: the single bearer
    token, and the role-based policy.  A request is what the layers look at;
    JSON parsing of the body is a parameter. *)

From S2P Require Import Prelude Machine Text Store Rbac.

Local Open Scope Z_scope.

Module NetAuth.
Import Rbac.

Record Request := mkRequest {
  path : string;
  query : option string;
  is_post : bool;
  (** the [Authorization] header, if present and readable as text *)
  authorization : option string;
  body : string;
}.

Inductive Status := UNAUTHORIZED | FORBIDDEN.

(** The handler runs on a request, or the layer answers. *)
Inductive Outcome :=
  | Run (req : Request)
  | Refuse (st : Status)
  | Panic.

Definition bearer (req : Request) : option string :=
  authorization req ≫= strip_prefix "Bearer ".

Definition open_path (p : string) : bool :=
  bool_decide (p = "/health") || bool_decide (p = "/metrics").

Definition bearer_layer (token : string) (req : Request) : Outcome :=
  if open_path (path req) then Run req
  else match bearer req with
       | Some v => if decide (v = token) then Run req else Refuse UNAUTHORIZED
       | None => Refuse UNAUTHORIZED
       end.

Definition require_bearer (token : option string) (req : Request) : Outcome :=
  match token with
  | Some t => bearer_layer t req
  | None => Run req
  end.

Definition op_of (p : string) : Op :=
  if starts_with "/admin" p then Admin
  else if decide (p ∈ ["/object"; "/scan"; "/mget"; "/scanBuckets"; "/export"; "/caps";
                       "/members"; "/partitions"; "/route"; "/leader"; "/ingest/status"]) then Read
  else if decide (p ∈ ["/deleteObject"; "/dropBuckets"]) then Delete
  else Write.

(** ** Query decoding *)

Definition hex_val (a : ascii) : option Z :=
  let b := byte_val a in
  if (48 <=? b) && (b <=? 57) then Some (b - 48)
  else if (65 <=? b) && (b <=? 70) then Some (b - 55)
  else if (97 <=? b) && (b <=? 102) then Some (b - 87)
  else None.

(** [u8::from_str_radix(_, 16)] of a two-byte string: two digits, or a plus sign
    and a digit. *)
Definition from_hex2 (a b : ascii) : option Z :=
  match hex_val b with
  | Some y => if decide (a = "+"%char) then Some y else x ← hex_val a; Some (16 * x + y)
  | None => None
  end.

Definition boundary (s : string) : bool :=
  match s with EmptyString => true | String c _ => negb (is_cont (byte_val c)) end.

Definition plus_space (a : ascii) : ascii := if decide (a = "+"%char) then " "%char else a.

(** The loop of [percent_decode]; the slice of the two bytes after a percent
    sign aborts when it would split a character. *)
Fixpoint percent_loop (s : string) : option string :=
  match s with
  | EmptyString => Some EmptyString
  | String c s1 =>
      let plain := r ← percent_loop s1; Some (String (plus_space c) r) in
      if decide (c = "%"%char) then
        match s1 with
        | String a (String b s3) =>
            if boundary s3 then
              match from_hex2 a b with
              | Some v => r ← percent_loop s3; Some (String (ascii_of_N (Z.to_N v)) r)
              | None => plain
              end
            else None
        | _ => plain
        end
      else plain
  end.

Definition percent_decode (s : string) : option string := from_utf8_lossy <$> percent_loop s.

Fixpoint find_map {A B} (f : A → option B) (l : list A) : option B :=
  match l with
  | [] => None
  | x :: l' => match f x with Some y => Some y | None => find_map f l' end
  end.

(** The first [coll=] parameter, still encoded. *)
Definition raw_coll (q : string) : option string := find_map (strip_prefix "coll=") (split_on "&" q).

(** [None] for an abort of the decoder. *)
Definition coll_from_query (q : string) : option (option string) :=
  match raw_coll q with
  | None => Some None
  | Some raw => Some <$> percent_decode raw
  end.

Section policy.
Context {V : Type} `{!JsonValue V} (from_slice : string → option V)
  (get_field : V → string → option V).

Definition coll_from_body (bytes : string) : option string :=
  from_slice bytes ≫= λ v, get_field v "coll" ≫= value_as_str.

(** [to_bytes(body, 1 << 20)], empty when the body is larger. *)
Definition body_bytes (b : string) : string :=
  if (Z.of_nat (String.length b) <=? Z.shiftl 1 20) then b else EmptyString.

Definition policy_layer (pol : Policy) (req : Request) : Outcome :=
  if open_path (path req) then Run req
  else match bearer req with
  | None => Refuse UNAUTHORIZED
  | Some token =>
      let op := op_of (path req) in
      match (match query req with Some q => coll_from_query q | None => Some None end) with
      | None => Panic
      | Some query_coll =>
          let '(req, c) :=
            match query_coll, is_post req with
            | None, true =>
                let bytes := body_bytes (body req) in
                (mkRequest (path req) (query req) (is_post req) (authorization req) bytes,
                 coll_from_body bytes)
            | _, _ => (req, query_coll)
            end in
          match principal pol token with
          | Some p => if allows p c op then Run req else Refuse FORBIDDEN
          | None => Refuse UNAUTHORIZED
          end
      end
  end.

(** ** What gets through *)

(** The collection a request names: in its query, or else, for a post, in the
    body the handler will see. *)
Definition target (req : Request) : option (option string) :=
  match query req ≫= raw_coll with
  | Some raw => Some <$> percent_decode raw
  | None => Some (if is_post req then coll_from_body (body_bytes (body req)) else None)
  end.

Lemma body_bytes_idemp b : body_bytes (body_bytes b) = body_bytes b.
Proof.
  unfold body_bytes. destruct (Z.of_nat (String.length b) <=? Z.shiftl 1 20) eqn:E; [by rewrite E|done].
Qed.

(** C32. Only authorized requests reach a handler. For an open path the request
    runs unchanged. For any other path a request that runs carries a bearer token
    that the policy's configuration grants the operation of its route on the
    collection it names; a request that is refused with 403 carries a known token
    without such a grant, and one refused with 401 no known token; and what is
    neither run nor refused (the layer panics, and the connection is dropped) has
    a collection parameter in which a percent sign stands before part
    of a character. *)
Theorem policy_layer_sound spec pol req :
  parse spec = inr pol →
  if open_path (path req) then policy_layer pol req = Run req else
  match policy_layer pol req with
  | Run req' =>
      ∃ token c e, authorization req = Some ("Bearer " ++ token)%string
        ∧ target req' = Some c ∧ e ∈ entries spec
        ∧ entry_grants e token c (op_of (path req))
        ∧ path req' = path req ∧ query req' = query req
  | Refuse FORBIDDEN =>
      ∃ token p c, authorization req = Some ("Bearer " ++ token)%string
        ∧ principal pol token = Some p
        ∧ target req = Some c ∧ ∀ e, e ∈ entries spec → ¬ entry_grants e token c (op_of (path req))
  | Refuse UNAUTHORIZED =>
      ∀ token, authorization req = Some ("Bearer " ++ token)%string → principal pol token = None
  | Panic => ∃ raw, query req ≫= raw_coll = Some raw ∧ percent_decode raw = None
  end.
Proof.
  intros Hp. unfold policy_layer. destruct (open_path (path req)); [done|]. unfold bearer.
  destruct (authorization req) as [h|] eqn:Ha; cbn [mbind option_bind]; [|done].
  destruct (strip_prefix "Bearer " h) as [token|] eqn:Hb.
  2:{ intros t Ht. assert (Hh : h = ("Bearer " ++ t)%string) by congruence.
      apply strip_prefix_app in Hh. congruence. }
  apply strip_prefix_app in Hb as ->.
  set (qc := match query req with Some q => coll_from_query q | None => Some None end).
  assert (Hqc : qc = match query req ≫= raw_coll with
                     | Some raw => Some <$> percent_decode raw | None => Some None end).
  { subst qc. destruct (query req); [|done]. unfold coll_from_query. cbn. by destruct (raw_coll _). }
  destruct qc as [query_coll|].
  2:{ destruct (query req ≫= raw_coll) as [raw|]; [|done]. exists raw. split; [done|].
      by destruct (percent_decode raw). }
  set (rc := match query_coll, is_post req with None, true => _ | _, _ => _ end).
  assert (Hrc : target rc.1 = Some rc.2 ∧ target req = Some rc.2 ∧ path rc.1 = path req ∧ query rc.1 = query req).
  { subst rc. unfold target. destruct (query req ≫= raw_coll) as [raw|] eqn:Hq.
    - destruct (percent_decode raw) as [c|] eqn:Hc; [|done]. cbn in Hqc. injection Hqc as ->.
      cbn [fst snd]. by rewrite Hq, Hc.
    - injection Hqc as ->. destruct (is_post req) eqn:Hpost; cbn [fst snd query is_post body path];
        by rewrite Hq, ?Hpost, ?body_bytes_idemp. }
  destruct rc as [req' c]. cbn [fst snd] in Hrc. destruct Hrc as (Ht & Ht0 & Hpath & Hquery).
  destruct (principal pol token) as [p|] eqn:Hpr; [|intros t [= Heq]; change (token = t) in Heq; by subst t].
  pose proof (policy_grants spec pol token c (op_of (path req)) Hp) as Hgr. rewrite Hpr in Hgr.
  destruct (allows p c _) eqn:Hal.
  - destruct (proj1 Hgr ltac:(by exists p)) as (e & He & Hg). by exists token, c, e.
  - exists token, p, c. split_and!; [done..|]. intros e He Hg.
    destruct (proj2 Hgr ltac:(by exists e)) as (p' & [= <-] & Hal'). congruence.
Qed.

(** The collection checked need not be the one written: a token with access
    to one collection gets any body through to the handler of a post route by
    naming that collection in the query string, since the query takes
    precedence over the body that the handler reads. *)
Lemma query_coll_bypasses_scope pol token p c op_path b :
  principal pol token = Some p → open_path op_path = false →
  percent_decode c = Some c → raw_coll ("coll=" ++ c) = Some c →
  allows p (Some c) (op_of op_path) = true →
  let req := mkRequest op_path (Some ("coll=" ++ c)%string) true
               (Some ("Bearer " ++ token)%string) b in
  policy_layer pol req = Run req.
Proof.
  intros Hp Hopen Hd Hr Ha req. unfold policy_layer. subst req.
  cbn [path query is_post authorization body].
  rewrite Hopen. unfold bearer. cbn [authorization mbind option_bind].
  rewrite (proj2 (strip_prefix_app "Bearer " _ token) eq_refl).
  unfold coll_from_query. rewrite Hr, Hd. cbn [fmap option_fmap option_map].
  by rewrite Hp, Ha.
Qed.

End policy.
End NetAuth.
