(* ===== verification/Gateway.v ===== *)
(** * The guarded HTTP server of a shard ([src/src/net.rs], [src/src/bin/stplrd.rs])

    The routes of a shard behind one of the two middleware layers, as the daemon
    composes them: what a request with some credential can do to the data.  The
    layer looks at the raw request (NetAuth.v), the routes at its decoded query
    or at the bytes of its body (Http.v). *)

From S2P Require Import Prelude Machine Text Wire Partitioner Store Lease Shard Replica Client Http.
From S2P Require Import Rbac NetAuth.

Local Open Scope Z_scope.

Module Gateway.
Import Http.

Section server.
Context {V St : Type} `{!IndexStore V St, !JsonValue V, !WireJson V, !JsonEnvelope V, !LeaseCodec V}.
Implicit Types (sh : Shard.t St).

(** The decoding of a query string into its parameters. *)
Context (parse_query : string → list (string * string)).

(** The two guards of a router. *)
Inductive guard :=
  | RequirePolicy (pol : Rbac.Policy)
  | RequireBearer (token : option string).

(** The policy layer parses the body for itself. *)
Definition from_slice (b : string) : option V := value_from_slice (as_bytes b).

Definition layer (g : guard) (req : NetAuth.Request) : NetAuth.Outcome :=
  match g with
  | RequirePolicy pol => NetAuth.policy_layer from_slice value_get pol req
  | RequireBearer token => NetAuth.require_bearer token req
  end.

(** What the routes see of a request ([is_post] tells a POST from a GET). *)
Definition decoded (req : NetAuth.Request) : request bytes :=
  if NetAuth.is_post req then PostReq (NetAuth.path req) (as_bytes (NetAuth.body req))
  else GetReq (NetAuth.path req) (parse_query (default EmptyString (NetAuth.query req))).

Definition status_of (st : NetAuth.Status) : Z :=
  match st with NetAuth.UNAUTHORIZED => 401 | NetAuth.FORBIDDEN => 403 end.

(** One request; no response when the task that serves it panics. *)
Definition serve (body_limit : Z) (g : guard) (req : NetAuth.Request) (now : Z) sh
    : Shard.t St * option (response V) :=
  match layer g req with
  | NetAuth.Run req' =>
      let '(sh', r) := app body_limit (decoded req') now sh in (sh', Some r)
  | NetAuth.Refuse st => (sh, Some (refuse (status_of st)))
  | NetAuth.Panic => (sh, None)
  end.

End server.

(** ** Which collection a request acts on *)

Section confinement.
Context {V St : Type} `{!IndexStore V St, !IndexStoreLaws V St, !JsonValue V}.
Context `{!WireJson V, !JsonEnvelope V, !LeaseCodec V}.
Implicit Types (sh : Shard.t St) (c k : string).

(** Collection [c] reads the same, at all times. *)
Definition untouched c sh sh' : Prop :=
  store_wf (Shard.store sh') ∧ ∀ now k, Shard.object now sh' c k = Shard.object now sh c k.

Lemma untouched_refl c sh : store_wf (Shard.store sh) → untouched c sh sh.
Proof. by split. Qed.

Lemma untouched_put c c' k v sh :
  store_wf (Shard.store sh) → entry_ok c' k v → c' ≠ c →
  untouched c sh (Shard.with_store sh (put_object (Shard.store sh) c' k v)).
Proof.
  intros Hwf Hok Hc. split; [by apply wf_put|]. intros now i.
  apply get_put_ne; [done|done|congruence].
Qed.

Lemma untouched_put_at c c' k v e sh :
  store_wf (Shard.store sh) → entry_ok c' k v → is_u64 e → c' ≠ c →
  untouched c sh (Shard.with_store sh (put_object_at (Shard.store sh) c' k v e)).
Proof.
  intros Hwf Hok He Hc. split; [by apply wf_put_at|]. intros now i.
  unfold Shard.object. cbn [Shard.store Shard.with_store].
  rewrite get_put_at, decide_False by (done || congruence). done.
Qed.

Lemma untouched_delete c c' k sh :
  store_wf (Shard.store sh) → c' ≠ c → untouched c sh (Shard.delete_object sh c' k).
Proof.
  intros Hwf Hc. split; [by apply wf_delete|]. intros now i. apply get_delete_ne; [done|congruence].
Qed.

#[local] Hint Resolve untouched_refl untouched_put untouched_put_at untouched_delete u64_add_range : core.

(** Every operation of the shard leaves the other collections alone. *)

Lemma untouched_write_ttl now sh c c' k v t :
  store_wf (Shard.store sh) → entry_ok c' k v → c' ≠ c →
  untouched c sh (Shard.write_object_ttl now sh c' k v t).
Proof. intros. unfold Shard.write_object_ttl. destruct (t =? 0); auto. Qed.

Lemma untouched_set_add now sh c c' k m :
  store_wf (Shard.store sh) → lists_ok (V := V) (St := St) c' k → c' ≠ c →
  untouched c sh (Shard.set_add now sh c' k m).1.
Proof.
  intros. unfold Shard.set_add, Store.set_add. case_decide; [by destruct sh; apply untouched_refl|].
  by apply untouched_put.
Qed.

Lemma untouched_set_remove now sh c c' k m :
  store_wf (Shard.store sh) → lists_ok (V := V) (St := St) c' k → c' ≠ c →
  untouched c sh (Shard.set_remove now sh c' k m).1.
Proof.
  intros. unfold Shard.set_remove, Store.set_remove.
  case_match; [by destruct sh; apply untouched_refl|]. case_decide.
  - by apply untouched_delete.
  - by apply untouched_put.
Qed.

Lemma untouched_cas now sh c c' k e v :
  store_wf (Shard.store sh) → entry_ok c' k v → c' ≠ c →
  untouched c sh (Shard.cas now sh c' k e v).1.
Proof.
  intros. unfold Shard.cas, Store.cas. case_match; [by apply untouched_put|].
  by destruct sh; apply untouched_refl.
Qed.

Lemma untouched_incr now sh c c' k d :
  store_wf (Shard.store sh) → numbers_ok (V := V) (St := St) c' k → c' ≠ c →
  untouched c sh (Shard.incr now sh c' k d).1.
Proof.
  intros ? Hk ?. unfold Shard.incr, Store.incr.
  case_match; [|by destruct sh; apply untouched_refl].
  apply untouched_put; [done|apply Hk, i64_wrap_range|done].
Qed.

Lemma untouched_import sh c c' (es : list (string * V)) :
  store_wf (Shard.store sh) → Shard.entries_ok c' es → c' ≠ c →
  untouched c sh (Shard.import_entries sh c' es).
Proof.
  intros Hwf Hok Hc. destruct (Shard.import_entries_spec sh c' es Hwf Hok) as [Hwf' Hget].
  split; [done|]. intros now k. specialize (Hget c k). rewrite decide_False in Hget by done.
  apply Hget.
Qed.

Lemma untouched_drop now sh c c' bs :
  store_wf (Shard.store sh) → c' ≠ c → untouched c sh (Shard.drop_buckets now sh c' bs).1.
Proof.
  intros Hwf Hc. rewrite Shard.drop_buckets_delete_all. cbn [fst].
  destruct (Shard.delete_all_spec sh c' (map fst (Shard.export_entries now sh c' bs)) Hwf)
    as [Hwf' Hget].
  split; [done|]. intros now' k. specialize (Hget c k). rewrite decide_False in Hget by naive_solver.
  apply Hget.
Qed.

Lemma untouched_lease now sh c k h t :
  store_wf (Shard.store sh) → (∀ l, entry_ok (V := V) (St := St) Lease.LEASE_COLL k (value_from_lease l)) →
  Lease.LEASE_COLL ≠ c →
  untouched c sh (Shard.lease_acquire now sh k h t).1.
Proof. intros. unfold Shard.lease_acquire. cbn [fst]. case_match; auto. Qed.

Lemma with_json_untouched {A} limit b (dec : V → option A) (h : A → handler (V := V)) now sh c :
  store_wf (Shard.store sh) →
  (∀ v a, value_from_slice b = Some v → dec v = Some a → untouched c sh (h a now sh).1) →
  untouched c sh (with_json limit b dec h now sh).1.
Proof.
  intros Hwf Hh. unfold with_json. case_match; [by apply untouched_refl|].
  destruct (value_from_slice b) as [v|] eqn:Hv; [|by apply untouched_refl].
  destruct (dec v) as [a|] eqn:Ha; [|by apply untouched_refl]. by eapply Hh.
Qed.

(** What the store can hold at the key the body names. *)
Ltac fits Hk c k :=
  match goal with Hv : value_from_slice _ = Some _ |- _ =>
    destruct (Hk c k Hv ltac:(done) ltac:(by apply body_key)) as (K1 & K2 & K3 & K4)
  end.

(** A post changes the collection it acts on only. *)
Lemma post_untouched limit p b now sh c :
  store_wf (Shard.store sh) → keys_ok p b →
  (∀ v, value_from_slice b = Some v → acts_on p v ≠ Some c) →
  untouched c sh (app limit (PostReq p b) now sh).1.
Proof.
  intros Hwf Hkeys Hc. unfold keys_ok, acts_on in *. cbn [app].
  repeat (match goal with |- context [String.eqb p ?q] => destruct (String.eqb_spec p q) as [->|] end;
    [cbn [String.eqb Ascii.eqb Bool.eqb] in *;
     apply with_json_untouched; [done|]; intros v a Hv Ha;
     specialize (Hc v Hv); pose proof (Hkeys v) as Hk; clear Hkeys|]);
    [..|by apply untouched_refl].
  all: try (by apply untouched_refl).
  - decoded_as Ha. unfold set_add. cbn [st_coll st_key st_member]. fits Hk x x0.
    pose proof (untouched_set_add now sh c x x0 x1) as Hu. destruct (Shard.set_add _ _ _ _ _).
    apply Hu; [done|done|congruence].
  - decoded_as Ha. unfold set_remove. cbn [st_coll st_key st_member]. fits Hk x x0.
    pose proof (untouched_set_remove now sh c x x0 x1) as Hu. destruct (Shard.set_remove _ _ _ _ _).
    apply Hu; [done|done|congruence].
  - decoded_as Ha. unfold write. cbn [wr_coll wr_key wr_obj wr_ttl fst]. fits Hk x x0.
    assert (entry_ok x x0 x1) by (apply K4, body_obj; by left).
    assert (x ≠ c) by congruence. destruct x2 as [t|]; [|by apply untouched_put].
    destruct (0 <? t); [by apply untouched_write_ttl|by apply untouched_put].
  - decoded_as Ha. unfold cas. cbn [cs_coll cs_key cs_expect cs_new]. fits Hk x x0.
    pose proof (untouched_cas now sh c x x0 x1 x2) as Hu. destruct (Shard.cas _ _ _ _ _ _).
    apply Hu; [done|apply K4, body_obj; by right|congruence].
  - decoded_as Ha. unfold incr. cbn [in_coll in_key in_delta]. fits Hk x x0.
    pose proof (untouched_incr now sh c x x0 x1) as Hu. destruct (Shard.incr _ _ _ _ _).
    apply Hu; [done|done|congruence].
  - decoded_as Ha. unfold delete_object. cbn [dl_coll dl_key fst].
    apply untouched_delete; [done|congruence].
  - pose proof (λ k x, body_entry v a k x Ha) as He. decoded_as Ha. unfold import. cbn [im_coll im_entries fst].
    apply untouched_import; [done| |congruence]. intros k w Hin. destruct (He k w Hin) as [Hk1 Hw].
    by apply (Hk x k Hv).
  - decoded_as Ha. unfold drop_buckets. cbn [bk_coll bk_buckets].
    pose proof (untouched_drop now sh c x x0) as Hu. destruct (Shard.drop_buckets _ _ _ _).
    apply Hu; [done|congruence].
  - decoded_as Ha. unfold lease_acquire. cbn [ls_key ls_holder ls_ttl]. fits Hk Lease.LEASE_COLL x.
    pose proof (untouched_lease now sh c x x0 x1) as Hu.
    destruct (Shard.lease_acquire _ _ _ _ _) as [? [? []]].
    apply Hu; [done|done|congruence].
Qed.

(** ** What a scoped token can do *)

Context (parse_query : string → list (string * string)).

(** A post without a [coll] parameter that the policy layer lets through: the
    token is granted the operation on the collection of the body that the
    handler will see. *)
Lemma policy_run pol req req' :
  NetAuth.policy_layer from_slice value_get pol req = NetAuth.Run req' →
  NetAuth.open_path (NetAuth.path req) = false →
  NetAuth.query req ≫= NetAuth.raw_coll = None → NetAuth.is_post req = true →
  ∃ token p, NetAuth.authorization req = Some ("Bearer " ++ token)%string
    ∧ Rbac.principal pol token = Some p
    ∧ NetAuth.is_post req' = true ∧ NetAuth.path req' = NetAuth.path req
    ∧ NetAuth.body req' = NetAuth.body_bytes (NetAuth.body req)
    ∧ Rbac.allows p (NetAuth.coll_from_body (V := V) from_slice value_get (NetAuth.body req'))
        (NetAuth.op_of (NetAuth.path req)) = true.
Proof.
  intros Hrun Hopen Hq Hpost. unfold NetAuth.policy_layer in Hrun. rewrite Hopen, Hpost in Hrun.
  unfold NetAuth.bearer in Hrun. destruct (NetAuth.authorization req) as [h|]; [|done].
  cbn [mbind option_bind] in Hrun. destruct (strip_prefix "Bearer " h) as [token|] eqn:Hb; [|done].
  apply strip_prefix_app in Hb as ->.
  assert (match NetAuth.query req with Some q => NetAuth.coll_from_query q | None => Some None end
          = Some None) as Hc.
  { destruct (NetAuth.query req) as [q|]; [|done]. unfold NetAuth.coll_from_query. cbn in Hq.
    by rewrite Hq. }
  rewrite Hc in Hrun. cbv beta iota zeta in Hrun.
  destruct (Rbac.principal pol token) as [p|] eqn:Hp; [|done].
  destruct (Rbac.allows p _ _) eqn:Ha; [|done]. injection Hrun as <-. by exists token, p.
Qed.

(** Reads change nothing. *)
Lemma get_pure limit p q now sh : (app (V := V) (St := St) limit (GetReq p q) now sh).1 = sh.
Proof. cbn [app]. unfold with_query. by repeat case_match. Qed.

Lemma open_path_pure limit p b now sh :
  NetAuth.open_path p = true → (app (V := V) (St := St) limit (PostReq p b) now sh).1 = sh.
Proof.
  unfold NetAuth.open_path. intros [->%bool_decide_eq_true| ->%bool_decide_eq_true]%orb_true_iff; done.
Qed.

(** C33. A token is confined to its collections: with a policy in place, a request
    without a [coll] parameter, whatever its route, leaves every collection as it
    was on which the policy's text does not grant the presented token the
    operation of the route (all of them, when it presents none); only the lease
    route reaches a collection that its body does not name, the one of the leases.
    The keys a body names and the values it carries are ones the store can hold
    ([keys_ok]); on the durable store this excludes names with a NUL, with which
    two objects could share an expiry entry ([Lmdb.shared_expiry_entry]), and
    sizes that LMDB refuses. *)
Theorem scoped_token_confined spec pol limit req now sh c :
  Rbac.parse spec = inr pol → store_wf (Shard.store sh) →
  NetAuth.query req ≫= NetAuth.raw_coll = None →
  (NetAuth.path req = "/leaseAcquire"%string → c ≠ Lease.LEASE_COLL) →
  (∀ token e, NetAuth.authorization req = Some ("Bearer " ++ token)%string → e ∈ Rbac.entries spec →
     ¬ Rbac.entry_grants e token (Some c) (NetAuth.op_of (NetAuth.path req))) →
  keys_ok (NetAuth.path req) (as_bytes (NetAuth.body_bytes (NetAuth.body req))) →
  untouched c sh (serve parse_query limit (RequirePolicy pol) req now sh).1.
Proof.
  intros Hp Hwf Hq Hlease Hno Hkeys. unfold serve. cbn [layer].
  destruct (NetAuth.policy_layer _ _ pol req) as [req'|st|] eqn:Hrun; try by apply untouched_refl.
  enough (untouched c sh (app limit (decoded parse_query req') now sh).1) as Hu
    by (destruct (app limit _ now sh); exact Hu).
  unfold decoded. destruct (NetAuth.is_post req') eqn:Hpost'.
  2:{ rewrite get_pure. by apply untouched_refl. }
  destruct (NetAuth.open_path (NetAuth.path req)) eqn:Hopen.
  { unfold NetAuth.policy_layer in Hrun. rewrite Hopen in Hrun. injection Hrun as <-.
    rewrite open_path_pure by done. by apply untouched_refl. }
  destruct (NetAuth.is_post req) eqn:Hpost.
  2:{ exfalso. clear -Hrun Hopen Hq Hpost Hpost'. unfold NetAuth.policy_layer in Hrun.
      rewrite Hopen, Hpost in Hrun. repeat case_match; simplify_eq; congruence. }
  destruct (policy_run pol req req' Hrun Hopen Hq Hpost)
    as (token & p & Htok & Hpr & _ & Hpath & Hbody & Hall).
  rewrite Hpath, Hbody in *. apply post_untouched; [done|done|]. intros v Hv Hact.
  unfold NetAuth.coll_from_body, from_slice in Hall. rewrite Hv in Hall. cbn [mbind option_bind] in Hall.
  unfold acts_on in Hact. destruct (String.eqb_spec (NetAuth.path req) "/leaseAcquire") as [Hl|_].
  { injection Hact as <-. by apply Hlease. }
  change (value_get v "coll" ≫= value_as_str) with (get_str v "coll") in Hall. rewrite Hact in Hall.
  destruct (proj1 (Rbac.policy_grants spec pol token (Some c) (NetAuth.op_of (NetAuth.path req)) Hp))
    as (e & He & Hg); [by exists p|]. by apply (Hno token e).
Qed.

End confinement.

(** ** Where the confinement ends *)

Section bypass.
Context {V St : Type} `{!IndexStore V St, !IndexStoreLaws V St, !JsonValue V, !JsonLaws V}.
Context `{!WireJson V, !JsonEnvelope V, !JsonEnvelopeLaws V, !LeaseCodec V}.
Context (parse_query : string → list (string * string)).
Implicit Types (sh : Shard.t St).

(** C38. A query parameter lifts the confinement: a token with write access to a
    single collection [c] writes any object into any other collection [c2], by
    adding [?coll=c] to the address of the write route: the layer authorizes
    the query's collection, and the route writes to the body's. *)
Theorem scope_bypass_by_query pol limit now sh token p c c2 k (v : V) :
  Rbac.principal pol token = Some p → Rbac.allows p (Some c) Rbac.Write = true →
  NetAuth.percent_decode c = Some c → NetAuth.raw_coll ("coll=" ++ c) = Some c →
  store_wf (Shard.store sh) → entry_ok c2 k v →
  sendable limit (CWrite V c2 k v) →
  let req := NetAuth.mkRequest "/write" (Some ("coll=" ++ c)%string) true
               (Some ("Bearer " ++ token)%string) (text (value_to_vec (ser_write (mkWrite c2 k v None)))) in
  let '(sh', r) := serve parse_query limit (RequirePolicy pol) req now sh in
  status <$> r = Some 200 ∧ ∀ t, Shard.object t sh' c2 k = Some v.
Proof.
  intros Hp Ha Hd Hr Hwf Hok Hs req. unfold serve. cbn [layer]. unfold req.
  rewrite (NetAuth.query_coll_bypasses_scope _ _ pol token p c "/write" _ Hp) by done.
  unfold decoded. cbn [NetAuth.is_post NetAuth.path NetAuth.body].
  rewrite as_bytes_text. cbn [app String.eqb Ascii.eqb Bool.eqb].
  rewrite (with_json_ok _ _ _ _ (mkWrite c2 k v None)); [|exact Hs|by apply de_ser_write].
  split; [done|]. intros t. by apply get_put_eq.
Qed.

Lemma text_length b : String.length (text b) = length b.
Proof. induction b as [|a b IH]; [done|]. cbn. by rewrite <-IH. Qed.

(** A write token for any collection takes or renews any lease, the leader's
    included: the lease route ignores the [coll] field that the layer reads. *)
Lemma scope_bypass_by_lease pol limit now sh token p c k h t b :
  Rbac.principal pol token = Some p → Rbac.allows p (Some c) Rbac.Write = true →
  Z.of_nat (length b) ≤ Z.min limit (Z.shiftl 1 20) →
  (∃ v : V, value_from_slice b = Some v ∧ get_str v "coll" = Some c ∧ de_lease v = Some (mkLease k h t)) →
  (serve parse_query limit (RequirePolicy pol)
     (NetAuth.mkRequest "/leaseAcquire" None true (Some ("Bearer " ++ token)%string) (text b)) now sh).1
  = (Shard.lease_acquire now sh k h t).1.
Proof.
  intros Hp Ha Hb (v & Hv & Hc & Hl). unfold serve. cbn [layer]. unfold NetAuth.policy_layer.
  cbn [NetAuth.path NetAuth.query NetAuth.is_post NetAuth.authorization NetAuth.body].
  unfold NetAuth.bearer. cbn [NetAuth.authorization mbind option_bind].
  rewrite (proj2 (strip_prefix_app "Bearer " _ token) eq_refl).
  unfold NetAuth.body_bytes, NetAuth.coll_from_body, from_slice. rewrite text_length.
  destruct (Z.leb_spec (Z.of_nat (length b)) (Z.shiftl 1 20)) as [_|]; [|lia].
  rewrite as_bytes_text, Hv, Hp. cbn [mbind option_bind].
  change (value_get v "coll" ≫= value_as_str) with (get_str v "coll"). rewrite Hc.
  change (NetAuth.op_of "/leaseAcquire") with Rbac.Write. rewrite Ha.
  change (NetAuth.open_path "/leaseAcquire") with false. cbv iota.
  unfold decoded. cbn [NetAuth.is_post NetAuth.path NetAuth.body]. rewrite as_bytes_text.
  cbn [app String.eqb Ascii.eqb Bool.eqb]. unfold with_json.
  destruct (Z.ltb_spec limit (Z.of_nat (length b))); [lia|]. rewrite Hv, Hl.
  unfold lease_acquire. cbn [ls_key ls_holder ls_ttl].
  by destruct (Shard.lease_acquire _ _ _ _ _) as [? [? []]].
Qed.

(** Under a policy a body above 1 MiB never reaches its route: the layer hands
    on an empty one. *)
Lemma policy_body_cap pol limit req now sh :
  value_from_slice [] = (None : option V) → NetAuth.query req ≫= NetAuth.raw_coll = None →
  NetAuth.is_post req = true → Z.shiftl 1 20 < Z.of_nat (String.length (NetAuth.body req)) →
  (serve parse_query limit (RequirePolicy pol) req now sh).1 = sh.
Proof.
  intros Hnil Hq Hpost Hbig. unfold serve. cbn [layer].
  destruct (NetAuth.policy_layer _ _ pol req) as [req'|st|] eqn:Hrun; try done.
  enough ((app limit (decoded parse_query req') now sh).1 = sh) as Hu
    by (destruct (app limit _ now sh); exact Hu).
  destruct (NetAuth.open_path (NetAuth.path req)) eqn:Hopen.
  { unfold NetAuth.policy_layer in Hrun. rewrite Hopen in Hrun. injection Hrun as <-.
    unfold decoded. rewrite Hpost. by apply open_path_pure. }
  destruct (policy_run pol req req' Hrun Hopen Hq Hpost) as (_ & _ & _ & _ & Hp' & _ & Hb & _).
  unfold decoded. rewrite Hp', Hb. unfold NetAuth.body_bytes.
  destruct (Z.leb_spec (Z.of_nat (String.length (NetAuth.body req))) (Z.shiftl 1 20)); [lia|].
  cbn [app as_bytes String.list_ascii_of_string]. unfold with_json. cbn [length]. rewrite Hnil.
  by repeat case_match.
Qed.

End bypass.
End Gateway.
