(* ===== verification/CoordServer.v ===== *)
(** * The guarded coordinator ([src/src/coord.rs], [serve_addr_full])

    The coordinator as it is served: the data routes, the control routes when it
    takes part in elections, the ingest routes when it has a queue, all behind
    one of the two middleware layers.  The election loop and the drainer run
    beside it (Election.v, Ingest.v). *)

From S2P Require Import Prelude Machine Text Wire Partitioner Reshard Store Lease Shard Client Http.
From S2P Require Import Journal Cluster Kvdb Ingest Election Coord Rbac NetAuth Gateway.

Local Open Scope Z_scope.

Module CoordServer.
Import Http Election.

Section server.
Context `{!HashIter} {V St D : Type} `{!IndexStore V St, !JsonValue V, !WireJson V, !JsonEnvelope V}.
Context `{!LeaseCodec V, !Env, !Ingest.IngestCodec V, !KvDb D}.
Context (parse_query : string → list (string * string)).

Record t := mk {
  cluster : Cluster.t;
  leadership : option Leadership;    (** with [--coordinator-id] *)
  queue : option (Ingest.t D);       (** with [--ingest-queue] *)
}.

Definition set_cluster (co : t) (cl : Cluster.t) : t := mk cl (leadership co) (queue co).
Definition set_queue (co : t) (q : Ingest.t D) : t := mk (cluster co) (leadership co) (Some q).

(** The bodies of the control routes. *)
Definition de_rebalance (v : V) : option (list string) := value_get v "nodes" ≫= value_to_strings.
Definition de_drain (v : V) : option string := get_str v "node".

Abbreviation answer := (M St (t * response V)).

(** The JSON extractor, in front of a handler that may change the state. *)
Definition with_body {A} (limit : Z) (co : t) (b : bytes) (dec : V → option A) (h : A → answer)
    : answer :=
  if limit <? Z.of_nat (length b) then mret (co, refuse 413)
  else match value_from_slice b with
       | None => mret (co, refuse 400)
       | Some v => match dec v with Some a => h a | None => mret (co, refuse 422) end
       end.

(** [app_with_leadership]'s control routes: the cluster is replaced by what the
    operation leaves. *)
Definition control (co : t) (op : Cluster.t → M St (Cluster.t * response V)) : answer :=
  '(cl, r) ← op (cluster co); mret (set_cluster co cl, r).

(** [app], [app_with_leadership] and [add_ingest_routes]; every other route is
    the data plane's. *)
Definition routes (limit : Z) (co : t) (r : request bytes) : answer :=
  let data := x ← Coord.app limit (cluster co) r; mret (co, x) in
  match r with
  | GetReq p _ =>
      let ingest :=
        match queue co with
        | Some q => if String.eqb p "/ingest/status" then mret (co, Coord.ingest_status q) else data
        | None => data
        end in
      match leadership co with
      | Some l => if String.eqb p "/leader" then mret (co, Coord.leader_status l) else ingest
      | None => ingest
      end
  | PostReq p b =>
      let ingest :=
        match queue co with
        | Some q =>
            if String.eqb p "/enqueue" then
              with_body limit co b de_write (λ body,
                let '(q', x) := Coord.enqueue q body in mret (set_queue co q', x))
            else data
        | None => data
        end in
      match leadership co with
      | Some l =>
          if String.eqb p "/admin/rebalance" then
            with_body limit co b de_rebalance (λ nodes,
              control co (λ cl, Coord.admin_rebalance l cl nodes))
          else if String.eqb p "/admin/drain" then
            with_body limit co b de_drain (λ node, control co (λ cl, Coord.admin_drain l cl node))
          else ingest
      | None => ingest
      end
  end.

(** [serve_addr_full]: one request through the guard. *)
Definition serve (limit : Z) (g : Gateway.guard) (co : t) (req : NetAuth.Request)
    : M St (t * option (response V)) :=
  match Gateway.layer (V := V) g req with
  | NetAuth.Run req' =>
      '(co', r) ← routes limit co (Gateway.decoded parse_query req'); mret (co', Some r)
  | NetAuth.Refuse st => mret (co, Some (refuse (Gateway.status_of st)))
  | NetAuth.Panic => mret (co, None)
  end.

End server.
Arguments t : clear implicits.

(** ** Who can run a control operation *)

Section control.
Context `{!HashIter} {V St D : Type} `{!IndexStore V St, !JsonValue V, !WireJson V, !JsonEnvelope V}.
Context `{!LeaseCodec V, !Env, !Ingest.IngestCodec V, !KvDb D}.
Context (parse_query : string → list (string * string)).
Implicit Types (co : t D) (w : world St).

(** A path of the control plane. *)
Definition is_control (p : string) : bool := starts_with "/admin" p.

Lemma admin_not_led l (cl : Cluster.t) (op : M St (Cluster.t * Cluster.MigrateSummary)) w :
  is_leader l = false → (Coord.admin (V := V) l cl op w).1 = w ∧ (Coord.admin (V := V) l cl op w).2.1 = cl.
Proof. intros Hl. unfold Coord.admin, Coord.not_leader. by rewrite Hl. Qed.

Lemma control_path p : is_control p = true → ∃ s, p = ("/admin" ++ s)%string.
Proof.
  intros Hp. unfold is_control, starts_with in Hp.
  do 6 (destruct p as [|? p]; [done|]; cbn [String.prefix] in Hp; case_match; [|done]; subst).
  by exists p.
Qed.

(** No other route is in the control plane. *)
Lemma data_refuses limit (cl : Cluster.t) r p w :
  is_control p = true → ((∃ q, r = GetReq p q) ∨ ∃ b, r = PostReq p b) →
  Coord.app (V := V) limit cl r w = (w, refuse 404).
Proof. intros [s ->]%control_path [[q ->]|[b ->]]; done. Qed.

Lemma with_body_same {A} limit co b (dec : V → option A) (h : A → M St (t D * response V)) w :
  (∀ a, (h a w).1 = w ∧ (h a w).2.1 = co) →
  (with_body limit co b dec h w).1 = w ∧ (with_body limit co b dec h w).2.1 = co.
Proof. intros Hh. unfold with_body. by repeat case_match. Qed.

Lemma control_same co (op : Cluster.t → M St (Cluster.t * response V)) w :
  (op (cluster co) w).1 = w → (op (cluster co) w).2.1 = cluster co →
  (control co op w).1 = w ∧ (control co op w).2.1 = co.
Proof.
  intros Hw Hcl. unfold control, mbind, M_bind, mret, M_ret.
  destruct (op (cluster co) w) as [w' [cl r]]. cbn in *. subst. by destruct co.
Qed.

(** A request to the control plane of a coordinator that does not lead changes
    nothing. *)
Lemma control_not_led limit co r w p :
  is_control p = true → ((∃ q, r = GetReq p q) ∨ ∃ b, r = PostReq p b) →
  (∀ l, leadership co = Some l → is_leader l = false) →
  (routes (V := V) limit co r w).1 = w ∧ (routes (V := V) limit co r w).2.1 = co.
Proof.
  intros Hp Hr Hl. pose proof (data_refuses limit (cluster co) r p w Hp Hr) as Hdata.
  set (data := x ← Coord.app limit (cluster co) r; mret (co, x)).
  assert (data w = (w, (co, refuse (V := V) 404))) as Hd.
  { unfold data, mbind, M_bind, mret, M_ret. by rewrite Hdata. }
  unfold routes. fold data. apply control_path in Hp as [s ->].
  destruct Hr as [[q ->]|[b ->]]; cbv zeta.
  - repeat case_match; try done; by rewrite Hd.
  - destruct (leadership co) as [l|] eqn:El; [|repeat case_match; try done; by rewrite Hd].
    specialize (Hl l eq_refl).
    destruct (String.eqb _ "/admin/rebalance"); [|destruct (String.eqb _ "/admin/drain")].
    + apply with_body_same. intros nodes. apply control_same; by apply admin_not_led.
    + apply with_body_same. intros node. apply control_same; by apply admin_not_led.
    + repeat case_match; try done; by rewrite Hd.
Qed.

(** A request that the policy layer lets through, on a closed path. *)
Lemma run_granted pol req req' :
  NetAuth.policy_layer (V := V) Gateway.from_slice value_get pol req = NetAuth.Run req' →
  NetAuth.open_path (NetAuth.path req) = false →
  NetAuth.path req' = NetAuth.path req
  ∧ ∃ token p c, NetAuth.authorization req = Some ("Bearer " ++ token)%string
      ∧ Rbac.principal pol token = Some p ∧ Rbac.allows p c (NetAuth.op_of (NetAuth.path req)) = true.
Proof.
  intros Hrun Hopen. unfold NetAuth.policy_layer in Hrun. rewrite Hopen in Hrun.
  unfold NetAuth.bearer in Hrun. destruct (NetAuth.authorization req) as [h|]; [|done].
  cbn [mbind option_bind] in Hrun. destruct (strip_prefix "Bearer " h) as [token|] eqn:Hb; [|done].
  apply strip_prefix_app in Hb as ->.
  repeat case_match; simplify_eq; (split; [done|]); eauto 10.
Qed.

(** C34. The control plane is gated twice.  Under a policy, a request to a control
    route, whatever its method and body, changes neither the coordinator nor any
    shard, unless this coordinator believes it leads and the policy's text
    grants the presented token the admin permission (on some collection). *)
Theorem control_is_gated spec pol limit co req w :
  Rbac.parse spec = inr pol → is_control (NetAuth.path req) = true →
  let '(w', (co', _)) := serve (V := V) parse_query limit (Gateway.RequirePolicy pol) co req w in
  (w' = w ∧ co' = co)
  ∨ (∃ l, leadership co = Some l ∧ is_leader l = true)
    ∧ ∃ token c e, NetAuth.authorization req = Some ("Bearer " ++ token)%string
        ∧ e ∈ Rbac.entries spec ∧ Rbac.entry_grants e token c Rbac.Admin.
Proof.
  intros Hp Hc. unfold serve. cbn [Gateway.layer].
  destruct (NetAuth.policy_layer _ _ pol req) as [req'|st|] eqn:Hrun; [|by left..].
  assert (NetAuth.open_path (NetAuth.path req) = false) as Hopen.
  { destruct (control_path _ Hc) as [s ->]. done. }
  destruct (run_granted pol req req' Hrun Hopen) as (Hpath & token & p & c & Ha & Hpr & Hal).
  assert (NetAuth.op_of (NetAuth.path req) = Rbac.Admin) as Hop.
  { unfold NetAuth.op_of. unfold is_control in Hc. by rewrite Hc. }
  rewrite Hop in Hal. unfold mbind, M_bind, mret, M_ret.
  set (r := Gateway.decoded parse_query req').
  assert ((∃ q, r = GetReq (NetAuth.path req) q) ∨ ∃ b, r = PostReq (NetAuth.path req) b) as Hr.
  { unfold r, Gateway.decoded. rewrite Hpath. destruct (NetAuth.is_post req'); eauto. }
  pose proof (control_not_led limit co r w _ Hc Hr) as Hsame.
  destruct (routes limit co r w) as [w' [co' x]]. cbn [fst snd] in Hsame.
  destruct (match leadership co with Some l => is_leader l | None => false end) eqn:Hl.
  - right. split; [destruct (leadership co) as [l|]; [by exists l|done]|].
    destruct (proj1 (Rbac.policy_grants spec pol token c Rbac.Admin Hp)) as (e & He & Hg);
      [by exists p|]. by exists token, c, e.
  - left. apply Hsame. intros l E. by rewrite E in Hl.
Qed.

End control.

End CoordServer.
