(* ===== verification/Node.v ===== *)
(** * A process and its counters ([src/src/net.rs], [src/src/coord.rs], [src/src/metrics.rs])

    The routers as they are served, complete: beside the routes of Http.v and
    CoordServer.v, the text of [/metrics], for which the handlers count, and the
    [/backup] route of a shard.  The store's snapshot is a parameter here
    (Durability.v models the durable one); the text of the uptime is another. *)

From S2P Require Import Prelude Machine Text Wire Partitioner Store Lease Shard Replica Client Http Metrics.
From S2P Require Import Kvdb Lmdb Durability Cluster Ingest Coord Rbac NetAuth Gateway CoordServer.

Local Open Scope Z_scope.

Module Node.
Import Http Metrics.

(** A reply is JSON, or the text of the metrics. *)
Inductive reply (V : Type) :=
  | Answer (r : response V)
  | Text (t : string).
Arguments Answer {_} _.
Arguments Text {_} _.

(** A handler counts when it runs, that is, when the extractors let the request
    through; the handlers of the counted routes all answer 200. *)
Definition count {V} (o : option Counter) (r : response V) (c : Counters) : Counters :=
  match o with
  | Some k => if status r =? 200 then inc k c else c
  | None => c
  end.

Section shard.
Context {V St : Type} `{!IndexStore V St, !JsonValue V, !WireJson V, !JsonEnvelope V, !LeaseCodec V}.
Context (parse_query : string → list (string * string)).
(** [Shard::snapshot]: the panic of its task, an error, or done. *)
Context (take_snapshot : Shard.t St → string → string + (string + unit)).

(** The state of a shard's process; [snapshots] are the files it has written. *)
Record process := mkProcess {
  shard : Shard.t St;
  counters : Counters;
  snapshots : list (string * Shard.t St);
}.

Implicit Types (p : process).

(** [POST /backup?dest=..]. *)
Definition backup (query : option string) p : process * response V :=
  match required (parse_query (default EmptyString query)) "dest" with
  | None => (p, refuse 400)
  | Some dest =>
      let res := take_snapshot (shard p) dest in
      (match res with
       | inr (inr _) => mkProcess (shard p) (counters p) (snapshots p ++ [(dest, shard p)])
       | _ => p
       end, Durability.backup_reply dest res)
  end.

(** The router of a shard. *)
Definition routes (limit : Z) (up : string) (req : NetAuth.Request) (now : Z) p : process * reply V :=
  if negb (NetAuth.is_post req) && String.eqb (NetAuth.path req) "/metrics" then
    (p, Text (render (counters p) up))
  else if NetAuth.is_post req && String.eqb (NetAuth.path req) "/backup" then
    let '(p', r) := backup (NetAuth.query req) p in (p', Answer r)
  else
    let '(sh', r) := app limit (Gateway.decoded parse_query req) now (shard p) in
    (mkProcess sh' (count (shard_route (NetAuth.path req)) r (counters p)) (snapshots p), Answer r).

(** One request through the guard; no reply when its task panics. *)
Definition serve (limit : Z) (up : string) (g : Gateway.guard) (req : NetAuth.Request) (now : Z) p
    : process * option (reply V) :=
  match Gateway.layer (V := V) g req with
  | NetAuth.Run req' => let '(p', r) := routes limit up req' now p in (p', Some r)
  | NetAuth.Refuse st => (p, Some (Answer (refuse (Gateway.status_of st))))
  | NetAuth.Panic => (p, None)
  end.

(** A run of requests, with the clock and the uptime at each. *)
Fixpoint serve_all (limit : Z) (g : Gateway.guard) (es : list (NetAuth.Request * Z * string)) p
    : process * list (option (reply V)) :=
  match es with
  | [] => (p, [])
  | (req, now, up) :: es' =>
      let '(p1, r) := serve limit up g req now p in
      let '(p2, rs) := serve_all limit g es' p1 in (p2, r :: rs)
  end.

(** The guards change nothing of a request but its body. *)
Lemma layer_same g req req' :
  Gateway.layer (V := V) g req = NetAuth.Run req' →
  NetAuth.path req' = NetAuth.path req ∧ NetAuth.is_post req' = NetAuth.is_post req
  ∧ NetAuth.query req' = NetAuth.query req.
Proof.
  destruct g as [pol|[t|]]; cbn [Gateway.layer NetAuth.require_bearer]; [| |by intros [= <-]].
  - unfold NetAuth.policy_layer. intros Hr. repeat case_match; simplify_eq; done.
  - unfold NetAuth.bearer_layer. intros Hr. repeat case_match; simplify_eq; done.
Qed.

(** The open paths run under every guard. *)
Lemma open_runs g req :
  NetAuth.open_path (NetAuth.path req) = true → Gateway.layer (V := V) g req = NetAuth.Run req.
Proof.
  intros Ho. destruct g as [pol|[t|]]; cbn [Gateway.layer NetAuth.require_bearer]; [| |done].
  - unfold NetAuth.policy_layer. by rewrite Ho.
  - unfold NetAuth.bearer_layer. by rewrite Ho.
Qed.

(** ** The data *)

(** Counters and backups apart, the process serves what the guarded routes of
    Gateway.v serve. *)
Lemma process_serves_gateway limit up g req now p :
  NetAuth.path req ≠ "/backup"%string → NetAuth.path req ≠ "/metrics"%string →
  shard (serve limit up g req now p).1
    = (Gateway.serve (V := V) parse_query limit g req now (shard p)).1
  ∧ (serve limit up g req now p).2
    = Answer <$> (Gateway.serve (V := V) parse_query limit g req now (shard p)).2.
Proof.
  intros Hb Hm. unfold serve, Gateway.serve.
  destruct (Gateway.layer g req) as [req'|st|] eqn:Hl; [|done|done].
  destruct (layer_same g req req' Hl) as (Hp & _ & _).
  unfold routes. apply String.eqb_neq in Hb, Hm. rewrite Hp, Hb, Hm, !andb_false_r.
  by destruct (app limit _ now (shard p)).
Qed.

(** ** The counters *)

(** The reply is that of a request which counts as [o]. *)
Definition counted (o : Counter) (x : (NetAuth.Request * Z * string) * option (reply V)) : bool :=
  bool_decide (shard_route (NetAuth.path x.1.1.1) = Some o)
  && match x.2 with Some (Answer r) => status r =? 200 | _ => false end.

Definition how_many (o : Counter) es (rs : list (option (reply V))) : nat :=
  length (List.filter (counted o) (zip es rs)).

Lemma count_load (o : Counter) k (r : response V) c :
  is_u64 (load o c) →
  load o (count k r c)
  = if bool_decide (k = Some o) && (status r =? 200) then (load o c + 1) mod u64_modulus else load o c.
Proof.
  intros Hc. unfold count. destruct k as [k|]; [|done]. destruct (status r =? 200).
  - rewrite load_inc, andb_true_r by done.
    destruct (decide (o = k)) as [->|Hk]; [by rewrite bool_decide_eq_true_2|].
    by rewrite bool_decide_eq_false_2 by congruence.
  - by rewrite andb_false_r.
Qed.

Lemma count_ok k (r : response V) c : counters_ok c → counters_ok (count k r c).
Proof.
  intros Hc o. rewrite count_load by apply Hc. case_match; [|apply Hc]. apply Z.mod_pos_bound. done.
Qed.

(** One request adds one to the counter it counts as, and to no other. *)
Lemma serve_counts limit up g req now p o :
  counters_ok (counters p) →
  let '(p', r) := serve limit up g req now p in
  counters_ok (counters p')
  ∧ load o (counters p')
    = if counted o ((req, now, up), r) then (load o (counters p) + 1) mod u64_modulus
      else load o (counters p).
Proof.
  intros Hc. unfold serve, counted. cbn [fst snd].
  destruct (Gateway.layer g req) as [req'|st|] eqn:Hl; [| |by rewrite andb_false_r].
  - destruct (layer_same g req req' Hl) as (Hp & _ & _). unfold routes. rewrite Hp.
    destruct (negb _ && _); [by rewrite andb_false_r|].
    destruct (NetAuth.is_post req' && String.eqb (NetAuth.path req) "/backup") eqn:Hb.
    + apply andb_true_iff in Hb as [_ Hb]. apply String.eqb_eq in Hb. rewrite Hb.
      unfold backup. destruct (required _ _); [|by rewrite bool_decide_eq_false_2].
      destruct (take_snapshot _ _) as [?|[?|?]]; by rewrite bool_decide_eq_false_2.
    + destruct (app limit _ now (shard p)) as [sh' r]. cbn [counters].
      split; [by apply count_ok|]. by apply count_load.
  - split; [done|]. cbn. destruct st; by rewrite andb_false_r.
Qed.

Lemma run_counts limit g es o : ∀ p,
  counters_ok (counters p) →
  let '(p', rs) := serve_all limit g es p in
  counters_ok (counters p')
  ∧ load o (counters p') = (load o (counters p) + Z.of_nat (how_many o es rs)) mod u64_modulus.
Proof.
  induction es as [|[[req now] up] es IH]; intros p Hc.
  { split; [done|]. cbn. rewrite Z.add_0_r. symmetry. apply Z.mod_small, Hc. }
  cbn [serve_all]. pose proof (serve_counts limit up g req now p o Hc) as Hs.
  destruct (serve limit up g req now p) as [p1 r]. destruct Hs as [Hc1 Hl1].
  specialize (IH p1 Hc1). destruct (serve_all limit g es p1) as [p2 rs]. destruct IH as [Hc2 Hl2].
  split; [done|]. rewrite Hl2, Hl1. unfold how_many. cbn [zip_with List.filter].
  destruct (counted o _); [|done]. cbn [length]. rewrite Zplus_mod_idemp_l. f_equal. lia.
Qed.

Lemma how_many_le o es rs : (how_many o es rs ≤ length es)%nat.
Proof.
  unfold how_many. etrans; [apply List.filter_length_le|]. rewrite length_zip. lia.
Qed.

(** A scrape, by anybody, reports for each operation how many requests for it
    the process has answered since it started. *)
Theorem scrape_reports_served limit g es p p' rs now up :
  counters p = zero → serve_all limit g es p = (p', rs) → Z.of_nat (length es) < u64_modulus →
  lacks NL up = true →
  ∃ t, serve limit up g (NetAuth.mkRequest "/metrics" None false None EmptyString) now p'
       = (p', Some (Text t))
     ∧ ∀ o, sample (series o) t = Some (Z.of_nat (how_many o es rs)).
Proof.
  intros Hz Hrun Hlen Hup. exists (render (counters p') up). split.
  { unfold serve. by rewrite open_runs. }
  intros o. assert (Hc : counters_ok (counters p)) by (rewrite Hz; by intros []).
  pose proof (run_counts limit g es o p Hc) as Hr. rewrite Hrun in Hr. destruct Hr as [Hc' Hl].
  pose proof (how_many_le o es rs) as Hle.
  rewrite (proj1 (scrape_roundtrip (counters p') up o Hc' Hup)), Hl, Hz. f_equal.
  assert (load o zero = 0) as -> by by destruct o. apply Z.mod_small. lia.
Qed.

(** ** The backup route and the policy *)

(** Any token with write access to any one collection copies the whole shard to
    a path of its choice: the layer takes the collection from the query, and the
    route has none. *)
Lemma backup_scope_bypass pol limit up now p token pr raw c q dest :
  Rbac.principal pol token = Some pr → Rbac.allows pr (Some c) Rbac.Write = true →
  NetAuth.raw_coll q = Some raw → NetAuth.percent_decode raw = Some c →
  required (parse_query q) "dest" = Some dest → take_snapshot (shard p) dest = inr (inr tt) →
  serve limit up (Gateway.RequirePolicy pol)
    (NetAuth.mkRequest "/backup" (Some q) true (Some ("Bearer " ++ token)%string) EmptyString) now p
  = (mkProcess (shard p) (counters p) (snapshots p ++ [(dest, shard p)]),
     Some (Answer (Durability.backup_reply dest (inr (inr tt))))).
Proof.
  intros Hp Ha Hq Hd Hdest Hs. unfold serve. cbn [Gateway.layer]. unfold NetAuth.policy_layer.
  cbn [NetAuth.path NetAuth.query NetAuth.is_post NetAuth.authorization NetAuth.body].
  unfold NetAuth.bearer. cbn [NetAuth.authorization mbind option_bind].
  rewrite (proj2 (strip_prefix_app "Bearer " _ token) eq_refl).
  unfold NetAuth.coll_from_query. rewrite Hq, Hd. cbn [fmap option_fmap option_map].
  change (NetAuth.open_path "/backup") with false. change (NetAuth.op_of "/backup") with Rbac.Write.
  rewrite Hp, Ha. unfold routes. cbn [NetAuth.path NetAuth.is_post NetAuth.query negb andb String.eqb
    Ascii.eqb Bool.eqb].
  unfold backup. cbn [default from_option id]. by rewrite Hdest, Hs.
Qed.

End shard.

(** ** A coordinator's process *)

Section coordinator.
Context `{!HashIter} {V St D : Type} `{!IndexStore V St, !JsonValue V, !WireJson V, !JsonEnvelope V}.
Context `{!LeaseCodec V, !Env, !Ingest.IngestCodec V, !KvDb D}.
Context (parse_query : string → list (string * string)).

Record coordinator := mkCoordinator { coord : CoordServer.t D; served : Counters }.

Implicit Types (p : coordinator) (w : world St).

Definition coord_routes (limit : Z) (up : string) (req : NetAuth.Request) p
    : M St (coordinator * reply V) :=
  if negb (NetAuth.is_post req) && String.eqb (NetAuth.path req) "/metrics" then
    mret (p, Text (Coord.metrics (CoordServer.cluster (coord p)) (served p) up))
  else
    '(co, r) ← CoordServer.routes limit (coord p) (Gateway.decoded parse_query req);
    mret (mkCoordinator co (count (coordinator_route (NetAuth.path req)) r (served p)), Answer r).

Definition coord_serve (limit : Z) (up : string) (g : Gateway.guard) (req : NetAuth.Request) p
    : M St (coordinator * option (reply V)) :=
  match Gateway.layer (V := V) g req with
  | NetAuth.Run req' => '(p', r) ← coord_routes limit up req' p; mret (p', Some r)
  | NetAuth.Refuse st => mret (p, Some (Answer (refuse (Gateway.status_of st))))
  | NetAuth.Panic => mret (p, None)
  end.

(** The counters apart, the process serves what CoordServer.v serves. *)
Lemma coordinator_serves limit up g req p w :
  NetAuth.path req ≠ "/metrics"%string →
  let '(w', (p', r)) := coord_serve limit up g req p w in
  CoordServer.serve (V := V) parse_query limit g (coord p) req w
    = (w', (coord p', match r with Some (Answer x) => Some x | _ => None end)).
Proof.
  intros Hm. unfold coord_serve, CoordServer.serve.
  destruct (Gateway.layer g req) as [req'|st|] eqn:Hl; [|done|done].
  destruct (layer_same g req req' Hl) as (Hp & _ & _). unfold coord_routes.
  apply String.eqb_neq in Hm. rewrite Hp, Hm, andb_false_r. unfold mbind, M_bind.
  by destruct (CoordServer.routes limit (coord p) _ w) as [w' [co r]].
Qed.

(** A scrape of the coordinator, by anybody, reads the state of the cluster. *)
Lemma coordinator_scrape limit up g p w :
  counters_ok (served p) → lacks NL up = true →
  let cl := CoordServer.cluster (coord p) in
  Z.of_nat (Cluster.shard_count cl) < u64_modulus →
  Z.of_nat (Cluster.replication_factor cl) < u64_modulus →
  ∃ t, coord_serve limit up g (NetAuth.mkRequest "/metrics" None false None EmptyString) p w
       = (w, (p, Some (Text t)))
     ∧ sample "stplr_cluster_shards" t = Some (Z.of_nat (Cluster.shard_count cl))
     ∧ sample "stplr_cluster_replication" t = Some (Z.of_nat (Cluster.replication_factor cl))
     ∧ sample "stplr_cluster_migrating" t = Some (if Cluster.is_migrating cl then 1 else 0).
Proof.
  intros Hc Hup cl Hs Hr. exists (Coord.metrics cl (served p) up). split.
  { unfold coord_serve. by rewrite open_runs. }
  by apply gauges_roundtrip.
Qed.

End coordinator.
End Node.
