(* ===== verification/Pipeline.v ===== *)
(** * From acceptance to the cluster

    The durable write path of a coordinator, end to end: [POST /enqueue] puts a
    write on the queue and acknowledges it, the drainer of
    [src/src/ingest.rs] applies what is queued to the cluster on each tick of
    its timer, and meanwhile [/admin/rebalance] and [/admin/drain] change the
    membership.  The theorem joins the queue (Ingest.v), the routes
    (CoordServer.v), the replicated data plane (DataPlane.v) and the migrations
    (Migration.v). *)

From S2P Require Import Prelude Machine Text Wire Partitioner Store Lease Shard Client Replica Http.
From S2P Require Import Cluster DataPlane Migration Kvdb Ingest Election Coord CoordServer.

Local Open Scope Z_scope.

Module Pipeline.
Import Http Cluster DataPlane Migration.

(** [queue.drain(sink, 1024)] on each tick. *)
Definition DRAIN_LIMIT : nat := Z.to_nat 1024.

Section pipeline.
Context {V St D : Type} `{!IndexStore V St, !IndexStoreLaws V St, !JsonValue V, !WireJson V}.
Context `{!JsonEnvelope V, !LeaseCodec V, !HashIter, !Env, !Reliable}.
Context `{!Ingest.IngestCodec V, !Ingest.IngestCodecLaws V, !KvDb D, !KvDbLaws D}.
Implicit Types (cl : Cluster.t) (w : world St) (spec : view V) (q : Ingest.t D) (op : Ingest.IngestOp V).

(** One round of the drainer. *)
Definition drain_tick (co : CoordServer.t D) : M St (CoordServer.t D) := λ w,
  match CoordServer.queue co with
  | None => (w, co)
  | Some q =>
      let '(q', w', _) := Ingest.drain (Ingest.apply_op (V := V) (CoordServer.cluster co)) q DRAIN_LIMIT w in
      (w', CoordServer.set_queue co q')
  end.

(** What happens on the durable write path: a post to [/enqueue], to one of the
    two control routes, a tick of the drainer. *)
Inductive write_event :=
  | Post (body : bytes)
  | Rebalance (body : bytes)
  | Drain (body : bytes)
  | Tick.

(** A post as it is served. *)
Definition posted (limit : Z) (co : CoordServer.t D) (path : string) (b : bytes) : M St (CoordServer.t D) :=
  '(co', _) ← CoordServer.routes (V := V) limit co (PostReq path b); mret co'.

Definition on_event (limit : Z) (co : CoordServer.t D) (e : write_event) : M St (CoordServer.t D) :=
  match e with
  | Post b => posted limit co "/enqueue" b
  | Rebalance b => posted limit co "/admin/rebalance" b
  | Drain b => posted limit co "/admin/drain" b
  | Tick => drain_tick co
  end.

Fixpoint run (limit : Z) (co : CoordServer.t D) (es : list write_event) : M St (CoordServer.t D) :=
  match es with
  | [] => mret co
  | e :: es' => co' ← on_event limit co e; run limit co' es'
  end.

(** The write a body asks for, when it is accepted. *)
Definition asked (limit : Z) (e : write_event) : option (Ingest.IngestOp V) :=
  match e with
  | Post b =>
      if limit <? Z.of_nat (length b) then None
      else v ← value_from_slice b; x ← de_write v;
           Some (Ingest.Put (wr_coll x) (wr_key x) (wr_obj x))
  | _ => None
  end.

Definition accepted (limit : Z) (es : list write_event) : list (Ingest.IngestOp V) := omap (asked limit) es.

(** The effect of an operation on the map the cluster stands for. *)
Definition spec_op spec op : view V :=
  match op with
  | Ingest.Put c k v => upd spec c k (Some v)
  | Ingest.SetAdd c k m => upd spec c k (cell_set_add m (spec c k))
  | Ingest.SetRemove c k m => upd spec c k (cell_set_remove m (spec c k))
  | Ingest.Delete c k => upd spec c k None
  end.

(** It addresses a managed collection, with data the backend holds. *)
Definition op_ok (cols : list string) op : Prop :=
  match op with
  | Ingest.Put c k v => c ∈ cols ∧ entry_ok (V := V) (St := St) c k v
  | Ingest.SetAdd c k _ | Ingest.SetRemove c k _ => c ∈ cols ∧ lists_ok (V := V) (St := St) c k
  | Ingest.Delete c k => c ∈ cols
  end.

(** The membership a control request asks for, when it is well formed, is one
    the cluster can move to: members that the coordinator knows, at least one
    of them. *)
Definition event_ok (limit : Z) (co : CoordServer.t D) (e : write_event) : Prop :=
  match e with
  | Rebalance b => ∀ v ns, value_from_slice b = Some v → CoordServer.de_rebalance (V := V) v = Some ns →
      target (CoordServer.cluster co) ns
  | Drain b => ∀ v n, value_from_slice b = Some v → CoordServer.de_drain (V := V) v = Some n →
      ∃ m, m ∈ member_ids (CoordServer.cluster co) ∧ m ≠ n
  | _ => True
  end.

Fixpoint events_ok (limit : Z) (co : CoordServer.t D) (es : list write_event) w : Prop :=
  match es with
  | [] => True
  | e :: es' =>
      event_ok limit co e
      ∧ let '(w', co') := on_event limit co e w in events_ok limit co' es' w'
  end.

(** Events that do not change the membership. *)
Definition plain (e : write_event) : bool :=
  match e with Rebalance _ | Drain _ => false | _ => true end.

Lemma plain_events_ok limit es : ∀ co w, forallb plain es = true → events_ok limit co es w.
Proof.
  induction es as [|e es IH]; intros co w; [done|]. cbn [forallb]. intros [He Hes]%andb_true_iff.
  cbn [events_ok]. split; [by destruct e|]. destruct (on_event limit co e w). by apply IH.
Qed.

(** ** The cluster as a sink *)

Lemma apply_op_spec cl spec op w :
  cluster_ok cl → op_ok (colls cl) op → inv cl spec w →
  (Ingest.apply_op cl op w).2 = true ∧ inv cl (spec_op spec op) (Ingest.apply_op cl op w).1.
Proof.
  intros Hok Hop Hw. destruct op as [c k v|c k m|c k m|c k]; cbn [op_ok] in Hop;
    try destruct Hop as [Hc Hk];
    cbn [Ingest.apply_op spec_op fst snd]; split; try done.
  - exact (DataPlane.put_spec cl Hok spec c k v Hc Hk w Hw).
  - exact (DataPlane.set_add_spec cl Hok spec c k m Hc Hk w Hw).
  - exact (DataPlane.set_remove_spec cl Hok spec c k m Hc Hk w Hw).
  - exact (DataPlane.delete_spec cl Hok spec c k Hop w Hw).
Qed.

Lemma applied_spec cl xs : ∀ spec w w',
  cluster_ok cl → Forall (op_ok (colls cl)) (map snd xs) → inv cl spec w →
  Ingest.applied_all (Ingest.apply_op cl) xs w w' →
  inv cl (foldl spec_op spec (map snd xs)) w'.
Proof.
  induction xs as [|[s op] xs IH]; intros spec w w' Hok Hxs Hw Ha; cbn in Ha; [by subst|].
  destruct Ha as (w1 & Hop & Ha). apply Forall_cons in Hxs as [Ho Hxs].
  destruct (apply_op_spec cl spec op w Hok Ho Hw) as [_ Hw1]. rewrite Hop in Hw1. by apply (IH _ w1).
Qed.

(** ** One state of the path *)

(** The accepted writes are those applied, and then the [r] that wait; the
    cluster holds the applied ones. *)
Definition path_inv cl spec (acc : list (Ingest.IngestOp V)) (r : nat) q w : Prop :=
  ∃ l done, Ingest.holds q l ∧ acc = done ++ map snd (Ingest.waiting q l)
    ∧ length (Ingest.waiting q l) = r ∧ inv cl (foldl spec_op spec done) w.

(** A tick applies the next 1,024 waiting writes, or all of them. *)
Lemma tick_inv cl spec acc r q w q' w' n :
  cluster_ok cl → Forall (op_ok (colls cl)) acc → path_inv cl spec acc r q w →
  Ingest.drain (Ingest.apply_op cl) q DRAIN_LIMIT w = (q', w', n) →
  path_inv cl spec acc (r - DRAIN_LIMIT) q' w'.
Proof.
  intros Hok Hacc (l & done & Hh & -> & Hr & Hw) Hd.
  destruct (Ingest.drain_prefix _ q l _ w q' w' n Hh Hd)
    as (xs & ys & w1 & Hwait & Hall & _ & Hle & Hend & l' & Hl' & Hys).
  exists l', (done ++ map snd xs). split; [done|]. rewrite Hys, Hwait, map_app, app_assoc.
  split; [done|]. rewrite foldl_app. rewrite Hwait, length_app in Hr.
  rewrite Hwait, !map_app, !Forall_app in Hacc. destruct Hacc as (_ & Hxs & Hys').
  pose proof (applied_spec cl xs _ w w1 Hok Hxs Hw Hall) as Hw1.
  assert (DRAIN_LIMIT `max` 1 = DRAIN_LIMIT)%nat as Hlim by (unfold DRAIN_LIMIT; lia).
  rewrite Hlim in Hle, Hend.
  destruct Hend as [[-> ->]|[[Hxl ->]|([s op] & ys' & -> & Hf)]].
  - split; [cbn in *; lia|done].
  - split; [lia|done].
  - apply Forall_cons in Hys' as [Hop _].
    destruct (apply_op_spec cl _ op w1 Hok Hop Hw1) as [Ht _]. cbn in Hf. by rewrite Hf in Ht.
Qed.

Lemma enqueue_inv cl spec acc r q w op :
  path_inv cl spec acc r q w → Ingest.next q + 2 < u64_modulus →
  path_inv cl spec (acc ++ [op]) (S r) (Ingest.enqueue q op).1 w
  ∧ Ingest.next (Ingest.enqueue q op).1 = Ingest.next q + 1.
Proof.
  intros (l & done & Hh & -> & Hr & Hw) Hroom.
  destruct (Ingest.holds_enqueue q l op Hh ltac:(lia)) as [He _]. split.
  - exists (l ++ [(Ingest.next q, op)]), done. split; [done|].
    rewrite Ingest.waiting_enqueue, map_app, app_assoc, length_app by done. cbn. split; [done|]. split; [lia|done].
  - cbn. apply u64_add_small; pose proof (Ingest.h_range _ _ Hh); lia.
Qed.

(** ** Runs *)

(** A stable cluster over the collections [cols] behind the coordinator, and the
    queue in a good state. *)
Definition serving cols spec acc r (b : Z) (co : CoordServer.t D) w : Prop :=
  stable (CoordServer.cluster co) ∧ colls (CoordServer.cluster co) = cols
  ∧ ∃ q, CoordServer.queue co = Some q ∧ path_inv (CoordServer.cluster co) spec acc r q w
     ∧ Ingest.next q ≤ b.

Lemma serving_later cols spec acc r b b' co w :
  b ≤ b' → serving cols spec acc r b co w → serving cols spec acc r b' co w.
Proof. intros Hb (? & ? & q & ? & ? & ?). split_and!; [done..|]. exists q. split_and!; [done..|lia]. Qed.

Lemma post_inv cols spec acc r b limit co w body :
  serving cols spec acc r b co w → b + 2 < u64_modulus →
  let '(w', co') := on_event limit co (Post body) w in
  serving cols spec (acc ++ option_list (asked limit (Post body)))
    (r + length (option_list (asked limit (Post body)))) (b + 1) co' w'.
Proof.
  intros (Hst & Hcl & q & Hq & Hp & Hb) Hroom.
  assert (Hsame : serving cols spec (acc ++ []) (r + 0) (b + 1) co w).
  { split; [done|]. split; [done|]. exists q. rewrite app_nil_r, Nat.add_0_r. split_and!; [done..|lia]. }
  assert (Hr : CoordServer.routes (V := V) limit co (PostReq "/enqueue" body) w
    = CoordServer.with_body limit co body de_write (λ x,
        let '(q', r) := Coord.enqueue q x in mret (CoordServer.set_queue co q', r)) w).
  { unfold CoordServer.routes. rewrite Hq. by destruct (CoordServer.leadership co). }
  cbn [on_event]. unfold posted, mbind, M_bind. rewrite Hr. unfold CoordServer.with_body, asked.
  destruct (limit <? Z.of_nat (length body)); [done|].
  destruct (value_from_slice body) as [v|]; [|done]. cbn [mbind option_bind].
  destruct (de_write v) as [x|]; [|done]. cbn [mbind option_bind option_list length].
  unfold Coord.enqueue. set (op := Ingest.Put (wr_coll x) (wr_key x) (wr_obj x)).
  destruct (enqueue_inv (CoordServer.cluster co) spec acc r q w op Hp ltac:(lia)) as [Hp' Hn].
  destruct (Ingest.enqueue q op) as [q' sq]. cbn [fst] in *. split; [done|]. split; [done|].
  exists q'. rewrite Nat.add_1_r. split_and!; [done..|lia].
Qed.

Lemma drain_inv cols spec acc r b co w :
  Forall (op_ok cols) acc → serving cols spec acc r b co w →
  let '(w', co') := drain_tick co w in serving cols spec acc (r - DRAIN_LIMIT) b co' w'.
Proof.
  intros Hacc (Hst & Hcl & q & Hq & Hp & Hb). unfold drain_tick. rewrite Hq.
  destruct (Ingest.drain _ q DRAIN_LIMIT w) as [[q' w'] n] eqn:Hd. split; [done|]. split; [done|].
  exists q'. split; [done|]. rewrite (Ingest.drain_next _ _ _ _ _ _ _ Hd). split; [|done].
  apply (tick_inv (CoordServer.cluster co) spec acc r q w q' w' n); [by apply stable_cluster_ok|by rewrite Hcl|done..].
Qed.

(** *** Control requests *)

(** A migration over the cluster of the coordinator keeps the path. *)
Lemma moved_inv cols spec acc r b co w nw :
  serving cols spec acc r b co w → target (CoordServer.cluster co) nw →
  let '(w', (cl', s)) := rebalance (V := V) (CoordServer.cluster co) nw w in
  serving cols spec acc r b (CoordServer.set_cluster co cl') w'.
Proof.
  intros (Hst & Hcl & q & Hq & (l & done & Hh & Ha & Hr & Hw) & Hb) Ht.
  destruct (rebalance_step _ nw _ w Hst Ht Hw) as (Hs' & Hl' & Hw').
  destruct (rebalance _ nw w) as [w' [cl' s]]. cbn [fst snd] in *.
  split; [done|]. split; [cbn; congruence|]. exists q. split_and!; [done| |done]. by exists l, done.
Qed.

Lemma admin_inv cols spec acc r b co w (ld : Election.Leadership) nw :
  serving cols spec acc r b co w → target (CoordServer.cluster co) nw →
  let '(w', (co', _)) := CoordServer.control (V := V) co
    (λ cl, Coord.admin ld cl (rebalance (V := V) cl nw)) w in
  serving cols spec acc r b co' w'.
Proof.
  intros Hs Ht. pose proof (moved_inv _ _ _ _ _ _ _ nw Hs Ht) as Hm.
  unfold CoordServer.control, Coord.admin. destruct (Coord.not_leader ld).
  - unfold mbind, M_bind, mret, M_ret. by destruct co.
  - unfold mbind, M_bind, mret, M_ret. by destruct (rebalance _ nw w) as [w' [cl' s]].
Qed.

(** A body that is refused changes nothing. *)
Lemma body_inv {A} cols spec acc r b limit co w body (dec : V → option A) h :
  serving cols spec acc r b co w →
  (∀ v x, value_from_slice body = Some v → dec v = Some x →
     let '(w', (co', _)) := h x w in serving cols spec acc r b co' w') →
  let '(w', (co', _)) := CoordServer.with_body limit co body dec h w in serving cols spec acc r b co' w'.
Proof.
  intros Hs Hh. unfold CoordServer.with_body. destruct (limit <? Z.of_nat (length body)); [done|].
  destruct (value_from_slice body) as [v|]; [|done]. destruct (dec v) as [x|] eqn:Hd; [|done].
  by apply (Hh v x).
Qed.

Lemma control_inv cols spec acc r b limit co w e :
  serving cols spec acc r b co w → event_ok limit co e → (∃ body, e = Rebalance body ∨ e = Drain body) →
  let '(w', co') := on_event limit co e w in serving cols spec acc r b co' w'.
Proof.
  intros Hs Hok [body He]. unfold on_event, posted, mbind, M_bind, CoordServer.routes.
  destruct He as [-> | ->]; destruct (CoordServer.leadership co) as [ld|]; cbn [String.eqb Ascii.eqb Bool.eqb].
  - pose proof (body_inv cols spec acc r b limit co w body CoordServer.de_rebalance
      (λ nodes, CoordServer.control co (λ cl, Coord.admin_rebalance ld cl nodes)) Hs) as Hb.
    destruct (CoordServer.with_body _ _ _ _ _ w) as [w' [co' x]]. apply Hb. intros v ns Hv Hns.
    apply (admin_inv _ _ _ _ _ _ _ ld ns Hs). by apply (Hok v).
  - by destruct (CoordServer.queue co).
  - pose proof (body_inv cols spec acc r b limit co w body CoordServer.de_drain
      (λ node, CoordServer.control co (λ cl, Coord.admin_drain ld cl node)) Hs) as Hb.
    destruct (CoordServer.with_body _ _ _ _ _ w) as [w' [co' x]]. apply Hb. intros v n Hv Hn.
    apply (admin_inv _ _ _ _ _ _ _ ld _ Hs). apply drain_target; [apply Hs|]. by apply (Hok v).
  - by destruct (CoordServer.queue co).
Qed.

Lemma accepted_cons limit e es :
  accepted limit (e :: es) = option_list (asked limit e) ++ accepted limit es.
Proof. unfold accepted. cbn. by destruct (asked limit e). Qed.

(** One event. *)
Lemma event_inv cols spec acc r b limit co w e :
  Forall (op_ok cols) acc → serving cols spec acc r b co w → event_ok limit co e → b + 2 < u64_modulus →
  let '(w', co') := on_event limit co e w in
  ∃ r', (r' ≤ r + length (option_list (asked limit e)))%nat
    ∧ serving cols spec (acc ++ option_list (asked limit e)) r' (b + 1) co' w'.
Proof.
  intros Hacc Hs Hok Hroom.
  assert (Hctl : (∃ body, e = Rebalance body ∨ e = Drain body) →
    let '(w', co') := on_event limit co e w in
    ∃ r', (r' ≤ r + length (option_list (asked limit e)))%nat
      ∧ serving cols spec (acc ++ option_list (asked limit e)) r' (b + 1) co' w').
  { intros Hc. pose proof (control_inv cols spec acc r b limit co w e Hs Hok Hc) as Hi.
    assert (asked limit e = None) as -> by (destruct Hc as (body & [-> | ->]); done).
    destruct (on_event limit co e w) as [w' co']. exists r. cbn. rewrite app_nil_r.
    split; [lia|]. eapply serving_later; [|exact Hi]. lia. }
  destruct e as [body|body|body|]; [|by apply Hctl; eexists; eauto..|].
  - pose proof (post_inv cols spec acc r b limit co w body Hs Hroom) as Hi.
    destruct (on_event limit co (Post body) w) as [w' co']. eexists. by split; [|exact Hi].
  - pose proof (drain_inv cols spec acc r b co w Hacc Hs) as Hi. cbn [on_event].
    destruct (drain_tick co w) as [w' co']. exists (r - DRAIN_LIMIT)%nat. cbn. rewrite app_nil_r.
    split; [lia|]. eapply serving_later; [|exact Hi]. lia.
Qed.

Lemma path_run limit cols spec es : ∀ acc r b co w,
  Forall (op_ok cols) (acc ++ accepted limit es) → serving cols spec acc r b co w →
  events_ok limit co es w → b + Z.of_nat (length es) + 2 < u64_modulus →
  let '(w', co') := run limit co es w in
  ∃ r', (r' ≤ r + length (accepted limit es))%nat
    ∧ serving cols spec (acc ++ accepted limit es) r' (b + Z.of_nat (length es)) co' w'.
Proof.
  induction es as [|e es IH]; intros acc r b co w Hacc Hs Hev Hroom.
  { exists r. cbn. rewrite app_nil_r, Z.add_0_r. split; [lia|done]. }
  cbn [run length events_ok] in *. unfold mbind, M_bind. destruct Hev as [He Hev].
  rewrite accepted_cons, app_assoc in Hacc |- *.
  assert (Forall (op_ok cols) acc) as Ha by (by apply Forall_app in Hacc as [[? _]%Forall_app _]).
  pose proof (event_inv cols spec acc r b limit co w e Ha Hs He ltac:(lia)) as Hi.
  destruct (on_event limit co e w) as [w1 co1]. destruct Hi as (r1 & Hr1 & Hs1).
  specialize (IH _ r1 _ co1 w1 Hacc Hs1 Hev ltac:(lia)). destruct (run limit co1 es w1) as [w2 co2].
  destruct IH as (r' & Hr & Hs'). exists r'. rewrite length_app. split; [lia|].
  by replace (b + Z.of_nat (S (length es))) with (b + 1 + Z.of_nat (length es)) by lia.
Qed.

(** Ticks alone: 1,024 waiting writes fewer each time. *)
Lemma ticks_inv limit cols spec acc b m : ∀ r co w,
  Forall (op_ok cols) acc → serving cols spec acc r b co w →
  let '(w', co') := run limit co (replicate m Tick) w in
  serving cols spec acc (r - DRAIN_LIMIT * m) b co' w'.
Proof.
  induction m as [|m IH]; intros r co w Hacc Hs.
  { cbn [replicate run]. by rewrite Nat.mul_0_r, Nat.sub_0_r. }
  cbn [replicate run on_event]. unfold mbind, M_bind.
  pose proof (drain_inv cols spec acc r b co w Hacc Hs) as G1.
  destruct (drain_tick co w) as [w1 co1]. specialize (IH _ co1 w1 Hacc G1).
  destruct (run limit co1 _ w1) as [w2 co2].
  by replace (r - DRAIN_LIMIT * S m)%nat with (r - DRAIN_LIMIT - DRAIN_LIMIT * m)%nat by lia.
Qed.

Lemma path_app limit es es' : ∀ co w,
  run limit co (es ++ es') w = let '(w1, co1) := run limit co es w in run limit co1 es' w1.
Proof.
  induction es as [|e es IH]; intros co w; [done|].
  change ((e :: es) ++ es') with (e :: (es ++ es')). cbn [run]. unfold mbind, M_bind.
  destruct (on_event limit co e w) as [w1 co1]. apply IH.
Qed.

Lemma drained_pending q l : Ingest.holds q l → Ingest.waiting q l = [] → Ingest.pending q = 0.
Proof.
  intros Hh Hw. pose proof (Ingest.last_waiting q l Hh) as Hl. rewrite Hw in Hl.
  change (Ingest.committed q = Ingest.next q - 1) in Hl. pose proof (Ingest.h_comm _ _ Hh).
  unfold Ingest.pending, Ingest.latest_seq, saturating_sub. lia.
Qed.

(** C21. When every call to a shard is delivered, an acknowledged write reaches
    the cluster, also while the membership changes.  Start a coordinator with an
    empty queue over a stable cluster (nobody down, no migration, replicas that
    agree) and take any sequence of posts to [/enqueue], [/admin/rebalance] and
    [/admin/drain] (well formed or not) and drainer ticks, handled one after the
    other, in which every membership asked for is one of known nodes and the
    writes accepted are to managed collections, with names and values the backend
    holds.  After as many further ticks as there are groups of 1,024 accepted
    writes, nothing is pending, the cluster is stable and is the replicated map in
    which exactly the accepted writes were made, in the order of their
    acceptance, and every key reads accordingly.  (With lost calls writes are
    dropped: [unreachable_writes_committed].) *)
Theorem accepted_writes_reach_cluster limit cl lead spec es m w :
  let co := CoordServer.mk cl lead (Some (Ingest.open db_empty db_empty : Ingest.t D)) in
  stable cl → inv cl spec w → Forall (op_ok (colls cl)) (accepted limit es) → events_ok limit co es w →
  Z.of_nat (length es) + 3 < u64_modulus → (length (accepted limit es) ≤ DRAIN_LIMIT * m)%nat →
  let '(w', co') := run limit co (es ++ replicate m Tick) w in
  let final := foldl spec_op spec (accepted limit es) in
  let cl' := CoordServer.cluster co' in
  (∃ q, CoordServer.queue co' = Some q ∧ Ingest.pending q = 0) ∧ stable cl' ∧ inv cl' final w'
  ∧ ∀ c k, c ∈ colls cl → (get cl' c k w').2 = final c k.
Proof.
  intros co Hst Hw Hacc Hev Hroom Hm.
  assert (G0 : serving (colls cl) spec [] 0 1 co w).
  { split; [done|]. split; [done|]. eexists. split; [done|]. split.
    - exists [], []. split; [apply Ingest.holds_open|done].
    - unfold Ingest.open. by rewrite (last_seq_spec _ [] log_rep_empty). }
  rewrite path_app. pose proof (path_run limit _ spec es [] 0 1 co w Hacc G0 Hev ltac:(lia)) as G1.
  destruct (run limit co es w) as [w1 co1]. destruct G1 as (r & Hr & G1). cbn [app] in G1.
  pose proof (ticks_inv limit _ spec (accepted limit es) _ m r co1 w1 Hacc G1) as G2.
  destruct (run limit co1 (replicate m Tick) w1) as [w2 co2].
  destruct G2 as (Hs2 & Hl2 & q & Hq & (l & done & Hh & Heq & Hlen & Hinv) & _).
  assert (Ingest.waiting q l = []) as Hnil by (apply nil_length_inv; lia).
  rewrite Hnil, app_nil_r in Heq. subst done. split; [|split; [done|split; [done|]]].
  - exists q. split; [done|]. by eapply drained_pending.
  - intros c k Hc. rewrite <-Hl2 in Hc.
    by apply (DataPlane.get_spec _ (stable_cluster_ok _ Hs2) _ c k Hc w2 Hinv).
Qed.

End pipeline.

(** ** When no shard can be reached *)

Section unreachable.
Context {V St D : Type} `{!IndexStore V St, !JsonValue V, !LeaseCodec V, !HashIter, !Env}.
Context `{!Ingest.IngestCodec V, !Ingest.IngestCodecLaws V, !KvDb D, !KvDbLaws D}.
Context (all_lost : ∀ n, fault_at n = Lost).
Implicit Types (cl : Cluster.t) (w : world St).

Lemma call_lost {R} c (op : Z → Shard.t St → Shard.t St * R) w :
  shards (Client.call c op w).1 = shards w.
Proof.
  unfold Client.call. destruct (shards w !! Client.shard_ref c); [|done].
  destruct (op _ _). by rewrite all_lost.
Qed.

Lemma broadcast_lost {R} cl key (op : Client.t → M St R) w :
  (∀ c w, shards (op c w).1 = shards w) → shards (broadcast cl key op w).1 = shards w.
Proof.
  intros Hop. unfold broadcast. revert w.
  induction (owners cl key) as [|n ns IH]; intros w; [done|]. cbn [forM]. unfold mbind, M_bind.
  destruct (is_down cl n); [apply IH|]. destruct (client_of cl n) as [c|]; [|apply IH].
  specialize (Hop c w). destruct (op c w) as [w1 r]. cbn [fst] in Hop. rewrite <-Hop. apply IH.
Qed.

Lemma apply_lost cl (op : Ingest.IngestOp V) w :
  shards (Ingest.apply_op cl op w).1 = shards w ∧ (Ingest.apply_op cl op w).2 = true.
Proof.
  destruct op; split; try done; apply broadcast_lost; intros c w1; apply call_lost.
Qed.

(** The sink of the cluster never fails, so the drainer advances its cursor
    past writes that reached no shard: with every call lost, one tick leaves
    the shards as they were and nothing pending. *)
Lemma unreachable_writes_committed cl (q : Ingest.t D) l w q' w' n :
  Ingest.holds (V := V) q l → (length (Ingest.waiting q l) ≤ DRAIN_LIMIT)%nat →
  Ingest.drain (Ingest.apply_op cl) q DRAIN_LIMIT w = (q', w', n) →
  shards w' = shards w ∧ Ingest.pending q' = 0.
Proof.
  intros Hh Hlen Hd. destruct (Ingest.drain_prefix _ q l _ w q' w' n Hh Hd)
    as (xs & ys & w1 & Hwait & Hall & _ & _ & Hend & l' & Hl' & Hys).
  assert (Hs : shards w1 = shards w).
  { clear -Hall all_lost. revert w Hall. induction xs as [|[s op] xs IH]; intros w Ha; cbn in Ha; [by subst|].
    destruct Ha as (w2 & Hop & Ha). rewrite (IH w2 Ha). destruct (apply_lost cl op w) as [Hs _].
    by rewrite Hop in Hs. }
  rewrite Hwait, length_app in Hlen.
  destruct Hend as [[-> ->]|[[Hxl ->]|([s op] & ys' & -> & Hf)]].
  - split; [done|]. by eapply drained_pending.
  - split; [done|]. eapply drained_pending; [exact Hl'|]. rewrite Hys. apply nil_length_inv. lia.
  - destruct (apply_lost cl op w1) as [_ Ht]. cbn in Hf. by rewrite Hf in Ht.
Qed.

End unreachable.

End Pipeline.
