(* ===== verification/Smart.v ===== *)
(** * The direct-to-shard client ([src/src/smart.rs])

    A client that keeps its own copy of the routing state, refreshes it from the
    coordinator's member list and sends each operation straight to the owning
    shards.  The theorem: with a current view, every operation is the same
    function of the world as the coordinator's. *)

From S2P Require Import Prelude Machine Text Partitioner Store Lease Shard Client Journal Cluster.

Module Smart.
Import Partitioner.

Record t := mk {
  partitioner : Partitioner.t;
  clients : gmap NodeId Client.t;
  replication_ : nat;
  epoch : Z;
  coordinator : option string;
  token : option string;
}.

(** [str::trim_end_matches('/')]. *)
Fixpoint trim_slash_rev (s : string) : string :=
  match s with
  | String c s' => if decide (c = "/"%char) then trim_slash_rev s' else s
  | EmptyString => EmptyString
  end.
Definition trim_slashes (s : string) : string := String.rev (trim_slash_rev (String.rev s)).

Section smart.
Context `{!HashIter}.
(** The shard that listens at a base URL. *)
Context (dial : string → string).

Definition new (cs : gmap NodeId Client.t) (replication : nat) : t :=
  mk (Partitioner.new (Cluster.hash_keys cs)) cs (replication `max` 1) 0 None None.

Definition with_token (sc : t) (tok : string) : t :=
  mk (partitioner sc) (clients sc) (replication_ sc) (epoch sc) (coordinator sc) (Some tok).

Definition with_coordinator (sc : t) (url : string) : t :=
  mk (partitioner sc) (clients sc) (replication_ sc) (epoch sc) (Some (trim_slashes url)) (token sc).

(** [HttpShardClient::new_authed]: the base URL without trailing slashes.  The
    calls on the handle are those of [Client], which carry no text: that a call
    over HTTP has one of the outcomes of such a call, as long as the envelope is
    faithful and no text changes its value, is [Http.http_call_outcomes]. *)
Definition http_client (i : NodeId) (ep : string) : Client.t :=
  Client.mk i (trim_slashes ep) (dial (trim_slashes ep)).

Definition build_clients (members : list (NodeId * string)) : gmap NodeId Client.t :=
  foldl (λ m '(i, ep), <[i := http_client i ep]> m) ∅ (filter (λ x, x.2 ≠ EmptyString) members).

Definition from_endpoints (members : list (NodeId * string)) (replication : nat) : t :=
  new (build_clients members) replication.

Definition replication (sc : t) : nat := replication_ sc.

Definition member_ids (sc : t) : list NodeId := sort_strings (list_nodes (partitioner sc)).

Definition update_membership (sc : t) (members : list (NodeId * string)) (ep : Z) : t :=
  let cs := build_clients members in
  let ids := Cluster.hash_keys cs in
  mk (set_nodes (partitioner sc) ids) cs (replication_ sc) ep (coordinator sc) (token sc).

(** The reply of [GET /members], its fields extracted. *)
Record members_reply := mkReply { r_epoch : Z; r_members : list (NodeId * string) }.

(** [fetch] is the coordinator's answer to the request. *)
Definition refresh (sc : t) (fetch : string → CResult members_reply) : t * CResult bool :=
  match coordinator sc with
  | None => (sc, Ok false)
  | Some url =>
      match fetch url with
      | Err e => (sc, Err e)
      | Ok v =>
          let ep := r_epoch v in
          if decide (ep ≠ 0%Z ∧ ep = epoch sc ∧ member_ids sc ≠ []) then (sc, Ok false)
          else if decide (r_members v = []) then (sc, Err "coordinator returned no members")
          else (update_membership sc (r_members v) ep, Ok true)
      end
  end.

(** One round of the background refresher: whatever the answer, it goes on. *)
Definition refresh_tick (sc : t) (fetch : string → CResult members_reply) : t := (refresh sc fetch).1.

Definition from_coordinator_authed (url : string) (replication : nat) (tok : option string)
    (fetch : string → CResult members_reply) : CResult t :=
  let sc := with_coordinator (new ∅ replication) url in
  let sc := match tok with Some tk => with_token sc tk | None => sc end in
  match refresh sc fetch with
  | (_, Err e) => Err e
  | (sc, Ok _) => Ok sc
  end.

(** ** Routing *)

Definition owners (sc : t) (key : string) : list NodeId :=
  replica_set (partitioner sc) key (replication sc).

Definition route (sc : t) (key : string) : list NodeId := owners sc key.

Definition client_of (sc : t) (i : NodeId) : option Client.t := clients sc !! i.

Definition partitions (sc : t) : list Cluster.Partition :=
  let p := partitioner sc in
  let by_ := foldl (Cluster.assign_bucket p) ∅ (seq 0 (bucket_count p)) in
  let plan := map (λ '(i, bs),
    Cluster.mkPartition i (default EmptyString (Client.endpoint <$> clients sc !! i)) bs)
    (hash_iter by_) in
  merge_sort (Cluster.on Cluster.p_id Cluster.str_le) plan.

(** ** The data plane *)

Section data_plane.
Context {V St : Type} `{!IndexStore V St, !JsonValue V, !LeaseCodec V, !Env}.

Fixpoint get_from (sc : t) (coll key : string) (ns : list NodeId) : M St (option V) :=
  match ns with
  | [] => mret None
  | n :: ns' =>
      match client_of sc n with
      | None => get_from sc coll key ns'
      | Some c =>
          r ← Client.object c coll key;
          match r with
          | Ok o => mret o
          | Err _ => get_from sc coll key ns'
          end
      end
  end.

Definition get (sc : t) (coll key : string) : M St (option V) :=
  get_from sc coll key (owners sc key).

Definition scan_range (sc : t) (coll : string) (after prefix end_ : option string) (limit : nat)
    : M St (list string * option string) :=
  merged ← forM (Cluster.hash_values (clients sc)) (∅ : gset string) (λ merged c,
    r ← Client.scan_range c coll after prefix end_ limit;
    match r with
    | Ok keys => mret (merged ∪ list_to_set keys)
    | Err _ => mret merged
    end);
  let page := take limit (sort_strings (elements merged)) in
  let cursor := if (limit <=? length page)%nat then last page else None in
  mret (page, cursor).

Definition scan_keys (sc : t) (coll : string) (after : option string) (limit : nat)
    : M St (list string * option string) :=
  scan_range sc coll after None None limit.

Definition scan_partition (sc : t) (p : Cluster.Partition) (coll : string) (after : option string)
    (limit : nat) : M St (list string) :=
  match client_of sc (Cluster.p_id p) with
  | Some c => r ← Client.scan_buckets c coll (Cluster.p_buckets p) after limit; mret (unwrap_or [] r)
  | None => mret []
  end.

Definition group_keys (sc : t) (keys : list string) : gmap NodeId (list nat) :=
  foldl (λ by_node '(i, k),
    match head (owners sc k) with
    | Some owner => Cluster.push_at owner i by_node
    | None => by_node
    end) ∅ (imap (λ i k, (i, k)) keys).

Definition mget (sc : t) (coll : string) (keys : list string) : M St (list (option V)) :=
  forM (hash_iter (group_keys sc keys)) (replicate (length keys) None) (λ out '(node, idxs),
    match client_of sc node with
    | None => mret out
    | Some c =>
        let sub := omap (λ i, keys !! i) idxs in
        r ← Client.mget c coll sub;
        match r with
        | Ok vals => mret (Cluster.place out idxs vals)
        | Err _ => mret out
        end
    end).

(** The loop shared by the replicated writes. *)
Definition each_owner {R} (sc : t) (ns : list NodeId) (op : Client.t → M St R) : M St unit :=
  forM ns tt (λ _ n,
    match client_of sc n with
    | Some c => _ ← op c; mret tt
    | None => mret tt
    end).

Definition put (sc : t) (coll key : string) (obj : V) : M St unit :=
  each_owner sc (owners sc key) (λ c, Client.write_object c coll key obj).

Definition put_ttl (sc : t) (coll key : string) (obj : V) (ttl_ms : Z) : M St unit :=
  each_owner sc (owners sc key) (λ c, Client.write_object_ttl c coll key obj ttl_ms).

Definition delete_ (sc : t) (coll key : string) : M St unit :=
  each_owner sc (owners sc key) (λ c, Client.delete_object c coll key).

Definition cas (sc : t) (coll key : string) (expect : option V) (nw : V) : M St bool :=
  match owners sc key with
  | [] => mret false
  | primary :: replicas =>
      match client_of sc primary with
      | None => mret false
      | Some pc =>
          r ← Client.cas pc coll key expect nw;
          let set := unwrap_or false r in
          if set then
            _ ← each_owner sc replicas (λ c, Client.write_object c coll key nw); mret true
          else mret false
      end
  end.

Definition incr (sc : t) (coll key : string) (delta : Z) : M St (option Z) :=
  match owners sc key with
  | [] => mret None
  | primary :: replicas =>
      match client_of sc primary with
      | None => mret None
      | Some pc =>
          r ← Client.incr pc coll key delta;
          match mjoin (ok r) with
          | None => mret None
          | Some nw =>
              _ ← each_owner sc replicas (λ c, Client.write_object c coll key (value_from_i64 nw));
              mret (Some nw)
          end
      end
  end.

Definition set_add (sc : t) (coll key member : string) : M St unit :=
  each_owner sc (owners sc key) (λ c, Client.set_add c coll key member).

Definition set_remove (sc : t) (coll key member : string) : M St unit :=
  each_owner sc (owners sc key) (λ c, Client.set_remove c coll key member).

End data_plane.

(** ** A current view *)

(** [GET /members] of the coordinator. *)
Definition members (cl : Cluster.t) : members_reply :=
  mkReply (Cluster.epoch cl) (Cluster.members_with_endpoints cl).

(** The coordinator is settled: no migration, nobody down, no racks, its members
    are its clients, reached over HTTP, and their hashes are distinct. *)
Record settled (cl : Cluster.t) : Prop := {
  set_overlay : Cluster.overlay cl = None;
  set_down : Cluster.down cl = ∅;
  set_wf : Partitioner.wf (Cluster.partitioner cl);
  set_topo : Partitioner.topology (Cluster.partitioner cl) = ∅;
  set_nodes_ : nodes (Cluster.partitioner cl) ≡ₚ Cluster.hash_keys (Cluster.clients cl);
  set_hashes : distinct_hashes (nodes (Cluster.partitioner cl));
  set_repl : Cluster.replication cl
             = Cluster.clamp (Cluster.replication_target cl) (length (nodes (Cluster.partitioner cl)));
  set_http : ∀ i c, Cluster.clients cl !! i = Some c →
    Client.endpoint c ≠ EmptyString ∧ c = http_client i (Client.endpoint c);
}.

(** The client routes with the coordinator's members and replication target. *)
Record current (sc : t) (cl : Cluster.t) : Prop := {
  cur_clients : clients sc = Cluster.clients cl;
  cur_nodes : nodes (partitioner sc) = Cluster.hash_keys (clients sc);
  cur_wf : Partitioner.wf (partitioner sc);
  cur_topo : Partitioner.topology (partitioner sc) = ∅;
  cur_repl : replication sc = (Cluster.replication_target cl `max` 1)%nat;
}.

Lemma wf_eq p : Partitioner.wf p → p = set_topology (Partitioner.new (nodes p)) (topology p).
Proof. destruct p. intros [Hn Hb]. cbn in *. by subst. Qed.

(** *** Refreshing makes the view current *)

Lemma build_lookup_gen (l : list (NodeId * string)) (m : gmap NodeId Client.t) i c :
  NoDup (map fst l) →
  foldl (λ m '(i, ep), <[i := http_client i ep]> m) m l !! i = Some c
  ↔ (∃ ep, (i, ep) ∈ l ∧ c = http_client i ep) ∨ (i ∉ map fst l ∧ m !! i = Some c).
Proof.
  revert m. induction l as [|[j ep] l IH]; intros m Hnd; cbn [foldl map fst].
  { split; [intros Hm; right; split; [apply not_elem_of_nil|done]|].
    intros [(ep & Hin%elem_of_nil & _)|[_ Hm]]; done. }
  cbn in Hnd. apply NoDup_cons in Hnd as [Hj Hnd]. rewrite (IH _ Hnd), not_elem_of_cons.
  setoid_rewrite elem_of_cons. destruct (decide (i = j)) as [->|Hij].
  - rewrite lookup_insert_eq. split.
    + intros [(ep' & Hin & ->)|[_ [= <-]]]; [|left; exists ep; by split; [left|]].
      left. exists ep'. split; [by right|done].
    + intros [(ep' & [[= ->]|Hin] & ->)|[[? _] _]]; [by right|by left; exists ep'|done].
  - rewrite lookup_insert_ne by done. split; [naive_solver|].
    intros [(ep' & [[= -> _]|Hin] & ->)|[[_ Hn] Hm]]; [done|left; by exists ep'|by right].
Qed.

Lemma elem_of_members cl i ep :
  (i, ep) ∈ Cluster.members_with_endpoints cl
  ↔ ∃ c, Cluster.clients cl !! i = Some c ∧ ep = Client.endpoint c.
Proof.
  unfold Cluster.members_with_endpoints. rewrite (merge_sort_Permutation _), list_elem_of_fmap. split.
  - intros ([j c] & [= -> ->] & Hin). exists c. by apply elem_of_hash_iter in Hin.
  - intros (c & Hc & ->). exists (i, c). split; [done|]. by apply elem_of_hash_iter.
Qed.

Lemma NoDup_members cl : NoDup (map fst (Cluster.members_with_endpoints cl)).
Proof.
  unfold Cluster.members_with_endpoints. rewrite (merge_sort_Permutation _), map_map.
  erewrite map_ext; [apply NoDup_hash_iter_keys|]. by intros [].
Qed.

Lemma build_clients_members cl :
  settled cl → build_clients (Cluster.members_with_endpoints cl) = Cluster.clients cl.
Proof.
  intros Hs. apply map_eq. intros i. apply option_eq. intros c. unfold build_clients.
  rewrite filter_all.
  - rewrite build_lookup_gen by apply NoDup_members. rewrite lookup_empty. split.
    + intros [(ep & (c' & Hc' & ->)%elem_of_members & ->)|[_ ?]]; [|done].
      destruct (set_http _ Hs i c' Hc') as [_ Heq]. by rewrite <-Heq.
    + intros Hc. left. exists (Client.endpoint c). split; [apply elem_of_members; by exists c|].
      by apply (set_http _ Hs).
  - intros [j ep] (c' & Hc' & ->)%elem_of_members. cbn. by destruct (set_http _ Hs j c' Hc').
Qed.

Lemma refresh_current sc cl fetch url :
  settled cl → Partitioner.wf (partitioner sc) → topology (partitioner sc) = ∅ →
  replication sc = (Cluster.replication_target cl `max` 1)%nat →
  coordinator sc = Some url → fetch url = Ok (members cl) →
  Cluster.clients cl ≠ ∅ → epoch sc ≠ Cluster.epoch cl →
  ∃ sc', refresh sc fetch = (sc', Ok true) ∧ current sc' cl ∧ epoch sc' = Cluster.epoch cl.
Proof.
  intros Hs Hwf Ht Hr Hurl Hf Hne Hep. unfold refresh. rewrite Hurl, Hf.
  cbn [r_epoch r_members members]. rewrite decide_False by naive_solver.
  rewrite decide_False.
  2:{ intros Hnil. apply Hne, map_empty. intros i. apply eq_None_not_Some. intros [c Hc].
      assert (Hin : (i, Client.endpoint c) ∈ Cluster.members_with_endpoints cl)
        by (apply elem_of_members; by exists c).
      rewrite Hnil in Hin. by apply elem_of_nil in Hin. }
  eexists. split; [done|]. split; [|done]. unfold update_membership.
  rewrite (build_clients_members cl Hs). split; cbn [clients partitioner]; try done.
  by apply set_nodes_wf.
Qed.

(** *** The same function of the world *)

Section same.
Context (sc : t) (cl : Cluster.t) (Hs : settled cl) (Hc : current sc cl).

Lemma bucket_owners_same b r :
  owners_of_bucket (partitioner sc) b r = owners_of_bucket (Cluster.partitioner cl) b r.
Proof.
  rewrite (wf_eq _ (cur_wf _ _ Hc)), (wf_eq _ (set_wf _ Hs)), (cur_topo _ _ Hc), (set_topo _ Hs).
  symmetry. apply placement_Permutation; [apply (set_hashes _ Hs)|].
  by rewrite (cur_nodes _ _ Hc), (cur_clients _ _ Hc), (set_nodes_ _ Hs).
Qed.

Lemma node_count : length (nodes (partitioner sc)) = length (nodes (Cluster.partitioner cl)).
Proof.
  apply Permutation_length. by rewrite (cur_nodes _ _ Hc), (cur_clients _ _ Hc), (set_nodes_ _ Hs).
Qed.

Lemma owners_same k : owners sc k = Cluster.owners cl k.
Proof.
  unfold owners, Cluster.owners. rewrite (set_overlay _ Hs), (cur_repl _ _ Hc), (set_repl _ Hs).
  rewrite !replica_set_owners, bucket_owners_same. unfold owners_of_bucket, pick, Cluster.clamp.
  rewrite (set_topo _ Hs). rewrite !decide_True by done. f_equal. lia.
Qed.

Lemma up_same n : Cluster.is_down cl n = false.
Proof. unfold Cluster.is_down. rewrite (set_down _ Hs). by apply bool_decide_eq_false. Qed.

Lemma live_same k : Cluster.live_owners cl k = owners sc k.
Proof. rewrite owners_same. apply filter_all. intros n _. apply up_same. Qed.

Lemma client_same n : Cluster.client_of cl n = client_of sc n.
Proof. unfold client_of. by rewrite (cur_clients _ _ Hc). Qed.

Lemma partitions_same : partitions sc = Cluster.partition_plan cl.
Proof.
  unfold partitions, Cluster.partition_plan.
  assert (bucket_count (partitioner sc) = bucket_count (Cluster.partitioner cl)) as ->.
  { unfold bucket_count. destruct (cur_wf _ _ Hc) as [-> _]. by destruct (set_wf _ Hs) as [-> _]. }
  assert (foldl (Cluster.assign_bucket (partitioner sc)) ∅
      (seq 0 (bucket_count (Cluster.partitioner cl)))
    = foldl (Cluster.assign_bucket (Cluster.partitioner cl)) ∅
      (seq 0 (bucket_count (Cluster.partitioner cl)))) as ->.
  { generalize (∅ : gmap NodeId (list nat)). induction (seq _ _) as [|b bs IH]; intros m; [done|].
    cbn [foldl]. rewrite IH. f_equal. unfold Cluster.assign_bucket. by rewrite bucket_owners_same. }
  f_equal. apply map_ext. intros [i bs]. f_equal. f_equal.
  rewrite (cur_clients _ _ Hc). apply option_eq. intros ep.
  rewrite <-elem_of_list_to_map by apply NoDup_members. rewrite elem_of_members, fmap_Some.
  naive_solver.
Qed.

Section ops.
Context {V St : Type} `{!IndexStore V St, !JsonValue V, !LeaseCodec V, !Env}.
Implicit Types (w : world St).

Lemma get_same coll k ns w : get_from sc coll k ns w = Cluster.get_from cl coll k ns w.
Proof.
  revert w. induction ns as [|n ns IH]; intros w; [done|]. cbn [get_from Cluster.get_from].
  rewrite up_same, client_same. destruct (client_of sc n) as [c|]; [|apply IH].
  unfold mbind, M_bind. destruct (Client.object c coll k w) as [w' []]; [done|apply IH].
Qed.

Lemma each_same {R} ns (op : Client.t → M St R) w :
  each_owner sc ns op w
  = forM ns tt (λ _ n, if Cluster.is_down cl n then mret tt
                       else match Cluster.client_of cl n with
                            | Some c => _ ← op c; mret tt
                            | None => mret tt
                            end) w.
Proof. apply forM_ext. intros [] n w'. by rewrite up_same, client_same. Qed.

Lemma broadcast_same {R} k (op : Client.t → M St R) w :
  each_owner sc (owners sc k) op w = Cluster.broadcast cl k op w.
Proof. rewrite owners_same. apply each_same. Qed.

Lemma replicate_same ns coll k (v : V) w :
  each_owner sc ns (λ c, Client.write_object c coll k v) w = Cluster.replicate_to cl ns coll k v w.
Proof. apply forM_ext. intros [] n w'. by rewrite client_same. Qed.

Lemma cas_same coll k expect (nw : V) w : cas sc coll k expect nw w = Cluster.cas cl coll k expect nw w.
Proof.
  unfold cas, Cluster.cas. rewrite live_same. destruct (owners sc k) as [|p rs]; [done|].
  rewrite client_same. destruct (client_of sc p) as [pc|]; [|done].
  unfold mbind, M_bind. destruct (Client.cas pc coll k expect nw w) as [w' r].
  destruct (unwrap_or false r); [|done]. by rewrite replicate_same.
Qed.

Lemma incr_same coll k delta w : incr sc coll k delta w = Cluster.incr cl coll k delta w.
Proof.
  unfold incr, Cluster.incr. rewrite live_same. destruct (owners sc k) as [|p rs]; [done|].
  rewrite client_same. destruct (client_of sc p) as [pc|]; [|done].
  unfold mbind, M_bind. destruct (Client.incr pc coll k delta w) as [w' r].
  destruct (mjoin (ok r)); [|done]. by rewrite replicate_same.
Qed.

Lemma mget_same coll ks w : mget sc coll ks w = Cluster.mget cl coll ks w.
Proof.
  unfold mget, Cluster.mget.
  assert (group_keys sc ks = Cluster.group_keys cl ks) as ->.
  { unfold group_keys, Cluster.group_keys, Cluster.live_owner. generalize (∅ : gmap NodeId (list nat)).
    induction (imap _ ks) as [|[i k] l IH]; intros m; [done|]. cbn [foldl].
    rewrite live_same. apply IH. }
  apply forM_ext. intros out [n idxs] w'. by rewrite client_same.
Qed.

Lemma scan_same coll a p e limit w :
  scan_range sc coll a p e limit w = Cluster.scan_range cl coll a p e limit w.
Proof.
  unfold scan_range, Cluster.scan_range, mbind, M_bind. rewrite (cur_clients _ _ Hc).
  rewrite (forM_ext _ _ _ (λ merged c, if Cluster.is_down cl (Client.id c) then mret merged
    else r ← Client.scan_range c coll a p e limit;
         match r with Ok keys => mret (merged ∪ list_to_set keys) | Err _ => mret merged end));
    [done|]. intros s c w'. by rewrite up_same.
Qed.

End ops.
End same.

(** C18. The direct client does what the coordinator does, if it was built with
    the coordinator's replication target: a refresh does not fetch it, and a
    client with another factor routes differently. Once such a client, without a
    rack map, has refreshed from a settled coordinator (no migration or rack map,
    all nodes up and members, distinct hashes) whose epoch is not the one it has
    seen last, every operation it offers is, on every state of the shards and
    under any call failures, the same as the coordinator's operation: same effect,
    same answer, same partition plan. *)
Theorem smart_matches_coordinator {V St} `{!IndexStore V St, !JsonValue V, !LeaseCodec V, !Env}
    sc cl fetch url :
  settled cl → Partitioner.wf (partitioner sc) → topology (partitioner sc) = ∅ →
  replication sc = (Cluster.replication_target cl `max` 1)%nat →
  coordinator sc = Some url → fetch url = Ok (members cl) →
  Cluster.clients cl ≠ ∅ → epoch sc ≠ Cluster.epoch cl →
  ∃ sc', refresh sc fetch = (sc', Ok true)
    ∧ partitions sc' = Cluster.partition_plan cl
    ∧ ∀ (w : world St) coll k,
        route sc' k = (Cluster.route cl k).1.1
        ∧ get sc' coll k w = Cluster.get cl coll k w
        ∧ (∀ v : V, put sc' coll k v w = Cluster.put cl coll k v w)
        ∧ (∀ (v : V) ttl, put_ttl sc' coll k v ttl w = Cluster.put_ttl cl coll k v ttl w)
        ∧ delete_ sc' coll k w = Cluster.delete_ cl coll k w
        ∧ (∀ e (v : V), cas sc' coll k e v w = Cluster.cas cl coll k e v w)
        ∧ (∀ d, incr sc' coll k d w = Cluster.incr cl coll k d w)
        ∧ (∀ m, set_add sc' coll k m w = Cluster.set_add cl coll k m w)
        ∧ (∀ m, set_remove sc' coll k m w = Cluster.set_remove cl coll k m w)
        ∧ (∀ ks, mget sc' coll ks w = Cluster.mget cl coll ks w)
        ∧ (∀ a p e limit, scan_range sc' coll a p e limit w = Cluster.scan_range cl coll a p e limit w).
Proof.
  intros Hs Hwf Ht Hr Hurl Hf Hne Hep.
  destruct (refresh_current sc cl fetch url Hs Hwf Ht Hr Hurl Hf Hne Hep) as (sc' & Hre & Hc & _).
  exists sc'. split; [done|]. split; [by apply partitions_same|]. intros w coll k. split_and!.
  - by apply owners_same.
  - unfold get, Cluster.get. rewrite (owners_same sc' cl) by done. by apply get_same.
  - intros v. by apply broadcast_same.
  - intros v ttl. by apply broadcast_same.
  - by apply broadcast_same.
  - intros e v. by apply cas_same.
  - intros d. by apply incr_same.
  - intros m. by apply broadcast_same.
  - intros m. by apply broadcast_same.
  - intros ks. by apply mget_same.
  - intros a p e limit. by apply scan_same.
Qed.

End smart.
End Smart.
