(* ===== verification/Config.v ===== *)
(** * Node configuration ([src/src/config.rs])

    The roles a process can run, their names, and the lists of roles given on
    the command line or in the configuration; then the node's configuration,
    with the defaults of the fields a file leaves out, and its loading and
    saving.  The TOML text is the library's: a parameter with its round trip. *)

From S2P Require Import Prelude Machine Text Wire.

Module Config.

Inductive Role := Shard | Coordinator | Ingest | Api.

#[global] Instance Role_eq_dec : EqDecision Role.
Proof. solve_decision. Defined.

#[global] Instance Role_countable : Countable Role.
Proof.
  refine (inj_countable'
    (λ r, match r with Shard => 0 | Coordinator => 1 | Ingest => 2 | Api => 3 end)
    (λ n, match n with 0 => Shard | 1 => Coordinator | 2 => Ingest | _ => Api end) _).
  by intros [].
Defined.

(** In the order of the enum, which is that of [BTreeSet<Role>]. *)
Definition ALL : list Role := [Shard; Coordinator; Ingest; Api].

Definition as_str (r : Role) : string :=
  match r with
  | Shard => "shard" | Coordinator => "coordinator" | Ingest => "ingest" | Api => "api"
  end.

(** [str::to_ascii_lowercase]. *)
Definition ascii_lower (a : ascii) : ascii :=
  let v := byte_val a in if ((65 <=? v) && (v <=? 90))%Z then byte (v + 32) else a.
Definition to_ascii_lowercase (s : string) : string := text (map ascii_lower (as_bytes s)).

(** [None]: unknown role. *)
Definition parse (s : string) : option Role :=
  let t := to_ascii_lowercase (trim s) in
  if String.eqb t "shard" then Some Shard
  else if String.eqb t "coordinator" || String.eqb t "coord" then Some Coordinator
  else if String.eqb t "ingest" then Some Ingest
  else if String.eqb t "api" || String.eqb t "mcp" then Some Api
  else None.

(** [item.split([',', ' '])]. *)
Definition split_list (item : string) : list string := split_on "," item ≫= split_on " ".

Definition parse_part (set : gset Role) (part : string) : option (gset Role) :=
  let p := trim part in
  if String.eqb p EmptyString then Some set
  else if String.eqb (to_ascii_lowercase p) "all" then Some (set ∪ list_to_set ALL)
  else r ← parse p; Some ({[r]} ∪ set).

Fixpoint parse_parts (set : gset Role) (parts : list string) : option (gset Role) :=
  match parts with
  | [] => Some set
  | p :: ps => set' ← parse_part set p; parse_parts set' ps
  end.

Definition parse_list (items : list string) : option (gset Role) :=
  parse_parts ∅ (items ≫= split_list).

Definition roles_str (roles : gset Role) : string :=
  join "," (map as_str (filter (λ r, r ∈ roles) ALL)).

Lemma parse_as_str r : parse (as_str r) = Some r.
Proof. by destruct r. Qed.

Lemma parse_part_name set r : parse_part set (as_str r) = Some ({[r]} ∪ set).
Proof. by destruct r. Qed.

Lemma parse_names l set : parse_parts set (map as_str l) = Some (set ∪ list_to_set l).
Proof.
  revert set. induction l as [|r l IH]; intros set; cbn [map parse_parts].
  - f_equal. set_solver.
  - rewrite parse_part_name. cbn [mbind option_bind]. rewrite IH. f_equal. set_solver.
Qed.

Lemma roles_of_list (rs : gset Role) : list_to_set (filter (λ r, r ∈ rs) ALL) = rs.
Proof.
  apply set_eq. intros r. rewrite elem_of_list_to_set, list_elem_of_filter.
  split; [by intros [? _]|]. intros Hr. split; [done|]. unfold ALL. destruct r; set_solver.
Qed.

(** The printed roles of a node read back as the same set of roles, for
    every set. *)
Theorem roles_roundtrip (roles : gset Role) : parse_list [roles_str roles] = Some roles.
Proof.
  pose proof (roles_of_list roles) as Hl.
  assert (Hp : ∀ l, l = [] ∨ split_list (join "," (map as_str l)) = map as_str l →
    parse_list [join "," (map as_str l)] = Some (list_to_set l)).
  { intros l [->|E]; [done|]. unfold parse_list. cbn [mbind list_bind].
    rewrite E, app_nil_r, parse_names. f_equal. set_solver. }
  unfold roles_str. rewrite Hp, Hl; [done|]. unfold ALL. rewrite !filter_cons, filter_nil.
  destruct (decide (Shard ∈ roles)), (decide (Coordinator ∈ roles)), (decide (Ingest ∈ roles)),
    (decide (Api ∈ roles)); first [by left | right; vm_compute; reflexivity].
Qed.

(** ** The configuration of a node *)

Inductive StoreKind := Memory | Lmdb | Redis.

Definition default_store : StoreKind := Lmdb.

Record NodeConfig := mkNodeConfig {
  node_id : string;
  roles : gset Role;
  bind_host : string;
  shard_port : Z;
  coordinator_port : Z;
  api_port : Z;
  store : StoreKind;
  data_dir : string;
  replication : Z;
  shards : list string;
}.

Definition default_host : string := "0.0.0.0".
Definition default_shard_port : Z := 8100.
Definition default_coordinator_port : Z := 8090.
Definition default_api_port : Z := 8088.
Definition default_data_dir : string := "/var/lib/stitch".
Definition default_replication : Z := 2.

(** What a TOML document can hold here; a table has each key once. *)
Inductive toml :=
  | TStr (s : string)
  | TInt (z : Z)
  | TArr (l : list toml).

Abbreviation table := (gmap string toml).

Definition as_string (v : toml) : option string := match v with TStr s => Some s | _ => None end.
Definition as_uint (bound : Z) (v : toml) : option Z :=
  match v with TInt z => if ((0 <=? z) && (z <? bound))%Z then Some z else None | _ => None end.
Definition as_list {A} (dec : toml → option A) (v : toml) : option (list A) :=
  match v with TArr l => mapM dec l | _ => None end.

Definition u16_modulus : Z := 2 ^ 16.
Definition u32_modulus : Z := 2 ^ 32.

(** [rename_all = "lowercase"]: exact names, unlike [parse]. *)
Definition de_role (v : toml) : option Role :=
  s ← as_string v;
  if String.eqb s "shard" then Some Shard
  else if String.eqb s "coordinator" then Some Coordinator
  else if String.eqb s "ingest" then Some Ingest
  else if String.eqb s "api" then Some Api
  else None.

Definition store_str (k : StoreKind) : string :=
  match k with Memory => "memory" | Lmdb => "lmdb" | Redis => "redis" end.

Definition de_store (v : toml) : option StoreKind :=
  s ← as_string v;
  if String.eqb s "memory" then Some Memory
  else if String.eqb s "lmdb" then Some Lmdb
  else if String.eqb s "redis" then Some Redis
  else None.

(** A required field, and one with a default when it is missing. *)
Definition required {A} (t : table) (f : string) (dec : toml → option A) : option A :=
  v ← t !! f; dec v.
Definition or_default {A} (t : table) (f : string) (dec : toml → option A) (d : A) : option A :=
  match t !! f with Some v => dec v | None => Some d end.

Definition de (t : table) : option NodeConfig :=
  i ← required t "node_id" as_string;
  rs ← required t "roles" (as_list de_role);
  h ← or_default t "bind_host" as_string default_host;
  sp ← or_default t "shard_port" (as_uint u16_modulus) default_shard_port;
  cp ← or_default t "coordinator_port" (as_uint u16_modulus) default_coordinator_port;
  ap ← or_default t "api_port" (as_uint u16_modulus) default_api_port;
  st ← or_default t "store" de_store default_store;
  dd ← or_default t "data_dir" as_string default_data_dir;
  r ← or_default t "replication" (as_uint u32_modulus) default_replication;
  sh ← or_default t "shards" (as_list as_string) [];
  Some (mkNodeConfig i (list_to_set rs) h sp cp ap st dd r sh).

Definition ser (c : NodeConfig) : table :=
  list_to_map
    [("node_id", TStr (node_id c));
     ("roles", TArr (map (λ r, TStr (as_str r)) (filter (λ r, r ∈ roles c) ALL)));
     ("bind_host", TStr (bind_host c)); ("shard_port", TInt (shard_port c));
     ("coordinator_port", TInt (coordinator_port c)); ("api_port", TInt (api_port c));
     ("store", TStr (store_str (store c))); ("data_dir", TStr (data_dir c));
     ("replication", TInt (replication c)); ("shards", TArr (map TStr (shards c)))].

(** The widths of the fields. *)
Definition config_ok (c : NodeConfig) : Prop :=
  (0 ≤ shard_port c < u16_modulus)%Z ∧ (0 ≤ coordinator_port c < u16_modulus)%Z
  ∧ (0 ≤ api_port c < u16_modulus)%Z ∧ (0 ≤ replication c < u32_modulus)%Z.

Lemma as_uint_in b z : (0 ≤ z < b)%Z → as_uint b (TInt z) = Some z.
Proof.
  intros [H0 Hb]. cbn. by rewrite (proj2 (Z.leb_le _ _) H0), (proj2 (Z.ltb_lt _ _) Hb).
Qed.

Lemma mapM_map {A} (f : A → toml) (g : toml → option A) l :
  (∀ x, g (f x) = Some x) → mapM g (map f l) = Some l.
Proof. intros Hg. induction l as [|x l IH]; [done|]. cbn. by rewrite Hg, IH. Qed.

Lemma de_ser c : config_ok c → de (ser c) = Some c.
Proof.
  intros (H1 & H2 & H3 & H4). unfold de.
  change (required (ser c) "node_id" as_string) with (Some (node_id c)).
  change (required (ser c) "roles" (as_list de_role))
    with (mapM de_role (map (λ r, TStr (as_str r)) (filter (λ r, r ∈ roles c) ALL))).
  rewrite mapM_map by (by intros []).
  change (or_default (ser c) "bind_host" as_string default_host) with (Some (bind_host c)).
  change (or_default (ser c) "shard_port" (as_uint u16_modulus) default_shard_port)
    with (as_uint u16_modulus (TInt (shard_port c))).
  change (or_default (ser c) "coordinator_port" (as_uint u16_modulus) default_coordinator_port)
    with (as_uint u16_modulus (TInt (coordinator_port c))).
  change (or_default (ser c) "api_port" (as_uint u16_modulus) default_api_port)
    with (as_uint u16_modulus (TInt (api_port c))).
  change (or_default (ser c) "store" de_store default_store) with (de_store (TStr (store_str (store c)))).
  change (or_default (ser c) "data_dir" as_string default_data_dir) with (Some (data_dir c)).
  change (or_default (ser c) "replication" (as_uint u32_modulus) default_replication)
    with (as_uint u32_modulus (TInt (replication c))).
  change (or_default (ser c) "shards" (as_list as_string) [])
    with (mapM as_string (map TStr (shards c))).
  rewrite !as_uint_in, mapM_map by done.
  assert (de_store (TStr (store_str (store c))) = Some (store c)) as -> by by destruct (store c).
  cbn [mbind option_bind]. rewrite roles_of_list. by destruct c.
Qed.

(** ** Files *)

Section files.
(** [toml::from_str], and [toml::to_string_pretty], which may fail. *)
Context (toml_parse : string → option table) (toml_print : table → option string).

(** The files by path. *)
Abbreviation files := (gmap string string).

Inductive ConfigError := Reading | Parsing | Serializing | Writing.

Definition load (fs : files) (path : string) : ConfigError + NodeConfig :=
  match fs !! path with
  | None => inl Reading
  | Some text =>
      match toml_parse text ≫= de with
      | None => inl Parsing
      | Some c => inr c
      end
  end.

(** The parent directory is created, errors ignored; [writable] tells whether
    the write then succeeds. *)
Definition save (writable : string → bool) (fs : files) (path : string) (c : NodeConfig)
    : ConfigError + files :=
  match toml_print (ser c) with
  | None => inl Serializing
  | Some text => if writable path then inr (<[path := text]> fs) else inl Writing
  end.

(** [STITCH_CONFIG], or the file of the working directory. *)
Definition default_config_path (env : option string) : string := default "stitch.toml"%string env.

Hypothesis toml_roundtrip : ∀ t s, toml_print t = Some s → toml_parse s = Some t.

(** A saved configuration is loaded back as it was, from its file only, and
    every other file still loads as before; a save that fails leaves the
    files alone. *)
Theorem config_roundtrip writable fs path c :
  config_ok c →
  match save writable fs path c with
  | inl _ => toml_print (ser c) = None ∨ writable path = false
  | inr fs' => load fs' path = inr c ∧ ∀ p, p ≠ path → load fs' p = load fs p
  end.
Proof.
  intros Hc. unfold save. destruct (toml_print (ser c)) as [text|] eqn:Hp; [|by left].
  destruct (writable path); [|by right]. split.
  - unfold load. rewrite lookup_insert_eq, (toml_roundtrip _ _ Hp). cbn [mbind option_bind].
    by rewrite de_ser.
  - intros p Hne. unfold load. by rewrite lookup_insert_ne.
Qed.

(** A file with a name and roles only gets the defaults. *)
Lemma de_minimal i rs :
  de (list_to_map [("node_id", TStr i); ("roles", TArr (map (λ r, TStr (as_str r)) rs))])
  = Some (mkNodeConfig i (list_to_set rs) "0.0.0.0" 8100 8090 8088 Lmdb "/var/lib/stitch" 2 []).
Proof.
  set (t := list_to_map _). unfold de. change (required t "node_id" as_string) with (Some i).
  change (required t "roles" (as_list de_role)) with (mapM de_role (map (λ r, TStr (as_str r)) rs)).
  rewrite mapM_map by (by intros []). done.
Qed.

End files.

End Config.
