(* ===== verification/Tls.v ===== *)
(** * Transport security ([src/src/tls.rs])

    Loading the server's certificate chain and key, the options of the
    clients, the process-wide setting that every shard client reads, and the
    shard client's connection options ([HttpShardClient::new_authed] of
    [src/src/net.rs]).  The file system, the PEM reader, the TLS library and
    the HTTP library are parameters. *)

From S2P Require Import Prelude Machine Text Wire.

Local Open Scope Z_scope.

Module Tls.

(** ** The server *)

Section server.
Context {Cert Key Config : Type}.
Context (read_file : string → option bytes).
(** [rustls_pemfile]: the certificates of a file, its first private key. *)
Context (pem_certs : bytes → option (list Cert)) (pem_key : bytes → option (option Key)).
(** [with_single_cert]: refuses a key that does not fit the chain. *)
Context (single_cert : list Cert → Key → option Config).

Definition load_certs (path : string) : string + list Cert :=
  match read_file path with
  | None => inl ("opening cert " ++ path)%string
  | Some b =>
      match pem_certs b with
      | None => inl ("reading certs from " ++ path)%string
      | Some [] => inl ("no certificates found in " ++ path)%string
      | Some certs => inr certs
      end
  end.

Definition load_key (path : string) : string + Key :=
  match read_file path with
  | None => inl ("opening key " ++ path)%string
  | Some b =>
      match pem_key b with
      | None => inl ("reading private key from " ++ path)%string
      | Some None => inl ("no private key found in " ++ path)%string
      | Some (Some k) => inr k
      end
  end.

Definition from_pem (cert_path key_path : string) : string + Config :=
  match load_certs cert_path with
  | inl e => inl e
  | inr certs =>
      match load_key key_path with
      | inl e => inl e
      | inr key =>
          match single_cert certs key with
          | None => inl "building TLS server config from cert/key"%string
          | Some c => inr c
          end
      end
  end.

(** [--tls-cert] and [--tls-key]: both, or neither. *)
Definition build_server_tls (cert key : option string) : string + option Config :=
  match cert, key with
  | Some c, Some k => match from_pem c k with inl e => inl e | inr cfg => inr (Some cfg) end
  | None, None => inr None
  | _, _ => inl "--tls-cert and --tls-key must be given together"%string
  end.

(** A server configuration comes from a non-empty chain and a key that both
    files hold, and that fit. *)
Lemma from_pem_ok cert_path key_path cfg :
  from_pem cert_path key_path = inr cfg ↔
  ∃ b b' certs key, read_file cert_path = Some b ∧ pem_certs b = Some certs ∧ certs ≠ []
    ∧ read_file key_path = Some b' ∧ pem_key b' = Some (Some key) ∧ single_cert certs key = Some cfg.
Proof.
  unfold from_pem, load_certs, load_key. split.
  - intros H. destruct (read_file cert_path) as [b|]; [|done].
    destruct (pem_certs b) as [[|x certs]|] eqn:E; [done| |done].
    destruct (read_file key_path) as [b'|]; [|done].
    destruct (pem_key b') as [[key|]|] eqn:E'; [|done..].
    destruct (single_cert _ _) eqn:Ec; [|done]. injection H as <-. by exists b, b', (x :: certs), key.
  - intros (b & b' & certs & key & -> & -> & Hne & -> & -> & Hs).
    destruct certs; [done|]. by rewrite Hs.
Qed.

(** TLS is never half configured: the server has it exactly when both files
    are named, and starts in the clear only when neither is. *)
Lemma tls_all_or_nothing cert key r :
  build_server_tls cert key = inr r →
  (r = None ↔ cert = None) ∧ (r = None ↔ key = None).
Proof.
  unfold build_server_tls. destruct cert as [c|], key as [k|]; [|done|done|].
  - destruct (from_pem c k); [done|]. by intros [= <-].
  - by intros [= <-].
Qed.

End server.

(** ** Clients *)

Record ClientTls := mkClientTls { ca_pem : option string; insecure : bool }.

Definition no_client_tls : ClientTls := mkClientTls None false.

(** [OnceLock]: the first value set stays. *)
Definition set_client_tls (g : option ClientTls) (c : ClientTls) : option ClientTls :=
  match g with Some _ => g | None => Some c end.

Definition client_tls (g : option ClientTls) : ClientTls := default no_client_tls g.

Lemma first_setting_stays c cs : client_tls (foldl set_client_tls None (c :: cs)) = c.
Proof. cbn [foldl set_client_tls]. by induction cs. Qed.

Section client.
Context {Root : Type}.
Context (read_file : string → option bytes) (root_from_pem : bytes → option Root).

(** The options of an HTTP client. *)
Record builder := mkBuilder {
  connect_timeout_s : option Z;
  timeout_s : option Z;
  authorization : option string;
  roots : list Root;
  accept_invalid_certs : bool;
}.

(** [Client::new]. *)
Definition plain_client : builder := mkBuilder None None None [] false.

Definition with_timeouts (connect total : Z) (b : builder) : builder :=
  mkBuilder (Some connect) (Some total) (authorization b) (roots b) (accept_invalid_certs b).
Definition with_authorization (v : string) (b : builder) : builder :=
  mkBuilder (connect_timeout_s b) (timeout_s b) (Some v) (roots b) (accept_invalid_certs b).
Definition add_root_certificate (r : Root) (b : builder) : builder :=
  mkBuilder (connect_timeout_s b) (timeout_s b) (authorization b) (roots b ++ [r])
    (accept_invalid_certs b).
Definition danger_accept_invalid_certs (f : bool) (b : builder) : builder :=
  mkBuilder (connect_timeout_s b) (timeout_s b) (authorization b) (roots b) f.

(** A certificate that cannot be read is left out. *)
Definition apply (c : ClientTls) (b : builder) : builder :=
  let b := match (p ← ca_pem c; pem ← read_file p; root_from_pem pem) with
           | Some cert => add_root_certificate cert b
           | None => b
           end in
  if insecure c then danger_accept_invalid_certs true b else b.

(** Certificates are checked unless the insecure option is on, whatever else
    happens. *)
Lemma apply_checks c b :
  accept_invalid_certs (apply c b) = insecure c || accept_invalid_certs b.
Proof. unfold apply. destruct (insecure c); [done|]. by case_match. Qed.

(** An unreadable CA file changes nothing, and nothing says so. *)
Lemma apply_unreadable p b :
  read_file p = None → apply (mkClientTls (Some p) false) b = b.
Proof. intros Hp. unfold apply. cbn [ca_pem insecure mbind option_bind]. by rewrite Hp. Qed.

(** ** The shard client *)

(** [HeaderValue::from_str]: visible ASCII, blanks and tabs. *)
Definition header_byte (a : ascii) : bool :=
  let v := byte_val a in ((32 <=? v) && (v <=? 126)) || (v =? 9).
Definition header_value (s : string) : option string :=
  if forallb header_byte (as_bytes s) then Some s else None.

(** [str::trim_end_matches('/')]. *)
Definition trim_slashes (s : string) : string :=
  text (reverse ((fix go (l : bytes) : bytes :=
                    match l with
                    | a :: l' => if decide (a = "/"%char) then go l' else l
                    | [] => []
                    end) (reverse (as_bytes s)))).

Lemma header_bearer t :
  forallb header_byte (as_bytes ("Bearer " ++ t)) = forallb header_byte (as_bytes t).
Proof. done. Qed.

(** The connections of a client that presents [token].  [build] is the HTTP
    library's: when it fails, a client without any of the options is used. *)
Definition build_http (g : option ClientTls) (build : builder → bool) (token : option string)
    : builder :=
  let b := with_timeouts 2 15 plain_client in
  let b := match (t ← token; header_value ("Bearer " ++ t)%string) with
           | Some v => with_authorization v b
           | None => b
           end in
  let b := apply (client_tls g) b in
  if build b then b else plain_client.

Record HttpShardClient := mkClient { client_id : string; base : string; http : builder }.

Definition new_authed (g : option ClientTls) (build : builder → bool)
    (id base : string) (token : option string) : HttpShardClient :=
  mkClient id (trim_slashes base) (build_http g build token).

(** A token of header characters is presented on every call, and certificates
    are checked unless the process was started insecure. *)
Lemma new_authed_presents g build id base t :
  (∀ b, build b = true) → forallb header_byte (as_bytes t) = true →
  authorization (http (new_authed g build id base (Some t))) = Some ("Bearer " ++ t)%string
  ∧ accept_invalid_certs (http (new_authed g build id base (Some t))) = insecure (client_tls g).
Proof.
  intros Hb Ht. unfold new_authed, build_http, header_value. rewrite Hb. cbn [http mbind option_bind].
  rewrite header_bearer, Ht.
  rewrite apply_checks. cbn. rewrite orb_false_r. split; [|done].
  unfold apply. by repeat case_match.
Qed.

(** A token with any other character is dropped: the calls carry none. *)
Lemma new_authed_drops_token g build id base t :
  forallb header_byte (as_bytes t) = false →
  authorization (http (new_authed g build id base (Some t))) = None.
Proof.
  intros Ht. unfold new_authed, build_http, header_value. cbn [http mbind option_bind].
  rewrite header_bearer, Ht.
  destruct (build _); [|done]. unfold apply. by repeat case_match.
Qed.

End client.

End Tls.
