(* ===== verification/Daemon.v ===== *)
(** * The daemon's start-up ([src/src/bin/stplrd.rs])

    What the entry point computes before it serves: sizes and membership lists
    from the command line, and which credential guards which port.  Reading the
    flags into the argument record, printing and binding sockets are not
    modelled. *)

From S2P Require Import Prelude Machine Text Wire Partitioner Store MemoryStore Shard Proto.

Local Open Scope Z_scope.

Module Daemon.
Import Partitioner.

(** ** Sizes *)

Definition strip_suffix (p s : string) : option string :=
  String.rev <$> strip_prefix (String.rev p) (String.rev s).

(** [str::to_lowercase], where it can matter to [parse_size]: the ASCII
    letters, and the Kelvin sign (U+212A), the only other character whose lower
    case is one of the letters of a suffix. *)
Fixpoint to_lowercase (b : bytes) : bytes :=
  match b with
  | [] => []
  | a :: b' =>
      let kelvin :=
        match b' with
        | x :: y :: r =>
            if (byte_val a =? 226) && (byte_val x =? 132) && (byte_val y =? 170)
            then Some ("k"%char :: to_lowercase r) else None
        | _ => None
        end in
      match kelvin with
      | Some r => r
      | None =>
          (if (65 <=? byte_val a) && (byte_val a <=? 90) then byte (byte_val a + 32) else a)
            :: to_lowercase b'
      end
  end.

(** The multiplication is unchecked: it wraps on [usize]. *)
Definition parse_size (s : string) : option Z :=
  let s := text (to_lowercase (as_bytes (trim s))) in
  let '(num, mult) :=
    match strip_suffix "gb" s with
    | Some n => (n, 1024 * 1024 * 1024)
    | None =>
        match strip_suffix "mb" s with
        | Some n => (n, 1024 * 1024)
        | None => match strip_suffix "kb" s with Some n => (n, 1024) | None => (s, 1) end
        end
    end in
  v ← parse_u64 (trim num); Some (u64_mul v mult).

Example parse_size_ex :
  map parse_size ["8gb"; " 512 MB "; "64"; "1KB"; "x"; "17179869185gb"]%string
  = [Some 8589934592; Some 536870912; Some 64; Some 1024; None; Some 1073741824].
Proof. by vm_compute. Qed.

(** ** Membership lists *)

(** [str::split_once]. *)
Fixpoint split_once (c : ascii) (s : string) : option (string * string) :=
  match s with
  | EmptyString => None
  | String a s' =>
      if decide (a = c) then Some (EmptyString, s')
      else '(l, r) ← split_once c s'; Some (String a l, r)
  end.

(** [spec.split(',').map(str::trim).filter(|s| !s.is_empty())]. *)
Definition parts (spec : string) : list string :=
  filter (λ p, p ≠ EmptyString) (map trim (split_on "," spec)).

(** The entries [id=value], later ones replacing earlier ones; [None] when an
    entry has no [=]. *)
Definition parse_entries {A} (f : string → A) (spec : string) : option (gmap NodeId A) :=
  foldl (λ acc part,
    m ← acc; '(i, v) ← split_once "=" part; Some (<[trim i := f (trim v)]> m))
    (Some ∅) (parts spec).

(** [--shards]: the base URL of each shard. *)
Definition shard_list (spec : string) : option (gmap NodeId string) :=
  parse_entries (λ hostport, ("http://" ++ hostport)%string) spec.

(** [--racks]. *)
Definition rack_list (spec : string) : option (gmap NodeId string) := parse_entries id spec.

(** [--shard-count]: the pods of a stateful set. *)
Definition discovered (name domain : string) (port count : nat) : gmap NodeId string :=
  list_to_map (map (λ i,
    let id := (name ++ "-" ++ u64_to_string (Z.of_nat i))%string in
    (id, ("http://" ++ id ++ "." ++ domain ++ ":" ++ u64_to_string (Z.of_nat port))%string))
    (seq 0 count)).

(** The shards of a coordinator; [None]: the start is refused. *)
Definition coordinator_shards (shards : option string) (count : nat)
    (name domain : option string) (port : nat) : option (gmap NodeId string) :=
  m ← match shards with
      | Some spec => shard_list spec
      | None =>
          if (0 <? count)%nat then n ← name; d ← domain; Some (discovered n d port count)
          else Some ∅
      end;
  if decide (m = ∅) then None else Some m.

(** Certificate and key go together. *)
Definition build_server_tls (cert key : option string) : option (option (string * string)) :=
  match cert, key with
  | Some c, Some k => Some (Some (c, k))
  | None, None => Some None
  | _, _ => None
  end.

(** ** Guards of the ports *)

Inductive Guard :=
  | ByPolicy (spec : string)
  | ByToken (token : option string).

Definition http_guard (auth_token policy : option string) : Guard :=
  match policy with Some spec => ByPolicy spec | None => ByToken auth_token end.

(** The binary and the Redis port look at the token only. *)
Definition bin_guard (auth_token policy : option string) : option string := auth_token.
Definition resp_guard (auth_token policy : option string) : option string := auth_token.

(** ** Lists of entries *)

(** No separator inside, no white space around. *)
Definition name_ok (s : string) : Prop :=
  lacks "," s = true ∧ lacks "=" s = true ∧ trim s = s.
Definition value_ok (s : string) : Prop := lacks "," s = true ∧ trim s = s.

Definition entry (e : string * string) : string := (e.1 ++ "=" ++ e.2)%string.

Lemma split_once_app c s t : lacks c s = true → split_once c (s ++ String c t) = Some (s, t).
Proof.
  induction s as [|a s IH].
  - intros _. change (EmptyString ++ String c t)%string with (String c t). cbn [split_once].
    by rewrite decide_True.
  - cbn [lacks]. intros [Ha Hs]%andb_true_iff.
    apply negb_true_iff, bool_decide_eq_false in Ha.
    change (String a s ++ String c t)%string with (String a (s ++ String c t)). cbn [split_once].
    rewrite decide_False by done. by rewrite IH.
Qed.

(** A membership list is read as it is written: the entries of a list of
    [id=value] pairs, joined by commas, give the map of those pairs (an id given
    twice keeps its last value), provided names and values hold no separator
    and the pairs no white space at their ends. *)
Theorem entries_roundtrip {A} (f : string → A) (es : list (string * string)) :
  es ≠ [] → Forall (λ e, name_ok e.1 ∧ value_ok e.2 ∧ trim (entry e) = entry e) es →
  parse_entries f (join "," (map entry es)) = Some (foldl (λ m e, <[e.1 := f e.2]> m) ∅ es).
Proof.
  intros Hne Hok. unfold parse_entries, parts. rewrite split_join.
  - assert (map trim (map entry es) = map entry es) as ->.
    { clear Hne. induction Hok as [|e es (_ & _ & He) _ IH]; [done|]. cbn [map].
      by rewrite He, IH. }
    rewrite filter_all.
    2:{ intros x (e & -> & _)%list_elem_of_fmap. destruct e as [i v]. unfold entry. cbn.
        by destruct i. }
    clear Hne. generalize (∅ : gmap NodeId A) as m. induction Hok as [|e es He Hok IH]; intros m; [done|].
    cbn [map foldl]. destruct He as ((_ & Hi & Ht) & (_ & Hv) & _). cbn [mbind option_bind].
    change (entry e) with (e.1 ++ String "=" e.2)%string. rewrite split_once_app by done.
    cbn [mbind option_bind]. rewrite Ht, Hv. apply IH.
  - by destruct es.
  - apply Forall_map. eapply Forall_impl; [exact Hok|]. intros [i v] ((Hc & _) & (Hv & _) & _).
    cbn in *. change (entry (i, v)) with (i ++ String "=" v)%string. rewrite lacks_app, Hc. by cbn.
Qed.

(** ** A policy guards one port of three *)

Section ports.
Context {V St : Type} `{!IndexStore V St, !JsonValue V, !WireJson V}.

(** A policy guards HTTP only: on a daemon started with a policy and no
    token, the binary port serves any well-formed read to anybody, without a
    credential. *)
Theorem policy_leaves_binary_port_open spec clk (sh : Shard.t St) c k (v : V) :
  Proto.str_ok c = true → Proto.str_ok k = true →
  Shard.object (clk O) sh c k = Some v → Proto.value_ok v →
  http_guard None (Some spec) = ByPolicy spec
  ∧ Proto.handle (bin_guard None (Some spec)) clk sh (Proto.encode_request (Proto.Get (V := V) c k))
    = (sh, byte Proto.ST_OK :: write_field (value_to_vec v)).
Proof.
  intros Hc Hk Hv [_ Hf]. split; [done|]. unfold Proto.handle, bin_guard.
  set (inp := Proto.encode_request _).
  pose proof (Proto.read_encode true (Proto.Get (V := V) c k) [] (conj Hc Hk) eq_refl) as Hr.
  rewrite app_nil_r in Hr. fold inp in Hr.
  destruct (length inp) as [|n] eqn:Hl; [done|].
  cbn [Proto.handle_loop]. rewrite bool_decide_eq_true_2 by done. rewrite Hr.
  cbn [Proto.execute Proto.stays Proto.read_request]. rewrite Hv.
  cbn [mbind option_bind default from_option id]. rewrite app_nil_r.
  unfold write_field, field_ok in *. by rewrite Z.mod_small by lia.
Qed.

End ports.

End Daemon.
