(* ===== verification/Startup.v ===== *)
(** * Starting a node ([src/src/bin/stplrd.rs])

    The command line, and what the entry point makes of it: the argument
    record and its flags, the choice between inspecting a backup, running a
    coordinator and running a shard, the ports with their guards, and every
    refusal on the way.  Addresses, files and the TLS library are parameters;
    what the ports then serve is the subject of the other files. *)

From S2P Require Import Prelude Machine Text Wire Partitioner Store Kvdb Lmdb Durability.
From S2P Require Import MemoryStore Lease Shard Proto Resp Redis Http Rbac NetAuth Gateway Tls Daemon.

Local Open Scope Z_scope.

Module Startup.
Import Partitioner.

(** ** The command line *)

Record Args := mkArgs {
  role : string;
  bind : string;
  bin_bind : option string;
  resp_bind : option string;
  store : string;
  path : string;
  map_size : Z;
  node_id : string;
  shards : option string;
  racks : option string;
  verify_snapshot : option string;
  coordinator_id : option string;
  lease_ttl_ms : Z;
  ingest_queue : option string;
  auth_token : option string;
  replication : Z;
  shard_count : Z;
  shard_name : option string;
  shard_domain : option string;
  shard_port : Z;
  tls_cert : option string;
  tls_key : option string;
  tls_ca : option string;
  tls_insecure : bool;
  policy : option string;
}.

(** [env_token] is [STPLR_AUTH_TOKEN]; an empty one counts as none. *)
Definition defaults (env_token : option string) : Args :=
  mkArgs "shard" "0.0.0.0:8100" None None "memory" "./stplr-data" (2 * 1024 * 1024 * 1024) "stplrd"
    None None None None 10000 None (t ← env_token; if String.eqb t EmptyString then None else Some t)
    2 0 None None 8100 None None None false None.

(** [s.parse::<u16>()]. *)
Definition parse_u16 (s : string) : option Z :=
  v ← parse_u64 s; if v <? 65536 then Some v else None.

(** A flag with the argument after it, if there is one; [None]: unknown flag.
    A text flag keeps its value when it comes last, an optional one loses it;
    a number that does not parse is ignored. *)
Definition assign (a : Args) (flag : string) (v : option string) : option Args :=
  let '(mkArgs ro bi bb rb st pa ms ni sh ra vs ci lt iq au re sc sn sd sp tc tk ta ti po) := a in
  let is_ := String.eqb flag in
  if is_ "--role" then Some (mkArgs (default ro v) bi bb rb st pa ms ni sh ra vs ci lt iq au re sc sn sd sp tc tk ta ti po)
  else if is_ "--bind" then Some (mkArgs ro (default bi v) bb rb st pa ms ni sh ra vs ci lt iq au re sc sn sd sp tc tk ta ti po)
  else if is_ "--bin-bind" then Some (mkArgs ro bi v rb st pa ms ni sh ra vs ci lt iq au re sc sn sd sp tc tk ta ti po)
  else if is_ "--resp-bind" then Some (mkArgs ro bi bb v st pa ms ni sh ra vs ci lt iq au re sc sn sd sp tc tk ta ti po)
  else if is_ "--store" then Some (mkArgs ro bi bb rb (default st v) pa ms ni sh ra vs ci lt iq au re sc sn sd sp tc tk ta ti po)
  else if is_ "--path" then Some (mkArgs ro bi bb rb st (default pa v) ms ni sh ra vs ci lt iq au re sc sn sd sp tc tk ta ti po)
  else if is_ "--map-size" then
    Some (mkArgs ro bi bb rb st pa (default ms (v ≫= Daemon.parse_size)) ni sh ra vs ci lt iq au re sc sn sd sp tc tk ta ti po)
  else if is_ "--id" then Some (mkArgs ro bi bb rb st pa ms (default ni v) sh ra vs ci lt iq au re sc sn sd sp tc tk ta ti po)
  else if is_ "--shards" then Some (mkArgs ro bi bb rb st pa ms ni v ra vs ci lt iq au re sc sn sd sp tc tk ta ti po)
  else if is_ "--racks" then Some (mkArgs ro bi bb rb st pa ms ni sh v vs ci lt iq au re sc sn sd sp tc tk ta ti po)
  else if is_ "--verify-snapshot" then Some (mkArgs ro bi bb rb st pa ms ni sh ra v ci lt iq au re sc sn sd sp tc tk ta ti po)
  else if is_ "--coordinator-id" then Some (mkArgs ro bi bb rb st pa ms ni sh ra vs v lt iq au re sc sn sd sp tc tk ta ti po)
  else if is_ "--lease-ttl-ms" then
    Some (mkArgs ro bi bb rb st pa ms ni sh ra vs ci (default lt (v ≫= parse_u64)) iq au re sc sn sd sp tc tk ta ti po)
  else if is_ "--ingest-queue" then Some (mkArgs ro bi bb rb st pa ms ni sh ra vs ci lt v au re sc sn sd sp tc tk ta ti po)
  else if is_ "--auth-token" then Some (mkArgs ro bi bb rb st pa ms ni sh ra vs ci lt iq v re sc sn sd sp tc tk ta ti po)
  else if is_ "--replication" then
    Some (mkArgs ro bi bb rb st pa ms ni sh ra vs ci lt iq au (default re (v ≫= parse_u64)) sc sn sd sp tc tk ta ti po)
  else if is_ "--shard-count" then
    Some (mkArgs ro bi bb rb st pa ms ni sh ra vs ci lt iq au re (default sc (v ≫= parse_u64)) sn sd sp tc tk ta ti po)
  else if is_ "--shard-name" then Some (mkArgs ro bi bb rb st pa ms ni sh ra vs ci lt iq au re sc v sd sp tc tk ta ti po)
  else if is_ "--shard-domain" then Some (mkArgs ro bi bb rb st pa ms ni sh ra vs ci lt iq au re sc sn v sp tc tk ta ti po)
  else if is_ "--shard-port" then
    Some (mkArgs ro bi bb rb st pa ms ni sh ra vs ci lt iq au re sc sn sd (default sp (v ≫= parse_u16)) tc tk ta ti po)
  else if is_ "--tls-cert" then Some (mkArgs ro bi bb rb st pa ms ni sh ra vs ci lt iq au re sc sn sd sp v tk ta ti po)
  else if is_ "--tls-key" then Some (mkArgs ro bi bb rb st pa ms ni sh ra vs ci lt iq au re sc sn sd sp tc v ta ti po)
  else if is_ "--tls-ca" then Some (mkArgs ro bi bb rb st pa ms ni sh ra vs ci lt iq au re sc sn sd sp tc tk v ti po)
  else if is_ "--policy" then Some (mkArgs ro bi bb rb st pa ms ni sh ra vs ci lt iq au re sc sn sd sp tc tk ta ti v)
  else None.

Definition set_insecure (a : Args) : Args :=
  let '(mkArgs ro bi bb rb st pa ms ni sh ra vs ci lt iq au re sc sn sd sp tc tk ta _ po) := a in
  mkArgs ro bi bb rb st pa ms ni sh ra vs ci lt iq au re sc sn sd sp tc tk ta true po.

(** The loop over the flags; [inl] is the exit code. *)
Fixpoint parse_flags (a : Args) (argv : list string) : Z + Args :=
  match argv with
  | [] => inr a
  | flag :: rest =>
      if String.eqb flag "--tls-insecure" then parse_flags (set_insecure a) rest
      else if String.eqb flag "-h" || String.eqb flag "--help" then inl 0
      else
        match rest with
        | v :: rest' =>
            match assign a flag (Some v) with
            | Some a' => parse_flags a' rest'
            | None => inl 2
            end
        | [] => match assign a flag None with Some a' => inr a' | None => inl 2 end
        end
  end.

Definition parse_args (env_token : option string) (argv : list string) : Z + Args :=
  parse_flags (defaults env_token) argv.

(** ** Flags are read as they are written *)

(** A decimal size is that many bytes. *)
Lemma lowercase_digits b : forallb Resp.digit b = true → Daemon.to_lowercase b = b.
Proof.
  induction b as [|a b IH]; [done|]. cbn [forallb]. intros [Ha Hb]%andb_true_iff.
  unfold Resp.digit in Ha. cbn [Daemon.to_lowercase].
  assert (byte_val a =? 226 = false) as -> by lia. cbn [andb].
  assert ((65 <=? byte_val a) && (byte_val a <=? 90) = false) as -> by lia.
  rewrite IH by done. by destruct b as [|? [|? ?]].
Qed.

Lemma no_unit_suffix c t : forallb Resp.digit (as_bytes t) = true →
  Daemon.strip_suffix (String c "b") t = None.
Proof.
  intros Ht. unfold Daemon.strip_suffix. change (String.rev (String c "b")) with (String "b" (String c "")).
  assert (forallb Resp.digit (as_bytes (String.rev t)) = true) as Hr.
  { rewrite Redis.as_bytes_rev. rewrite forallb_forall in Ht |- *. intros a Ha. apply Ht.
    apply list_elem_of_In, elem_of_reverse. by apply list_elem_of_In. }
  destruct (String.rev t) as [|a r]; [done|]. cbn [strip_prefix]. case_decide as Ha; [|done].
  subst a. done.
Qed.

Lemma size_roundtrip n : is_u64 n → Daemon.parse_size (u64_to_string n) = Some n.
Proof.
  intros Hn. assert (Hd : forallb Resp.digit (as_bytes (u64_to_string n)) = true).
  { destruct Hn as [H0 _]. rewrite <-(Z2Nat.id n H0). apply Resp.usize_digits. }
  assert (Ht : trim (u64_to_string n) = u64_to_string n) by by apply Redis.trim_solids, Redis.digits_solid.
  unfold Daemon.parse_size. rewrite Ht, lowercase_digits, text_as_bytes by done.
  rewrite !no_unit_suffix by done. rewrite Ht, u64_string_roundtrip by done. cbn [mbind option_bind].
  unfold u64_mul. rewrite Z.mul_1_r, Z.mod_small by done. done.
Qed.

Definition opt_flag (f : string) (o : option string) : list string :=
  match o with Some v => [f; v] | None => [] end.

(** The command line that asks for the arguments. *)
Definition render (a : Args) : list string :=
  ["--role"; role a; "--bind"; bind a; "--store"; store a; "--path"; path a;
   "--map-size"; u64_to_string (map_size a); "--id"; node_id a;
   "--lease-ttl-ms"; u64_to_string (lease_ttl_ms a); "--replication"; u64_to_string (replication a);
   "--shard-count"; u64_to_string (shard_count a); "--shard-port"; u64_to_string (shard_port a)]%string
  ++ opt_flag "--bin-bind" (bin_bind a) ++ opt_flag "--resp-bind" (resp_bind a)
  ++ opt_flag "--shards" (shards a) ++ opt_flag "--racks" (racks a)
  ++ opt_flag "--verify-snapshot" (verify_snapshot a) ++ opt_flag "--coordinator-id" (coordinator_id a)
  ++ opt_flag "--ingest-queue" (ingest_queue a) ++ opt_flag "--auth-token" (auth_token a)
  ++ opt_flag "--shard-name" (shard_name a) ++ opt_flag "--shard-domain" (shard_domain a)
  ++ opt_flag "--tls-cert" (tls_cert a) ++ opt_flag "--tls-key" (tls_key a)
  ++ opt_flag "--tls-ca" (tls_ca a) ++ opt_flag "--policy" (policy a)
  ++ (if tls_insecure a then ["--tls-insecure"%string] else []).

(** The widths of the numbers. *)
Definition args_ok (a : Args) : Prop :=
  is_u64 (map_size a) ∧ is_u64 (lease_ttl_ms a) ∧ is_u64 (replication a) ∧ is_u64 (shard_count a)
  ∧ 0 ≤ shard_port a < 65536.

Definition special (f : string) : bool :=
  String.eqb f "--tls-insecure" || (String.eqb f "-h" || String.eqb f "--help").

Lemma flag_step f v a a' rest :
  special f = false → assign a f (Some v) = Some a' →
  parse_flags a (f :: v :: rest) = parse_flags a' rest.
Proof.
  unfold special. intros [H1 H2]%orb_false_iff Ha. cbn [parse_flags]. by rewrite H1, H2, Ha.
Qed.

Lemma opt_step f o a a' rest :
  special f = false → assign a f o = Some a' → (o = None → a' = a) →
  parse_flags a (opt_flag f o ++ rest) = parse_flags a' rest.
Proof.
  intros Hf Ha Hn. destruct o as [v|]; [by apply flag_step|]. cbn. by rewrite Hn.
Qed.

Lemma port_roundtrip z : 0 ≤ z < 65536 → parse_u16 (u64_to_string z) = Some z.
Proof.
  intros [H0 Hz]. unfold parse_u16. rewrite u64_string_roundtrip by (split; [done|]; unfold u64_modulus; lia).
  cbn [mbind option_bind]. by rewrite (proj2 (Z.ltb_lt _ _) Hz).
Qed.

Ltac number := cbv beta iota zeta delta [assign String.eqb Ascii.eqb Bool.eqb mbind option_bind].

(** Every flag reaches its own field: the command line written for a record of
    arguments is read back as that record. *)
Theorem args_roundtrip a : args_ok a → parse_args None (render a) = inr a.
Proof.
  intros (H1 & H2 & H3 & H4 & H5).
  destruct a as [ro bi bb rb st pa ms ni sh ra vs ci lt iq au re sc sn sd sp tc tk ta ti po].
  cbn in H1, H2, H3, H4, H5. unfold parse_args, render, defaults.
  cbn [role bind bin_bind resp_bind store path map_size node_id shards racks verify_snapshot
       coordinator_id lease_ttl_ms ingest_queue auth_token replication shard_count shard_name
       shard_domain shard_port tls_cert tls_key tls_ca tls_insecure policy app].
  do 4 (erewrite flag_step; [|reflexivity|reflexivity]).
  erewrite flag_step; [|reflexivity|number; rewrite (size_roundtrip ms H1); reflexivity].
  erewrite flag_step; [|reflexivity|reflexivity].
  erewrite flag_step; [|reflexivity|number; rewrite (u64_string_roundtrip lt H2); reflexivity].
  erewrite flag_step; [|reflexivity|number; rewrite (u64_string_roundtrip re H3); reflexivity].
  erewrite flag_step; [|reflexivity|number; rewrite (u64_string_roundtrip sc H4); reflexivity].
  erewrite flag_step; [|reflexivity|number; rewrite (port_roundtrip sp H5); reflexivity].
  do 14 (erewrite opt_step; [|reflexivity|reflexivity|by intros ->]).
  by destruct ti.
Qed.

(** A flag that comes last without its value clears an optional argument: the
    token of the environment is dropped. *)
Lemma trailing_auth_token env : parse_args env ["--auth-token"%string] = inr (defaults None).
Proof. done. Qed.

(** ** What is started *)

Inductive Failure :=
  | BadShards | BadRacks | BadAddress (flag : string) | BadTls (why : string)
  | BadPolicy (why : Rbac.PolicyError) | UnknownRole (r : string) | UnknownStore (s : string)
  | CannotOpen (path : string) | EmptySnapshot.

Inductive StoreChoice := InMemory | Durable (path : string) (map_size : Z).

(** The first error ends the start. *)
Definition and_then {E A B} (m : E + A) (k : A → E + B) : E + B :=
  match m with inl e => inl e | inr x => k x end.

Local Notation "x <-? m ; k" := (and_then m (λ x, k)) (at level 100, m at next level, right associativity).

Lemma and_then_inr {E A B} (m : E + A) (k : A → E + B) y :
  and_then m k = inr y → ∃ x, m = inr x ∧ k x = inr y.
Proof. destruct m; [done|]. by eexists. Qed.

Section main.
Context {Addr Cert Key Config D : Type} `{!KvDb D}.
(** [SocketAddr]'s parser; what LMDB environments open; what a snapshot file
    holds; the TLS library. *)
Context (parse_addr : string → option Addr) (opens : string → bool).
Context (snapshot_file : string → option (gmap string D)).
Context (read_file : string → option bytes).
Context (pem_certs : bytes → option (list Cert)) (pem_key : bytes → option (option Key)).
Context (single_cert : list Cert → Key → option Config).

(** A port: its address, what guards it, and its TLS configuration; the Redis
    port has none. *)
Inductive Port :=
  | HttpPort (addr : Addr) (guard : Gateway.guard) (tls : option Config)
  | BinPort (addr : Addr) (token : option string) (tls : option Config)
  | RespPort (addr : Addr) (token : option string).

Inductive Started :=
  | Inspected (stats : list (string * nat))
  | ShardNode (id : string) (st : StoreChoice) (ports : list Port)
  | CoordinatorNode (clients : gmap NodeId string) (client_token : option string)
      (replication : Z) (topology : gmap NodeId string) (queue : option string)
      (elect : option (string * Z)) (port : Port).

Abbreviation result := (sum Failure).

Definition server_tls (a : Args) : result (option Config) :=
  match Tls.build_server_tls read_file pem_certs pem_key single_cert (tls_cert a) (tls_key a) with
  | inl e => inl (BadTls e)
  | inr t => inr t
  end.

Definition address (flag s : string) : result Addr :=
  match parse_addr s with Some x => inr x | None => inl (BadAddress flag) end.

(** The policy, when there is one, replaces the token on HTTP. *)
Definition guard_of (a : Args) : result Gateway.guard :=
  match policy a with
  | Some spec =>
      match Rbac.parse spec with
      | inl e => inl (BadPolicy e)
      | inr pol => inr (Gateway.RequirePolicy pol)
      end
  | None => inr (Gateway.RequireBearer (auth_token a))
  end.

(** An optional port. *)
Definition optional_port (flag : string) (b : option string) (mk : Addr → Port) : result (list Port) :=
  match b with
  | None => inr []
  | Some s => match address flag s with inl e => inl e | inr x => inr [mk x] end
  end.

(** A shard: the store, TLS, then the ports in the order they are bound. *)
Definition run_shard (a : Args) : result Started :=
  st <-? (if String.eqb (store a) "memory" then inr InMemory
          else if String.eqb (store a) "lmdb" then
            (if opens (path a) then inr (Durable (path a) (map_size a)) else inl (CannotOpen (path a)))
          else inl (UnknownStore (store a)));
  tls <-? server_tls a;
  bin <-? optional_port "--bin-bind" (bin_bind a) (λ x, BinPort x (auth_token a) tls);
  resp <-? optional_port "--resp-bind" (resp_bind a) (λ x, RespPort x (auth_token a));
  addr <-? address "--bind" (bind a);
  g <-? guard_of a;
  inr (ShardNode (node_id a) st (bin ++ resp ++ [HttpPort addr g tls])).

(** A coordinator: its shards, the racks, the queue, TLS, the address and the
    policy. *)
Definition run_coordinator (a : Args) : result Started :=
  clients <-? match Daemon.coordinator_shards (shards a) (Z.to_nat (shard_count a)) (shard_name a)
                      (shard_domain a) (Z.to_nat (shard_port a)) with
              | None => inl BadShards
              | Some m => inr m
              end;
  topology <-? match racks a with
               | None => inr ∅
               | Some spec => match Daemon.rack_list spec with None => inl BadRacks | Some m => inr m end
               end;
  queue <-? match ingest_queue a with
            | None => inr None
            | Some p => if opens p then inr (Some p) else inl (CannotOpen p)
            end;
  tls <-? server_tls a;
  addr <-? address "--bind" (bind a);
  g <-? guard_of a;
  inr (CoordinatorNode clients (auth_token a) (replication a) topology queue
         (i ← coordinator_id a; Some (i, lease_ttl_ms a)) (HttpPort addr g tls)).

(** Inspect a snapshot and stop. *)
Definition inspect (file : string) : result Started :=
  match snapshot_file file with
  | None => inl (CannotOpen file)
  | Some e =>
      match Durability.verify_mode e with
      | inl _ => inl EmptySnapshot
      | inr stats => inr (Inspected stats)
      end
  end.

Definition run (a : Args) : result Started :=
  match verify_snapshot a with
  | Some file => inspect file
  | None =>
      if String.eqb (role a) "coordinator" then run_coordinator a
      else if String.eqb (role a) "shard" then run_shard a
      else inl (UnknownRole (role a))
  end.

(** The process: it exits, fails, or starts something.  The client TLS options
    are set for the whole process before anything else. *)
Definition main (env_token : option string) (argv : list string)
    : Z + (option Tls.ClientTls * result Started) :=
  match parse_args env_token argv with
  | inl code => inl code
  | inr a => inr (Tls.set_client_tls None (Tls.mkClientTls (tls_ca a) (tls_insecure a)), run a)
  end.

(** ** Every port asks for the credential *)

(** The ports of a started shard. *)
Lemma shard_ports a id st ports p :
  run_shard a = inr (ShardNode id st ports) → p ∈ ports →
  match p with
  | HttpPort _ g tls => guard_of a = inr g ∧ server_tls a = inr tls
  | BinPort _ token tls => token = auth_token a ∧ server_tls a = inr tls
  | RespPort _ token => token = auth_token a
  end.
Proof.
  unfold run_shard. intros H Hp.
  apply and_then_inr in H as (st' & _ & H). apply and_then_inr in H as (tls & Ht & H).
  apply and_then_inr in H as (bin & Hb & H). apply and_then_inr in H as (resp & Hr & H).
  apply and_then_inr in H as (addr & _ & H). apply and_then_inr in H as (g & Hg & H).
  injection H as _ _ <-. unfold optional_port in Hb, Hr.
  apply elem_of_app in Hp as [Hp|[Hp|Hp]%elem_of_app].
  - destruct (bin_bind a) as [b|]; [|injection Hb as <-; by apply elem_of_nil in Hp].
    destruct (address _ b); [done|]. injection Hb as <-. by apply list_elem_of_singleton in Hp as ->.
  - destruct (resp_bind a) as [b|]; [|injection Hr as <-; by apply elem_of_nil in Hp].
    destruct (address _ b); [done|]. injection Hr as <-. by apply list_elem_of_singleton in Hp as ->.
  - by apply list_elem_of_singleton in Hp as ->.
Qed.

(** A shard node comes from the arguments of a shard. *)
Lemma run_is_shard a id st ports :
  run a = inr (ShardNode id st ports) → run_shard a = inr (ShardNode id st ports).
Proof.
  unfold run. destruct (verify_snapshot a) as [f|].
  - unfold inspect. by repeat case_match.
  - destruct (String.eqb (role a) "coordinator"); [|by destruct (String.eqb (role a) "shard")].
    unfold run_coordinator. intros H. repeat (apply and_then_inr in H as (? & _ & H)). done.
Qed.

Section inert.
Context {V St : Type} `{!IndexStore V St, !JsonValue V, !WireJson V, !JsonEnvelope V, !LeaseCodec V}.
Context (parse_query : string → list (string * string)) (limit : Z).

(** An HTTP caller the node does not know: no token of the policy, or not the
    node's token. *)
Definition stranger (a : Args) (req : NetAuth.Request) : Prop :=
  match policy a with
  | Some spec => ∀ pol, Rbac.parse spec = inr pol → NetAuth.bearer req ≫= Rbac.principal pol = None
  | None => NetAuth.bearer req ≠ auth_token a
  end.

(** Without the credential, nothing sent to the port changes the shard, and
    what comes back does not depend on what it holds. *)
Definition keeps_out (a : Args) (t : string) (p : Port) : Prop :=
  match p with
  | HttpPort _ g _ => ∀ req, stranger a req →
      ∃ r, ∀ now (sh : Shard.t St), Gateway.serve (V := V) parse_query limit g req now sh = (sh, r)
  | BinPort _ token _ => ∀ clk inp,
      ¬ Proto.encode_request (V := V) (Proto.Auth (as_bytes t)) `prefix_of` inp →
      ∃ out, ∀ sh : Shard.t St, Proto.handle (V := V) token clk sh inp = (sh, out)
  | RespPort _ token => ∀ clk inp,
      (∀ args, args ∈ Resp.commands_in (S (length inp)) inp →
         Resp.to_upper (Resp.s (nth 0 args [])) = "AUTH"%string → Resp.password_ok t args = false) →
      ∃ out, ∀ sh : Shard.t St, Resp.handle (V := V) token clk sh inp = (sh, out)
  end.

(** The paths open to everybody touch nothing. *)
Lemma open_path_inert req :
  NetAuth.open_path (NetAuth.path req) = true →
  ∃ r, ∀ now (sh : Shard.t St), Http.app (V := V) limit (Gateway.decoded parse_query req) now sh = (sh, r).
Proof.
  unfold NetAuth.open_path, Gateway.decoded. intros [H|H]%orb_true_iff;
    apply bool_decide_eq_true in H; rewrite H; destruct (NetAuth.is_post req); by eexists.
Qed.

Lemma policy_unknown pol req :
  NetAuth.open_path (NetAuth.path req) = false → NetAuth.bearer req ≫= Rbac.principal pol = None →
  NetAuth.policy_layer (V := V) Gateway.from_slice value_get pol req = NetAuth.Refuse NetAuth.UNAUTHORIZED
  ∨ NetAuth.policy_layer (V := V) Gateway.from_slice value_get pol req = NetAuth.Panic.
Proof.
  intros Ho Hs. unfold NetAuth.policy_layer. rewrite Ho.
  destruct (NetAuth.bearer req) as [tok|]; [|by left]. cbn in Hs. rewrite Hs.
  destruct (match NetAuth.query req with Some q => _ | None => _ end) as [qc|]; [|by right].
  left. by destruct qc, (NetAuth.is_post req).
Qed.

Lemma stranger_kept_out a g req :
  guard_of a = inr g → is_Some (auth_token a) → stranger a req →
  ∃ r, ∀ now (sh : Shard.t St), Gateway.serve (V := V) parse_query limit g req now sh = (sh, r).
Proof.
  unfold guard_of, stranger, Gateway.serve, Gateway.layer. intros Hg [t Ht] Hs.
  destruct (NetAuth.open_path (NetAuth.path req)) eqn:Ho.
  { destruct (open_path_inert req Ho) as [r Hr]. exists (Some r). intros now sh.
    destruct (policy a) as [spec|].
    - destruct (Rbac.parse spec); [done|]. injection Hg as <-.
      unfold NetAuth.policy_layer. rewrite Ho. by rewrite Hr.
    - injection Hg as <-. rewrite Ht. cbn [NetAuth.require_bearer].
      unfold NetAuth.bearer_layer. rewrite Ho. by rewrite Hr. }
  destruct (policy a) as [spec|].
  - destruct (Rbac.parse spec) as [|pol] eqn:Hp; [done|]. injection Hg as <-.
    destruct (policy_unknown pol req Ho (Hs pol eq_refl)) as [Hl|Hl]; rewrite Hl; by eexists.
  - injection Hg as <-. rewrite Ht in Hs |- *. cbn [NetAuth.require_bearer].
    unfold NetAuth.bearer_layer. rewrite Ho.
    destruct (NetAuth.bearer req) as [tok|]; [|by eexists].
    rewrite decide_False by congruence. by eexists.
Qed.

(** C22. The credential guards every port.  When the daemon starts a shard with
    a token, none of the ports it opens (HTTP, binary, Redis), whatever other
    flags were given, lets a caller without the credential through: the shard
    is left as it was, and the bytes sent back are the same whatever the shard
    holds.  The credential is the token, or on HTTP one of the policy's tokens
    when there is a policy. *)
Theorem credential_guards_every_port env argv a opts id st ports t p :
  parse_args env argv = inr a → main env argv = inr (opts, inr (ShardNode id st ports)) →
  auth_token a = Some t → p ∈ ports → keeps_out a t p.
Proof.
  unfold main. intros Ha Hm Ht Hp. rewrite Ha in Hm. injection Hm as _ Hm.
  pose proof (shard_ports a id st ports p (run_is_shard a id st ports Hm) Hp) as Hport.
  destruct p as [ad g tls|ad token tls|ad token]; cbn [keeps_out].
  - intros req Hs. destruct Hport as [Hg _]. eapply stranger_kept_out; [exact Hg|by eexists|done].
  - destruct Hport as [-> _]. rewrite Ht. intros clk inp Hno.
    destruct (Proto.unauthenticated_inert (V := V) t clk inp Hno) as (out & _ & Ho). by exists out.
  - rewrite Hport, Ht. intros clk inp Hno. by apply Resp.resp_unauthenticated_inert.
Qed.

End inert.
End main.

End Startup.
