(* ===== verification/Lifetime.v ===== *)
(** * The life of a cluster ([src/src/bin/stplrd.rs], [src/src/cluster.rs])

    From the command line of a coordinator to any later moment: the cluster that
    [run_coordinator] builds, and everything that can happen to it afterwards
    (data operations, nodes that join, memberships that change with operations
    running meanwhile, nodes that are drained, migrations that are interrupted
    and resumed), as a step relation.  By induction on it, the cluster is one
    map throughout. *)

From S2P Require Import Prelude Machine Text Wire Partitioner Reshard Store Lease Shard Replica Client.
From S2P Require Import Journal Cluster DataPlane Migration Kvdb Gateway Smart Daemon Startup.

Module Lifetime.
Import Partitioner Cluster DataPlane Migration.

Section lifetime.
Context {V St : Type} `{!IndexStore V St, !IndexStoreLaws V St, !JsonValue V, !LeaseCodec V}.
Context `{!HashIter, !Env, !Reliable}.
Implicit Types (cl : Cluster.t) (w : world St) (spec : view V) (tgt : gmap NodeId Client.t).

(** The shard that listens at a base URL. *)
Context (dial : string → string).

(** ** The cluster of a coordinator *)

(** Handles on the shards behind the URLs: see [Smart.http_client]. *)
Definition http_clients (urls : gmap NodeId string) : gmap NodeId Client.t :=
  map_imap (λ i u, Some (Smart.http_client dial i u)) urls.

(** What [run_coordinator] serves: the clients of its list, the two collections
    of the daemon, and the racks if there are any. *)
Definition start_cluster (urls : gmap NodeId string) (repl : Z) (topo : gmap NodeId string)
    : Cluster.t :=
  let cl := Cluster.new (http_clients urls) (Z.to_nat repl) ["kv"; "sets"]%string in
  if decide (topo = ∅) then cl else Cluster.set_topology cl topo.

(** The base URL a client calls. *)
Definition base (u : string) : string := Smart.trim_slashes u.

(** The ids have different hashes, and different shards listen at different
    URLs. *)
Record well_named (urls : gmap NodeId string) : Prop := {
  wn_hash : ∀ i j, is_Some (urls !! i) → is_Some (urls !! j) → fnv1a i = fnv1a j → i = j;
  wn_dial : ∀ i j u v, urls !! i = Some u → urls !! j = Some v →
    dial (base u) = dial (base v) → i = j;
}.

(** Every shard of the list is there and holds nothing in the two collections. *)
Definition fresh (urls : gmap NodeId string) w : Prop :=
  ∀ i u, urls !! i = Some u →
    ∃ sh, shards w !! dial (base u) = Some sh
      ∧ shows (V := V) ["kv"; "sets"]%string sh (λ _ _, None).

Lemma http_clients_lookup urls i c :
  http_clients urls !! i = Some c ↔ ∃ u, urls !! i = Some u ∧ c = Smart.http_client dial i u.
Proof. unfold http_clients. rewrite map_lookup_imap. destruct (urls !! i); naive_solver. Qed.

Lemma start_fields urls repl topo :
  let cl := start_cluster urls repl topo in
  clients cl = http_clients urls ∧ nodes (partitioner cl) = hash_keys (http_clients urls)
  ∧ colls cl = ["kv"; "sets"]%string ∧ topology cl = topo
  ∧ Partitioner.topology (partitioner cl) = topo ∧ Partitioner.wf (partitioner cl)
  ∧ replication_target cl = Z.to_nat repl `max` 1
  ∧ replication cl = clamp (Z.to_nat repl `max` 1) (length (hash_keys (http_clients urls)))
  ∧ down cl = ∅ ∧ chunk cl = CHUNK ∧ overlay cl = None ∧ journal cl = Journal.new.
Proof. unfold start_cluster. cbv zeta. case_decide; subst; by split_and!. Qed.

(** A started coordinator is a stable cluster. *)
Lemma start_stable urls repl topo :
  urls ≠ ∅ → well_named urls → stable (start_cluster urls repl topo).
Proof.
  intros Hne [Hh Hd]. destruct (start_fields urls repl topo)
    as (Hc & Hn & Hl & Ht & Hpt & Hwf & Hrt & Hr & Hdn & Hck & Ho & _).
  assert (Hkeys : ∀ i, i ∈ hash_keys (http_clients urls) → is_Some (urls !! i)).
  { intros i [c Hi]%elem_of_hash_keys. apply http_clients_lookup in Hi as (u & Hu & _). by exists u. }
  split; rewrite ?Hn, ?Hc, ?Ht, ?Hpt, ?Hrt, ?Hr, ?Hdn, ?Hck; try done.
  - apply NoDup_hash_iter_keys.
  - apply distinct_hashes_inj; [apply NoDup_hash_iter_keys|]. intros i j Hi Hj. apply Hh; by apply Hkeys.
  - apply hash_keys_ne. intros He. destruct (map_choose urls Hne) as (i & u & Hu).
    assert (http_clients urls !! i = Some (Smart.http_client dial i u)) as Hi
      by (apply http_clients_lookup; by exists u).
    by rewrite He in Hi.
  - lia.
  - intros n Hnn. by apply elem_of_hash_keys.
  - intros n n' c c'. rewrite Hc, !http_clients_lookup. intros (u & Hu & ->) (v & Hv & ->). cbn.
    by apply (Hd n n' u v).
  - unfold CHUNK. lia.
Qed.

Lemma start_inv urls repl topo w :
  fresh urls w → inv (start_cluster urls repl topo) (λ _ _, None) w.
Proof.
  intros Hf. destruct (start_fields urls repl topo) as (Hc & _ & Hl & _).
  intros n c. rewrite Hc, http_clients_lookup. intros (u & Hu & ->).
  destruct (Hf n u Hu) as (sh & Hsh & Hs). exists sh. split; [done|]. rewrite Hl.
  eapply shows_ext; [|exact Hs]. intros c k _. unfold agree. by case_decide.
Qed.

(** ** Membership lists with clients *)

(** A list that [apply_membership] can take: not empty, ids of different hashes,
    each shard under one id, and the shards that join hold nothing yet (they are
    new, or they have left before and handed over what they had). *)
Record joinable cl tgt w : Prop := {
  jn_ne : tgt ≠ ∅;
  jn_hash : distinct_hashes (hash_keys tgt);
  jn_refs : refs_inj (with_clients cl (clients cl ∪ tgt));
  jn_empty : ∀ n c, tgt !! n = Some c → clients cl !! n = None →
    ∃ sh, shards w !! Client.shard_ref c = Some sh ∧ shows (V := V) (colls cl) sh (λ _ _, None);
}.

Lemma join_stable cl tgt w : stable cl → joinable cl tgt w → stable (with_clients cl (clients cl ∪ tgt)).
Proof. intros Hs Hj. apply stable_clients; [done|apply map_union_subseteq_l|apply Hj]. Qed.

Lemma join_target cl tgt w : joinable cl tgt w → target (with_clients cl (clients cl ∪ tgt)) (hash_keys tgt).
Proof. intros Hj. by apply keys_target; apply Hj. Qed.

Lemma join_inv cl tgt spec w :
  stable cl → joinable cl tgt w → inv cl spec w → inv (with_clients cl (clients cl ∪ tgt)) spec w.
Proof.
  intros Hs Hj Hw n c Hc. cbn in Hc. apply lookup_union_Some_raw in Hc as [Hc|[Hno Hc]].
  - destruct (Hw n c Hc) as (sh & Hsh & Hshow). by exists sh.
  - destruct (jn_empty _ _ _ Hj n c Hc Hno) as (sh & Hsh & Hshow). exists sh. split; [done|].
    eapply shows_ext; [|exact Hshow]. intros c' k _. unfold agree. rewrite decide_False; [done|].
    change (n ∉ owners cl k). intros Hn. apply (ok_client _ (stable_cluster_ok _ Hs)) in Hn as [? Hn].
    congruence.
Qed.

(** ** Everything that can happen *)

(** [lives cl w os rs cl' w']: from [cl] over [w], the operations [os] are asked
    and answered [rs], in this order, whatever happens to the membership in
    between, and [cl'] over [w'] is what there is at the end. *)
Inductive lives : Cluster.t → world St → list (dop (V := V)) → list (dres (V := V)) →
    Cluster.t → world St → Prop :=
  | life_here cl w : lives cl w [] [] cl w
  | life_op cl w o os rs cl' w' :
      dop_ok (V := V) (St := St) cl o →
      lives cl (run_dop cl o w).1 os rs cl' w' →
      lives cl w (o :: os) ((run_dop cl o w).2 :: rs) cl' w'
  | life_rebalance cl w nw os rs cl' w' :
      target cl nw →
      lives (rebalance (V := V) cl nw w).2.1 (rebalance (V := V) cl nw w).1 os rs cl' w' →
      lives cl w os rs cl' w'
  | life_apply cl w tgt os rs cl' w' :
      joinable cl tgt w →
      lives (apply_membership (V := V) cl tgt w).2.1 (apply_membership (V := V) cl tgt w).1 os rs cl' w' →
      lives cl w os rs cl' w'
  | life_drain cl w n os rs cl' w' :
      (∃ m, m ∈ member_ids cl ∧ m ≠ n) →
      lives (drain (V := V) cl n w).2.1 (drain (V := V) cl n w).1 os rs cl' w' →
      lives cl w os rs cl' w'
  | life_online cl w nw cl1 m chs es w2 cl2 m2 rs2 os rs cl' w' :
      target cl nw → begin_migration cl (member_ids cl) nw ∅ = (cl1, m, chs) →
      (∀ o, o ∈ ops_of es → dop_ok (V := V) (St := St) cl o) →
      run_events cl1 m chs es w = (w2, (cl2, m2, [], rs2)) →
      lives (end_migration cl2 m2) w2 os rs cl' w' →
      lives cl w (ops_of es ++ os) (rs2 ++ rs) cl' w'
  | life_interrupted cl w nw mx w1 cl1 s1 es w2 rs2 os rs cl' w' :
      target cl nw → (∀ o, o ∈ es → dop_ok (V := V) (St := St) cl o) →
      rebalance_partial (V := V) cl nw mx w = (w1, (cl1, s1)) →
      run_dops cl1 es w1 = (w2, rs2) →
      lives (resume_migration (V := V) cl1 w2).2.1 (resume_migration (V := V) cl1 w2).1 os rs cl' w' →
      lives cl w (es ++ os) (rs2 ++ rs) cl' w'.

(** ** One map throughout *)

Lemma lives_spec cl w os rs cl' w' :
  lives cl w os rs cl' w' → ∀ spec, stable cl → inv cl spec w →
  rs = (spec_dops spec os).2 ∧ stable cl' ∧ inv cl' (spec_dops spec os).1 w'.
Proof.
  induction 1 as [cl w|cl w o os rs cl' w' Ho _ IH|cl w nw os rs cl' w' Ht _ IH
    |cl w tgt os rs cl' w' Hj _ IH|cl w n os rs cl' w' Hn _ IH
    |cl w nw cl1 m chs es w2 cl2 m2 rs2 os rs cl' w' Ht Hb Hes Hrun _ IH
    |cl w nw mx w1 cl1 s1 es w2 rs2 os rs cl' w' Ht Hes Hp Hrun _ IH]; intros spec Hs Hw.
  - done.
  - destruct (run_dops_spec cl spec [o] w (stable_cluster_ok _ Hs)) as [Hr Hi]; [|done|].
    { by intros ? ->%list_elem_of_singleton. }
    cbn [run_dops spec_dops] in Hr, Hi |- *. unfold mbind, M_bind in Hr, Hi.
    destruct (run_dop cl o w) as [w1 r], (spec_dop spec o) as [s1 r']. cbn in *.
    injection Hr as ->. destruct (IH s1 Hs Hi) as (-> & ? & ?). by destruct (spec_dops s1 os).
  - destruct (rebalance_step cl nw spec w Hs Ht Hw) as (? & _ & ?). by apply IH.
  - destruct (rebalance_step _ _ spec w (join_stable _ _ _ Hs Hj) (join_target _ _ _ Hj)
      (join_inv _ _ _ _ Hs Hj Hw)) as (? & _ & ?). by apply IH.
  - destruct (rebalance_step _ _ spec w Hs (drain_target cl n Hs Hn) Hw) as (? & _ & ?). by apply IH.
  - pose proof (online_events cl nw spec w es cl1 m chs Hs Ht Hw Hb Hes) as Ho.
    rewrite Hrun in Ho. destruct Ho as (-> & _ & Hend). destruct (Hend eq_refl) as (Hs2 & _ & Hi2).
    destruct (IH _ Hs2 Hi2) as (-> & ? & ?). by rewrite spec_dops_app.
  - pose proof (interrupted_spec cl nw mx spec w es Hs Ht Hw Hes) as Ho.
    rewrite Hp, Hrun in Ho. destruct (resume_migration cl1 w2) as [w3 [cl3 s3]]. cbn [fst snd] in *.
    destruct Ho as (-> & Hs3 & _ & Hi3). destruct (IH _ Hs3 Hi3) as (-> & ? & ?).
    by rewrite spec_dops_app.
Qed.

(** ** From the command line on *)

Section started.
Context {Addr Cert Key Config D : Type} `{!KvDb D}.
Context (parse_addr : string → option Addr) (opens : string → bool).
Context (snapshot_file : string → option (gmap string D)).
Context (read_file : string → option bytes).
Context (pem_certs : bytes → option (list Cert)) (pem_key : bytes → option (option Key)).
Context (single_cert : list Cert → Key → option Config).

Abbreviation run := (Startup.run parse_addr opens snapshot_file read_file pem_certs pem_key single_cert).

(** A coordinator does not start without shards. *)
Lemma coordinator_has_shards (a : Startup.Args) urls tok repl topo q e port :
  run a = inr (Startup.CoordinatorNode urls tok repl topo q e port) → urls ≠ ∅.
Proof.
  unfold Startup.run. destruct (Startup.verify_snapshot a) as [f|].
  { unfold Startup.inspect. by repeat case_match. }
  destruct (String.eqb (Startup.role a) "coordinator").
  - unfold Startup.run_coordinator. intros Hst.
    apply Startup.and_then_inr in Hst as (m & Hm & Hst).
    repeat (apply Startup.and_then_inr in Hst as (? & _ & Hst)). injection Hst as -> _ _ _ _ _ _.
    unfold Daemon.coordinator_shards in Hm. intros ->.
    match type of Hm with match (?o ≫= _) with _ => _ end = _ => destruct o as [m|]; [|done] end.
    cbn [mbind option_bind] in Hm. by case_decide; simplify_eq.
  - destruct (String.eqb (Startup.role a) "shard"); [|done]. unfold Startup.run_shard. intros Hst.
    by repeat (apply Startup.and_then_inr in Hst as (? & _ & Hst)).
Qed.

(** C6. From the command line on, the cluster is one map. Take the coordinator
    that the daemon starts over empty shards ([fresh]) with distinct ids and URLs
    ([well_named]); let its clients ask any operations that fit, while nodes that
    hold nothing join, nodes leave and are drained, whole migrations to known
    members run between and among the operations, and some are interrupted, used
    as they are and resumed. Every answer is the one a single map, empty at first,
    would have given, and the cluster at the end is stable and holds that map. The
    shard clients are taken at their interface: each call is delivered and
    answered by the shard's own operation. An HTTP call is that under the
    conditions of C16 (bodies within the limit and parsed back, no null, scan
    limits within the page caps); a body that is too long or does not parse is one
    of the failures that are excluded here ([Http.http_call_outcomes]). *)
Theorem started_cluster_is_one_map a urls tok repl topo q e port w os rs cl' w' :
  run a = inr (Startup.CoordinatorNode urls tok repl topo q e port) →
  well_named urls → fresh urls w →
  lives (start_cluster urls repl topo) w os rs cl' w' →
  rs = (spec_dops (λ _ _, None) os).2 ∧ stable cl' ∧ inv cl' (spec_dops (λ _ _, None) os).1 w'.
Proof.
  intros Ha Hn Hf Hl. apply coordinator_has_shards in Ha.
  apply (lives_spec _ _ _ _ _ _ Hl); [by apply start_stable|by apply start_inv].
Qed.

End started.
End lifetime.
End Lifetime.
