(* ===== verification/Examples.v ===== *)
(** * Concrete stores and shards

    The theorems of the storage layer are stated for every lawful store and
    every JSON value type.  Here they are applied to the in-memory store over
    concrete JSON trees, which shows that their hypotheses are satisfied by the
    data the program handles. *)

From S2P Require Import Prelude Machine Text Partitioner Store MemoryStore Json Lease Shard.

Local Open Scope Z_scope.

Module Examples.

Definition mem : Type := MemoryStore.t json.

(** Two plain objects and one that expires at 100. *)
Definition demo : mem :=
  put_object_at
    (put_object (put_object MemoryStore.new "kv" "apple" (JInt 1)) "kv" "pear" (JStr "x"))
    "kv" "plum" (JInt 7) 100.

Lemma demo_wf : store_wf demo.
Proof.
  apply wf_put_at; [|done|split; [lia|done]]. apply wf_put; [|done]. apply wf_put; [|done].
  apply MemoryStore.wf_new.
Qed.

(** ** Store *)

Lemma scan_buckets_spec_witness :
  scan_buckets 50 demo "kv" [Partitioner.bucket_of "apple"; Partitioner.bucket_of "plum"] None 10
  = take 10 (filter (wanted (list_to_set
               [Partitioner.bucket_of "apple"; Partitioner.bucket_of "plum"]))
      (filter (in_bounds None None None) (live_keys 50 demo "kv"))).
Proof. apply (scan_buckets_spec 50 demo "kv" _ None 10). apply demo_wf. Defined.

Lemma cas_one_winner_witness :
  (cas_all demo "kv" "lock" None [(0, JStr "a"); (1, JStr "b")]).2 = [true; false].
Proof.
  apply (cas_one_winner demo "kv" "lock" None 0 (JStr "a") [(1, JStr "b")]);
    [apply demo_wf|done|reflexivity|reflexivity].
Defined.

Lemma demo_counter : counter demo "kv" "apple" 1.
Proof. split; [apply demo_wf|]. split; [reflexivity|]. split; [split; lia|]. done. Qed.

Lemma incr_all_sums_witness :
  (incr_all demo "kv" "apple" [(0, 5); (3, -2)]).2 !! 1%nat = Some (Some 4).
Proof.
  apply (incr_all_sums demo "kv" "apple" [(0, 5); (3, -2)] 1);
    [done|apply demo_counter|simpl; lia].
Defined.

Lemma demo_set_rep : set_rep demo "sets" "s" ∅.
Proof.
  split; [apply demo_wf|]. split; [reflexivity|]. intros now. split; [apply NoDup_nil_2|done].
Qed.

Lemma set_ops_refine_set_witness :
  (run_set_ops demo "sets" "s"
     [(0, SetAdd "m"); (1, SetAdd "m"); (2, SetRemove "m"); (3, SetRemove "m")]).2
  = [true; false; true; false].
Proof.
  refine (eq_trans (proj1 (set_ops_refine_set demo "sets" "s"
            [(0, SetAdd "m"); (1, SetAdd "m"); (2, SetRemove "m"); (3, SetRemove "m")] ∅ _ _)) _);
    [done|apply demo_set_rep|]. reflexivity.
Defined.

Lemma sweep_reclaims_expired_witness :
  MemoryStore.get_object 100 (MemoryStore.sweep_expired demo 100).1 "kv" "pear" = Some (JStr "x")
  ∧ MemoryStore.expiry_of (MemoryStore.sweep_expired demo 100).1 "kv" "plum" = None.
Proof.
  destruct (MemoryStore.sweep_reclaims_expired demo 100 demo_wf) as (_ & Hgone & _ & Hread & _).
  split; [by rewrite Hread|]. apply Hgone. exists 100. split; [reflexivity|lia].
Defined.

(** ** Shards *)

#[export] Instance json_lease_codec : LeaseCodec json := {
  value_from_lease l :=
    JObj [("holder", JStr (Lease.holder l)); ("expires_ms", JInt (Lease.expires_ms l));
          ("token", JInt (Lease.token l))];
  value_to_lease v :=
    match v with
    | JObj [("holder", JStr h); ("expires_ms", JInt e); ("token", JInt k)] =>
        if decide (is_u64 e ∧ is_u64 k) then Some (Lease.mk h e k) else None
    | _ => None
    end;
}.

#[export] Instance json_lease_laws : LeaseCodecLaws json.
Proof. split. intros [h e k] He Hk. simpl in *. by rewrite decide_True. Qed.

Definition full : Shard.t mem := Shard.mk "s1" demo.
Definition empty : Shard.t mem := Shard.mk "s2" MemoryStore.new.

Lemma copy_buckets_spec_witness :
  Shard.object 60 (Shard.import_entries empty "kv"
    (Shard.export_entries 50 full "kv" [Partitioner.bucket_of "plum"])) "kv" "plum"
  = Some (JInt 7).
Proof.
  etrans; [apply (Shard.copy_buckets_spec 50 60 full empty "kv" [Partitioner.bucket_of "plum"]);
           [apply demo_wf|apply MemoryStore.wf_new]|].
  rewrite decide_True; [reflexivity|]. split; [split; [done|left]|by eexists].
Defined.

Lemma drop_buckets_spec_witness :
  Shard.object 60 (Shard.drop_buckets 50 full "kv" [Partitioner.bucket_of "plum"]).1 "kv" "plum"
  = None.
Proof.
  etrans; [apply (Shard.drop_buckets_spec 50 60 full "kv" [Partitioner.bucket_of "plum"]);
           [apply demo_wf|lia]|].
  rewrite decide_True; [reflexivity|]. split; [done|left].
Defined.

Lemma write_ttl_lifetime_witness :
  Shard.object 149 (Shard.write_object_ttl 100 empty "kv" "k" (JInt 1) 50) "kv" "k" = Some (JInt 1)
  ∧ Shard.object 150 (Shard.write_object_ttl 100 empty "kv" "k" (JInt 1) 50) "kv" "k" = None.
Proof.
  split.
  - apply (Shard.write_ttl_lifetime 100 149 empty "kv" "k" (JInt 1) 50 "kv" "k");
      [apply MemoryStore.wf_new|done|split; done|split; done|done].
  - apply (Shard.write_ttl_lifetime 100 150 empty "kv" "k" (JInt 1) 50 "kv" "k");
      [apply MemoryStore.wf_new|done|split; done|split; done|done].
Defined.

Lemma empty_lease : Shard.lease_rep empty "coordinator" None.
Proof. split; [apply MemoryStore.wf_new|]. done. Qed.

Lemma shard_leases_refine_witness :
  (Shard.acquire_all empty "coordinator" Lease.rivals).2 = Lease.attempts None Lease.rivals.
Proof.
  apply (Shard.shard_leases_refine empty "coordinator" None Lease.rivals);
    [done|apply empty_lease].
Defined.

End Examples.
