(* ===== verification/ClusterExamples.v ===== *)
(** * A concrete cluster

    Two in-memory shards, one member and a node that joins: the cluster
    theorems applied to it. *)

From S2P Require Import Prelude Machine Text Partitioner Reshard Store MemoryStore Json Lease.
From S2P Require Import Shard Replica Client Journal Cluster DataPlane Migration Scans Examples.

Module ClusterExamples.
Import Partitioner Cluster DataPlane Migration Scans Examples.

(** Every call is delivered; the clock counts the calls. *)
#[local] Instance calm : Env := {| clock := Z.of_nat; fault_at := λ _, Delivered |}.
#[local] Instance calm_reliable : Reliable.
Proof. intros n. reflexivity. Qed.

(** The codec of lease records is not used by these runs. *)
#[local] Instance codec : LeaseCodec json := json_lease_codec.

Definition handle (n : string) : Client.t := Client.mk n EmptyString n.

Definition members : gmap string Client.t := {["a" := handle "a"]}.

Definition ring : Cluster.t := Cluster.new members 1 ["kv"].

(** The node "b" has joined with an empty store and is not a member yet. *)
Definition cl : Cluster.t := add_node ring "b" (handle "b").

Definition w0 : world mem :=
  mkWorld {["a" := Shard.mk "a" MemoryStore.new; "b" := Shard.mk "b" MemoryStore.new]} 0.

Definition nothing : view json := λ _ _, None.

Lemma cl_nodes : nodes (partitioner cl) = ["a"].
Proof. reflexivity. Qed.

Lemma cl_clients n c :
  clients cl !! n = Some c → (n = "a" ∨ n = "b") ∧ c = handle n.
Proof.
  cbn. unfold members. rewrite lookup_insert_Some, lookup_singleton_Some.
  intros [[<- <-]|[_ [<- <-]]]; naive_solver.
Qed.

Lemma cl_refs : refs_inj cl.
Proof. intros n n' c c' [_ ->]%cl_clients [_ ->]%cl_clients. done. Qed.

Lemma cl_stable : stable cl.
Proof.
  split; try done.
  - rewrite cl_nodes. apply NoDup_singleton.
  - unfold distinct_hashes. rewrite cl_nodes. apply NoDup_singleton.
  - intros n. rewrite cl_nodes. intros ->%list_elem_of_singleton. by eexists.
  - apply cl_refs.
  - cbn. unfold CHUNK. lia.
Qed.

Lemma empty_shows n : shows ["kv"] (Shard.mk n (MemoryStore.new : mem)) nothing.
Proof. split; [apply MemoryStore.wf_new|]. intros c k _. done. Qed.

Lemma cl_inv : inv cl nothing w0.
Proof.
  intros n c [Hn ->]%cl_clients.
  assert (∀ sh, shows ["kv"] sh nothing → shows (colls cl) sh (agree cl nothing n)) as Hext.
  { intros sh. apply shows_ext. intros c k _. unfold agree, nothing. by case_decide. }
  destruct Hn as [-> | ->]; eexists; (split; [reflexivity|]); apply Hext, empty_shows.
Qed.

Lemma two_target : target cl ["a"; "b"].
Proof.
  split; [done| | |].
  - apply (bool_decide_unpack _). vm_compute. exact I.
  - apply (bool_decide_unpack _). vm_compute. exact I.
  - intros n [-> | [-> | []%elem_of_nil]%elem_of_cons]%elem_of_cons; by eexists.
Qed.

(** Write, read back, count, delete, read again. *)
Definition ops : list (dop (V := json)) :=
  [DPut "kv" "x" (JInt 1); DGet "kv" "x"; DIncr "kv" "x" 4; DCas "kv" "x" (Some (JInt 5)) (JStr "v");
   DDelete "kv" "x"; DGet "kv" "x"].

Definition answers : list (dres (V := json)) :=
  [RUnit; RVal (Some (JInt 1)); RInt (Some 5%Z); RBool true; RUnit; RVal None].

Lemma ops_answers : (spec_dops nothing ops).2 = answers.
Proof. reflexivity. Qed.

Lemma ops_ok o : o ∈ ops → dop_ok (V := json) (St := mem) cl o.
Proof.
  unfold ops. intros Ho.
  repeat (apply elem_of_cons in Ho as [->|Ho]; [by split; [left|]|]).
  by apply elem_of_nil in Ho.
Qed.

Lemma data_plane_refines_map_witness :
  (run_dops (V := json) (St := mem) cl ops w0).2 = answers.
Proof.
  rewrite <-ops_answers.
  apply (data_plane_refines_map cl nothing ops w0);
    [apply stable_cluster_ok, cl_stable|apply ops_ok|apply cl_inv].
Defined.

Lemma get_failover_witness :
  (get (V := json) (St := mem) cl "kv" "x" w0).2 = None.
Proof.
  etrans; [apply (get_failover cl nothing "kv" "x" w0)|].
  - left.
  - apply (ok_client _ (stable_cluster_ok _ cl_stable)).
  - apply cl_inv.
  - by destruct (delivers _ _).
Defined.

(** The node "b" has left and the coordinator has no client for it any more; the
    key "x" is written, and then "b" is named as a member again. *)
Lemma ring_stable : stable ring.
Proof.
  split; try done.
  - apply NoDup_singleton.
  - unfold distinct_hashes. apply NoDup_singleton.
  - change (nodes (partitioner ring)) with ["a"]. intros n ->%list_elem_of_singleton. by eexists.
  - intros n n' c c'. cbn. unfold members. rewrite !lookup_singleton_Some. naive_solver.
  - cbn. unfold CHUNK. lia.
Qed.

Definition alone : world mem := mkWorld {["a" := Shard.mk "a" MemoryStore.new]} 0.

Lemma ring_inv : inv ring nothing alone.
Proof.
  intros n c. cbn. unfold members. rewrite lookup_singleton_Some. intros [<- <-].
  eexists. split; [reflexivity|].
  eapply shows_ext; [|apply empty_shows]. intros c k _. unfold agree, nothing. by case_decide.
Qed.

Definition lost_key : string := "x".

Lemma lost_key_owner :
  Reshard.bucket_owners ["a"; "b"] ∅ 1 (bucket_of lost_key) = ["b"].
Proof. vm_compute. reflexivity. Qed.

Definition write_x : list (dop (V := json)) := [DPut "kv" lost_key (JInt 1)].

Lemma write_x_ok o : o ∈ write_x → dop_ok (V := json) (St := mem) ring o.
Proof. intros ->%list_elem_of_singleton. by split; [left|]. Qed.

Definition with_x : world mem := (run_dops (V := json) ring write_x alone).1.
Definition has_x : view json := (spec_dops nothing write_x).1.

Lemma with_x_inv : inv ring has_x with_x.
Proof.
  apply (run_dops_spec ring nothing write_x alone (stable_cluster_ok _ ring_stable));
    [apply write_x_ok|apply ring_inv].
Qed.

(** The cluster of one member with the key "x" on it. *)
Definition x_on_a : world mem := (run_dops (V := json) cl write_x w0).1.

Lemma cl_with_x_inv : inv cl has_x x_on_a.
Proof.
  apply (run_dops_spec cl nothing write_x w0 (stable_cluster_ok _ cl_stable)); [|apply cl_inv].
  intros o ->%list_elem_of_singleton. by split; [left|].
Qed.

(** The key moves to the node that joins, and is read there. *)
Lemma rebalance_preserves_data_witness :
  let '(w', (cl', s)) := rebalance (V := json) (St := mem) cl ["a"; "b"] x_on_a in
  stable cl' ∧ nodes (partitioner cl') = ["a"; "b"] ∧ colls cl' = ["kv"]
  ∧ (get (V := json) (St := mem) cl' "kv" lost_key w').2 = Some (JInt 1).
Proof.
  pose proof (rebalance_preserves_data cl ["a"; "b"] has_x x_on_a cl_stable two_target
    cl_with_x_inv) as Hr.
  destruct (rebalance cl ["a"; "b"] x_on_a) as [w' [cl' s]]. destruct Hr as (Hs & Hn & Hc & Hi & _).
  split; [exact Hs|]. split; [exact Hn|]. split; [exact Hc|].
  refine (proj1 (get_spec cl' (stable_cluster_ok _ Hs) has_x "kv" lost_key _ w' Hi)).
  rewrite Hc. left.
Defined.

(** It is stored before, and gone after. *)
Lemma rebalance_any_membership_witness :
  let '(w', (cl', s)) := rebalance (V := json) (St := mem) ring ["a"; "b"] with_x in
  has_x "kv" lost_key = Some (JInt 1) ∧ nodes (partitioner cl') = ["a"; "b"]
  ∧ (get (V := json) (St := mem) cl' "kv" lost_key w').2 = None.
Proof.
  pose proof (rebalance_any_membership ring ["a"; "b"] has_x with_x "kv" lost_key
    ring_stable (tg_NoDup _ _ two_target) with_x_inv ltac:(left)) as Hr.
  cbv zeta in Hr. destruct (rebalance (V := json) (St := mem) ring ["a"; "b"] with_x) as [w' [cl' s]].
  destruct Hr as (Hn & _ & Hg & _). split; [reflexivity|]. split; [exact Hn|]. rewrite Hg.
  change (topology ring) with (∅ : gmap string string). change (replication_target ring) with 1.
  rewrite lost_key_owner. rewrite decide_False; [reflexivity|].
  intros [[? ?]|Hx%Exists_nil]%Exists_cons; done.
Defined.

(** The coordinator starts again after one chunk of the move to two members. *)
Lemma coordinator_restart_witness :
  let '(w1, (cl1, _)) := rebalance_partial (V := json) (St := mem) cl ["a"; "b"] 1 x_on_a in
  (get (V := json) (St := mem) (with_journal cl Journal.new) "kv" lost_key w1).2
    = (p ← head (owners cl lost_key); if decide (p ∈ owners cl1 lost_key) then has_x "kv" lost_key else None)
  ∧ (overlay cl1 ≠ None →
     let '(w2, (cl2, _)) := resume_migration (V := json) (with_journal cl (journal cl1)) w1 in
     stable cl2 ∧ nodes (partitioner cl2) = ["a"; "b"] ∧ inv cl2 has_x w2).
Proof.
  apply (coordinator_restart cl ["a"; "b"] 1 has_x _ "kv" lost_key);
    [apply cl_stable|apply two_target|apply cl_with_x_inv|left].
Defined.

Definition events : list (event (V := json)) :=
  [Op (DPut "kv" "x" (JInt 1)); NextChunk; Op (DGet "kv" "x"); NextChunk; Op (DDelete "kv" "x")].

Lemma events_ok o : o ∈ ops_of events → dop_ok (V := json) (St := mem) cl o.
Proof.
  cbn. intros Ho. repeat (apply elem_of_cons in Ho as [->|Ho]; [by split; [left|]|]).
  by apply elem_of_nil in Ho.
Qed.

Lemma online_rebalance_witness :
  let '(cl1, m, chs) := begin_migration cl (member_ids cl) ["a"; "b"] ∅ in
  (run_events (V := json) (St := mem) cl1 m chs events w0).2.2
  = [RUnit; RVal (Some (JInt 1)); RUnit].
Proof.
  destruct (begin_migration cl (member_ids cl) ["a"; "b"] ∅) as [[cl1 m] chs] eqn:Hb.
  pose proof (online_rebalance cl ["a"; "b"] nothing w0 events cl1 m chs cl_stable two_target
    cl_inv Hb events_ok) as Hr.
  destruct (run_events cl1 m chs events w0) as [w' [[[cl' m'] chs'] rs]].
  destruct Hr as [Hrs _]. exact Hrs.
Defined.

Lemma crash_resume_witness :
  let '(w1, (cl1, _)) := rebalance_partial (V := json) (St := mem) cl ["a"; "b"] 2 w0 in
  let '(w2, rs) := run_dops cl1 ops w1 in
  let '(w3, (cl3, _)) := resume_migration (V := json) cl1 w2 in
  rs = (spec_dops nothing ops).2
  ∧ stable cl3 ∧ nodes (partitioner cl3) = ["a"; "b"] ∧ inv cl3 (spec_dops nothing ops).1 w3.
Proof.
  apply (crash_resume cl ["a"; "b"] 2 nothing w0 ops);
    [apply cl_stable|apply two_target|apply cl_inv|apply ops_ok].
Defined.

Lemma mget_in_order_witness :
  (mget (V := json) (St := mem) cl "kv" ["x"; "y"; "x"] w0).2 = [None; None; None].
Proof.
  apply (mget_in_order cl nothing "kv" ["x"; "y"; "x"] w0);
    [apply stable_cluster_ok, cl_stable|left|apply cl_inv].
Defined.

Lemma nothing_lists a p e : lists nothing "kv" a p e [].
Proof. split; [constructor|]. intros k. split; [by intros ?%elem_of_nil|by intros [[? ?] _]]. Qed.

Lemma scan_range_merges_witness :
  (scan_range (V := json) (St := mem) cl "kv" None None None 10 w0).2 = ([], None).
Proof.
  apply (scan_range_merges cl nothing "kv" None None None 10 [] w0);
    [apply stable_cluster_ok, cl_stable|left|apply cl_inv|apply nothing_lists].
Defined.

Lemma has_x_lists : lists has_x "kv" None None None [lost_key].
Proof.
  split; [repeat constructor|]. intros k. rewrite list_elem_of_singleton. split.
  - intros ->. split; [by eexists|done].
  - intros [[v Hv] _]. unfold has_x, write_x in Hv. cbn in Hv. unfold Replica.upd in Hv.
    destruct (decide (("kv", lost_key) = ("kv", k))) as [[= <-]|]; [done|]. discriminate Hv.
Qed.

(** Pages of one key: the key, and then the empty page that ends it. *)
Lemma scan_pages_complete_witness :
  (scan_all (V := json) (St := mem) 2 cl "kv" None 1 [] x_on_a).2 = Some [lost_key].
Proof.
  apply (scan_pages_complete cl has_x "kv" [lost_key] x_on_a 1 2);
    [apply stable_cluster_ok, cl_stable|left|apply cl_with_x_inv|apply has_x_lists|lia|cbn; lia].
Defined.

Lemma partition_plan_tiles_witness :
  (partition_plan cl ≫= p_buckets) ≡ₚ seq 0 NUM_BUCKETS.
Proof.
  apply (partition_plan_tiles cl); [apply cl_stable|apply cl_stable|apply cl_stable].
Defined.

End ClusterExamples.
