(* ===== verification/RaceExamples.v ===== *)
(** * Concurrent runs of a concrete cluster

    The cluster of [ClusterExamples] with a client and a node that joins at the
    same time, and the races of [Races] on concrete requests. *)

From S2P Require Import Prelude Machine Text Partitioner Reshard Store MemoryStore Json Lease.
From S2P Require Import Shard Replica Client Journal Guard Proc Cluster DataPlane Migration Concurrent.
From S2P Require Import Linear Online Linearizability Races Examples ClusterExamples.

Module RaceExamples.
Import Partitioner Proc DataPlane Migration Concurrent Linear Online Linearizability Races.
Import Examples ClusterExamples.

#[local] Existing Instance calm.
#[local] Existing Instance calm_reliable.
#[local] Existing Instance codec.

(** ** A write while a node joins *)

(** The shards that exist; only "a" is known to the coordinator at the start. *)
Definition both_known : gmap string Client.t := Cluster.clients cl.

Lemma keys_hashes : distinct_hashes (Cluster.hash_keys both_known).
Proof. apply (bool_decide_unpack _). vm_compute. exact I. Qed.

Lemma ring_started : started both_known (V := json) ring nothing w0.
Proof.
  split; [exact ring_stable| |exact cl_refs|exact cl_inv].
  apply insert_subseteq. reflexivity.
Qed.

Definition put_x : dop (V := json) := DPut "kv" "x" (JInt 1).
Definition join : admin := ApplyMembership both_known.

Abbreviation requests := [Invoke 0 put_x; Ask 1 join].

Lemma requested :
  run (dstep both_known) (at_rest (V := json) ring w0) requests
    (mkConfig (mkShared ring Guard.new false w0) {[0 := (put_x, op_task put_x)]}
       {[1 := admin_task join]}).
Proof.
  apply (run_event _ _ [Invoke 0 put_x]
    (mkConfig (mkShared ring Guard.new false w0) {[0 := (put_x, op_task put_x)]} ∅)).
  - apply (run_event _ _ [] (at_rest ring w0)); [constructor|]. split.
    + by apply (step_invoke _ ∅ ∅ 0 put_x).
    + split; [by split; [left|]|]. intros j o' p ck Hj. cbn in Hj. by rewrite lookup_empty in Hj.
  - split; [by apply (step_ask _ _ ∅ 1 join)|]. split; [reflexivity|].
    split; [apply insert_non_empty|]. split; [reflexivity|exact keys_hashes].
Qed.

(** The write is answered while the coordinator takes the new node in. *)
Lemma overlapping :
  ∃ sm c, run (dstep both_known) (at_rest (V := json) ring w0)
      (requests ++ [Respond 0 RUnit; Done 1 sm]) c
    ∧ pool c = ∅ ∧ control c = ∅.
Proof.
  pose proof requested as R1.
  assert (Hsil : ∀ c c' : config json mem, step c None c' → dstep both_known c None c') by by split.
  eapply (run_op_alone (dstep both_known) Hsil _ _ _ _ _ 0) in R1;
    [|apply lookup_singleton_eq|apply (op_alone ring put_x)];
    [|done|intros b; cbn; rewrite lookup_empty; set_solver].
  rewrite insert_singleton_eq in R1.
  apply (run_respond (dstep both_known) _ _ _ ∅) in R1; [|by split|apply lookup_empty].
  set (w1 := (run_dop ring put_x w0).1) in R1.
  pose proof (admin_alone (V := json) ring Guard.new join w1) as Hal.
  destruct (run_admin ring join w1) as [w2 [cl2 sm]].
  exists sm, (mkConfig (mkShared cl2 Guard.new false w2) ∅ ∅). split; [|split; reflexivity].
  eapply (run_control_alone (dstep both_known) Hsil _ _ _ _ _ 1) in R1;
    [|apply lookup_singleton_eq|apply Hal; split; reflexivity].
  rewrite insert_singleton_eq in R1.
  apply (run_done (dstep both_known) _ _ _ _ ∅) in R1; [|by split|apply lookup_empty].
  rewrite <-app_assoc in R1. exact R1.
Qed.

Lemma linearizable_online_witness :
  ∃ sm c, run (dstep both_known) (at_rest (V := json) ring w0)
      (requests ++ [Respond 0 RUnit; Done 1 sm]) c
    ∧ ∃ m, run object_step (nothing, ∅) (requests ++ [Respond 0 RUnit; Done 1 sm]) (m, ∅)
      ∧ nodes (Cluster.partitioner (cluster (state c))) = Cluster.hash_keys both_known
      ∧ holds both_known (cluster (state c)) m (shards (state c)).
Proof.
  destruct overlapping as (sm & c & Hrun & Hp & Hc). exists sm, c. split; [exact Hrun|].
  destruct (linearizable_online both_known ring nothing w0 _ c ring_started Hrun) as (m & os & Ho & Hend).
  destruct (Hend Hp Hc) as (-> & _ & Hn & Hi). exists m. split; [exact Ho|]. split; [exact Hn|exact Hi].
Defined.

Lemma online_completes_witness :
  ∃ c, run (dstep both_known) (at_rest (V := json) ring w0) requests c
    ∧ pool c ≠ ∅ ∧ control c ≠ ∅ ∧ Acc progress c
    ∧ ((∀ c', ¬ progress c' c) → pool c = ∅ ∧ control c = ∅).
Proof.
  eexists. split; [exact requested|]. split; [apply map_non_empty_singleton|].
  split; [apply map_non_empty_singleton|].
  apply (online_completes both_known ring nothing w0 _ _ ring_started requested).
Defined.

(** ** Two rebalances at once *)

Definition w_x : world mem := (run_dops (V := json) cl write_x w0).1.

Lemma b_target : target cl ["b"].
Proof.
  split; [done| | |].
  - apply (bool_decide_unpack _). vm_compute. exact I.
  - apply (bool_decide_unpack _). vm_compute. exact I.
  - intros n [-> | []%elem_of_nil]%elem_of_cons; by eexists.
Qed.

Lemma x_owner : Cluster.owners cl "x" = ["a"].
Proof. vm_compute. reflexivity. Qed.

(** It is stored before, and gone after. *)
Lemma stale_rebalance_strands_witness :
  has_x "kv" "x" = Some (JInt 1) ∧ inv cl has_x w_x
  ∧ ∃ sm0 sm1 c, run step (at_rest (V := json) cl w_x)
      [Ask 0 (Rebalance (Cluster.member_ids cl)); Ask 1 (Rebalance ["b"]); Done 1 sm1; Done 0 sm0;
       Invoke 2 (DGet "kv" "x"); Respond 2 (RVal None)] c ∧ pool c = ∅ ∧ control c = ∅.
Proof.
  split; [reflexivity|]. split; [exact cl_with_x_inv|].
  apply (stale_rebalance_strands cl ["b"] has_x w_x "kv" "x" cl_stable b_target cl_with_x_inv).
  unfold displaced. rewrite x_owner. intros n ->%list_elem_of_singleton Hb. by apply list_elem_of_singleton in Hb.
Defined.

(** ** Two writes of one key at once *)

(** Both nodes are members, and every key is on both. *)
Definition pair : Cluster.t := Cluster.new {["a" := handle "a"; "b" := handle "b"]} 2 ["kv"].

Definition put_y (z : Z) : dop (V := json) := DPut "kv" "y" (JInt z).

Definition both : config json mem :=
  mkConfig (mkShared pair Guard.new false w0)
    (<[1 := (put_y 2, op_task (put_y 2))]> {[0 := (put_y 1, op_task (put_y 1))]}) ∅.

(** The first client reaches one owner, the second client both, and then the
    first client the other. *)
Definition schedule : list nat := replicate 5 0 ++ replicate 9 1 ++ replicate 5 0.

Definition stored (c : config json mem) (n : string) : option json :=
  match Client.shards (shards (state c)) !! n with
  | Some sh => Shard.object 0 sh "kv" "y"
  | None => None
  end.

Definition raced : config json mem := foldl tick both schedule.

Lemma raced_pool :
  pool raced = <[0 := (put_y 1, Ret RUnit)]> {[1 := (put_y 2, Ret RUnit)]} ∧ control raced = ∅.
Proof. split; vm_compute; reflexivity. Qed.

Lemma raced_stored : stored raced "a" = Some (JInt 2) ∧ stored raced "b" = Some (JInt 1).
Proof. split; vm_compute; reflexivity. Qed.

(** Two clients put to one key at the same time: both are answered, and the two
    owners are left with different values, for good. *)
Theorem concurrent_puts_diverge :
  Cluster.owners pair "y" = ["a"; "b"]
  ∧ ∃ c, run step (at_rest (V := json) pair w0)
      [Invoke 0 (put_y 1); Invoke 1 (put_y 2); Respond 0 RUnit; Respond 1 RUnit] c
    ∧ pool c = ∅ ∧ control c = ∅
    ∧ stored c "a" = Some (JInt 2) ∧ stored c "b" = Some (JInt 1).
Proof.
  split; [vm_compute; reflexivity|]. exists (mkConfig (state raced) ∅ ∅).
  split; [|split; [reflexivity|split; [reflexivity|exact raced_stored]]].
  apply (run_respond step _ [Invoke 0 (put_y 1); Invoke 1 (put_y 2); Respond 0 RUnit] _ ∅ _ 1 (put_y 2));
    [done|apply lookup_empty|].
  apply (run_respond step _ [Invoke 0 (put_y 1); Invoke 1 (put_y 2)] _ _ _ 0 (put_y 1)); [done|done|].
  destruct raced_pool as [Hp Hc]. rewrite insert_empty, <-Hp, <-Hc.
  replace (mkConfig (state raced) (pool raced) (control raced)) with raced by by destruct raced.
  apply run_ticks. apply (run_event step _ [Invoke 0 (put_y 1)]
    (mkConfig (mkShared pair Guard.new false w0) {[0 := (put_y 1, op_task (put_y 1))]} ∅));
    [|by apply step_invoke].
  apply (run_event step _ [] (at_rest pair w0)); [constructor|]. by apply (step_invoke _ ∅ ∅ 0).
Qed.

End RaceExamples.
