(* ===== verification/LogExamples.v ===== *)
(** * Concrete logs, policies and clients

    A field-by-field codec for queued operations and change events, and the
    theorems about the ingest queue, the change feed, the authorization layer
    and the direct client applied to concrete data. *)

From S2P Require Import Prelude Machine Text Partitioner Store MemoryStore Json Lease Shard.
From S2P Require Import Client Journal Cluster Kvdb Lmdb StoreEquiv Ingest Changefeed Rbac.
From S2P Require Import NetAuth Smart Durability Examples.

Local Open Scope Z_scope.

Module LogExamples.

(** ** A codec *)

(** Each byte is preceded by [0]; [1] ends a field. *)
Fixpoint enc_field (s rest : string) : string :=
  match s with
  | EmptyString => String "1" rest
  | String c s' => String "0" (String c (enc_field s' rest))
  end.

Fixpoint dec_field (s : string) : option (string * string) :=
  match s with
  | EmptyString => None
  | String a s1 =>
      if decide (a = "1"%char) then Some (EmptyString, s1)
      else match s1 with
           | String c s2 => '(f, r) ← dec_field s2; Some (String c f, r)
           | EmptyString => None
           end
  end.

Lemma dec_enc_field s rest : dec_field (enc_field s rest) = Some (s, rest).
Proof. induction s as [|c s IH]; [done|]. cbn. by rewrite IH. Qed.

Definition enc_fields (l : list string) : string := foldr enc_field EmptyString l.

Fixpoint dec_fields (n : nat) (s : string) : option (list string) :=
  match n with
  | O => Some []
  | S n' => '(f, r) ← dec_field s; l ← dec_fields n' r; Some (f :: l)
  end.

Lemma dec_enc_fields l : dec_fields (length l) (enc_fields l) = Some l.
Proof. induction l as [|f l IH]; [done|]. cbn [length dec_fields enc_fields foldr].
  rewrite dec_enc_field. cbn [mbind option_bind]. fold (enc_fields l). by rewrite IH. Qed.

Fixpoint enc_pos (p : positive) : string :=
  match p with
  | xH => EmptyString
  | xO p' => String "0" (enc_pos p')
  | xI p' => String "1" (enc_pos p')
  end.

Fixpoint dec_pos (s : string) : positive :=
  match s with
  | EmptyString => xH
  | String a s' => if decide (a = "0"%char) then xO (dec_pos s') else xI (dec_pos s')
  end.

Lemma dec_enc_pos p : dec_pos (enc_pos p) = p.
Proof. induction p as [p IH|p IH|]; cbn; by rewrite ?IH. Qed.

#[local] Instance op_codec : Ingest.IngestCodec string := {
  Ingest.op_to_string o :=
    match o with
    | Ingest.Put c k v => String "p" (enc_fields [c; k; v])
    | Ingest.SetAdd c k m => String "a" (enc_fields [c; k; m])
    | Ingest.SetRemove c k m => String "r" (enc_fields [c; k; m])
    | Ingest.Delete c k => String "d" (enc_fields [c; k; EmptyString])
    end;
  Ingest.op_of_string s :=
    match s with
    | EmptyString => None
    | String tag s' =>
        match dec_fields 3 s' with
        | Some [c; k; v] =>
            if decide (tag = "p"%char) then Some (Ingest.Put c k v)
            else if decide (tag = "a"%char) then Some (Ingest.SetAdd c k v)
            else if decide (tag = "r"%char) then Some (Ingest.SetRemove c k v)
            else Some (Ingest.Delete c k)
        | _ => None
        end
    end;
}.

#[local] Instance op_codec_laws : Ingest.IngestCodecLaws string.
Proof.
  split. intros []; cbn [Ingest.op_to_string Ingest.op_of_string op_codec];
    match goal with |- context [enc_fields ?l] => rewrite (dec_enc_fields l : dec_fields 3 _ = _) end;
    reflexivity.
Qed.

Definition enc_Z (z : Z) : string :=
  match z with Z0 => "z" | Zpos p => String "+" (enc_pos p) | Zneg p => String "-" (enc_pos p) end.

Definition dec_Z (s : string) : Z :=
  match s with
  | String a s' => if decide (a = "+"%char) then Zpos (dec_pos s')
                   else if decide (a = "-"%char) then Zneg (dec_pos s') else 0
  | EmptyString => 0
  end.

Lemma dec_enc_Z z : dec_Z (enc_Z z) = z.
Proof. destruct z; cbn; by rewrite ?dec_enc_pos. Qed.

#[local] Instance event_codec : EventCodec := {
  event_to_string e :=
    enc_fields [enc_Z (ev_seq e); ev_op e; ev_value e; ev_set e; ev_doc_id e];
  event_of_string s :=
    match dec_fields 5 s with
    | Some [q; o; v; st; d] => Some (mkEvent (dec_Z q) o v st d)
    | _ => None
    end;
}.

#[local] Instance event_codec_laws : EventCodecLaws.
Proof.
  split. intros [q o v st d]. cbn [event_to_string event_of_string event_codec ev_seq ev_op ev_value ev_set ev_doc_id].
  match goal with |- context [enc_fields ?l] => rewrite (dec_enc_fields l : dec_fields 5 _ = _) end.
  by rewrite dec_enc_Z.
Qed.

Abbreviation disk := (gmap string string).

(** ** The durable store *)

(** A number as its numeral, any other value as the number of its tree. *)
Definition json_text (v : json) : string :=
  match v with
  | JInt z => if decide (is_u64 z) then u64_to_string z else String "p" (enc_pos (encode v))
  | _ => String "p" (enc_pos (encode v))
  end.

Definition json_of_text (s : string) : option json :=
  match s with
  | EmptyString => None
  | String a s' => if decide (a = "p"%char) then decode (dec_pos s') else JInt <$> parse_u64 s
  end.

Lemma u64_text_json e : is_u64 e → json_of_text (u64_to_string e) = Some (JInt e).
Proof.
  intros He. pose proof (u64_string_roundtrip e He) as Hr. unfold json_of_text.
  destruct (u64_to_string e) as [|a s] eqn:E; [done|]. case_decide as Ha; [subst a; done|].
  by rewrite Hr.
Qed.

Lemma json_text_roundtrip v : json_of_text (json_text v) = Some v.
Proof.
  assert (Hp : json_of_text (String "p" (enc_pos (encode v))) = Some v).
  { cbn [json_of_text]. by rewrite decide_True, dec_enc_pos, decode_encode. }
  destruct v; try done. unfold json_text. case_decide; [by apply u64_text_json|done].
Qed.

#[local] Instance json_codec : LmdbCodec json := {
  value_to_string := json_text;
  value_of_string := json_of_text;
  value_as_u64 v := match v with JInt z => Some z | _ => None end;
}.

#[local] Instance json_codec_laws : LmdbCodecLaws json.
Proof.
  split. intros e He. cbn [value_of_string json_codec]. by rewrite u64_text_json.
Qed.

(** A disk that syncs. *)
#[local] Instance all_syncs : SyncEnv := λ _, true.

Definition store_ops : list (Z * StoreEquiv.sop json) :=
  [(1, StoreEquiv.SPut "kv" "a" (JInt 7)); (2, StoreEquiv.SPutAt "kv" "b" (JStr "x") 5);
   (3, StoreEquiv.SCas "kv" "a" (Some (JInt 7)) (JStr "y"));
   (4, StoreEquiv.SScan "kv" None None None 10); (6, StoreEquiv.SScan "kv" None None None 10);
   (6, StoreEquiv.SSweep); (7, StoreEquiv.SGet "kv" "a")].

Lemma lmdb_matches_memory_witness :
  (StoreEquiv.run_sops (Lmdb.open ∅ : Lmdb.t disk) store_ops).2
  = [StoreEquiv.ODone; StoreEquiv.ODone; StoreEquiv.OBool true; StoreEquiv.OKeys ["a"; "b"];
     StoreEquiv.OKeys ["a"]; StoreEquiv.ODone; StoreEquiv.OVals [Some (JStr "y")]].
Proof.
  etrans; [apply (StoreEquiv.lmdb_matches_memory (V := json) (D := disk) 0)|].
  - cbn. lia.
  - intros now o Hin. unfold store_ops in Hin.
    repeat (apply elem_of_cons in Hin as [[= -> ->]|Hin]; [repeat split; by vm_compute|]).
    by apply elem_of_nil in Hin.
  - vm_compute. reflexivity.
Defined.

(** A store with one key, then 2,048 writes of another. *)
Definition one_key : Durability.t disk := Durability.put_object (Durability.open ∅) "kv" "a" (JStr "x").

Definition later_writes : list (Z * StoreEquiv.sop json) :=
  replicate (Z.to_nat 2048) (1, StoreEquiv.SPut "kv" "b" (JInt 0)).

Lemma one_key_wf : Lmdb.wf (V := json) (Durability.live one_key).
Proof.
  unfold one_key. rewrite Durability.live_put. apply Lmdb.wf_put_lmdb; [apply Lmdb.wf_open_empty|].
  split; [by vm_compute|apply json_text_roundtrip].
Qed.

Lemma write_survives_crash_witness :
  let e := Durability.synced (StoreEquiv.run_sops one_key later_writes).1 in
  Lmdb.get_object 9 (Lmdb.open e) "kv" "a" = Some (JStr "x").
Proof.
  intros e.
  apply (Durability.write_survives_crash one_key 1 "kv" "a" (JStr "x") later_writes e 9).
  - apply one_key_wf.
  - vm_compute. reflexivity.
  - vm_compute. reflexivity.
  - intros tm o Hin. apply elem_of_replicate in Hin as [[= -> ->] _]. split; [|cbn; congruence].
    split; [by vm_compute|apply json_text_roundtrip].
  - vm_compute. discriminate.
  - vm_compute. reflexivity.
  - left. reflexivity.
Defined.

Lemma snapshot_restores_witness :
  let '(d', r) := Durability.snapshot (Some "/backup"%string) (λ _, None) None one_key in
  ∃ e, r = inr e ∧ Durability.verify_mode e = inr [("o:kv", 1%nat)]
    ∧ (StoreEquiv.run_sops (Lmdb.open e) [(1, StoreEquiv.SGet "kv" "a")]).2
      = (StoreEquiv.run_sops (V := json) d' [(1, StoreEquiv.SGet "kv" "a")]).2.
Proof.
  assert (Hs : Durability.snapshot (Some "/backup"%string) (λ _, None) None one_key
    = ((Durability.force_sync one_key).1, inr (Lmdb.env (Durability.live one_key)))) by reflexivity.
  destruct (Durability.snapshot_restores (V := json) _ _ _ _ _ _ one_key_wf Hs) as (_ & _ & Hrun & _ & _).
  exists (Lmdb.env (Durability.live one_key)). split; [reflexivity|]. split; [vm_compute; reflexivity|].
  apply (Hrun 0).
  - cbn. lia.
  - intros now o Hin. apply list_elem_of_singleton in Hin as [= -> ->]. exact I.
Defined.

(** ** The ingest queue *)

Definition accept_all (_ : list (Ingest.IngestOp string)) (_ : Ingest.IngestOp string) := true.

(** The first drain applies one operation, stores the cursor and trims; during
    the second, another operation is accepted. *)
Definition session : list (Ingest.event (V := string)) :=
  [Ingest.Accept (Ingest.Put "kv" "a" "1"); Ingest.Accept (Ingest.Delete "kv" "b"); Ingest.Restart;
   Ingest.Begin 1; Ingest.Step; Ingest.Step; Ingest.Step; Ingest.Restart;
   Ingest.Begin 10; Ingest.Accept (Ingest.SetAdd "kv" "s" "m"); Ingest.Step].

(** The process dies after it has applied the operation and before it stores
    the cursor. *)
Definition crashing : list (Ingest.event (V := string)) :=
  [Ingest.Accept (Ingest.Put "kv" "a" "1"); Ingest.Begin 8; Ingest.Step; Ingest.Restart;
   Ingest.Begin 8; Ingest.Step; Ingest.Step; Ingest.Step].

Definition fresh : Ingest.process (V := string) (D := disk) := (Ingest.open db_empty db_empty, Ingest.Idle, []).

(** What the sink got in a session. *)
Definition received (evs : list (Ingest.event (V := string))) := (Ingest.run accept_all evs fresh).2.

Definition put_a : Ingest.IngestOp string := Ingest.Put "kv" "a" "1".
Definition delete_b : Ingest.IngestOp string := Ingest.Delete "kv" "b".

Lemma session_delivers_witness :
  received session = [put_a; delete_b] ∧ received crashing = [put_a; put_a]
  ∧ (∃ done rest p, Ingest.accepted session = done ++ rest ∧ [put_a; delete_b] = done ++ take p rest)
  ∧ (∃ done rest, Ingest.accepted crashing = done ++ rest ∧ done `sublist_of` [put_a; put_a]).
Proof.
  split; [vm_compute; reflexivity|]. split; [vm_compute; reflexivity|]. split.
  - destruct (Ingest.run accept_all session fresh) as [[q ph] log] eqn:E.
    destruct (Ingest.session_delivers accept_all session q ph log ltac:(vm_compute; reflexivity)
      ltac:(vm_compute; reflexivity) E) as (l & done & p & _ & Ha & _ & _ & Hex).
    destruct (Hex ltac:(vm_compute; reflexivity)) as [Hlog _].
    exists done, (map snd (Ingest.waiting q l)), p. split; [exact Ha|]. rewrite <-Hlog.
    transitivity (received session); [vm_compute; reflexivity|unfold received; by rewrite E].
  - destruct (Ingest.run accept_all crashing fresh) as [[q ph] log] eqn:E.
    destruct (Ingest.session_delivers accept_all crashing q ph log ltac:(vm_compute; reflexivity)
      ltac:(vm_compute; reflexivity) E) as (l & done & p & _ & Ha & Hs & _).
    exists done, (map snd (Ingest.waiting q l)). split; [exact Ha|].
    replace log with [put_a; put_a] in Hs; [exact Hs|].
    transitivity (received crashing); [vm_compute; reflexivity|unfold received; by rewrite E].
Defined.

(** A queue that has accepted, applied and trimmed one operation. *)
Definition one_op : list (Ingest.event (V := string)) :=
  [Ingest.Accept put_a; Ingest.Begin 8; Ingest.Step; Ingest.Step; Ingest.Step].

Definition drained_queue : Ingest.t disk := (Ingest.run accept_all one_op fresh).1.1.

Lemma drained_iter : db_iter (Ingest.queue drained_queue) = [].
Proof. vm_compute. reflexivity. Qed.

Lemma drained_holds : Ingest.holds (V := string) drained_queue [].
Proof.
  assert (H0 : Ingest.session_inv [] false fresh).
  { exists [], [], O. split; [apply Ingest.holds_open|]. repeat split; constructor. }
  pose proof (Ingest.run_inv accept_all one_op [] false fresh H0 ltac:(vm_compute; reflexivity)
    ltac:(vm_compute; reflexivity)) as Hs.
  pose proof drained_iter as Hq. unfold drained_queue in *.
  destruct (Ingest.run accept_all one_op fresh) as [[q ph] log].
  destruct Hs as (l & _ & _ & Hl & _). destruct (Ingest.h_log _ _ Hl) as [_ Hi]. cbn [fst] in *.
  rewrite Hq in Hi. by destruct l.
Qed.

Lemma reopen_loses_writes_witness :
  let q1 := (Ingest.enqueue (Ingest.reopen drained_queue) (Ingest.Put "kv" "b" "2")).1 in
  Ingest.pending q1 = 0
  ∧ Ingest.drain (Ingest.record accept_all) q1 100 [] = (q1, [], O).
Proof.
  apply (Ingest.reopen_loses_writes drained_queue (Ingest.Put "kv" "b" "2") 100
    (Ingest.record accept_all) []); [apply drained_holds|vm_compute; reflexivity].
Defined.

(** ** The change feed *)

Definition feed0 : feed := mkFeed [] 0 (λ _, 0).

Definition traffic : list Feed.action :=
  [Feed.Publish "add" "x" "s" "d1"; Feed.Poll 1; Feed.Publish "remove" "x" "s" "d1"; Feed.Trim 2;
   Feed.Publish "add" "y" "s" "d2"; Feed.Poll 5].

Definition log0 : LmdbChangeLog.t disk := LmdbChangeLog.open db_empty db_empty.

Lemma consumer_group_complete_witness :
  ∃ f', (Feed.acts "g" traffic (log0, [])).2 ++ Feed.unread "g" f'
        = [mkEvent 1 "add" "x" "s" "d1"; mkEvent 2 "remove" "x" "s" "d1"; mkEvent 3 "add" "y" "s" "d2"].
Proof.
  destruct (Feed.acts "g" traffic (log0, [])) as [l' got] eqn:E.
  destruct (Feed.consumer_group_complete "g" traffic log0 feed0 l' got
    LmdbChangeLog.rep_open ltac:(reflexivity) ltac:(done) ltac:(vm_compute; reflexivity)
    ltac:(vm_compute; reflexivity) E) as (f' & _ & Hf').
  exists f'. exact Hf'.
Defined.

(** A durable log with three events. *)
Definition log3 : LmdbChangeLog.t disk :=
  (append (append (append log0 "add" "a" "s" "d").1 "add" "b" "s" "d").1 "add" "c" "s" "d").1.

Definition feed3 : feed :=
  feed_append (feed_append (feed_append feed0 "add" "a" "s" "d") "add" "b" "s" "d") "add" "c" "s" "d".

Lemma log3_rep : feed_rep log3 feed3.
Proof.
  apply append_rep; [|vm_compute; reflexivity]. apply append_rep; [|vm_compute; reflexivity].
  apply append_rep; [|vm_compute; reflexivity]. apply LmdbChangeLog.rep_open.
Qed.

Lemma retain_latest_keeps_witness :
  ∃ f', f_events f' = [mkEvent 3 "add" "c" "s" "d"] ∧ (retain_latest log3 1).2 = 2%nat.
Proof.
  destruct (Feed.retain_latest_keeps log3 feed3 1 log3_rep) as (f' & _ & He & Hn & _).
  { split; done. }
  exists f'. split; [exact He|exact Hn].
Defined.

(** All events read, committed and compacted. *)
Definition log_empty : LmdbChangeLog.t disk := (compact (commit_offset log3 "g" 3) 4).1.

Lemma feed_restart_reuses_numbers_witness :
  let l1 := append (Feed.reopen log_empty) "add" "z" "s" "d" in
  l1.2 = 1 ∧ read_group l1.1 "g" 10 = [].
Proof.
  apply (Feed.feed_restart_reuses_numbers log_empty (feed_compact (feed_commit feed3 "g" 3) 4)).
  - apply compact_rep; [|by split]. apply commit_rep; [apply log3_rep|by split|reflexivity].
  - vm_compute. reflexivity.
  - vm_compute. reflexivity.
Defined.

(** ** Authorization *)

(** A body that is the bare name of a collection. *)
Definition from_slice (s : string) : option json := Some (JObj [("coll", JStr s)]).

Definition get_field (v : json) (f : string) : option json :=
  match v with JObj l => snd <$> find (λ x, String.eqb f x.1) l | _ => None end.

Definition spec : string := "root:*:rwda; app:kv:rw".

Definition policy : Rbac.Policy :=
  match Rbac.parse spec with inr p => p | inl _ => Rbac.mkPolicy ∅ end.

Lemma policy_parsed : Rbac.parse spec = inr policy.
Proof. vm_compute. reflexivity. Qed.

Definition post (p : string) (q : option string) (b : string) : NetAuth.Request :=
  NetAuth.mkRequest p q true (Some "Bearer app") b.

Lemma policy_layer_sound_witness :
  let run := NetAuth.policy_layer from_slice get_field policy in
  run (post "/write" None "kv") = NetAuth.Run (post "/write" None "kv")
  ∧ run (post "/write" None "secret") = NetAuth.Refuse NetAuth.FORBIDDEN
  ∧ (∃ token c e, Some "Bearer app" = Some ("Bearer " ++ token)%string
       ∧ NetAuth.target from_slice get_field (post "/write" None "kv") = Some c
       ∧ e ∈ Rbac.entries spec ∧ Rbac.entry_grants e token c Rbac.Write).
Proof.
  split; [vm_compute; reflexivity|]. split; [vm_compute; reflexivity|].
  pose proof (NetAuth.policy_layer_sound from_slice get_field spec policy (post "/write" None "kv")
    policy_parsed) as H.
  change (NetAuth.open_path (NetAuth.path (post "/write" None "kv"))) with false in H.
  replace (NetAuth.policy_layer from_slice get_field policy (post "/write" None "kv"))
    with (NetAuth.Run (post "/write" None "kv")) in H by (vm_compute; reflexivity).
  destruct H as (token & c & e & Ha & Ht & He & Hg & _). exists token, c, e.
  split; [exact Ha|]. split; [exact Ht|]. split; [exact He|exact Hg].
Defined.

(** The token [app], scoped to [kv], writes to [secret]. *)
Lemma query_coll_bypasses_scope_witness :
  NetAuth.policy_layer from_slice get_field policy (post "/write" (Some "coll=kv") "secret")
  = NetAuth.Run (post "/write" (Some "coll=kv") "secret").
Proof.
  apply (NetAuth.query_coll_bypasses_scope from_slice get_field policy "app"
    (default (Rbac.mkPrincipal EmptyString []) (Rbac.principal policy "app")) "kv" "/write" "secret");
    vm_compute; reflexivity.
Defined.

(** ** The direct client *)

#[local] Instance any_env : Env := {| clock := Z.of_nat; fault_at := λ _, Delivered |}.
#[local] Instance codec : LeaseCodec json := Examples.json_lease_codec.

Definition dial (ep : string) : string := ep.

Definition shard_clients : gmap string Client.t :=
  {["a" := Smart.http_client dial "a" "http://a"; "b" := Smart.http_client dial "b" "http://b"]}.

Definition front : Cluster.t := Cluster.new shard_clients 2 ["kv"].

Definition direct : Smart.t := Smart.with_coordinator (Smart.new ∅ 2) "http://c/".

Lemma front_settled : Smart.settled dial front.
Proof.
  split; try done.
  - apply (bool_decide_unpack _). vm_compute. exact I.
  - intros i c. cbn. unfold shard_clients. rewrite lookup_insert_Some, lookup_singleton_Some.
    intros [[<- <-]|[_ [<- <-]]]; (split; [done|reflexivity]).
Qed.

Lemma smart_matches_coordinator_witness :
  ∃ sc', Smart.refresh dial direct (λ _, Ok (Smart.members front)) = (sc', Ok true)
    ∧ ∀ (w : world Examples.mem) v, Smart.put sc' "kv" "x" v w = Cluster.put front "kv" "x" v w.
Proof.
  destruct (Smart.smart_matches_coordinator dial (V := json) (St := Examples.mem) direct front
    (λ _, Ok (Smart.members front)) "http://c") as (sc' & Hr & _ & Hops).
  - apply front_settled.
  - done.
  - done.
  - done.
  - vm_compute. reflexivity.
  - done.
  - by vm_compute.
  - done.
  - exists sc'. split; [exact Hr|]. intros w v. apply Hops.
Defined.

End LogExamples.
