(* ===== verification/WireExamples.v ===== *)
(** * Concrete connections, servers and elections

    A compact JSON text for the concrete values, and the theorems about the
    front ends, the remote shard, the coordinator and the election applied to
    concrete requests. *)

From S2P Require Import Prelude Machine Text Wire Partitioner Reshard Store MemoryStore Json Lease.
From S2P Require Import Shard Proto Resp Replica Redis Client Http Journal Cluster DataPlane.
From S2P Require Import Migration Scans Election Kvdb Ingest Coord Config Daemon Examples.
From S2P Require Import ClusterExamples Rbac NetAuth Gateway CoordServer Lmdb StoreEquiv Backends.
From S2P Require Import LogExamples Durability Tls Startup Pipeline Smart Lifetime.

Local Open Scope Z_scope.

Module WireExamples.
Import Examples.

(** ** JSON text *)

(** The double quote. *)
Definition QUOTE : ascii := byte 34.

Fixpoint print (v : json) : bytes :=
  match v with
  | JNull => as_bytes "null"
  | JBool b => as_bytes (if b then "true" else "false")
  | JInt z => as_bytes (i64_to_string z)
  | JStr s => QUOTE :: as_bytes s ++ [QUOTE]
  | JArr l => "["%char :: concat (map (λ x, print x ++ [","%char]) l) ++ ["]"%char]
  | JObj fs =>
      "{"%char :: concat (map (λ '(f, x), as_bytes f ++ ":"%char :: print x ++ [","%char]) fs)
        ++ ["}"%char]
  end.

(** Up to a delimiter, which is dropped. *)
Fixpoint until (d : ascii) (b : bytes) : bytes * bytes :=
  match b with
  | [] => ([], [])
  | a :: r => if decide (a = d) then ([], r) else let '(s, r') := until d r in (a :: s, r')
  end.

Fixpoint number (b : bytes) : bytes * bytes :=
  match b with
  | a :: r =>
      if (byte_val a =? 45) || ((48 <=? byte_val a) && (byte_val a <=? 57)) then
        let '(s, r') := number r in (a :: s, r')
      else ([], b)
  | [] => ([], [])
  end.

(** Items, each followed by a comma, up to the closing bracket. *)
Fixpoint items {A} (n : nat) (item : bytes → option (A * bytes)) (close : ascii) (b : bytes)
    : option (list A * bytes) :=
  match n, b with
  | S n, a :: r =>
      if decide (a = close) then Some ([], r)
      else
        '(x, b1) ← item b;
        match b1 with
        | _ :: b2 => '(xs, b3) ← items n item close b2; Some (x :: xs, b3)
        | [] => None
        end
  | _, _ => None
  end.

(** What [print] prints, strings being without quotes and escapes. *)
Fixpoint parse_value (n : nat) (b : bytes) : option (json * bytes) :=
  match n, b with
  | S n, a :: r =>
      if decide (a = QUOTE) then let '(s, b1) := until QUOTE r in Some (JStr (text s), b1)
      else if decide (a = "n"%char) then Some (JNull, drop 4 b)
      else if decide (a = "t"%char) then Some (JBool true, drop 4 b)
      else if decide (a = "f"%char) then Some (JBool false, drop 5 b)
      else if decide (a = "["%char) then
        '(l, b1) ← items (length b) (parse_value n) "]" r; Some (JArr l, b1)
      else if decide (a = "{"%char) then
        '(l, b1) ← items (length b) (λ b, let '(f, b1) := until ":" b in
                                          '(v, b2) ← parse_value n b1; Some ((text f, v), b2)) "}" r;
        Some (JObj l, b1)
      else let '(s, b1) := number b in z ← parse_i64 (text s); Some (JInt z, b1)
  | _, _ => None
  end.

Definition parse (b : bytes) : option json :=
  match parse_value (length b) b with Some (v, []) => Some v | _ => None end.

Example parse_print :
  let v := JObj [("a", JArr [JInt (-5); JStr "x"; JNull; JBool false]); ("b", JObj [])]%string in
  parse (print v) = Some v.
Proof. by vm_compute. Qed.

#[local] Instance json_wire : WireJson json := {
  value_to_vec := print;
  value_from_slice := parse;
  value_as_array v := match v with JArr l => Some l | _ => None end;
}.

#[local] Instance json_resp : RespValueLaws json.
Proof. by split. Qed.

#[local] Instance json_envelope : JsonEnvelope json := {
  value_null := JNull;
  value_is_null v := match v with JNull => true | _ => false end;
  value_of_fields := JObj;
  value_get v f := match v with JObj fs => field fs f | _ => None end;
  value_of_list := JArr;
  value_elems v := match v with JArr l => Some l | _ => None end;
  value_of_bool := JBool;
  value_bool v := match v with JBool b => Some b | _ => None end;
  value_of_u64 := JInt;
  value_u64 v := match v with JInt z => if decide (is_u64 z) then Some z else None | _ => None end;
}.

#[local] Instance json_envelope_laws : JsonEnvelopeLaws json.
Proof. split; try done. intros n Hn. cbn. by rewrite decide_True. Qed.

Definition empty : Shard.t mem := Shard.mk "s0" MemoryStore.new.

Lemma empty_wf : store_wf (Shard.store empty).
Proof. apply MemoryStore.wf_new. Qed.

Definition tick (n : nat) : Z := Z.of_nat n.

(** ** The binary protocol *)

Import Proto.

Definition calls : list (Proto.request json) :=
  [Set_ "kv" "a" (JStr "x"); Get "kv" "a"; Sadd "kv" "s" "m"; Srem "kv" "s" "n"; Del "kv" "a";
   Get "kv" "a"; Ping].

Lemma handle_terminates_witness :
  handle_loop 5 None tick 0 empty true (Proto.encode_request (Ping : Proto.request json))
  = Some (empty, [byte ST_OK]).
Proof.
  etrans; [apply (handle_terminates (V := json) None tick empty
                    (Proto.encode_request (Ping : Proto.request json)) 5); cbn; lia|].
  vm_compute. reflexivity.
Defined.

Lemma unauthenticated_inert_witness :
  ∃ out, (out = [] ∨ out = [byte ST_ABSENT])
    ∧ handle (V := json) (Some "secret") tick empty (flat_map Proto.encode_request calls) = (empty, out).
Proof.
  destruct (unauthenticated_inert (V := json) (St := mem) "secret" tick
              (flat_map Proto.encode_request calls)) as (out & Ho & Hh).
  - intros [r Hr]. vm_compute in Hr. discriminate.
  - exists out. split; [exact Ho|apply Hh].
Defined.

Lemma pipelined_calls_witness :
  ∃ out, (handle (V := json) (Some "t") tick empty (flat_map Proto.encode_request (login (Some "t") ++ calls))).2 = out
    ∧ decode_answers (login (Some "t") ++ calls) out
      = Some [Done; Done; Found (Some (JStr "x")); Flag true; Flag false; Done; Found None; Done].
Proof.
  destruct (pipelined_calls (Some "t"%string) tick empty calls empty_wf) as (out & Hh & Hd).
  - repeat constructor.
  - repeat constructor; by vm_compute.
  - by repeat constructor.
  - apply Forall_forall. intros a Ha. vm_compute in Ha.
    repeat (apply elem_of_cons in Ha as [->|Ha]; [by vm_compute|]). by apply elem_of_nil in Ha.
  - exists out. split; [by rewrite Hh|]. rewrite Hd. vm_compute. reflexivity.
Defined.

(** Two connections: one writes a key, and the other reads it after the writer
    task has committed. *)
Definition inputs : gmap nat bytes :=
  {[0%nat := Proto.encode_request (Set_ "kv" "a" (JStr "x")); 1%nat := Proto.encode_request (Get "kv" "a" : Proto.request json)]}.

Definition write_a : WriteReq json := mkWrite "kv" "a" (JStr "x") 0.

Definition trace : list (event json) :=
  [(0%nat, 5, Set_ "kv" "a" (JStr "x")); (1%nat, 7, Get "kv" "a")].

Definition waiting : server json mem :=
  Server empty [write_a] [] (<[0%nat := Conn true [] [] Waiting]> (fresh None <$> inputs)).

Lemma reach_waiting : steps (step None) (start None empty inputs) [] waiting.
Proof.
  eapply (steps_snoc _ _ [] _ []); [apply steps_refl|]. left.
  apply (conn_send None (start None empty inputs) 0%nat
           (fresh None (Proto.encode_request (Set_ "kv" "a" (JStr "x"))))
           (Set_ "kv" "a" (JStr "x")) [] "kv" "a" (JStr "x"));
    try (vm_compute; reflexivity). cbn. unfold CHAN_CAP. lia.
Qed.

Definition served : server json mem :=
  Server (Shard.write_batch empty [("kv", "a", JStr "x")]) [] []
    (<[1%nat := Conn true [] (byte ST_OK :: write_field (value_to_vec (JStr "x"))) Reading]>
       (ack (<[0%nat := Conn true [] [] Waiting]> (fresh None <$> inputs)) 0)).

Lemma reach_served : steps (step None) (start None empty inputs) trace served.
Proof.
  eapply (steps_snoc _ _ [(0%nat, 5, Set_ "kv" "a" (JStr "x"))] _ [(1%nat, 7, Get "kv" "a")]).
  - eapply (steps_snoc _ _ [] _ [(0%nat, 5, Set_ "kv" "a" (JStr "x"))]).
    + eapply (steps_snoc _ _ [] _ []); [apply reach_waiting|]. right.
      apply (writer_recv _ write_a []); [done|cbn; unfold BATCH_MAX; lia].
    + right. apply (writer_commit (Server empty [] [write_a] _) 5); [done|by right].
  - left. apply (conn_serve None
      (Server (Shard.write_batch empty [("kv", "a", JStr "x")]) [] []
         (ack (<[0%nat := Conn true [] [] Waiting]> (fresh None <$> inputs)) 0)) 1%nat
      (fresh None (Proto.encode_request (Get "kv" "a" : Proto.request json)))
      (Get "kv" "a") [] 7 (Shard.write_batch empty [("kv", "a", JStr "x")])
      (byte ST_OK :: write_field (value_to_vec (JStr "x")))); vm_compute; reflexivity.
Qed.



(** ** The RESP front end *)

Import Resp Redis.

Definition ticks (n i : nat) : Z := Z.of_nat (n + i).

Definition session : list cmd :=
  [SET "k" "1"; INCR "k"; GET "k"; SADD "s" ["m"; "n"; "m"]; SCARD "s"; DEL ["k"; "z"];
   SET "k" "abc"; INCR "k"].

Lemma session_ok : Forall cmd_ok session.
Proof. repeat constructor; try (by vm_compute). Qed.

Lemma empty_holds : holds empty ∅.
Proof.
  exists ClusterExamples.nothing. split; [|done].
  split; [apply MemoryStore.wf_new|]. intros c k _. done.
Qed.

Lemma resp_refines_redis_witness :
  (handle None ticks empty (concat (map encode_command (map to_args session)))).2
  = concat (map encode [Simple "OK"; Int 2; Bulk (Some (as_bytes "2")); Int 2; Int 2; Int 1;
                        Simple "OK"; Error "ERR value is not an integer or out of range"]).
Proof.
  destruct (resp_refines_redis None ticks empty ∅ session) as (sh' & Hh & _).
  - apply empty_holds.
  - vm_compute. reflexivity.
  - apply session_ok.
  - by repeat constructor.
  - constructor.
  - cbn [login app] in Hh. rewrite Hh. vm_compute. reflexivity.
Defined.

Definition pipeline : list (list bytes) :=
  [map as_bytes ["SET"; "k"; "1"]; map as_bytes ["LPUSH"; "l"]; map as_bytes ["QUIT"]]%string.

Lemma pipeline_ok : Forall args_ok pipeline.
Proof. repeat constructor; by vm_compute. Qed.

Lemma command_roundtrip_witness :
  commands_in 3 (concat (map encode_command pipeline) ++ []) = pipeline.
Proof.
  etrans; [apply (command_roundtrip pipeline [] 0 pipeline_ok)|]. apply app_nil_r.
Defined.

Lemma one_reply_per_command_witness :
  handle None ticks empty (concat (map encode_command pipeline))
  = ((run_all None ticks 0 empty true pipeline).1, concat (run_all None ticks 0 empty true pipeline).2).
Proof.
  pose proof (one_reply_per_command None ticks empty pipeline) as H.
  destruct (run_all None ticks 0 empty true pipeline) as [sh' outs] eqn:E.
  rewrite bool_decide_eq_true_2, E in H by done. apply H.
  repeat constructor; by vm_compute.
Defined.

Lemma resp_unauthenticated_inert_witness :
  ∃ out, ∀ sh : Shard.t mem,
    handle (Some "secret") ticks sh (concat (map encode_command pipeline)) = (sh, out).
Proof.
  apply (resp_unauthenticated_inert "secret" ticks (concat (map encode_command pipeline))).
  intros args Ha. vm_compute in Ha.
  repeat (apply elem_of_cons in Ha as [->|Ha]; [by vm_compute|]). by apply elem_of_nil in Ha.
Defined.

(** Three keys, two of them with the prefix. *)
Definition stocked : Shard.t mem :=
  Shard.write_batch empty [(COLL, "u:1", JStr "x"); (COLL, "v", JStr "y"); (COLL, "u:2", JStr "z")].

Lemma stocked_wf : store_wf (Shard.store stocked).
Proof.
  unfold stocked, Shard.write_batch. cbn [Shard.store Shard.with_store].
  rewrite put_batch_fold; [|apply empty_wf|done].
  unfold put_batch_default. cbn [foldl]. repeat (apply wf_put; [|done]). apply empty_wf.
Qed.

Lemma scan_complete_witness :
  scan_iter 3 0 stocked "0" 1 (Some "u:"%string) = Some ["u:1"; "u:2"]%string.
Proof.
  etrans; [apply (scan_complete 0 stocked 1 (Some "u:"%string) 3 stocked_wf)|].
  - lia.
  - intros H. vm_compute in H.
    repeat (apply elem_of_cons in H as [H|H]; [discriminate|]). by apply elem_of_nil in H.
  - vm_compute. lia.
  - vm_compute. reflexivity.
Defined.

(** ** The remote shard *)

(** The write and the reply as texts, there and back. *)
Lemma http_client_transparent_witness :
  Http.remote 2097152 (Http.CSetAdd json "kv" "s" "m") 7 stocked
  = let '(sh', r) := Http.local (Http.CSetAdd json "kv" "s" "m") 7 stocked in (sh', Ok r).
Proof.
  apply (Http.http_client_transparent (Http.CSetAdd json "kv" "s" "m") 2097152 7 stocked); [|done|].
  - split; [vm_compute; discriminate|vm_compute; reflexivity].
  - intros v Hv. vm_compute in Hv. injection Hv as <-. vm_compute. reflexivity.
Defined.

Lemma oversized_call_refused_witness :
  ∃ e, Http.remote 64 (Http.CImport json "kv" [("u:1", JStr "a value longer than the limit allows for"%string)])
         7 stocked = (stocked, Err e).
Proof.
  apply (Http.oversized_call_refused (Http.CImport json "kv" [("u:1", JStr "a value longer than the limit allows for"%string)]) 64 7 stocked).
  - lia.
  - vm_compute. reflexivity.
Defined.

(** ** The election *)

Definition polls : list Election.poll :=
  [Election.mkPoll "a" 0 Delivered; Election.mkPoll "b" 10 Delivered; Election.mkPoll "a" 100 Lost; Election.mkPoll "b" 310 Delivered;
   Election.mkPoll "a" 320 Delivered]%string.

Lemma at_most_one_leader_witness :
  Election.leads (λ _, 300) (Election.run (λ _, 300) polls) 330 "b"
  ∧ ¬ Election.leads (λ _, 300) (Election.run (λ _, 300) polls) 330 "a".
Proof.
  assert (Election.leads (λ _, 300) (Election.run (λ _, 300) polls) 330 "b") as Hb.
  { eexists _, _. split; [vm_compute; reflexivity|]. by vm_compute. }
  split; [exact Hb|].
  apply (Election.at_most_one_leader (λ _, 300) polls 330 "b" "a"); [| | |exact Hb|done].
  - intros p Hp i. unfold polls in Hp.
    repeat (apply elem_of_cons in Hp as [->|Hp]; [by vm_compute|]). by apply elem_of_nil in Hp.
  - split; [repeat constructor; cbn; lia|repeat constructor; cbn; lia].
  - by vm_compute.
Defined.

(** ** A rebalance and the leader *)

#[local] Existing Instance ClusterExamples.calm.
#[local] Existing Instance ClusterExamples.calm_reliable.
#[local] Existing Instance ClusterExamples.codec.

Definition leased : mem :=
  put_object MemoryStore.new Lease.LEASE_COLL Lease.LEADER_KEY
    (value_from_lease (Lease.mk "c1" 100000 7)).

Lemma leased_wf : store_wf leased.
Proof. apply wf_put; [apply MemoryStore.wf_new|done]. Qed.

(** The member "a" holds a lease of coordinator "c1" with fencing token 7. *)
Definition led : world mem :=
  mkWorld {["a" := Shard.mk "a" leased; "b" := Shard.mk "b" MemoryStore.new]} 0.

Lemma led_wf : Election.all_wf led.
Proof.
  intros r sh. cbn [shards led]. rewrite lookup_insert_Some, lookup_singleton_Some.
  intros [[_ <-]|[_ [_ <-]]]; [apply leased_wf|apply MemoryStore.wf_new].
Qed.

Lemma rebalance_forgets_leader_witness :
  let '(w', (cl', _)) := Cluster.rebalance (V := json) ClusterExamples.cl ["b"] led in
  (Cluster.try_acquire_leadership (V := json) ClusterExamples.cl "c1" 300 led).2
  = Some {| Lease.granted := true; Lease.lease := Lease.mk "c1" 300 7 |}
  ∧ (Cluster.try_acquire_leadership (V := json) cl' "c2" 300 w').2
    = Some {| Lease.granted := true; Lease.lease := Lease.mk "c2" (u64_add (clock (Client.tick w')) 300) 1 |}.
Proof.
  destruct (Cluster.rebalance (V := json) ClusterExamples.cl ["b"] led) as [w' [cl' sm]] eqn:E.
  split; [vm_compute; reflexivity|].
  apply (Election.rebalance_forgets_leader ClusterExamples.cl ["b"] led w' cl' sm "b"
           (ClusterExamples.handle "b") (Shard.mk "b" MemoryStore.new) "c2" 300).
  - apply led_wf.
  - vm_compute. intros H. repeat (apply elem_of_cons in H as [H|H]; [discriminate|]).
    by apply elem_of_nil in H.
  - reflexivity.
  - exact E.
  - vm_compute. reflexivity.
  - apply (bool_decide_unpack _). vm_compute. exact I.
  - by apply list_elem_of_singleton.
  - vm_compute. reflexivity.
  - vm_compute. reflexivity.
  - done.
  - reflexivity.
Defined.

(** ** A client pointed at a coordinator *)

Lemma coordinator_looks_like_a_shard_witness :
  (Coord.remote 2097152 ClusterExamples.cl (Http.CIncr json "kv" "n" 5) ClusterExamples.w0).2 = Ok (Some 5).
Proof.
  rewrite (Coord.coordinator_looks_like_a_shard (Http.CIncr json "kv" "n" 5) 2097152 ClusterExamples.cl
             (Cluster.incr (V := json) ClusterExamples.cl "kv" "n" 5) ClusterExamples.w0).
  - vm_compute. reflexivity.
  - reflexivity.
  - split; [vm_compute; discriminate|vm_compute; reflexivity].
  - by vm_compute.
  - intros z Hz. vm_compute in Hz. injection Hz as <-. by vm_compute.
  - intros v Hv. vm_compute in Hv. injection Hv as <-. vm_compute. reflexivity.
Defined.

(** ** Tokens and collections *)

Definition scope : string := "t:kv:rw;u:secret:r".

Definition pol : Rbac.Policy :=
  match Rbac.parse scope with inr p => p | inl _ => Rbac.mkPolicy ∅ end.

(** Nothing depends on how a query is decoded here. *)
Definition no_query (_ : string) : list (string * string) := [].

Definition post (path : string) (q : option string) (v : json) : NetAuth.Request :=
  NetAuth.mkRequest path q true (Some "Bearer t"%string) (text (print v)).

Definition write_kv : json :=
  Http.ser_write (Http.mkWrite "kv" "k" (JStr "x") None).

Lemma scoped_token_confined_witness :
  Rbac.parse scope = inr pol
  ∧ Gateway.untouched "secret" stocked
      (Gateway.serve no_query 2097152 (Gateway.RequirePolicy pol) (post "/write" None write_kv) 7 stocked).1.
Proof.
  assert (Hp : Rbac.parse scope = inr pol) by (vm_compute; reflexivity). split; [exact Hp|].
  apply (Gateway.scoped_token_confined no_query scope pol 2097152 (post "/write" None write_kv) 7
           stocked "secret" Hp stocked_wf).
  - reflexivity.
  - done.
  - intros token e Ht He Hg. cbn in Ht. injection Ht as Ht.
    change ("t"%string = token) in Ht. subst token. vm_compute in He. destruct Hg as (p0 & p1 & p2 & Hs & Htok & Hcoll & _).
    repeat (apply elem_of_cons in He as [->|He];
      [vm_compute in Hs; injection Hs as <- <- <-; destruct Hcoll as [Hcoll|Hcoll];
       vm_compute in Htok, Hcoll; discriminate|]).
    by apply elem_of_nil in He.
  - intros v c k _ _ _. repeat split; intros; exact I.
Defined.

Lemma scope_bypass_by_query_witness :
  Rbac.principal pol "t" = Some (Rbac.mkPrincipal "t" [Rbac.mkGrant "kv" true true false false])
  ∧ let '(sh', r) :=
      Gateway.serve no_query 2097152 (Gateway.RequirePolicy pol)
        (NetAuth.mkRequest "/write" (Some ("coll=" ++ "kv")%string) true (Some ("Bearer " ++ "t")%string)
           (text (value_to_vec (Http.ser_write (Http.mkWrite "secret" "k" (JStr "x") None)))))
        7 stocked in
    Http.status <$> r = Some 200 ∧ ∀ t, Shard.object t sh' "secret" "k" = Some (JStr "x").
Proof.
  assert (Hp : Rbac.principal pol "t"
               = Some (Rbac.mkPrincipal "t" [Rbac.mkGrant "kv" true true false false]))
    by (vm_compute; reflexivity).
  split; [exact Hp|].
  apply (Gateway.scope_bypass_by_query no_query pol 2097152 7 stocked "t"
           (Rbac.mkPrincipal "t" [Rbac.mkGrant "kv" true true false false]) "kv" "secret" "k" (JStr "x") Hp).
  - reflexivity.
  - vm_compute. reflexivity.
  - vm_compute. reflexivity.
  - apply stocked_wf.
  - done.
  - split; [vm_compute; discriminate|vm_compute; reflexivity].
Defined.

(** ** A control request *)

(** This coordinator has no queue. *)
#[local] Instance no_ops : Ingest.IngestCodec json :=
  {| Ingest.op_to_string := λ _, EmptyString; Ingest.op_of_string := λ _, None |}.

Definition follower : CoordServer.t (gmap string string) :=
  CoordServer.mk ClusterExamples.cl (Some (Election.new "c1")) None.

Lemma control_is_gated_witness :
  let '(w', (co', _)) :=
    CoordServer.serve (V := json) no_query 2097152 (Gateway.RequirePolicy pol) follower
      (post "/admin/rebalance" None (JObj [("nodes", JArr [JStr "b"])])) ClusterExamples.w0 in
  w' = ClusterExamples.w0 ∧ co' = follower.
Proof.
  pose proof (CoordServer.control_is_gated (V := json) no_query scope pol 2097152 follower
    (post "/admin/rebalance" None (JObj [("nodes", JArr [JStr "b"])])) ClusterExamples.w0) as H.
  destruct (CoordServer.serve _ _ _ _ _ _) as [w' [co' r]].
  destruct H as [H|[(l & Hl & Hlead) _]].
  - vm_compute. reflexivity.
  - reflexivity.
  - exact H.
  - cbn in Hl. injection Hl as <-. discriminate.
Defined.

(** ** The durable write path *)

(** An operation as the number of its fields. *)
Definition op_fields (o : Ingest.IngestOp json) : string * string * string * json :=
  match o with
  | Ingest.Put c k v => ("p", c, k, v)
  | Ingest.SetAdd c k m => ("a", c, k, JStr m)
  | Ingest.SetRemove c k m => ("r", c, k, JStr m)
  | Ingest.Delete c k => ("d", c, k, JNull)
  end%string.

Definition op_of_fields (x : string * string * string * json) : option (Ingest.IngestOp json) :=
  let '(tag, c, k, v) := x in
  if String.eqb tag "p" then Some (Ingest.Put c k v)
  else if String.eqb tag "d" then Some (Ingest.Delete c k)
  else m ← json_str v; Some (if String.eqb tag "a" then Ingest.SetAdd c k m else Ingest.SetRemove c k m).

#[local] Instance json_ops : Ingest.IngestCodec json := {
  Ingest.op_to_string o := LogExamples.enc_pos (countable.encode (op_fields o));
  Ingest.op_of_string s := countable.decode (LogExamples.dec_pos s) ≫= op_of_fields;
}.

#[local] Instance json_ops_laws : Ingest.IngestCodecLaws json.
Proof.
  split. intros o. cbn [Ingest.op_to_string Ingest.op_of_string json_ops].
  rewrite LogExamples.dec_enc_pos, countable.decode_encode. by destruct o.
Qed.

Definition write_kv_a : bytes := print (Http.ser_write (Http.mkWrite "kv" "a" (JStr "x") None)).

(** A write, a body that is not JSON, and another write of the same key. *)
Definition path_events : list Pipeline.write_event :=
  [Pipeline.Post write_kv_a; Pipeline.Tick; Pipeline.Post [byte 0];
   Pipeline.Post (print (Http.ser_write (Http.mkWrite "kv" "a" (JStr "y") None)))].

(** The same, after the move to two members. *)
Definition two_members : bytes := print (JObj [("nodes", JArr [JStr "a"; JStr "b"])]%string).
Definition moving_events : list Pipeline.write_event := Pipeline.Rebalance two_members :: path_events.

Definition leading : Election.Leadership := Election.mkLeadership "c1" true 1 "c1".

Definition queued : CoordServer.t LogExamples.disk :=
  CoordServer.mk ClusterExamples.cl (Some leading) (Some (Ingest.open db_empty db_empty)).

Lemma moving_events_ok :
  Pipeline.events_ok (V := json) 2097152 queued moving_events ClusterExamples.w0.
Proof.
  unfold moving_events. split.
  - intros v ns Hv Hns.
    assert (value_from_slice two_members = Some (JObj [("nodes", JArr [JStr "a"; JStr "b"])]%string)) as Hp
      by (vm_compute; reflexivity).
    rewrite Hp in Hv. injection Hv as <-. cbn in Hns. injection Hns as <-.
    apply ClusterExamples.two_target.
  - destruct (Pipeline.on_event _ _ _ _) as [w1 co1]. by apply Pipeline.plain_events_ok.
Qed.

Lemma accepted_writes_reach_cluster_witness :
  let '(w', co') :=
    Pipeline.run (V := json) (D := LogExamples.disk) 2097152 queued
      (moving_events ++ replicate 1 Pipeline.Tick) ClusterExamples.w0 in
  (Cluster.get (V := json) (CoordServer.cluster co') "kv" "a" w').2 = Some (JStr "y").
Proof.
  pose proof (Pipeline.accepted_writes_reach_cluster (V := json) (D := LogExamples.disk) 2097152
    ClusterExamples.cl (Some leading) ClusterExamples.nothing moving_events 1 ClusterExamples.w0) as H.
  assert (Ha : Pipeline.accepted (V := json) 2097152 moving_events
    = [Ingest.Put "kv" "a" (JStr "x"); Ingest.Put "kv" "a" (JStr "y")]) by (vm_compute; reflexivity).
  rewrite Ha in H. cbv zeta in H. fold queued in H.
  destruct (Pipeline.run _ _ _ _) as [w' co']. destruct H as (_ & _ & _ & Hget).
  - apply ClusterExamples.cl_stable.
  - apply ClusterExamples.cl_inv.
  - repeat (apply Forall_cons; split; [split; [left|done]|]). apply Forall_nil. exact I.
  - apply moving_events_ok.
  - vm_compute. reflexivity.
  - unfold Pipeline.DRAIN_LIMIT. cbn [length]. lia.
  - rewrite (Hget "kv" "a" ltac:(left))%string. reflexivity.
Defined.

(** ** Two backends *)

#[local] Existing Instance LogExamples.json_codec.
#[local] Existing Instance LogExamples.json_codec_laws.

Abbreviation durable := (Lmdb.t LogExamples.disk).

Lemma durable_key_ok c k xs :
  Lmdb.names_ok c k = true → Http.key_ok (V := json) (St := durable) c k xs.
Proof.
  intros Hn. assert (Hv : ∀ v : json, entry_ok (St := durable) c k v).
  { intros v. split; [done|]. apply LogExamples.json_text_roundtrip. }
  split; [intros z _; apply Hv|]. split; [intros l; apply Hv|]. split; [intros l; apply Hv|].
  intros x _. apply Hv.
Qed.

Definition resp (now : Z) (args : list string) : Backends.event (V := json) :=
  Backends.EResp (λ _, now) true (map as_bytes args).

(** A write that expires, one that does not, commands without arguments, reads, a
    sweep, and a scan. *)
Definition node_events : list (Backends.event (V := json)) :=
  [Backends.EHttp 1 (Http.PostReq "/write" (print (Http.ser_write (Http.mkWrite "kv" "a" (JStr "x") (Some 4)))));
   resp 1 ["PING"]; resp 2 ["SET"; "b"; "y"]; resp 2 ["DBSIZE"];
   Backends.EBin 3 (Get "kv" "a"); resp 3 ["GET"; "b"]; Backends.ESweep 6;
   Backends.EHttp 7 (Http.GetReq "/scan" [("coll", "kv")])]%string.

(** A command that does not write fits anything. *)
Ltac reads_only := split; [|split]; intros E; vm_compute in E; discriminate E.

Lemma set_fits : Backends.command_fits (V := json) durable "SET" (map as_bytes ["SET"; "b"; "y"]%string).
Proof.
  split; [|split]; intros E; [|vm_compute in E; discriminate E..].
  split; [by vm_compute|]. apply LogExamples.json_text_roundtrip.
Qed.

Lemma node_events_ok : Forall (Backends.event_ok durable) node_events.
Proof.
  apply Forall_cons. split.
  { cbn [Backends.event_ok Backends.names_ok]. unfold Http.keys_ok. intros v c k Hv Hc Hk.
    assert (value_from_slice (print (Http.ser_write (Http.mkWrite "kv" "a" (JStr "x") (Some 4))))
            = Some (Http.ser_write (Http.mkWrite "kv" "a" (JStr "x") (Some 4)))) as Hp
      by (vm_compute; reflexivity).
    rewrite Hp in Hv. injection Hv as <-. cbn in Hc. injection Hc as <-.
    cbn in Hk. apply list_elem_of_singleton in Hk as ->. apply durable_key_ok. vm_compute. reflexivity. }
  apply Forall_cons. split; [reads_only|]. apply Forall_cons. split; [exact set_fits|].
  apply Forall_cons. split; [reads_only|]. apply Forall_cons. split; [split; exact I|].
  apply Forall_cons. split; [reads_only|]. repeat (apply Forall_cons; split; [exact I|]).
  apply Forall_nil. exact I.
Qed.


(** ** A daemon with three ports *)

Definition argv : list string :=
  ["--auth-token"; "s"; "--bin-bind"; "b"; "--resp-bind"; "r"; "--tls-insecure"]%string.

Definition three_ports : list (Startup.Port (Addr := string) (Config := unit)) :=
  [Startup.BinPort "b" (Some "s"%string) None; Startup.RespPort "r" (Some "s"%string);
   Startup.HttpPort "0.0.0.0:8100" (Gateway.RequireBearer (Some "s"%string)) None].

Lemma credential_guards_every_port_witness :
  ∃ a, Startup.parse_args None argv = inr a
    ∧ Startup.keeps_out (V := json) (St := mem) no_query 2097152 a "s"
        (Startup.RespPort (Config := unit) "r"%string (Some "s"%string)).
Proof.
  eexists. split; [vm_compute; reflexivity|].
  apply (Startup.credential_guards_every_port (Cert := unit) (Key := unit) (D := gmap string string)
    Some (λ _, true) (λ _, None) (λ _, None) (λ _, None) (λ _, None) (λ _ _, None)
    no_query 2097152 None argv _ (Some (Tls.mkClientTls None true)) "stplrd" Startup.InMemory three_ports).
  - vm_compute. reflexivity.
  - vm_compute. reflexivity.
  - reflexivity.
  - right. left.
Defined.

(** ** The life of a small cluster *)

Definition coordinator_argv : list string :=
  ["--role"; "coordinator"; "--shards"; "a=h1:1, b=h2:2"; "--replication"; "1"]%string.

Definition coordinator_args : Startup.Args :=
  match Startup.parse_args None coordinator_argv with inr a => a | inl _ => Startup.defaults None end.

Definition two_urls : gmap string string :=
  {["a" := "http://h1:1"; "b" := "http://h2:2"]}%string.

Definition two_shards : Client.world mem :=
  Client.mkWorld {["http://h1:1" := Shard.mk "a" MemoryStore.new;
                   "http://h2:2" := Shard.mk "b" MemoryStore.new]}%string 0.

Definition small : Cluster.t := Lifetime.start_cluster id two_urls 1 ∅.

Lemma two_urls_lookup i u :
  two_urls !! i = Some u → (i = "a" ∧ u = "http://h1:1")%string ∨ (i = "b" ∧ u = "http://h2:2")%string.
Proof.
  unfold two_urls. rewrite lookup_insert_Some, lookup_singleton_Some. naive_solver.
Qed.

Lemma two_well_named : Lifetime.well_named id two_urls.
Proof.
  split.
  - intros i j [u [[-> _]|[-> _]]%two_urls_lookup] [v [[-> _]|[-> _]]%two_urls_lookup]; try done;
      vm_compute; discriminate.
  - intros i j u v [[-> ->]|[-> ->]]%two_urls_lookup [[-> ->]|[-> ->]]%two_urls_lookup; try done;
      vm_compute; discriminate.
Qed.

Lemma empty_shows_nothing n cs :
  Replica.shows (V := json) cs (Shard.mk n (MemoryStore.new : mem)) (λ _ _, None).
Proof. split; [apply MemoryStore.wf_new|]. intros c k _. done. Qed.

Lemma two_fresh : Lifetime.fresh (V := json) id two_urls two_shards.
Proof.
  intros i u [[-> ->]|[-> ->]]%two_urls_lookup; eexists; (split; [reflexivity|]);
    apply empty_shows_nothing.
Qed.

(** A write, the drain of a node, a read. *)
Lemma put_drain_get (cl : Cluster.t) (w : Client.world mem) (p g : DataPlane.dop (V := json)) n :
  let w1 := (DataPlane.run_dop cl p w).1 in
  let d := Cluster.drain (V := json) cl n w1 in
  DataPlane.dop_ok (V := json) (St := mem) cl p → (∃ m, m ∈ Cluster.member_ids cl ∧ m ≠ n) →
  DataPlane.dop_ok (V := json) (St := mem) d.2.1 g →
  Lifetime.lives cl w [p; g] [(DataPlane.run_dop cl p w).2; (DataPlane.run_dop d.2.1 g d.1).2]
    d.2.1 (DataPlane.run_dop d.2.1 g d.1).1.
Proof.
  intros w1 d Hp Hm Hg. apply Lifetime.life_op; [done|]. eapply Lifetime.life_drain; [done|].
  apply Lifetime.life_op; [done|]. apply Lifetime.life_here.
Qed.

Definition put_one : DataPlane.dop (V := json) := DataPlane.DPut "kv" "x" (JInt 1).
Definition get_one : DataPlane.dop (V := json) := DataPlane.DGet "kv" "x".
Definition after_put : Client.world mem := (DataPlane.run_dop small put_one two_shards).1.
Definition drained : Client.world mem * (Cluster.t * Cluster.MigrateSummary) :=
  Cluster.drain (V := json) small "b" after_put.
Definition reply : DataPlane.dres (V := json) := (DataPlane.run_dop small put_one two_shards).2.
Definition answer : DataPlane.dres (V := json) := (DataPlane.run_dop drained.2.1 get_one drained.1).2.

Lemma drained_colls : Cluster.colls drained.2.1 = ["kv"; "sets"]%string.
Proof.
  assert (Hs : Migration.stable small).
  { apply Lifetime.start_stable; [done|apply two_well_named]. }
  pose proof (DataPlane.run_dops_spec small (λ _ _, None) [put_one] two_shards
    (Migration.stable_cluster_ok _ Hs)) as Hp.
  destruct Hp as [_ Hi]; [|by apply Lifetime.start_inv, two_fresh|].
  { intros o ->%list_elem_of_singleton. by split; [left|]. }
  destruct (Migration.drain_target small "b" Hs) as [_ Hnd _ _].
  { exists "a"%string. split; [|done]. apply (bool_decide_unpack _). vm_compute. exact I. }
  pose proof (Migration.rebalance_ended small _ _ Hs Hnd _ Hi) as Hr.
  change (Cluster.rebalance small _ _) with drained in Hr.
  destruct drained as [w' [cl' s]]. by destruct Hr as (_ & Hl & _).
Qed.

Lemma started_cluster_is_one_map_witness :
  [reply; answer] = [DataPlane.RUnit; DataPlane.RVal (Some (JInt 1))].
Proof.
  destruct (Lifetime.started_cluster_is_one_map (St := mem) id (Cert := unit) (Key := unit) (Config := unit)
    (D := gmap string string) Some (λ _, true) (λ _, None) (λ _, None) (λ _, None) (λ _, None)
    (λ _ _, None) coordinator_args two_urls None 1 ∅ None None
    (Startup.HttpPort "0.0.0.0:8100"%string (Gateway.RequireBearer None) None)
    two_shards [put_one; get_one] [reply; answer] drained.2.1
    (DataPlane.run_dop drained.2.1 get_one drained.1).1) as [Hr _].
  - vm_compute. reflexivity.
  - apply two_well_named.
  - apply two_fresh.
  - apply (put_drain_get small two_shards put_one get_one "b").
    + by split; [left|].
    + exists "a"%string. split; [|done]. apply (bool_decide_unpack _). vm_compute. exact I.
    + split; [|done]. fold after_put drained. rewrite drained_colls. left.
  - rewrite Hr. reflexivity.
Defined.

End WireExamples.
